(* ===== verification/_CoqProject ===== *)
-Q . S2P
Prelude.v
Hash.v
GoStrings.v
WalSegment.v
Monad.v
Wal.v
WalInv.v
WalCrash.v
WalRun.v
WalConc.v
WalRetain.v
WalReader.v
WalReaderInv.v
WalProps.v
WalConcProps.v
WalFollow.v
GoSort.v
GoFloat.v
GoUtf8.v
Sha1.v
GoRegexp.v
GoPath.v
GoJson.v
GoJsonEnc.v
Grouping.v
GroupingProps.v
Envelope.v
EnvelopeProps.v
IngestEvent.v
Lru.v
Ring.v
Membership.v
Authz.v
RateLimit.v
Hll.v
EventStore.v
EventStoreProps.v
EventStoreRun.v
Pipeline.v
PipelineProps.v
PipelineRun.v
PipelineDrain.v
PipelineLive.v
Sql.v
MetaConc.v
MetaDb.v
MetaOpen.v
MetaIssues.v
MetaConcProps.v
IssuesProps.v
MetaAuth.v
Alerts.v
AlertsProps.v
Search.v
SearchProps.v
Sha256.v
Base64.v
HllText.v
Password.v
Config.v
GoHttp.v
IngestHttp.v
IngestHttpProps.v
Api.v
ApiFrame.v
ApiProps.v
ApiTenancy.v
GoFlag.v
Router.v
Server.v
Cmd.v
Sink.v
SinkProps.v
EndToEnd.v
Checkpoint.v
Tables.v
TablesRun.v
Serve.v
WalBench.v
LoadGen.v
