(* ===== verification/Prelude.v ===== *)
(** * leser: verification development

    leser is an error-tracking server in one binary: clients post Sentry
    envelopes over HTTP; each accepted body becomes a record of a write-ahead
    log; a consumer reads the log, extracts events, groups them into issues,
    stores them in columnar segments and feeds alert rules; a REST API serves
    issues, events and statistics out of an SQLite file and the segments.

<<
    POST -> ingest/http.go -> pipeline.go Submit -> wal.go
                                                      |
      eventstore/store.go <- pipeline.go Run <- wal/reader.go
                                   |
                        main.go issueSink -> metadata/issues.go -> alerts.go
      api.go -> metadata/*.go, main.go closures -> eventstore/query.go, aggregate.go
>>

    ** Conventions

    Integers of the code are [Z] with wrap-around written where it happens
    ([u64], [i64] of this file); Go strings and byte slices are [string] and
    [list byte]; maps are [gmap], and the order in which [range] visits one is
    an argument ([MapRange], GoSort.v). A method that may fail is a
    computation of [M S E A] (Monad.v): the new state is kept on errors. A
    file system, a clock, a random source, a [select] and a database each come
    as a schedule of outcomes or an argument, so theorems that quantify over
    them cover every failure and every timing. Libraries whose source is not
    part of the repository are parameters, with what the code relies on as
    class laws or hypotheses: Parquet ([EventStore.Parquet]), [sort.Slice]
    ([SliceSort]), Argon2 ([IDKey]), the decompressors, time.Parse,
    strconv.ParseFloat, math.Log, url.Parse, ServeMux, the member list of the
    gossip library, the Unicode lower-case table. What the code uses of the
    language's own library is defined: GoStrings, GoUtf8, GoSort,
    GoFloat (binary64), GoJson and GoJsonEnc (encoding/json), GoRegexp, GoPath, GoHttp,
    GoFlag, Hash, Sha1, Sha256, Base64.

    ** Parts, by directory of src/

    - internal/wal: WalSegment (file names, headers, records, scanner), Wal
      (Open, recovery, the append path and the writer's turns, roll, Retain,
      Refresh, over a directory that knows what is synced), WalReader (readers
      and offset files). WalInv, WalCrash, WalRun, WalRetain and WalReaderInv
      prove the invariant, the crash relation (a crash keeps what was fsynced
      and any prefix of the rest), whole lives of a log, retention and
      consumers; WalProps states what the log promises. WalConc has the
      goroutines of Append, writeLoop and Close as a step relation with its
      invariant, WalConcProps what concurrent callers may rely on, Submit and
      the ingest handler among them (IngestHttpProps);
      WalFollow is a read-only log that follows its owner by Refresh.
    - internal/grouping: Grouping (frames, in-app rules, normalisation,
      fingerprints); GroupingProps, whose second module evaluates the
      repository's own corpus.
    - internal/ingest: Envelope and EnvelopeProps (envelope.go), IngestEvent
      (event.go), Pipeline with PipelineProps, PipelineRun, PipelineDrain and
      PipelineLive (pipeline.go), IngestHttp and IngestHttpProps (http.go).
    - internal/eventstore: EventStore (store.go, query.go, aggregate.go), Hll
      and HllText (hll.go), EventStoreProps (one flush, scans, aggregation),
      EventStoreRun (many flushes; segment names do not collide in a process),
      whose second module lets queries, appends and the steps of a flush
      interleave.
    - internal/metadata: Sql (a Write and its transaction), MetaConc (the
      writer goroutine, its callers and Close as a step relation) with
      MetaConcProps, MetaDb (tables, migrations, organisations, projects,
      keys, checkpoints), MetaOpen (Open, and what a failed one leaves),
      MetaIssues with IssuesProps, MetaAuth (users, sessions, tokens, audit),
      and the alert rules in Alerts. Tables and TablesRun: when the tables are
      well typed, and that every operation of the node keeps them so.
    - internal/alerts: Alerts (engine, workers, breaker; its second module is
      metadata/alerts.go) and AlertsProps.
    - internal/api: Api (routes, dispatch, handlers), ApiFrame, ApiProps,
      ApiTenancy.
    - internal/auth, authz, config, search, cache, cluster, ratelimit, server,
      logging, buildinfo: Password, Authz, Config, Search(Props), Lru, Ring and
      Membership, RateLimit, Server.
    - cmd/leser: Router (router.go), Cmd (the commands and the decisions of
      serve), Sink (issueSink and the API's queries), Checkpoint; SinkProps and
      EndToEnd compose the parts as main does. Serve is cmdServe over one
      state of the three stores, from its arguments to its deferred calls;
      its second module says what a role keeps of them.
    - bench, conformance: WalBench (walbench over any disk and clock, and why
      its records are not the log's), LoadGen (loadgen's senders as
      interleaved steps, its percentiles and gates; the Go sender).

    ** What the theorems show

    - Durability: an acknowledged record survives every crash and reopen;
      recovery yields a good log again; corrupt records are refused; readers
      deliver in order; offsets move atomically; retention keeps what is
      needed (WalProps). Concurrent appends are linearized on a working disk,
      and the writer leaves no call without an answer, an error perhaps,
      whatever the disk does (WalConcProps); a read-only log answers like its owner
      after every refresh (WalFollow).
    - Delivery: Run stores every event exactly once relative to what its
      duplicate window knows, reports each to the issue sink once and in
      order, and never commits past rows that are not in segments, but for
      the events behind the place where a shutdown cut a record short, whose
      rows are lost and passed over ([shutdown_loses_event] shows that case);
      also while the log grows under it (PipelineLive); it returns once its
      context is done, also out of the retry loop of a full buffer, and on a
      working disk drains the log; composed with
      the sink, the issue streams grow by exactly the stored events
      (PipelineRun, PipelineDrain, EndToEnd).
    - Queries: scans and aggregations with all their pruning equal the filter
      and the fold over all rows; a failed flush loses no row; a query that
      runs while rows arrive and are flushed answers as of its snapshot, and
      misses exactly the rows of the flush then under way; event searches
      return exactly the fingerprints of matching rows; issue listings are the
      newest matching issues, LIKE patterns and escapes included.
    - Process: the boot opens, joins and starts in one order and closes in
      the opposite one wherever it ends, with code 0 exactly after serving
      (Serve); a role that does not ingest changes no file of the log that its
      own work does not change (Serve).
    - Store: the tables stay well typed whatever happens (TablesRun); any
      interleaving of concurrent writes equals the writes one after the other,
      and every queued write is answered (MetaConcProps); a failed Open leaves
      the schema of some version, from which the next one goes on (MetaOpen).
    - Issues: merges stay one hop deep under every sequence of operations,
      upserts count once, a merge adds the counts of the sources as listed to
      the target and conserves their sum if they are distinct and unmerged.
    - Access: whatever database calls fail, a request reads and changes rows
      of the caller's organisation and project only; revocation is final; a
      role permits what its table lists; a revoked DSN key dies within sixty
      seconds; an ingest request that is answered 200 has its record in the
      concurrent log, any other answer is counted as the code counts it.
    - Parsing and encoding: the envelope parser equals a parser of the byte
      sequence and inverts the writer; record scanning, search filters,
      password hashes and checkpoints round-trip; grouping goes by an explicit
      evidence and by nothing else, and tells different evidence apart.
    - Tools: a run of the append benchmark leaves what it wrote, and syncs as
      its mode says; the load generator counts every request once and passes
      exactly within its gates.
    - Alerts, cache, ring, limiter: every notification is accounted for and
      spaced by its cooldown; the LRU refines a reference cache; a joining
      node only takes keys over; nodes that publish their metadata agree on
      routes; the limiter in binary64 equals an integer token bucket for each
      tracked project, on a clock of 512ths of a second, and admits the
      projects its table has no room for; a refused request is told to wait
      exactly as long as it must.

    ** Bounds and fuel

    [Search] (Monad.v) has as much fuel as elements, and its interval shrinks
    every turn. A schedule of Run's selects that has ended is a context that is
    done; Run's loop and the retry loop around Append each have fuel for one
    turn more than the schedule, and every turn reads one select. Without fuel
    Run has no result and the retry loop sets [p_hung]; [Run_terminates] shows
    that neither happens, because the code has a case for the done context. Scanners and parsers recurse on the bytes left or with fuel their
    length bounds, and equivalence theorems show the fuel never shows. A
    repetition of a regular expression has as many turns as there is text.
    [budget] bounds a
    run so that the 64-bit flush counter cannot wrap.

    ** Limits of the model

    The log rests during [Run]; PipelineLive lets the writer add records
    between the turns of the loop, not within one. One clock reading serves the processing of one
    record. Requests to the API run one at a time, each statement and commit
    free to fail; queries of the event store run beside one another and beside
    flushes (EventStoreRun). Rowids do not reach 2^63; text with NUL bytes and the order of equal
    sort keys are the database's; created_at columns, which nothing reads, are
    left out. The partition directory is its (project, hour) pair. The event
    store keeps footers as values, whose text HllText proves faithful. The
    JSON of webhooks and API answers is the value encoded, not its text.

    What the goroutines and handlers of serve do to the stores while it
    serves is one function of Serve; their own files model it. Not modelled:
    the banner and the log lines, the gossip protocol, the mux, the listener
    and the file server of net/http, the SQLite driver, the web assets, and
    the conformance programs in other languages: they are input and output, or
    calls into libraries. *)
From Stdlib Require Export ZArith Lia.
From Stdlib Require Export Strings.Ascii Strings.String Strings.Byte.
From stdpp Require Export prelude gmap strings list list_numbers sorting.

Declare Scope leser_scope.
Delimit Scope leser_scope with leser.
#[global] Open Scope Z_scope.
#[global] Open Scope leser_scope.

(** ** Hint databases and tactics of the development *)
Create HintDb leser discriminated.
Create Rewrite HintDb leser_len.

(** Split conjunctions in hypotheses, substitute equations, invert
    constructor equalities: the opening move of most case analyses. *)
Ltac inv_all :=
  repeat match goal with
  | H : _ /\ _ |- _ => destruct H
  | H : exists _, _ |- _ => destruct H
  | H : Some _ = Some _ |- _ => injection H as H; subst
  | H : inl _ = inl _ |- _ => injection H as H; subst
  | H : inr _ = inr _ |- _ => injection H as H; subst
  | H : (_, _) = (_, _) |- _ => injection H as ? ?; subst
  | H : Some _ = None |- _ => discriminate H
  | H : None = Some _ |- _ => discriminate H
  | H : inl _ = inr _ |- _ => discriminate H
  | H : inr _ = inl _ |- _ => discriminate H
  | H : true = false |- _ => discriminate H
  | H : false = true |- _ => discriminate H
  end.

(** Lengths of list expressions, then linear arithmetic. *)
Ltac len :=
  autorewrite with leser_len in *; simpl in *; try lia.

(** Case analysis on every boolean Z comparison of the goal. *)
Ltac zcases :=
  repeat match goal with
  | |- context [?a <? ?b] => destruct (Z.ltb_spec a b); try lia
  | |- context [?a <=? ?b] => destruct (Z.leb_spec a b); try lia
  | |- context [?a =? ?b] => destruct (Z.eqb_spec a b); try lia
  end.

Ltac zcases_in H :=
  repeat match type of H with
  | context [?a <? ?b] => destruct (Z.ltb_spec a b); try lia
  | context [?a <=? ?b] => destruct (Z.leb_spec a b); try lia
  | context [?a =? ?b] => destruct (Z.eqb_spec a b); try lia
  end.

(** ** Machine integers

    Go's unsigned arithmetic wraps at the width; signed conversions
    reinterpret the two's-complement bits. *)
Definition u8 (z : Z) : Z := z mod 2 ^ 8.
Definition u32 (z : Z) : Z := z mod 2 ^ 32.
Definition u64 (z : Z) : Z := z mod 2 ^ 64.
Definition i64 (z : Z) : Z := (z + 2 ^ 63) mod 2 ^ 64 - 2 ^ 63.

Lemma u64_small z : 0 <= z < 2 ^ 64 -> u64 z = z.
Proof. apply Z.mod_small. Qed.
Lemma u32_small z : 0 <= z < 2 ^ 32 -> u32 z = z.
Proof. apply Z.mod_small. Qed.
Lemma u64_range z : 0 <= u64 z < 2 ^ 64.
Proof. apply Z.mod_pos_bound. lia. Qed.
Lemma i64_small z : - 2 ^ 63 <= z < 2 ^ 63 -> i64 z = z.
Proof. intros. unfold i64. rewrite Z.mod_small; lia. Qed.
Lemma i64_u64 z : i64 (u64 z) = i64 z.
Proof. unfold i64, u64. rewrite Zplus_mod_idemp_l. reflexivity. Qed.

Lemma i64_range z : - 2 ^ 63 <= i64 z < 2 ^ 63.
Proof. unfold i64. pose proof (Z.mod_pos_bound (z + 2 ^ 63) (2 ^ 64)). lia. Qed.
Lemma u64_i64 z : 0 <= z < 2 ^ 64 -> u64 (i64 z) = z.
Proof.
  intros. unfold u64, i64. rewrite Zminus_mod_idemp_l.
  replace (z + 2 ^ 63 - 2 ^ 63) with z by lia. apply Z.mod_small; lia.
Qed.

(** ** Bytes *)
Definition Z_of_byte (b : byte) : Z := Z.of_N (Byte.to_N b).
Definition byte_of_Z (z : Z) : byte :=
  default x00 (Byte.of_N (Z.to_N (z mod 256))).

Lemma Z_of_byte_range b : 0 <= Z_of_byte b < 256.
Proof. unfold Z_of_byte. pose proof (Byte.to_N_bounded b). lia. Qed.

Lemma Z_of_byte_of_Z z : Z_of_byte (byte_of_Z z) = z mod 256.
Proof.
  unfold byte_of_Z, Z_of_byte.
  pose proof (Z.mod_pos_bound z 256 ltac:(lia)) as Hr.
  destruct (Byte.of_N (Z.to_N (z mod 256))) as [b|] eqn:E; simpl.
  - apply Byte.to_of_N in E. rewrite E. lia.
  - apply Byte.of_N_None_iff in E. lia.
Qed.

Lemma Z_of_byte_inj a b : Z_of_byte a = Z_of_byte b -> a = b.
Proof.
  unfold Z_of_byte. intros H. apply N2Z.inj in H.
  pose proof (Byte.of_to_N a) as Ha. rewrite H, Byte.of_to_N in Ha. congruence.
Qed.

Lemma byte_of_Z_of_byte b : byte_of_Z (Z_of_byte b) = b.
Proof.
  apply Z_of_byte_inj. rewrite Z_of_byte_of_Z.
  apply Z.mod_small, Z_of_byte_range.
Qed.

#[export] Instance byte_eq_dec : EqDecision byte := Byte.byte_eq_dec.

(** ** Little-endian encoding ([binary.LittleEndian]) *)
Fixpoint le_bytes (n : nat) (z : Z) : list byte :=
  match n with
  | O => []
  | S n => byte_of_Z z :: le_bytes n (z / 256)
  end.

Fixpoint le_Z (bs : list byte) : Z :=
  match bs with
  | [] => 0
  | b :: bs => Z_of_byte b + 256 * le_Z bs
  end.

Lemma length_le_bytes n z : length (le_bytes n z) = n.
Proof. revert z. induction n; intros; simpl; auto. Qed.
#[export] Hint Rewrite length_le_bytes : leser_len.

Lemma le_Z_le_bytes n z : le_Z (le_bytes n z) = z mod 256 ^ Z.of_nat n.
Proof.
  revert z. induction n as [|n IH]; intros z.
  - simpl. rewrite Z.mod_1_r. reflexivity.
  - cbn [le_bytes le_Z]. rewrite IH, Z_of_byte_of_Z.
    rewrite Nat2Z.inj_succ, Z.pow_succ_r by lia.
    rewrite Z.rem_mul_r by lia. reflexivity.
Qed.

Lemma le_Z_range bs : 0 <= le_Z bs < 256 ^ Z.of_nat (length bs).
Proof.
  induction bs as [|b bs IH]; [simpl; lia|].
  cbn [le_Z length]. rewrite Nat2Z.inj_succ, Z.pow_succ_r by lia.
  pose proof (Z_of_byte_range b). nia.
Qed.

Lemma le_bytes_le_Z bs : le_bytes (length bs) (le_Z bs) = bs.
Proof.
  induction bs as [|b bs IH]; [reflexivity|].
  cbn [le_Z length le_bytes]. pose proof (Z_of_byte_range b).
  f_equal.
  - apply Z_of_byte_inj. rewrite Z_of_byte_of_Z.
    rewrite Z.mul_comm, Z.mod_add by lia. apply Z.mod_small; lia.
  - etransitivity; [|exact IH]. f_equal.
    rewrite Z.mul_comm, Z.div_add by lia.
    rewrite (Z.div_small _ 256) by lia. reflexivity.
Qed.

Lemma le_bytes_of_le_Z n bs : length bs = n -> le_bytes n (le_Z bs) = bs.
Proof. intros <-. apply le_bytes_le_Z. Qed.

Lemma le_Z_32_range bs : length bs = 4%nat -> 0 <= le_Z bs < 2 ^ 32.
Proof. intros H. pose proof (le_Z_range bs) as Hr. rewrite H in Hr. exact Hr. Qed.
Lemma le_Z_64_range bs : length bs = 8%nat -> 0 <= le_Z bs < 2 ^ 64.
Proof. intros H. pose proof (le_Z_range bs) as Hr. rewrite H in Hr. exact Hr. Qed.

Lemma le_Z_32 z : le_Z (le_bytes 4 z) = u32 z.
Proof. rewrite le_Z_le_bytes. reflexivity. Qed.
Lemma le_Z_64 z : le_Z (le_bytes 8 z) = u64 z.
Proof. rewrite le_Z_le_bytes. reflexivity. Qed.

(** ** Byte slices addressed by Z, as Go indexes them *)

(** [ReadAt file pos n]: the [n] bytes at [pos], or [None] when the file is
    too short (io.ReaderAt then returns an error). *)
Definition ReadAt (file : list byte) (pos n : Z) : option (list byte) :=
  if (pos <? 0) || (n <? 0) || (Z.of_nat (length file) <? pos + n) then None
  else Some (take (Z.to_nat n) (drop (Z.to_nat pos) file)).

(** [pwrite file pos bs]: what a write of [bs] at [pos] leaves in the file; a
    hole past the end reads as zeros. *)
Definition pwrite (file : list byte) (pos : Z) (bs : list byte) : list byte :=
  let p := Z.to_nat pos in
  take p file ++ replicate (p - length file) x00 ++ bs
    ++ drop (p + length bs) file.

Lemma ReadAt_app_mid pre mid post :
  ReadAt (pre ++ mid ++ post) (Z.of_nat (length pre)) (Z.of_nat (length mid))
  = Some mid.
Proof.
  unfold ReadAt. rewrite !length_app.
  replace (_ || _ || _) with false by (symmetry; rewrite !orb_false_iff; zcases).
  rewrite !Nat2Z.id, drop_app_length, take_app_length. reflexivity.
Qed.

Lemma ReadAt_mid pre mid post pos n :
  pos = Z.of_nat (length pre) -> n = Z.of_nat (length mid) ->
  ReadAt (pre ++ mid ++ post) pos n = Some mid.
Proof. intros -> ->. apply ReadAt_app_mid. Qed.

Lemma ReadAt_prefix mid post n :
  n = Z.of_nat (length mid) -> ReadAt (mid ++ post) 0 n = Some mid.
Proof. intros ->. apply (ReadAt_app_mid [] mid post). Qed.

Lemma take_exact {A} (a b : list A) n : length a = n -> take n (a ++ b) = a.
Proof. intros <-. apply take_app_length. Qed.
Lemma drop_exact {A} (a b : list A) n : length a = n -> drop n (a ++ b) = b.
Proof. intros <-. apply drop_app_length. Qed.

Lemma take_nth_drop {A} (l : list A) i d :
  (i < length l)%nat -> take i l ++ nth i l d :: drop (S i) l = l.
Proof.
  intros Hi. destruct (lookup_lt_is_Some_2 l i Hi) as [x Hx].
  rewrite (nth_lookup_Some _ _ d _ Hx). apply take_drop_middle, Hx.
Qed.

Lemma ReadAt_Some file pos n bs :
  ReadAt file pos n = Some bs ->
  0 <= pos /\ 0 <= n /\ pos + n <= Z.of_nat (length file)
  /\ Z.of_nat (length bs) = n
  /\ bs = take (Z.to_nat n) (drop (Z.to_nat pos) file).
Proof.
  unfold ReadAt. destruct (_ || _ || _) eqn:E; [discriminate|].
  rewrite !orb_false_iff in E. intros [= <-].
  destruct E as [[?%Z.ltb_ge ?%Z.ltb_ge] ?%Z.ltb_ge].
  rewrite length_take, length_drop. repeat split; lia.
Qed.

Lemma pwrite_at_end file bs :
  pwrite file (Z.of_nat (length file)) bs = file ++ bs.
Proof.
  unfold pwrite. rewrite Nat2Z.id, take_ge, Nat.sub_diag by lia.
  rewrite drop_ge by lia. simpl. rewrite app_nil_r. reflexivity.
Qed.

(** ** Sorted lists: two strictly sorted lists with the same elements agree *)
Lemma StronglySorted_lt_le (l : list Z) :
  StronglySorted Z.lt l -> StronglySorted Z.le l.
Proof.
  induction 1 as [|a l _ IH Hf]; constructor; auto.
  eapply Forall_impl; [exact Hf|]. simpl. lia.
Qed.

Lemma StronglySorted_lt_NoDup (l : list Z) : StronglySorted Z.lt l -> NoDup l.
Proof.
  induction 1 as [|a l _ IH Hf]; constructor; auto.
  intros Hin. rewrite Forall_forall in Hf. specialize (Hf _ Hin). lia.
Qed.

Lemma StronglySorted_lt_eq (l1 l2 : list Z) :
  StronglySorted Z.lt l1 -> StronglySorted Z.lt l2 ->
  (forall x, x ∈ l1 <-> x ∈ l2) -> l1 = l2.
Proof.
  intros H1 H2 Hx. apply (StronglySorted_unique Z.le); auto using StronglySorted_lt_le.
  apply NoDup_Permutation; auto using StronglySorted_lt_NoDup.
Qed.

Lemma StronglySorted_app_l (l1 l2 : list Z) :
  StronglySorted Z.lt (l1 ++ l2) -> StronglySorted Z.lt l1.
Proof.
  induction l1 as [|x l1 IH]; intros H; [constructor|].
  simpl in H. inversion H as [|? ? H1 H2]; subst. constructor; [auto|].
  apply Forall_app in H2 as [H2 _]. exact H2.
Qed.

Lemma StronglySorted_snoc {A} (R : relation A) l x :
  StronglySorted R l -> (forall y, y ∈ l -> R y x) -> StronglySorted R (l ++ [x]).
Proof.
  induction 1 as [|y l _ IH Hy]; intros H; cbn; [repeat constructor|]. constructor.
  - apply IH. intros z Hz. apply H. right. exact Hz.
  - apply Forall_app. split; [exact Hy|]. repeat constructor. apply H. left.
Qed.

(** [sort.Slice] by an integer key, ascending. *)
Lemma StronglySorted_lookup {A} (R : A -> A -> Prop) l i j x y :
  StronglySorted R l -> l !! i = Some x -> l !! j = Some y -> (i < j)%nat -> R x y.
Proof.
  intros H Hi Hj Hij. rewrite <- (take_drop j l) in H.
  eapply StronglySorted_app_1_elem_of; [exact H| |].
  - apply list_elem_of_lookup. exists i. rewrite lookup_take_lt by lia. exact Hi.
  - apply list_elem_of_lookup. exists 0%nat. rewrite lookup_drop, Nat.add_0_r. exact Hj.
Qed.

Definition sortZ (l : list Z) : list Z := merge_sort Z.le l.

Lemma sortZ_perm l : sortZ l ≡ₚ l.
Proof. apply merge_sort_Permutation. Qed.
Lemma sortZ_sorted l : StronglySorted Z.le (sortZ l).
Proof. apply (StronglySorted_merge_sort Z.le). Qed.

Lemma sortZ_NoDup_lt l : NoDup l -> StronglySorted Z.lt (sortZ l).
Proof.
  intros Hn. pose proof (sortZ_sorted l) as Hs.
  rewrite <- (sortZ_perm l) in Hn. revert Hn.
  induction Hs as [|a k _ IH Hf]; intros Hn; constructor.
  - apply IH. by inversion Hn.
  - inversion Hn as [|? ? Hni _]; subst. rewrite Forall_forall in Hf |- *.
    intros x Hx. specialize (Hf x Hx). assert (a <> x) by congruence. lia.
Qed.
