(* ===== verification/Hash.v ===== *)
(** * Hashes of the Go standard library used by the program

    [hash/crc32] with the Castagnoli table (WAL records and offset files,
    internal/wal), [hash/fnv] FNV-1a in 32 and 64 bits (the ring of
    internal/cluster and the HyperLogLog of internal/eventstore), and the two
    murmur3 finalizers the program writes itself. *)
From S2P Require Import Prelude.

(** ** CRC-32C, bit-serial and reflected *)
Module Crc.

Definition poly : Z := 0x82f63b78.

Definition crc_bit (x : Z) : Z :=
  if Z.odd x then Z.lxor (Z.shiftr x 1) poly else Z.shiftr x 1.

Definition crc_byte (crc : Z) (b : byte) : Z :=
  Nat.iter 8 crc_bit (Z.lxor crc (Z_of_byte b)).

Definition crc_update (crc : Z) (bs : list byte) : Z := fold_left crc_byte bs crc.

(** [crc32.Checksum(bs, castagnoli)] *)
Definition crc32c (bs : list byte) : Z :=
  Z.lxor (crc_update 0xffffffff bs) 0xffffffff.

(** The check value of the CRC-32C standard. *)
Example crc32c_check :
  crc32c [x31; x32; x33; x34; x35; x36; x37; x38; x39] = 0xe3069283.
Proof. vm_compute. reflexivity. Qed.

Lemma lxor_range n a b :
  0 <= n -> 0 <= a < 2 ^ n -> 0 <= b < 2 ^ n -> 0 <= Z.lxor a b < 2 ^ n.
Proof.
  intros Hn Ha Hb. split; [apply Z.lxor_nonneg; lia|].
  destruct (Z.eq_dec (Z.lxor a b) 0) as [->|Hne]; [lia|].
  pose proof (proj2 (Z.lxor_nonneg a b) ltac:(lia)).
  apply Z.log2_lt_pow2; [lia|].
  eapply Z.le_lt_trans; [apply Z.log2_lxor; lia|].
  destruct (Z.eq_dec a 0) as [->|]; destruct (Z.eq_dec b 0) as [->|].
  - rewrite Z.lxor_0_l in Hne. lia.
  - rewrite Z.max_r by (apply Z.log2_nonneg). apply Z.log2_lt_pow2; lia.
  - rewrite Z.max_l by (apply Z.log2_nonneg). apply Z.log2_lt_pow2; lia.
  - apply Z.max_lub_lt; apply Z.log2_lt_pow2; lia.
Qed.

Lemma crc_bit_range x : 0 <= x < 2 ^ 32 -> 0 <= crc_bit x < 2 ^ 32.
Proof.
  intros Hx. unfold crc_bit.
  assert (0 <= Z.shiftr x 1 < 2 ^ 32) by
    (rewrite Z.shiftr_div_pow2 by lia; change (2 ^ 1) with 2; split;
     [apply Z.div_pos | apply Z.div_lt_upper_bound]; lia).
  destruct (Z.odd x); [apply lxor_range|]; unfold poly; lia.
Qed.

Lemma crc_iter_range n x : 0 <= x < 2 ^ 32 -> 0 <= Nat.iter n crc_bit x < 2 ^ 32.
Proof. induction n; simpl; auto using crc_bit_range. Qed.

Lemma crc_byte_range c b : 0 <= c < 2 ^ 32 -> 0 <= crc_byte c b < 2 ^ 32.
Proof.
  intros. apply crc_iter_range, lxor_range; try lia.
  pose proof (Z_of_byte_range b). lia.
Qed.

Lemma crc_update_range bs c : 0 <= c < 2 ^ 32 -> 0 <= crc_update c bs < 2 ^ 32.
Proof.
  revert c. induction bs as [|b bs IH]; intros c Hc; [exact Hc|].
  apply IH, crc_byte_range, Hc.
Qed.

Lemma crc32c_range bs : 0 <= crc32c bs < 2 ^ 32.
Proof. apply lxor_range; try apply crc_update_range; lia. Qed.

(** The polynomial's top bit is set, so the top bit of a step's result is
    the bit that was shifted out: the step loses nothing. *)
Lemma crc_bit_top x : 0 <= x < 2 ^ 32 -> Z.testbit (crc_bit x) 31 = Z.odd x.
Proof.
  intros Hx. unfold crc_bit.
  assert (Hs : Z.testbit (Z.shiftr x 1) 31 = false).
  { rewrite Z.shiftr_spec by lia.
    destruct (Z.eq_dec x 0) as [->|]; [reflexivity|].
    apply Z.bits_above_log2; [lia|]. apply Z.log2_lt_pow2; lia. }
  destruct (Z.odd x); rewrite ?Z.lxor_spec, Hs; reflexivity.
Qed.

Lemma crc_bit_inj x y :
  0 <= x < 2 ^ 32 -> 0 <= y < 2 ^ 32 -> crc_bit x = crc_bit y -> x = y.
Proof.
  intros Hx Hy E.
  assert (Ho : Z.odd x = Z.odd y) by
    (rewrite <- (crc_bit_top x), <- (crc_bit_top y), E; auto).
  assert (Hs : Z.shiftr x 1 = Z.shiftr y 1).
  { unfold crc_bit in E. rewrite Ho in E. destruct (Z.odd y); [|exact E].
    apply (f_equal (fun z => Z.lxor z poly)) in E.
    rewrite !Z.lxor_assoc, !Z.lxor_nilpotent, !Z.lxor_0_r in E. exact E. }
  rewrite <- !Z.div2_spec in Hs.
  rewrite (Z.div2_odd x), (Z.div2_odd y), Hs, Ho. reflexivity.
Qed.

Lemma crc_iter_inj n x y :
  0 <= x < 2 ^ 32 -> 0 <= y < 2 ^ 32 ->
  Nat.iter n crc_bit x = Nat.iter n crc_bit y -> x = y.
Proof.
  intros Hx Hy. induction n; simpl; [auto|].
  intros E. apply IHn, crc_bit_inj; auto using crc_iter_range.
Qed.

Lemma lxor_cancel_r a b c : Z.lxor a c = Z.lxor b c -> a = b.
Proof.
  intros E. apply (f_equal (fun z => Z.lxor z c)) in E.
  rewrite !Z.lxor_assoc, !Z.lxor_nilpotent, !Z.lxor_0_r in E. exact E.
Qed.

Lemma lxor_cancel_l a b c : Z.lxor c a = Z.lxor c b -> a = b.
Proof. rewrite !(Z.lxor_comm c). apply lxor_cancel_r. Qed.

Lemma byte_lxor_range c b : 0 <= c < 2 ^ 32 -> 0 <= Z.lxor c (Z_of_byte b) < 2 ^ 32.
Proof. intros. apply lxor_range; try lia. pose proof (Z_of_byte_range b). lia. Qed.

Lemma crc_byte_inj_state c c' b :
  0 <= c < 2 ^ 32 -> 0 <= c' < 2 ^ 32 -> crc_byte c b = crc_byte c' b -> c = c'.
Proof.
  intros Hc Hc' E. apply crc_iter_inj in E; auto using byte_lxor_range.
  eapply lxor_cancel_r, E.
Qed.

Lemma crc_byte_inj_byte c b b' :
  0 <= c < 2 ^ 32 -> crc_byte c b = crc_byte c b' -> b = b'.
Proof.
  intros Hc E. apply crc_iter_inj in E; auto using byte_lxor_range.
  apply Z_of_byte_inj. eapply lxor_cancel_l, E.
Qed.

Lemma crc_update_inj bs c c' :
  0 <= c < 2 ^ 32 -> 0 <= c' < 2 ^ 32 ->
  crc_update c bs = crc_update c' bs -> c = c'.
Proof.
  revert c c'. induction bs as [|b bs IH]; intros c c' Hc Hc' E; [exact E|].
  apply (crc_byte_inj_state _ _ b Hc Hc').
  apply IH; auto using crc_byte_range.
Qed.

(** A checksum tells apart two byte strings that differ in one byte. *)
Lemma crc32c_single_byte pre b b' post :
  crc32c (pre ++ b :: post) = crc32c (pre ++ b' :: post) -> b = b'.
Proof.
  unfold crc32c. intros E%lxor_cancel_r. unfold crc_update in E.
  rewrite !fold_left_app in E.
  assert (Hr : 0 <= crc_update 0xffffffff pre < 2 ^ 32) by
    (apply crc_update_range; lia).
  apply (crc_byte_inj_byte _ _ _ Hr), (crc_update_inj post);
    auto using crc_byte_range.
Qed.

End Crc.

(** ** FNV-1a *)
Module Fnv.

Definition fnv32a (bs : list byte) : Z :=
  fold_left (fun h b => u32 (Z.lxor h (Z_of_byte b) * 0x01000193)) bs 0x811c9dc5.

Definition fnv64a (bs : list byte) : Z :=
  fold_left (fun h b => u64 (Z.lxor h (Z_of_byte b) * 0x100000001b3)) bs
    0xcbf29ce484222325.

(** Test vectors of the FNV reference page: "", "a", "foobar". *)
Example fnv32a_foobar :
  map fnv32a [[]; [x61]; [x66; x6f; x6f; x62; x61; x72]]
  = [0x811c9dc5; 0xe40c292c; 0xbf9cf968].
Proof. vm_compute. reflexivity. Qed.

Example fnv64a_foobar :
  map fnv64a [[]; [x61]; [x66; x6f; x6f; x62; x61; x72]]
  = [0xcbf29ce484222325; 0xaf63dc4c8601ec8c; 0x85944171f73967e8].
Proof. vm_compute. reflexivity. Qed.

End Fnv.
