(* ===== verification/GoStrings.v ===== *)
(** * Strings of the Go standard library

    Go strings are byte strings: here [string], one [ascii] per byte. This
    file models the functions of packages [strings] and [strconv] that the
    program calls. *)
From S2P Require Import Prelude.

(** ** Lengths, slices, prefixes *)
Definition strlen (s : string) : Z := Z.of_nat (String.length s).

Lemma app_str_assoc (a b c : string) : (a +:+ b) +:+ c = a +:+ (b +:+ c).
Proof.
  induction a as [|x a IH]; [reflexivity|].
  change (String x ((a +:+ b) +:+ c) = String x (a +:+ (b +:+ c))). rewrite IH. reflexivity.
Qed.

(** [s[i:j]] and [s[i:]] inside the bounds of [s]. *)
Definition slice (s : string) (i j : nat) : string := substring i (j - i) s.
Definition slice_from (s : string) (i : nat) : string :=
  substring i (String.length s - i) s.

Definition HasPrefix (s pre : string) : bool := String.prefix pre s.
Definition HasSuffix (s suf : string) : bool :=
  (String.length suf <=? String.length s)%nat &&
  bool_decide (slice_from s (String.length s - String.length suf) = suf).

Lemma substring_full s : substring 0 (String.length s) s = s.
Proof. induction s; simpl; [reflexivity|]. f_equal. auto. Qed.

Lemma substring_app_l s t : substring 0 (String.length s) (s +:+ t) = s.
Proof.
  induction s; [destruct t; reflexivity|].
  change (String a (substring 0 (String.length s) (s +:+ t)) = String a s).
  rewrite IHs. reflexivity.
Qed.

Lemma substring_app_r s t n :
  substring (String.length s) n (s +:+ t) = substring 0 n t.
Proof. induction s; [reflexivity|]. exact IHs. Qed.

Lemma substring_split s n :
  (n <= String.length s)%nat ->
  substring 0 n s +:+ substring n (String.length s - n) s = s.
Proof.
  revert n. induction s as [|c s IH]; intros n Hn; simpl in *.
  - assert (n = 0%nat) as -> by lia. reflexivity.
  - destruct n as [|n]; simpl.
    + rewrite substring_full. reflexivity.
    + change (String c (substring 0 n s +:+ substring n (String.length s - n) s)
              = String c s). rewrite IH by lia. reflexivity.
Qed.

Lemma substring_length s n :
  (n <= String.length s)%nat -> String.length (substring 0 n s) = n.
Proof.
  revert n. induction s as [|c s IH]; intros n Hn; destruct n; simpl in *;
    try lia. rewrite IH; lia.
Qed.

Lemma string_length_app s t :
  String.length (s +:+ t) = (String.length s + String.length t)%nat.
Proof.
  induction s; [reflexivity|].
  change (S (String.length (s +:+ t)) = S (String.length s + String.length t)).
  rewrite IHs. reflexivity.
Qed.

Lemma HasSuffix_app s suf : HasSuffix (s +:+ suf) suf = true.
Proof.
  unfold HasSuffix, slice_from. rewrite string_length_app.
  rewrite (proj2 (Nat.leb_le _ _)) by lia. simpl.
  replace (_ + _ - String.length suf)%nat with (String.length s) by lia.
  replace (_ + _ - String.length s)%nat with (String.length suf) by lia.
  rewrite substring_app_r, substring_full. apply bool_decide_true. reflexivity.
Qed.

Lemma slice_app_l s t n :
  String.length s = n -> slice (s +:+ t) 0 n = s.
Proof.
  intros <-. unfold slice. rewrite Nat.sub_0_r. apply substring_app_l.
Qed.

(** ** Decimal numbers ([fmt "%020d"], [strconv.ParseUint]) *)
Definition digit (d : Z) : ascii := ascii_of_nat (48 + Z.to_nat d).

Definition digit_val (c : ascii) : option Z :=
  let n := Z.of_nat (nat_of_ascii c) in
  if (48 <=? n) && (n <=? 57) then Some (n - 48) else None.

(** The [n] low decimal digits of [z], most significant first. *)
Fixpoint fixed_dec (n : nat) (z : Z) : string :=
  match n with
  | O => ""%string
  | S n => String (digit (z / 10 ^ Z.of_nat n mod 10)) (fixed_dec n z)
  end.

Fixpoint parse_digits (s : string) (acc : Z) : option Z :=
  match s with
  | ""%string => Some acc
  | String c s =>
      match digit_val c with
      | Some d => parse_digits s (10 * acc + d)
      | None => None
      end
  end.

(** [strconv.ParseUint(s, 10, 64)]: a non-empty string of digits whose value
    fits 64 bits; base 10 takes neither a sign nor underscores. *)
Definition ParseUint (s : string) : option Z :=
  match s with
  | ""%string => None
  | _ => match parse_digits s 0 with
         | Some v => if v <? 2 ^ 64 then Some v else None
         | None => None
         end
  end.

Lemma digit_val_digit d : 0 <= d < 10 -> digit_val (digit d) = Some d.
Proof.
  intros H. assert (d = 0 \/ d = 1 \/ d = 2 \/ d = 3 \/ d = 4 \/ d = 5 \/ d = 6
    \/ d = 7 \/ d = 8 \/ d = 9) as Hd by lia.
  repeat (destruct Hd as [->|Hd]; [reflexivity|]). subst. reflexivity.
Qed.

Lemma digit_digit_val c d : digit_val c = Some d -> 0 <= d < 10 /\ digit d = c.
Proof.
  unfold digit_val, digit. intros H. destruct (_ && _) eqn:E; [|discriminate].
  injection H as <-. apply andb_true_iff in E as [?%Z.leb_le ?%Z.leb_le].
  split; [lia|]. rewrite <- (ascii_nat_embedding c) at 2. f_equal. lia.
Qed.

Lemma fixed_dec_length n z : String.length (fixed_dec n z) = n.
Proof. induction n; simpl; auto. Qed.

Lemma parse_fixed_dec n z acc :
  parse_digits (fixed_dec n z) acc
  = Some (acc * 10 ^ Z.of_nat n + z mod 10 ^ Z.of_nat n).
Proof.
  revert acc. induction n as [|n IH]; intros acc.
  - simpl. rewrite Z.mod_1_r. f_equal. lia.
  - cbn [fixed_dec parse_digits].
    rewrite digit_val_digit by (apply Z.mod_pos_bound; lia).
    rewrite IH, Nat2Z.inj_succ, Z.pow_succ_r by lia. f_equal.
    rewrite (Z.mul_comm 10 (10 ^ Z.of_nat n)), Z.rem_mul_r by lia. lia.
Qed.

Lemma parse_digits_fixed_dec s acc v :
  0 <= acc -> parse_digits s acc = Some v ->
  0 <= v /\ v / 10 ^ Z.of_nat (String.length s) = acc
  /\ fixed_dec (String.length s) v = s.
Proof.
  revert acc. induction s as [|c s IH]; intros acc Hacc H.
  - injection H as ->. simpl. rewrite Z.div_1_r. auto.
  - cbn [parse_digits] in H. destruct (digit_val c) as [d|] eqn:E; [|discriminate].
    apply digit_digit_val in E as [Hd Hc].
    apply IH in H as (H0 & H1 & H2); [|lia]. split; [exact H0|].
    cbn [String.length fixed_dec]. rewrite H2, H1. split.
    + rewrite Nat2Z.inj_succ, Z.pow_succ_r, Z.mul_comm by lia.
      rewrite <- Z.div_div by lia. rewrite H1.
      symmetry. apply (Z.div_unique _ _ _ d); lia.
    + f_equal. rewrite <- Hc. f_equal.
      symmetry. apply (Z.mod_unique _ _ acc); lia.
Qed.

(** [strconv.ParseInt(s, 10, 64)]: an optional sign, digits, in range. *)
Definition ParseInt (s : string) : option Z :=
  let signed neg t :=
    match t with
    | ""%string => None
    | _ => match parse_digits t 0 with
           | Some v => if (v <? 2 ^ 63) || neg && (v =? 2 ^ 63) then Some (if neg then - v else v) else None
           | None => None
           end
    end in
  match s with
  | String c t =>
      if bool_decide (c = "-"%char) then signed true t
      else if bool_decide (c = "+"%char) then signed false t else signed false s
  | ""%string => None
  end.
