(* ===== verification/WalSegment.v ===== *)
(** * WAL segments and records (internal/wal/segment.go)

    Segment file names, the 20-byte segment header, the record encoding and
    its scanner, and the scan of a whole segment. Files are byte lists; every
    scanning error of the code is the internal [errTorn], so [None] stands
    for it. The theorems relate the scanner to the encoder in both directions
    and describe what is read back from a file that was cut or corrupted. *)
From S2P Require Import Prelude GoStrings Hash.
Import Crc.

Module Segment.

(** ** Constants and data *)
Definition segMagic : list byte := list_byte_of_string "LESRWAL1".
Definition segVersion : Z := 1.
Definition segHeaderLen : Z := 8 + 4 + 8.
Definition recHeaderLen : Z := 4 + 4.
Definition bodyFixedLen : Z := 8 + 1.

(** Record is one entry read back from the log. *)
Record Record := mkRecord {
  Offset : Z;             (* logical, uint64 *)
  Time : Z;               (* int64 unix nanos captured at append *)
  Type_ : byte;
  Payload : list byte }.

#[export] Instance Record_eq_dec : EqDecision Record.
Proof. solve_decision. Defined.

(** ** Segment names *)
Definition segmentName (base : Z) : string := (fixed_dec 20 base +:+ ".seg")%string.

Definition parseSegmentName (name : string) : option Z :=
  if negb (HasSuffix name ".seg") || negb (strlen name =? 24) then None
  else ParseUint (slice name 0 20).

(** ** Segment header *)
Definition segment_header (base : Z) : list byte :=
  segMagic ++ le_bytes 4 segVersion ++ le_bytes 8 base.

Inductive hdr_error := HdrShort | HdrBadMagic | HdrVersion (v : Z).

Definition readSegmentHeader (f : list byte) : hdr_error + Z :=
  match ReadAt f 0 segHeaderLen with
  | None => inl HdrShort
  | Some hdr =>
      if negb (bool_decide (take 8 hdr = segMagic)) then inl HdrBadMagic
      else let v := le_Z (take 4 (drop 8 hdr)) in
           if negb (v =? segVersion) then inl (HdrVersion v)
           else inr (le_Z (take 8 (drop 12 hdr)))
  end.

(** ** Records *)

(** The body that the checksum covers: [u64 unixNanos][u8 type][payload]. *)
Definition rec_body (ts : Z) (typ : byte) (payload : list byte) : list byte :=
  le_bytes 8 (u64 ts) ++ [typ] ++ payload.

Definition appendRecord (ts : Z) (typ : byte) (payload : list byte) : list byte :=
  let bodyLen := bodyFixedLen + Z.of_nat (length payload) in
  let body := rec_body ts typ payload in
  le_bytes 4 (u32 bodyLen) ++ le_bytes 4 (crc32c body) ++ body.

(** Reads one record at [pos]; [None] is errTorn. *)
Definition scanRecord (r : list byte) (pos size maxRecord offset : Z)
    : option (Record * Z) :=
  if size <? pos + recHeaderLen then None
  else match ReadAt r pos recHeaderLen with
  | None => None
  | Some hdr =>
      let bodyLen := le_Z (take 4 hdr) in
      if (bodyLen <? bodyFixedLen) || (maxRecord <? bodyLen) then None
      else
        let end_ := pos + recHeaderLen + bodyLen in
        if size <? end_ then None
        else match ReadAt r (pos + recHeaderLen) bodyLen with
        | None => None
        | Some body =>
            if negb (crc32c body =? le_Z (drop 4 hdr)) then None
            else Some
              (mkRecord offset (i64 (le_Z (take 8 body)))
                 (nth 8 body x00) (drop 9 body), end_)
        end
  end.

(** The loop of scanSegment, over the position and the record count. Each
    record takes at least [recHeaderLen + bodyFixedLen] bytes, so the file's
    length is fuel enough ([scan_loop_fuel]). *)
Fixpoint scan_loop (fuel : nat) (f : list byte) (size maxRecord : Z)
    (records pos : Z) : Z * Z :=
  match fuel with
  | O => (records, pos)
  | S fuel =>
      match scanRecord f pos size maxRecord 0 with
      | None => (records, pos)
      | Some (_, next) => scan_loop fuel f size maxRecord (u64 (records + 1)) next
      end
  end.

Definition scanSegment (f : list byte) (maxRecord : Z) : Z * Z :=
  scan_loop (S (length f)) f (Z.of_nat (length f)) maxRecord 0 segHeaderLen.

(** The records the same loop passes over, with their logical offsets: what
    a reader of the segment sees. *)
Fixpoint read_loop (fuel : nat) (f : list byte) (size maxRecord : Z)
    (off pos : Z) : list Record :=
  match fuel with
  | O => []
  | S fuel =>
      match scanRecord f pos size maxRecord off with
      | None => []
      | Some (r, next) => r :: read_loop fuel f size maxRecord (u64 (off + 1)) next
      end
  end.

Definition segment_records (f : list byte) (base maxRecord : Z) : list Record :=
  read_loop (S (length f)) f (Z.of_nat (length f)) maxRecord base segHeaderLen.

(** ** Segment names: lemmas *)

Lemma parseSegmentName_segmentName base :
  0 <= base < 2 ^ 64 -> parseSegmentName (segmentName base) = Some base.
Proof.
  intros Hb. unfold parseSegmentName, segmentName.
  rewrite HasSuffix_app. unfold strlen.
  rewrite string_length_app, fixed_dec_length, slice_app_l by apply fixed_dec_length.
  change (negb true || _) with false. cbv iota. unfold ParseUint.
  destruct (fixed_dec 20 base) eqn:E; [discriminate|]. rewrite <- E.
  rewrite parse_fixed_dec, Z.mod_small by lia. rewrite Z.mul_0_l, Z.add_0_l.
  rewrite (proj2 (Z.ltb_lt base (2 ^ 64))) by lia. reflexivity.
Qed.

Lemma parseSegmentName_Some name base :
  parseSegmentName name = Some base ->
  0 <= base < 2 ^ 64 /\ name = segmentName base.
Proof.
  unfold parseSegmentName, HasSuffix, slice_from, slice, strlen.
  intros H. destruct (negb _ || negb _) eqn:E; [discriminate|].
  rewrite orb_false_iff, !negb_false_iff, andb_true_iff in E.
  destruct E as [[_ Hs%bool_decide_eq_true] Hl%Z.eqb_eq].
  assert (String.length name = 24%nat) as Hl' by lia.
  rewrite Hl' in Hs. simpl in Hs.
  unfold ParseUint in H. destruct (substring 0 (20 - 0) name) eqn:Es; [discriminate|].
  rewrite <- Es in H. destruct (parse_digits _ _) as [v|] eqn:Ep; [|discriminate].
  destruct (Z.ltb_spec v (2 ^ 64)); [|discriminate]. injection H as ->.
  apply parse_digits_fixed_dec in Ep as (Hv & _ & H2); [|lia].
  rewrite substring_length in H2 by lia. split; [lia|].
  unfold segmentName. simpl (20 - 0)%nat in H2. rewrite H2.
  rewrite <- Hs. rewrite <- (substring_split name 20) at 1 by lia.
  rewrite Hl'. reflexivity.
Qed.

Lemma segmentName_inj b b' :
  0 <= b < 2 ^ 64 -> 0 <= b' < 2 ^ 64 -> segmentName b = segmentName b' -> b = b'.
Proof.
  intros Hb Hb' E. apply parseSegmentName_segmentName in Hb, Hb'.
  rewrite E in Hb. congruence.
Qed.

(** ** Header: lemmas *)
Lemma length_segment_header base : length (segment_header base) = 20%nat.
Proof. unfold segment_header. rewrite !length_app, !length_le_bytes. reflexivity. Qed.
#[export] Hint Rewrite length_segment_header : leser_len.

Lemma readSegmentHeader_header base rest :
  0 <= base < 2 ^ 64 -> readSegmentHeader (segment_header base ++ rest) = inr base.
Proof.
  intros Hb. unfold readSegmentHeader.
  rewrite ReadAt_prefix by (rewrite length_segment_header; reflexivity).
  unfold segment_header. rewrite take_exact by reflexivity.
  rewrite bool_decide_true by reflexivity. cbn [negb].
  rewrite drop_exact by reflexivity.
  rewrite take_exact, le_Z_32 by apply length_le_bytes.
  change (u32 segVersion) with segVersion. rewrite Z.eqb_refl. cbn [negb].
  rewrite app_assoc, drop_exact by reflexivity.
  rewrite take_ge by (rewrite length_le_bytes; lia).
  rewrite le_Z_64, u64_small by lia. reflexivity.
Qed.

(** A file cut inside its header is rejected. *)
Lemma readSegmentHeader_short f :
  (length f < 20)%nat -> readSegmentHeader f = inl HdrShort.
Proof.
  intros H. unfold readSegmentHeader, ReadAt, segHeaderLen.
  rewrite (proj2 (Z.ltb_lt (Z.of_nat (length f)) _)) by lia.
  rewrite orb_true_r. reflexivity.
Qed.

(** ** Records: encoder and scanner *)

(** The bytes of a record, and of a run of records. *)
Definition enc (r : Record) : list byte := appendRecord (Time r) (Type_ r) (Payload r).
Definition encs (rs : list Record) : list byte := concat (map enc rs).

#[global] Arguments enc : simpl never.
#[global] Arguments segment_header : simpl never.

Definition rec_len (r : Record) : Z := bodyFixedLen + Z.of_nat (length (Payload r)).

(** What Append's guard and the 32-bit length field let through. *)
Definition rec_ok (maxRecord : Z) (r : Record) : Prop :=
  rec_len r <= maxRecord /\ rec_len r < 2 ^ 32 /\ - 2 ^ 63 <= Time r < 2 ^ 63.

Lemma length_rec_body ts typ p : length (rec_body ts typ p) = (9 + length p)%nat.
Proof. unfold rec_body. rewrite !length_app, length_le_bytes. reflexivity. Qed.

Lemma length_enc r : Z.of_nat (length (enc r)) = recHeaderLen + rec_len r.
Proof.
  unfold enc, appendRecord, rec_len, recHeaderLen, bodyFixedLen.
  rewrite !length_app, !length_le_bytes, length_rec_body. lia.
Qed.

Lemma encs_cons r rs : encs (r :: rs) = enc r ++ encs rs.
Proof. reflexivity. Qed.
Lemma encs_app rs1 rs2 : encs (rs1 ++ rs2) = encs rs1 ++ encs rs2.
Proof. unfold encs. rewrite map_app, concat_app. reflexivity. Qed.

(** Offsets are not stored in the file: the scanner takes them from its
    caller. *)
Definition with_offset (off : Z) (r : Record) : Record :=
  mkRecord off (Time r) (Type_ r) (Payload r).

Lemma scanRecord_enc maxRecord pre r post off :
  rec_ok maxRecord r ->
  scanRecord (pre ++ enc r ++ post) (Z.of_nat (length pre))
    (Z.of_nat (length (pre ++ enc r ++ post))) maxRecord off
  = Some (with_offset off r, Z.of_nat (length (pre ++ enc r))).
Proof.
  intros (Hmax & H32 & Ht). unfold scanRecord.
  set (body := rec_body (Time r) (Type_ r) (Payload r)).
  set (hdr := le_bytes 4 (u32 (rec_len r)) ++ le_bytes 4 (crc32c body)).
  assert (He : enc r = hdr ++ body)
    by (unfold enc, appendRecord, hdr; rewrite <- app_assoc; reflexivity).
  assert (Hh : Z.of_nat (length hdr) = recHeaderLen)
    by (unfold hdr; rewrite length_app, !length_le_bytes; reflexivity).
  assert (Hb : Z.of_nat (length body) = rec_len r)
    by (unfold body; rewrite length_rec_body; unfold rec_len, bodyFixedLen; lia).
  assert (0 <= rec_len r) by lia.
  assert (Hl4 : le_Z (take 4 hdr) = rec_len r)
    by (unfold hdr; rewrite take_exact, le_Z_32, !u32_small;
        auto using length_le_bytes; rewrite ?u32_small; lia).
  assert (Hc4 : le_Z (drop 4 hdr) = crc32c body)
    by (unfold hdr; rewrite drop_exact, le_Z_32, u32_small;
        auto using length_le_bytes, crc32c_range).
  clearbody hdr. rewrite He, <- !app_assoc.
  rewrite (proj2 (Z.ltb_ge _ _)) by (rewrite !length_app; lia).
  rewrite ReadAt_mid, Hl4 by lia.
  rewrite (proj2 (Z.ltb_ge (rec_len r) _)) by (unfold rec_len, bodyFixedLen; lia).
  rewrite (proj2 (Z.ltb_ge maxRecord _)) by lia. cbn [orb].
  rewrite (proj2 (Z.ltb_ge _ _)) by (rewrite !length_app; lia).
  rewrite (app_assoc pre hdr (body ++ post)), ReadAt_mid by (rewrite ?length_app; lia).
  rewrite Hc4, Z.eqb_refl. cbn [negb]. f_equal. f_equal; [|rewrite !length_app; lia].
  unfold with_offset. f_equal. unfold body, rec_body.
  rewrite take_exact, le_Z_64, !i64_u64 by apply length_le_bytes.
  apply i64_small. lia.
Qed.

(** The scanner accepts nothing but what the encoder writes. *)
Lemma scanRecord_Some maxRecord f pos off r next :
  0 <= pos ->
  scanRecord f pos (Z.of_nat (length f)) maxRecord off = Some (r, next) ->
  exists pre post, f = pre ++ enc r ++ post
    /\ pos = Z.of_nat (length pre) /\ next = Z.of_nat (length (pre ++ enc r))
    /\ Offset r = off /\ rec_ok maxRecord r.
Proof.
  intros Hpos. unfold scanRecord. destruct (Z.ltb_spec (Z.of_nat (length f)) (pos + recHeaderLen)) as [|H1];
    [discriminate|].
  destruct (ReadAt f pos recHeaderLen) as [hdr|] eqn:Eh; [|discriminate].
  set (bl := le_Z (take 4 hdr)).
  destruct ((bl <? bodyFixedLen) || (maxRecord <? bl)) eqn:Eb; [discriminate|].
  apply orb_false_iff in Eb as [Hb1%Z.ltb_ge Hb2%Z.ltb_ge].
  destruct (Z.ltb_spec (Z.of_nat (length f)) (pos + recHeaderLen + bl)) as [|H2]; [discriminate|].
  destruct (ReadAt f (pos + recHeaderLen) bl) as [body|] eqn:Ebody; [|discriminate].
  destruct (negb _) eqn:Ec; [discriminate|]. intros [= <- <-].
  apply negb_false_iff, Z.eqb_eq in Ec.
  apply ReadAt_Some in Eh as (_ & _ & _ & Hhl & Hhdr).
  apply ReadAt_Some in Ebody as (_ & _ & _ & Hbl & Hbody).
  unfold recHeaderLen, bodyFixedLen in *. simpl (4 + 4) in *. simpl (8 + 1) in *.
  assert (Hh4 : length (take 4 hdr) = 4%nat) by (rewrite length_take; lia).
  assert (Hd4 : length (drop 4 hdr) = 4%nat) by (rewrite length_drop; lia).
  pose proof (le_Z_32_range _ Hh4) as Hr. fold bl in Hr.
  assert (Henc : appendRecord (i64 (le_Z (take 8 body))) (nth 8 body x00) (drop 9 body)
                 = hdr ++ body).
  { assert (Hrb : rec_body (i64 (le_Z (take 8 body))) (nth 8 body x00) (drop 9 body) = body).
    { unfold rec_body. rewrite u64_i64 by (apply le_Z_64_range; rewrite length_take; lia).
      rewrite le_bytes_of_le_Z by (rewrite length_take; lia).
      apply take_nth_drop. lia. }
    unfold appendRecord. rewrite Hrb, length_drop. unfold bodyFixedLen.
    replace (8 + 1 + Z.of_nat (length body - 9)) with bl by lia.
    rewrite Ec, u32_small by lia. unfold bl.
    rewrite !le_bytes_of_le_Z by assumption. rewrite app_assoc, take_drop. reflexivity. }
  exists (take (Z.to_nat pos) f), (drop (Z.to_nat (pos + 8 + bl)) f).
  unfold enc. cbn [Offset Time Type_ Payload]. rewrite Henc. split_and!.
  - rewrite <- (take_drop (Z.to_nat pos) f) at 1. f_equal.
    rewrite Hhdr, Hbody, <- app_assoc.
    rewrite <- (take_drop (Z.to_nat 8) (drop (Z.to_nat pos) f)) at 1. f_equal.
    rewrite drop_drop. replace (Z.to_nat pos + Z.to_nat 8)%nat with (Z.to_nat (pos + 8)) by lia.
    rewrite <- (take_drop (Z.to_nat bl) (drop (Z.to_nat (pos + 8)) f)) at 1. f_equal.
    rewrite drop_drop. f_equal. lia.
  - rewrite length_take. lia.
  - rewrite !length_app, length_take. lia.
  - reflexivity.
  - unfold rec_ok, rec_len, bodyFixedLen. cbn [Payload Time]. rewrite length_drop.
    pose proof (i64_range (le_Z (take 8 body))). lia.
Qed.

(** ** Whole files: the scan stops exactly at the first invalid record *)

Lemma scanRecord_offset f pos size maxRecord off :
  scanRecord f pos size maxRecord off
  = (fun '(r, n) => (with_offset off r, n)) <$> scanRecord f pos size maxRecord 0.
Proof.
  unfold scanRecord.
  repeat (case_match; try reflexivity).
Qed.

Lemma scanRecord_beyond f pos maxRecord off :
  Z.of_nat (length f) < pos + recHeaderLen ->
  scanRecord f pos (Z.of_nat (length f)) maxRecord off = None.
Proof. intros H. unfold scanRecord. apply Z.ltb_lt in H as ->. reflexivity. Qed.

(** A record cut anywhere before its end is torn. *)
Lemma scanRecord_cut maxRecord pre r k off :
  rec_ok maxRecord r -> (k < length (enc r))%nat ->
  scanRecord (pre ++ take k (enc r)) (Z.of_nat (length pre))
    (Z.of_nat (length (pre ++ take k (enc r)))) maxRecord off = None.
Proof.
  intros Hok Hk. pose proof (length_enc r) as Hlen.
  assert (Hlt : length (pre ++ take k (enc r)) = (length pre + k)%nat)
    by (rewrite length_app, length_take; lia).
  unfold recHeaderLen in Hlen. destruct (Nat.lt_ge_cases k 8) as [H8|H8].
  { apply scanRecord_beyond. unfold recHeaderLen. rewrite Hlt. lia. }
  destruct (scanRecord _ _ _ _ _) as [[r' next]|] eqn:E; [exfalso|reflexivity].
  assert (Hhdr : take 4 (take k (enc r)) = le_bytes 4 (u32 (rec_len r))).
  { rewrite take_take, Nat.min_l by lia. apply take_exact, length_le_bytes. }
  unfold scanRecord in E. rewrite Hlt in E.
  destruct (_ <? _); [discriminate|].
  rewrite <- (app_nil_r (take k (enc r))), <- (take_drop 8 (take k (enc r))), <- app_assoc in E.
  rewrite ReadAt_mid in E; [|reflexivity|rewrite !length_take; unfold recHeaderLen; lia].
  rewrite take_take, Nat.min_l in E by lia. rewrite Hhdr in E.
  destruct Hok as (? & ? & _). assert (0 <= rec_len r) by (unfold rec_len, bodyFixedLen; lia).
  rewrite le_Z_32, !u32_small in E by (rewrite ?u32_small; lia).
  destruct (_ || _); [discriminate|].
  rewrite (proj2 (Z.ltb_lt _ _)) in E by (unfold recHeaderLen; lia). discriminate.
Qed.

Section Scan.
Context (maxRecord : Z).

(** What stands after the last valid record: the scanner finds no record
    there. *)
Definition torn_at (f : list byte) (pos : Z) : Prop :=
  scanRecord f pos (Z.of_nat (length f)) maxRecord 0 = None.

Lemma torn_at_end f : torn_at f (Z.of_nat (length f)).
Proof. apply scanRecord_beyond. unfold recHeaderLen. lia. Qed.

Lemma scan_loop_encs rs fuel pre t n :
  Forall (rec_ok maxRecord) rs ->
  torn_at (pre ++ encs rs ++ t) (Z.of_nat (length (pre ++ encs rs))) ->
  (length rs < fuel)%nat -> 0 <= n -> n + Z.of_nat (length rs) < 2 ^ 64 ->
  scan_loop fuel (pre ++ encs rs ++ t) (Z.of_nat (length (pre ++ encs rs ++ t)))
    maxRecord n (Z.of_nat (length pre))
  = (n + Z.of_nat (length rs), Z.of_nat (length (pre ++ encs rs))).
Proof.
  revert fuel pre n. induction rs as [|r rs IH]; intros fuel pre n Hok Htorn Hf Hn Hb.
  - destruct fuel; [simpl in Hf; lia|]. simpl in *. rewrite app_nil_r in *.
    rewrite Htorn. f_equal. lia.
  - destruct fuel; [simpl in Hf; lia|].
    inversion Hok as [|? ? Hr Hrs]; subst. rewrite encs_cons in *.
    rewrite <- app_assoc in *. cbn [scan_loop length] in *.
    rewrite scanRecord_enc by assumption.
    rewrite !(app_assoc pre (enc r)) in *. rewrite u64_small by lia.
    rewrite IH by (auto; lia). f_equal. lia.
Qed.

Lemma read_loop_encs rs fuel pre t off :
  Forall (rec_ok maxRecord) rs ->
  torn_at (pre ++ encs rs ++ t) (Z.of_nat (length (pre ++ encs rs))) ->
  (length rs < fuel)%nat -> 0 <= off -> off + Z.of_nat (length rs) < 2 ^ 64 ->
  read_loop fuel (pre ++ encs rs ++ t) (Z.of_nat (length (pre ++ encs rs ++ t)))
    maxRecord off (Z.of_nat (length pre))
  = imap (fun i r => with_offset (off + Z.of_nat i) r) rs.
Proof.
  revert fuel pre off. induction rs as [|r rs IH]; intros fuel pre off Hok Htorn Hf Hn Hb.
  - destruct fuel; [simpl in Hf; lia|]. simpl in *. rewrite app_nil_r in *.
    rewrite scanRecord_offset, Htorn. reflexivity.
  - destruct fuel; [simpl in Hf; lia|].
    inversion Hok as [|? ? Hr Hrs]; subst. rewrite encs_cons in *.
    rewrite <- app_assoc in *. cbn [read_loop length] in *.
    rewrite scanRecord_enc by assumption.
    rewrite !(app_assoc pre (enc r)) in *. rewrite u64_small by lia.
    rewrite IH by (auto; lia). rewrite imap_cons. f_equal; [f_equal; lia|].
    apply imap_ext. intros i x _. simpl. f_equal. lia.
Qed.

Lemma encs_long_enough rs : (length rs <= length (encs rs))%nat.
Proof.
  induction rs as [|r rs IH]; [simpl; lia|]. rewrite encs_cons, length_app. simpl.
  pose proof (length_enc r). unfold recHeaderLen, rec_len, bodyFixedLen in *. lia.
Qed.

Lemma scanSegment_encs base rs t :
  Forall (rec_ok maxRecord) rs ->
  torn_at (segment_header base ++ encs rs ++ t)
    (Z.of_nat (length (segment_header base ++ encs rs))) ->
  Z.of_nat (length rs) < 2 ^ 64 ->
  scanSegment (segment_header base ++ encs rs ++ t) maxRecord
  = (Z.of_nat (length rs), Z.of_nat (length (segment_header base ++ encs rs))).
Proof.
  intros Hok Ht Hb. unfold scanSegment.
  pose proof (scan_loop_encs rs (S (length (segment_header base ++ encs rs ++ t)))
    (segment_header base) t 0 Hok Ht) as H.
  rewrite length_segment_header in H. apply H; try lia.
  rewrite !length_app. pose proof (encs_long_enough rs). lia.
Qed.

Lemma segment_records_encs base rs t :
  0 <= base -> base + Z.of_nat (length rs) < 2 ^ 64 ->
  Forall (rec_ok maxRecord) rs ->
  torn_at (segment_header base ++ encs rs ++ t)
    (Z.of_nat (length (segment_header base ++ encs rs))) ->
  segment_records (segment_header base ++ encs rs ++ t) base maxRecord
  = imap (fun i r => with_offset (base + Z.of_nat i) r) rs.
Proof.
  intros Hb Hb2 Hok Ht. unfold segment_records.
  pose proof (read_loop_encs rs (S (length (segment_header base ++ encs rs ++ t)))
    (segment_header base) t base Hok Ht) as H.
  rewrite length_segment_header in H. apply H; try lia.
  rewrite !length_app. pose proof (encs_long_enough rs). lia.
Qed.

(** [whole rs k]: how many of the records [rs] lie wholly within the first
    [k] bytes of their encoding. *)
Fixpoint whole (rs : list Record) (k : nat) : nat :=
  match rs with
  | [] => 0
  | r :: rs => if (length (enc r) <=? k)%nat then S (whole rs (k - length (enc r))) else 0
  end.

Lemma whole_le rs k : (whole rs k <= length rs)%nat.
Proof.
  revert k. induction rs as [|r rs IH]; intros k; [simpl; lia|]. cbn [whole length].
  specialize (IH (k - length (enc r))%nat). destruct (Nat.leb_spec (length (enc r)) k); lia.
Qed.

Lemma whole_length_le rs k : (length (encs (take (whole rs k) rs)) <= k)%nat.
Proof.
  revert k. induction rs as [|r rs IH]; intros k; [simpl; lia|]. cbn [whole].
  destruct (Nat.leb_spec (length (enc r)) k); cbn [take]; [|simpl; lia].
  rewrite encs_cons, length_app. specialize (IH (k - length (enc r))%nat). lia.
Qed.

Lemma whole_ge rs k n :
  (length (encs (take n rs)) <= k)%nat -> (n <= length rs)%nat -> (n <= whole rs k)%nat.
Proof.
  revert k n. induction rs as [|r rs IH]; intros k n Hl Hn; [simpl in *; lia|].
  destruct n as [|n]; [lia|]. cbn [take whole length] in *.
  rewrite encs_cons, length_app in Hl.
  destruct (Nat.leb_spec (length (enc r)) k); [|lia].
  apply le_n_S, IH; lia.
Qed.

(** A prefix of an encoded run is the encoding of its whole records and
    a cut of the next one. *)
Lemma take_encs rs k :
  Forall (rec_ok maxRecord) rs ->
  exists t, take k (encs rs) = encs (take (whole rs k) rs) ++ t
    /\ forall pre, torn_at (pre ++ encs (take (whole rs k) rs) ++ t)
         (Z.of_nat (length (pre ++ encs (take (whole rs k) rs)))).
Proof.
  revert k. induction rs as [|r rs IH]; intros k Hok.
  - exists []. split; [destruct k; reflexivity|].
    intros pre. cbn [whole take]. change (encs []) with (@nil byte).
    rewrite !app_nil_r. apply torn_at_end.
  - inversion Hok as [|? ? Hr Hrs]; subst. cbn [whole].
    rewrite encs_cons. destruct (Nat.leb_spec (length (enc r)) k) as [Hk|Hk].
    + destruct (IH (k - length (enc r))%nat Hrs) as (t & Ht & Htorn).
      exists t. cbn [take]. rewrite encs_cons, take_app_ge, Ht by lia.
      rewrite <- app_assoc. split; [reflexivity|]. intros pre.
      specialize (Htorn (pre ++ enc r)). rewrite <- !app_assoc in Htorn. exact Htorn.
    + exists (take k (enc r)). rewrite take_app_le by lia. split; [reflexivity|].
      intros pre. cbn [take]. change (encs []) with (@nil byte).
      rewrite app_nil_r. apply scanRecord_cut; assumption.
Qed.

(** The loop of scanSegment ends because it found no record, never because
    the fuel of the model ran out, and more fuel changes nothing. *)
Lemma scanRecord_advances f pos off r next :
  0 <= pos ->
  scanRecord f pos (Z.of_nat (length f)) maxRecord off = Some (r, next) ->
  pos + recHeaderLen + bodyFixedLen <= next <= Z.of_nat (length f).
Proof.
  intros Hpos H. apply scanRecord_Some in H as (pre & post & -> & -> & -> & _); [|exact Hpos].
  pose proof (length_enc r). unfold rec_len, bodyFixedLen in *. rewrite !length_app. lia.
Qed.

Lemma scan_loop_stops fuel f n pos :
  0 <= pos -> Z.of_nat (length f) < pos + Z.of_nat fuel ->
  torn_at f (snd (scan_loop fuel f (Z.of_nat (length f)) maxRecord n pos)).
Proof.
  revert n pos. induction fuel as [|fuel IH]; intros n pos Hpos Hf.
  - apply scanRecord_beyond. simpl. unfold recHeaderLen. lia.
  - cbn [scan_loop]. destruct (scanRecord _ _ _ _ _) as [[r next]|] eqn:E; [|exact E].
    apply scanRecord_advances in E; [|exact Hpos].
    unfold recHeaderLen, bodyFixedLen in E. apply IH; lia.
Qed.

Lemma scanSegment_stops f : torn_at f (snd (scanSegment f maxRecord)).
Proof. apply scan_loop_stops; unfold segHeaderLen; lia. Qed.

(** The scan returns a valid prefix and says so: everything between the
    header and the returned size is encoded records. *)
Lemma scan_loop_sound fuel f n pos n' pos' :
  0 <= pos <= Z.of_nat (length f) ->
  scan_loop fuel f (Z.of_nat (length f)) maxRecord n pos = (n', pos') ->
  exists rs post, Forall (rec_ok maxRecord) rs
    /\ f = take (Z.to_nat pos) f ++ encs rs ++ post
    /\ pos' = pos + Z.of_nat (length (encs rs)) /\ pos' <= Z.of_nat (length f)
    /\ (u64 n' = u64 (n + Z.of_nat (length rs))).
Proof.
  revert n pos. induction fuel as [|fuel IH]; intros n pos Hpos H; cbn [scan_loop] in H.
  - injection H as <- <-. exists [], (drop (Z.to_nat pos) f). simpl.
    rewrite take_drop. split_and!; auto; try lia. f_equal. lia.
  - destruct (scanRecord _ _ _ _ _) as [[r next]|] eqn:E.
    2:{ injection H as <- <-. exists [], (drop (Z.to_nat pos) f). simpl.
        rewrite take_drop. split_and!; auto; try lia. f_equal. lia. }
    apply scanRecord_Some in E as (pre & post & Hf & Hpre & Hnext & _ & Hok); [|lia].
    assert (Hb : 0 <= next <= Z.of_nat (length f)) by (rewrite Hf, Hnext, !length_app; lia).
    destruct (IH _ _ Hb H) as (rs & post' & Hrs & Hf' & Hp' & Hle & Hn').
    exists (r :: rs), post'. rewrite encs_cons, length_app.
    assert (Hpl : Z.to_nat pos = length pre) by lia.
    split_and!; auto.
    + rewrite Hf' at 1. rewrite <- app_assoc, (app_assoc (take (Z.to_nat pos) f)).
      f_equal. rewrite Hf, Hpl, Hnext, Nat2Z.id, take_app_length.
      rewrite app_assoc, take_app_length. reflexivity.
    + rewrite Hp', Hnext, !length_app. lia.
    + rewrite Hn'. unfold u64. rewrite Zplus_mod_idemp_l. simpl length. f_equal. lia.
Qed.

End Scan.

End Segment.
