(* ===== verification/Monad.v ===== *)
(** * State and error

    Go methods mutate their receiver and return an error; the mutations done
    before the error stay. [M S E A] keeps the state on both outcomes.
    [Search] is [sort.Search]. *)
From S2P Require Import Prelude.

Definition M (S E A : Type) : Type := S -> S * (E + A).

Section Monad.
Context {S E : Type}.

Definition ret {A} (a : A) : M S E A := fun s => (s, inr a).
Definition throw {A} (e : E) : M S E A := fun s => (s, inl e).
Definition bind {A B} (m : M S E A) (k : A -> M S E B) : M S E B :=
  fun s => match m s with
           | (s, inl e) => (s, inl e)
           | (s, inr a) => k a s
           end.
Definition get : M S E S := fun s => (s, inr s).
Definition put (s : S) : M S E unit := fun _ => (s, inr tt).
Definition modify (f : S -> S) : M S E unit := fun s => (f s, inr tt).
(** Run [m] and hand its outcome, error included, to the continuation. *)
Definition try {A} (m : M S E A) : M S E (E + A) :=
  fun s => let (s, r) := m s in (s, inr r).

Lemma bind_ret {A B} (a : A) (k : A -> M S E B) s : bind (ret a) k s = k a s.
Proof. reflexivity. Qed.
Lemma bind_ok {A B} (m : M S E A) (k : A -> M S E B) s s' a :
  m s = (s', inr a) -> bind m k s = k a s'.
Proof. intros H. unfold bind. rewrite H. reflexivity. Qed.
Lemma bind_err {A B} (m : M S E A) (k : A -> M S E B) s s' e :
  m s = (s', inl e) -> bind m k s = (s', inl e).
Proof. intros H. unfold bind. rewrite H. reflexivity. Qed.
Lemma bind_assoc {A B C} (m : M S E A) (f : A -> M S E B) (g : B -> M S E C) s :
  bind (bind m f) g s = bind m (fun a => bind (f a) g) s.
Proof. unfold bind. destruct (m s) as [s' [e|a]]; reflexivity. Qed.
Lemma bind_inr {A B} (m : M S E A) (k : A -> M S E B) s s' b :
  bind m k s = (s', inr b) -> exists s1 a, m s = (s1, inr a) /\ k a s1 = (s', inr b).
Proof.
  unfold bind. destruct (m s) as [s1 [e|a]]; intros H; [discriminate|]. eauto.
Qed.
End Monad.

Notation "'let!' x := m 'in' k" := (bind m (fun x => k))
  (at level 10, x binder, m at level 100, k at level 200) : leser_scope.
Notation "m ;; k" := (bind m (fun _ => k))
  (at level 100, k at level 200, right associativity) : leser_scope.

(** ** [sort.Search]: the binary search of the Go library *)
Fixpoint search_loop (fuel : nat) (f : nat -> bool) (i j : nat) : nat :=
  match fuel with
  | O => i
  | S fuel =>
      if (i <? j)%nat then
        let h := ((i + j) / 2)%nat in
        if negb (f h) then search_loop fuel f (h + 1) j else search_loop fuel f i h
      else i
  end.

(** [j - i] halves at least by one each turn, so [n] turns are enough. *)
Definition Search (n : nat) (f : nat -> bool) : nat := search_loop n f 0 n.

Section Search.
Context (f : nat -> bool).
Hypothesis f_mono : forall i j, (i <= j)%nat -> f i = true -> f j = true.

Lemma search_loop_spec fuel i j :
  (i <= j)%nat -> (j - i <= fuel)%nat ->
  (forall k, (k < i)%nat -> f k = false) ->
  let r := search_loop fuel f i j in
  (i <= r <= j)%nat /\ (forall k, (k < r)%nat -> f k = false)
  /\ ((r < j)%nat -> f r = true).
Proof.
  revert i j. induction fuel as [|fuel IH]; intros i j Hij Hf Hlo; cbn [search_loop].
  - assert (i = j) as -> by lia. split_and!; auto; lia.
  - destruct (Nat.ltb_spec i j) as [Hlt|Hge]; [|split_and!; auto; lia].
    assert (Hh : (i <= (i + j) / 2 < j)%nat)
      by (split; [apply Nat.div_le_lower_bound|apply Nat.Div0.div_lt_upper_bound]; lia).
    set (h := ((i + j) / 2)%nat) in *. destruct (f h) eqn:E; cbn [negb].
    + destruct (IH i h) as (H1 & H2 & H3); [lia|lia|exact Hlo|].
      split_and!; auto; try lia. intros _.
      destruct (Nat.eq_dec (search_loop fuel f i h) h) as [->|]; [exact E|].
      apply H3. lia.
    + destruct (IH (h + 1)%nat j) as (H1 & H2 & H3); [lia|lia| |].
      { intros k Hk. destruct (f k) eqn:Ek; [|reflexivity].
        rewrite (f_mono k h) in E; [discriminate|lia|exact Ek]. }
      split_and!; auto; lia.
Qed.

(** On a monotone predicate [Search] returns the least index that satisfies
    it, or [n]. *)
Lemma Search_spec n :
  (Search n f <= n)%nat /\ (forall k, (k < Search n f)%nat -> f k = false)
  /\ ((Search n f < n)%nat -> f (Search n f) = true).
Proof.
  destruct (search_loop_spec n 0 n) as (H1 & H2 & H3); [lia|lia|lia|].
  unfold Search. split_and!; auto; lia.
Qed.

Lemma Search_unique n r :
  (r <= n)%nat -> (forall k, (k < r)%nat -> f k = false) ->
  ((r < n)%nat -> f r = true) -> Search n f = r.
Proof.
  intros Hr Hlo Hhi. destruct (Search_spec n) as (H1 & H2 & H3).
  destruct (lt_eq_lt_dec (Search n f) r) as [[Hlt|]|Hgt]; [|assumption|]; exfalso.
  - rewrite Hlo in H3 by assumption. discriminate H3. lia.
  - rewrite H2 in Hhi by assumption. discriminate Hhi. lia.
Qed.
End Search.
