(* ===== verification/Wal.v ===== *)
(** * The write-ahead log (internal/wal/wal.go, internal/wal/retention.go)

    The state is a directory of files with, per file, the length that the
    last fsync covered, and the in-memory [Log]. System calls consult a
    schedule [d_io] of outcomes, so a failing disk is a value of the model;
    an exhausted schedule means success. The clock is read from [d_now]. *)
From S2P Require Import Prelude GoStrings Hash Monad WalSegment.
Import Segment.

Module Wal.

(** ** Data *)
Inductive SyncPolicy := SyncBatched | SyncAlways | SyncInterval.

Record Options := mkOptions {
  SegmentBytes : Z; MaxRecordBytes : Z; MaxBatchBytes : Z; MaxPending : Z;
  Policy : SyncPolicy; BatchWindow : Z; ReadOnly : bool; RefreshInterval : Z }.

Definition millisecond : Z := 1000000.

Definition defaults (o : Options) : Options :=
  {| SegmentBytes := if SegmentBytes o <=? 0 then Z.shiftl 128 20 else SegmentBytes o;
     MaxRecordBytes := if MaxRecordBytes o <=? 0 then Z.shiftl 16 20 else MaxRecordBytes o;
     MaxBatchBytes := if MaxBatchBytes o <=? 0 then Z.shiftl 4 20 else MaxBatchBytes o;
     MaxPending := if MaxPending o <=? 0 then 4096 else MaxPending o;
     Policy := Policy o;
     BatchWindow := if BatchWindow o <=? 0 then 2 * millisecond else BatchWindow o;
     ReadOnly := ReadOnly o;
     RefreshInterval :=
       if RefreshInterval o <=? 0 then 25 * millisecond else RefreshInterval o |}.

Inductive wal_error :=
  | ErrCorrupt | ErrClosed | ErrTooLarge | ErrReadOnly
  | errSegmentNotReady
  | ErrHeader (e : hdr_error)      (* "wal: segment %d: ..." *)
  | ErrHeaderBase                  (* "header claims base" *)
  | ErrNotExist                    (* os.IsNotExist *)
  | ErrIO                          (* any other error of the file system *)
  | ErrNil.                        (* a nil dereference or an index out of range *)

#[export] Instance hdr_error_eq_dec : EqDecision hdr_error.
Proof. solve_decision. Defined.
#[export] Instance wal_error_eq_dec : EqDecision wal_error.
Proof. solve_decision. Defined.

(** segMeta describes one on-disk segment. *)
Record segMeta := mkSeg { base : Z; records : Z; bytes : Z }.

Definition end_ (s : segMeta) : Z := u64 (base s + records s).

Record appendReq := mkReq { typ : byte; payload : list byte }.

(** ** Files *)
Record File := mkFile { f_data : list byte; f_synced : nat }.

(** An open [*os.File]: the name it was opened under, its offset, whether it
    is still open. *)
Record Handle := mkHandle { h_name : string; h_pos : Z; h_open : bool }.

Inductive ioRes := IoOk | IoFail (written : nat).

Record Log := mkLog {
  opts : Options; segs : list segMeta; active : option Handle; next : Z;
  closed : bool; lastSync : Z }.

Record St := mkSt {
  d_files : gmap string File; d_io : list ioRes; d_now : Z; log : Log }.

Definition W := M St wal_error.

Definition set_log (f : Log -> Log) : W unit :=
  modify (fun s => mkSt (d_files s) (d_io s) (d_now s) (f (log s))).
Definition set_segs (v : list segMeta) (l : Log) : Log :=
  mkLog (opts l) v (active l) (next l) (closed l) (lastSync l).
Definition set_active (v : option Handle) (l : Log) : Log :=
  mkLog (opts l) (segs l) v (next l) (closed l) (lastSync l).
Definition set_next (v : Z) (l : Log) : Log :=
  mkLog (opts l) (segs l) (active l) v (closed l) (lastSync l).
Definition set_closed (v : bool) (l : Log) : Log :=
  mkLog (opts l) (segs l) (active l) (next l) v (lastSync l).
Definition set_lastSync (v : Z) (l : Log) : Log :=
  mkLog (opts l) (segs l) (active l) (next l) (closed l) v.
Definition set_files (f : gmap string File -> gmap string File) : W unit :=
  modify (fun s => mkSt (f (d_files s)) (d_io s) (d_now s) (log s)).

(** The next outcome of the schedule. *)
Definition next_io : W ioRes := fun s =>
  match d_io s with
  | [] => (s, inr IoOk)
  | o :: io => (mkSt (d_files s) io (d_now s) (log s), inr o)
  end.

Definition syscall : W unit :=
  let! o := next_io in
  match o with IoOk => ret tt | IoFail _ => throw ErrIO end.

Definition get_file (name : string) : W File :=
  let! s := get in
  match d_files s !! name with Some f => ret f | None => throw ErrNotExist end.

(** [os.Open] followed by reading what the file holds now. *)
Definition os_open (name : string) : W File := syscall ;; get_file name.

Definition os_remove (name : string) : W unit :=
  syscall ;; (get_file name ;; set_files (delete name)).

(** [os.ReadDir]: the names in the directory. *)
Definition os_readdir : W (list string) :=
  syscall ;; (let! s := get in ret (map_to_list (d_files s)).*1).

(** [f.Write]: stores the bytes at the file offset and advances it. A failing
    write may have stored a prefix; the offset then stands after it. The
    boolean says whether everything was written. *)
Definition file_write (h : Handle) (bs : list byte) : W (Handle * bool) :=
  if negb (h_open h) then ret (h, false)
  else
    let! o := next_io in
    let! f := get_file (h_name h) in
    let bs := match o with IoOk => bs | IoFail k => take k bs end in
    set_files (insert (h_name h) (mkFile (pwrite (f_data f) (h_pos h) bs) (f_synced f))) ;;
    ret (mkHandle (h_name h) (h_pos h + Z.of_nat (length bs)) true,
         match o with IoOk => true | IoFail _ => false end).

(** [f.Sync]: afterwards the whole file survives a crash. *)
Definition file_sync (h : Handle) : W unit :=
  if negb (h_open h) then throw ErrIO
  else syscall ;;
    (let! f := get_file (h_name h) in
     set_files (insert (h_name h) (mkFile (f_data f) (length (f_data f))))).

(** [f.Close]: the handle is closed even when it reports an error. *)
Definition file_close (h : Handle) : W (Handle * bool) :=
  if negb (h_open h) then ret (h, false)
  else
    let! o := next_io in
    ret (mkHandle (h_name h) (h_pos h) false, match o with IoOk => true | IoFail _ => false end).

Definition file_truncate (h : Handle) (size : Z) : W unit :=
  syscall ;;
  (let! f := get_file (h_name h) in
   set_files (insert (h_name h)
     (mkFile (take (Z.to_nat size) (f_data f)) (Nat.min (f_synced f) (Z.to_nat size))))).

(** ** segment.go: the operations on the directory *)

(** listSegments returns segment base offsets in the directory, ascending. *)
Definition listSegments : W (list Z) :=
  let! names := os_readdir in ret (sortZ (omap parseSegmentName names)).

(** createSegment: O_EXCL refuses an existing file. *)
Definition createSegment (b : Z) : W Handle :=
  syscall ;;
  (let! s := get in
   match d_files s !! segmentName b with
   | Some _ => throw ErrIO
   | None =>
       set_files (insert (segmentName b) (mkFile [] 0)) ;;
       (let! w := file_write (mkHandle (segmentName b) 0 true) (segment_header b) in
        if snd w then ret (fst w) else throw ErrIO)
   end).

(** [l.active.Write(rec)]: the log's handle is the same [*os.File]. *)
Definition write_active (rec : list byte) : W unit :=
  let! s := get in
  match active (log s) with
  | None => throw ErrNil
  | Some h =>
      let! w := file_write h rec in
      set_log (set_active (Some (fst w))) ;;
      if snd w then ret tt else throw ErrIO
  end.

(** ** load: recovery on every open *)
Fixpoint load_segs (bases : list Z) : W (list segMeta) :=
  match bases with
  | [] => ret []
  | b :: rest =>
      let! f := os_open (segmentName b) in
      match readSegmentHeader (f_data f) with
      | inl e =>
          (* A torn header can only be the last (crash during roll): drop it. *)
          match rest with
          | [] => os_remove (segmentName b) ;; ret []
          | _ => throw (ErrHeader e)
          end
      | inr hdrBase =>
          if negb (hdrBase =? b) then throw ErrHeaderBase
          else
            syscall ;;
            (let! s := get in
             let '(n, validSize) := scanSegment (f_data f) (MaxRecordBytes (opts (log s))) in
             let! r := load_segs rest in
             ret (mkSeg b n validSize :: r))
      end
  end.

Fixpoint chain_ok (l : list segMeta) : bool :=
  match l with
  | s :: ((s' :: _) as l') => (end_ s =? base s') && chain_ok l'
  | _ => true
  end.

Definition fresh_log : W unit :=
  let! h := createSegment 0 in
  set_log (fun l => set_next 0 (set_segs [mkSeg 0 0 segHeaderLen] (set_active (Some h) l))).

(** Reopen the last segment writable, truncate any torn tail, position at
    the end. A failing Stat only skips the truncation. *)
Definition reopen_last (s : segMeta) : W unit :=
  let! f := os_open (segmentName (base s)) in
  let! st := try syscall in
  match st with
  | inr _ =>
      if bytes s <? Z.of_nat (length (f_data f))
      then file_truncate (mkHandle (segmentName (base s)) 0 true) (bytes s) else ret tt
  | inl _ => ret tt
  end ;;
  (syscall ;;
   set_log (fun l =>
     set_next (end_ s) (set_active (Some (mkHandle (segmentName (base s)) (bytes s) true)) l))).

Definition load_tail (ss : list segMeta) : W unit :=
  match last ss with
  | None => fresh_log (* the only segment had a torn header *)
  | Some s =>
      if negb (chain_ok ss) then throw ErrCorrupt
      else set_log (set_segs ss) ;; reopen_last s
  end.

Definition load_rw : W unit :=
  let! bases := listSegments in
  match bases with
  | [] => fresh_log
  | _ => let! ss := load_segs bases in load_tail ss
  end.

(** ** roll, writeBatch *)

(** roll seals the active segment (sync + close) and creates the next one. *)
Definition roll : W unit :=
  let! s := get in
  match active (log s) with
  | None => throw ErrNil
  | Some h =>
      file_sync h ;;
      (let! c := file_close h in
       set_log (set_active (Some (fst c))) ;;
       ((if snd c then ret tt else throw ErrIO) ;;
        let b := next (log s) in
        let! h2 := createSegment b in
        set_log (fun l => set_segs (segs l ++ [mkSeg b 0 segHeaderLen]) (set_active (Some h2) l))))
  end.

Definition update_last (f : segMeta -> segMeta) (ss : list segMeta) : list segMeta :=
  match last ss with
  | None => ss
  | Some s => take (length ss - 1) ss ++ [f s]
  end.

Definition sync_active : W unit :=
  let! s := get in
  match active (log s) with None => throw ErrNil | Some h => file_sync h end.

(** One iteration of writeBatch's loop; the record was encoded with the time
    [now] of the batch. *)
Definition write_one (now : Z) (r : appendReq) : W Z :=
  let rec := appendRecord now (typ r) (payload r) in
  let! s := get in
  match last (segs (log s)) with
  | None => throw ErrNil
  | Some a =>
      (if (SegmentBytes (opts (log s)) <? bytes a + Z.of_nat (length rec)) && (0 <? records a)
       then roll else ret tt) ;;
      (write_active rec ;;
       (set_log (fun l =>
          set_segs (update_last (fun a => mkSeg (base a) (u64 (records a + 1))
                                  (bytes a + Z.of_nat (length rec))) (segs l)) l) ;;
        (let! s := get in
         let off := next (log s) in
         set_log (set_next (u64 (off + 1))) ;;
         ((match Policy (opts (log s)) with SyncAlways => sync_active | _ => ret tt end) ;;
          ret off))))
  end.

Fixpoint write_all (now : Z) (batch : list appendReq) : W (list Z) :=
  match batch with
  | [] => ret []
  | r :: batch =>
      let! o := write_one now r in
      let! os := write_all now batch in
      ret (o :: os)
  end.

Definition sync_batch : W unit :=
  let! s := get in
  match Policy (opts (log s)) with
  | SyncBatched => sync_active
  | SyncInterval =>
      if BatchWindow (opts (log s)) <=? d_now s - lastSync (log s)
      then sync_active ;; set_log (set_lastSync (d_now s))
      else ret tt
  | SyncAlways => ret tt
  end.

(** writeBatch appends all records in batch, rolling segments as needed, and
    syncs according to policy. Returns the assigned offsets. *)
Definition writeBatch (batch : list appendReq) : W (list Z) :=
  let! s := get in
  let! offsets := write_all (d_now s) batch in
  sync_batch ;; ret offsets.

(** ** Append and the writer goroutine *)

(** The checks Append makes before it queues the request. *)
Definition append_check (l : Log) (p : list byte) : option wal_error :=
  if ReadOnly (opts l) then Some ErrReadOnly
  else if MaxRecordBytes (opts l) <? Z.of_nat (length p) + bodyFixedLen then Some ErrTooLarge
  else if closed l then Some ErrClosed
  else None.

(** The requests writeLoop adds to the batch while they arrive before the
    deadline; the others stay queued. *)
Fixpoint collect (maxBatch batchBytes : Z) (arrived : list appendReq)
    : list appendReq * list appendReq :=
  match arrived with
  | [] => ([], [])
  | r :: rest =>
      if batchBytes <? maxBatch then
        let '(b, q) := collect maxBatch
          (batchBytes + recHeaderLen + bodyFixedLen + Z.of_nat (length (payload r))) rest in
        (r :: b, q)
      else ([], arrived)
  end.

(** One turn of writeLoop: the first request and those collected after it
    are written, and every one of them gets the batch's error or its own
    offset. [arrived] are the requests received before the deadline. *)
Definition writeLoop_turn (req : appendReq) (arrived : list appendReq)
    : St -> St * (list (appendReq * (wal_error + Z)) * list appendReq) := fun s =>
  let o := opts (log s) in
  let '(more, queued) :=
    match Policy o with
    | SyncBatched | SyncInterval =>
        collect (MaxBatchBytes o)
          (recHeaderLen + bodyFixedLen + Z.of_nat (length (payload req))) arrived
    | SyncAlways => ([], arrived)
    end in
  let batch := req :: more in
  let '(s', r) := writeBatch batch s in
  (s', (match r with
        | inl e => map (fun q => (q, inl e)) batch
        | inr offs => zip_with (fun q o => (q, inr o)) batch offs
        end, queued)).

(** ** Queries *)
Definition LatestOffset (l : Log) : Z := next l.
Definition OldestOffset (l : Log) : Z :=
  match segs l with [] => 0 | s :: _ => base s end.

(** segmentFor returns the metadata of the segment containing offset. *)
Definition segmentFor (l : Log) (offset : Z) : option segMeta :=
  let i := Search (length (segs l))
    (fun i => match segs l !! i with Some s => offset <? end_ s | None => true end) in
  match segs l !! i with
  | None => None
  | Some s => if offset <? base s then None else Some s
  end.

(** ** Close *)
Definition Close : W unit :=
  let! s := get in
  if closed (log s) then ret tt
  else
    set_log (set_closed true) ;;
    if ReadOnly (opts (log s)) then ret tt
    else match active (log s) with
         | None => throw ErrNil
         | Some h =>
             let! r := try (file_sync h) in
             let! c := file_close h in
             set_log (set_active (Some (fst c))) ;;
             match r with
             | inl e => throw e
             | inr _ => if snd c then ret tt else throw ErrIO
             end
         end.

(** ** Refresh: the view of a ReadOnly log *)
Definition readSegmentProbe (b : Z) : W segMeta :=
  let! r := try (os_open (segmentName b)) in
  match r with
  | inl ErrNotExist => throw errSegmentNotReady
  | inl e => throw e
  | inr f =>
      match readSegmentHeader (f_data f) with
      | inl _ => throw errSegmentNotReady (* torn header: writer mid-create *)
      | inr hdrBase =>
          if negb (hdrBase =? b) then throw ErrHeaderBase
          else syscall ;;
            (let! s := get in
             let '(n, validSize) := scanSegment (f_data f) (MaxRecordBytes (opts (log s))) in
             ret (mkSeg b n validSize))
      end
  end.

(** The first attach: every listed segment up to one that is not ready. *)
Fixpoint refresh_first (bases : list Z) : W unit :=
  match bases with
  | [] => ret tt
  | b :: rest =>
      let! r := try (readSegmentProbe b) in
      match r with
      | inl errSegmentNotReady => ret tt
      | inl e => throw e
      | inr m => set_log (fun l => set_segs (segs l ++ [m]) l) ;; refresh_first rest
      end
  end.

Fixpoint refresh_more (expect : Z) (bases : list Z) : W unit :=
  match bases with
  | [] => ret tt
  | b :: rest =>
      if b <? expect then refresh_more expect rest
      else if negb (b =? expect) then throw ErrCorrupt
      else
        let! r := try (readSegmentProbe b) in
        match r with
        | inl errSegmentNotReady => ret tt
        | inl e => throw e
        | inr m => set_log (fun l => set_segs (segs l ++ [m]) l) ;; refresh_more (end_ m) rest
        end
  end.

Definition refresh_next : W unit :=
  let! s := get in
  match last (segs (log s)) with
  | None => ret tt
  | Some a => set_log (set_next (end_ a))
  end.

Definition Refresh : W unit :=
  let! bases := listSegments in
  match bases with
  | [] => ret tt (* owning process hasn't written its first segment yet *)
  | _ =>
      let! s := get in
      (match last (segs (log s)) with
       | None => refresh_first bases
       | Some a =>
           let! r := try (readSegmentProbe (base a)) in
           (match r with
            | inl errSegmentNotReady => ret tt
            | inl e => throw e
            | inr m => set_log (fun l => set_segs (update_last (fun _ => m) (segs l)) l)
            end) ;;
           (let! s := get in
            match last (segs (log s)) with
            | None => throw ErrNil
            | Some a => refresh_more (end_ a) bases
            end)
       end) ;;
      refresh_next
  end.

Definition load : W unit :=
  let! s := get in if ReadOnly (opts (log s)) then Refresh else load_rw.

(** Open builds the log around [load]; MkdirAll is a system call. *)
Definition Open (o : Options) : W unit :=
  syscall ;;
  (set_log (fun _ => mkLog (defaults o) [] None 0 false 0) ;; load).

(** ** Retention *)
Record RetentionPolicy := mkRetention { MaxBytes : Z; MaxAge : Z; MinRetainOffset : Z }.

(** segmentNewestTime: the time of the last record of a segment; a segment
    without records gives the zero Record's time. *)
Definition segmentNewestTime (s : segMeta) : W Z :=
  let! f := os_open (segmentName (base s)) in
  syscall ;;
  (let! st := get in
   ret (match last (segment_records (f_data f) (base s) (MaxRecordBytes (opts (log st)))) with
        | Some r => Time r | None => 0 end)).

(** The loop drops the head of the segment list each turn; it stops before
    the last one. The result is the code's (deleted, err). *)
Fixpoint retain_loop (ss : list segMeta) (p : RetentionPolicy) (now total deleted : Z)
    : W (Z * option wal_error) :=
  match ss with
  | s :: ((_ :: _) as rest) =>
      if MinRetainOffset p <? end_ s then ret (deleted, None)
      else
        let overSize := (0 <? MaxBytes p) && (MaxBytes p <? total) in
        let! overAge :=
          (if 0 <? MaxAge p then
             let! r := try (segmentNewestTime s) in
             match r with
             | inr newest => ret (MaxAge p <? now - newest)
             | inl _ => ret false
             end
           else ret false) in
        if negb overSize && negb overAge then ret (deleted, None)
        else
          let! r := try (os_remove (segmentName (base s))) in
          match r with
          | inl e => ret (deleted, Some e)
          | inr _ =>
              set_log (set_segs rest) ;;
              retain_loop rest p now (total - bytes s) (deleted + 1)
          end
  | _ => ret (deleted, None)
  end.

Definition Retain (p : RetentionPolicy) (now : Z) : W (Z * option wal_error) :=
  let! s := get in
  let ss := segs (log s) in
  retain_loop ss p now (foldr (fun s t => bytes s + t) 0 ss) 0.

End Wal.
