(* ===== verification/WalInv.v ===== *)
(** * The log invariant and appends (theorems about Wal.v)

    [repr] relates the in-memory segment list and the directory to the
    records they hold; [log_records] reads those records back out of the
    files. Appending a batch on a healthy disk extends [log_records] by the
    batch and keeps the invariant. *)
From S2P Require Import Prelude GoStrings Hash Monad WalSegment Wal.
Import Segment Wal.

Module WalInv.

(** Records numbered from [b]. *)
Definition numbered (b : Z) (rs : list Record) : list Record :=
  imap (fun i r => with_offset (b + Z.of_nat i) r) rs.

Lemma with_offset_with_offset a b r : with_offset a (with_offset b r) = with_offset a r.
Proof. reflexivity. Qed.

Lemma length_numbered b rs : length (numbered b rs) = length rs.
Proof. apply length_imap. Qed.

Lemma numbered_app b rs1 rs2 :
  numbered b (rs1 ++ rs2) = numbered b rs1 ++ numbered (b + Z.of_nat (length rs1)) rs2.
Proof.
  unfold numbered. rewrite imap_app. f_equal. apply imap_ext. intros i r _.
  simpl. f_equal. lia.
Qed.

Lemma numbered_take b rs n : numbered b rs = rs -> numbered b (take n rs) = take n rs.
Proof.
  intros H. destruct (Nat.le_ge_cases n (length rs)) as [Hn|Hn].
  - rewrite <- (take_drop n rs) in H. rewrite numbered_app in H.
    apply app_inj_1 in H; [tauto|]. apply length_numbered.
  - rewrite take_ge by lia. exact H.
Qed.

Lemma encs_with_offset b rs : encs (numbered b rs) = encs rs.
Proof.
  unfold encs, numbered. f_equal. revert b. induction rs as [|r rs IH]; intros b; [reflexivity|].
  rewrite imap_cons. simpl. f_equal. rewrite <- (IH (b + 1)). f_equal.
  apply imap_ext. intros i x _. simpl. f_equal. lia.
Qed.

(** ** Representation *)

(** The records of the log, read back from the directory. *)
Definition file_records (max : Z) (files : gmap string File) (m : segMeta) : list Record :=
  match files !! segmentName (base m) with
  | Some f => segment_records (f_data f) (base m) max
  | None => []
  end.

Definition log_records (s : St) : list Record :=
  concat (map (file_records (MaxRecordBytes (opts (log s))) (d_files s)) (segs (log s))).

(** The records that the bytes covered by fsync hold. *)
Definition durable_records (s : St) : list Record :=
  concat (map (file_records (MaxRecordBytes (opts (log s)))
    ((fun f => mkFile (take (f_synced f) (f_data f)) (f_synced f)) <$> d_files s))
    (segs (log s))).

Record seg_repr (max : Z) (m : segMeta) (rs : list Record) (f : File) : Prop := {
  sr_data : f_data f = segment_header (base m) ++ encs rs;
  sr_records : records m = Z.of_nat (length rs);
  sr_bytes : bytes m = Z.of_nat (length (f_data f));
  sr_ok : Forall (rec_ok max) rs;
  sr_num : numbered (base m) rs = rs;
  sr_base : 0 <= base m;
  sr_bound : base m + Z.of_nat (length rs) < 2 ^ 64;
  sr_synced : (f_synced f <= length (f_data f))%nat }.

(** A sealed segment: complete, synced, with at least one record. *)
Definition sealed_repr (max : Z) (files : gmap string File) (m : segMeta) (rs : list Record) : Prop :=
  exists f, files !! segmentName (base m) = Some f /\ seg_repr max m rs f
    /\ f_synced f = length (f_data f) /\ rs <> [].

Definition active_repr (max : Z) (files : gmap string File) (m : segMeta) (rs : list Record) : Prop :=
  exists f, files !! segmentName (base m) = Some f /\ seg_repr max m rs f.

(** Exactly the listed segments have a file whose name parses. *)
Definition names_repr (files : gmap string File) (bases : list Z) : Prop :=
  forall b, 0 <= b < 2 ^ 64 -> (is_Some (files !! segmentName b) <-> b ∈ bases).

Record repr (max : Z) (files : gmap string File)
    (sealed : list segMeta) (a : segMeta) (srss : list (list Record)) (ars : list Record) : Prop := {
  rp_sealed : Forall2 (sealed_repr max files) sealed srss;
  rp_active : active_repr max files a ars;
  rp_chain : chain_ok (sealed ++ [a]) = true;
  rp_names : names_repr files (map base (sealed ++ [a])) }.

(** ** The chain: bases grow strictly *)

Lemma seg_end max m rs f :
  seg_repr max m rs f -> end_ m = base m + Z.of_nat (length rs).
Proof. intros []. unfold end_. rewrite sr_records0. apply u64_small. lia. Qed.

Lemma chain_ok_cons m m' l :
  chain_ok (m :: m' :: l) = true <-> end_ m = base m' /\ chain_ok (m' :: l) = true.
Proof. cbn [chain_ok]. rewrite andb_true_iff, Z.eqb_eq. reflexivity. Qed.

Lemma chain_ok_snoc l m m' :
  chain_ok (l ++ [m]) = true -> end_ m = base m' -> chain_ok ((l ++ [m]) ++ [m']) = true.
Proof.
  induction l as [|x l IH]; intros Hc He.
  - simpl. rewrite andb_true_r. apply Z.eqb_eq, He.
  - destruct l as [|y l].
    + apply chain_ok_cons in Hc as [H1 _]. apply chain_ok_cons.
      split; [exact H1|]. simpl. rewrite andb_true_r. apply Z.eqb_eq, He.
    + simpl app in *. apply chain_ok_cons in Hc as [H1 Hc].
      apply chain_ok_cons. split; [exact H1|]. apply IH; assumption.
Qed.

Lemma chain_ok_app_l l1 l2 : chain_ok (l1 ++ l2) = true -> chain_ok l1 = true.
Proof.
  induction l1 as [|x l1 IH]; [reflexivity|]. destruct l1 as [|y l1]; [reflexivity|].
  intros H. simpl app in H. apply chain_ok_cons in H as [H1 H2].
  apply chain_ok_cons. auto.
Qed.

Lemma chain_ok_tail x l : chain_ok (x :: l) = true -> chain_ok l = true.
Proof. destruct l; [reflexivity|]. intros [_ H]%chain_ok_cons. exact H. Qed.

(** What the chain and non-empty segments give: the bases are strictly
    sorted and below every later end. *)
Lemma bases_sorted max files sealed srss a ars :
  Forall2 (sealed_repr max files) sealed srss -> active_repr max files a ars ->
  chain_ok (sealed ++ [a]) = true ->
  StronglySorted Z.lt (map base (sealed ++ [a])).
Proof.
  intros Hs Ha. induction Hs as [|m rs sealed srss Hm Hs IH]; intros Hc.
  - repeat constructor.
  - assert (Hlt : forall m', head (sealed ++ [a]) = Some m' -> base m < base m').
    { intros m' Hh. destruct Hm as (f & _ & Hm & _ & Hne).
      pose proof (seg_end _ _ _ _ Hm) as He.
      destruct (sealed ++ [a]) as [|x l] eqn:E; [discriminate|].
      injection Hh as ->. simpl app in Hc. rewrite E in Hc.
      apply chain_ok_cons in Hc as [Hc _].
      destruct rs; [congruence|]. simpl in He. lia. }
    simpl app in *. apply chain_ok_tail in Hc. specialize (IH Hc).
    cbn [map]. constructor; [exact IH|].
    destruct (sealed ++ [a]) as [|x l] eqn:E; [constructor|].
    specialize (Hlt x eq_refl). cbn [map] in *. inversion IH as [|? ? _ Hf]; subst.
    constructor; [exact Hlt|]. eapply Forall_impl; [exact Hf|]. simpl. lia.
Qed.

Lemma repr_sorted max files sealed a srss ars :
  repr max files sealed a srss ars -> StronglySorted Z.lt (map base (sealed ++ [a])).
Proof. intros []. eapply bases_sorted; eauto. Qed.

Lemma seg_base_range max m rs f : seg_repr max m rs f -> 0 <= base m < 2 ^ 64.
Proof. intros []. lia. Qed.

Lemma sealed_base_range max files m rs : sealed_repr max files m rs -> 0 <= base m < 2 ^ 64.
Proof. intros (f & _ & H & _). eapply seg_base_range, H. Qed.

Lemma repr_base_range max files sealed a srss ars :
  repr max files sealed a srss ars -> Forall (fun b => 0 <= b < 2 ^ 64) (map base (sealed ++ [a])).
Proof.
  intros [Hs (f & _ & Ha) _ _]. rewrite map_app. apply Forall_app. split.
  - apply Forall_map. eapply Forall2_Forall_l; [exact Hs|].
    apply Forall_forall. intros m _ rs Hm. eapply sealed_base_range, Hm.
  - repeat constructor; apply (seg_base_range _ _ _ _ Ha).
Qed.

(** ** Reading back *)

Lemma seg_repr_file_records max files m rs f :
  files !! segmentName (base m) = Some f -> seg_repr max m rs f ->
  file_records max files m = rs.
Proof.
  intros Hf []. unfold file_records. rewrite Hf, sr_data0.
  rewrite <- (app_nil_r (encs rs)).
  rewrite segment_records_encs; auto.
  rewrite app_nil_r. apply torn_at_end.
Qed.

Lemma repr_records max files sealed a srss ars :
  repr max files sealed a srss ars ->
  concat (map (file_records max files) (sealed ++ [a])) = concat srss ++ ars.
Proof.
  intros [Hs (f & Hf & Ha) _ _]. rewrite map_app, concat_app. f_equal.
  - f_equal. clear -Hs. induction Hs as [|m rs sealed srss (f & Hf & Hm & _) Hs IH]; [reflexivity|].
    cbn [map]. rewrite IH. f_equal. eapply seg_repr_file_records; eauto.
  - simpl. rewrite app_nil_r. eapply seg_repr_file_records; eauto.
Qed.

(** ** The invariant of a writable log *)
Record inv (s : St) (sealed : list segMeta) (a : segMeta)
    (srss : list (list Record)) (ars : list Record) : Prop := {
  iv_repr : repr (MaxRecordBytes (opts (log s))) (d_files s) sealed a srss ars;
  iv_segs : segs (log s) = sealed ++ [a];
  iv_active : active (log s) = Some (mkHandle (segmentName (base a)) (bytes a) true);
  iv_next : next (log s) = end_ a;
  iv_max : MaxRecordBytes (opts (log s)) < 2 ^ 32 }.

Definition wal_wf (s : St) : Prop := exists sealed a srss ars, inv s sealed a srss ars.

(** What an append never touches. *)
Record same_config (s s' : St) : Prop := {
  sc_opts : opts (log s') = opts (log s);
  sc_now : d_now s' = d_now s;
  sc_closed : closed (log s') = closed (log s);
  sc_lastSync : lastSync (log s') = lastSync (log s) }.

Lemma same_config_refl s : same_config s s.
Proof. split; reflexivity. Qed.
Lemma same_config_trans s1 s2 s3 : same_config s1 s2 -> same_config s2 s3 -> same_config s1 s3.
Proof. intros [] []. split; congruence. Qed.

Lemma inv_log_records s sealed a srss ars :
  inv s sealed a srss ars -> log_records s = concat srss ++ ars.
Proof.
  intros []. unfold log_records. rewrite iv_segs0. eapply repr_records, iv_repr0.
Qed.

(** ** System calls on a healthy disk *)
Lemma next_io_ok s : d_io s = [] -> next_io s = (s, inr IoOk).
Proof. intros H. unfold next_io. rewrite H. reflexivity. Qed.
Lemma syscall_ok s : d_io s = [] -> syscall s = (s, inr tt).
Proof. intros H. unfold syscall, bind. rewrite next_io_ok by exact H. reflexivity. Qed.

Lemma get_file_ok s name f : d_files s !! name = Some f -> get_file name s = (s, inr f).
Proof. intros H. unfold get_file, bind, get. rewrite H. reflexivity. Qed.

Lemma os_open_ok s name f :
  d_io s = [] -> d_files s !! name = Some f -> os_open name s = (s, inr f).
Proof.
  intros Hio H. unfold os_open, bind. rewrite syscall_ok by exact Hio. apply get_file_ok, H.
Qed.

Definition with_files (files : gmap string File) (s : St) : St :=
  mkSt files (d_io s) (d_now s) (log s).

Lemma set_files_eq g s : set_files g s = (with_files (g (d_files s)) s, inr tt).
Proof. reflexivity. Qed.

Lemma file_write_ok s name pos f bs :
  d_io s = [] -> d_files s !! name = Some f -> pos = Z.of_nat (length (f_data f)) ->
  file_write (mkHandle name pos true) bs s
  = (with_files (<[name := mkFile (f_data f ++ bs) (f_synced f)]> (d_files s)) s,
     inr (mkHandle name (pos + Z.of_nat (length bs)) true, true)).
Proof.
  intros Hio Hf ->. unfold file_write, bind. cbn [negb h_open h_name h_pos].
  rewrite next_io_ok by exact Hio. rewrite (get_file_ok _ _ _ Hf).
  rewrite set_files_eq, pwrite_at_end. reflexivity.
Qed.

Lemma file_sync_ok s name pos f :
  d_io s = [] -> d_files s !! name = Some f ->
  file_sync (mkHandle name pos true) s
  = (with_files (<[name := mkFile (f_data f) (length (f_data f))]> (d_files s)) s, inr tt).
Proof.
  intros Hio Hf. unfold file_sync, bind. cbn [negb h_open h_name].
  rewrite syscall_ok by exact Hio. rewrite (get_file_ok _ _ _ Hf). reflexivity.
Qed.

Lemma file_close_ok s name pos : d_io s = [] ->
  file_close (mkHandle name pos true) s = (s, inr (mkHandle name pos false, true)).
Proof. intros Hio. unfold file_close, bind, next_io. cbn [negb h_open d_io]. rewrite Hio. reflexivity. Qed.

Lemma createSegment_ok s b :
  d_io s = [] -> d_files s !! segmentName b = None ->
  createSegment b s
  = (with_files (<[segmentName b := mkFile (segment_header b) 0]> (d_files s)) s,
     inr (mkHandle (segmentName b) segHeaderLen true)).
Proof.
  intros Hio Hn. unfold createSegment, bind at 1. rewrite syscall_ok by exact Hio.
  unfold bind at 1, get. rewrite Hn. unfold bind at 1. rewrite set_files_eq.
  unfold bind. erewrite file_write_ok; [|exact Hio|apply lookup_insert_eq|reflexivity].
  cbn [fst snd f_data f_synced]. unfold with_files. cbn [d_files d_io d_now log].
  rewrite insert_insert_eq. reflexivity.
Qed.

(** ** The representation under updates of the directory *)
Lemma sealed_repr_insert_ne max files m rs name f :
  name <> segmentName (base m) ->
  sealed_repr max files m rs -> sealed_repr max (<[name := f]> files) m rs.
Proof.
  intros Hn (f' & Hf & H). exists f'. rewrite lookup_insert_ne by exact Hn. auto.
Qed.

Lemma Forall2_sealed_insert max files sealed srss b f :
  0 <= b < 2 ^ 64 -> b ∉ map base sealed ->
  Forall2 (sealed_repr max files) sealed srss ->
  Forall2 (sealed_repr max (<[segmentName b := f]> files)) sealed srss.
Proof.
  intros Hb Hni H. induction H as [|m rs sealed srss Hm H IH]; constructor.
  - apply sealed_repr_insert_ne; [|exact Hm]. intros E.
    apply segmentName_inj in E; [|exact Hb|eapply sealed_base_range, Hm].
    apply Hni. subst. left.
  - apply IH. intros Hin. apply Hni. right. exact Hin.
Qed.

Lemma names_repr_insert files bases b f :
  0 <= b < 2 ^ 64 -> names_repr files bases ->
  names_repr (<[segmentName b := f]> files) (bases ++ [b]).
Proof.
  intros Hb H b' Hb'. rewrite lookup_insert_is_Some, (H b' Hb'), elem_of_app, list_elem_of_singleton.
  split.
  - intros [E|[_ E]]; [|auto]. right. symmetry. eapply segmentName_inj; eauto.
  - intros [E| ->]; [|auto]. destruct (decide (segmentName b = segmentName b')); auto.
Qed.

Lemma names_repr_update files bases b f :
  0 <= b < 2 ^ 64 -> b ∈ bases -> names_repr files bases ->
  names_repr (<[segmentName b := f]> files) bases.
Proof.
  intros Hb Hin H b' Hb'. rewrite lookup_insert_is_Some, (H b' Hb'). split.
  - intros [E|[_ E]]; [|auto]. apply segmentName_inj in E; [|auto..]. subst. exact Hin.
  - intros E. destruct (decide (segmentName b = segmentName b')); auto.
Qed.

Lemma last_base_max l a :
  StronglySorted Z.lt (map base (l ++ [a])) -> forall b, b ∈ map base l -> b < base a.
Proof.
  induction l as [|x l IH]; intros H b Hb; [inversion Hb|].
  simpl in H. inversion H as [|? ? H1 H2]; subst.
  apply list_elem_of_In in Hb. destruct Hb as [<-|Hb].
  - rewrite Forall_forall in H2. apply H2. rewrite map_app. apply elem_of_app. right. left.
  - apply IH; [exact H1|]. apply list_elem_of_In, Hb.
Qed.

Lemma repr_active_fresh max files sealed a srss ars :
  repr max files sealed a srss ars -> base a ∉ map base sealed.
Proof.
  intros H Hin. pose proof (last_base_max _ _ (repr_sorted _ _ _ _ _ _ H) _ Hin). lia.
Qed.

(** The active segment's file may be replaced by any file that represents
    the same or more records. *)
Lemma repr_update_active max files sealed a a' srss ars ars' f :
  repr max files sealed a srss ars -> base a' = base a -> seg_repr max a' ars' f ->
  repr max (<[segmentName (base a) := f]> files) sealed a' srss ars'.
Proof.
  intros H Hb Hr. pose proof (repr_active_fresh _ _ _ _ _ _ H) as Hfresh.
  destruct H as [Hs (f0 & Hf0 & Ha) Hc Hn].
  pose proof (seg_base_range _ _ _ _ Ha) as Hrange. constructor.
  - apply Forall2_sealed_insert; auto.
  - exists f. rewrite Hb, lookup_insert_eq. auto.
  - clear -Hc Hb. induction sealed as [|x l IH]; [reflexivity|].
    destruct l as [|y l].
    + apply chain_ok_cons in Hc as [Hc _]. apply chain_ok_cons. split; [congruence|reflexivity].
    + apply chain_ok_cons in Hc as [Hc1 Hc2]. apply chain_ok_cons. auto.
  - rewrite map_app in *. cbn [map] in *. rewrite Hb.
    apply names_repr_update; auto. apply elem_of_app. right. left.
Qed.

(** ** roll *)

Lemma seg_repr_synced max m rs f :
  seg_repr max m rs f -> seg_repr max m rs (mkFile (f_data f) (length (f_data f))).
Proof. intros []. constructor; auto. Qed.

Lemma repr_seal max files sealed a srss ars f :
  repr max files sealed a srss ars -> ars <> [] ->
  files !! segmentName (base a) = Some f -> f_synced f = length (f_data f) ->
  Forall2 (sealed_repr max files) (sealed ++ [a]) (srss ++ [ars]).
Proof.
  intros [Hs (f0 & Hf0 & Ha) _ _] Hne Hf Hsy. apply Forall2_app; [exact Hs|].
  constructor; [|constructor]. exists f0. rewrite Hf0 in Hf. injection Hf as ->. auto.
Qed.

Lemma new_seg_repr max b :
  0 <= b < 2 ^ 64 -> seg_repr max (mkSeg b 0 segHeaderLen) [] (mkFile (segment_header b) 0).
Proof.
  intros Hb. constructor; simpl; rewrite ?app_nil_r; auto; try lia.
  all: rewrite ?length_segment_header; try reflexivity; lia.
Qed.

(** Sealing the active segment and opening an empty one after it. *)
Lemma repr_roll max files sealed a srss ars f :
  repr max files sealed a srss ars -> ars <> [] ->
  files !! segmentName (base a) = Some f -> f_synced f = length (f_data f) ->
  files !! segmentName (end_ a) = None
  /\ repr max (<[segmentName (end_ a) := mkFile (segment_header (end_ a)) 0]> files)
       (sealed ++ [a]) (mkSeg (end_ a) 0 segHeaderLen) (srss ++ [ars]) [].
Proof.
  intros H Hne Hf Hsy.
  pose proof (repr_seal _ _ _ _ _ _ _ H Hne Hf Hsy) as Hseal.
  pose proof (repr_sorted _ _ _ _ _ _ H) as Hsort.
  destruct H as [Hs (f0 & Hf0 & Ha) Hc Hn].
  pose proof (seg_end _ _ _ _ Ha) as He.
  assert (Hr : 0 <= end_ a < 2 ^ 64) by apply u64_range.
  assert (Hlt : base a < end_ a) by (destruct ars; [congruence|simpl in He; lia]).
  assert (Hfresh : end_ a ∉ map base (sealed ++ [a])).
  { rewrite map_app. intros [Hin|Hin]%elem_of_app.
    - pose proof (last_base_max _ _ Hsort _ Hin). lia.
    - simpl in Hin. apply list_elem_of_singleton in Hin. lia. }
  split.
  - destruct (files !! segmentName (end_ a)) eqn:E; [|reflexivity]. exfalso. apply Hfresh, Hn; [exact Hr|eauto].
  - constructor.
    + apply Forall2_sealed_insert; auto.
    + eexists. split; [apply lookup_insert_eq|]. apply new_seg_repr, Hr.
    + apply chain_ok_snoc; [exact Hc|reflexivity].
    + rewrite map_app. apply names_repr_insert; assumption.
Qed.

Lemma roll_ok s sealed a srss ars :
  d_io s = [] -> inv s sealed a srss ars -> ars <> [] ->
  exists s', roll s = (s', inr tt)
    /\ inv s' (sealed ++ [a]) (mkSeg (end_ a) 0 segHeaderLen) (srss ++ [ars]) []
    /\ d_io s' = [] /\ same_config s s'.
Proof.
  intros Hio [Hr Hsegs Hact Hnext Hmax] Hne.
  pose proof (rp_active _ _ _ _ _ _ Hr) as (f & Hf & Ha).
  set (f' := mkFile (f_data f) (length (f_data f))).
  assert (Hr1 : repr (MaxRecordBytes (opts (log s)))
                  (<[segmentName (base a) := f']> (d_files s)) sealed a srss ars)
    by (eapply repr_update_active; eauto using seg_repr_synced).
  destruct (repr_roll _ _ _ _ _ _ f' Hr1 Hne) as [Hfresh Hr2];
    [apply lookup_insert_eq|reflexivity|].
  eexists. split; [|split].
  - unfold roll. unfold bind at 1, get. rewrite Hact.
    unfold bind at 1. rewrite (file_sync_ok _ _ _ f Hio Hf). fold f'.
    unfold bind at 1. rewrite file_close_ok by exact Hio. cbn [fst snd].
    unfold bind at 1, set_log at 1, modify. unfold bind at 1, ret at 1. rewrite Hnext.
    unfold bind at 1. erewrite createSegment_ok; [|exact Hio|exact Hfresh]. reflexivity.
  - constructor; cbn; auto. rewrite Hsegs. reflexivity.
    rewrite Hnext. unfold end_ at 2. cbn. rewrite Z.add_0_r.
    symmetry. apply u64_small, u64_range.
  - split; [exact Hio|repeat split].
Qed.

(** ** One record *)

(** The record an append of [r] at time [now] leaves in the log. *)
Definition new_record (off now : Z) (r : appendReq) : Record :=
  mkRecord off now (typ r) (payload r).

(** Append's size guard, and a clock within int64. *)
Definition req_ok (max now : Z) (r : appendReq) : Prop :=
  Z.of_nat (length (payload r)) + bodyFixedLen <= max /\ - 2 ^ 63 <= now < 2 ^ 63.

Lemma update_last_snoc g l a : update_last g (l ++ [a]) = l ++ [g a].
Proof.
  unfold update_last. rewrite last_snoc, length_app. simpl.
  rewrite Nat.add_sub, take_app_length. reflexivity.
Qed.

(** The state after the bytes of one more record are in the active file and
    the metadata is updated. *)
Definition appended (s : St) (a : segMeta) (f : File) (now : Z) (r : appendReq)
    (sealed : list segMeta) : St :=
  let rec := appendRecord now (typ r) (payload r) in
  let a' := mkSeg (base a) (u64 (records a + 1)) (bytes a + Z.of_nat (length rec)) in
  mkSt (<[segmentName (base a) := mkFile (f_data f ++ rec) (f_synced f)]> (d_files s))
    [] (d_now s)
    (mkLog (opts (log s)) (sealed ++ [a'])
       (Some (mkHandle (segmentName (base a)) (bytes a') true))
       (u64 (next (log s) + 1)) (closed (log s)) (lastSync (log s))).

Lemma seg_repr_snoc max m rs f now r :
  seg_repr max m rs f -> base m + Z.of_nat (length rs) + 1 < 2 ^ 64 ->
  max < 2 ^ 32 -> req_ok max now r ->
  seg_repr max
    (mkSeg (base m) (u64 (records m + 1))
       (bytes m + Z.of_nat (length (appendRecord now (typ r) (payload r)))))
    (rs ++ [new_record (end_ m) now r])
    (mkFile (f_data f ++ appendRecord now (typ r) (payload r)) (f_synced f)).
Proof.
  intros H Hb Hmax [Hsz Hnow]. pose proof (seg_end _ _ _ _ H) as He. destruct H.
  constructor; cbn [base records bytes f_data f_synced]; auto.
  - rewrite sr_data0, encs_app, <- app_assoc. unfold encs at 3. simpl.
    rewrite app_nil_r. reflexivity.
  - rewrite sr_records0, u64_small, length_app by lia. simpl. lia.
  - rewrite sr_bytes0, length_app. lia.
  - apply Forall_app. split; [assumption|]. constructor; [|constructor].
    unfold rec_ok, rec_len, new_record, bodyFixedLen in *. cbn [Payload Time]. lia.
  - rewrite numbered_app, sr_num0. f_equal. unfold numbered. simpl.
    rewrite He, Z.add_0_r. reflexivity.
  - rewrite length_app. simpl. lia.
  - rewrite length_app. lia.
Qed.

Lemma inv_appended s sealed a srss ars f now r :
  inv s sealed a srss ars -> d_files s !! segmentName (base a) = Some f ->
  end_ a + 1 < 2 ^ 64 -> req_ok (MaxRecordBytes (opts (log s))) now r ->
  inv (appended s a f now r sealed) sealed
    (mkSeg (base a) (u64 (records a + 1))
       (bytes a + Z.of_nat (length (appendRecord now (typ r) (payload r)))))
    srss (ars ++ [new_record (end_ a) now r]).
Proof.
  intros [Hr Hsegs Hact Hnext Hmax] Hf Hb Hreq.
  pose proof (rp_active _ _ _ _ _ _ Hr) as (f0 & Hf0 & Ha).
  rewrite Hf in Hf0. injection Hf0 as <-.
  pose proof (seg_end _ _ _ _ Ha) as He.
  pose proof (seg_repr_snoc _ _ _ _ now r Ha ltac:(lia) Hmax Hreq) as Ha'.
  constructor; cbn [appended log opts segs active next d_files]; auto.
  - eapply repr_update_active; eauto.
  - pose proof (sr_base _ _ _ _ Ha). rewrite (seg_end _ _ _ _ Ha'), Hnext, He.
    rewrite length_app, u64_small by lia. simpl. lia.
Qed.

Lemma write_active_ok s sealed a srss ars f now r :
  d_io s = [] -> inv s sealed a srss ars ->
  d_files s !! segmentName (base a) = Some f ->
  (write_active (appendRecord now (typ r) (payload r)) ;;
   (set_log (fun l => set_segs (update_last (fun a =>
       mkSeg (base a) (u64 (records a + 1))
         (bytes a + Z.of_nat (length (appendRecord now (typ r) (payload r))))) (segs l)) l) ;;
    (let! s := get in
     let off := next (log s) in
     set_log (set_next (u64 (off + 1))) ;;
     ((match Policy (opts (log s)) with SyncAlways => sync_active | _ => ret tt end) ;;
      ret off)))) s
  = ((match Policy (opts (log s)) with SyncAlways => sync_active | _ => ret tt end) ;;
     ret (end_ a)) (appended s a f now r sealed).
Proof.
  intros Hio [Hr Hsegs Hact Hnext Hmax] Hf.
  pose proof (rp_active _ _ _ _ _ _ Hr) as (f0 & Hf0 & Ha).
  rewrite Hf in Hf0. injection Hf0 as <-.
  unfold bind at 1, write_active. unfold bind at 1, get at 1. rewrite Hact.
  unfold bind at 1. erewrite file_write_ok; [|exact Hio|exact Hf|apply (sr_bytes _ _ _ _ Ha)].
  cbn [fst snd]. unfold bind at 1, set_log at 1, modify at 1. unfold ret at 1.
  unfold bind at 1, set_log at 1, modify at 1. unfold bind at 1, get at 1.
  unfold bind at 1, set_log at 1, modify at 1.
  cbn [log d_files d_io d_now segs set_segs set_active set_next next opts active closed lastSync with_files].
  rewrite Hsegs, update_last_snoc, Hio, Hnext. unfold appended.
  rewrite Hnext. reflexivity.
Qed.

(** ** fsync *)
Definition active_synced (s : St) : Prop :=
  exists h f, active (log s) = Some h /\ d_files s !! h_name h = Some f
    /\ f_synced f = length (f_data f).

Lemma sync_active_ok s sealed a srss ars :
  d_io s = [] -> inv s sealed a srss ars ->
  exists s', sync_active s = (s', inr tt) /\ inv s' sealed a srss ars
    /\ active_synced s' /\ d_io s' = [] /\ same_config s s' /\ log s' = log s.
Proof.
  intros Hio [Hr Hsegs Hact Hnext Hmax].
  pose proof (rp_active _ _ _ _ _ _ Hr) as (f & Hf & Ha).
  exists (with_files (<[segmentName (base a) := mkFile (f_data f) (length (f_data f))]> (d_files s)) s).
  split_and!; [|constructor; cbn [with_files log d_files]; auto| |exact Hio|repeat split|reflexivity].
  - unfold sync_active, bind, get. rewrite Hact. apply (file_sync_ok _ _ _ f Hio Hf).
  - eapply repr_update_active; eauto using seg_repr_synced.
  - do 2 eexists. split; [exact Hact|]. split; [apply lookup_insert_eq|reflexivity].
Qed.

(** What the fsynced bytes hold when the active file is fully synced: every
    record of the log. *)
Lemma active_synced_durable s sealed a srss ars :
  inv s sealed a srss ars -> active_synced s -> durable_records s = log_records s.
Proof.
  intros [Hr Hsegs Hact _ _] (h & f & Hh & Hf & Hsy). rewrite Hact in Hh. injection Hh as <-.
  cbn in Hf. unfold durable_records, log_records. rewrite Hsegs. f_equal.
  apply map_ext_in. intros m Hm. unfold file_records. rewrite lookup_fmap.
  assert (Hfull : forall g, d_files s !! segmentName (base m) = Some g ->
                    f_synced g = length (f_data g)).
  { intros g Hg. apply list_elem_of_In, elem_of_app in Hm as [Hm|Hm].
    - destruct Hr as [Hs _ _ _]. apply list_elem_of_lookup in Hm as [i Hi].
      destruct (Forall2_lookup_l _ _ _ _ _ Hs Hi) as (rs & _ & g' & Hg' & _ & Hsy' & _).
      congruence.
    - apply list_elem_of_singleton in Hm. subst m. congruence. }
  destruct (d_files s !! segmentName (base m)) as [g|] eqn:E; [|reflexivity].
  cbn [fmap option_fmap option_map f_data f_synced].
  rewrite (Hfull g eq_refl), firstn_all. reflexivity.
Qed.

(** ** writeBatch *)

(** The records a batch leaves, at consecutive offsets. *)
Fixpoint batch_records (off now : Z) (batch : list appendReq) : list Record :=
  match batch with
  | [] => []
  | r :: batch => new_record off now r :: batch_records (off + 1) now batch
  end.

(** How far the fsynced part reaches after an append: the active file is
    synced, or it was sealed on the way, or it kept its synced length. *)
Definition synced_kept (s s' : St) (a a' : segMeta) (srss srss' : list (list Record))
    (ars : list Record) : Prop :=
  active_synced s' \/ concat srss' = concat srss ++ ars
  \/ (srss' = srss /\ exists f f', d_files s !! segmentName (base a) = Some f
        /\ d_files s' !! segmentName (base a') = Some f' /\ f_synced f' = f_synced f).

(** How an append changes the list of segments: the active one grows in its
    place, or it is sealed and a new one follows. *)
Definition grown (sealed : list segMeta) (a : segMeta) (sealed' : list segMeta) (a' : segMeta) : Prop :=
  (sealed' = sealed /\ base a' = base a) \/ (sealed' = sealed ++ [a] /\ records a <> 0).

(** The roll in front of an append that would overflow the segment. *)
Lemma maybe_roll_ok s sealed a srss ars now r :
  d_io s = [] -> inv s sealed a srss ars ->
  exists s1 sealed1 a1 srss1 ars1,
    (if (SegmentBytes (opts (log s)) <? bytes a + Z.of_nat (length
           (appendRecord now (typ r) (payload r)))) && (0 <? records a)
     then roll else ret tt) s = (s1, inr tt)
    /\ inv s1 sealed1 a1 srss1 ars1 /\ concat srss1 ++ ars1 = concat srss ++ ars
    /\ d_io s1 = [] /\ same_config s s1 /\ next (log s1) = next (log s)
    /\ (s1 = s /\ a1 = a /\ srss1 = srss \/ concat srss1 = concat srss ++ ars)
    /\ grown sealed a sealed1 a1.
Proof.
  intros Hio Hinv. destruct (_ && _) eqn:E.
  - apply andb_true_iff in E as [_ E%Z.ltb_lt].
    assert (Hne : ars <> []).
    { intros ->. destruct (rp_active _ _ _ _ _ _ (iv_repr _ _ _ _ _ Hinv)) as (f & _ & Ha).
      rewrite (sr_records _ _ _ _ Ha) in E. simpl in E. lia. }
    destruct (roll_ok _ _ _ _ _ Hio Hinv Hne) as (s1 & Hs1 & Hinv1 & Hio1 & Hc1).
    do 5 eexists. split; [exact Hs1|]. split; [exact Hinv1|].
    rewrite concat_app. simpl. rewrite !app_nil_r. split_and!; auto.
    + rewrite (iv_next _ _ _ _ _ Hinv1), (iv_next _ _ _ _ _ Hinv). unfold end_ at 1.
      cbn [base records]. rewrite Z.add_0_r. apply u64_small, u64_range.
    + right. split; [reflexivity|lia].
  - do 5 eexists. split; [reflexivity|]. unfold grown. eauto 12 using same_config_refl.
Qed.

Lemma write_one_grows s sealed a srss ars now r :
  d_io s = [] -> inv s sealed a srss ars -> next (log s) + 1 < 2 ^ 64 ->
  req_ok (MaxRecordBytes (opts (log s))) now r ->
  exists s' sealed' a' srss' ars',
    write_one now r s = (s', inr (next (log s))) /\ inv s' sealed' a' srss' ars'
    /\ concat srss' ++ ars' = (concat srss ++ ars) ++ [new_record (next (log s)) now r]
    /\ next (log s') = next (log s) + 1
    /\ d_io s' = [] /\ same_config s s'
    /\ (Policy (opts (log s)) = SyncAlways -> active_synced s')
    /\ synced_kept s s' a a' srss srss' ars /\ grown sealed a sealed' a'.
Proof.
  intros Hio Hinv Hb Hreq.
  pose proof (maybe_roll_ok s sealed a srss ars now r Hio Hinv) as Hroll.
  destruct Hroll as (s1 & sealed1 & a1 & srss1 & ars1 & Hs1 & Hinv1 & Hcat & Hio1 & Hc1 & Hn1 & Hcase & Hg).
  pose proof (sc_opts _ _ Hc1) as Hopts.
  destruct (rp_active _ _ _ _ _ _ (iv_repr _ _ _ _ _ Hinv1)) as (f & Hf & Ha).
  pose proof (iv_next _ _ _ _ _ Hinv1) as Hnext1.
  assert (Hinv2 := inv_appended _ _ _ _ _ _ now r Hinv1 Hf ltac:(lia) ltac:(rewrite Hopts; exact Hreq)).
  assert (Hrun : write_one now r s
    = ((match Policy (opts (log s1)) with SyncAlways => sync_active | _ => ret tt end) ;;
       ret (end_ a1)) (appended s1 a1 f now r sealed1)).
  { rewrite <- (write_active_ok s1 sealed1 a1 srss1 ars1 f now r Hio1 Hinv1 Hf).
    unfold write_one. unfold bind at 1, get at 1. rewrite (iv_segs _ _ _ _ _ Hinv), last_snoc.
    cbv beta iota. rewrite (bind_ok _ _ _ _ _ Hs1). reflexivity. }
  assert (Hc2 : same_config s (appended s1 a1 f now r sealed1))
    by (eapply same_config_trans; [exact Hc1|]; repeat split).
  assert (Hn2 : next (log (appended s1 a1 f now r sealed1)) = next (log s) + 1).
  { cbn. rewrite Hn1. pose proof (u64_range (base a1 + records a1)).
    apply u64_small. rewrite <- Hn1, Hnext1. unfold end_ in *. lia. }
  assert (Hend : end_ a1 = next (log s)) by congruence.
  rewrite Hend in Hinv2, Hrun.
  assert (Hcat2 : concat srss1 ++ ars1 ++ [new_record (next (log s)) now r]
                  = (concat srss ++ ars) ++ [new_record (next (log s)) now r])
    by (rewrite app_assoc, Hcat; reflexivity).
  assert (Hkept : synced_kept s (appended s1 a1 f now r sealed1) a
    (mkSeg (base a1) (u64 (records a1 + 1))
       (bytes a1 + Z.of_nat (length (appendRecord now (typ r) (payload r))))) srss srss1 ars).
  { right. destruct Hcase as [(-> & -> & ->)|Hc]; [right|left; exact Hc].
    split; [reflexivity|]. exists f. eexists. split; [exact Hf|].
    split; [apply lookup_insert_eq|reflexivity]. }
  rewrite Hrun, Hopts. destruct (Policy (opts (log s))) eqn:EP.
  2:{ destruct (sync_active_ok (appended s1 a1 f now r sealed1) _ _ _ _ eq_refl Hinv2)
        as (s3 & Hs3 & Hinv3 & Hsy & Hio3 & Hc3 & Hl3).
      do 5 eexists. split; [rewrite (bind_ok _ _ _ _ _ Hs3); reflexivity|].
      split; [exact Hinv3|]. rewrite Hl3.
      split_and!; auto; [eapply same_config_trans; eassumption|left; exact Hsy]. }
  all: do 5 eexists; split; [reflexivity|]; split; [exact Hinv2|];
    split_and!; auto; discriminate.
Qed.

Lemma write_one_ok s sealed a srss ars now r :
  d_io s = [] -> inv s sealed a srss ars -> next (log s) + 1 < 2 ^ 64 ->
  req_ok (MaxRecordBytes (opts (log s))) now r ->
  exists s' sealed' a' srss' ars',
    write_one now r s = (s', inr (next (log s))) /\ inv s' sealed' a' srss' ars'
    /\ concat srss' ++ ars' = (concat srss ++ ars) ++ [new_record (next (log s)) now r]
    /\ next (log s') = next (log s) + 1
    /\ d_io s' = [] /\ same_config s s'
    /\ (Policy (opts (log s)) = SyncAlways -> active_synced s')
    /\ synced_kept s s' a a' srss srss' ars.
Proof.
  intros Hio Hinv Hb Hreq. destruct (write_one_grows _ _ _ _ _ now r Hio Hinv Hb Hreq)
    as (s' & l' & a' & ss' & rs' & H1 & H2 & H3 & H4 & H5 & H6 & H7 & H8 & _).
  exists s', l', a', ss', rs'. auto 10.
Qed.

Lemma write_all_ok batch s sealed a srss ars now :
  d_io s = [] -> inv s sealed a srss ars ->
  next (log s) + Z.of_nat (length batch) < 2 ^ 64 ->
  Forall (req_ok (MaxRecordBytes (opts (log s))) now) batch ->
  exists s' sealed' a' srss' ars',
    write_all now batch s
      = (s', inr (map (fun i => next (log s) + Z.of_nat i) (seq 0 (length batch))))
    /\ inv s' sealed' a' srss' ars'
    /\ concat srss' ++ ars' = (concat srss ++ ars) ++ batch_records (next (log s)) now batch
    /\ next (log s') = next (log s) + Z.of_nat (length batch)
    /\ d_io s' = [] /\ same_config s s'
    /\ (batch <> [] -> Policy (opts (log s)) = SyncAlways -> active_synced s').
Proof.
  revert s sealed a srss ars. induction batch as [|r batch IH]; intros s sealed a srss ars Hio Hinv Hb Hok.
  - do 5 eexists. split; [reflexivity|]. split; [exact Hinv|]. simpl.
    rewrite app_nil_r. split_and!; auto using same_config_refl; [lia|congruence].
  - inversion Hok as [|? ? Hr Hrest]; subst. simpl in Hb.
    destruct (write_one_ok _ _ _ _ _ now r Hio Hinv ltac:(lia) Hr)
      as (s1 & l1 & a1 & ss1 & r1 & Hs1 & Hinv1 & Hcat1 & Hn1 & Hio1 & Hc1 & Hsy1 & _).
    pose proof (sc_opts _ _ Hc1) as Ho1.
    destruct (IH s1 l1 a1 ss1 r1 Hio1 Hinv1 ltac:(lia) ltac:(rewrite Ho1; exact Hrest))
      as (s2 & l2 & a2 & ss2 & r2 & Hs2 & Hinv2 & Hcat2 & Hn2 & Hio2 & Hc2 & Hsy2).
    do 5 eexists. split; [|split; [exact Hinv2|]].
    + cbn [write_all]. rewrite (bind_ok _ _ _ _ _ Hs1), (bind_ok _ _ _ _ _ Hs2). unfold ret.
      f_equal. f_equal. cbn [length seq map]. f_equal; [lia|].
      rewrite <- seq_shift, map_map. apply map_ext. intros i. rewrite Hn1. lia.
    + split_and!; auto.
      * rewrite Hcat2, Hcat1, Hn1, <- app_assoc. reflexivity.
      * rewrite Hn2, Hn1. simpl. lia.
      * eapply same_config_trans; eassumption.
      * intros _ HP. destruct batch as [|r' batch].
        { injection Hs2 as <-. auto. }
        apply Hsy2; [discriminate|]. rewrite Ho1. exact HP.
Qed.

Lemma sync_batch_ok s sealed a srss ars :
  d_io s = [] -> inv s sealed a srss ars ->
  exists s', sync_batch s = (s', inr tt) /\ inv s' sealed a srss ars
    /\ next (log s') = next (log s) /\ d_io s' = [] /\ opts (log s') = opts (log s)
    /\ (Policy (opts (log s)) = SyncBatched -> active_synced s')
    /\ (Policy (opts (log s)) = SyncAlways -> s' = s).
Proof.
  intros Hio Hinv.
  destruct (sync_active_ok _ _ _ _ _ Hio Hinv) as (s1 & Hs1 & Hinv1 & Hsy & Hio1 & Hc & Hl).
  unfold sync_batch. unfold bind at 1, get.
  destruct (Policy (opts (log s))) eqn:EP.
  - exists s1. rewrite Hl. split_and!; auto. discriminate.
  - exists s. split_and!; auto. discriminate.
  - destruct (_ <=? _).
    + rewrite (bind_ok _ _ _ _ _ Hs1). eexists. split; [reflexivity|].
      rewrite <- Hl. split_and!; auto; try discriminate.
      destruct Hinv1. constructor; assumption.
    + exists s. split_and!; auto; discriminate.
Qed.

Lemma writeBatch_ok s sealed a srss ars batch :
  d_io s = [] -> inv s sealed a srss ars ->
  next (log s) + Z.of_nat (length batch) < 2 ^ 64 ->
  Forall (req_ok (MaxRecordBytes (opts (log s))) (d_now s)) batch ->
  exists s' sealed' a' srss' ars',
    writeBatch batch s
      = (s', inr (map (fun i => next (log s) + Z.of_nat i) (seq 0 (length batch))))
    /\ inv s' sealed' a' srss' ars'
    /\ concat srss' ++ ars'
       = (concat srss ++ ars) ++ batch_records (next (log s)) (d_now s) batch
    /\ next (log s') = next (log s) + Z.of_nat (length batch) /\ d_io s' = []
    /\ opts (log s') = opts (log s)
    /\ (batch <> [] -> Policy (opts (log s)) <> SyncInterval -> active_synced s').
Proof.
  intros Hio Hinv Hb Hok.
  destruct (write_all_ok batch _ _ _ _ _ _ Hio Hinv Hb Hok)
    as (s1 & l1 & a1 & ss1 & r1 & Hs1 & Hinv1 & Hcat1 & Hn1 & Hio1 & Hc1 & Hsy1).
  destruct (sync_batch_ok _ _ _ _ _ Hio1 Hinv1) as (s2 & Hs2 & Hinv2 & Hn2 & Hio2 & Ho2 & Hsb & Hsa).
  rewrite (sc_opts _ _ Hc1) in *.
  do 5 eexists. split; [|split; [exact Hinv2|]].
  - unfold writeBatch. unfold bind at 1, get.
    rewrite (bind_ok _ _ _ _ _ Hs1), (bind_ok _ _ _ _ _ Hs2). reflexivity.
  - split_and!; auto; [congruence..|]. intros Hne HP.
    destruct (Policy (opts (log s))) eqn:EP; [auto| |congruence].
    rewrite Hsa by reflexivity. auto.
Qed.

End WalInv.
