(* ===== verification/WalCrash.v ===== *)
(** * Crash and recovery (theorems about Wal.v)

    [crash] describes what a killed process or a power loss may leave of the
    directory: of every file any prefix that covers its fsynced bytes, of
    which at least those bytes are still fsynced, and a file that was never
    fsynced may be missing. Opening the log afterwards succeeds and gives a
    log whose records lie between the durable ones and all of them. *)
From S2P Require Import Prelude GoStrings Hash Monad WalSegment Wal WalInv.
Import Segment Wal WalInv.

Module WalCrash.

Definition crash (files files' : gmap string File) : Prop :=
  forall name,
    match files !! name with
    | None => files' !! name = None
    | Some f =>
        (f_synced f = 0%nat /\ files' !! name = None)
        \/ exists k sy, (f_synced f <= sy <= k)%nat /\ (k <= length (f_data f))%nat
             /\ files' !! name = Some (mkFile (take k (f_data f)) sy)
    end.

(** The state of a process that starts on a directory. *)
Definition boot (files : gmap string File) (now : Z) (o : Options) : St :=
  mkSt files [] now (mkLog o [] None 0 false 0).

(** ** listSegments *)
Lemma listSegments_ok s bases :
  d_io s = [] -> names_repr (d_files s) bases -> StronglySorted Z.lt bases ->
  Forall (fun b => 0 <= b < 2 ^ 64) bases ->
  listSegments s = (s, inr bases).
Proof.
  intros Hio Hn Hs Hr. unfold listSegments, os_readdir, bind.
  rewrite syscall_ok by exact Hio. unfold get, ret. f_equal. f_equal.
  set (names := (map_to_list (d_files s)).*1).
  assert (Hnames : forall name, name ∈ names <-> is_Some (d_files s !! name)).
  { intros name. unfold names. rewrite list_elem_of_fmap. split.
    - intros ((n & f) & -> & Hin). apply elem_of_map_to_list in Hin. simpl. eauto.
    - intros [f Hf]. exists (name, f). split; [reflexivity|]. apply elem_of_map_to_list, Hf. }
  assert (Hnd : NoDup (omap parseSegmentName names)).
  { assert (Hnd : NoDup names) by apply NoDup_fst_map_to_list.
    clear -Hnd. induction Hnd as [|x l Hni _ IH]; [constructor|]. simpl.
    destruct (parseSegmentName x) as [b|] eqn:E; [|exact IH].
    constructor; [|exact IH]. intros (y & Hy & Ey)%list_elem_of_omap.
    apply parseSegmentName_Some in E as [_ ->], Ey as [_ ->]. contradiction. }
  apply StronglySorted_lt_eq; [apply sortZ_NoDup_lt, Hnd|exact Hs|].
  intros b. rewrite sortZ_perm, list_elem_of_omap. split.
  - intros (name & Hin & E). apply parseSegmentName_Some in E as [Hb ->].
    apply Hn; [exact Hb|]. apply Hnames, Hin.
  - intros Hin. rewrite Forall_forall in Hr. specialize (Hr b Hin).
    exists (segmentName b). split; [|apply parseSegmentName_segmentName, Hr].
    apply Hnames, Hn; assumption.
Qed.

(** ** Scanning the segments *)
Lemma load_segs_sealed s max sealed srss rest s' r :
  d_io s = [] -> MaxRecordBytes (opts (log s)) = max ->
  Forall2 (sealed_repr max (d_files s)) sealed srss ->
  load_segs rest s = (s', inr r) ->
  load_segs (map base sealed ++ rest) s = (s', inr (sealed ++ r)).
Proof.
  intros Hio Hmax Hs Hrest. induction Hs as [|m rs sealed srss (f & Hf & Hm & _) Hs IH];
    [exact Hrest|].
  cbn [map app load_segs]. rewrite (bind_ok _ _ _ _ _ (os_open_ok _ _ _ Hio Hf)).
  pose proof (seg_base_range _ _ _ _ Hm) as Hb. destruct Hm.
  rewrite sr_data0, readSegmentHeader_header by exact Hb. rewrite Z.eqb_refl. cbn [negb].
  rewrite (bind_ok _ _ _ _ _ (syscall_ok _ Hio)). unfold bind at 1, get. rewrite Hmax.
  rewrite <- (app_nil_r (encs rs)), scanSegment_encs; auto; [|rewrite app_nil_r; apply torn_at_end|lia].
  rewrite (bind_ok _ _ _ _ _ IH). unfold ret. rewrite <- sr_data0, <- sr_records0, <- sr_bytes0.
  destruct m. reflexivity.
Qed.

(** ** A file cut at [k] bytes *)
Section Cut.
Context (max : Z) (a : segMeta) (ars : list Record) (f : File).
Hypothesis Ha : seg_repr max a ars f.

Lemma cut_data k :
  (20 <= k)%nat ->
  exists t, take k (f_data f)
    = segment_header (base a) ++ encs (take (whole ars (k - 20)) ars) ++ t
    /\ torn_at max (segment_header (base a) ++ encs (take (whole ars (k - 20)) ars) ++ t)
         (Z.of_nat (length (segment_header (base a) ++ encs (take (whole ars (k - 20)) ars)))).
Proof.
  intros Hk. destruct Ha.
  destruct (take_encs max ars (k - 20) sr_ok0) as (t & Ht & Htorn).
  exists t. rewrite sr_data0, take_app_ge, length_segment_header, Ht
    by (rewrite length_segment_header; lia). auto.
Qed.

Lemma cut_records k :
  segment_records (take k (f_data f)) (base a) max = take (whole ars (k - 20)) ars.
Proof.
  destruct (Nat.le_gt_cases 20 k) as [Hk|Hk].
  - destruct (cut_data k Hk) as (t & -> & Htorn). destruct Ha.
    pose proof (whole_le ars (k - 20)).
    rewrite segment_records_encs; auto using Forall_take.
    + apply (numbered_take _ _ _ sr_num0).
    + rewrite length_take. lia.
  - unfold segment_records. cbn [read_loop].
    rewrite scanRecord_beyond by (rewrite length_take; unfold segHeaderLen, recHeaderLen; lia).
    replace (k - 20)%nat with 0%nat by lia. destruct ars as [|r rs]; [reflexivity|].
    cbn [whole]. destruct (Nat.leb_spec (length (enc r)) 0) as [H|H]; [|reflexivity].
    pose proof (length_enc r). unfold recHeaderLen, rec_len, bodyFixedLen in *. lia.
Qed.

Lemma whole_mono k k' : (k <= k')%nat -> (whole ars k <= whole ars k')%nat.
Proof.
  intros H. apply whole_ge; [|apply whole_le].
  pose proof (whole_length_le ars k). lia.
Qed.

(** The metadata of the valid prefix of the cut file. *)
Definition cut_seg (k : nat) : segMeta :=
  let w := whole ars (k - 20) in
  mkSeg (base a) (Z.of_nat w)
    (Z.of_nat (length (segment_header (base a) ++ encs (take w ars)))).

Lemma cut_seg_repr k sy :
  (sy <= length (segment_header (base a) ++ encs (take (whole ars (k - 20)) ars)))%nat ->
  seg_repr max (cut_seg k) (take (whole ars (k - 20)) ars)
    (mkFile (segment_header (base a) ++ encs (take (whole ars (k - 20)) ars)) sy).
Proof.
  intros Hsy. pose proof (whole_le ars (k - 20)). destruct Ha.
  constructor; cbn [base records bytes f_data f_synced cut_seg]; auto using Forall_take.
  - rewrite length_take. lia.
  - apply numbered_take, sr_num0.
  - rewrite length_take. lia.
Qed.
End Cut.

(** ** Reopening the last segment *)

(** The state after reopening segment [m]: truncated to the valid prefix. *)
Definition reopened (s : St) (ss : list segMeta) (m : segMeta) (f : File) : St :=
  mkSt
    (if bytes m <? Z.of_nat (length (f_data f))
     then <[segmentName (base m) :=
            mkFile (take (Z.to_nat (bytes m)) (f_data f))
              (Nat.min (f_synced f) (Z.to_nat (bytes m)))]> (d_files s)
     else d_files s)
    [] (d_now s)
    (mkLog (opts (log s)) ss (Some (mkHandle (segmentName (base m)) (bytes m) true))
       (end_ m) (closed (log s)) (lastSync (log s))).

Lemma reopen_last_ok s ss m f :
  d_io s = [] -> d_files s !! segmentName (base m) = Some f ->
  (set_log (set_segs ss) ;; reopen_last m) s = (reopened s ss m f, inr tt).
Proof.
  intros Hio Hf. unfold bind at 1, set_log at 1, modify.
  set (s1 := mkSt _ _ _ _). assert (Hio1 : d_io s1 = []) by exact Hio.
  assert (Hf1 : d_files s1 !! segmentName (base m) = Some f) by exact Hf.
  unfold reopen_last. rewrite (bind_ok _ _ _ _ _ (os_open_ok _ _ _ Hio1 Hf1)).
  unfold bind at 1, try. rewrite (syscall_ok _ Hio1).
  unfold reopened. destruct (bytes m <? Z.of_nat (length (f_data f))).
  - unfold file_truncate, bind. rewrite (syscall_ok _ Hio1). cbn [h_name].
    rewrite (get_file_ok _ _ _ Hf1), set_files_eq.
    rewrite (syscall_ok (with_files _ s1)) by exact Hio1.
    unfold set_log, modify, with_files. cbn. rewrite Hio. reflexivity.
  - unfold bind, ret. rewrite (syscall_ok _ Hio1). unfold set_log, modify. cbn.
    rewrite Hio. reflexivity.
Qed.

(** When the last segment's file is [cut] behind a valid prefix, the reopened
    log satisfies the invariant. *)
Lemma inv_reopened s max sealed m srss rs f t :
  d_io s = [] -> opts (log s) = opts (log s) -> MaxRecordBytes (opts (log s)) = max -> max < 2 ^ 32 ->
  Forall2 (sealed_repr max (d_files s)) sealed srss ->
  chain_ok (sealed ++ [m]) = true ->
  names_repr (d_files s) (map base (sealed ++ [m])) ->
  d_files s !! segmentName (base m) = Some f ->
  f_data f = segment_header (base m) ++ encs rs ++ t ->
  (f_synced f <= length (f_data f))%nat ->
  base m ∉ map base sealed ->
  (forall sy, (sy <= length (segment_header (base m) ++ encs rs))%nat ->
     seg_repr max m rs (mkFile (segment_header (base m) ++ encs rs) sy)) ->
  inv (reopened s (sealed ++ [m]) m f) sealed m srss rs.
Proof.
  intros Hio _ Hmax Hm32 Hs Hc Hn Hf Hd Hsy Hfresh Hrep.
  pose proof (Hrep 0%nat ltac:(lia)) as H0.
  pose proof (sr_bytes _ _ _ _ H0) as Hby. cbn [f_data] in Hby.
  pose proof (seg_base_range _ _ _ _ H0) as Hbr.
  rewrite app_assoc in Hd.
  constructor; cbn [reopened log opts segs active next d_files]; try reflexivity;
    [|rewrite Hmax; exact Hm32].
  rewrite Hmax. destruct (Z.ltb_spec (bytes m) (Z.of_nat (length (f_data f)))) as [Hlt|Hge].
  - constructor; auto.
    + apply Forall2_sealed_insert; auto.
    + eexists. split; [apply lookup_insert_eq|].
      rewrite Hd, Hby, Nat2Z.id, take_app_length. apply Hrep. lia.
    + apply names_repr_update; auto. rewrite map_app. apply elem_of_app. right. left.
  - constructor; auto. exists f. split; [exact Hf|].
    assert (t = []) as ->.
    { rewrite Hd, (length_app _ t) in Hge. destruct t; [reflexivity|]. cbn [length] in Hge. lia. }
    rewrite app_nil_r in Hd. destruct f as [d sy]. cbn [f_data f_synced] in *. subst d.
    apply Hrep, Hsy.
Qed.

(** The sealed segments chain upwards to the last one. *)
Lemma sealed_below max files l ls m :
  Forall2 (sealed_repr max files) l ls -> chain_ok (l ++ [m]) = true ->
  forall b, b ∈ map base l -> b < base m.
Proof.
  induction 1 as [|y ys l ls Hy Hl IH]; intros Hc b Hb; [inversion Hb|].
  destruct Hy as (g & _ & Hy & _ & Hne). pose proof (seg_end _ _ _ _ Hy) as He.
  assert (Hlt : base y < end_ y) by (destruct ys; [congruence|simpl in He; lia]).
  simpl app in Hc. specialize (IH (chain_ok_tail _ _ Hc)).
  assert (Hy_m : base y < base m).
  { destruct l as [|z l]; apply chain_ok_cons in Hc as [Hc _]; [lia|].
    specialize (IH (base z)). rewrite <- Hc in IH.
    assert (end_ y < base m) by (apply IH; rewrite Hc; left). lia. }
  cbn [map] in Hb. apply elem_of_cons in Hb as [->|Hb]; [exact Hy_m|auto].
Qed.

(** ** The three outcomes of load *)
Section Load.
Context (s : St) (max : Z).
Hypothesis Hio : d_io s = [].
Hypothesis Hmax : MaxRecordBytes (opts (log s)) = max.
Hypothesis Hm32 : max < 2 ^ 32.

Lemma fresh_log_ok :
  names_repr (d_files s) [] ->
  exists s', fresh_log s = (s', inr tt) /\ inv s' [] (mkSeg 0 0 segHeaderLen) [] []
    /\ opts (log s') = opts (log s) /\ d_io s' = [].
Proof.
  intros Hn.
  assert (Hf : d_files s !! segmentName 0 = None).
  { destruct (d_files s !! segmentName 0) eqn:E; [|reflexivity].
    assert (0 ∈ []) as Hin by (apply Hn; [lia|eauto]). inversion Hin. }
  eexists. unfold fresh_log. rewrite (bind_ok _ _ _ _ _ (createSegment_ok _ _ Hio Hf)).
  split; [reflexivity|]. split; [|split; [reflexivity|exact Hio]].
  constructor; try reflexivity; [|rewrite <- Hmax in Hm32; exact Hm32].
  constructor; try reflexivity; [constructor| |].
  - eexists. split; [apply lookup_insert_eq|]. apply new_seg_repr. lia.
  - apply (names_repr_insert _ []); [lia|exact Hn].
Qed.

(** Every listed segment is intact, the last one possibly followed by a
    torn tail. *)
Lemma load_intact sealed m srss rs f t :
  Forall2 (sealed_repr max (d_files s)) sealed srss ->
  chain_ok (sealed ++ [m]) = true ->
  names_repr (d_files s) (map base (sealed ++ [m])) ->
  d_files s !! segmentName (base m) = Some f ->
  f_data f = segment_header (base m) ++ encs rs ++ t ->
  (f_synced f <= length (f_data f))%nat ->
  torn_at max (f_data f) (Z.of_nat (length (segment_header (base m) ++ encs rs))) ->
  (forall sy, (sy <= length (segment_header (base m) ++ encs rs))%nat ->
     seg_repr max m rs (mkFile (segment_header (base m) ++ encs rs) sy)) ->
  load_rw s = (reopened s (sealed ++ [m]) m f, inr tt)
  /\ inv (reopened s (sealed ++ [m]) m f) sealed m srss rs.
Proof.
  intros Hs Hc Hn Hf Hd Hsy Ht Hrep.
  pose proof (Hrep 0%nat ltac:(lia)) as H0.
  pose proof (seg_base_range _ _ _ _ H0) as Hbr.
  assert (Hfresh : base m ∉ map base sealed).
  { intros Hin. pose proof (sealed_below _ _ _ _ _ Hs Hc _ Hin). lia. }
  assert (Hr : repr max (<[segmentName (base m) :=
      mkFile (segment_header (base m) ++ encs rs) 0]> (d_files s)) sealed m srss rs).
  { constructor; auto using Forall2_sealed_insert.
    - eexists. split; [apply lookup_insert_eq|exact H0].
    - apply names_repr_update; auto. rewrite map_app. apply elem_of_app. right. left. }
  pose proof (repr_sorted _ _ _ _ _ _ Hr) as Hsort.
  pose proof (repr_base_range _ _ _ _ _ _ Hr) as Hrange.
  split; [|eapply inv_reopened; eauto].
  unfold load_rw. rewrite (bind_ok _ _ _ _ _ (listSegments_ok _ _ Hio Hn Hsort Hrange)).
  assert (Hls : load_segs (map base (sealed ++ [m])) s = (s, inr (sealed ++ [m]))).
  { rewrite map_app. eapply load_segs_sealed; eauto. cbn [map load_segs].
    rewrite (bind_ok _ _ _ _ _ (os_open_ok _ _ _ Hio Hf)).
    rewrite Hd, readSegmentHeader_header, Z.eqb_refl by lia. cbn [negb].
    rewrite (bind_ok _ _ _ _ _ (syscall_ok _ Hio)). unfold bind, get, ret.
    rewrite Hmax. pose proof (sr_bound _ _ _ _ H0). pose proof (sr_base _ _ _ _ H0).
    rewrite scanSegment_encs; [|apply (sr_ok _ _ _ _ H0)|rewrite <- Hd; exact Ht|lia].
    pose proof (sr_records _ _ _ _ H0) as Hrec. pose proof (sr_bytes _ _ _ _ H0) as Hby.
    cbn [f_data] in Hby. rewrite <- Hrec, <- Hby. destruct m; reflexivity. }
  destruct (map base (sealed ++ [m])) as [|b bs] eqn:E.
  { destruct sealed; discriminate. }
  rewrite (bind_ok _ _ _ _ _ Hls). unfold load_tail. rewrite last_snoc, Hc.
  apply reopen_last_ok; assumption.
Qed.
End Load.

(** A successful recovery to the records [rs], of which [dur] are durable,
    from segments with the bases [bs]. *)
Record recovered (s s' : St) (bs : list Z) (dur rs : list Record) : Prop := {
  rc_wf : wal_wf s';
  rc_log : log_records s' = rs;
  rc_durable : dur `prefix_of` durable_records s';
  rc_opts : opts (log s') = opts (log s);
  rc_oldest : default 0 (head bs) = 0 -> OldestOffset (log s') = 0;
  rc_io : d_io s' = [] }.

Lemma oldest_head l : default 0 (head (map base l)) = 0 -> 
  match l with [] => 0 | s :: _ => base s end = 0.
Proof. destruct l; auto. Qed.

Section Recover.
Context (max : Z).
Hypothesis Hm32 : max < 2 ^ 32.

Lemma sealed_snoc_inv files l m ls :
  Forall2 (sealed_repr max files) (l ++ [m]) ls ->
  exists ls' rs f, ls = ls' ++ [rs] /\ Forall2 (sealed_repr max files) l ls'
    /\ files !! segmentName (base m) = Some f /\ seg_repr max m rs f
    /\ f_synced f = length (f_data f).
Proof.
  intros H. apply Forall2_app_inv_l in H as (ls' & k & Hl & Hk & ->).
  inversion Hk as [|? rs ? ? (f & Hf & Hm & Hsy & _) Hn]; subst. inversion Hn; subst.
  exists ls', rs, f. auto.
Qed.

Lemma seg_repr_any_sync m rs f :
  seg_repr max m rs f ->
  forall sy, (sy <= length (segment_header (base m) ++ encs rs))%nat ->
    seg_repr max m rs (mkFile (segment_header (base m) ++ encs rs) sy).
Proof.
  intros [] sy Hsy. constructor; cbn [f_data f_synced]; auto. congruence.
Qed.

(** The end of load when only sealed segments were found. *)
Lemma load_tail_ok s sealed srss :
  d_io s = [] -> MaxRecordBytes (opts (log s)) = max ->
  Forall2 (sealed_repr max (d_files s)) sealed srss -> chain_ok sealed = true ->
  names_repr (d_files s) (map base sealed) ->
  exists s', load_tail sealed s = (s', inr tt) /\ recovered s s' (map base sealed) (concat srss) (concat srss).
Proof.
  intros Hio Hmax Hs Hc Hn. destruct sealed as [|m l _] using rev_ind.
  - inversion Hs; subst. destruct (fresh_log_ok s _ Hio eq_refl Hm32 Hn) as (s' & Hl & Hinv & Ho & Hio').
    exists s'. split; [exact Hl|]. split; auto; [do 4 eexists; exact Hinv| |apply prefix_nil|].
    + rewrite (inv_log_records _ _ _ _ _ Hinv). reflexivity.
    + intros _. unfold OldestOffset. rewrite (iv_segs _ _ _ _ _ Hinv). reflexivity.
  - destruct (sealed_snoc_inv _ _ _ _ Hs) as (ls & rs & f & -> & Hs' & Hf & Hm & Hsy).
    exists (reopened s (l ++ [m]) m f). split.
    + unfold load_tail. rewrite last_snoc, Hc. apply reopen_last_ok; assumption.
    + assert (Hinv : inv (reopened s (l ++ [m]) m f) l m ls rs).
      { eapply (inv_reopened s max l m ls rs f []); eauto.
        - rewrite app_nil_r. apply (sr_data _ _ _ _ Hm).
        - lia.
        - intros Hin. pose proof (sealed_below _ _ _ _ _ Hs' Hc _ Hin). lia.
        - eapply seg_repr_any_sync, Hm. }
      assert (Hrs : concat (ls ++ [rs]) = concat ls ++ rs)
        by (rewrite concat_app; simpl; rewrite app_nil_r; reflexivity).
      split; [do 4 eexists; exact Hinv| | |reflexivity|apply oldest_head|reflexivity].
      * rewrite Hrs. apply (inv_log_records _ _ _ _ _ Hinv).
      * rewrite Hrs, (active_synced_durable _ _ _ _ _ Hinv), (inv_log_records _ _ _ _ _ Hinv);
          [reflexivity|].
        do 2 eexists. split; [reflexivity|]. cbn [reopened h_name d_files].
        rewrite (sr_bytes _ _ _ _ Hm), Z.ltb_irrefl. split; [exact Hf|exact Hsy].
Qed.

(** The active file vanished. *)
Lemma load_sealed_only s sealed srss :
  d_io s = [] -> MaxRecordBytes (opts (log s)) = max ->
  Forall2 (sealed_repr max (d_files s)) sealed srss -> chain_ok sealed = true ->
  names_repr (d_files s) (map base sealed) ->
  StronglySorted Z.lt (map base sealed) ->
  Forall (fun b => 0 <= b < 2 ^ 64) (map base sealed) ->
  exists s', load_rw s = (s', inr tt) /\ recovered s s' (map base sealed) (concat srss) (concat srss).
Proof.
  intros Hio Hmax Hs Hc Hn Hsort Hrange.
  destruct (load_tail_ok s _ _ Hio Hmax Hs Hc Hn) as (s' & Hl & Hrec).
  exists s'. split; [|exact Hrec]. unfold load_rw.
  rewrite (bind_ok _ _ _ _ _ (listSegments_ok _ _ Hio Hn Hsort Hrange)).
  destruct sealed as [|x l]; [exact Hl|]. cbn [map].
  assert (Hls : load_segs (map base (x :: l) ++ []) s = (s, inr ((x :: l) ++ [])))
    by (eapply load_segs_sealed; eauto).
  rewrite !app_nil_r in Hls. rewrite (bind_ok _ _ _ _ _ Hls). exact Hl.
Qed.

Lemma names_repr_delete files bases b :
  0 <= b < 2 ^ 64 -> b ∉ bases -> names_repr files (bases ++ [b]) ->
  names_repr (delete (segmentName b) files) bases.
Proof.
  intros Hb Hni Hn b' Hb'. specialize (Hn b' Hb').
  rewrite elem_of_app, list_elem_of_singleton in Hn. split.
  - intros [f Hf]. apply lookup_delete_Some in Hf as [Hne Hf].
    destruct Hn as [Hn _]. destruct Hn as [|Heq]; [eauto|assumption|]. congruence.
  - intros Hin. destruct Hn as [_ [f Hf]]; [auto|]. exists f.
    apply lookup_delete_Some. split; [|exact Hf]. intros E.
    apply segmentName_inj in E; congruence.
Qed.

Lemma Forall2_sealed_delete files sealed srss b :
  0 <= b < 2 ^ 64 -> b ∉ map base sealed ->
  Forall2 (sealed_repr max files) sealed srss ->
  Forall2 (sealed_repr max (delete (segmentName b) files)) sealed srss.
Proof.
  intros Hb Hfresh Hs. induction Hs as [|m rs l ls Hm Hl IH]; constructor.
  - destruct Hm as (g & Hg & Hm). exists g. rewrite lookup_delete_ne; [auto|].
    intros E. apply segmentName_inj in E; [|exact Hb|eapply seg_base_range, Hm].
    apply Hfresh. subst. left.
  - apply IH. intros Hin. apply Hfresh. right. exact Hin.
Qed.

(** The last file does not even hold a whole header: it is removed. *)
Lemma load_torn_header s sealed srss b f :
  d_io s = [] -> MaxRecordBytes (opts (log s)) = max ->
  Forall2 (sealed_repr max (d_files s)) sealed srss -> chain_ok sealed = true ->
  names_repr (d_files s) (map base sealed ++ [b]) ->
  StronglySorted Z.lt (map base sealed ++ [b]) ->
  Forall (fun b => 0 <= b < 2 ^ 64) (map base sealed ++ [b]) ->
  d_files s !! segmentName b = Some f -> (length (f_data f) < 20)%nat ->
  exists s', load_rw s = (s', inr tt) /\ recovered s s' (map base sealed) (concat srss) (concat srss).
Proof.
  intros Hio Hmax Hs Hc Hn Hsort Hrange Hf Hlen.
  assert (Hb : 0 <= b < 2 ^ 64)
    by (apply Forall_app in Hrange as [_ Hb]; inversion Hb; auto).
  assert (Hfresh : b ∉ map base sealed).
  { intros Hin. apply StronglySorted_lt_NoDup, NoDup_app in Hsort as (_ & Hd & _).
    apply (Hd b Hin). left. }
  set (s1 := with_files (delete (segmentName b) (d_files s)) s).
  assert (Hls : load_segs (map base sealed ++ [b]) s = (s1, inr sealed)).
  { rewrite <- (app_nil_r sealed) at 2. eapply load_segs_sealed; eauto.
    cbn [load_segs]. rewrite (bind_ok _ _ _ _ _ (os_open_ok _ _ _ Hio Hf)).
    rewrite readSegmentHeader_short by exact Hlen. unfold os_remove, bind.
    rewrite (syscall_ok _ Hio), (get_file_ok _ _ _ Hf). reflexivity. }
  destruct (load_tail_ok s1 sealed srss Hio Hmax) as (s' & Hl & Hrec);
    [apply Forall2_sealed_delete; auto|exact Hc|apply names_repr_delete; auto|].
  exists s'. split; [|destruct Hrec; split; assumption]. unfold load_rw.
  rewrite (bind_ok _ _ _ _ _ (listSegments_ok _ _ Hio Hn Hsort Hrange)).
  destruct (map base sealed ++ [b]) as [|x xs] eqn:E; [destruct (map base sealed); discriminate|].
  rewrite (bind_ok _ _ _ _ _ Hls). exact Hl.
Qed.
End Recover.

(** ** What a crash leaves of the representation *)
Section CrashRepr.
Context (max : Z) (files files' : gmap string File).
Hypothesis Hcrash : crash files files'.

Lemma crash_full name f :
  files !! name = Some f -> f_synced f = length (f_data f) -> f_data f <> [] ->
  files' !! name = Some f.
Proof.
  intros Hf Hsy Hne. specialize (Hcrash name). rewrite Hf in Hcrash.
  destruct Hcrash as [[H0 _]|(k & sy & Hsyk & Hk & ->)].
  - destruct (f_data f); [congruence|]. simpl in Hsy. lia.
  - assert (sy = length (f_data f)) as -> by lia. rewrite take_ge by lia.
    destruct f as [d sy0]. cbn in *. subst. reflexivity.
Qed.

Lemma header_nonempty b l : segment_header b ++ l <> [].
Proof. discriminate. Qed.

Lemma crash_sealed sealed srss :
  Forall2 (sealed_repr max files) sealed srss -> Forall2 (sealed_repr max files') sealed srss.
Proof.
  intros H. eapply Forall2_impl; [exact H|]. intros m rs (f & Hf & Hm & Hsy & Hne).
  exists f. split; [|auto]. apply crash_full; auto.
  rewrite (sr_data _ _ _ _ Hm). apply header_nonempty.
Qed.

Lemma crash_None name : files !! name = None -> files' !! name = None.
Proof. intros H. specialize (Hcrash name). rewrite H in Hcrash. exact Hcrash. Qed.

Lemma crash_names bases :
  (forall b, b ∈ bases -> is_Some (files' !! segmentName b)) ->
  names_repr files bases -> names_repr files' bases.
Proof.
  intros Hall Hn b Hb. split; [|auto]. intros [f Hf]. apply Hn; [exact Hb|].
  destruct (files !! segmentName b) eqn:E; [eauto|].
  rewrite (crash_None _ E) in Hf. discriminate.
Qed.

Lemma crash_names_gone bases b0 :
  (forall b, b ∈ bases -> is_Some (files' !! segmentName b)) ->
  files' !! segmentName b0 = None ->
  names_repr files (bases ++ [b0]) -> names_repr files' bases.
Proof.
  intros Hall Hgone Hn b Hb. split; [|auto]. intros [g Hg].
  destruct (files !! segmentName b) eqn:E.
  - assert (b ∈ bases ++ [b0]) as Hin by (apply Hn; eauto).
    apply elem_of_app in Hin as [|Hin%list_elem_of_singleton]; [assumption|].
    subst. congruence.
  - rewrite (crash_None _ E) in Hg. discriminate.
Qed.
End CrashRepr.

Lemma whole_0 rs : whole rs 0 = 0%nat.
Proof.
  destruct rs as [|r rs]; [reflexivity|]. cbn [whole].
  destruct (Nat.leb_spec (length (enc r)) 0); [|reflexivity].
  pose proof (length_enc r). unfold recHeaderLen, rec_len, bodyFixedLen in *. lia.
Qed.

Lemma chain_ok_replace_last l m m' :
  base m = base m' -> chain_ok (l ++ [m]) = true -> chain_ok (l ++ [m']) = true.
Proof.
  intros Hb. induction l as [|x l IH]; [reflexivity|]. destruct l as [|y l]; intros Hc.
  - apply chain_ok_cons in Hc as [Hc _]. apply chain_ok_cons. split; [congruence|reflexivity].
  - simpl app in *. apply chain_ok_cons in Hc as [H1 H2]. apply chain_ok_cons. auto.
Qed.

(** The durable records of a log in terms of its representation. *)
Lemma inv_durable s sealed a srss ars f :
  inv s sealed a srss ars -> d_files s !! segmentName (base a) = Some f ->
  durable_records s = concat srss ++ take (whole ars (f_synced f - 20)) ars.
Proof.
  intros [Hr Hsegs _ _ _] Hf. unfold durable_records. rewrite Hsegs, map_app, concat_app.
  destruct Hr as [Hs (f0 & Hf0 & Ha) _ _]. rewrite Hf in Hf0. injection Hf0 as <-. f_equal.
  - f_equal. clear -Hs. induction Hs as [|m rs l ls (g & Hg & Hm & Hsy & _) Hl IH]; [reflexivity|].
    cbn [map]. rewrite IH. f_equal. unfold file_records.
    rewrite lookup_fmap, Hg. cbn [fmap option_fmap option_map f_data f_synced].
    rewrite Hsy, firstn_all. rewrite <- (seg_repr_file_records _ _ _ _ _ Hg Hm).
    unfold file_records. rewrite Hg. reflexivity.
  - simpl. rewrite app_nil_r. unfold file_records. rewrite lookup_fmap, Hf.
    cbn [fmap option_fmap option_map f_data f_synced]. eapply cut_records, Ha.
Qed.

(** How many records are durable once the cut file was truncated to its valid
    prefix: none of those that were durable before is lost. *)
Lemma durable_whole ars k sy0 sy :
  (sy0 <= sy <= k)%nat ->
  let w := whole ars (k - 20) in
  let v := (20 + length (encs (take w ars)))%nat in
  take (whole ars (sy0 - 20)) ars `prefix_of`
  take (whole (take w ars) (Nat.min sy v - 20)) (take w ars).
Proof.
  intros Hsy w v. set (n := whole ars (sy0 - 20)).
  assert (Hnw : (n <= w)%nat) by (apply whole_mono; lia).
  assert (Hwl : (w <= length ars)%nat) by apply whole_le.
  assert (Hlen : (length (encs (take n ars)) <= length (encs (take w ars)))%nat).
  { rewrite <- (take_drop n (take w ars)), take_take, Nat.min_l, encs_app, length_app by lia. lia. }
  assert (Hn : (length (encs (take n ars)) <= sy0 - 20)%nat) by apply whole_length_le.
  assert (Hge : (n <= whole (take w ars) (Nat.min sy v - 20))%nat).
  { apply whole_ge; [|rewrite length_take; lia]. rewrite take_take, Nat.min_l by lia. lia. }
  set (n' := whole (take w ars) _) in *. rewrite take_take.
  assert (Hn' : (n' <= w)%nat)
    by (etransitivity; [apply whole_le|]; rewrite length_take; lia).
  rewrite Nat.min_l by lia.
  rewrite <- (take_drop n (take n' ars)), take_take, Nat.min_l by lia. apply prefix_app_r. reflexivity.
Qed.

(** The active file survives behind its header. *)
Lemma load_cut s0 sealed a srss ars f k sy :
  let max := MaxRecordBytes (opts (log s0)) in
  d_io s0 = [] -> max < 2 ^ 32 ->
  Forall2 (sealed_repr max (d_files s0)) sealed srss -> chain_ok (sealed ++ [a]) = true ->
  names_repr (d_files s0) (map base (sealed ++ [a])) -> seg_repr max a ars f ->
  d_files s0 !! segmentName (base a) = Some (mkFile (take k (f_data f)) sy) ->
  (20 <= k)%nat -> (f_synced f <= sy <= k)%nat -> (k <= length (f_data f))%nat ->
  exists s', load_rw s0 = (s', inr tt)
    /\ recovered s0 s' (map base (sealed ++ [a])) (concat srss ++ take (whole ars (f_synced f - 20)) ars)
         (concat srss ++ take (whole ars (k - 20)) ars).
Proof.
  intros max Hio Hm32 Hs Hc Hn Ha Hf Hk20 Hsy Hk.
  destruct (cut_data max a ars f Ha k Hk20) as (t & Hd & Ht).
  set (m := cut_seg a ars k). set (g := mkFile (take k (f_data f)) sy) in *.
  assert (Hby : bytes m = Z.of_nat (20 + length (encs (take (whole ars (k - 20)) ars))))
    by (cbn [m cut_seg bytes]; rewrite length_app, length_segment_header; reflexivity).
  destruct (load_intact s0 max Hio eq_refl Hm32 sealed m srss
    (take (whole ars (k - 20)) ars) g t Hs) as (Hl & Hinv).
  - eapply chain_ok_replace_last; [|exact Hc]. reflexivity.
  - rewrite map_app in *. exact Hn.
  - exact Hf.
  - exact Hd.
  - cbn [g f_data f_synced]. rewrite length_take. lia.
  - cbn [g f_data]. rewrite Hd. exact Ht.
  - intros sy' Hsy'. apply (cut_seg_repr max a ars f Ha k sy' Hsy').
  - eexists. split; [exact Hl|].
    split; [do 4 eexists; exact Hinv|apply (inv_log_records _ _ _ _ _ Hinv)| |reflexivity| |reflexivity].
    2:{ replace (map base (sealed ++ [a])) with (map base (sealed ++ [m]))
          by (rewrite !map_app; reflexivity). apply oldest_head. }
    assert (Hlook : exists d, d_files (reopened s0 (sealed ++ [m]) m g) !! segmentName (base m)
       = Some (mkFile d (Nat.min sy (20 + length (encs (take (whole ars (k - 20)) ars)))))).
    { cbn [reopened d_files]. destruct (Z.ltb_spec (bytes m) (Z.of_nat (length (f_data g)))) as [Hlt|Hge].
      - rewrite lookup_insert_eq. eexists. f_equal. f_equal. rewrite Hby, Nat2Z.id. reflexivity.
      - change (base m) with (base a). rewrite Hf. eexists. unfold g. f_equal. f_equal.
        cbn [g f_data] in Hge. rewrite length_take in Hge. lia. }
    destruct Hlook as [d Hlook].
    rewrite (inv_durable _ _ _ _ _ _ Hinv Hlook). apply prefix_app, durable_whole. exact Hsy.
Qed.

(** Opening after a crash: every sealed segment is intact; of the active one
    a run of whole records survives that covers the fsynced ones. *)
(** A recovered log holds enough and not too much. *)
Lemma recovered_enough s s0 rs ars bs n w : opts (log s0) = opts (log s) ->
  (OldestOffset (log s) = 0 -> default 0 (head bs) = 0) ->
  (exists s', load_rw s0 = (s', inr tt) /\ recovered s0 s' bs (rs ++ take n ars) (rs ++ take w ars)) ->
  exists s', load_rw s0 = (s', inr tt)
    /\ wal_wf s' /\ opts (log s') = opts (log s) /\ d_io s' = []
    /\ (rs ++ take n ars) `prefix_of` durable_records s' /\ log_records s' `prefix_of` rs ++ ars
    /\ (OldestOffset (log s) = 0 -> OldestOffset (log s') = 0).
Proof.
  intros Ho Hbs (s' & Hl & [H1 H2 H3 H4 H5 H6]). exists s'. split_and!; auto; try congruence. rewrite H2.
  apply prefix_app. rewrite <- (take_drop w ars) at 2. apply prefix_app_r. reflexivity.
Qed.

Lemma load_after_crash s files' now :
  wal_wf s -> crash (d_files s) files' ->
  exists s', load_rw (boot files' now (opts (log s))) = (s', inr tt)
    /\ wal_wf s' /\ opts (log s') = opts (log s) /\ d_io s' = []
    /\ durable_records s `prefix_of` durable_records s'
    /\ log_records s' `prefix_of` log_records s
    /\ (OldestOffset (log s) = 0 -> OldestOffset (log s') = 0).
Proof.
  intros (sealed & a & srss & ars & Hinv) Hcrash. pose proof Hinv as [Hr _ _ _ Hm32].
  set (max := MaxRecordBytes (opts (log s))) in *.
  pose proof (repr_sorted _ _ _ _ _ _ Hr) as Hsort.
  pose proof (repr_base_range _ _ _ _ _ _ Hr) as Hrange.
  pose proof Hr as [Hs (f & Hf & Ha) Hc Hn].
  pose proof (crash_sealed max _ _ Hcrash _ _ Hs) as Hs'.
  pose proof (chain_ok_app_l _ _ Hc) as Hcs.
  assert (Hsealed_names : forall b, b ∈ map base sealed -> is_Some (files' !! segmentName b)).
  { intros b Hb. apply list_elem_of_fmap in Hb as (m & -> & Hm).
    apply list_elem_of_lookup in Hm as [i Hi].
    destruct (Forall2_lookup_l _ _ _ _ _ Hs' Hi) as (rs & _ & g & Hg & _). eauto. }
  rewrite (inv_durable _ _ _ _ _ _ Hinv Hf), (inv_log_records _ _ _ _ _ Hinv).
  set (s0 := boot files' now (opts (log s))).
  pose proof (fun bs w => recovered_enough s s0 (concat srss) ars bs (whole ars (f_synced f - 20)) w eq_refl) as Hfin.
  assert (Hb1 : OldestOffset (log s) = 0 -> default 0 (head (map base sealed)) = 0)
    by (unfold OldestOffset; rewrite (iv_segs _ _ _ _ _ Hinv); destruct sealed; auto).
  assert (Hb2 : OldestOffset (log s) = 0 -> default 0 (head (map base (sealed ++ [a]))) = 0)
    by (unfold OldestOffset; rewrite (iv_segs _ _ _ _ _ Hinv); destruct sealed; auto).
  rewrite map_app in Hsort, Hrange, Hn. cbn [map] in Hsort, Hrange, Hn.
  pose proof (Hcrash (segmentName (base a))) as Hca. rewrite Hf in Hca.
  destruct Hca as [[H0 Hgone]|(k & sy & Hsyk & Hk & Hf')].
  - pose proof (crash_names_gone _ _ Hcrash _ _ Hsealed_names Hgone Hn) as Hn'.
    apply (Hfin _ 0%nat Hb1). rewrite H0. cbn [Nat.sub]. rewrite whole_0, !take_0, !app_nil_r.
    apply (load_sealed_only max Hm32 s0 sealed srss); auto; [eapply StronglySorted_app_l, Hsort|].
    apply Forall_app in Hrange as [H _]. exact H.
  - assert (Hn' : names_repr files' (map base sealed ++ [base a])).
    { eapply crash_names; eauto. intros b [Hb|Hb]%elem_of_app; [auto|].
      apply list_elem_of_singleton in Hb as ->. eauto. }
    destruct (Nat.lt_ge_cases k 20) as [Hk20|Hk20].
    + apply (Hfin _ 0%nat Hb1). replace (f_synced f - 20)%nat with 0%nat by lia.
      rewrite whole_0, !take_0, !app_nil_r.
      eapply (load_torn_header max); eauto. cbn [f_data]. rewrite length_take. lia.
    + apply (Hfin _ (whole ars (k - 20)) Hb2), (load_cut s0 sealed a srss ars f k sy); auto.
      rewrite map_app. exact Hn'.
Qed.

End WalCrash.
