(* ===== verification/WalRun.v ===== *)
(** * The life of a log: batches, clock ticks, crashes and reopens

    [run o acked s]: a log with options [o], started on an empty directory,
    can be in state [s] after appends acknowledged the records [acked]. A
    crash strikes at any point of a batch: what a batch has on disk when it
    dies is, by [WalCrash.crash], a cut of what its next record would leave,
    so a crash after any number of whole records covers a torn one too. *)
From S2P Require Import Prelude GoStrings Hash Monad WalSegment Wal WalInv WalCrash.
Import Segment Wal WalInv WalCrash.

Module WalRun.

(** ** Open *)
Lemma Open_load o s :
  d_io s = [] ->
  Open o s = load (mkSt (d_files s) [] (d_now s) (mkLog (defaults o) [] None 0 false 0)).
Proof.
  intros H. unfold Open. rewrite (bind_ok _ _ _ _ _ (syscall_ok _ H)).
  unfold bind, set_log, modify. rewrite H. reflexivity.
Qed.

Lemma Open_boot o files now :
  ReadOnly o = false -> Open o (boot files now o) = load_rw (boot files now (defaults o)).
Proof.
  intros Hro. rewrite Open_load by reflexivity. unfold load, bind, get, boot. cbn.
  rewrite Hro. reflexivity.
Qed.

(** Opening an empty directory gives an empty, well-formed log. *)
Lemma Open_empty o now :
  ReadOnly o = false -> MaxRecordBytes (defaults o) < 2 ^ 32 ->
  exists s, Open o (boot ∅ now o) = (s, inr tt)
    /\ inv s [] (mkSeg 0 0 segHeaderLen) [] [] /\ opts (log s) = defaults o /\ d_io s = [].
Proof.
  intros Hro Hm. rewrite Open_boot by exact Hro.
  set (s0 := boot ∅ now (defaults o)).
  destruct (fresh_log_ok s0 (MaxRecordBytes (defaults o)) eq_refl eq_refl Hm) as (s & Hs & H & Ho & Hio).
  { intros b Hb. cbn. rewrite lookup_empty. split; [intros [? [=]]|intros Hin; inversion Hin]. }
  exists s. split; [|auto].
  assert (Hl : listSegments s0 = (s0, inr [])).
  { apply listSegments_ok; [reflexivity| |constructor|constructor].
    intros b Hb. cbn. rewrite lookup_empty. split; [intros [? [=]]|intros Hin; inversion Hin]. }
  unfold load_rw. rewrite (bind_ok _ _ _ _ _ Hl). exact Hs.
Qed.

(** ** Durability of the writes *)
Lemma durable_prefix s : wal_wf s -> durable_records s `prefix_of` log_records s.
Proof.
  intros (sealed & a & srss & ars & Hinv).
  destruct (rp_active _ _ _ _ _ _ (iv_repr _ _ _ _ _ Hinv)) as (f & Hf & _).
  rewrite (inv_durable _ _ _ _ _ _ Hinv Hf), (inv_log_records _ _ _ _ _ Hinv).
  apply prefix_app. exists (drop (whole ars (f_synced f - 20)) ars). symmetry. apply take_drop.
Qed.

Lemma synced_kept_durable s s' sealed a srss ars sealed' a' srss' ars' new :
  inv s sealed a srss ars -> inv s' sealed' a' srss' ars' ->
  concat srss' ++ ars' = (concat srss ++ ars) ++ new ->
  synced_kept s s' a a' srss srss' ars ->
  durable_records s `prefix_of` durable_records s'.
Proof.
  intros Hinv Hinv' Hcat Hk.
  assert (Hlog : durable_records s `prefix_of` log_records s)
    by (apply durable_prefix; do 4 eexists; exact Hinv).
  destruct Hk as [Hsy|[Hc|(-> & f & f' & Hf & Hf' & Hsy)]].
  - rewrite (active_synced_durable _ _ _ _ _ Hinv' Hsy), (inv_log_records _ _ _ _ _ Hinv'), Hcat.
    rewrite <- (inv_log_records _ _ _ _ _ Hinv). apply prefix_app_r, Hlog.
  - destruct (rp_active _ _ _ _ _ _ (iv_repr _ _ _ _ _ Hinv')) as (f' & Hf' & _).
    rewrite (inv_durable _ _ _ _ _ _ Hinv' Hf'), Hc, <- (inv_log_records _ _ _ _ _ Hinv).
    apply prefix_app_r, Hlog.
  - rewrite (inv_durable _ _ _ _ _ _ Hinv' Hf'), (inv_durable _ _ _ _ _ _ Hinv Hf), Hsy.
    apply prefix_app. rewrite <- app_assoc in Hcat. apply app_inv_head in Hcat. subst ars'.
    set (n := whole ars (f_synced f - 20)). set (n' := whole _ _).
    pose proof (whole_le ars (f_synced f - 20)) as Hn. fold n in Hn.
    assert (Hnn : (n <= n')%nat).
    { apply whole_ge; [|rewrite length_app; lia]. rewrite take_app_le by lia. apply whole_length_le. }
    exists (drop n (take n' (ars ++ new))).
    rewrite <- (take_app_le ars new n) by lia.
    rewrite <- (Nat.min_l n n') at 1 by lia. rewrite <- take_take, take_drop. reflexivity.
Qed.

Lemma write_all_durable batch s now s' os :
  d_io s = [] -> wal_wf s -> next (log s) + Z.of_nat (length batch) < 2 ^ 64 ->
  Forall (req_ok (MaxRecordBytes (opts (log s))) now) batch ->
  write_all now batch s = (s', inr os) ->
  durable_records s `prefix_of` durable_records s'.
Proof.
  revert s os. induction batch as [|r batch IH]; intros s os Hio (l & a & ss & rs & Hinv) Hb Hok H.
  - injection H as <- _. reflexivity.
  - inversion Hok as [|? ? Hr Hrest]; subst. cbn [length] in Hb.
    destruct (write_one_ok _ _ _ _ _ now r Hio Hinv ltac:(lia) Hr)
      as (s1 & l1 & a1 & ss1 & r1 & Hs1 & Hinv1 & Hcat1 & Hn1 & Hio1 & Hc1 & _ & Hk).
    cbn [write_all] in H. rewrite (bind_ok _ _ _ _ _ Hs1) in H.
    apply bind_inr in H as (s2 & os2 & H2 & H). injection H as <- _.
    etransitivity; [eapply synced_kept_durable; eauto|].
    eapply (IH s1); eauto; [do 4 eexists; exact Hinv1|lia|].
    rewrite (sc_opts _ _ Hc1). exact Hrest.
Qed.

(** ** Offsets of a log that starts at zero *)
Lemma inv_next_oldest s sealed a srss ars :
  inv s sealed a srss ars ->
  next (log s) = OldestOffset (log s) + Z.of_nat (length (log_records s))
  /\ numbered (OldestOffset (log s)) (log_records s) = log_records s.
Proof.
  intros Hinv. rewrite (inv_log_records _ _ _ _ _ Hinv). destruct Hinv as [[Hs (f & _ & Ha) Hc _] Hsegs _ Hn _].
  unfold OldestOffset. rewrite Hsegs, Hn, (seg_end _ _ _ _ Ha). clear Hsegs Hn.
  pose proof (sr_num _ _ _ _ Ha) as Hnum.
  induction Hs as [|m rs l ls (g & _ & Hm & _ & _) Hl IH]; [simpl; split; [lia|exact Hnum]|].
  pose proof (seg_end _ _ _ _ Hm) as He. specialize (IH (chain_ok_tail _ _ Hc)).
  assert (Hnext : end_ m = match l ++ [a] with [] => 0 | x :: _ => base x end).
  { simpl app in Hc. destruct l as [|x l]; apply chain_ok_cons in Hc as [Hc _]; exact Hc. }
  rewrite <- Hnext in IH. destruct IH as [IH1 IH2].
  simpl app. cbn [concat]. rewrite <- app_assoc, length_app. split; [lia|].
  rewrite numbered_app, (sr_num _ _ _ _ Hm), <- He, IH2. reflexivity.
Qed.

(** ** Runs *)
Definition tick (now : Z) (s : St) : St := mkSt (d_files s) (d_io s) now (log s).

(** What Append and the writer's clock let through. *)
Definition batch_ok (s : St) (batch : list appendReq) : Prop :=
  Forall (fun r => append_check (log s) (payload r) = None) batch
  /\ - 2 ^ 63 <= d_now s < 2 ^ 63 /\ next (log s) + Z.of_nat (length batch) < 2 ^ 64.

(** The records a batch is acknowledged with. *)
Definition acked_batch (now : Z) (offs : list Z) (batch : list appendReq) : list Record :=
  zip_with (fun o r => new_record o now r) offs batch.

Inductive run (o : Options) : list Record -> St -> Prop :=
  | run_open now s :
      Open o (boot ∅ now o) = (s, inr tt) -> run o [] s
  | run_tick acked s now : run o acked s -> run o acked (tick now s)
  | run_append acked s batch s' offs :
      run o acked s -> batch <> [] -> batch_ok s batch ->
      writeBatch batch s = (s', inr offs) ->
      run o (acked ++ acked_batch (d_now s) offs batch) s'
  | run_crash acked s batch s1 offs files' now s' :
      run o acked s -> batch_ok s batch ->
      write_all (d_now s) batch s = (s1, inr offs) ->
      crash (d_files s1) files' ->
      Open o (boot files' now o) = (s', inr tt) ->
      run o acked s'.

Lemma batch_ok_req s batch :
  batch_ok s batch -> Forall (req_ok (MaxRecordBytes (opts (log s))) (d_now s)) batch.
Proof.
  intros (H & Hnow & _). eapply Forall_impl; [exact H|]. intros r Hr. split; [|exact Hnow].
  unfold append_check in Hr. destruct (ReadOnly _); [discriminate|].
  destruct (Z.ltb_spec (MaxRecordBytes (opts (log s)))
    (Z.of_nat (length (payload r)) + bodyFixedLen)); [discriminate|lia].
Qed.

Lemma acked_batch_records now off batch :
  acked_batch now (map (fun i => off + Z.of_nat i) (seq 0 (length batch))) batch
  = batch_records off now batch.
Proof.
  unfold acked_batch. revert off. induction batch as [|r batch IH]; intros off; [reflexivity|].
  cbn [length seq map zip_with batch_records]. f_equal; [f_equal; lia|].
  rewrite <- IH, <- seq_shift, map_map. f_equal. apply map_ext. intros i. lia.
Qed.

Lemma length_batch_records off now batch : length (batch_records off now batch) = length batch.
Proof. revert off. induction batch; intros; cbn; auto. Qed.

Lemma batch_records_lookup off now batch i r :
  batch_records off now batch !! i = Some r -> Offset r = off + Z.of_nat i.
Proof.
  revert off i. induction batch as [|q batch IH]; intros off [|i] H; try discriminate H.
  - injection H as <-. cbn. lia.
  - apply IH in H. lia.
Qed.

(** The acknowledged records are on stable storage at their offsets. *)
Definition acked_at (rs : list Record) (r : Record) : Prop :=
  0 <= Offset r /\ rs !! Z.to_nat (Offset r) = Some r.

Lemma acked_at_prefix rs rs' acked :
  rs `prefix_of` rs' -> Forall (acked_at rs) acked -> Forall (acked_at rs') acked.
Proof.
  intros Hp H. eapply Forall_impl; [exact H|]. intros r [H0 Hr].
  split; [exact H0|]. eapply prefix_lookup_Some; eauto.
Qed.

Record run_inv (o : Options) (acked : list Record) (s : St) : Prop := {
  ri_wf : wal_wf s;
  ri_io : d_io s = [];
  ri_opts : opts (log s) = defaults o;
  ri_oldest : OldestOffset (log s) = 0;
  ri_acked : Forall (acked_at (durable_records s)) acked;
  ri_sorted : StronglySorted Z.lt (map Offset acked) }.

Lemma run_inv_append o acked s batch s' offs :
  Policy o <> SyncInterval -> run_inv o acked s -> batch <> [] -> batch_ok s batch ->
  writeBatch batch s = (s', inr offs) ->
  run_inv o (acked ++ acked_batch (d_now s) offs batch) s'.
Proof.
  intros HP [(l & a & ss & rs & Hinv) Hio Hopts Hold Hack Hsort] Hne Hok Hw.
  destruct (writeBatch_ok _ _ _ _ _ batch Hio Hinv ltac:(apply Hok) (batch_ok_req _ _ Hok))
    as (s1 & l1 & a1 & ss1 & rs1 & Hw1 & Hinv1 & Hcat & Hn1 & Hio1 & Ho1 & Hsy).
  rewrite Hw in Hw1. injection Hw1 as <- ->. rewrite acked_batch_records.
  rewrite <- (inv_log_records _ _ _ _ _ Hinv), <- (inv_log_records _ _ _ _ _ Hinv1) in Hcat.
  destruct (inv_next_oldest _ _ _ _ _ Hinv) as [Hn _]. rewrite Hold in Hn.
  assert (Hdur : durable_records s' = log_records s').
  { eapply active_synced_durable; [exact Hinv1|]. apply Hsy; [exact Hne|].
    rewrite Hopts. exact HP. }
  constructor; auto.
  - do 4 eexists. exact Hinv1.
  - congruence.
  - destruct (inv_next_oldest _ _ _ _ _ Hinv1) as [Hn' _].
    rewrite Hcat, length_app, length_batch_records in Hn'. lia.
  - rewrite Hdur, Hcat. apply Forall_app. split.
    + eapply acked_at_prefix; [|exact Hack]. apply prefix_app_r, durable_prefix.
      do 4 eexists. exact Hinv.
    + apply Forall_lookup_2. intros i r Hr. pose proof (batch_records_lookup _ _ _ _ _ Hr) as Ho.
      split; [lia|]. rewrite lookup_app_r by lia. rewrite <- Hr. f_equal. lia.
  - rewrite map_app. apply StronglySorted_app_2; [|exact Hsort|].
    + intros x y Hx Hy. apply list_elem_of_fmap in Hx as (r & -> & Hr).
      apply list_elem_of_fmap in Hy as (q & -> & Hq).
      rewrite Forall_forall in Hack. destruct (Hack r Hr) as [H0 Hlook].
      pose proof (prefix_length _ _ (durable_prefix s ltac:(do 4 eexists; exact Hinv))) as Hlen.
      apply lookup_lt_Some in Hlook. apply list_elem_of_lookup in Hq as [i Hq].
      apply batch_records_lookup in Hq. lia.
    + clear. generalize (next (log s)). induction batch as [|q batch IH]; intros off; [constructor|].
      cbn. constructor; [apply IH|]. apply Forall_forall. intros x Hx.
      apply list_elem_of_fmap in Hx as (r & -> & Hr). apply list_elem_of_lookup in Hr as [i Hr].
      apply batch_records_lookup in Hr. lia.
Qed.

Lemma run_inv_crash o acked s batch s1 offs files' now :
  ReadOnly o = false ->
  run_inv o acked s -> batch_ok s batch -> write_all (d_now s) batch s = (s1, inr offs) ->
  crash (d_files s1) files' ->
  exists s'', Open o (boot files' now o) = (s'', inr tt) /\ run_inv o acked s''.
Proof.
  intros Hro [Hwf Hio Hopts Hold Hack Hsort] Hok Hw Hcrash.
  pose proof (write_all_durable _ _ _ _ _ Hio Hwf ltac:(apply Hok) (batch_ok_req _ _ Hok) Hw) as Hdur.
  destruct Hwf as (l & a & ss & rs & Hinv).
  destruct (write_all_ok batch _ _ _ _ _ _ Hio Hinv ltac:(apply Hok) (batch_ok_req _ _ Hok))
    as (s2 & l1 & a1 & ss1 & rs1 & Hw1 & Hinv1 & Hcat & Hn1 & Hio1 & Hc1 & _).
  rewrite Hw in Hw1. injection Hw1 as <- ->.
  assert (Ho1 : opts (log s1) = defaults o) by (rewrite (sc_opts _ _ Hc1); exact Hopts).
  assert (Hold1 : OldestOffset (log s1) = 0).
  { destruct (inv_next_oldest _ _ _ _ _ Hinv) as [E _].
    destruct (inv_next_oldest _ _ _ _ _ Hinv1) as [E1 _].
    rewrite (inv_log_records _ _ _ _ _ Hinv) in E.
    rewrite (inv_log_records _ _ _ _ _ Hinv1), Hcat, length_app, length_batch_records in E1. lia. }
  destruct (load_after_crash s1 files' now ltac:(do 4 eexists; exact Hinv1) Hcrash)
    as (s'' & Hl & Hwf'' & Ho'' & Hio'' & Hd'' & _ & Hz).
  rewrite Ho1 in Hl. exists s''. split; [rewrite Open_boot by exact Hro; exact Hl|].
  constructor; auto; [congruence|].
  eapply acked_at_prefix; [|exact Hack]. etransitivity; eassumption.
Qed.

Lemma run_run_inv o acked s :
  ReadOnly o = false -> MaxRecordBytes (defaults o) < 2 ^ 32 -> Policy o <> SyncInterval ->
  run o acked s -> run_inv o acked s.
Proof.
  intros Hro Hm HP. induction 1 as [now s Ho|acked s now _ IH|acked s batch s' offs _ IH Hne Hok Hw
    |acked s batch s1 offs files' now s' _ IH Hok Hw Hc Ho].
  - destruct (Open_empty o now Hro Hm) as (s' & Hs' & Hinv & Hopts & Hio).
    rewrite Ho in Hs'. injection Hs' as <-. constructor; auto; try constructor.
    + do 4 eexists. exact Hinv.
    + unfold OldestOffset. rewrite (iv_segs _ _ _ _ _ Hinv). reflexivity.
  - destruct IH as [(l & a & ss & rs & []) ? ? ? ? ?]. constructor; auto.
    do 4 eexists. constructor; eauto.
  - eapply run_inv_append; eauto.
  - destruct (run_inv_crash o acked s batch s1 offs files' now Hro IH Hok Hw Hc) as (s'' & Hs'' & H).
    rewrite Ho in Hs''. injection Hs'' as <-. exact H.
Qed.

End WalRun.
