(* ===== verification/WalConc.v ===== *)
(** * Concurrent appends (internal/wal/wal.go: Append, writeLoop, Close)

    Any number of goroutines call Append while the writer goroutine runs
    writeLoop and another may Close the log. Their steps interleave in every
    way; a [select] with several cases that are ready takes any of them, and
    the contexts of callers and the writer's deadline end at any time. The
    channel of requests is the queue of the calls that wait in it, of capacity
    MaxPending; a call's answer channel has room for its one answer. *)
From S2P Require Import Prelude Hash Monad WalSegment Wal WalInv WalRun.
Import Segment Wal WalInv WalRun.
#[local] Open Scope Z_scope.

Module WalConc.

(** ** States *)
Inductive result := Answer (r : wal_error + Z) | CtxDone.
Inductive pc := AtCheck | AtSend | AtWait | Returned (r : result).
Inductive writer :=
  | WIdle | WCollect (batch : list nat) (batchBytes : Z) | WAnswer (l : list (nat * (wal_error + Z))) | WExited.

(** [quit] and an exited writer are the closed channels l.quit and l.done;
    [written] lists the calls whose records were written. *)
Record Sys := mkSys {
  w : Wal.St; quit : bool; calls : list (appendReq * pc); queue : list nat; wr : writer;
  resp : gmap nat (wal_error + Z); written : list nat }.

Definition set_w v s := mkSys v (quit s) (calls s) (queue s) (wr s) (resp s) (written s).
Definition set_quit s := mkSys (w s) true (calls s) (queue s) (wr s) (resp s) (written s).
Definition set_calls v s := mkSys (w s) (quit s) v (queue s) (wr s) (resp s) (written s).
Definition set_queue v s := mkSys (w s) (quit s) (calls s) v (wr s) (resp s) (written s).
Definition set_wr v s := mkSys (w s) (quit s) (calls s) (queue s) v (resp s) (written s).
Definition set_resp v s := mkSys (w s) (quit s) (calls s) (queue s) (wr s) v (written s).
Definition add_written b s := mkSys (w s) (quit s) (calls s) (queue s) (wr s) (resp s) (written s ++ b).
Definition goto (i : nat) (p : pc) (s : Sys) : Sys := set_calls (alter (fun c => (fst c, p)) i (calls s)) s.

(** What one request adds to the size of the batch. *)
Definition req_bytes (q : appendReq) : Z := recHeaderLen + bodyFixedLen + Z.of_nat (length (payload q)).
Definition reqs_of (s : Sys) (b : list nat) : list appendReq := omap (fun i => fst <$> calls s !! i) b.
Definition opts_of (s : Sys) : Options := opts (log (w s)).

(** The answers of a batch. *)
Definition answers_of (b : list nat) (r : wal_error + list Z) : list (nat * (wal_error + Z)) :=
  match r with
  | inl e => map (fun i => (i, inl e)) b
  | inr offs => zip_with (fun i o => (i, inr o)) b offs
  end.

(** ** Steps of the writer goroutine: one turn of writeLoop *)
Inductive wstep : Sys -> Sys -> Prop :=
  | step_take i q rest s : wr s = WIdle -> queue s = i :: rest -> fst <$> calls s !! i = Some q ->
      wstep s (set_wr (WCollect [i] (req_bytes q)) (set_queue rest s))
  | step_more b n i q rest s : wr s = WCollect b n -> Policy (opts_of s) <> SyncAlways ->
      n < MaxBatchBytes (opts_of s) -> queue s = i :: rest -> fst <$> calls s !! i = Some q ->
      wstep s (set_wr (WCollect (b ++ [i]) (n + req_bytes q)) (set_queue rest s))
  | step_write b n s v r : wr s = WCollect b n -> writeBatch (reqs_of s b) (w s) = (v, r) ->
      wstep s (add_written (if r then [] else b) (set_wr (WAnswer (answers_of b r)) (set_w v s)))
  | step_answer i r l s : wr s = WAnswer ((i, r) :: l) ->
      wstep s (set_wr (WAnswer l) (set_resp (<[i := r]> (resp s)) s))
  | step_next s : wr s = WAnswer [] -> wstep s (set_wr WIdle s).

(** ** All steps *)
Inductive step : Sys -> Sys -> Prop :=
  (* Append: the call, its checks, the select that sends, the one that waits *)
  | step_call q s : step s (set_calls (calls s ++ [(q, AtCheck)]) s)
  | step_check i q s : calls s !! i = Some (q, AtCheck) ->
      step s (goto i match append_check (log (w s)) (payload q) with
                     | Some e => Returned (Answer (inl e)) | None => AtSend end s)
  | step_send i q s : calls s !! i = Some (q, AtSend) -> Z.of_nat (length (queue s)) < MaxPending (opts_of s) ->
      step s (goto i AtWait (set_queue (queue s ++ [i]) s))
  | step_send_ctx i q s : calls s !! i = Some (q, AtSend) -> step s (goto i (Returned CtxDone) s)
  | step_send_done i q s : calls s !! i = Some (q, AtSend) -> wr s = WExited ->
      step s (goto i (Returned (Answer (inl ErrClosed))) s)
  | step_recv i q r s : calls s !! i = Some (q, AtWait) -> resp s !! i = Some r ->
      step s (goto i (Returned (Answer r)) (set_resp (delete i (resp s)) s))
  | step_wait_ctx i q s : calls s !! i = Some (q, AtWait) -> step s (goto i (Returned CtxDone) s)
  | step_wait_done i q s : calls s !! i = Some (q, AtWait) -> wr s = WExited ->
      step s (goto i (Returned (Answer (inl ErrClosed))) s)
  (* writeLoop, which may also find the log closed *)
  | step_writer s s' : wstep s s' -> step s s'
  | step_quit s : wr s = WIdle -> quit s = true -> step s (set_wr WExited s)
  (* Close: the flag, then the channel (the file is synced and closed after
     the writer has exited, see Wal.Close); the clock *)
  | step_close s :
      step s (set_w (mkSt (d_files (w s)) (d_io (w s)) (d_now (w s)) (set_closed true (log (w s)))) s)
  | step_close_quit s : closed (log (w s)) = true -> step s (set_quit s)
  | step_tick t s : - 2 ^ 63 <= t < 2 ^ 63 -> step s (set_w (tick t (w s)) s).

(** The log just opened: no call yet, the writer idle. *)
Definition init (v : Wal.St) : Sys := mkSys v false [] [] WIdle ∅ [].
Notation steps := (rtc step).

(** ** The invariant *)
Definition batch_of (x : writer) : list nat := match x with WCollect b _ => b | _ => [] end.
Definition answers (x : writer) : list (nat * (wal_error + Z)) := match x with WAnswer l => l | _ => [] end.
Definition pending (s : Sys) : list nat := batch_of (wr s) ++ queue s.

(** A call that got past its send. *)
Definition sent (p : pc) : Prop :=
  match p with
  | AtWait | Returned CtxDone | Returned (Answer (inr _)) | Returned (Answer (inl ErrClosed)) => True
  | _ => False
  end.

Definition written_as (cs : list (appendReq * pc)) (i : nat) (r : Record) : Prop :=
  exists q p, cs !! i = Some (q, p) /\ Type_ r = typ q /\ Payload r = payload q.

(** What keeps a waiting call's answer coming. *)
Definition tracked (s : Sys) (i : nat) : Prop :=
  i ∈ pending s \/ (exists r, (i, r) ∈ answers (wr s)) \/ is_Some (resp s !! i) \/ wr s = WExited.

Section Inv.
Context (w0 : Wal.St).

(** The answer of call [i] is the offset of its record. *)
Definition good (s : Sys) (i : nat) (r : wal_error + Z) : Prop :=
  exists o, r = inr o /\ next (log w0) <= o /\ written s !! Z.to_nat (o - next (log w0)) = Some i.

Record conc (s : Sys) : Prop := {
  cc_wf : wal_wf (w s);
  cc_io : d_io (w s) = [];
  cc_now : - 2 ^ 63 <= d_now (w s) < 2 ^ 63;
  cc_opts : opts_of s = opts (log w0);
  cc_old : OldestOffset (log (w s)) = OldestOffset (log w0);
  cc_next : next (log (w s)) = next (log w0) + Z.of_nat (length (written s));
  cc_recs : exists rs, log_records (w s) = log_records w0 ++ rs /\ Forall2 (written_as (calls s)) (written s) rs;
  cc_dur : written s <> [] -> Policy (opts_of s) <> SyncInterval -> durable_records (w s) = log_records (w s);
  cc_nodup : NoDup (pending s ++ written s);
  cc_sent : forall i, i ∈ pending s ++ written s -> exists q p, calls s !! i = Some (q, p) /\ sent p
      /\ Z.of_nat (length (payload q)) + bodyFixedLen <= MaxRecordBytes (opts_of s);
  cc_ans : forall i r, (i, r) ∈ answers (wr s) -> good s i r;
  cc_resp : forall i r, resp s !! i = Some r -> good s i r;
  cc_ret : forall i q o, calls s !! i = Some (q, Returned (Answer (inr o))) -> good s i (inr o);
  cc_wait : forall i q, calls s !! i = Some (q, AtWait) -> tracked s i;
  cc_size : forall i q, calls s !! i = Some (q, AtSend) ->
      Z.of_nat (length (payload q)) + bodyFixedLen <= MaxRecordBytes (opts_of s);
  cc_batch : forall b n, wr s = WCollect b n -> b <> [] }.

(** ** Steps of the callers *)
Lemma goto_lookup i q p0 p s j : calls s !! i = Some (q, p0) ->
  calls (goto i p s) !! j = if decide (i = j) then Some (q, p) else calls s !! j.
Proof.
  intros H. cbn. destruct (decide (i = j)) as [<-|Hne]; [|apply list_lookup_alter_ne, Hne].
  rewrite list_lookup_alter_eq, H. reflexivity.
Qed.

Lemma written_as_goto i q p0 p s j r : calls s !! i = Some (q, p0) ->
  written_as (calls s) j r -> written_as (calls (goto i p s)) j r.
Proof.
  intros H (q' & p' & Hj & Hr). unfold written_as. rewrite (goto_lookup _ _ _ _ _ _ H).
  destruct (decide (i = j)) as [<-|_]; [|eauto]. rewrite H in Hj. injection Hj as <- <-. eauto.
Qed.

Lemma conc_goto s i q p0 p : conc s -> calls s !! i = Some (q, p0) ->
  (i ∈ pending s ++ written s -> sent p) ->
  (forall o, p = Returned (Answer (inr o)) -> good s i (inr o)) ->
  (p = AtWait -> tracked s i) ->
  (p = AtSend -> Z.of_nat (length (payload q)) + bodyFixedLen <= MaxRecordBytes (opts_of s)) ->
  conc (goto i p s).
Proof.
  intros [] Hi Hsent Hret Hwait Hsize. constructor; try assumption.
  - destruct cc_recs0 as (rs & E & F). exists rs. split; [exact E|]. eapply Forall2_impl; [exact F|].
    intros j r. apply (written_as_goto _ _ _ _ _ _ _ Hi).
  - intros j Hj. rewrite (goto_lookup _ _ _ _ _ _ Hi). destruct (cc_sent0 j Hj) as (q' & p' & E & S & Hz).
    destruct (decide (i = j)) as [<-|_]; [|exists q', p'; auto]. rewrite Hi in E. injection E as <- <-.
    exists q, p. split_and!; [reflexivity|auto|exact Hz].
  - intros j q' o. rewrite (goto_lookup _ _ _ _ _ _ Hi). destruct (decide (i = j)) as [<-|_]; [|apply cc_ret0].
    intros [= <- ->]. apply Hret. reflexivity.
  - intros j q'. rewrite (goto_lookup _ _ _ _ _ _ Hi). destruct (decide (i = j)) as [<-|_]; [|apply cc_wait0].
    intros [= <- ->]. apply Hwait. reflexivity.
  - intros j q'. rewrite (goto_lookup _ _ _ _ _ _ Hi). destruct (decide (i = j)) as [<-|_]; [|apply cc_size0].
    intros [= <- ->]. apply Hsize. reflexivity.
Qed.

(** A call before its send is in none of the lists. *)
Lemma not_sent s i q p : conc s -> calls s !! i = Some (q, p) -> ~ sent p -> i ∉ pending s ++ written s.
Proof.
  intros H Hi Hn Hin. destruct (cc_sent _ H i Hin) as (q' & p' & E & S & _). rewrite Hi in E.
  injection E as <- <-. auto.
Qed.

Lemma conc_send s i q : conc s -> calls s !! i = Some (q, AtSend) -> conc (goto i AtWait (set_queue (queue s ++ [i]) s)).
Proof.
  intros H Hi. pose proof (not_sent s i q AtSend H Hi ltac:(auto)) as Hnot. destruct H.
  assert (Hp : pending (goto i AtWait (set_queue (queue s ++ [i]) s)) = pending s ++ [i])
    by (unfold pending; cbn; apply app_assoc).
  assert (Hg : forall j, calls (goto i AtWait (set_queue (queue s ++ [i]) s)) !! j
      = if decide (i = j) then Some (q, AtWait) else calls s !! j).
  { intros j. exact (goto_lookup i q AtSend AtWait s j Hi). }
  constructor; try assumption.
  - destruct cc_recs0 as (rs & E & F). exists rs. split; [exact E|]. eapply Forall2_impl; [exact F|].
    intros j r. apply (written_as_goto _ _ _ AtWait _ _ _ Hi).
  - rewrite Hp. cbn. rewrite <- app_assoc, (Permutation_app_comm [i]), app_assoc. apply NoDup_app.
    split_and!; [exact cc_nodup0| |apply NoDup_singleton]. intros x Hx ->%list_elem_of_singleton. auto.
  - intros j Hj. rewrite Hg. destruct (decide (i = j)) as [<-|Hne].
    { exists q, AtWait. split_and!; [reflexivity|exact I|exact (cc_size0 _ _ Hi)]. }
    apply cc_sent0. rewrite Hp in Hj. cbn in Hj. set_solver.
  - intros j q' o. rewrite Hg. destruct (decide (i = j)) as [<-|_]; [discriminate|apply cc_ret0].
  - intros j q' Hj. rewrite Hg in Hj. unfold tracked. rewrite Hp. destruct (decide (i = j)) as [<-|_]; [set_solver|].
    destruct (cc_wait0 _ _ Hj) as [?|?]; [set_solver|auto].
  - intros j q'. rewrite Hg. destruct (decide (i = j)) as [<-|_]; [discriminate|apply cc_size0].
Qed.

Lemma conc_forget s i : conc s -> (forall q, calls s !! i <> Some (q, AtWait)) -> conc (set_resp (delete i (resp s)) s).
Proof.
  intros [] Hi. constructor; try assumption.
  - intros j r Hj. cbn [resp set_resp] in Hj. apply lookup_delete_Some in Hj as [_ Hj]. apply cc_resp0, Hj.
  - intros j q Hj. destruct (cc_wait0 _ _ Hj) as [?|[?|[Hr|?]]]; unfold tracked; auto. right. right. left.
    cbn. rewrite lookup_delete_ne; [exact Hr|]. intros <-. eapply Hi, Hj.
Qed.

(** ** Steps of the writer *)
Lemma conc_wr s x q : conc s -> batch_of x ++ q = pending s -> answers x = answers (wr s) ->
  (wr s = WExited -> x = WExited) -> (forall b n, x = WCollect b n -> b <> []) -> conc (set_wr x (set_queue q s)).
Proof.
  intros [] Hp Ha Hx Hb. assert (Hp' : pending (set_wr x (set_queue q s)) = pending s) by exact Hp.
  constructor; rewrite ?Hp'; try assumption; cbn [wr set_wr set_queue]; rewrite ?Ha; auto.
  intros i r Hi. unfold tracked. rewrite Hp'. cbn. rewrite Ha. destruct (cc_wait0 _ _ Hi) as [?|[?|[?|?]]]; auto.
Qed.

Lemma conc_answer s i r l : conc s -> wr s = WAnswer ((i, r) :: l) ->
  conc (set_wr (WAnswer l) (set_resp (<[i := r]> (resp s)) s)).
Proof.
  intros [] Hw. assert (Hp : pending (set_wr (WAnswer l) (set_resp (<[i := r]> (resp s)) s)) = pending s)
    by (unfold pending; rewrite Hw; reflexivity).
  rewrite Hw in cc_ans0. constructor; rewrite ?Hp; try assumption.
  - intros j r' Hj. apply cc_ans0. right. exact Hj.
  - intros j r' Hj. cbn [resp set_resp set_wr] in Hj. apply lookup_insert_Some in Hj as [[<- <-]|[_ Hj]]; [apply cc_ans0; left|apply cc_resp0, Hj].
  - intros j q Hj. unfold tracked. rewrite Hp. cbn.
    destruct (cc_wait0 _ _ Hj) as [?|[(r' & Hr)|[Hr|Hx]]]; auto.
    + rewrite Hw in Hr. apply elem_of_cons in Hr as [[= -> ->]|Hr]; [|eauto].
      right. right. left. rewrite lookup_insert_eq. eauto.
    + right. right. left. destruct (decide (i = j)) as [<-|Hne]; [rewrite lookup_insert_eq; eauto|].
      rewrite lookup_insert_ne by exact Hne. exact Hr.
    + congruence.
  - discriminate.
Qed.

(** ** The write *)
Lemma length_omap_some {A B} (f : A -> option B) l : (forall x, x ∈ l -> is_Some (f x)) -> length (omap f l) = length l.
Proof.
  induction l as [|x l IH]; intros H; [reflexivity|]. cbn. destruct (H x ltac:(left)) as [y ->]. cbn.
  rewrite IH; [reflexivity|]. intros z Hz. apply H. right. exact Hz.
Qed.

Lemma batch_written s b off now : (forall i, i ∈ b -> is_Some (calls s !! i)) ->
  Forall2 (written_as (calls s)) b (batch_records off now (reqs_of s b)).
Proof.
  revert off. induction b as [|i b IH]; intros off H; [constructor|]. unfold reqs_of in *. cbn.
  destruct (H i ltac:(left)) as [[q p] E]. rewrite E. cbn. constructor; [exists q, p; auto|].
  apply IH. intros j Hj. apply H. right. exact Hj.
Qed.

Lemma NoDup_bounded (l : list nat) n : NoDup l -> (forall i, i ∈ l -> (i < n)%nat) -> (length l <= n)%nat.
Proof.
  intros Hn Hb. replace n with (length (seq 0 n)) by apply length_seq. apply submseteq_length, NoDup_submseteq; [exact Hn|].
  intros i Hi. apply elem_of_seq. specialize (Hb i Hi). lia.
Qed.

Lemma answers_elem b off i r :
  (i, r) ∈ answers_of b (inr (map (fun k => off + Z.of_nat k) (seq 0 (length b)))) ->
  exists k, b !! k = Some i /\ r = inr (off + Z.of_nat k).
Proof.
  intros H. apply list_elem_of_lookup in H as [k H]. apply lookup_zip_with_Some in H as (j & o & [= -> ->] & Hb & Ho).
  exists k. split; [exact Hb|]. change map with (@fmap list _) in Ho. apply list_lookup_fmap_Some in Ho as (m & -> & Hm).
  apply lookup_seq in Hm as [-> _]. reflexivity.
Qed.

Lemma answers_all b offs i : i ∈ b -> length offs = length b -> exists r, (i, r) ∈ answers_of b (inr offs).
Proof.
  intros Hi Hl. apply list_elem_of_lookup in Hi as [k Hk].
  destruct (lookup_lt_is_Some_2 offs k) as [o Ho]; [apply lookup_lt_Some in Hk; lia|].
  exists (inr o). apply list_elem_of_lookup. exists k. apply lookup_zip_with_Some. eauto 6.
Qed.

Lemma sync_batch_now s s' r : sync_batch s = (s', r) -> d_now s' = d_now s.
Proof.
  intros H. unfold sync_batch, sync_active, file_sync, syscall, next_io, get_file, set_files, set_log,
    throw, ret, get, modify, bind in H.
  repeat case_match; simplify_eq; cbn in *; simplify_eq; reflexivity.
Qed.

Lemma writeBatch_now s sealed a srss ars batch :
  d_io s = [] -> inv s sealed a srss ars -> next (log s) + Z.of_nat (length batch) < 2 ^ 64 ->
  Forall (req_ok (MaxRecordBytes (opts (log s))) (d_now s)) batch ->
  d_now (fst (writeBatch batch s)) = d_now s.
Proof.
  intros Hio Hinv Hb Hok. destruct (write_all_ok batch _ _ _ _ _ _ Hio Hinv Hb Hok)
    as (s1 & l1 & a1 & ss1 & r1 & Hs1 & Hinv1 & Hcat1 & Hn1 & Hio1 & Hc1 & Hsy1).
  unfold writeBatch. unfold bind at 1, get. rewrite (bind_ok _ _ _ _ _ Hs1). unfold bind.
  destruct (sync_batch s1) as [s2 r2] eqn:E2. apply sync_batch_now in E2. rewrite <- (sc_now _ _ Hc1), <- E2.
  destruct r2; reflexivity.
Qed.

(** A batch holds calls that were sent, each once, none written before. *)
Lemma batch_calls s b n i : conc s -> wr s = WCollect b n -> i ∈ b -> exists q p, calls s !! i = Some (q, p)
  /\ Z.of_nat (length (payload q)) + bodyFixedLen <= MaxRecordBytes (opts_of s).
Proof.
  intros H Hw Hi. destruct (cc_sent _ H i) as (q & p & H1 & _ & H2); [|eauto].
  unfold pending. rewrite Hw. set_solver.
Qed.

Lemma batch_is_some s b n i : conc s -> wr s = WCollect b n -> i ∈ b -> is_Some (calls s !! i).
Proof. intros H Hw Hi. destruct (batch_calls s b n i H Hw Hi) as (q & p & -> & _). eauto. Qed.

Lemma batch_length s b n : conc s -> wr s = WCollect b n -> length (reqs_of s b) = length b.
Proof.
  intros H Hw. apply length_omap_some. intros i Hi. destruct (batch_is_some s b n i H Hw Hi) as [x ->]. cbn. eauto.
Qed.

Lemma batch_room s b n : conc s -> wr s = WCollect b n -> (length b + length (written s) <= length (calls s))%nat.
Proof.
  intros H Hw. rewrite <- length_app. apply NoDup_bounded.
  - pose proof (cc_nodup _ H) as N. unfold pending in N. rewrite Hw in N. cbn in N. rewrite <- app_assoc in N.
    apply NoDup_app in N as (N1 & N2 & N). apply NoDup_app in N as (_ & _ & N).
    apply NoDup_app. split_and!; auto. intros x Hx Hin. apply (N2 x Hx). set_solver.
  - intros i Hi. destruct (cc_sent _ H i) as (q & p & H1 & _); [unfold pending; rewrite Hw; set_solver|].
    eapply lookup_lt_Some, H1.
Qed.

Lemma batch_reqs_ok s b n : conc s -> wr s = WCollect b n ->
  Forall (req_ok (MaxRecordBytes (opts (log (w s)))) (d_now (w s))) (reqs_of s b).
Proof.
  intros H Hw. apply Forall_forall. intros q Hq. unfold reqs_of in Hq. apply list_elem_of_omap in Hq as (i & Hi & Hf).
  destruct (batch_calls s b n i H Hw Hi) as (q' & p & Hc & Hz). rewrite Hc in Hf. injection Hf as <-.
  split; [exact Hz|exact (cc_now _ H)].
Qed.

(** What the write does to the log. *)
Lemma conc_writes s b n v r : conc s -> next (log w0) + Z.of_nat (length (calls s)) < 2 ^ 64 ->
  wr s = WCollect b n -> writeBatch (reqs_of s b) (w s) = (v, r) ->
  wal_wf v /\ d_io v = [] /\ d_now v = d_now (w s) /\ opts (log v) = opts (log (w s))
  /\ OldestOffset (log v) = OldestOffset (log (w s)) /\ next (log v) = next (log (w s)) + Z.of_nat (length b)
  /\ r = inr (map (fun k => next (log (w s)) + Z.of_nat k) (seq 0 (length b)))
  /\ log_records v = log_records (w s) ++ batch_records (next (log (w s))) (d_now (w s)) (reqs_of s b)
  /\ (Policy (opts (log v)) <> SyncInterval -> durable_records v = log_records v).
Proof.
  intros H Hb Hw E. pose proof (batch_room s b n H Hw) as Hroom. pose proof (batch_length s b n H Hw) as Hlen.
  pose proof (cc_next _ H) as Hnx. destruct (cc_wf _ H) as (l & a & ss & rs & Hinv).
  pose proof (writeBatch_now _ _ _ _ _ (reqs_of s b) (cc_io _ H) Hinv ltac:(lia) (batch_reqs_ok s b n H Hw)) as Hnow.
  destruct (writeBatch_ok _ _ _ _ _ (reqs_of s b) (cc_io _ H) Hinv ltac:(lia) (batch_reqs_ok s b n H Hw))
    as (v' & l' & a' & ss' & rs' & E' & Hinv' & Hcat & Hn & Hio & Ho & Hsy).
  rewrite E in Hnow, E'. injection E' as <- ->. rewrite Hlen in *.
  rewrite <- (inv_log_records _ _ _ _ _ Hinv), <- (inv_log_records _ _ _ _ _ Hinv') in Hcat.
  destruct (inv_next_oldest _ _ _ _ _ Hinv) as [N1 _]. destruct (inv_next_oldest _ _ _ _ _ Hinv') as [N2 _].
  rewrite Hcat, length_app, length_batch_records, Hlen in N2. split_and!; auto; [do 4 eexists; exact Hinv'|lia|].
  rewrite Ho. intros HP. eapply active_synced_durable, Hsy; [exact Hinv'| |exact HP].
  intros Hnil. rewrite Hnil in Hlen. eapply (cc_batch _ H b n Hw). destruct b; [reflexivity|discriminate].
Qed.

Lemma conc_write s b n v r : conc s -> next (log w0) + Z.of_nat (length (calls s)) < 2 ^ 64 ->
  wr s = WCollect b n -> writeBatch (reqs_of s b) (w s) = (v, r) ->
  conc (add_written (if r then [] else b) (set_wr (WAnswer (answers_of b r)) (set_w v s))).
Proof.
  intros H Hb Hw E. destruct (conc_writes s b n v r H Hb Hw E) as (Hwf & Hio & Hnow & Ho & Hold & Hn & -> & Hcat & Hd).
  pose proof (fun i => batch_is_some s b n i H Hw) as His. destruct H.
  assert (Hpend : pending s = b ++ queue s) by (unfold pending; rewrite Hw; reflexivity).
  set (s' := add_written _ _). assert (Hp' : pending s' ++ written s' ≡ₚ pending s ++ written s).
  { rewrite Hpend. unfold pending. cbn. rewrite (Permutation_app_comm (written s)), !app_assoc.
    rewrite (Permutation_app_comm (queue s) b). reflexivity. }
  assert (Hgood : forall i x, good s i x -> good s' i x).
  { intros i x (o & -> & H1 & H2). exists o. split_and!; auto. cbn. apply lookup_app_l_Some, H2. }
  assert (Hopts : opts_of s' = opts_of s) by exact Ho.
  constructor; rewrite ?Hopts; try assumption;
    change (w s') with v; change (calls s') with (calls s); change (written s') with (written s ++ b) in *.
  - rewrite Hnow. exact cc_now0.
  - rewrite Hold. exact cc_old0.
  - rewrite length_app. lia.
  - destruct cc_recs0 as (rs0 & R1 & R2). rewrite Hcat, R1, <- app_assoc. eexists. split; [reflexivity|].
    apply Forall2_app; [exact R2|]. apply batch_written, His.
  - intros _ HP. apply Hd. rewrite Ho. exact HP.
  - rewrite Hp'. exact cc_nodup0.
  - intros i Hi. rewrite Hp' in Hi. apply cc_sent0, Hi.
  - intros i x Hi. cbn in Hi. apply answers_elem in Hi as (k & Hk & ->). eexists. split; [reflexivity|]. split; [lia|].
    cbn. rewrite lookup_app_r by lia. rewrite <- Hk. f_equal. lia.
  - intros i x Hi. apply Hgood, cc_resp0, Hi.
  - intros i q o Hi. eapply Hgood, cc_ret0, Hi.
  - intros i q Hi. destruct (cc_wait0 i q Hi) as [Ht|[(x & Hx)|[Ht|Ht]]]; [|rewrite Hw in Hx; inversion Hx|unfold tracked; auto|congruence].
    rewrite Hpend in Ht. apply elem_of_app in Ht as [Ht|Ht]; [|left; exact Ht].
    right. left. apply answers_all; [exact Ht|]. rewrite length_map, length_seq. reflexivity.
  - discriminate.
Qed.

(** ** Every step *)
Lemma conc_call s q : conc s -> conc (set_calls (calls s ++ [(q, AtCheck)]) s).
Proof.
  intros []. assert (Hc : forall i q' p, calls s !! i = Some (q', p) -> (calls s ++ [(q, AtCheck)]) !! i = Some (q', p))
    by (intros i q' p H; apply lookup_app_l_Some, H).
  assert (Ho : forall i q' p, (calls s ++ [(q, AtCheck)]) !! i = Some (q', p) -> p <> AtCheck -> calls s !! i = Some (q', p)).
  { intros i q' p H Hp. apply lookup_app_Some in H as [H|[_ H]]; [exact H|].
    apply list_lookup_singleton_Some in H as [_ [= _ <-]]. congruence. }
  constructor; try assumption.
  - destruct cc_recs0 as (rs & E & F). exists rs. split; [exact E|]. eapply Forall2_impl; [exact F|].
    intros i r (q' & p & H & Hr). exists q', p. split; [apply Hc, H|exact Hr].
  - intros i Hi. destruct (cc_sent0 i Hi) as (q' & p & H & Hr). exists q', p. split; [apply Hc, H|exact Hr].
  - intros i q' o Hi. eapply cc_ret0, Ho; [exact Hi|discriminate].
  - intros i q' Hi. eapply cc_wait0, Ho; [exact Hi|discriminate].
  - intros i q' Hi. eapply cc_size0, Ho; [exact Hi|discriminate].
Qed.

Lemma conc_check s i q : conc s -> calls s !! i = Some (q, AtCheck) ->
  conc (goto i match append_check (log (w s)) (payload q) with
               | Some e => Returned (Answer (inl e)) | None => AtSend end s).
Proof.
  intros H Hi. eapply conc_goto; [exact H|exact Hi|..].
  - intros Hin. destruct (not_sent s i q _ H Hi ltac:(auto) Hin).
  - intros o. destruct (append_check _ _); discriminate.
  - destruct (append_check _ _); discriminate.
  - unfold append_check. repeat case_match; try discriminate. intros _. apply Z.ltb_ge. assumption.
Qed.

(** A new log state that holds the same records. *)
Lemma conc_set_w s v : conc s -> wal_wf v -> d_io v = [] -> - 2 ^ 63 <= d_now v < 2 ^ 63 ->
  d_files v = d_files (w s) -> opts (log v) = opts (log (w s)) -> segs (log v) = segs (log (w s)) ->
  next (log v) = next (log (w s)) -> conc (set_w v s).
Proof.
  intros [] Hwf Hio Hnow Hf Ho Hs Hn. assert (Hr : log_records v = log_records (w s))
    by (unfold log_records; rewrite Hf, Hs, Ho; reflexivity).
  assert (Hd : durable_records v = durable_records (w s))
    by (unfold durable_records; rewrite Hf, Hs, Ho; reflexivity).
  assert (Hold : OldestOffset (log v) = OldestOffset (log (w s))) by (unfold OldestOffset; rewrite Hs; reflexivity).
  constructor; try assumption; unfold opts_of in *; cbn [w set_w written calls];
    rewrite ?Hr, ?Hd, ?Ho, ?Hn, ?Hold; assumption.
Qed.

Lemma conc_wstep s s' : conc s -> next (log w0) + Z.of_nat (length (calls s)) < 2 ^ 64 -> wstep s s' -> conc s'.
Proof.
  intros H Hb Hs. destruct Hs as [i q rest s Hw Hq Hc|b n i q rest s Hw Hp Hn Hq Hc|b n s v r Hw E|i r l s Hw|s Hw].
  - apply conc_wr; try (rewrite Hw); try discriminate; [exact H| |reflexivity|congruence].
    unfold pending. rewrite Hw, Hq. reflexivity.
  - apply conc_wr; try (rewrite Hw); try discriminate; [exact H| |reflexivity|].
    + unfold pending. rewrite Hw, Hq. cbn. rewrite <- app_assoc. reflexivity.
    + intros b' n' [= <- _]. destruct b; discriminate.
  - eapply conc_write; eauto.
  - apply conc_answer; assumption.
  - change (set_wr WIdle s) with (set_wr WIdle (set_queue (queue s) s)).
    apply conc_wr; try (rewrite Hw); try discriminate; [exact H| |reflexivity].
    unfold pending. rewrite Hw. reflexivity.
Qed.

Lemma conc_step s s' : conc s -> next (log w0) + Z.of_nat (length (calls s)) < 2 ^ 64 -> step s s' -> conc s'.
Proof.
  intros H Hb Hs. destruct Hs as [q s|i q s Hi|i q s Hi Hlt|i q s Hi|i q s Hi Hx|i q r s Hi Hr|i q s Hi|i q s Hi Hx
    |s s' Hw|s Hw Hq|s|s Hcl|t s Ht].
  - apply conc_call, H.
  - eapply conc_check; eauto.
  - eapply conc_send; eassumption.
  - eapply conc_goto; try discriminate; eauto. intros _. exact I.
  - eapply conc_goto; try discriminate; eauto. intros _. exact I.
  - destruct (cc_resp _ H i r Hr) as (o & -> & Ho).
    apply (conc_forget (goto i (Returned (Answer (inr o))) s) i).
    + eapply conc_goto; [exact H|exact Hi|intros _; exact I| |discriminate|discriminate]. intros o' [= <-]. exists o. auto.
    + intros q' Hq'. rewrite (goto_lookup _ _ _ _ _ _ Hi), decide_True in Hq' by reflexivity. discriminate.
  - eapply conc_goto; try discriminate; eauto. intros _. exact I.
  - eapply conc_goto; try discriminate; eauto. intros _. exact I.
  - eapply conc_wstep; eauto.
  - change (set_wr WExited s) with (set_wr WExited (set_queue (queue s) s)). apply conc_wr; try discriminate; auto.
    + unfold pending. rewrite Hw. reflexivity.
    + rewrite Hw. reflexivity.
  - pose proof H as []. apply conc_set_w; auto. destruct cc_wf0 as (l & a & ss & rs & []).
    exists l, a, ss, rs. constructor; assumption.
  - destruct H. constructor; assumption.
  - pose proof H as []. apply conc_set_w; auto. destruct cc_wf0 as (l & a & ss & rs & []).
    exists l, a, ss, rs. constructor; assumption.
Qed.

Lemma conc_init : wal_wf w0 -> d_io w0 = [] -> - 2 ^ 63 <= d_now w0 < 2 ^ 63 -> conc (init w0).
Proof.
  intros. constructor; cbn; auto; try set_solver; try lia; try discriminate.
  - exists []. rewrite app_nil_r. split; [reflexivity|constructor].
  - constructor.
Qed.
End Inv.

(** ** What a step keeps *)
Definition returned (x : option (appendReq * pc)) : Prop :=
  match x with Some (_, Returned _) => True | _ => False end.

Lemma step_mono s s' : step s s' ->
  (length (calls s) <= length (calls s'))%nat /\ written s `prefix_of` written s'
  /\ (forall i x, calls s !! i = Some x -> returned (Some x) -> calls s' !! i = Some x).
Proof.
  intros Hs. destruct Hs as [q s|i q s Hi|i q s Hi Hlt|i q s Hi|i q s Hi Hx|i q r s Hi Hr|i q s Hi|i q s Hi Hx
    |s s' Hw|s Hw Hq|s|s Hcl|t s Ht];
    try (split_and!; [apply Nat.eq_le_incl; symmetry; apply length_alter|reflexivity|];
         intros j x Hj Hx'; rewrite <- Hj; apply list_lookup_alter_ne; intros ->;
         rewrite Hi in Hj; injection Hj as <-; exact Hx');
    try (split_and!; [reflexivity|reflexivity|auto]; fail).
  - cbn. rewrite length_app. split_and!; [lia|reflexivity|]. intros i x H _. apply lookup_app_l_Some, H.
  - destruct Hw; cbn; split_and!; auto; try reflexivity. apply prefix_app_r. reflexivity.
Qed.

Lemma steps_mono s s' : steps s s' ->
  (length (calls s) <= length (calls s'))%nat /\ written s `prefix_of` written s'
  /\ (forall i x, calls s !! i = Some x -> returned (Some x) -> calls s' !! i = Some x).
Proof.
  induction 1 as [s|s s1 s2 H1 _ (L & P & R)]; [split_and!; auto|].
  apply step_mono in H1 as (L1 & P1 & R1). split_and!; [lia|etransitivity; eauto|eauto].
Qed.

Lemma conc_steps w0 s s' : conc w0 s -> steps s s' -> next (log w0) + Z.of_nat (length (calls s')) < 2 ^ 64 -> conc w0 s'.
Proof.
  intros H Hs. induction Hs as [s|s s1 s2 H1 H2 IH]; intros Hb; [exact H|].
  pose proof (steps_mono _ _ H2) as (L & _). pose proof (step_mono _ _ H1) as (L1 & _).
  apply IH; [|exact Hb]. eapply conc_step; [exact H| |exact H1]. lia.
Qed.

End WalConc.
