(* ===== verification/WalRetain.v ===== *)
(** * Retention drops a prefix of sealed segments (internal/wal/retention.go)

    Dropping the oldest sealed segment keeps the log's invariant, so
    [Retain] does, at whatever segment it stops. *)
From S2P Require Import Prelude GoStrings Hash Monad WalSegment Wal WalInv WalCrash WalRun.
Import Segment Wal WalInv WalCrash WalRun.

Module WalRetain.

Definition total_bytes (ss : list segMeta) : Z := foldr (fun s t => bytes s + t) 0 ss.

(** The state after the oldest segment [m] is gone. *)
Definition dropped_head (m : segMeta) (rest : list segMeta) (s : St) : St :=
  mkSt (delete (segmentName (base m)) (d_files s)) (d_io s) (d_now s)
    (set_segs rest (log s)).

Lemma repr_drop_head max files m sealed a rs srss ars :
  repr max files (m :: sealed) a (rs :: srss) ars ->
  repr max (delete (segmentName (base m)) files) sealed a srss ars.
Proof.
  intros H. pose proof (repr_sorted _ _ _ _ _ _ H) as Hsort.
  pose proof (repr_base_range _ _ _ _ _ _ H) as Hrange.
  simpl app in Hsort, Hrange. cbn [map] in Hsort, Hrange.
  apply Forall_cons_1 in Hrange as [Hbm Hrange].
  inversion Hsort as [|? ? Hsort' Hlt]; subst.
  assert (Hfresh : base m ∉ map base (sealed ++ [a])).
  { intros Hin. rewrite Forall_forall in Hlt. specialize (Hlt _ Hin). lia. }
  destruct H as [Hs (f & Hf & Ha) Hc Hn]. inversion Hs as [|? ? ? ? Hm Hs']; subst.
  constructor.
  - apply Forall2_sealed_delete; auto. intros Hin. apply Hfresh. rewrite map_app.
    apply elem_of_app. auto.
  - exists f. split; [|exact Ha]. rewrite lookup_delete_ne; [exact Hf|].
    intros E. apply segmentName_inj in E; [|exact Hbm|eapply seg_base_range, Ha].
    apply Hfresh. rewrite E, map_app. apply elem_of_app. right. left.
  - eapply chain_ok_tail, Hc.
  - intros b Hb. rewrite lookup_delete_is_Some. specialize (Hn b Hb). split.
    + intros [Hne Hb']. apply Hn in Hb'. simpl app in Hb'. cbn [map] in Hb'.
      apply elem_of_cons in Hb' as [->|Hb']; [congruence|exact Hb'].
    + intros Hin. split; [|apply Hn; right; exact Hin].
      intros E. apply segmentName_inj in E; [|exact Hbm|exact Hb]. subst. contradiction.
Qed.

Lemma inv_drop_head s m sealed a rs srss ars :
  inv s (m :: sealed) a (rs :: srss) ars ->
  inv (dropped_head m (sealed ++ [a]) s) sealed a srss ars.
Proof.
  intros [Hr Hsegs Hact Hn Hm]. constructor; auto. cbn. eapply repr_drop_head, Hr.
Qed.

Lemma os_remove_ok s name f :
  d_io s = [] -> d_files s !! name = Some f ->
  os_remove name s = (with_files (delete name (d_files s)) s, inr tt).
Proof.
  intros Hio Hf. unfold os_remove. rewrite (bind_ok _ _ _ _ _ (syscall_ok _ Hio)).
  rewrite (bind_ok _ _ _ _ _ (get_file_ok _ _ _ Hf)). apply set_files_eq.
Qed.

(** What Retain says of its result [n], from the state [s] to [s']. *)
Record retained (p : RetentionPolicy) (s s' : St) (n : nat) : Prop := {
  rt_wf : wal_wf s';
  rt_io : d_io s' = [];
  rt_segs : segs (log s') = drop n (segs (log s));
  rt_active : (n < length (segs (log s)))%nat;
  rt_next : next (log s') = next (log s);
  rt_records : exists gone, log_records s = gone ++ log_records s'
    /\ Forall (fun r => Offset r < MinRetainOffset p) gone }.

Lemma retained_refl p s : wal_wf s -> d_io s = [] -> retained p s s 0.
Proof.
  intros Hwf Hio. constructor; auto.
  - destruct Hwf as (l & a & ss & rs & [_ -> _ _ _]). rewrite length_app. simpl. lia.
  - exists []. split; [reflexivity|constructor].
Qed.

Lemma newest_pure s f m :
  d_io s = [] -> d_files s !! segmentName (base m) = Some f ->
  exists t, try (segmentNewestTime m) s = (s, inr (inr t)).
Proof.
  intros Hio Hf. unfold try, segmentNewestTime.
  rewrite (bind_ok _ _ _ _ _ (os_open_ok _ _ _ Hio Hf)), (bind_ok _ _ _ _ _ (syscall_ok _ Hio)).
  eexists. reflexivity.
Qed.

(** Whether the size rule asks for the oldest segment. *)
Definition over_size (p : RetentionPolicy) (total : Z) : bool :=
  (0 <? MaxBytes p) && (MaxBytes p <? total).

(** One turn, at a segment that is not the last. *)
Lemma retain_loop_turn s rest p now total deleted :
  rest <> [] ->
  retain_loop (s :: rest) p now total deleted
  = (if MinRetainOffset p <? end_ s then ret (deleted, None)
     else
       let! overAge :=
         (if 0 <? MaxAge p then
            let! r := try (segmentNewestTime s) in
            match r with inr newest => ret (MaxAge p <? now - newest) | inl _ => ret false end
          else ret false) in
       if negb (over_size p total) && negb overAge then ret (deleted, None)
       else
         let! r := try (os_remove (segmentName (base s))) in
         match r with
         | inl e => ret (deleted, Some e)
         | inr _ =>
             set_log (set_segs rest) ;;
             retain_loop rest p now (total - bytes s) (deleted + 1)
         end).
Proof. destruct rest; [congruence|reflexivity]. Qed.

Lemma retained_drop p m sealed a rs srss ars s s' n f :
  inv s (m :: sealed) a (rs :: srss) ars -> seg_repr (MaxRecordBytes (opts (log s))) m rs f ->
  end_ m = base m + Z.of_nat (length rs) -> end_ m <= MinRetainOffset p ->
  retained p (dropped_head m (sealed ++ [a]) s) s' n -> retained p s s' (S n).
Proof.
  intros Hinv Hm He Hge [W1 W2 W3 W4 W5 (gone & W6 & W7)]. pose proof (iv_segs _ _ _ _ _ Hinv) as Hsegs.
  constructor; auto.
  - rewrite W3, Hsegs. reflexivity.
  - rewrite Hsegs. simpl. cbn in W4. lia.
  - exists (rs ++ gone). rewrite <- app_assoc, <- W6. split.
    + rewrite (inv_log_records _ _ _ _ _ Hinv), (inv_log_records _ _ _ _ _ (inv_drop_head _ _ _ _ _ _ _ Hinv)).
      cbn [concat]. symmetry. apply app_assoc.
    + apply Forall_app. split; [|exact W7]. apply Forall_lookup_2. intros i r Hi.
      pose proof (lookup_lt_Some _ _ _ Hi). destruct Hm.
      rewrite <- sr_num0 in Hi. unfold numbered in Hi. rewrite list_lookup_imap in Hi.
      destruct (rs !! i); [|discriminate]. injection Hi as <-. cbn. lia.
Qed.
Lemma retain_loop_ok p now sealed : forall s a srss ars total deleted,
  d_io s = [] -> inv s sealed a srss ars -> total = total_bytes (sealed ++ [a]) ->
  exists s' n, retain_loop (sealed ++ [a]) p now total deleted s
      = (s', inr (deleted + Z.of_nat n, None))
    /\ retained p s s' n
    /\ (over_size p (total_bytes (segs (log s'))) = true ->
        exists m rest, segs (log s') = m :: rest /\ (rest = [] \/ MinRetainOffset p < end_ m)).
Proof.
  induction sealed as [|m sealed IH]; intros s a srss ars total deleted Hio Hinv Ht.
  { exists s, 0%nat. cbn. rewrite Z.add_0_r. split; [reflexivity|].
    split; [apply retained_refl; [do 4 eexists; exact Hinv|exact Hio]|].
    intros _. rewrite (iv_segs _ _ _ _ _ Hinv). eauto. }
  pose proof (iv_segs _ _ _ _ _ Hinv) as Hsegs.
  assert (Hstop : retained p s s 0)
    by (apply retained_refl; [do 4 eexists; exact Hinv|exact Hio]).
  pose proof (iv_repr _ _ _ _ _ Hinv) as [Hs _ _ _].
  inversion Hs as [|? rs ? srss' (f & Hf & Hm & _ & _) _]; subst.
  pose proof (seg_end _ _ _ _ Hm) as He.
  simpl app. rewrite retain_loop_turn by (destruct sealed; discriminate).
  destruct (Z.ltb_spec (MinRetainOffset p) (end_ m)) as [Hlt|Hge].
  { exists s, 0%nat. rewrite Z.add_0_r. split; [reflexivity|]. split; [exact Hstop|].
    intros _. rewrite Hsegs. simpl. eauto. }
  set (age := if 0 <? MaxAge p then _ else _).
  assert (Hage : exists b, age s = (s, inr b)).
  { unfold age. destruct (0 <? MaxAge p); [|eauto].
    destruct (newest_pure s f m Hio Hf) as [t Ht]. rewrite (bind_ok _ _ _ _ _ Ht). eauto. }
  destruct Hage as [b Hb]. rewrite (bind_ok _ _ _ _ _ Hb). clearbody age.
  destruct (negb (over_size p _) && negb b) eqn:Ebr.
  - exists s, 0%nat. rewrite Z.add_0_r. split; [reflexivity|]. split; [exact Hstop|].
    rewrite Hsegs. intros Hov. simpl app in Hov. rewrite Hov in Ebr. discriminate.
  - unfold try at 1. unfold bind at 1. rewrite (os_remove_ok _ _ _ Hio Hf).
    unfold bind at 1, set_log at 1, modify at 1.
    fold (dropped_head m (sealed ++ [a]) s).
    destruct (IH (dropped_head m (sealed ++ [a]) s) a srss' ars
      (total_bytes (m :: sealed ++ [a]) - bytes m) (deleted + 1)) as (s' & n & Hl & Hret & Hfin);
      [exact Hio|apply (inv_drop_head _ _ _ _ rs), Hinv|unfold total_bytes; cbn [foldr]; lia|].
    exists s', (S n). split_and!; [|eapply retained_drop; eassumption|exact Hfin].
    etransitivity; [exact Hl|]. do 3 f_equal; lia.
Qed.

End WalRetain.
