(* ===== verification/WalReader.v ===== *)
(** * Consumers of the log (internal/wal/reader.go)

    A [Reader] has an in-memory position, the cursor of its open segment file
    and a persisted offset file. The offset files live in a directory of
    their own, [r_offs]. An open reader file is followed by its name, which
    is also what the log's segment list refers to. *)
From S2P Require Import Prelude GoStrings Hash Monad WalSegment Wal.
Import Segment Wal Crc.

Module Reader.

(** ** Data *)
Record Cursor := mkCursor { fBase : Z; fOffset : Z; bytePos : Z }.

Record Reader := mkReader {
  name : string; pos : Z; committed : Z;
  cur : option Cursor }.           (* r.f with its three cursor fields; None is nil *)

Inductive rd_error :=
  | ErrNoRecord | RErrCorrupt | ErrNotOnDisk | ErrBadName | ErrReopen
  | RErrNotExist | RErrIO.

Record RSt := mkRSt { r_st : St; r_offs : gmap string (list byte); r_rd : Reader }.

Definition R := M RSt rd_error.

(** A system call of the log's process. *)
Definition rsys : R unit := fun s =>
  let '(st, r) := syscall (r_st s) in
  (mkRSt st (r_offs s) (r_rd s), match r with inl _ => inl RErrIO | inr _ => inr tt end).

Definition set_rd (f : Reader -> Reader) : R unit :=
  modify (fun s => mkRSt (r_st s) (r_offs s) (f (r_rd s))).
Definition set_cur (c : option Cursor) (r : Reader) : Reader :=
  mkReader (name r) (pos r) (committed r) c.
Definition set_pos (p : Z) (r : Reader) : Reader :=
  mkReader (name r) p (committed r) (cur r).
Definition set_committed (c : Z) (r : Reader) : Reader :=
  mkReader (name r) (pos r) c (cur r).

(** ** Offset files *)
Definition offMagic : list byte := list_byte_of_string "LESROFF1".

Definition offset_bytes (offset : Z) : list byte :=
  let o := le_bytes 8 (u64 offset) in offMagic ++ o ++ le_bytes 4 (crc32c o).

(** The checks of readOffsetFile on the file's content. *)
Definition parse_offset (b : list byte) : option Z :=
  if negb (Z.of_nat (length b) =? 20) || negb (bool_decide (take 8 b = offMagic)) then None
  else
    let o := take 8 (drop 8 b) in
    if negb (crc32c o =? le_Z (take 4 (drop 16 b))) then None else Some (le_Z o).

Definition readOffsetFile (path : string) : R Z :=
  rsys ;;
  (let! s := get in
   match r_offs s !! path with
   | None => throw RErrNotExist
   | Some b => match parse_offset b with None => throw RErrCorrupt | Some o => ret o end
   end).

Definition set_off (g : gmap string (list byte) -> gmap string (list byte)) : R unit :=
  modify (fun s => mkRSt (r_st s) (g (r_offs s)) (r_rd s)).

(** The outcome of the next write, with the prefix it stored on failure. *)
Definition rnext_io : R ioRes := fun s =>
  let '(st, r) := next_io (r_st s) in
  (mkRSt st (r_offs s) (r_rd s), match r with inl _ => inl RErrIO | inr o => inr o end).

(** writeOffsetFile: open the temporary file (truncating it), write, fsync,
    close, rename over the offset file. *)
Definition writeOffsetFile (path : string) (offset : Z) : R unit :=
  let tmp := (path +:+ ".tmp")%string in
  let b := offset_bytes offset in
  rsys ;;
  (set_off (insert tmp []) ;;
   (let! o := rnext_io in
    match o with
    | IoFail k => set_off (insert tmp (take k b)) ;; throw RErrIO
    | IoOk =>
        set_off (insert tmp b) ;;
        (rsys (* f.Sync *) ;; (rsys (* f.Close *) ;;
         (rsys (* os.Rename *) ;;
          set_off (fun m => delete tmp (<[path := b]> m)))))
    end)).

Definition offsetPath (n : string) : string := (n +:+ ".offset")%string.

(** ** NewReader *)
Definition contains_sep (n : string) : bool :=
  existsb (fun c => bool_decide (c = "/"%char) || bool_decide (c = "\"%char))
    (list_ascii_of_string n).

Definition NewReader (n : string) : R unit :=
  if bool_decide (n = ""%string) || contains_sep n then throw ErrBadName
  else
    rsys (* os.MkdirAll *) ;;
    (set_rd (fun _ => mkReader n 0 0 None) ;;
     (let! r := try (readOffsetFile (offsetPath n)) in
      let! s := get in
      let oldest := OldestOffset (log (r_st s)) in
      (match r with
       | inr off => set_rd (fun r => set_committed off (set_pos off r))
       | inl RErrNotExist => set_rd (fun r => set_committed oldest (set_pos oldest r))
       | inl e => throw e
       end) ;;
      (* If retention already deleted data past the stored offset, jump forward. *)
      set_rd (fun r => if pos r <? oldest then set_pos oldest r else r))).

(** ** Next *)

(** What the open segment file holds. *)
Definition cur_file (b : Z) : R (list byte) :=
  rsys (* Stat *) ;;
  (let! s := get in
   match d_files (r_st s) !! segmentName b with
   | None => throw RErrIO
   | Some f => ret (f_data f)
   end).

(** The loop of skipTo; it runs at most [offset - fOffset] times. *)
Fixpoint skip_loop (fuel : nat) (f : list byte) (maxRecord offset : Z) : R unit :=
  match fuel with
  | O => ret tt
  | S fuel =>
      let! s := get in
      match cur (r_rd s) with
      | None => throw RErrIO
      | Some c =>
          if fOffset c <? offset then
            match scanRecord f (bytePos c) (Z.of_nat (length f)) maxRecord (fOffset c) with
            | None => throw RErrCorrupt
            | Some (_, next) =>
                set_rd (set_cur (Some (mkCursor (fBase c) (u64 (fOffset c + 1)) next))) ;;
                skip_loop fuel f maxRecord offset
            end
          else ret tt
      end
  end.

Definition skipTo (offset : Z) : R unit :=
  let! s := get in
  match cur (r_rd s) with
  | None => throw RErrIO
  | Some c =>
      let! f := cur_file (fBase c) in
      skip_loop (S (Z.to_nat (offset - fOffset c))) f
        (MaxRecordBytes (opts (log (r_st s)))) offset
  end.

Definition reopen (b offset : Z) : R unit :=
  set_rd (set_cur None) ;;
  (rsys (* os.Open *) ;;
   (let! s := get in
    match d_files (r_st s) !! segmentName b with
    | None => throw RErrIO
    | Some f =>
        match readSegmentHeader (f_data f) with
        | inl _ => throw ErrReopen
        | inr hb =>
            if negb (hb =? b) then throw ErrReopen
            else set_rd (set_cur (Some (mkCursor b b segHeaderLen))) ;; skipTo offset
        end
    end)).

(** position ensures the open file is the segment containing offset, with
    the cursor at that record. *)
Definition position (offset : Z) : R unit :=
  let! s := get in
  match segmentFor (log (r_st s)) offset with
  | None => throw ErrNotOnDisk
  | Some seg =>
      match cur (r_rd s) with
      | Some c =>
          if (fBase c =? base seg) && (fOffset c <=? offset) then skipTo offset
          else reopen (base seg) offset
      | None => reopen (base seg) offset
      end
  end.

Definition Next : R Record :=
  let! s := get in
  if LatestOffset (log (r_st s)) <=? pos (r_rd s) then throw ErrNoRecord
  else
    position (pos (r_rd s)) ;;
    (let! s := get in
     match cur (r_rd s) with
     | None => throw RErrIO
     | Some c =>
         let! f := cur_file (fBase c) in
         match scanRecord f (bytePos c) (Z.of_nat (length f))
                 (MaxRecordBytes (opts (log (r_st s)))) (fOffset c) with
         | None => throw ErrNoRecord
         | Some (rec, next) =>
             set_rd (fun r => set_pos (u64 (pos r + 1))
               (set_cur (Some (mkCursor (fBase c) (u64 (fOffset c + 1)) next)) r)) ;;
             ret rec
         end
     end).

(** ** Commit, Lag, ConsumerOffset, Close *)
Definition Commit : R unit :=
  let! s := get in
  let p := pos (r_rd s) in
  writeOffsetFile (offsetPath (name (r_rd s))) p ;; set_rd (set_committed p).

Definition Lag (s : RSt) : Z :=
  let head := LatestOffset (log (r_st s)) in
  if head <=? pos (r_rd s) then 0 else head - pos (r_rd s).

(** [(offset, ok)] of the code; [None] is [ok = false]. *)
Definition ConsumerOffset (n : string) : R (option Z) :=
  let! r := try (readOffsetFile (offsetPath n)) in
  match r with
  | inr off => ret (Some off)
  | inl RErrNotExist => ret None
  | inl e => throw e
  end.

Definition CloseReader : R unit :=
  let! s := get in
  match cur (r_rd s) with
  | None => ret tt
  | Some _ => let! r := try rsys in
              set_rd (set_cur None) ;;
              match r with inl e => throw e | inr _ => ret tt end
  end.

End Reader.
