(* ===== verification/WalReaderInv.v ===== *)
(** * Consumers read the log's records in order

    The segments of a log in the invariant cover its offsets without gaps;
    [segmentFor]'s binary search finds the one that holds an offset, and a
    reader's cursor walks the records of its file one by one. *)
From S2P Require Import Prelude GoStrings Hash Monad WalSegment Wal WalInv WalReader.
Import Segment Wal WalInv Reader.

Module ReaderInv.

(** ** The chain of segments *)
Section Chain.
Context (max : Z) (files : gmap string File).

Lemma ends_sorted ms rss :
  Forall2 (active_repr max files) ms rss -> chain_ok ms = true ->
  StronglySorted Z.le (map end_ ms).
Proof.
  induction 1 as [|m rs ms rss (f & _ & Hm) Hms IH]; intros Hc; [constructor|].
  cbn [map]. pose proof (IH (chain_ok_tail _ _ Hc)) as Hss.
  constructor; [exact Hss|]. destruct Hms as [|m' rs' ms rss (f' & _ & Hm') Hms]; [constructor|].
  apply chain_ok_cons in Hc as [He _]. pose proof (seg_end _ _ _ _ Hm') as He'.
  cbn [map] in *. inversion Hss as [|? ? _ Hf]; subst.
  constructor; [lia|]. eapply Forall_impl; [exact Hf|]. simpl. lia.
Qed.

(** The segment of an offset, and where its record is in the whole log. *)
Lemma locate ms rss m0 off :
  Forall2 (active_repr max files) ms rss -> chain_ok ms = true ->
  head ms = Some m0 -> base m0 <= off ->
  (exists ml, last ms = Some ml /\ off < end_ ml) ->
  exists i m rs, ms !! i = Some m /\ rss !! i = Some rs
    /\ base m <= off < end_ m
    /\ (forall k m', (k < i)%nat -> ms !! k = Some m' -> end_ m' <= off)
    /\ concat rss !! Z.to_nat (off - base m0) = rs !! Z.to_nat (off - base m).
Proof.
  intros H. revert m0. induction H as [|m rs ms rss (f & Hf & Hm) Hms IH];
    intros m0 Hc Hh Hlo Hhi; [discriminate|].
  injection Hh as <-. pose proof (seg_end _ _ _ _ Hm) as He.
  destruct (Z.lt_ge_cases off (end_ m)) as [Hlt|Hge].
  - exists 0%nat, m, rs. split_and!; auto; [lia|].
    cbn [concat]. rewrite lookup_app_l by lia. reflexivity.
  - destruct ms as [|m' ms].
    { destruct Hhi as (ml & Hl & Hlt). injection Hl as <-. lia. }
    apply chain_ok_cons in Hc as [Hb Hc].
    destruct (IH m' Hc eq_refl) as (i & x & xs & Hi & Hxs & Hx & Hbelow & Hlook);
      [lia|exact Hhi|].
    exists (S i), x, xs. split_and!; auto; try lia.
    + intros [|k] mk Hk Hmk; [injection Hmk as <-; lia|]. eapply Hbelow; eauto. lia.
    + cbn [concat]. rewrite <- Hlook, lookup_app_r by lia. f_equal. lia.
Qed.
End Chain.

(** The segments of a log and their records, the active one included. *)
Lemma inv_chain s sealed a srss ars :
  inv s sealed a srss ars ->
  Forall2 (active_repr (MaxRecordBytes (opts (log s))) (d_files s)) (segs (log s)) (srss ++ [ars])
  /\ chain_ok (segs (log s)) = true.
Proof.
  intros [[Hs Ha Hc _] Hsegs _ _ _]. rewrite Hsegs. split; [|exact Hc].
  apply Forall2_app; [|constructor; auto].
  eapply Forall2_impl; [exact Hs|]. intros m rs (f & Hf & Hm & _). exists f. auto.
Qed.

Lemma inv_OldestOffset s sealed a srss ars :
  inv s sealed a srss ars -> exists m0, head (segs (log s)) = Some m0
    /\ OldestOffset (log s) = base m0.
Proof.
  intros [_ Hsegs _ _ _]. unfold OldestOffset. rewrite Hsegs.
  destruct sealed as [|m sealed]; simpl; eauto.
Qed.

Lemma concat_snoc {A} (ls : list (list A)) l : concat (ls ++ [l]) = concat ls ++ l.
Proof. rewrite concat_app. simpl. rewrite app_nil_r. reflexivity. Qed.

Lemma segmentFor_mono s sealed a srss ars off :
  inv s sealed a srss ars ->
  let f i := match segs (log s) !! i with Some m => off <? end_ m | None => true end in
  forall i j, (i <= j)%nat -> f i = true -> f j = true.
Proof.
  intros Hinv f i j Hij Hi. destruct (inv_chain _ _ _ _ _ Hinv) as [Hms Hc].
  pose proof (ends_sorted _ _ _ _ Hms Hc) as Hss. subst f. cbn beta in *.
  destruct (segs (log s) !! j) as [mj|] eqn:Ej; [|reflexivity].
  destruct (segs (log s) !! i) as [mi|] eqn:Ei.
  - apply Z.ltb_lt in Hi. apply Z.ltb_lt. destruct (Nat.eq_dec i j) as [<-|Hne].
    + congruence.
    + assert (end_ mi <= end_ mj); [|lia].
      eapply (StronglySorted_lookup Z.le (end_ <$> segs (log s)) i j); [exact Hss| | |lia];
        rewrite list_lookup_fmap; [rewrite Ei|rewrite Ej]; reflexivity.
  - apply lookup_ge_None in Ei. apply lookup_lt_Some in Ej. lia.
Qed.

(** segmentFor finds the segment that holds the record at [off]. *)
Lemma segmentFor_ok s sealed a srss ars off :
  inv s sealed a srss ars -> OldestOffset (log s) <= off < LatestOffset (log s) ->
  exists i m rs, segs (log s) !! i = Some m /\ (srss ++ [ars]) !! i = Some rs
    /\ segmentFor (log s) off = Some m
    /\ base m <= off < base m + Z.of_nat (length rs)
    /\ log_records s !! Z.to_nat (off - OldestOffset (log s)) = rs !! Z.to_nat (off - base m).
Proof.
  intros Hinv Hoff. destruct (inv_chain _ _ _ _ _ Hinv) as [Hms Hc].
  destruct (inv_OldestOffset _ _ _ _ _ Hinv) as (m0 & Hh & Hold). rewrite Hold in *.
  assert (Hlast : exists ml, last (segs (log s)) = Some ml /\ off < end_ ml).
  { exists a. destruct Hinv as [_ -> _ Hn _]. rewrite last_snoc. unfold LatestOffset in Hoff.
    rewrite Hn in Hoff. split; [reflexivity|lia]. }
  destruct (locate _ _ _ _ m0 off Hms Hc Hh ltac:(lia) Hlast)
    as (i & m & rs & Hi & Hrs & Hm & Hbelow & Hlook).
  destruct (Forall2_lookup_lr _ _ _ _ _ _ Hms Hi Hrs) as (f & Hf & Hrepr).
  pose proof (seg_end _ _ _ _ Hrepr) as He.
  exists i, m, rs. split_and!; auto; try lia.
  - unfold segmentFor. erewrite (Search_unique _ (segmentFor_mono _ _ _ _ _ off Hinv) _ i).
    + rewrite Hi. zcases; reflexivity.
    + pose proof (lookup_lt_Some _ _ _ Hi). lia.
    + intros k Hk. destruct (segs (log s) !! k) as [mk|] eqn:Ek.
      * specialize (Hbelow k mk Hk Ek). zcases; reflexivity.
      * apply lookup_ge_None in Ek. apply lookup_lt_Some in Hi. lia.
    + intros _. rewrite Hi. zcases; reflexivity.
  - rewrite (inv_log_records _ _ _ _ _ Hinv), <- concat_snoc. exact Hlook.
Qed.

(** ** The cursor *)

(** Where the [j]-th record of a segment with records [rs] starts. *)
Definition rec_pos (rs : list Record) (j : nat) : Z := 20 + Z.of_nat (length (encs (take j rs))).

(** A cursor into a segment of the log stands at the start of the record its
    [fOffset] names; a cursor into a file the log no longer lists is free. No
    cursor is in a file younger than the active segment. *)
Definition cursor_ok (ms : list segMeta) (rss : list (list Record)) (c : Cursor) : Prop :=
  forall i m rs, ms !! i = Some m -> rss !! i = Some rs -> fBase c = base m ->
    exists j, (j <= length rs)%nat /\ fOffset c = base m + Z.of_nat j /\ bytePos c = rec_pos rs j.

Definition reader_ok (s : RSt) : Prop :=
  exists sealed a srss ars, inv (r_st s) sealed a srss ars
    /\ d_io (r_st s) = []
    /\ OldestOffset (log (r_st s)) <= pos (r_rd s) <= LatestOffset (log (r_st s))
    /\ match cur (r_rd s) with
       | Some c => cursor_ok (sealed ++ [a]) (srss ++ [ars]) c /\ fBase c <= base a | None => True end.

Lemma listed_le max files sealed a srss ars i m :
  repr max files sealed a srss ars -> (sealed ++ [a]) !! i = Some m -> base m <= base a.
Proof.
  intros H Hi. apply list_elem_of_lookup_2, elem_of_app in Hi as [Hi|Hi%list_elem_of_singleton]; [|subst; lia].
  apply Z.lt_le_incl, (last_base_max _ _ (repr_sorted _ _ _ _ _ _ H)), list_elem_of_fmap. eauto.
Qed.

Lemma numbered_lookup b rs j r :
  numbered b rs = rs -> rs !! j = Some r -> Offset r = b + Z.of_nat j.
Proof.
  intros Hn Hj. unfold numbered in Hn. rewrite <- Hn, list_lookup_imap in Hj.
  destruct (rs !! j) as [r'|]; [|discriminate]. injection Hj as <-. reflexivity.
Qed.

(** Scanning at the cursor gives the record there and the next position. *)
Lemma scan_at max m rs f j r :
  seg_repr max m rs f -> rs !! j = Some r ->
  scanRecord (f_data f) (rec_pos rs j) (Z.of_nat (length (f_data f))) max (base m + Z.of_nat j)
  = Some (r, rec_pos rs (S j)).
Proof.
  intros Hm Hj. destruct Hm. pose proof (lookup_lt_Some _ _ _ Hj) as Hlt.
  assert (Hsplit : f_data f = (segment_header (base m) ++ encs (take j rs)) ++ enc r
                     ++ encs (drop (S j) rs)).
  { rewrite sr_data0, <- (take_drop_middle _ _ _ Hj) at 1.
    rewrite encs_app, encs_cons, app_assoc. reflexivity. }
  assert (Hp : rec_pos rs j = Z.of_nat (length (segment_header (base m) ++ encs (take j rs))))
    by (unfold rec_pos; rewrite length_app, length_segment_header; lia).
  rewrite Hsplit, Hp, scanRecord_enc by (eapply Forall_lookup_1; eauto).
  f_equal. f_equal.
  - pose proof (numbered_lookup _ _ _ _ sr_num0 Hj) as <-. destruct r; reflexivity.
  - unfold rec_pos. rewrite (take_S_r _ _ _ Hj), encs_app, encs_cons, !length_app,
      length_segment_header. simpl. lia.
Qed.

Lemma rsys_ok s : d_io (r_st s) = [] -> rsys s = (s, inr tt).
Proof.
  intros H. unfold rsys. rewrite (syscall_ok _ H). destruct s; reflexivity.
Qed.

Lemma cur_file_ok s b f :
  d_io (r_st s) = [] -> d_files (r_st s) !! segmentName b = Some f ->
  cur_file b s = (s, inr (f_data f)).
Proof.
  intros Hio Hf. unfold cur_file. rewrite (bind_ok _ _ _ _ _ (rsys_ok _ Hio)).
  unfold bind, get. rewrite Hf. reflexivity.
Qed.

Definition with_cur (c : option Cursor) (s : RSt) : RSt :=
  mkRSt (r_st s) (r_offs s) (set_cur c (r_rd s)).

Lemma with_cur_twice c c' s : with_cur c (with_cur c' s) = with_cur c s.
Proof. reflexivity. Qed.
Lemma with_cur_same c s : cur (r_rd s) = c -> with_cur c s = s.
Proof. intros <-. destruct s as [? ? []]. reflexivity. Qed.

(** skipTo walks the cursor from record [j] to record [k]. *)
Lemma skip_loop_ok fuel s max m rs f j k :
  seg_repr max m rs f -> (j <= k <= length rs)%nat -> (k - j < fuel)%nat ->
  cur (r_rd s) = Some (mkCursor (base m) (base m + Z.of_nat j) (rec_pos rs j)) ->
  skip_loop fuel (f_data f) max (base m + Z.of_nat k) s
  = (with_cur (Some (mkCursor (base m) (base m + Z.of_nat k) (rec_pos rs k))) s, inr tt).
Proof.
  intros Hm. revert s j. induction fuel as [|fuel IH]; intros s j Hjk Hfuel Hc; [lia|].
  cbn [skip_loop]. unfold bind at 1, get. rewrite Hc. cbn [fOffset bytePos fBase].
  destruct (Nat.eq_dec j k) as [->|Hne].
  - rewrite Z.ltb_irrefl, with_cur_same by exact Hc. reflexivity.
  - rewrite (proj2 (Z.ltb_lt _ _)) by lia.
    destruct (lookup_lt_is_Some_2 rs j) as [r Hr]; [lia|].
    rewrite (scan_at _ _ _ _ _ _ Hm Hr). unfold bind at 1, set_rd, modify.
    fold (with_cur (Some (mkCursor (base m) (u64 (base m + Z.of_nat j + 1)) (rec_pos rs (S j)))) s).
    rewrite (IH _ (S j)); [apply f_equal2; [apply with_cur_twice|reflexivity]|lia|lia|].
    cbn. repeat f_equal. destruct Hm. rewrite u64_small; lia.
Qed.

Lemma skipTo_ok s m rs f j k :
  d_io (r_st s) = [] -> d_files (r_st s) !! segmentName (base m) = Some f ->
  seg_repr (MaxRecordBytes (opts (log (r_st s)))) m rs f -> (j <= k <= length rs)%nat ->
  cur (r_rd s) = Some (mkCursor (base m) (base m + Z.of_nat j) (rec_pos rs j)) ->
  skipTo (base m + Z.of_nat k) s
  = (with_cur (Some (mkCursor (base m) (base m + Z.of_nat k) (rec_pos rs k))) s, inr tt).
Proof.
  intros Hio Hf Hm Hjk Hc. unfold skipTo. unfold bind at 1, get. rewrite Hc. cbn [fBase fOffset].
  rewrite (bind_ok _ _ _ _ _ (cur_file_ok _ _ _ Hio Hf)).
  apply (skip_loop_ok _ _ _ _ _ _ j); auto. lia.
Qed.

Lemma reopen_ok s m rs f k :
  d_io (r_st s) = [] -> d_files (r_st s) !! segmentName (base m) = Some f ->
  seg_repr (MaxRecordBytes (opts (log (r_st s)))) m rs f -> (k <= length rs)%nat ->
  reopen (base m) (base m + Z.of_nat k) s
  = (with_cur (Some (mkCursor (base m) (base m + Z.of_nat k) (rec_pos rs k))) s, inr tt).
Proof.
  intros Hio Hf Hm Hk. unfold reopen. unfold bind at 1, set_rd at 1, modify at 1.
  fold (with_cur None s). rewrite (bind_ok _ _ _ _ _ (rsys_ok (with_cur None s) Hio)).
  unfold bind at 1, get. cbn [with_cur r_st]. rewrite Hf.
  rewrite (sr_data _ _ _ _ Hm), readSegmentHeader_header by apply (seg_base_range _ _ _ _ Hm).
  rewrite Z.eqb_refl. cbn [negb]. unfold bind at 1, set_rd at 1, modify at 1.
  rewrite (skipTo_ok _ m rs f 0 k); auto; [lia|].
  cbn. rewrite Z.add_0_r. reflexivity.
Qed.

Lemma position_ok s sealed a srss ars off :
  inv (r_st s) sealed a srss ars -> d_io (r_st s) = [] ->
  OldestOffset (log (r_st s)) <= off < LatestOffset (log (r_st s)) ->
  match cur (r_rd s) with
  | Some c => cursor_ok (sealed ++ [a]) (srss ++ [ars]) c | None => True end ->
  exists i m rs j f,
    (sealed ++ [a]) !! i = Some m /\ (srss ++ [ars]) !! i = Some rs
    /\ d_files (r_st s) !! segmentName (base m) = Some f
    /\ seg_repr (MaxRecordBytes (opts (log (r_st s)))) m rs f
    /\ off = base m + Z.of_nat j /\ (j < length rs)%nat
    /\ log_records (r_st s) !! Z.to_nat (off - OldestOffset (log (r_st s))) = rs !! j
    /\ position off s
       = (with_cur (Some (mkCursor (base m) off (rec_pos rs j))) s, inr tt).
Proof.
  intros Hinv Hio Hoff Hcur. destruct (inv_chain _ _ _ _ _ Hinv) as [Hms _].
  destruct (segmentFor_ok _ _ _ _ _ off Hinv Hoff) as (i & m & rs & Hi & Hrs & Hsf & Hin & Hlook).
  destruct (Forall2_lookup_lr _ _ _ _ _ _ Hms Hi Hrs) as (f & Hf & Hm).
  assert (Hi' : (sealed ++ [a]) !! i = Some m) by (destruct Hinv as [_ <- _ _ _]; exact Hi).
  exists i, m, rs, (Z.to_nat (off - base m)), f. split_and!; auto; try lia.
  replace off with (base m + Z.of_nat (Z.to_nat (off - base m))) by lia.
  set (k := Z.to_nat (off - base m)). replace (Z.to_nat (base m + Z.of_nat k - base m)) with k by lia.
  assert (Hk : (k <= length rs)%nat) by lia.
  unfold position. unfold bind at 1, get.
  replace (segmentFor _ (base m + Z.of_nat k)) with (Some m) by (rewrite <- Hsf; f_equal; lia).
  destruct (cur (r_rd s)) as [c|] eqn:Ec; [|apply (reopen_ok _ _ _ f); auto].
  destruct ((fBase c =? base m) && (fOffset c <=? base m + Z.of_nat k)) eqn:E;
    [|apply (reopen_ok _ _ _ f); auto].
  apply andb_true_iff in E as [Eb%Z.eqb_eq Eo%Z.leb_le].
  destruct (Hcur _ _ _ Hi' Hrs Eb) as (j & Hj & Hfo & Hbp).
  apply (skipTo_ok _ _ _ f j); auto; [lia|].
  rewrite Ec. destruct c as [cb co cp]. cbn in *. congruence.
Qed.

(** Next at a position before the head: it returns the record of that
    offset and moves one further; the log is untouched. *)
Lemma Next_reads s :
  reader_ok s -> pos (r_rd s) < LatestOffset (log (r_st s)) ->
  exists s' r, Next s = (s', inr r)
    /\ log_records (r_st s) !! Z.to_nat (pos (r_rd s) - OldestOffset (log (r_st s))) = Some r
    /\ Offset r = pos (r_rd s)
    /\ r_st s' = r_st s /\ r_offs s' = r_offs s
    /\ (committed (r_rd s') = committed (r_rd s) /\ name (r_rd s') = name (r_rd s))
    /\ pos (r_rd s') = pos (r_rd s) + 1 /\ reader_ok s'.
Proof.
  intros (sealed & a & srss & ars & Hinv & Hio & Hpos & Hcur) Hlt.
  assert (Hcur' : match cur (r_rd s) with
    | Some c => cursor_ok (sealed ++ [a]) (srss ++ [ars]) c | None => True end)
    by (destruct (cur (r_rd s)); [apply Hcur|exact I]).
  destruct (position_ok s _ _ _ _ (pos (r_rd s)) Hinv Hio ltac:(lia) Hcur')
    as (i & m & rs & j & f & Hi & Hrs & Hf & Hm & Hoff & Hj & Hlook & Hposn).
  destruct (lookup_lt_is_Some_2 rs j Hj) as [r Hr].
  pose proof (seg_base_range _ _ _ _ Hm) as Hbr. pose proof (sr_bound _ _ _ _ Hm) as Hb.
  unfold Next. unfold bind at 1, get.
  rewrite (proj2 (Z.leb_gt _ _)) by lia. rewrite (bind_ok _ _ _ _ _ Hposn).
  unfold bind at 1, get. cbn [with_cur r_rd cur set_cur]. cbn [fBase fOffset bytePos].
  rewrite (bind_ok _ _ _ _ _ (cur_file_ok (with_cur _ s) _ f Hio Hf)). cbn [r_st].
  pose proof (scan_at _ _ _ _ _ _ Hm Hr) as Hscan. rewrite <- Hoff in Hscan.
  cbn [with_cur r_st r_rd log]. rewrite Hscan.
  do 2 eexists. split; [reflexivity|]. cbn. split_and!; auto.
  - rewrite Hlook. exact Hr.
  - rewrite (numbered_lookup _ _ _ _ (sr_num _ _ _ _ Hm) Hr). lia.
  - apply u64_small. lia.
  - exists sealed, a, srss, ars. cbn. rewrite !u64_small by lia.
    pose proof (listed_le _ _ _ _ _ _ _ _ (iv_repr _ _ _ _ _ Hinv) Hi) as Hle.
    split_and!; auto; try lia. intros i' m' rs' Hi' Hrs' Hb'. cbn in Hb'.
    assert (i' = i) as ->.
    { pose proof (repr_sorted _ _ _ _ _ _ (iv_repr _ _ _ _ _ Hinv)) as Hss.
      destruct (Nat.lt_trichotomy i' i) as [Hc|[Hc|Hc]]; [|exact Hc|];
        eapply (StronglySorted_lookup Z.lt) in Hss; try exact Hc;
        try (change (map base) with (fmap (M := list) base); rewrite list_lookup_fmap;
             first [rewrite Hi|rewrite Hi']; reflexivity); lia. }
    rewrite Hi in Hi'. rewrite Hrs in Hrs'. injection Hi' as <-. injection Hrs' as <-.
    exists (S j). cbn. split_and!; auto; lia.
Qed.

Lemma Next_at_head s :
  LatestOffset (log (r_st s)) <= pos (r_rd s) -> Next s = (s, inl ErrNoRecord).
Proof.
  intros H. unfold Next, bind, get. rewrite (proj2 (Z.leb_le _ _)) by lia. reflexivity.
Qed.

(** Reading [n] times. *)
Fixpoint next_n (n : nat) : R (list Record) :=
  match n with
  | O => ret []
  | S n => let! r := Next in let! rs := next_n n in ret (r :: rs)
  end.

Lemma next_n_reads n s :
  reader_ok s -> pos (r_rd s) + Z.of_nat n <= LatestOffset (log (r_st s)) ->
  exists s', next_n n s
      = (s', inr (take n (drop (Z.to_nat (pos (r_rd s) - OldestOffset (log (r_st s))))
                             (log_records (r_st s)))))
    /\ r_st s' = r_st s /\ r_offs s' = r_offs s /\ pos (r_rd s') = pos (r_rd s) + Z.of_nat n
    /\ reader_ok s'.
Proof.
  revert s. induction n as [|n IH]; intros s Hok Hn.
  - exists s. cbn [next_n]. rewrite take_0. split_and!; auto; lia.
  - destruct (Next_reads s Hok ltac:(lia)) as (s1 & r & H1 & Hr & _ & Hst & Hoffs & _ & Hp & Hok1).
    destruct (IH s1 Hok1) as (s2 & H2 & Hst2 & Ho2 & Hp2 & Hok2); [rewrite Hst, Hp; lia|].
    exists s2. split_and!; [|congruence..|lia|exact Hok2].
    cbn [next_n]. rewrite (bind_ok _ _ _ _ _ H1), (bind_ok _ _ _ _ _ H2). unfold ret.
    rewrite Hst, Hp. destruct Hok as (? & ? & ? & ? & _ & _ & Hpos & _).
    rewrite (drop_S _ _ _ Hr), firstn_cons. repeat f_equal. lia.
Qed.

End ReaderInv.
