(* ===== verification/WalProps.v ===== *)
(** * What the log promises

    The properties of the write-ahead log and its consumers, each with a
    witness on a small concrete log. The lemmas they rest on are in
    [WalSegment], [WalInv], [WalCrash], [WalRun], [WalRetain] and
    [WalReaderInv]. *)
From S2P Require Import Prelude GoStrings Hash Monad WalSegment Wal WalInv WalCrash.
From S2P Require Import WalRun WalRetain WalReader WalReaderInv.
Import Segment Wal WalInv WalCrash WalRun WalRetain Crc Reader ReaderInv.

Module WalProps.

(** ** A concrete log for the witnesses: two records per segment *)
Definition ex_opts : Options := mkOptions 60 64 0 0 SyncBatched 0 false 0.
Definition ex_req (s : string) : appendReq := mkReq x01 (list_byte_of_string s).
Definition ex_batch : list appendReq := [ex_req "a"; ex_req "bb"; ex_req "ccc"].
Definition ex_open : St := fst (Open ex_opts (boot ∅ 7 ex_opts)).
Definition ex_log : St := fst (writeBatch ex_batch ex_open).

Lemma ex_open_eq : Open ex_opts (boot ∅ 7 ex_opts) = (ex_open, inr tt).
Proof. unfold ex_open. vm_compute. reflexivity. Qed.
Lemma ex_log_eq : writeBatch ex_batch ex_open = (ex_log, inr [0; 1; 2]).
Proof. unfold ex_log. vm_compute. reflexivity. Qed.

Lemma ex_open_wf : wal_wf ex_open /\ d_io ex_open = [].
Proof.
  destruct (Open_empty ex_opts 7 eq_refl) as (s & Hs & Hinv & _ & Hio); [reflexivity|].
  rewrite ex_open_eq in Hs. injection Hs as <-. split; [do 4 eexists; exact Hinv|exact Hio].
Qed.

Lemma ex_open_batch_ok : batch_ok ex_open ex_batch.
Proof. vm_compute. repeat constructor; discriminate. Qed.

Lemma ex_log_run : run ex_opts (acked_batch 7 [0; 1; 2] ex_batch) ex_log.
Proof.
  assert (Hn : d_now ex_open = 7) by (vm_compute; reflexivity). rewrite <- Hn.
  apply (run_append ex_opts [] ex_open ex_batch ex_log [0; 1; 2]); [|discriminate|apply ex_open_batch_ok|apply ex_log_eq].
  eapply run_open, ex_open_eq.
Qed.

Lemma ex_log_wf : wal_wf ex_log /\ d_io ex_log = [].
Proof.
  destruct (run_run_inv ex_opts _ _ eq_refl ltac:(reflexivity) ltac:(discriminate) ex_log_run).
  auto.
Qed.

(** ** Durability *)

(** C1: whatever the life of a log is (batches, clock ticks, crashes between
    or inside batches, reopens), as long as its policy fsyncs before it
    acknowledges, every acknowledged record is in the log at the offset it was
    acknowledged with, and the acknowledged offsets are strictly
    increasing. *)
Theorem acknowledged_records_survive o acked s :
  ReadOnly o = false -> MaxRecordBytes (defaults o) < 2 ^ 32 -> Policy o <> SyncInterval ->
  run o acked s ->
  Forall (fun r => log_records s !! Z.to_nat (Offset r) = Some r) acked
  /\ StronglySorted Z.lt (map Offset acked).
Proof.
  intros Hro Hm HP Hrun. destruct (run_run_inv o acked s Hro Hm HP Hrun) as [Hwf _ _ _ Hack Hsort].
  split; [|exact Hsort]. eapply Forall_impl; [exact Hack|]. intros r [_ Hr].
  eapply prefix_lookup_Some; [exact Hr|]. apply durable_prefix, Hwf.
Qed.

Lemma acknowledged_records_survive_witness :
  Forall (fun r => log_records ex_log !! Z.to_nat (Offset r) = Some r)
    (acked_batch 7 [0; 1; 2] ex_batch)
  /\ StronglySorted Z.lt (map Offset (acked_batch 7 [0; 1; 2] ex_batch)).
Proof.
  apply (acknowledged_records_survive ex_opts);
    [reflexivity|reflexivity|discriminate|exact ex_log_run].
Defined.

(** C7: after a crash of a well-formed log, opening the directory succeeds,
    with a well-formed log that holds a prefix of the records written and all
    of those that were fsynced. *)
Theorem open_recovers_after_crash o s files' now :
  ReadOnly o = false -> opts (log s) = defaults o -> wal_wf s -> crash (d_files s) files' ->
  exists s', Open o (boot files' now o) = (s', inr tt) /\ wal_wf s'
    /\ durable_records s `prefix_of` log_records s'
    /\ log_records s' `prefix_of` log_records s.
Proof.
  intros Hro Ho Hwf Hc. destruct (load_after_crash s files' now Hwf Hc) as (s' & Hl & Hwf' & _ & _ & Hd & Hlog & _).
  exists s'. rewrite Open_boot, <- Ho by exact Hro. split_and!; auto.
  etransitivity; [exact Hd|]. apply durable_prefix, Hwf'.
Qed.

(** The crash of the witness tears the last record of the active segment, of
    which nothing was fsynced after its header. *)
Definition ex_unsynced : St :=
  fst (write_all 7 ex_batch (fst (Open ex_opts (boot ∅ 7 ex_opts)))).
Definition ex_torn : gmap string File :=
  alter (fun f => mkFile (take 30 (f_data f)) (f_synced f)) (segmentName 2) (d_files ex_unsynced).

Lemma ex_unsynced_wf : wal_wf ex_unsynced.
Proof.
  destruct ex_open_wf as [(l & a & ss & rs & Hinv) Hio].
  destruct (write_all_ok ex_batch _ _ _ _ _ 7 Hio Hinv) as (s' & l' & a' & ss' & rs' & Hw & Hinv' & _).
  - vm_compute. reflexivity.
  - repeat constructor; vm_compute; discriminate.
  - unfold ex_unsynced. fold ex_open. rewrite Hw. do 4 eexists. exact Hinv'.
Qed.

(** Cutting one file anywhere above its synced length is a crash. *)
Lemma crash_cut files name k :
  map_Forall (fun n f => (f_synced f <= length (f_data f))%nat
    /\ (n = name -> (f_synced f <= k <= length (f_data f))%nat)) files ->
  crash files (alter (fun f => mkFile (take k (f_data f)) (f_synced f)) name files).
Proof.
  intros H n. destruct (decide (n = name)) as [->|Hne].
  - rewrite lookup_alter_eq. destruct (files !! name) as [f|] eqn:E; [|reflexivity].
    destruct (H _ _ E) as [H1 H2]. specialize (H2 eq_refl).
    right. exists k, (f_synced f). split; [lia|]. split; [lia|reflexivity].
  - rewrite lookup_alter_ne by congruence. destruct (files !! n) as [f|] eqn:E; [|reflexivity].
    right. exists (length (f_data f)), (f_synced f). rewrite take_ge by lia.
    destruct (H _ _ E) as [H1 _]. destruct f. auto.
Qed.

Lemma ex_torn_crash : crash (d_files ex_unsynced) ex_torn.
Proof. apply crash_cut. refine (bool_decide_unpack _ _). vm_compute. exact I. Qed.

Lemma open_recovers_after_crash_witness :
  exists s', Open ex_opts (boot ex_torn 9 ex_opts) = (s', inr tt) /\ wal_wf s'
    /\ durable_records ex_unsynced `prefix_of` log_records s'
    /\ log_records s' `prefix_of` log_records ex_unsynced.
Proof.
  apply open_recovers_after_crash;
    [reflexivity|vm_compute; reflexivity|exact ex_unsynced_wf|exact ex_torn_crash].
Defined.

(** ** Appends *)

(** C14: writing a batch of records within the size limit on a working disk
    succeeds, keeps the log well-formed, appends exactly the batch to the
    log's records, stamped with the batch's time, and returns their
    consecutive offsets; unless the policy is SyncInterval everything is
    durable when it returns. *)
Theorem writeBatch_appends s batch :
  wal_wf s -> d_io s = [] -> batch <> [] -> batch_ok s batch ->
  exists s' offs, writeBatch batch s = (s', inr offs) /\ wal_wf s'
    /\ offs = map (fun i => LatestOffset (log s) + Z.of_nat i) (seq 0 (length batch))
    /\ log_records s' = log_records s ++ acked_batch (d_now s) offs batch
    /\ LatestOffset (log s') = LatestOffset (log s) + Z.of_nat (length batch)
    /\ (Policy (opts (log s)) <> SyncInterval -> durable_records s' = log_records s').
Proof.
  intros (l & a & ss & rs & Hinv) Hio Hne Hok.
  destruct (writeBatch_ok _ _ _ _ _ batch Hio Hinv ltac:(apply Hok) (batch_ok_req _ _ Hok))
    as (s' & l' & a' & ss' & rs' & Hw & Hinv' & Hcat & Hn & _ & _ & Hsy).
  do 2 eexists. split; [exact Hw|]. split_and!; auto.
  - do 4 eexists. exact Hinv'.
  - rewrite acked_batch_records, (inv_log_records _ _ _ _ _ Hinv), (inv_log_records _ _ _ _ _ Hinv').
    exact Hcat.
  - intros HP. eapply active_synced_durable; eauto.
Qed.

Lemma writeBatch_appends_witness :
  exists s' offs, writeBatch ex_batch ex_open = (s', inr offs) /\ wal_wf s'
    /\ offs = map (fun i => LatestOffset (log ex_open) + Z.of_nat i) (seq 0 (length ex_batch))
    /\ log_records s' = log_records ex_open ++ acked_batch (d_now ex_open) offs ex_batch
    /\ LatestOffset (log s') = LatestOffset (log ex_open) + Z.of_nat (length ex_batch)
    /\ (Policy (opts (log ex_open)) <> SyncInterval -> durable_records s' = log_records s').
Proof.
  apply (writeBatch_appends ex_open ex_batch);
    [exact (proj1 ex_open_wf)|exact (proj2 ex_open_wf)|discriminate|exact ex_open_batch_ok].
Defined.

(** ** Records on disk *)

(** C21: the scanner finds a record at a position exactly when the file holds
    there the encoding of a record whose body is within the limit and 32
    bits; it returns that record and the position behind it. *)
Theorem scanRecord_decodes_exactly maxRecord f pos off r next :
  0 <= pos ->
  (scanRecord f pos (Z.of_nat (length f)) maxRecord off = Some (r, next)
   <-> exists pre post, f = pre ++ appendRecord (Time r) (Type_ r) (Payload r) ++ post
         /\ pos = Z.of_nat (length pre)
         /\ next = pos + recHeaderLen + bodyFixedLen + Z.of_nat (length (Payload r))
         /\ Offset r = off /\ rec_ok maxRecord r).
Proof.
  intros Hpos. pose proof (length_enc r) as Hlen. unfold rec_len in Hlen. split.
  - intros (pre & post & -> & -> & -> & Ho & Hok)%scanRecord_Some; [|exact Hpos].
    exists pre, post. split_and!; auto. rewrite length_app. lia.
  - intros (pre & post & -> & -> & -> & Ho & Hok). fold (enc r).
    rewrite scanRecord_enc by exact Hok. subst off. f_equal. f_equal; [destruct r; reflexivity|].
    rewrite length_app. lia.
Qed.

Lemma scanRecord_decodes_exactly_witness :
  exists pre post, appendRecord 5 x01 [x61] = pre ++ appendRecord 5 x01 [x61] ++ post
    /\ 0 = Z.of_nat (length pre)
    /\ 18 = 0 + recHeaderLen + bodyFixedLen + Z.of_nat (length [x61])
    /\ 3 = 3 /\ rec_ok 64 (mkRecord 3 5 x01 [x61]).
Proof.
  apply (scanRecord_decodes_exactly 64 (appendRecord 5 x01 [x61]) 0 3 (mkRecord 3 5 x01 [x61]) 18);
    [lia|vm_compute; reflexivity].
Defined.

(** a segment file cut at any byte behind its header is scanned to the
    records that lie wholly within the cut, no more and no fewer: what
    recovery truncates to. *)
Theorem scan_of_cut_segment maxRecord b rs k :
  Forall (rec_ok maxRecord) rs -> Z.of_nat (length rs) < 2 ^ 64 ->
  (20 <= k <= length (segment_header b ++ encs rs))%nat ->
  exists n, (n <= length rs)%nat
    /\ scanSegment (take k (segment_header b ++ encs rs)) maxRecord
       = (Z.of_nat n, Z.of_nat (length (segment_header b ++ encs (take n rs))))
    /\ (length (segment_header b ++ encs (take n rs)) <= k)%nat
    /\ forall m, (n < m <= length rs)%nat ->
         (k < length (segment_header b ++ encs (take m rs)))%nat.
Proof.
  intros Hok Hb Hk. rewrite length_app, length_segment_header in Hk.
  destruct (take_encs maxRecord rs (k - 20) Hok) as (t & Ht & Htorn).
  pose proof (whole_le rs (k - 20)) as Hw.
  exists (whole rs (k - 20)). split; [exact Hw|].
  rewrite take_app_ge by (rewrite length_segment_header; lia).
  rewrite length_segment_header, Ht. split_and!.
  - rewrite scanSegment_encs; auto using Forall_take; rewrite length_take; [f_equal|]; lia.
  - rewrite length_app, length_segment_header. pose proof (whole_length_le rs (k - 20)). lia.
  - intros m Hm. rewrite length_app, length_segment_header.
    destruct (Nat.lt_ge_cases (k - 20) (length (encs (take m rs)))) as [|Hge]; [lia|].
    apply whole_ge in Hge; lia.
Qed.

Definition ex_rs : list Record := [mkRecord 0 5 x01 [x61]; mkRecord 1 6 x02 []].
Lemma scan_of_cut_segment_witness :
  exists n, (n <= length ex_rs)%nat
    /\ scanSegment (take 40 (segment_header 0 ++ encs ex_rs)) 64
       = (Z.of_nat n, Z.of_nat (length (segment_header 0 ++ encs (take n ex_rs))))
    /\ (length (segment_header 0 ++ encs (take n ex_rs)) <= 40)%nat
    /\ forall m, (n < m <= length ex_rs)%nat ->
         (40 < length (segment_header 0 ++ encs (take m ex_rs)))%nat.
Proof.
  apply (scan_of_cut_segment 64 0 ex_rs 40);
    [repeat constructor; vm_compute; discriminate|vm_compute; reflexivity|vm_compute; lia].
Defined.

(** Two encodings of the same length prefix whose tails differ at one byte
    cannot both be encodings. *)
Lemma insert_split {A} (l : list A) i b :
  (i < length l)%nat -> exists x, l !! i = Some x
    /\ l = take i l ++ x :: drop (S i) l /\ <[i:=b]> l = take i l ++ b :: drop (S i) l.
Proof.
  intros Hi. destruct (lookup_lt_is_Some_2 l i Hi) as [x Hx].
  exists x. split_and!; [exact Hx|symmetry; apply take_drop_middle, Hx|apply insert_take_drop, Hi].
Qed.

Lemma enc_parts r :
  enc r = (le_bytes 4 (u32 (rec_len r)) ++ le_bytes 4 (crc32c (rec_body (Time r) (Type_ r) (Payload r))))
          ++ rec_body (Time r) (Type_ r) (Payload r).
Proof. rewrite <- app_assoc. reflexivity. Qed.

(** a record of which one byte of the checksum or the body changed is
    not read back: the scanner reports it torn, whatever surrounds it. *)
Theorem corrupt_record_rejected maxRecord pre r post i b off :
  rec_ok maxRecord r -> (4 <= i)%nat -> enc r !! i <> None -> enc r !! i <> Some b ->
  let f := pre ++ <[i:=b]> (enc r) ++ post in
  scanRecord f (Z.of_nat (length pre)) (Z.of_nat (length f)) maxRecord off = None.
Proof.
  intros Hok H4 Hin Hne f. destruct (scanRecord f _ _ _ _) as [[r' next]|] eqn:E; [exfalso|reflexivity].
  apply scanRecord_Some in E as (pre' & post' & Hf & Hp & _ & _ & Hok'); [|lia].
  unfold f in Hf. apply app_inj_1 in Hf as [_ Hf]; [|lia].
  assert (Hlen : Z.of_nat (length (enc r')) = Z.of_nat (length (enc r))).
  { rewrite !length_enc. f_equal. apply (f_equal (take 4)) in Hf.
    rewrite !take_app_le in Hf by (rewrite ?length_insert; apply Nat2Z.inj_le; rewrite length_enc;
      unfold rec_len, recHeaderLen, bodyFixedLen; lia).
    rewrite take_insert_ge in Hf by lia.
    rewrite !enc_parts, <- !app_assoc, !take_exact in Hf by apply length_le_bytes.
    apply (f_equal le_Z) in Hf. rewrite !le_Z_32 in Hf.
    destruct Hok as (_ & ? & _), Hok' as (_ & ? & _).
    rewrite !u32_small in Hf; rewrite ?u32_small; unfold rec_len, bodyFixedLen in *; lia. }
  apply Nat2Z.inj in Hlen.
  apply app_inj_1 in Hf as [Hf _]; [|rewrite length_insert; lia].
  assert (Hi : (i < length (enc r))%nat) by (apply lookup_lt_is_Some; destruct (enc r !! i); eauto; congruence).
  rewrite !enc_parts in Hf. rewrite enc_parts in Hne, Hi.
  set (body := rec_body (Time r) (Type_ r) (Payload r)) in *.
  set (body' := rec_body (Time r') (Type_ r') (Payload r')) in *.
  set (h := le_bytes 4 (u32 (rec_len r)) ++ le_bytes 4 (crc32c body)) in *.
  assert (Hh : length h = 8%nat) by reflexivity.
  destruct (Nat.lt_ge_cases i 8) as [Hlt|Hge].
  - rewrite insert_app_l in Hf by lia.
    apply app_inj_1 in Hf as [Hf Hb]; [|rewrite length_insert; reflexivity].
    unfold h in Hf. rewrite insert_app_r_alt in Hf by (rewrite length_le_bytes; lia).
    apply app_inj_1 in Hf as [_ Hf]; [|reflexivity]. rewrite length_le_bytes in Hf.
    rewrite <- Hb in Hf. apply Hne. rewrite lookup_app_l by lia. unfold h.
    rewrite lookup_app_r, length_le_bytes by (rewrite length_le_bytes; lia).
    rewrite <- Hf. apply list_lookup_insert_eq. rewrite length_le_bytes. lia.
  - rewrite insert_app_r_alt in Hf by lia.
    apply app_inj_1 in Hf as [Hf Hb]; [|reflexivity].
    unfold h in Hf. apply app_inj_1 in Hf as [_ Hc]; [|reflexivity].
    apply (f_equal le_Z) in Hc. rewrite !le_Z_32, !u32_small in Hc by apply crc32c_range.
    rewrite length_app in Hi.
    destruct (insert_split body (i - 8) b ltac:(lia)) as (x & Hx & Hb1 & Hb2).
    rewrite Hh in Hb. rewrite <- Hb, Hb2 in Hc. rewrite Hb1 in Hc at 1. apply crc32c_single_byte in Hc. subst x.
    apply Hne. rewrite lookup_app_r, Hh by lia. exact Hx.
Qed.

Lemma corrupt_record_rejected_witness :
  let f := [] ++ <[9%nat:=x7f]> (enc (mkRecord 0 5 x01 [x61])) ++ [] in
  scanRecord f 0 (Z.of_nat (length f)) 64 0 = None.
Proof.
  apply (corrupt_record_rejected 64 [] (mkRecord 0 5 x01 [x61]) [] 9 x7f 0);
    [repeat split; vm_compute; discriminate|lia|vm_compute; discriminate|vm_compute; discriminate].
Defined.

(** a file name is a segment's name exactly when parseSegmentName accepts
    it, and it then names that base and no other. *)
Theorem segment_names_bijective name b :
  0 <= b < 2 ^ 64 -> (parseSegmentName name = Some b <-> name = segmentName b).
Proof.
  intros Hb. split; [intros H; apply parseSegmentName_Some, H|].
  intros ->. apply parseSegmentName_segmentName, Hb.
Qed.

Lemma segment_names_bijective_witness :
  parseSegmentName "00000000000000000042.seg" = Some 42
  <-> "00000000000000000042.seg"%string = segmentName 42.
Proof. apply (segment_names_bijective "00000000000000000042.seg" 42). lia. Defined.

(** ** Consumers *)

(** C15: a consumer of a well-formed log that stands at an offset of the log
    reads, one Next after the other, exactly the records from there to the
    head, in order and across segment boundaries, and is then told that there
    is no further record; reading leaves the log and the committed offset
    alone. *)
Theorem reader_delivers_in_order s :
  reader_ok s ->
  let from := pos (r_rd s) - OldestOffset (log (r_st s)) in
  let n := Z.to_nat (LatestOffset (log (r_st s)) - pos (r_rd s)) in
  exists s', next_n n s = (s', inr (drop (Z.to_nat from) (log_records (r_st s))))
    /\ Next s' = (s', inl ErrNoRecord)
    /\ r_st s' = r_st s /\ r_offs s' = r_offs s
    /\ pos (r_rd s') = LatestOffset (log (r_st s)).
Proof.
  intros Hok from n. pose proof Hok as (l & a & ss & rs & Hinv & _ & Hpos & _).
  destruct (inv_next_oldest _ _ _ _ _ Hinv) as [Hn _]. unfold LatestOffset in *.
  destruct (next_n_reads n s Hok) as (s' & Hr & Hst & Ho & Hp & _); [unfold LatestOffset; lia|].
  exists s'. rewrite Hr. split_and!; auto.
  - repeat f_equal. apply take_ge. rewrite length_drop. lia.
  - apply Next_at_head. rewrite Hst, Hp. unfold LatestOffset. lia.
  - lia.
Qed.

(** A new consumer on the log of the witnesses. *)
Definition ex_reader : RSt := fst (NewReader "stream" (mkRSt ex_log ∅ (mkReader "" 0 0 None))).

Lemma ex_reader_ok : reader_ok ex_reader.
Proof.
  destruct ex_log_wf as [(l & a & ss & rs & Hinv) Hio]. exists l, a, ss, rs.
  assert (Hr : ex_reader = mkRSt ex_log ∅ (mkReader "stream" 0 0 None)).
  { unfold ex_reader. vm_compute. reflexivity. }
  rewrite Hr. split; [exact Hinv|]. split; [exact Hio|].
  split; [vm_compute; split; discriminate|exact I].
Qed.

Lemma reader_delivers_in_order_witness :
  let from := pos (r_rd ex_reader) - OldestOffset (log (r_st ex_reader)) in
  let n := Z.to_nat (LatestOffset (log (r_st ex_reader)) - pos (r_rd ex_reader)) in
  n = 3%nat /\
  exists s', next_n n ex_reader = (s', inr (drop (Z.to_nat from) (log_records (r_st ex_reader))))
    /\ Next s' = (s', inl ErrNoRecord)
    /\ r_st s' = r_st ex_reader /\ r_offs s' = r_offs ex_reader
    /\ pos (r_rd s') = LatestOffset (log (r_st ex_reader)).
Proof.
  intros from n. split; [vm_compute; reflexivity|].
  apply (reader_delivers_in_order ex_reader). exact ex_reader_ok.
Defined.

Lemma parse_offset_bytes o : 0 <= o < 2 ^ 64 -> parse_offset (offset_bytes o) = Some o.
Proof.
  intros Ho. unfold offset_bytes, parse_offset. rewrite u64_small by exact Ho.
  rewrite !length_app, !length_le_bytes. change (length offMagic) with 8%nat.
  rewrite take_exact by reflexivity. rewrite bool_decide_true by reflexivity. cbn [negb orb Nat.add].
  rewrite drop_exact, take_exact by (rewrite ?length_le_bytes; reflexivity).
  rewrite (app_assoc offMagic), drop_exact by reflexivity.
  rewrite firstn_all2 by (rewrite length_le_bytes; lia).
  rewrite le_Z_32, u32_small by apply crc32c_range.
  rewrite le_Z_64, u64_small by exact Ho. rewrite !Z.eqb_refl. reflexivity.
Qed.

(** A system call of a reader leaves the offset files and the reader alone. *)
Lemma rsys_cases s :
  exists st r, rsys s = (mkRSt st (r_offs s) (r_rd s), r) /\ (r = inl RErrIO \/ r = inr tt).
Proof. unfold rsys. destruct (syscall (r_st s)) as [st [e|[]]]; eauto. Qed.

Lemma rnext_io_cases s :
  exists st o, rnext_io s = (mkRSt st (r_offs s) (r_rd s), inr o).
Proof.
  unfold rnext_io, next_io. destruct (d_io (r_st s)) as [|o io]; eauto.
Qed.

Lemma bind_set_off {A} g (k : unit -> R A) s :
  bind (set_off g) k s = k tt (mkRSt (r_st s) (g (r_offs s)) (r_rd s)).
Proof. reflexivity. Qed.

(** Run the next system call of the goal's hypothesis [H]. *)
Ltac step_rsys H :=
  match type of H with
  | bind rsys _ ?s = _ =>
      let st := fresh "st" in let E := fresh "E" in
      destruct (rsys_cases s) as (st & ? & E & [-> | ->]);
      [rewrite (bind_err _ _ _ _ _ E) in H|rewrite (bind_ok _ _ _ _ _ E) in H]; clear E
  end.

Lemma tmp_ne path : (path +:+ ".tmp")%string <> path.
Proof.
  intros E. apply (f_equal String.length) in E. rewrite string_length_app in E. simpl in E. lia.
Qed.

(** The rename is the only step that touches the offset file itself. *)
Lemma writeOffsetFile_cases path off s s' r :
  writeOffsetFile path off s = (s', r) ->
  r_rd s' = r_rd s
  /\ match r with
     | inr _ => r_offs s' !! path = Some (offset_bytes off)
     | inl _ => r_offs s' !! path = r_offs s !! path
     end.
Proof.
  pose proof (tmp_ne path) as Htmp. unfold writeOffsetFile. intros H.
  step_rsys H; [injection H as <- <-; auto|]. rewrite bind_set_off in H. cbn [r_st r_offs r_rd] in H.
  destruct (rnext_io_cases (mkRSt st (<[(path +:+ ".tmp")%string:=[]]> (r_offs s)) (r_rd s)))
    as (st' & o & Eo).
  rewrite (bind_ok _ _ _ _ _ Eo) in H. destruct o as [|k]; rewrite bind_set_off in H.
  2:{ injection H as <- <-. cbn. rewrite !lookup_insert_ne by exact Htmp. auto. }
  do 3 (step_rsys H;
    [injection H as <- <-; cbn; rewrite !lookup_insert_ne by exact Htmp; auto|]).
  injection H as <- <-. cbn. rewrite lookup_delete_ne by exact Htmp.
  split; [reflexivity|apply lookup_insert_eq].
Qed.

(** C17: Commit is atomic and durable under every schedule of I/O failures: the
    consumer's offset file afterwards either is what it was, or reads back as
    the reader's position; the latter whenever Commit succeeds, and only then
    is the position remembered as committed. *)
Theorem commit_atomic s s' r :
  0 <= pos (r_rd s) < 2 ^ 64 -> Commit s = (s', r) ->
  let path := offsetPath (name (r_rd s)) in
  match r with
  | inr _ => committed (r_rd s') = pos (r_rd s)
      /\ exists b, r_offs s' !! path = Some b /\ parse_offset b = Some (pos (r_rd s))
  | inl _ => r_offs s' !! path = r_offs s !! path /\ r_rd s' = r_rd s
  end.
Proof.
  intros Hp H path. unfold Commit in H. unfold bind at 1, get in H. fold path in H.
  destruct (writeOffsetFile path (pos (r_rd s)) s) as [s1 [e|[]]] eqn:E;
    [rewrite (bind_err _ _ _ _ _ E) in H|rewrite (bind_ok _ _ _ _ _ E) in H];
    apply writeOffsetFile_cases in E as [Erd Eoff]; injection H as <- <-; [auto|].
  split; [reflexivity|]. exists (offset_bytes (pos (r_rd s))).
  split; [exact Eoff|apply parse_offset_bytes, Hp].
Qed.

(** The fsync of the temporary file fails: the old offset stays. *)
Definition ex_commit : RSt :=
  mkRSt (mkSt ∅ [IoOk; IoOk; IoFail 0] 0 (log ex_log))
    {[ "stream.offset"%string := offset_bytes 1 ]} (mkReader "stream" 3 1 None).
Lemma commit_atomic_witness :
  r_offs (fst (Commit ex_commit)) !! "stream.offset"%string = Some (offset_bytes 1).
Proof.
  assert (E : Commit ex_commit = (fst (Commit ex_commit), inl RErrIO)) by (vm_compute; reflexivity).
  exact (proj1 (commit_atomic ex_commit (fst (Commit ex_commit)) (inl RErrIO)
    ltac:(cbn; lia) E)).
Defined.

(** C16: retention on a working disk deletes the oldest segments only, never
    the active one; every record it deletes lies below MinRetainOffset, the
    log stays well-formed and its head where it was; and when it returns with
    the log still over the size limit, the oldest segment left is the active
    one or holds a record that must be retained. *)
Theorem retain_keeps_needed_records s p now :
  wal_wf s -> d_io s = [] ->
  exists s' n, Retain p now s = (s', inr (Z.of_nat n, None)) /\ wal_wf s'
    /\ segs (log s') = drop n (segs (log s)) /\ (n < length (segs (log s)))%nat
    /\ LatestOffset (log s') = LatestOffset (log s)
    /\ (exists gone, log_records s = gone ++ log_records s'
         /\ Forall (fun r => Offset r < MinRetainOffset p) gone)
    /\ (0 < MaxBytes p < total_bytes (segs (log s')) ->
         exists m rest, segs (log s') = m :: rest /\ (rest = [] \/ MinRetainOffset p < end_ m)).
Proof.
  intros (l & a & ss & rs & Hinv) Hio.
  destruct (retain_loop_ok p now l s a ss rs (total_bytes (l ++ [a])) 0 Hio Hinv eq_refl)
    as (s' & n & Hl & [W1 _ W3 W4 W5 W6] & Hsize).
  exists s', n. split_and!; auto.
  - unfold Retain, bind, get. rewrite (iv_segs _ _ _ _ _ Hinv). exact Hl.
  - intros [H1 H2]. apply Hsize. unfold over_size.
    rewrite (proj2 (Z.ltb_lt _ _) H1), (proj2 (Z.ltb_lt _ _) H2). reflexivity.
Qed.

Definition ex_policy : RetentionPolicy := mkRetention 1 0 2.
Lemma retain_keeps_needed_records_witness :
  exists s' n, Retain ex_policy 9 ex_log = (s', inr (Z.of_nat n, None)) /\ wal_wf s'
    /\ segs (log s') = drop n (segs (log ex_log)) /\ (n < length (segs (log ex_log)))%nat
    /\ LatestOffset (log s') = LatestOffset (log ex_log)
    /\ (exists gone, log_records ex_log = gone ++ log_records s'
         /\ Forall (fun r => Offset r < MinRetainOffset ex_policy) gone)
    /\ (0 < MaxBytes ex_policy < total_bytes (segs (log s')) ->
         exists m rest, segs (log s') = m :: rest
           /\ (rest = [] \/ MinRetainOffset ex_policy < end_ m)).
Proof.
  apply (retain_keeps_needed_records ex_log ex_policy 9);
    [exact (proj1 ex_log_wf)|exact (proj2 ex_log_wf)].
Defined.

(** ** The writer goroutine *)

Definition reqs_bytes (rs : list appendReq) : Z :=
  foldr (fun r t => recHeaderLen + bodyFixedLen + Z.of_nat (length (payload r)) + t) 0 rs.

Lemma collect_split max n arrived :
  let '(b, q) := collect max n arrived in
  arrived = b ++ q /\ (q = [] \/ max <= n + reqs_bytes b).
Proof.
  revert n. induction arrived as [|r rest IH]; intros n; cbn [collect]; [auto|].
  destruct (Z.ltb_spec n max) as [Hlt|Hge].
  - specialize (IH (n + recHeaderLen + bodyFixedLen + Z.of_nat (length (payload r)))).
    destruct (collect _ _ rest) as [b q]. destruct IH as [-> IH]. split; [reflexivity|].
    unfold reqs_bytes in *. cbn [foldr]. destruct IH as [->|IH]; [auto|]. right. lia.
  - split; [reflexivity|]. right. cbn. lia.
Qed.

Lemma answers_requests (batch : list appendReq) (offs : list Z) : length offs = length batch ->
  map fst (zip_with (fun q o => (q, inr o)) batch offs : list (appendReq * (wal_error + Z))) = batch.
Proof.
  revert offs. induction batch as [|q b IH]; intros [|o offs] Hl; try discriminate Hl; [reflexivity|].
  cbn. f_equal. apply IH. cbn in Hl. lia.
Qed.

(** one turn of the writer answers the requests it took, a prefix of
    those that arrived, each with the offset at which its own record is then
    in the log; it leaves requests queued only under SyncAlways or when the
    batch has reached MaxBatchBytes. *)
Theorem writeLoop_turn_answers s req arrived :
  wal_wf s -> d_io s = [] -> batch_ok s (req :: arrived) ->
  let '(s', (answers, queued)) := writeLoop_turn req arrived s in
  wal_wf s' /\ map fst answers ++ queued = req :: arrived
  /\ Forall (fun qa => exists o, snd qa = inr o
       /\ log_records s' !! Z.to_nat (o - OldestOffset (log s'))
          = Some (new_record o (d_now s) (fst qa))) answers
  /\ (queued = [] \/ Policy (opts (log s)) = SyncAlways
      \/ MaxBatchBytes (opts (log s)) <= reqs_bytes (map fst answers)).
Proof.
  intros Hwf Hio (Hc & Hnow & Hb). unfold writeLoop_turn.
  set (more_q := match Policy _ with SyncAlways => _ | _ => _ end).
  assert (Hmq : arrived = fst more_q ++ snd more_q
    /\ (snd more_q = [] \/ Policy (opts (log s)) = SyncAlways
        \/ MaxBatchBytes (opts (log s)) <= reqs_bytes (req :: fst more_q))).
  { pose proof (collect_split (MaxBatchBytes (opts (log s)))
      (recHeaderLen + bodyFixedLen + Z.of_nat (length (payload req))) arrived) as H.
    unfold more_q. destruct (Policy (opts (log s))); auto;
      destruct (collect _ _ arrived) as [b q]; destruct H as [-> H]; (split; [reflexivity|]);
      (destruct H as [->|H]; [auto|]; right; right; unfold reqs_bytes in *; cbn [foldr fst]; lia). }
  destruct more_q as [more queued]. cbn [fst snd] in Hmq. destruct Hmq as [-> Hq].
  set (batch := req :: more) in *.
  assert (Hok : batch_ok s batch).
  { repeat split; try apply Hnow; unfold batch.
    - rewrite app_comm_cons in Hc. apply Forall_app in Hc as [Hc _]. exact Hc.
    - cbn [length] in *. rewrite length_app in Hb. lia. }
  destruct Hwf as (l & a & ss & rs & Hinv).
  destruct (writeBatch_ok _ _ _ _ _ batch Hio Hinv ltac:(apply Hok) (batch_ok_req _ _ Hok))
    as (s' & l' & a' & ss' & rs' & Hw & Hinv' & Hcat & Hn & _).
  rewrite Hw. cbv beta iota zeta. set (offs := map _ _) in *.
  rewrite <- (inv_log_records _ _ _ _ _ Hinv), <- (inv_log_records _ _ _ _ _ Hinv') in Hcat.
  destruct (inv_next_oldest _ _ _ _ _ Hinv) as [Ho _].
  destruct (inv_next_oldest _ _ _ _ _ Hinv') as [Ho' _].
  rewrite Hcat, length_app, length_batch_records in Ho'.
  assert (Hlen : length offs = length batch) by (unfold offs; rewrite length_map, length_seq; reflexivity).
  rewrite (answers_requests batch offs Hlen). split_and!; auto.
  - do 4 eexists. exact Hinv'.
  - apply Forall_lookup_2. intros i qa Hqa.
    apply lookup_zip_with_Some in Hqa as (q & o & -> & Hq' & Ho2).
    exists o. split; [reflexivity|]. cbn [fst].
    assert (o = next (log s) + Z.of_nat i) as ->.
    { unfold offs in Ho2. change map with (@fmap list _) in Ho2.
      apply list_lookup_fmap_Some in Ho2 as (j & -> & Hj). apply lookup_seq in Hj. lia. }
    rewrite Hcat, lookup_app_r by lia.
    replace (_ - _)%nat with i by lia.
    rewrite <- acked_batch_records. unfold acked_batch. fold offs.
    apply lookup_zip_with_Some. do 2 eexists. split; [reflexivity|]. auto.
Qed.

Lemma writeLoop_turn_answers_witness :
  let '(s', (answers, queued)) := writeLoop_turn (ex_req "a") [ex_req "bb"] ex_open in
  wal_wf s' /\ map fst answers ++ queued = [ex_req "a"; ex_req "bb"]
  /\ Forall (fun qa => exists o, snd qa = inr o
       /\ log_records s' !! Z.to_nat (o - OldestOffset (log s'))
          = Some (new_record o (d_now ex_open) (fst qa))) answers
  /\ (queued = [] \/ Policy (opts (log ex_open)) = SyncAlways
      \/ MaxBatchBytes (opts (log ex_open)) <= reqs_bytes (map fst answers)).
Proof.
  apply (writeLoop_turn_answers ex_open (ex_req "a") [ex_req "bb"]);
    [exact (proj1 ex_open_wf)|exact (proj2 ex_open_wf)|vm_compute; repeat constructor; discriminate].
Defined.

(** ** Where the log falls short *)

(** An append that fails after writing [k] bytes, one that succeeds, and a
    reopen: their results, and the records before and after the reopen. *)
Definition torn_append (k : nat) :=
  let '(s1, r1) := writeBatch [ex_req "a"] (mkSt (d_files ex_open) [IoFail k] 7 (log ex_open)) in
  let '(s2, r2) := writeBatch [ex_req "b"] (mkSt (d_files s1) [] 8 (log s1)) in
  let '(s3, r3) := Open ex_opts (boot (d_files s2) 9 ex_opts) in
  (r1, r2, r3, durable_records s2, log_records s3).

(** a write that fails after storing part of its record makes a later,
    successful append unrecoverable: writeBatch does not rewind the file, the
    next record goes behind the torn bytes, is acknowledged as durable, and
    the next Open truncates the file in front of it. Here for the first
    record of a log and every length of the partial write. *)
Theorem partial_write_loses_acknowledged k :
  k ∈ seq 1 17 -> torn_append k = (inl ErrIO, inr [0], inr tt, [], []).
Proof.
  intros H. assert (Hall : forallb (fun k => bool_decide
    (torn_append k = (inl ErrIO, inr [0], inr tt, [], []))) (seq 1 17) = true)
    by (vm_compute; reflexivity).
  rewrite forallb_forall in Hall. eapply bool_decide_eq_true_1, Hall, list_elem_of_In, H.
Qed.

Lemma partial_write_loses_acknowledged_witness :
  torn_append 5 = (inl ErrIO, inr [0], inr tt, [], []).
Proof. apply (partial_write_loses_acknowledged 5). apply elem_of_seq. lia. Defined.

(** a consumer whose committed offset lies beyond the head of the log
    (the log lost unsynced records that were already consumed, or restarted)
    is not moved back: it reports no record and no lag for every state of the
    log up to that offset, so the records appended there are never
    delivered. *)
Theorem reader_ahead_of_head_skips s n b off :
  n <> ""%string -> contains_sep n = false -> d_io (r_st s) = [] ->
  r_offs s !! offsetPath n = Some b -> parse_offset b = Some off ->
  OldestOffset (log (r_st s)) <= off ->
  exists s', NewReader n s = (s', inr tt) /\ pos (r_rd s') = off
    /\ forall st, LatestOffset (log st) <= off ->
         Lag (mkRSt st (r_offs s') (r_rd s')) = 0
         /\ Next (mkRSt st (r_offs s') (r_rd s'))
            = (mkRSt st (r_offs s') (r_rd s'), inl ErrNoRecord).
Proof.
  intros Hn Hsep Hio Hb Hp Hold.
  exists (mkRSt (r_st s) (r_offs s) (mkReader n off off None)). split_and!.
  - unfold NewReader. rewrite bool_decide_false by exact Hn. rewrite Hsep. cbn [orb].
    rewrite (bind_ok _ _ _ _ _ (rsys_ok _ Hio)). unfold bind at 1, set_rd at 1, modify at 1.
    set (s1 := mkRSt _ _ _). unfold bind at 1, try.
    assert (Hread : readOffsetFile (offsetPath n) s1 = (s1, inr off)).
    { unfold readOffsetFile. rewrite (bind_ok _ _ _ _ _ (rsys_ok s1 Hio)).
      unfold bind, get, s1. cbn [r_offs]. rewrite Hb, Hp. reflexivity. }
    rewrite Hread. unfold bind, get, set_rd, modify, s1. cbn. rewrite (proj2 (Z.ltb_ge _ _)) by exact Hold.
    reflexivity.
  - reflexivity.
  - intros st Hst. split; [|apply Next_at_head; exact Hst].
    unfold Lag. cbn. rewrite (proj2 (Z.leb_le _ _)) by exact Hst. reflexivity.
Qed.

Definition ex_ahead : RSt :=
  mkRSt ex_log {[ "stream.offset"%string := offset_bytes 9 ]} (mkReader "" 0 0 None).
Lemma reader_ahead_of_head_skips_witness :
  exists s', NewReader "stream" ex_ahead = (s', inr tt) /\ pos (r_rd s') = 9
    /\ forall st, LatestOffset (log st) <= 9 ->
         Lag (mkRSt st (r_offs s') (r_rd s')) = 0
         /\ Next (mkRSt st (r_offs s') (r_rd s'))
            = (mkRSt st (r_offs s') (r_rd s'), inl ErrNoRecord).
Proof.
  apply (reader_ahead_of_head_skips ex_ahead "stream" (offset_bytes 9) 9);
    [discriminate|reflexivity|exact (proj2 ex_log_wf)|vm_compute; reflexivity
    |vm_compute; reflexivity|vm_compute; discriminate].
Defined.

(** A segment that differs from a valid one in the version field only. *)
Definition ex_newer : gmap string File :=
  let d := segMagic ++ le_bytes 4 2 ++ le_bytes 8 0 ++ encs ex_rs in
  {[ segmentName 0 := mkFile d (length d) ]}.

(** load takes every unreadable header of the last segment for a torn
    one: a complete, fsynced segment of a newer format version is deleted
    with all its records, and the log restarts at offset 0, instead of
    failing with "unsupported version". *)
Theorem newer_version_segment_deleted :
  (exists f, ex_newer !! segmentName 0 = Some f /\ readSegmentHeader (f_data f) = inl (HdrVersion 2)
     /\ length (segment_records (f_data f) 0 64) = 2%nat)
  /\ let '(s, r) := Open ex_opts (boot ex_newer 9 ex_opts) in
     (r, log_records s, LatestOffset (log s), d_files s !! segmentName 0)
     = (inr tt, [], 0, Some (mkFile (segment_header 0) 0)).
Proof.
  split; [eexists; split; [apply lookup_singleton_eq|vm_compute; split; reflexivity]|].
  vm_compute. reflexivity.
Qed.

End WalProps.
