(* ===== verification/WalConcProps.v ===== *)
(** * Concurrent appends: what callers may rely on (internal/wal/wal.go)

    However Append, writeLoop and Close interleave, the answers callers get
    are those of a log that takes the calls one at a time ([written]); the
    writer never leaves a caller waiting; and the one answer that says less
    than it seems to, ErrClosed. *)
From S2P Require Import Prelude Hash Monad WalSegment Wal WalInv WalRun WalConc WalReader WalReaderInv WalProps.
Import Segment Wal WalInv WalRun WalConc ReaderInv WalProps.
#[local] Open Scope Z_scope.

Module WalConcProps.

(** ** Every reachable state *)
Section Reach.
Context (w0 : Wal.St) (Hwf : wal_wf w0) (Hio : d_io w0 = []) (Hnow : - 2 ^ 63 <= d_now w0 < 2 ^ 63).

Lemma reach_conc s : steps (init w0) s -> next (log w0) + Z.of_nat (length (calls s)) < 2 ^ 64 -> conc w0 s.
Proof. intros Hs. apply conc_steps with (init w0); auto using conc_init. Qed.

(** The record of a call that was answered. *)
Lemma good_record s i q p o : conc w0 s -> calls s !! i = Some (q, p) -> good w0 s i (inr o) ->
  exists r, log_records (w s) !! Z.to_nat (o - OldestOffset (log w0)) = Some r
    /\ Offset r = o /\ Type_ r = typ q /\ Payload r = payload q
    /\ (Policy (opts (log w0)) <> SyncInterval -> r ∈ durable_records (w s)).
Proof.
  intros H Hi (o' & [= <-] & Hle & Hw). destruct (cc_recs _ _ H) as (rs & E & F).
  destruct (Forall2_lookup_l _ _ _ _ _ F Hw) as (r & Hr & q' & p' & Hc & Ht & Hp).
  rewrite Hi in Hc. injection Hc as <- <-. destruct Hwf as (l0 & a0 & ss0 & rs0 & Hinv0).
  destruct (inv_next_oldest _ _ _ _ _ Hinv0) as [N0 _].
  destruct (cc_wf _ _ H) as (l & a & ss & rs' & Hinv). destruct (inv_next_oldest _ _ _ _ _ Hinv) as [_ Hnum].
  assert (Hlk : log_records (w s) !! Z.to_nat (o - OldestOffset (log w0)) = Some r).
  { rewrite E, lookup_app_r by lia. rewrite <- Hr. f_equal. lia. }
  exists r. split_and!; [exact Hlk| |exact Ht|exact Hp|].
  - rewrite (numbered_lookup _ _ _ _ Hnum Hlk), (cc_old _ _ H). lia.
  - intros HP. rewrite <- (cc_opts _ _ H) in HP. rewrite (cc_dur _ _ H); [eapply list_elem_of_lookup_2, Hlk| |exact HP].
    intros Hnil. rewrite Hnil in Hw. discriminate.
Qed.

(** A call made later has no record yet. *)
Lemma later_call_unwritten s i j : conc w0 s -> written s !! i = Some j -> (j < length (calls s))%nat.
Proof.
  intros H Hw. destruct (cc_sent _ _ H j) as (q & p & Hc & _); [|eapply lookup_lt_Some, Hc].
  apply elem_of_app. right. eapply list_elem_of_lookup_2, Hw.
Qed.
End Reach.

(** ** One call of Append *)

(** A call made in [s], whatever else happens until it has returned [r] in
    [s']. *)
Definition appends (q : appendReq) (s s' : Sys) (r : result) : Prop :=
  steps s s' /\ exists k, (length (calls s) <= k)%nat /\ calls s' !! k = Some (q, Returned r).

(** An offset means that the record is there. *)
Lemma appends_record w0 q s s' o :
  wal_wf w0 -> d_io w0 = [] -> - 2 ^ 63 <= d_now w0 < 2 ^ 63 -> steps (init w0) s ->
  appends q s s' (Answer (inr o)) -> next (log w0) + Z.of_nat (length (calls s')) < 2 ^ 64 ->
  exists r, log_records (w s') !! Z.to_nat (o - OldestOffset (log w0)) = Some r
    /\ Offset r = o /\ Type_ r = typ q /\ Payload r = payload q
    /\ (Policy (opts (log w0)) <> SyncInterval -> r ∈ durable_records (w s')).
Proof.
  intros Hwf Hio Hnow H0 (H1 & k & _ & Hk) Hb.
  assert (C : conc w0 s') by (apply reach_conc; auto; etransitivity; eauto).
  eapply good_record; eauto. eapply cc_ret; eauto.
Qed.

(** A call that gets its way: it is written at once if the writer is idle in
    front of an empty queue, and otherwise its context ends. *)
Definition solo (q : appendReq) (s : Sys) : Sys * result :=
  let k := length (calls s) in
  let s := set_calls (calls s ++ [(q, AtCheck)]) s in
  match append_check (log (w s)) (payload q) with
  | Some e => (goto k (Returned (Answer (inl e))) s, Answer (inl e))
  | None =>
      let s := goto k AtSend s in
      match wr s, queue s with
      | WIdle, [] =>
          if 0 <? MaxPending (opts_of s) then
            let s := goto k AtWait (set_queue [k] s) in
            let s := set_wr (WCollect [k] (req_bytes q)) (set_queue [] s) in
            let '(v, r) := writeBatch [q] (w s) in
            let s := add_written (if r then [] else [k]) (set_wr (WAnswer (answers_of [k] r)) (set_w v s)) in
            match answers_of [k] r with
            | [(_, a)] =>
                let s := set_wr WIdle (set_resp (<[k := a]> (resp s)) s) in
                (goto k (Returned (Answer a)) (set_resp (delete k (resp s)) s), Answer a)
            | _ => (goto k (Returned CtxDone) s, CtxDone)
            end
          else (goto k (Returned CtxDone) s, CtxDone)
      | _, _ => (goto k (Returned CtxDone) s, CtxDone)
      end
  end.

Lemma at_goto k q p0 p s : calls s !! k = Some (q, p0) -> calls (goto k p s) !! k = Some (q, p).
Proof. intros H. rewrite (goto_lookup _ _ _ _ _ _ H), decide_True; reflexivity. Qed.

(** The write of [solo], from the state in which the call waits. *)
Lemma solo_writes k q s : calls s !! k = Some (q, AtWait) -> wr s = WIdle -> queue s = [k] ->
  let s1 := set_wr (WCollect [k] (req_bytes q)) (set_queue [] s) in
  let '(v, r) := writeBatch [q] (w s1) in
  steps s (add_written (if r then [] else [k]) (set_wr (WAnswer (answers_of [k] r)) (set_w v s1))).
Proof.
  intros Hk Hw Hq s1. destruct (writeBatch [q] (w s1)) as [v r] eqn:E.
  eapply rtc_l; [apply step_writer, (step_take k q []); [exact Hw|exact Hq|rewrite Hk; reflexivity]|]. fold s1.
  apply rtc_once, step_writer. apply (step_write [k] (req_bytes q)); [reflexivity|].
  unfold reqs_of. cbn. rewrite Hk. exact E.
Qed.

Lemma answers_of_single k r : match answers_of [k] r with (j, _) :: _ => j = k | [] => True end.
Proof. destruct r as [e|[|o offs]]; exact I || reflexivity. Qed.

Lemma solo_appends q s : let '(s', r) := solo q s in appends q s s' r.
Proof.
  unfold solo. set (k := length (calls s)). set (s1 := set_calls (calls s ++ [(q, AtCheck)]) s).
  assert (H1 : calls s1 !! k = Some (q, AtCheck)) by (apply list_lookup_middle; reflexivity).
  assert (S1 : steps s s1) by (apply rtc_once, step_call).
  assert (Hend : forall s2 p r, steps s s2 -> calls s2 !! k = Some (q, p) ->
    step s2 (goto k (Returned r) s2) -> appends q s (goto k (Returned r) s2) r).
  { intros s2 p r S2 H2 Hs. split; [eapply rtc_r; eauto|]. exists k. split; [reflexivity|]. exact (at_goto _ _ _ _ _ H2). }
  pose proof (step_check k q s1 H1) as Hc. destruct (append_check (log (w s1)) (payload q)) as [e|];
    [exact (Hend s1 _ _ S1 H1 Hc)|].
  set (s2 := goto k AtSend s1) in *. assert (S2 : steps s s2) by (eapply rtc_r; eauto).
  assert (H2 : calls s2 !! k = Some (q, AtSend)) by exact (at_goto _ _ _ _ _ H1).
  assert (Hctx : appends q s (goto k (Returned CtxDone) s2) CtxDone)
    by (eapply Hend; [exact S2|exact H2|exact (step_send_ctx k q s2 H2)]).
  destruct (wr s2) eqn:Hw; try exact Hctx. destruct (queue s2) eqn:Hq; [|exact Hctx].
  destruct (Z.ltb_spec 0 (MaxPending (opts_of s2))) as [Hm|]; [|exact Hctx].
  set (s3 := goto k AtWait (set_queue [k] s2)).
  assert (S3 : steps s s3).
  { eapply rtc_r; [exact S2|]. pose proof (step_send k q s2 H2) as Hs. rewrite Hq in Hs. apply Hs. exact Hm. }
  assert (H3 : calls s3 !! k = Some (q, AtWait)) by exact (at_goto k q AtSend AtWait (set_queue [k] s2) H2).
  pose proof (solo_writes k q s3 H3 Hw eq_refl) as S4. cbv zeta in S4.
  destruct (writeBatch [q] _) as [v r]. set (s4 := add_written _ _) in *.
  assert (H4 : calls s4 !! k = Some (q, AtWait)) by exact H3.
  assert (Hw4 : wr s4 = WAnswer (answers_of [k] r)) by reflexivity. clearbody s4.
  pose proof (answers_of_single k r) as Hk.
  assert (Hwait : appends q s (goto k (Returned CtxDone) s4) CtxDone)
    by (eapply Hend; [etransitivity; eauto|exact H4|exact (step_wait_ctx k q s4 H4)]).
  destruct (answers_of [k] r) as [|[j a] [|]]; [exact Hwait| |exact Hwait].
  - cbn in Hk. subst j. set (s5 := set_wr WIdle (set_resp (<[k := a]> (resp s4)) s4)).
    assert (S5 : steps s s5).
    { eapply rtc_r; [eapply rtc_r; [etransitivity; eauto|apply step_writer, step_answer, Hw4]|].
      apply step_writer. exact (step_next (set_wr (WAnswer []) (set_resp (<[k := a]> (resp s4)) s4)) eq_refl). }
    split; [|exists k; split; [reflexivity|exact (at_goto k q AtWait _ (set_resp (delete k (resp s5)) s5) H4)]].
    eapply rtc_r; [exact S5|]. apply (step_recv k q a s5 H4). apply lookup_insert_eq.
Qed.

(** ** Answers *)

(** C18: from an intact log on a working disk, however appends interleave with
    each other, with the writer and with Close, the log grows by the records of
    distinct calls in one order: a call that returned an offset has its own
    record exactly there, durable unless the policy is SyncInterval; a call
    refused by its checks wrote nothing; and a call made after another returned
    gets the larger offset. *)
Theorem appends_are_linearized w0 s s' :
  wal_wf w0 -> d_io w0 = [] -> - 2 ^ 63 <= d_now w0 < 2 ^ 63 ->
  steps (init w0) s -> steps s s' -> next (log w0) + Z.of_nat (length (calls s')) < 2 ^ 64 ->
  (NoDup (written s') /\ exists rs, log_records (w s') = log_records w0 ++ rs
     /\ Forall2 (written_as (calls s')) (written s') rs)
  /\ (forall i q o, calls s' !! i = Some (q, Returned (Answer (inr o))) ->
        exists r, log_records (w s') !! Z.to_nat (o - OldestOffset (log w0)) = Some r
          /\ Offset r = o /\ Type_ r = typ q /\ Payload r = payload q
          /\ (Policy (opts (log w0)) <> SyncInterval -> r ∈ durable_records (w s')))
  /\ (forall i q e, calls s' !! i = Some (q, Returned (Answer (inl e))) -> e <> ErrClosed -> i ∉ written s')
  /\ (forall i qi oi j qj oj, calls s !! i = Some (qi, Returned (Answer (inr oi))) -> (length (calls s) <= j)%nat ->
        calls s' !! j = Some (qj, Returned (Answer (inr oj))) -> oi < oj).
Proof.
  intros Hwf Hio Hnow H0 H1 Hb. destruct (steps_mono _ _ H1) as (Hl & Hp & _).
  pose proof (reach_conc w0 Hwf Hio Hnow s H0 ltac:(lia)) as Cs.
  pose proof (reach_conc w0 Hwf Hio Hnow s' ltac:(etransitivity; eauto) Hb) as Cs'. split_and!.
  - pose proof (cc_nodup _ _ Cs') as N. apply NoDup_app in N as (_ & _ & N). exact N.
  - exact (cc_recs _ _ Cs').
  - intros i q o Hi. eapply good_record; eauto. eapply cc_ret; eauto.
  - intros i q e Hi He Hin. eapply not_sent; [exact Cs'|exact Hi| |set_solver]. destruct e; auto.
  - intros i qi oi j qj oj Hi Hj Hj'. destruct (cc_ret _ _ Cs i qi oi Hi) as (? & [= <-] & L1 & W1).
    destruct (cc_ret _ _ Cs' j qj oj Hj') as (? & [= <-] & L2 & W2).
    destruct (decide (Z.to_nat (oj - next (log w0)) < length (written s))%nat) as [Hlt|Hge].
    + apply lookup_lt_is_Some in Hlt as [k Hk]. pose proof (prefix_lookup_Some _ _ _ _ Hk Hp) as Hk'.
      rewrite W2 in Hk'. injection Hk' as <-. pose proof (later_call_unwritten w0 s _ _ Cs Hk). lia.
    + apply lookup_lt_Some in W1. lia.
Qed.

(** ** The writer's work *)
Definition work (s : Sys) : nat :=
  4 * length (queue s)
  + match wr s with WIdle | WExited => 0 | WCollect b _ => 2 + length b | WAnswer l => 1 + length l end.

Lemma length_answers_of b r : (length (answers_of b r) <= length b)%nat.
Proof. destruct r; cbn; [rewrite length_map; lia|]. rewrite length_zip_with. lia. Qed.

Lemma wstep_work s s' : wstep s s' -> (work s' < work s)%nat /\ calls s' = calls s /\ (wr s <> WExited -> wr s' <> WExited).
Proof.
  intros [i q rest s0 Hw Hq _|b n i q rest s0 Hw _ _ Hq _|b n s0 v r Hw _|i r l s0 Hw|s0 Hw];
    unfold work; cbn [wr queue calls set_wr set_queue set_resp set_w add_written]; rewrite Hw, ?Hq;
    (split; [|split; [reflexivity|discriminate]]); cbn [length]; rewrite ?length_app; cbn [length]; try lia.
  pose proof (length_answers_of b r). lia.
Qed.

Lemma wsteps_work n s s' : nsteps wstep n s s' ->
  (n + work s' <= work s)%nat /\ calls s' = calls s /\ (wr s <> WExited -> wr s' <> WExited) /\ steps s s'.
Proof.
  induction 1 as [s|n s s1 s2 H1 _ (L & C & X & S)]; [auto using rtc_refl|].
  pose proof (wstep_work _ _ H1) as (L1 & C1 & X1). split_and!; [lia|congruence|auto|].
  eapply rtc_l; [apply step_writer, H1|exact S].
Qed.

(** ** Answers on any disk *)
Lemma length_write_all now batch : forall s v offs, write_all now batch s = (v, inr offs) -> length offs = length batch.
Proof.
  induction batch as [|r batch IH]; intros s v offs E; cbn [write_all] in E; [injection E as <- <-; reflexivity|].
  unfold bind at 1 in E. destruct (write_one now r s) as [s1 [e|o]]; [discriminate|].
  unfold bind in E. destruct (write_all now batch s1) as [s2 [e|os]] eqn:E2; [discriminate|].
  injection E as <- <-. cbn. f_equal. exact (IH _ _ _ E2).
Qed.

Lemma writeBatch_answers batch s v r : writeBatch batch s = (v, r) ->
  match r with inl _ => True | inr offs => length offs = length batch end.
Proof.
  unfold writeBatch, bind, get. destruct (write_all (d_now s) batch s) as [s1 [e|offs]] eqn:E1;
    [intros [= <- <-]; exact I|].
  destruct (sync_batch s1) as [s2 [e|[]]]; intros [= <- <-]; [exact I|exact (length_write_all _ _ _ _ _ E1)].
Qed.

(** What keeps a waiting call's answer coming, whatever the disk does. *)
Record attended (s : Sys) : Prop := {
  at_calls : forall i, i ∈ pending s -> is_Some (calls s !! i);
  at_wait : forall i q, calls s !! i = Some (q, AtWait) -> tracked s i }.

Lemma attended_goto s i q p0 p : attended s -> calls s !! i = Some (q, p0) -> (p = AtWait -> tracked s i) ->
  attended (goto i p s).
Proof.
  intros [A1 A2] Hi Hp. constructor; intros j.
  - intros Hj. rewrite (goto_lookup _ _ _ _ _ _ Hi). case_decide; [eauto|apply A1, Hj].
  - intros q'. rewrite (goto_lookup _ _ _ _ _ _ Hi). case_decide; [|apply A2]. subst j. intros [= _ Hw]. exact (Hp Hw).
Qed.

Lemma attended_wstep s s' : wstep s s' -> attended s -> attended s'.
Proof.
  intros H [A1 A2].
  destruct H as [i q rest s Hw Hq _|b n i q rest s Hw _ _ Hq _|b n s v r Hw E|i r l s Hw|s Hw];
    constructor; unfold tracked, pending in *; cbn in *; rewrite Hw, ?Hq in *; cbn in *.
  - intros j Hj. apply A1. assumption.
  - intros j q' Hj. destruct (A2 j q' Hj) as [?|[[? Hr]|[?|?]]]; [left; assumption|inversion Hr|auto|discriminate].
  - intros j Hj. apply A1. rewrite <- app_assoc in Hj. assumption.
  - intros j q' Hj. destruct (A2 j q' Hj) as [?|[[? Hr]|[?|?]]]; [left; rewrite <- app_assoc; assumption|inversion Hr|auto|discriminate].
  - intros j Hj. apply A1, elem_of_app. auto.
  - intros j q' Hj. destruct (A2 j q' Hj) as [Hin|[[? Hr]|[?|?]]]; [|inversion Hr|auto|discriminate].
    apply elem_of_app in Hin as [Hin|Hin]; [|auto]. right. left. pose proof (writeBatch_answers _ _ _ _ E) as Hl.
    destruct r as [e|offs]; [exists (inl e); cbn; apply list_elem_of_fmap; eauto|]. apply answers_all; [exact Hin|].
    rewrite Hl. apply length_omap_some. intros x Hx. destruct (A1 x) as [c ->]; [apply elem_of_app; auto|]. cbn. eauto.
  - exact A1.
  - intros j q' Hj. destruct (A2 j q' Hj) as [?|[[r' Hr]|[Hr|?]]]; auto; [|right; right; left|discriminate].
    + apply elem_of_cons in Hr as [[= -> ->]|Hr]; [right; right; left; rewrite lookup_insert_eq; eauto|eauto].
    + destruct (decide (i = j)) as [<-|Hne]; [rewrite lookup_insert_eq; eauto|]. rewrite lookup_insert_ne; auto.
  - exact A1.
  - intros j q' Hj. destruct (A2 j q' Hj) as [?|[[? Hr]|[?|?]]]; [auto|inversion Hr|auto|discriminate].
Qed.

Lemma attended_step s s' : step s s' -> attended s -> attended s'.
Proof.
  intros H A. destruct H as [q s|i q s Hi|i q s Hi _|i q s Hi|i q s Hi _|i q r s Hi Hr|i q s Hi|i q s Hi _|s s' Hw|s Hw _|s|s _|t s _];
    try (eapply attended_goto; [exact A|exact Hi|discriminate]);
    try (destruct A as [A1 A2]; constructor; [exact A1|exact A2]).
  - destruct A as [A1 A2]. constructor; cbn.
    + intros j Hj. destruct (A1 j Hj) as [c Hc]. exists c. apply lookup_app_l_Some, Hc.
    + intros j q' Hj. apply lookup_app_Some in Hj as [Hj|[_ Hj]]; [exact (A2 j q' Hj)|].
      apply list_lookup_singleton_Some in Hj as [_ [= ]].
  - eapply attended_goto; [exact A|exact Hi|]. destruct (append_check _ _); discriminate.
  - eapply attended_goto; [|exact Hi|intros _; left; unfold pending; cbn; set_solver].
    destruct A as [A1 A2]. constructor; unfold tracked, pending in *; cbn in *.
    + intros j Hj. rewrite !elem_of_app in Hj. destruct Hj as [Hj|[Hj| ->%list_elem_of_singleton]];
        [apply A1; set_solver..|rewrite Hi; eauto].
    + intros j q' Hj. destruct (A2 j q' Hj) as [?|?]; [left; set_solver|auto].
  - destruct A as [A1 A2]. constructor.
    + intros j Hj. rewrite (goto_lookup i q AtWait _ (set_resp _ s) j Hi). case_decide; [eauto|exact (A1 j Hj)].
    + intros j q' Hj. rewrite (goto_lookup i q AtWait _ (set_resp _ s) j Hi) in Hj. case_decide as Hne; [discriminate|].
      destruct (A2 j q' Hj) as [?|[?|[?|?]]]; unfold tracked; auto. right. right. left. cbn. rewrite lookup_delete_ne; auto.
  - exact (attended_wstep _ _ Hw A).
  - destruct A as [A1 A2]. unfold pending in *. rewrite Hw in A1. constructor; [exact A1|].
    intros j q' Hj. unfold tracked. auto.
Qed.

Lemma attended_reach w0 s : steps (init w0) s -> attended s.
Proof.
  intros H. assert (H0 : attended (init w0)) by (constructor; [intros i Hi|intros i q Hi]; inversion Hi).
  revert H0. generalize (init w0) H. induction 1; eauto using attended_step.
Qed.

(** A writer with nothing to do is idle in front of an empty queue. *)
Lemma stuck_idle s : attended s -> wr s <> WExited -> (forall s', ~ wstep s s') -> wr s = WIdle /\ queue s = [].
Proof.
  intros H Hx Hs. destruct (wr s) as [|b n|l|] eqn:Hw; [| |exfalso|congruence].
  - split; [reflexivity|]. destruct (queue s) as [|i rest] eqn:Hq; [reflexivity|exfalso].
    destruct (at_calls _ H i) as [[q p] Hc]; [unfold pending; rewrite Hw, Hq; set_solver|].
    eapply Hs, step_take; [exact Hw|exact Hq|]. rewrite Hc. reflexivity.
  - exfalso. destruct (writeBatch (reqs_of s b) (w s)) as [v r] eqn:E. eapply Hs, step_write; eauto.
  - destruct l as [|[i r] l]; [eapply Hs, step_next, Hw|eapply Hs, step_answer, Hw].
Qed.

(** C19: the writer never leaves a caller waiting, whatever the disk does:
    from any reachable state its own steps come to an end. Unless it had
    exited, it is then idle before an empty queue and the answer of every call
    that waits is in the call's channel, ready to be received: an error of the
    disk or, if the log was intact at the start and the disk worked
    throughout, the offset of the call's record. If the writer had exited, the
    call can return ErrClosed. *)
Theorem writer_answers_every_call w0 s n s' : steps (init w0) s -> nsteps wstep n s s' ->
  (n <= work s)%nat
  /\ ((forall s'', ~ wstep s' s'') -> forall i q, calls s !! i = Some (q, AtWait) ->
      (wr s = WExited /\ step s' (goto i (Returned (Answer (inl ErrClosed))) s'))
      \/ (wr s' = WIdle /\ queue s' = []
          /\ exists r, resp s' !! i = Some r
               /\ step s' (goto i (Returned (Answer r)) (set_resp (delete i (resp s')) s'))
               /\ (wal_wf w0 -> d_io w0 = [] -> - 2 ^ 63 <= d_now w0 < 2 ^ 63 ->
                   next (log w0) + Z.of_nat (length (calls s)) < 2 ^ 64 -> exists o, r = inr o))).
Proof.
  intros H0 Hn. destruct (wsteps_work _ _ _ Hn) as (Hw & Hc & Hx' & Hs). split; [lia|]. intros Hstuck i q Hcall.
  assert (Hr : steps (init w0) s') by (etransitivity; eauto). rewrite <- Hc in Hcall.
  assert (Hd : wr s = WExited \/ wr s <> WExited) by (destruct (wr s); auto; right; discriminate).
  destruct Hd as [Ex|Hx].
  { left. split; [exact Ex|]. apply (step_wait_done i q); [exact Hcall|].
    destruct Hn as [|? ? ? ? H1 _]; [exact Ex|]. exfalso. inversion H1; congruence. }
  right. pose proof (attended_reach _ _ Hr) as A. destruct (stuck_idle s' A (Hx' Hx) Hstuck) as [Hi Hq].
  split_and!; [exact Hi|exact Hq|].
  destruct (at_wait _ A i q Hcall) as [Ht|[(r & Ht)|[[r Ht]|He]]]; [| | |congruence].
  - unfold pending in Ht. rewrite Hi, Hq in Ht. inversion Ht.
  - rewrite Hi in Ht. inversion Ht.
  - exists r. split_and!; [exact Ht|exact (step_recv i q r s' Hcall Ht)|]. intros Hwf Hio Hnow Hb.
    assert (Cs : conc w0 s') by (apply reach_conc; auto; rewrite Hc; exact Hb).
    destruct (cc_resp _ _ Cs i r Ht) as (o & -> & _). eauto.
Qed.

(** ** A run *)
Definition ex_call : appendReq := ex_req "a".
Definition ex_waiting : Sys := mkSys ex_open false [(ex_call, AtWait)] [0%nat] WIdle ∅ [].
Definition ex_written (v : Wal.St) : Sys :=
  mkSys v false [(ex_call, AtWait)] [] WIdle (<[0%nat := inr 0]> ∅) [0%nat].
Definition ex_next : Wal.St := fst (writeBatch [ex_call] ex_open).

Lemma ex_next_eq : writeBatch [ex_call] ex_open = (ex_next, inr [0]).
Proof. unfold ex_next. vm_compute. reflexivity. Qed.

Lemma ex_sends : steps (init ex_open) ex_waiting.
Proof.
  eapply rtc_l; [apply (step_call ex_call)|].
  eapply rtc_l; [apply (step_check 0 ex_call); reflexivity|].
  eapply rtc_l; [apply (step_send 0 ex_call); reflexivity|]. apply rtc_refl.
Qed.

Lemma ex_writes : nsteps wstep 4 ex_waiting (ex_written ex_next).
Proof.
  eapply nsteps_l; [apply (step_take 0 ex_call []); reflexivity|].
  eapply nsteps_l; [eapply step_write; [reflexivity|apply ex_next_eq]|].
  eapply nsteps_l; [apply step_answer; reflexivity|].
  eapply nsteps_l; [apply step_next; reflexivity|]. apply nsteps_O.
Qed.

Lemma ex_written_reached : steps (init ex_open) (ex_written ex_next).
Proof. etransitivity; [apply ex_sends|]. apply (wsteps_work _ _ _ ex_writes). Qed.

Lemma ex_written_stuck s : ~ wstep (ex_written ex_next) s.
Proof. intros H. inversion H; discriminate. Qed.

Lemma ex_clock : - 2 ^ 63 <= d_now ex_open < 2 ^ 63.
Proof. vm_compute. split; [discriminate|reflexivity]. Qed.

Definition ex_returned : Sys :=
  mkSys ex_next false [(ex_call, Returned (Answer (inr 0)))] [] WIdle (delete 0%nat (<[0%nat := inr 0]> ∅)) [0%nat].

Lemma ex_returns : steps (ex_written ex_next) ex_returned.
Proof.
  eapply rtc_l; [apply (step_recv 0 ex_call (inr 0)); reflexivity|]. apply rtc_refl.
Qed.

Lemma appends_are_linearized_witness :
  exists r, log_records ex_next !! 0%nat = Some r /\ Offset r = 0 /\ Payload r = payload ex_call
    /\ r ∈ durable_records ex_next.
Proof.
  destruct (appends_are_linearized ex_open (ex_written ex_next) ex_returned (proj1 ex_open_wf) (proj2 ex_open_wf)
    ex_clock ex_written_reached ex_returns ltac:(reflexivity)) as (_ & H & _ & _).
  destruct (H 0%nat ex_call 0 eq_refl) as (r & Hr & Ho & _ & Hp & Hd).
  exists r. split; [exact Hr|]. split; [exact Ho|]. split; [exact Hp|]. apply Hd. discriminate.
Defined.

Lemma writer_answers_every_call_witness : exists o, resp (ex_written ex_next) !! 0%nat = Some (inr o).
Proof.
  destruct (writer_answers_every_call ex_open ex_waiting 4 (ex_written ex_next) ex_sends ex_writes) as [_ H].
  destruct (H ex_written_stuck 0%nat ex_call eq_refl) as [[[=] _]|(_ & _ & r & Hr & _ & Ho)].
  destruct (Ho (proj1 ex_open_wf) (proj2 ex_open_wf) ex_clock ltac:(reflexivity)) as [o ->]. exists o. exact Hr.
Defined.

(** ** ErrClosed

    A caller that waits while the log is closed may be told ErrClosed after
    its record was written and answered: the select takes either of the two
    channels that are ready. *)
Lemma closed_answer_of_a_written_call :
  exists s, steps (init ex_open) s /\ calls s !! 0%nat = Some (ex_call, Returned (Answer (inl ErrClosed)))
    /\ 0%nat ∈ written s.
Proof.
  eexists. split.
  - etransitivity; [apply ex_written_reached|].
    eapply rtc_l; [apply step_close|]. eapply rtc_l; [apply step_close_quit; reflexivity|].
    eapply rtc_l; [apply step_quit; reflexivity|].
    eapply rtc_l; [apply (step_wait_done 0 ex_call); reflexivity|]. apply rtc_refl.
  - split; [reflexivity|]. cbn. left.
Qed.

End WalConcProps.
