(* ===== verification/WalFollow.v ===== *)
(** * A read-only log follows its owner (internal/wal/wal.go: Refresh)

    Another process attaches to the directory with ReadOnly and calls Refresh
    while the owner appends and rolls. At any moment the directory holds what
    the owner has completed and at most one thing half done: a record whose
    first bytes are written, or the next segment with part of its header. The
    view a Refresh leaves may list an empty segment twice; no query shows it. *)
From S2P Require Import Prelude GoStrings Hash Monad WalSegment Wal WalInv WalCrash WalRun WalReader WalProps.
Import Segment Wal WalInv WalCrash WalRun WalProps.
#[local] Open Scope Z_scope.

Module WalFollow.

(** ** Chains of segments *)
Definition has_records (m : segMeta) : bool := 0 <? records m.
Definition holds (o : Z) (m : segMeta) : bool := (base m <=? o) && (o <? end_ m).
Definition seg_ok (m : segMeta) : Prop := 0 <= records m /\ end_ m = base m + records m.

(** The segments [ss] cover the offsets from [x] to [e]. *)
Fixpoint chain (x : Z) (ss : list segMeta) (e : Z) : Prop :=
  match ss with
  | [] => x = e
  | m :: ss => base m = x /\ chain (end_ m) ss e
  end.

Lemma chain_app x l1 l2 e : chain x (l1 ++ l2) e <-> exists y, chain x l1 y /\ chain y l2 e.
Proof.
  revert x. induction l1 as [|m l1 IH]; intros x; cbn [app chain].
  - split; [eauto|]. intros (y & -> & H). exact H.
  - rewrite IH. split; [intros (H & y & H1 & H2)|intros (y & (H & H1) & H2)]; eauto 6.
Qed.

Lemma chain_of_ok l a : chain_ok (l ++ [a]) = true -> exists x, chain x (l ++ [a]) (end_ a).
Proof.
  induction l as [|m l IH]; intros H; [exists (base a); split; reflexivity|].
  destruct (IH (chain_ok_tail _ _ H)) as [x Hx]. exists (base m). split; [reflexivity|].
  destruct l as [|m' l]; apply chain_ok_cons in H as [-> _]; destruct Hx as [<- Hx]; split; auto.
Qed.

Section Chain.
Context (ss : list segMeta).
Hypothesis Hok : Forall seg_ok ss.

Lemma chain_mono x e : chain x ss e -> Forall (fun m => x <= base m /\ end_ m <= e) ss.
Proof.
  revert x. induction Hok as [|m l [Hr He] Hl IH]; intros x; [constructor|]. intros [<- Hc].
  specialize (IH Hl _ Hc). constructor.
  - split; [lia|]. destruct IH as [|m' l' [? ?] _]; [rewrite Hc; lia|]. destruct Hc as [<- _].
    inversion Hl as [|? ? [? ?] _]; subst. lia.
  - eapply Forall_impl; [exact IH|]. simpl. lia.
Qed.
End Chain.

Lemma chain_le x ss e : Forall seg_ok ss -> chain x ss e -> x <= e.
Proof.
  revert x. induction ss as [|m ss IH]; intros x Hok Hc; [cbn in Hc; lia|]. destruct Hc as [<- Hc].
  inversion Hok as [|? ? [? ?] Hss]; subst. specialize (IH _ Hss Hc). lia.
Qed.

(** Before a segment everything ends, behind it everything starts. *)
Lemma chain_split x l m r e : Forall seg_ok (l ++ m :: r) -> chain x (l ++ m :: r) e ->
  Forall (fun m' => end_ m' <= base m) l /\ Forall (fun m' => end_ m <= base m') r.
Proof.
  intros Hok (y & H1 & <- & H2)%chain_app. apply Forall_app in Hok as [Hl Hr]. inversion Hr; subst.
  split; eapply Forall_impl; [eapply chain_mono; eauto| |eapply chain_mono; eauto|]; simpl; tauto.
Qed.

Lemma filter_nil {A} (f : A -> bool) (l : list A) : Forall (fun x => f x = false) l -> List.filter f l = [].
Proof. induction 1 as [|x l Hx Hl IH]; [reflexivity|]. cbn. rewrite Hx. exact IH. Qed.

(** segmentFor gives the segment that holds the offset. *)
Lemma segmentFor_chain l x e o : Forall seg_ok (segs l) -> chain x (segs l) e ->
  segmentFor l o = head (List.filter (holds o) (segs l)).
Proof.
  intros Hok Hc. unfold segmentFor. set (ss := segs l) in *.
  set (f := fun i => match ss !! i with Some s => o <? end_ s | None => true end).
  assert (Hmono : forall i j, (i <= j)%nat -> f i = true -> f j = true).
  { intros i j Hij Hi. unfold f in *. destruct (ss !! j) as [mj|] eqn:Ej; [|reflexivity].
    destruct (ss !! i) as [mi|] eqn:Ei; [|apply lookup_ge_None in Ei; apply lookup_lt_Some in Ej; lia].
    destruct (Nat.eq_dec i j) as [<-|Hne]; [congruence|].
    rewrite <- (take_drop_middle ss i mi Ei) in Hok, Hc. destruct (chain_split _ _ _ _ _ Hok Hc) as [_ Hr].
    assert (Hin : mj ∈ drop (S i) ss).
    { apply list_elem_of_lookup. exists (j - S i)%nat. rewrite lookup_drop. rewrite <- Ej. f_equal. lia. }
    rewrite Forall_forall in Hr. specialize (Hr mj Hin). apply Forall_app in Hok as [_ Hok]. inversion Hok; subst.
    rewrite Forall_forall in H2. destruct (H2 mj Hin). apply Z.ltb_lt in Hi. apply Z.ltb_lt. lia. }
  destruct (Search_spec f Hmono (length ss)) as (Hn & Hlo & Hhi). set (i := Search (length ss) f) in *.
  assert (Hbelow : Forall (fun m => holds o m = false) (take i ss)).
  { apply Forall_lookup_2. intros k m Hk. apply lookup_take_Some in Hk as [Hk Hlt]. specialize (Hlo k Hlt).
    unfold f in Hlo. rewrite Hk in Hlo. unfold holds. rewrite Hlo. apply andb_false_r. }
  destruct (ss !! i) as [m|] eqn:Ei.
  - rewrite <- (take_drop_middle ss i m Ei) in Hok, Hc |- *. rewrite List.filter_app, (filter_nil _ _ Hbelow).
    destruct (chain_split _ _ _ _ _ Hok Hc) as [_ Hr]. cbn [app List.filter]. unfold holds at 1.
    specialize (Hhi ltac:(eapply lookup_lt_Some, Ei)). unfold f in Hhi. rewrite Ei in Hhi. rewrite Hhi, andb_true_r.
    rewrite Z.ltb_antisym. destruct (Z.leb_spec (base m) o) as [Hb|Hb]; [reflexivity|]. cbn [negb].
    rewrite filter_nil; [reflexivity|]. apply Forall_app in Hok as [_ Hok]. inversion Hok as [|? ? [? ?] _]; subst.
    eapply Forall_impl; [exact Hr|]. intros m' Hm'. unfold holds. rewrite (proj2 (Z.leb_gt _ _)); [reflexivity|]. simpl in Hm'. lia.
  - rewrite <- (take_ge ss i) by (apply lookup_ge_None, Ei). rewrite (filter_nil _ _ Hbelow). reflexivity.
Qed.

(** Empty segments hold nothing. *)
Lemma filter_holds o ss : Forall seg_ok ss ->
  List.filter (holds o) (List.filter has_records ss) = List.filter (holds o) ss.
Proof.
  induction 1 as [|m ss [Hr He] _ IH]; [reflexivity|]. cbn. unfold has_records at 1.
  destruct (Z.ltb_spec 0 (records m)) as [Hp|Hz]; cbn; rewrite IH; [reflexivity|].
  unfold holds at 2. destruct (Z.leb_spec (base m) o); [|reflexivity].
  rewrite (proj2 (Z.ltb_ge _ _)) by lia. reflexivity.
Qed.

(** ** What a look at the directory gives *)
Definition with_segs (l : list segMeta) (v : St) : St := mkSt (d_files v) (d_io v) (d_now v) (set_segs l (log v)).

Section Dir.
Context (max : Z) (files : gmap string File).

(** Segment [m] can be read: a header, its records, perhaps a torn one. *)
Definition readable (m : segMeta) : Prop := exists f rs t, files !! segmentName (base m) = Some f
  /\ f_data f = segment_header (base m) ++ encs rs ++ t
  /\ torn_at max (f_data f) (Z.of_nat (length (segment_header (base m) ++ encs rs)))
  /\ records m = Z.of_nat (length rs) /\ bytes m = Z.of_nat (length (segment_header (base m) ++ encs rs))
  /\ Forall (rec_ok max) rs /\ 0 <= base m < 2 ^ 64 /\ Z.of_nat (length rs) < 2 ^ 64.

(** A file whose header is not complete. *)
Definition headless (b : Z) : Prop := exists f, files !! segmentName b = Some f /\ (length (f_data f) < 20)%nat.

Record viewer (v : St) : Prop := {
  vw_io : d_io v = [];
  vw_files : d_files v = files;
  vw_max : MaxRecordBytes (opts (log v)) = max }.

Lemma viewer_with_segs v l : viewer v -> viewer (with_segs l v).
Proof. intros []. split; assumption. Qed.

Lemma probe_readable v m : viewer v -> readable m -> readSegmentProbe (base m) v = (v, inr m).
Proof.
  intros [Hio Hf Hm] (f & rs & t & Hl & Hd & Ht & Hr & Hby & Hok & Hb & Hlen). rewrite <- Hf in Hl.
  unfold readSegmentProbe, bind, try. rewrite (os_open_ok _ _ _ Hio Hl), Hd, readSegmentHeader_header by exact Hb.
  rewrite Z.eqb_refl. cbn [negb]. rewrite (syscall_ok _ Hio). unfold get, ret. rewrite Hm, scanSegment_encs; auto;
    [|rewrite <- Hd; exact Ht]. rewrite <- Hr, <- Hby. destruct m. reflexivity.
Qed.

Lemma probe_headless v b : viewer v -> headless b -> readSegmentProbe b v = (v, inl errSegmentNotReady).
Proof.
  intros [Hio Hf Hm] (f & Hl & Hlen). rewrite <- Hf in Hl.
  unfold readSegmentProbe, bind, try. rewrite (os_open_ok _ _ _ Hio Hl), readSegmentHeader_short by exact Hlen. reflexivity.
Qed.

Lemma refresh_first_ok ss extra : Forall readable ss -> (extra = [] \/ exists b, extra = [b] /\ headless b) ->
  forall v, viewer v -> refresh_first (map base ss ++ extra) v = (with_segs (segs (log v) ++ ss) v, inr tt).
Proof.
  intros Hs Hx. induction Hs as [|m ss Hm Hs IH]; intros v Hv.
  - rewrite app_nil_r. assert (Hid : with_segs (segs (log v)) v = v) by (destruct v as [? ? ? []]; reflexivity).
    rewrite Hid. destruct Hx as [->|(b & -> & Hb)]; [reflexivity|]. cbn [map app refresh_first].
    unfold bind, try. rewrite (probe_headless v b Hv Hb). reflexivity.
  - cbn [map app refresh_first]. unfold bind at 1, try. rewrite (probe_readable v m Hv Hm).
    unfold bind at 1, set_log, modify. fold (with_segs (segs (log v) ++ [m]) v).
    change (refresh_first (map base ss ++ extra) (with_segs (segs (log v) ++ [m]) v) = (with_segs (segs (log v) ++ m :: ss) v, inr tt)).
    rewrite IH by (apply viewer_with_segs, Hv). cbn. rewrite <- app_assoc. reflexivity.
Qed.

Lemma refresh_more_skip x bs rest v : Forall (fun b => b < x) bs ->
  refresh_more x (bs ++ rest) v = refresh_more x rest v.
Proof. induction 1 as [|b bs Hb _ IH]; [reflexivity|]. cbn [app refresh_more]. apply Z.ltb_lt in Hb as ->. exact IH. Qed.

Lemma refresh_more_ok ss extra : Forall readable ss ->
  forall x e v, viewer v -> chain x ss e -> (extra = [] \/ extra = [e] /\ headless e) ->
  refresh_more x (map base ss ++ extra) v = (with_segs (segs (log v) ++ ss) v, inr tt).
Proof.
  intros Hs. induction Hs as [|m ss Hm Hs IH]; intros x e v Hv Hc Hx.
  - rewrite app_nil_r. assert (Hid : with_segs (segs (log v)) v = v) by (destruct v as [? ? ? []]; reflexivity).
    rewrite Hid. cbn in Hc. subst e. destruct Hx as [->|[-> Hb]]; [reflexivity|]. cbn [map app refresh_more].
    rewrite Z.ltb_irrefl, Z.eqb_refl. cbn [negb]. unfold bind, try. rewrite (probe_headless v x Hv Hb). reflexivity.
  - destruct Hc as [<- Hc]. cbn [map app refresh_more]. rewrite Z.ltb_irrefl, Z.eqb_refl. cbn [negb].
    unfold bind at 1, try. rewrite (probe_readable v m Hv Hm). unfold bind at 1, set_log, modify.
    change (refresh_more (end_ m) (map base ss ++ extra) (with_segs (segs (log v) ++ [m]) v) = (with_segs (segs (log v) ++ m :: ss) v, inr tt)).
    rewrite (IH _ e) by (auto using viewer_with_segs). cbn. rewrite <- app_assoc. reflexivity.
Qed.
End Dir.

(** ** The owner *)

(** What the directory may hold while the owner of [s] works: its files; the
    first bytes of the record it is writing; the first bytes of the header of
    the segment it rolls to. *)
Inductive glimpse (s : St) : gmap string File -> Prop :=
  | gl_now : glimpse s (d_files s)
  | gl_record a f now r k : last (segs (log s)) = Some a -> d_files s !! segmentName (base a) = Some f ->
      req_ok (MaxRecordBytes (opts (log s))) now r -> (k < length (appendRecord now (typ r) (payload r)))%nat ->
      glimpse s (<[segmentName (base a) :=
        mkFile (f_data f ++ take k (appendRecord now (typ r) (payload r))) (f_synced f)]> (d_files s))
  | gl_header a k : last (segs (log s)) = Some a -> records a <> 0 -> (k < 20)%nat ->
      glimpse s (<[segmentName (next (log s)) := mkFile (take k (segment_header (next (log s)))) 0]> (d_files s)).

Section Owner.
Context (s : St) (sealed : list segMeta) (a : segMeta) (srss : list (list Record)) (ars : list Record).
Hypothesis Hinv : inv s sealed a srss ars.
Notation max := (MaxRecordBytes (opts (log s))).

Lemma repr_readable files m rs f : files !! segmentName (base m) = Some f -> seg_repr max m rs f -> readable max files m.
Proof.
  intros Hf []. exists f, rs, []. rewrite app_nil_r. split_and!; auto; try congruence; try lia.
  rewrite <- sr_data0. apply torn_at_end.
Qed.

Lemma owner_seg_ok : Forall seg_ok (sealed ++ [a]).
Proof.
  destruct (iv_repr _ _ _ _ _ Hinv) as [Hs (f & _ & Ha) _ _]. apply Forall_app. split.
  - eapply Forall2_Forall_l; [exact Hs|]. apply Forall_forall. intros rs _ m (g & _ & Hm & _).
    split; [rewrite (sr_records _ _ _ _ Hm); lia|rewrite (seg_end _ _ _ _ Hm), (sr_records _ _ _ _ Hm); reflexivity].
  - constructor; [|constructor]. split; [rewrite (sr_records _ _ _ _ Ha); lia|].
    rewrite (seg_end _ _ _ _ Ha), (sr_records _ _ _ _ Ha). reflexivity.
Qed.

Lemma owner_sealed_records : Forall (fun m => has_records m = true) sealed.
Proof.
  destruct (iv_repr _ _ _ _ _ Hinv) as [Hs _ _ _]. eapply Forall2_Forall_l; [exact Hs|].
  apply Forall_forall. intros rs _ m (g & _ & Hm & _ & Hne). unfold has_records. apply Z.ltb_lt.
  rewrite (sr_records _ _ _ _ Hm). destruct rs; [congruence|]. cbn. lia.
Qed.

Lemma owner_bases_below : Forall (fun b => b < end_ a \/ records a = 0) (map base (sealed ++ [a])).
Proof.
  pose proof owner_seg_ok as Hok. destruct (chain_of_ok _ _ (rp_chain _ _ _ _ _ _ (iv_repr _ _ _ _ _ Hinv))) as [x Hc].
  destruct (chain_split _ _ _ _ _ Hok Hc) as [Hl _]. pose proof owner_sealed_records as Hr.
  apply Forall_app in Hok as [Hok Ha]. inversion Ha as [|? ? [A1 A2] _]; subst. rewrite map_app. apply Forall_app. split.
  - apply Forall_map. apply Forall_forall. intros m Hm. rewrite Forall_forall in Hl, Hr, Hok.
    specialize (Hl m Hm). specialize (Hr m Hm). destruct (Hok m Hm). apply Z.ltb_lt in Hr. simpl in *. lia.
  - constructor; [lia|constructor].
Qed.

Lemma glimpse_dir files : glimpse s files -> exists extra,
  Forall (readable max files) (sealed ++ [a]) /\ names_repr files (map base (sealed ++ [a]) ++ extra)
  /\ StronglySorted Z.lt (map base (sealed ++ [a]) ++ extra)
  /\ Forall (fun b => 0 <= b < 2 ^ 64) (map base (sealed ++ [a]) ++ extra)
  /\ (extra = [] \/ extra = [end_ a] /\ headless files (end_ a) /\ records a <> 0).
Proof.
  pose proof (iv_repr _ _ _ _ _ Hinv) as Hr. pose proof (repr_sorted _ _ _ _ _ _ Hr) as Hsort.
  pose proof (repr_base_range _ _ _ _ _ _ Hr) as Hrange. pose proof Hr as [Hs (f & Hf & Ha) Hc Hn].
  assert (Hread : forall files', (forall b, b ∈ map base sealed -> files' !! segmentName b = d_files s !! segmentName b) ->
    Forall (readable max files') sealed).
  { intros files' Hsame. apply Forall_forall. intros m Hm. pose proof Hm as Hm'. apply list_elem_of_lookup in Hm as [i Hi].
    destruct (Forall2_lookup_l _ _ _ _ _ Hs Hi) as (rs & _ & g & Hg & Hm & _). eapply repr_readable; [|exact Hm].
    rewrite Hsame; [exact Hg|]. change (base m ∈ base <$> sealed). apply list_elem_of_fmap_2, Hm'. }
  assert (Hother : forall b b', b ∈ map base sealed -> b' = base a \/ (b' = end_ a /\ records a <> 0) -> 0 <= b' < 2 ^ 64 ->
    segmentName b' <> segmentName b).
  { intros b b' Hb Hb' Hrg E. rewrite Forall_forall in Hrange.
    apply segmentName_inj in E; [|exact Hrg|apply Hrange; rewrite map_app; apply elem_of_app; auto]. subst b'.
    pose proof (sealed_below _ _ _ _ _ Hs Hc b Hb). pose proof owner_bases_below as Hbl. rewrite Forall_forall in Hbl.
    specialize (Hbl b). rewrite map_app in Hbl. specialize (Hbl ltac:(apply elem_of_app; auto)). lia. }
  pose proof (seg_base_range _ _ _ _ Ha) as Hba.
  destruct 1 as [|a' f' now r k Ha' Hf' Hreq Hk|a' k Ha' Hne Hk];
    [|rewrite (iv_segs _ _ _ _ _ Hinv), last_snoc in Ha'; injection Ha' as <-..].
  - exists []. rewrite !app_nil_r. split_and!; auto. apply Forall_app. split; [apply Hread; auto|].
    constructor; [eapply repr_readable; eauto|constructor].
  - exists []. rewrite !app_nil_r. rewrite Hf in Hf'. injection Hf' as <-. split_and!; auto.
    + apply Forall_app. split; [|constructor; [|constructor]].
      * apply Hread. intros b Hb. apply lookup_insert_ne, Hother; auto.
      * destruct Ha. exists (mkFile (f_data f ++ take k (appendRecord now (typ r) (payload r))) (f_synced f)), ars,
          (take k (appendRecord now (typ r) (payload r))). cbn [f_data].
        split_and!; auto; [apply lookup_insert_eq|rewrite sr_data0; symmetry; apply app_assoc| |congruence|lia|lia].
        rewrite sr_data0. change (appendRecord now (typ r) (payload r)) with (enc (mkRecord 0 now (typ r) (payload r))).
        apply scanRecord_cut; [|exact Hk]. destruct Hreq as [H1 H2]. pose proof (iv_max _ _ _ _ _ Hinv).
        unfold rec_ok, rec_len. cbn. unfold bodyFixedLen in *. lia.
    + apply names_repr_update; auto. rewrite map_app. apply elem_of_app. right. left.
  - rewrite (iv_next _ _ _ _ _ Hinv) in *. pose proof (seg_end _ _ _ _ Ha) as He. destruct Ha.
    exists [end_ a]. split_and!.
    + apply Forall_app. split; [|constructor; [|constructor]].
      * apply Hread. intros b Hb. apply lookup_insert_ne, Hother; auto. lia.
      * eapply repr_readable; [|constructor; eassumption]. rewrite lookup_insert_ne; [exact Hf|].
        intros E. apply segmentName_inj in E; lia.
    + apply names_repr_insert; [lia|exact Hn].
    + apply StronglySorted_snoc; [exact Hsort|]. intros b Hb. pose proof owner_bases_below as Hbl.
      rewrite Forall_forall in Hbl. destruct (Hbl b Hb); [assumption|congruence].
    + apply Forall_app. split; [exact Hrange|]. constructor; [lia|constructor].
    + right. split_and!; auto. eexists. split; [apply lookup_insert_eq|]. cbn [f_data]. rewrite length_take. lia.
Qed.
End Owner.

(** ** One Refresh *)

(** The view lists the owner's segments up to some segment, whose entry may
    be out of date; segments that were empty when seen may be there twice. *)
Definition behind (sealed : list segMeta) (a : segMeta) (l : list segMeta) : Prop :=
  l = [] \/ exists vs x l1 m r, l = vs ++ [x] /\ sealed ++ [a] = l1 ++ m :: r /\ base x = base m
    /\ List.filter has_records vs = l1 /\ (exists y, chain y vs (base x)) /\ Forall seg_ok vs.

Definition caught (sealed : list segMeta) (a : segMeta) (l : list segMeta) : Prop :=
  exists vs y, l = vs ++ [a] /\ List.filter has_records vs = sealed /\ chain y l (end_ a) /\ Forall seg_ok l.

Lemma caught_behind sealed a l : caught sealed a l -> behind sealed a l.
Proof.
  intros (vs & y & -> & Hf & Hc & Hok). right. exists vs, a, sealed, a, [].
  apply chain_app in Hc as (z & Hc & <- & _). apply Forall_app in Hok as [Hok _]. split_and!; eauto.
Qed.

Lemma behind_grown sealed a sealed' a' l : behind sealed a l -> grown sealed a sealed' a' -> behind sealed' a' l.
Proof.
  intros [->|(vs & x & l1 & m & r & -> & E & Hb & Hv)] Hg; [left; reflexivity|]. right.
  destruct Hg as [[-> Hb']|[-> _]].
  - destruct r as [|z r _] using rev_ind.
    + apply app_inj_tail in E as [-> ->]. exists vs, x, l1, a', []. split; [reflexivity|]. split; [reflexivity|].
      split; [congruence|exact Hv].
    + rewrite app_comm_cons, app_assoc in E. apply app_inj_tail in E as [-> ->].
      exists vs, x, l1, m, (r ++ [a']). rewrite <- app_assoc. auto 10.
  - exists vs, x, l1, m, (r ++ [a']). rewrite E, <- app_assoc. auto 10.
Qed.

Lemma filter_all {A} (f : A -> bool) (l : list A) : Forall (fun x => f x = true) l -> List.filter f l = l.
Proof. induction 1 as [|x l Hx Hl IH]; [reflexivity|]. cbn. rewrite Hx, IH. reflexivity. Qed.

(** What the second half of a Refresh leaves. *)
Lemma caught_up sealed a vs m r l1 y :
  sealed ++ [a] = l1 ++ m :: r -> Forall seg_ok (sealed ++ [a]) -> Forall (fun m => has_records m = true) sealed ->
  chain_ok (sealed ++ [a]) = true ->
  List.filter has_records vs = l1 -> chain y vs (base m) -> Forall seg_ok vs ->
  caught sealed a (vs ++ m :: r).
Proof.
  intros E Hok Hr Hc Hv Hy Hvs. destruct (chain_of_ok _ _ Hc) as [x Hx].
  rewrite E in Hx. apply chain_app in Hx as (z & _ & <- & Hx).
  assert (Hall : chain y (vs ++ m :: r) (end_ a)) by (apply chain_app; exists (base m); split; [exact Hy|split; auto]).
  assert (Hoks : Forall seg_ok (vs ++ m :: r)).
  { apply Forall_app. split; [exact Hvs|]. rewrite E in Hok. apply Forall_app in Hok as [_ Hok]. exact Hok. }
  destruct r as [|b r _] using rev_ind.
  - apply app_inj_tail in E as [-> ->]. exists vs, y. auto.
  - rewrite app_comm_cons, !app_assoc in *. apply app_inj_tail in E as [-> ->]. exists (vs ++ m :: r), y. split_and!; auto.
    rewrite List.filter_app, Hv. f_equal. apply Forall_app in Hr as [_ Hr]. apply filter_all, Hr.
Qed.

Definition with_next (x : Z) (v : St) : St := mkSt (d_files v) (d_io v) (d_now v) (set_next x (log v)).

Lemma refresh_next_ok v l a : segs (log v) = l ++ [a] -> refresh_next v = (with_next (end_ a) v, inr tt).
Proof. intros H. unfold refresh_next, bind, get. rewrite H, last_snoc. reflexivity. Qed.

(** Only the active segment can be empty. *)
Lemma empty_is_active sealed a l m r : sealed ++ [a] = l ++ m :: r -> Forall (fun m => has_records m = true) sealed ->
  has_records m = false -> sealed = l /\ a = m /\ r = [].
Proof.
  intros E Hr Hm. destruct r as [|z r _] using rev_ind.
  - apply app_inj_tail in E as [-> ->]. auto.
  - rewrite app_comm_cons, app_assoc in E. apply app_inj_tail in E as [-> ->]. apply Forall_app in Hr as [_ Hr].
    inversion Hr; congruence.
Qed.

(** The loop of a Refresh behind the entry [m] it has just renewed. *)
Lemma refresh_rest sealed a l m r max files extra v :
  sealed ++ [a] = l ++ m :: r -> Forall (readable max files) (sealed ++ [a]) -> Forall seg_ok (sealed ++ [a]) ->
  Forall (fun m => has_records m = true) sealed -> chain_ok (sealed ++ [a]) = true ->
  (extra = [] \/ extra = [end_ a] /\ headless files (end_ a) /\ records a <> 0) -> viewer max files v ->
  refresh_more (end_ m) (map base (sealed ++ [a]) ++ extra) v
  = (with_segs (segs (log v) ++ if has_records m then r else m :: r) v, inr tt).
Proof.
  intros E Hread Hok Hr Hc Hx Hv. destruct (chain_of_ok _ _ Hc) as [x Hch]. rewrite E in Hread, Hok, Hch.
  destruct (chain_split _ _ _ _ _ Hok Hch) as [Hl _]. apply chain_app in Hch as (z & _ & <- & Hch).
  apply Forall_app in Hok as [Hok1 Hok2]. inversion Hok2 as [|? ? [Hm1 Hm2] _]; subst.
  apply Forall_app in Hread as [_ Hread]. inversion Hread; subst.
  assert (Hlow : Forall (fun b => b < end_ m \/ records m = 0 /\ b < base m) (map base l)).
  { apply Forall_map, Forall_forall. intros m' Hm'. rewrite Forall_forall in Hl, Hok1.
    specialize (Hl m' Hm'). destruct (Hok1 m' Hm') as [K1 K2]. simpl in *.
    destruct (has_records m') eqn:Em'; [unfold has_records in Em'; apply Z.ltb_lt in Em'; lia|exfalso].
    apply list_elem_of_split in Hm' as (p & q & ->). rewrite <- app_assoc in E. cbn [app] in E.
    apply empty_is_active in E as (_ & _ & E); [|exact Hr|exact Em']. destruct q; discriminate. }
  destruct (has_records m) eqn:Em.
  - unfold has_records in Em. apply Z.ltb_lt in Em.
    rewrite E, cons_middle, app_assoc, map_app, <- app_assoc, refresh_more_skip.
    + eapply refresh_more_ok; eauto. destruct Hx as [?|(? & ? & _)]; auto.
    + rewrite map_app. apply Forall_app. split; [|constructor; [lia|constructor]].
      eapply Forall_impl; [exact Hlow|]. simpl. lia.
  - destruct (empty_is_active _ _ _ _ _ E Hr Em) as (-> & -> & ->). unfold has_records in Em. apply Z.ltb_ge in Em.
    destruct Hx as [->|(_ & _ & Hne)]; [|lia]. rewrite app_nil_r, map_app, refresh_more_skip.
    + rewrite <- (app_nil_r (map base [m])). assert (Hb : end_ m = base m) by lia.
      apply (refresh_more_ok max files [m] [] ltac:(repeat constructor; assumption) (end_ m) (end_ m)); auto.
      split; [lia|reflexivity].
    + eapply Forall_impl; [exact Hlow|]. simpl. lia.
Qed.

Lemma Refresh_catches_up s sealed a srss ars v files :
  inv s sealed a srss ars -> glimpse s files -> viewer (MaxRecordBytes (opts (log s))) files v ->
  behind sealed a (segs (log v)) ->
  exists l, Refresh v = (with_next (end_ a) (with_segs l v), inr tt) /\ caught sealed a l.
Proof.
  intros Hinv Hg Hv Hb. destruct (glimpse_dir _ _ _ _ _ Hinv _ Hg) as (extra & Hread & Hn & Hsort & Hrange & Hx).
  pose proof (owner_seg_ok _ _ _ _ _ Hinv) as Hok. pose proof (owner_sealed_records _ _ _ _ _ Hinv) as Hr.
  pose proof (rp_chain _ _ _ _ _ _ (iv_repr _ _ _ _ _ Hinv)) as Hc.
  pose proof Hv as [Hio Hf Hm]. unfold Refresh. rewrite <- Hf in Hn.
  rewrite (bind_ok _ _ _ _ _ (listSegments_ok _ _ Hio Hn Hsort Hrange)).
  assert (Hmatch : forall k : W unit, match map base (sealed ++ [a]) ++ extra with [] => ret tt | _ :: _ => k end = k)
    by (intros k; rewrite map_app; destruct (map base sealed); reflexivity).
  rewrite Hmatch. clear Hmatch. unfold bind at 1, get at 1.
  destruct Hb as [Hnil|(vs & x & l1 & m & r & El & E & Hbx & Hl1 & (y & Hy) & Hvs)].
  - rewrite Hnil. cbn [last]. exists (sealed ++ [a]).
    rewrite (bind_ok _ _ _ _ _ (refresh_first_ok _ _ _ extra Hread ltac:(destruct Hx as [|(-> & ? & _)]; eauto) v Hv)), Hnil.
    rewrite (refresh_next_ok _ sealed a) by reflexivity. split; [reflexivity|].
    destruct (chain_of_ok _ _ Hc) as [z Hz]. exists sealed, z. split_and!; auto. apply filter_all, Hr.
  - rewrite El, last_snoc. rewrite Hbx in Hy |- *.
    assert (Hm' : readable (MaxRecordBytes (opts (log s))) files m)
      by (rewrite E in Hread; apply Forall_app in Hread as [_ Hread]; inversion Hread; assumption).
    set (v1 := with_segs (vs ++ [m]) v).
    assert (Hv1 : viewer (MaxRecordBytes (opts (log s))) files v1) by (apply viewer_with_segs, Hv).
    assert (Hset : set_log (fun l => set_segs (update_last (fun _ => m) (segs l)) l) v = (v1, inr tt))
      by (unfold set_log, modify; rewrite El, update_last_snoc; reflexivity).
    pose proof (refresh_rest _ _ _ _ _ _ _ extra v1 E Hread Hok Hr Hc Hx Hv1) as Hmore. cbn [segs log v1 with_segs set_segs] in Hmore.
    set (rest := if has_records m then r else m :: r) in *.
    assert (Hcaught : caught sealed a ((vs ++ [m]) ++ rest)).
    { unfold rest. destruct (has_records m) eqn:Em; rewrite <- app_assoc; cbn [app].
      - eapply caught_up; eauto.
      - destruct (empty_is_active _ _ _ _ _ E Hr Em) as (_ & <- & ->). rewrite cons_middle, app_assoc.
        rewrite E in Hok. apply Forall_app in Hok as [_ Hok]. inversion Hok as [|? ? [A1 A2] _]; subst.
        eapply (caught_up sealed a (vs ++ [a]) a [] sealed y); auto.
        + apply (owner_seg_ok _ _ _ _ _ Hinv).
        + rewrite List.filter_app. cbn. rewrite Em, app_nil_r.
          symmetry. apply (empty_is_active _ _ _ _ _ E Hr Em).
        + apply chain_app. exists (base a). split; [exact Hy|]. split; [reflexivity|].
          unfold has_records in Em. apply Z.ltb_ge in Em. cbn. lia.
        + apply Forall_app. split; [exact Hvs|]. repeat constructor; assumption. }
    pose proof Hcaught as (us & y' & Eus & _). exists ((vs ++ [m]) ++ rest). split; [|exact Hcaught].
    unfold bind at 1, bind at 1, bind at 1. unfold try at 1. rewrite (probe_readable _ _ _ m Hv Hm'), Hset.
    unfold bind, get. cbn [v1 log with_segs segs set_segs]. rewrite last_snoc, Hmore.
    apply (refresh_next_ok _ us). exact Eus.
Qed.

(** ** The queries of a view that has caught up *)
Lemma chain_drop_empty x ss e : Forall seg_ok ss -> chain x ss e -> chain x (List.filter has_records ss) e.
Proof.
  intros Hok. revert x. induction Hok as [|m ss [Hr He] _ IH]; intros x; [auto|]. intros [<- Hc]. cbn.
  unfold has_records at 1. destruct (Z.ltb_spec 0 (records m)); [split; auto|].
  replace (end_ m) with (base m) in Hc by lia. apply IH, Hc.
Qed.

Lemma chain_inj x y ss e : chain x ss e -> chain y ss e -> x = y.
Proof. destruct ss; cbn; intros; intuition congruence. Qed.

Lemma OldestOffset_chain l x e : segs l <> [] -> chain x (segs l) e -> OldestOffset l = x.
Proof. unfold OldestOffset. destruct (segs l) as [|m ss]; [congruence|]. intros _ [-> _]. reflexivity. Qed.

Lemma caught_queries s sealed a srss ars l v :
  inv s sealed a srss ars -> caught sealed a l -> segs v = l -> next v = end_ a ->
  LatestOffset v = LatestOffset (log s) /\ OldestOffset v = OldestOffset (log s)
  /\ forall o, segmentFor v o = segmentFor (log s) o.
Proof.
  intros Hinv (vs & y & -> & Hf & Hc & Hok) Hsv Hn. pose proof (owner_seg_ok _ _ _ _ _ Hinv) as Hos.
  destruct (chain_of_ok _ _ (rp_chain _ _ _ _ _ _ (iv_repr _ _ _ _ _ Hinv))) as [x Hx].
  pose proof (iv_segs _ _ _ _ _ Hinv) as Hss.
  assert (Hsame : List.filter has_records (vs ++ [a]) = List.filter has_records (sealed ++ [a])).
  { rewrite !List.filter_app, Hf, (filter_all has_records sealed)
      by apply (owner_sealed_records _ _ _ _ _ Hinv). reflexivity. }
  assert (Hxy : x = y).
  { pose proof (chain_drop_empty _ _ _ Hok Hc) as H1. pose proof (chain_drop_empty _ _ _ Hos Hx) as H2.
    rewrite Hsame in H1. eapply chain_inj; eassumption. }
  split_and!.
  - unfold LatestOffset. rewrite Hn. symmetry. apply (iv_next _ _ _ _ _ Hinv).
  - rewrite (OldestOffset_chain v y (end_ a)), (OldestOffset_chain (log s) x (end_ a)); rewrite ?Hsv, ?Hss; auto;
      [destruct sealed|destruct vs]; discriminate.
  - intros o. rewrite (segmentFor_chain v y (end_ a)), (segmentFor_chain (log s) x (end_ a)); rewrite ?Hsv, ?Hss; auto.
    rewrite <- (filter_holds o (vs ++ [a])), <- (filter_holds o (sealed ++ [a])) by assumption.
    rewrite Hsame. reflexivity.
Qed.

(** ** A view over time *)
Definition see (files : gmap string File) (v : St) : St := mkSt files [] (d_now v) (log v).

(** The view [v] was opened before the owner [s] wrote anything or on what
    its directory held then; since, the owner has written records and rolled,
    and the view was refreshed on what it could see, in any order. *)
Inductive follows : St -> St -> Prop :=
  | fo_open s o files now v r : wal_wf s -> d_io s = [] -> ReadOnly o = true ->
      MaxRecordBytes (defaults o) = MaxRecordBytes (opts (log s)) -> files = ∅ \/ glimpse s files ->
      Open o (boot files now o) = (v, r) -> follows s v
  | fo_write s v now q s' off : follows s v -> next (log s) + 1 < 2 ^ 64 ->
      req_ok (MaxRecordBytes (opts (log s))) now q -> write_one now q s = (s', inr off) -> follows s' v
  | fo_roll s v a s' : follows s v -> last (segs (log s)) = Some a -> records a <> 0 ->
      roll s = (s', inr tt) -> follows s' v
  | fo_refresh s v files v' r : follows s v -> glimpse s files -> Refresh (see files v) = (v', r) -> follows s v'.

Record tracks (s v : St) : Prop := {
  tr_io : d_io s = [];
  tr_max : MaxRecordBytes (opts (log v)) = MaxRecordBytes (opts (log s));
  tr_inv : exists sealed a srss ars, inv s sealed a srss ars /\ behind sealed a (segs (log v)) }.

Lemma see_viewer s v files : tracks s v -> viewer (MaxRecordBytes (opts (log s))) files (see files v).
Proof. intros [_ Hm _]. split; [reflexivity|reflexivity|exact Hm]. Qed.

Lemma tracks_refresh s v files : tracks s v -> glimpse s files -> exists sealed a srss ars l,
  inv s sealed a srss ars /\ caught sealed a l
  /\ Refresh (see files v) = (with_next (end_ a) (with_segs l (see files v)), inr tt).
Proof.
  intros H Hg. pose proof (see_viewer s v files H) as Hv. destruct H as [_ _ (sealed & a & srss & ars & Hinv & Hb)].
  destruct (Refresh_catches_up _ _ _ _ _ _ _ Hinv Hg Hv Hb) as (l & HR & Hc). exists sealed, a, srss, ars, l. auto.
Qed.

Lemma Open_read_only o files now : ReadOnly o = true ->
  Open o (boot files now o) = Refresh (boot files now (defaults o)).
Proof.
  intros Ho. rewrite Open_load by reflexivity. unfold load, bind, get, boot.
  cbn [log opts defaults ReadOnly d_files d_io d_now]. rewrite Ho. reflexivity.
Qed.

Lemma follows_tracks s v : follows s v -> tracks s v.
Proof.
  induction 1 as [s o files now v r Hwf Hio Ho Hm Hf E|s v now q s' off _ IH Hn Hq E|s v a s' _ IH Hl Ha E|s v files v' r _ IH Hg E].
  - destruct Hwf as (sealed & a & srss & ars & Hinv). rewrite Open_read_only in E by exact Ho.
    assert (Hstart : tracks s (boot files now (defaults o)))
      by (split; [exact Hio|exact Hm|exists sealed, a, srss, ars; split; [exact Hinv|left; reflexivity]]).
    destruct Hf as [->|Hg].
    + assert (Hv : v = boot ∅ now (defaults o)) by (injection E as <- _; reflexivity). rewrite Hv. exact Hstart.
    + destruct (tracks_refresh _ _ files Hstart Hg) as (l' & a' & ss' & rs' & l & Hinv' & Hc & HR).
      change (see files (boot files now (defaults o))) with (boot files now (defaults o)) in HR.
      rewrite E in HR. injection HR as -> _. split; [exact Hio|exact Hm|].
      exists l', a', ss', rs'. split; [exact Hinv'|]. apply caught_behind, Hc.
  - destruct IH as [Hio Hm (sealed & a & srss & ars & Hinv & Hb)].
    destruct (write_one_grows _ _ _ _ _ now q Hio Hinv Hn Hq) as (s1 & l1 & a1 & ss1 & r1 & E1 & Hinv1 & _ & _ & Hio1 & Hc1 & _ & _ & Hg).
    rewrite E in E1. injection E1 as <- _. split; [exact Hio1|rewrite (sc_opts _ _ Hc1); exact Hm|].
    exists l1, a1, ss1, r1. split; [exact Hinv1|]. eapply behind_grown; eauto.
  - destruct IH as [Hio Hm (sealed & a' & srss & ars & Hinv & Hb)].
    rewrite (iv_segs _ _ _ _ _ Hinv), last_snoc in Hl. injection Hl as ->.
    destruct (rp_active _ _ _ _ _ _ (iv_repr _ _ _ _ _ Hinv)) as (f & _ & Hrep).
    assert (Hne : ars <> []) by (intros ->; apply Ha, (sr_records _ _ _ _ Hrep)).
    destruct (roll_ok _ _ _ _ _ Hio Hinv Hne) as (s1 & E1 & Hinv1 & Hio1 & Hc1).
    rewrite E in E1. injection E1 as <-. split; [exact Hio1|rewrite (sc_opts _ _ Hc1); exact Hm|].
    do 4 eexists. split; [exact Hinv1|]. eapply behind_grown; [exact Hb|]. right. auto.
  - destruct (tracks_refresh _ _ _ IH Hg) as (sealed & a & srss & ars & l & Hinv & Hc & HR).
    rewrite E in HR. injection HR as -> _. destruct IH as [Hio Hm _]. split; [exact Hio|exact Hm|].
    exists sealed, a, srss, ars. split; [exact Hinv|]. apply caught_behind, Hc.
Qed.

(** refreshLoop: one Refresh per tick, whose error waits for the next. *)
Definition refreshLoop (looks : list (gmap string File)) (v : St) : St :=
  foldl (fun v files => fst (Refresh (see files v))) v looks.

Lemma refreshLoop_follows s looks v : follows s v -> Forall (glimpse s) looks -> follows s (refreshLoop looks v).
Proof.
  intros H Hl. revert v H. induction Hl as [|files looks Hf _ IH]; intros v H; [exact H|]. apply IH.
  destruct (Refresh (see files v)) as [v' r] eqn:E. eapply fo_refresh; eauto.
Qed.

(** C20: whatever a read-only log saw before and whatever its owner has
    written and rolled since, a refresh succeeds at every moment of the
    owner's work, a half-written record or header included, and the view then
    answers every query like the owner: the same oldest and next offset and
    the same segment for every offset. *)
Theorem refresh_catches_up s v looks files :
  follows s v -> Forall (glimpse s) looks -> glimpse s files ->
  exists v', Refresh (see files (refreshLoop looks v)) = (v', inr tt)
    /\ LatestOffset (log v') = LatestOffset (log s) /\ OldestOffset (log v') = OldestOffset (log s)
    /\ forall o, segmentFor (log v') o = segmentFor (log s) o.
Proof.
  intros H Hl Hg. apply (refreshLoop_follows _ looks) in H; [|exact Hl].
  destruct (tracks_refresh _ _ _ (follows_tracks _ _ H) Hg) as (sealed & a & srss & ars & l & Hinv & Hc & HR).
  eexists. split; [exact HR|]. eapply caught_queries; [exact Hinv|exact Hc|reflexivity|reflexivity].
Qed.

(** ** A view of the example log *)
Definition ex_view_opts : Options := mkOptions 60 64 0 0 SyncBatched 0 true 0.
Definition ex_view : St := fst (Open ex_view_opts (boot ∅ 7 ex_view_opts)).
Definition ex_one : St := fst (write_one 7 (ex_req "a") ex_open).
Definition ex_half : gmap string File :=
  <[segmentName 0 := mkFile (match d_files ex_one !! segmentName 0 with Some f => f_data f | None => [] end
      ++ take 5 (appendRecord 7 x01 (payload (ex_req "bb")))) 0]> (d_files ex_one).

Lemma ex_view_follows : follows ex_one ex_view.
Proof.
  eapply (fo_write ex_open ex_view 7 (ex_req "a") ex_one 0); [|reflexivity|vm_compute; split; [discriminate|split; [discriminate|reflexivity]]|].
  - apply (fo_open ex_open ex_view_opts ∅ 7 ex_view (inr tt)); try reflexivity; try apply ex_open_wf.
    left. reflexivity.
  - unfold ex_one. vm_compute. reflexivity.
Qed.

Lemma ex_half_glimpse : glimpse ex_one ex_half.
Proof.
  assert (Hf : exists f, d_files ex_one !! segmentName 0 = Some f /\ f_synced f = 0%nat) by (eexists; split; vm_compute; reflexivity).
  destruct Hf as (f & Hf & Hs). unfold ex_half. rewrite Hf.
  pose proof (gl_record ex_one (mkSeg 0 1 38) f 7 (ex_req "bb") 5) as H. rewrite Hs in H. apply H.
  - vm_compute. reflexivity.
  - exact Hf.
  - vm_compute. split; [discriminate|split; [discriminate|reflexivity]].
  - vm_compute. repeat constructor.
Qed.

Lemma refresh_catches_up_witness : exists v', Refresh (see ex_half (refreshLoop [ex_half] ex_view)) = (v', inr tt)
  /\ LatestOffset (log v') = 1 /\ segmentFor (log v') 0 = Some (mkSeg 0 1 38).
Proof.
  destruct (refresh_catches_up ex_one ex_view [ex_half] ex_half ex_view_follows (Forall_cons_2 _ _ _ ex_half_glimpse (Forall_nil_2 _))
    ex_half_glimpse) as (v' & HR & Hn & _ & Hs).
  exists v'. split; [exact HR|]. split; [exact Hn|]. rewrite (Hs 0). vm_compute. reflexivity.
Defined.

(** A segment that is still empty is its own successor: every refresh of an
    idle, empty log lists it once more. *)
Lemma idle_refresh_grows_the_view :
  map (fun n => length (segs (log (refreshLoop (repeat (d_files ex_open) n) ex_view)))) (seq 0 5) = [0; 1; 2; 3; 4]%nat.
Proof. vm_compute. reflexivity. Qed.
End WalFollow.
