(* ===== verification/GoSort.v ===== *)
(** * [sort.Slice] by its contract

    The Go library sorts in place with an algorithm that is not stable, so
    what the code may rely on is that the result is a permutation in
    non-descending order. Components are proved against [SliceSort]; merge
    sort discharges it. *)
From S2P Require Import Prelude.

Class SliceSort {A} (le : relation A) := {
  sort_slice : list A -> list A;
  sort_slice_perm l : sort_slice l ≡ₚ l;
  sort_slice_sorted l : StronglySorted le (sort_slice l) }.

#[global] Arguments sort_slice {A} le {_} l.

#[export] Instance merge_slice_sort {A} (le : relation A) `{!RelDecision le} `{!Total le}
    `{!Transitive le} : SliceSort le :=
  {| sort_slice := merge_sort le;
     sort_slice_perm := merge_sort_Permutation le;
     sort_slice_sorted := StronglySorted_merge_sort le |}.

(** Ordering by an integer key. *)
Definition key_le {A} (key : A -> Z) : relation A := fun x y => key x <= key y.
#[export] Instance key_le_dec {A} (key : A -> Z) : RelDecision (key_le key).
Proof. intros x y. unfold key_le. apply _. Defined.
#[export] Instance key_le_total {A} (key : A -> Z) : Total (key_le key).
Proof. intros x y. unfold key_le. lia. Qed.
#[export] Instance key_le_trans {A} (key : A -> Z) : Transitive (key_le key).
Proof. intros x y z. unfold key_le. lia. Qed.

(** The order in which [range] visits the keys of a map: some permutation of
    them, with no other promise. *)
Class MapRange (K : Type) := {
  range_keys : list K -> list K;
  range_perm l : range_keys l ≡ₚ l }.

#[export] Instance identity_range K : MapRange K := {| range_keys := fun l => l; range_perm l := Permutation_refl l |}.
