(* ===== verification/GoFloat.v ===== *)
(** * [float64] as IEEE binary64, on the Standard Library's [SpecFloat]

    After the operations come the lemmas for exact arithmetic: on numbers
    [n * 2 ^ e] with [n] below [2 ^ 53], sums, differences, products and
    comparisons of floats are those of the numbers. *)
From S2P Require Import Prelude.
From Stdlib Require Import Floats.SpecFloat.
#[local] Open Scope Z_scope.

Definition float64 := spec_float.
Definition f_add : float64 -> float64 -> float64 := SFadd 53 1024.
Definition f_sub : float64 -> float64 -> float64 := SFsub 53 1024.
Definition f_mul : float64 -> float64 -> float64 := SFmul 53 1024.
Definition f_div : float64 -> float64 -> float64 := SFdiv 53 1024.
Definition f_lt : float64 -> float64 -> bool := SFltb.
Definition f_le : float64 -> float64 -> bool := SFleb.
Definition f_of_Z (z : Z) : float64 := binary_normalize 53 1024 z 0 false.

(** [float64] to an integer: truncation; Go leaves the value of an out of
    range or NaN conversion to the implementation. *)
Definition f_trunc (lo hi : Z) (f : float64) : option Z :=
  match f with
  | S754_zero _ => Some 0
  | S754_finite s m e =>
      let z := Z.shiftl (Z.pos m) e in
      let z := if s then - z else z in
      if (lo <=? z) && (z <? hi) then Some z else None
  | _ => None
  end.

Lemma f_lt_irrefl x : f_lt x x = false.
Proof.
  unfold f_lt, SFltb, SFcompare. destruct x as [[]|[]| |[] m e]; try reflexivity;
    rewrite Z.compare_refl; rewrite Pos.compare_cont_refl; reflexivity.
Qed.

(** ** Exact arithmetic *)

(** The binary digits of a mantissa. *)
Definition digs (m : positive) : Z := Z.pos (digits2_pos m).

Lemma digs_bounds m : 2 ^ (digs m - 1) <= Z.pos m < 2 ^ digs m.
Proof.
  unfold digs. induction m as [m IH|m IH|]; cbn [digits2_pos]; [..|cbn; lia];
    rewrite Pos2Z.inj_succ; replace (Z.succ (Z.pos (digits2_pos m)) - 1) with (Z.succ (Z.pos (digits2_pos m) - 1)) by lia;
    rewrite !Z.pow_succ_r by lia; lia.
Qed.

Lemma digs_unique m d : 2 ^ (d - 1) <= Z.pos m < 2 ^ d -> digs m = d.
Proof.
  intros [L1 U1]. pose proof (digs_bounds m) as [L2 U2]. assert (0 < digs m) by (unfold digs; lia).
  assert (0 < d) by (destruct (Z.lt_ge_cases 0 d); [assumption|]; rewrite Z.pow_neg_r in L1 by lia;
    destruct (decide (d = 0)) as [->|]; [cbn in U1; lia|rewrite Z.pow_neg_r in U1; lia]).
  assert (d - 1 < digs m) by (apply (Z.pow_lt_mono_r_iff 2); lia).
  assert (digs m - 1 < d) by (apply (Z.pow_lt_mono_r_iff 2); lia). lia.
Qed.

Lemma digs_shift m m' k : 0 <= k -> Z.pos m' = Z.pos m * 2 ^ k -> digs m' = digs m + k.
Proof.
  intros Hk E. apply digs_unique. pose proof (digs_bounds m) as [L U]. assert (0 < digs m) by (unfold digs; lia).
  replace (digs m + k - 1) with ((digs m - 1) + k) by lia. rewrite E, !Z.pow_add_r by lia. split; nia.
Qed.

Lemma shl_shift m d : Z.pos (Pos.iter xO m d) = Z.pos m * 2 ^ Z.pos d.
Proof.
  induction d as [|d IH] using Pos.peano_ind; [cbn; lia|].
  rewrite Pos.iter_succ, Pos2Z.inj_succ, Z.pow_succ_r, Pos2Z.inj_xO, IH by lia. lia.
Qed.

Lemma shr_shift p : forall z, 0 < z ->
  iter_pos shr_1 p (Build_shr_record (z * 2 ^ Z.pos p) false false) = Build_shr_record z false false.
Proof.
  assert (H1 : forall z, 0 < z -> shr_1 (Build_shr_record (2 * z) false false) = Build_shr_record z false false)
    by (intros [|z|z] Hz; [lia|reflexivity|lia]).
  induction p as [p IH|p IH|]; intros z Hz; cbn [iter_pos].
  - replace (z * 2 ^ Z.pos p~1) with (2 * (z * 2 ^ Z.pos p * 2 ^ Z.pos p)).
    + rewrite H1, !IH; auto; nia.
    + replace (Z.pos p~1) with (Z.pos p + Z.pos p + 1) by lia. rewrite !Z.pow_add_r by lia. lia.
  - replace (z * 2 ^ Z.pos p~0) with (z * 2 ^ Z.pos p * 2 ^ Z.pos p).
    + rewrite !IH; auto; nia.
    + replace (Z.pos p~0) with (Z.pos p + Z.pos p) by lia. rewrite Z.pow_add_r by lia. lia.
  - replace (z * 2 ^ 1) with (2 * z) by lia. apply H1, Hz.
Qed.

(** [f] is the number [n * 2 ^ e]. *)
Definition rep (f : float64) (n e : Z) : Prop :=
  if n =? 0 then f = S754_zero false
  else exists m e', f = S754_finite false m e' /\ digs m = 53 /\ e' <= e /\ Z.pos m = n * 2 ^ (e - e').

Lemma rep_intro m n e e' : n <> 0 -> digs m = 53 -> e' <= e -> Z.pos m = n * 2 ^ (e - e') -> rep (S754_finite false m e') n e.
Proof. intros H H1 H2 H3. unfold rep. rewrite (proj2 (Z.eqb_neq _ _) H). eauto 6. Qed.

Definition fits (n e : Z) : Prop := 0 <= n < 2 ^ 53 /\ -900 <= e <= 900.

Lemma round_exact M e n en : Z.pos M = n * 2 ^ (en - e) -> e <= en -> 53 <= digs M -> fits n en -> n <> 0 ->
  rep (binary_round_aux 53 1024 false (Z.pos M) e loc_Exact) n en.
Proof.
  intros E He Hd [Hn Hen] Hn0. set (d := digs M - 53).
  pose proof (digs_bounds M) as [L U].
  assert (Hde : d <= en - e).
  { assert (Hlt : Z.pos M < 2 ^ (53 + (en - e))) by (rewrite E, Z.pow_add_r by lia; nia).
    assert (digs M - 1 < 53 + (en - e)) by (apply (Z.pow_lt_mono_r_iff 2); lia). unfold d. lia. }
  assert (Hlow : en - e < digs M) by (apply (Z.pow_lt_mono_r_iff 2); [lia..|]; nia).
  set (q := n * 2 ^ (en - e - d)). assert (Hq : 0 < q) by (unfold q; apply Z.mul_pos_pos; [|apply Z.pow_pos_nonneg]; lia).
  assert (EM : Z.pos M = q * 2 ^ d).
  { unfold q. rewrite E, <- Z.mul_assoc, <- Z.pow_add_r by lia. do 2 f_equal. lia. }
  destruct q as [|m|] eqn:Eq; try lia.
  assert (Hm : digs m = 53) by (pose proof (digs_shift m M d ltac:(unfold d; lia) EM); unfold d in *; lia).
  assert (Hx1 : fexp 53 1024 (Zdigits2 (Z.pos M) + e) - e = d).
  { change (Zdigits2 (Z.pos M)) with (digs M). unfold fexp, emin. unfold d in *. lia. }
  assert (Hx2 : fexp 53 1024 (Zdigits2 (Z.pos m) + (e + d)) - (e + d) = 0).
  { change (Zdigits2 (Z.pos m)) with (digs m). unfold fexp, emin. lia. }
  assert (Hs1 : shr_fexp 53 1024 (Z.pos M) e loc_Exact = (Build_shr_record (Z.pos m) false false, e + d)).
  { unfold shr_fexp. rewrite Hx1. cbn [shr_record_of_loc]. destruct d as [|p|p] eqn:Ed; [|rewrite EM|unfold d in Ed; lia].
    - cbn [shr]. rewrite Z.add_0_r. do 2 f_equal. lia.
    - cbn [shr]. rewrite shr_shift by lia. reflexivity. }
  assert (Hs2 : shr_fexp 53 1024 (Z.pos m) (e + d) loc_Exact = (Build_shr_record (Z.pos m) false false, e + d)).
  { unfold shr_fexp. rewrite Hx2. reflexivity. }
  unfold binary_round_aux. rewrite Hs1. cbn [shr_m loc_of_shr_record round_nearest_even]. rewrite Hs2. cbn [shr_m].
  rewrite (proj2 (Z.leb_le _ _)) by lia.
  unfold rep. rewrite (proj2 (Z.eqb_neq _ _) Hn0). exists m, (e + d). split_and!; auto; [lia|].
  unfold q in Eq. rewrite <- Eq. do 2 f_equal. lia.
Qed.

Lemma normalize_exact m e n en : m = n * 2 ^ (en - e) -> e <= en -> fits n en -> rep (binary_normalize 53 1024 m e false) n en.
Proof.
  intros E He [Hn Hen]. destruct (decide (n = 0)) as [->|Hn0]; [rewrite E; reflexivity|].
  destruct m as [|M|]; [exfalso; nia| |exfalso; nia]. cbn [binary_normalize]. unfold binary_round.
  change (Z.pos (digits2_pos M)) with (digs M).
  assert (Hu : digs M <= 53 + (en - e)).
  { pose proof (digs_bounds M) as [L U]. assert (Hlt : Z.pos M < 2 ^ (53 + (en - e))) by (rewrite E, Z.pow_add_r by lia; nia).
    assert (digs M - 1 < 53 + (en - e)) by (apply (Z.pow_lt_mono_r_iff 2); lia). lia. }
  assert (Hp : 0 < digs M) by (unfold digs; lia).
  assert (Hlow : en - e < digs M) by (pose proof (digs_bounds M); apply (Z.pow_lt_mono_r_iff 2); [lia..|]; nia).
  unfold shl_align. assert (Hf : fexp 53 1024 (digs M + e) = digs M + e - 53) by (unfold fexp, emin; lia).
  rewrite Hf. destruct (digs M + e - 53 - e) as [|p|p] eqn:Ef; [apply round_exact; auto; [lia|split; lia]..|].
  assert (EM : Z.pos (Pos.iter xO M p) = Z.pos M * 2 ^ Z.pos p) by apply shl_shift.
  apply round_exact; [|lia| |split; lia|exact Hn0].
  - rewrite EM, E, <- Z.mul_assoc, <- Z.pow_add_r by lia. do 2 f_equal. lia.
  - rewrite (digs_shift M _ (Z.pos p)) by (lia || exact EM). lia.
Qed.

Lemma rep_of_Z n : 0 <= n < 2 ^ 53 -> rep (f_of_Z n) n 0.
Proof. intros H. apply normalize_exact; [cbn; lia|lia|split; lia]. Qed.

Lemma align_exact m e ez n en : e <= en -> ez <= e -> Z.pos m = n * 2 ^ (en - e) ->
  Z.pos (fst (shl_align m e ez)) = n * 2 ^ (en - ez).
Proof.
  intros H1 H2 E. unfold shl_align. destruct (ez - e) as [|p|p] eqn:Ed; cbn [fst].
  - rewrite E. do 2 f_equal. lia.
  - lia.
  - rewrite shl_shift, E, <- Z.mul_assoc, <- Z.pow_add_r by lia. do 2 f_equal. lia.
Qed.

Lemma rep_add f g a b e : rep f a e -> rep g b e -> 0 <= a -> 0 <= b -> fits (a + b) e -> rep (f_add f g) (a + b) e.
Proof.
  unfold rep at 1 2. intros Hf Hg Ha Hb Hs.
  destruct (Z.eqb_spec a 0) as [->|Ha0], (Z.eqb_spec b 0) as [->|Hb0]; subst; try reflexivity.
  - destruct Hg as (m & e' & -> & H1 & H2 & H3). subst. exact (rep_intro m b e e' Hb0 H1 H2 H3).
  - destruct Hf as (m & e' & -> & H1 & H2 & H3). subst. rewrite Z.add_0_r. exact (rep_intro m a e e' Ha0 H1 H2 H3).
  - destruct Hf as (m1 & e1 & -> & D1 & L1 & E1), Hg as (m2 & e2 & -> & D2 & L2 & E2).
    cbn [f_add SFadd cond_Zopp]. apply normalize_exact; [|lia|exact Hs].
    rewrite (align_exact m1 e1 _ a e), (align_exact m2 e2 _ b e) by (assumption || lia). lia.
Qed.

Lemma rep_sub f g a b e : rep f a e -> rep g b e -> 0 <= b <= a -> fits (a - b) e -> rep (f_sub f g) (a - b) e.
Proof.
  unfold rep at 1 2. intros Hf Hg Hb Hs.
  destruct (Z.eqb_spec b 0) as [->|Hb0].
  - subst g. rewrite Z.sub_0_r. destruct (Z.eqb_spec a 0) as [->|Ha0]; [subst f; reflexivity|].
    destruct Hf as (m & e' & -> & H1 & H2 & H3). exact (rep_intro m a e e' Ha0 H1 H2 H3).
  - destruct (Z.eqb_spec a 0) as [->|Ha0]; [lia|].
    destruct Hf as (m1 & e1 & -> & D1 & L1 & E1), Hg as (m2 & e2 & -> & D2 & L2 & E2).
    cbn [f_sub SFsub cond_Zopp]. apply normalize_exact; [|lia|exact Hs].
    rewrite (align_exact m1 e1 _ a e), (align_exact m2 e2 _ b e) by (assumption || lia). lia.
Qed.

Lemma rep_mul f g a b e e' : rep f a e -> rep g b e' -> 0 <= a -> 0 <= b -> fits (a * b) (e + e') ->
  rep (f_mul f g) (a * b) (e + e').
Proof.
  unfold rep at 1 2. intros Hf Hg Ha Hb Hs.
  destruct (Z.eqb_spec a 0) as [->|Ha0]; [subst f; destruct (Z.eqb_spec b 0); [subst g|destruct Hg as (? & ? & -> & _)]; reflexivity|].
  destruct Hf as (m1 & e1 & -> & D1 & L1 & E1).
  destruct (Z.eqb_spec b 0) as [->|Hb0]; [subst g; rewrite Z.mul_0_r; reflexivity|].
  destruct Hg as (m2 & e2 & -> & D2 & L2 & E2). cbn [f_mul SFmul xorb]. apply round_exact; [|lia| |exact Hs|nia].
  - rewrite Pos2Z.inj_mul, E1, E2. replace (e + e' - (e1 + e2)) with ((e - e1) + (e' - e2)) by lia.
    rewrite Z.pow_add_r by lia. lia.
  - pose proof (digs_bounds m1) as [B1 _]. pose proof (digs_bounds m2) as [B2 _]. rewrite D1 in B1. rewrite D2 in B2.
    pose proof (digs_bounds (m1 * m2)) as [_ U]. assert (Hp : 0 < digs (m1 * m2)) by (unfold digs; lia).
    assert (104 < digs (m1 * m2)); [|lia]. apply (Z.pow_lt_mono_r_iff 2); [lia..|].
    rewrite Pos2Z.inj_mul in U. change (2 ^ 104) with (2 ^ 52 * 2 ^ 52). change (53 - 1) with 52 in *. nia.
Qed.

(** The same number in a coarser and in a finer unit. *)
Lemma rep_scale f n k e : 0 <= k -> 0 <= n -> rep f (n * 2 ^ k) e -> rep f n (e + k) .
Proof.
  intros Hk Hn H. assert (0 < 2 ^ k) by (apply Z.pow_pos_nonneg; lia). unfold rep in *.
  destruct (Z.eqb_spec n 0) as [->|Hn0]; [exact H|]. rewrite (proj2 (Z.eqb_neq _ _)) in H by nia.
  destruct H as (m & e' & -> & D & L & E). exists m, e'. split_and!; auto; [lia|].
  rewrite E, <- Z.mul_assoc, <- Z.pow_add_r by lia. do 2 f_equal. lia.
Qed.

Lemma rep_refine f n k e : 0 <= k -> 0 <= n -> n * 2 ^ k < 2 ^ 53 -> rep f n (e + k) -> rep f (n * 2 ^ k) e.
Proof.
  intros Hk Hn Hb H. assert (0 < 2 ^ k) by (apply Z.pow_pos_nonneg; lia). unfold rep in *.
  destruct (Z.eqb_spec n 0) as [->|Hn0]; [exact H|]. rewrite (proj2 (Z.eqb_neq _ _)) by nia.
  destruct H as (m & e' & -> & D & L & E). pose proof (digs_bounds m) as [B _]. rewrite D in B.
  assert (He : e' <= e).
  { destruct (Z.le_gt_cases e' e) as [|Hl]; [assumption|exfalso].
    assert (Em : n * 2 ^ k = Z.pos m * 2 ^ (e' - e)).
    { rewrite E, <- Z.mul_assoc, <- Z.pow_add_r by lia. do 2 f_equal. lia. }
    assert (2 ^ 1 <= 2 ^ (e' - e)) by (apply Z.pow_le_mono_r; lia). change (2 ^ 53) with (2 * 2 ^ (53 - 1)) in Hb. nia. }
  exists m, e'. split_and!; auto. rewrite E, <- Z.mul_assoc, <- Z.pow_add_r by lia. do 2 f_equal. lia.
Qed.

Lemma rep_unique f g n e : rep f n e -> rep g n e -> f = g.
Proof.
  unfold rep. destruct (n =? 0); [congruence|]. intros (m1 & e1 & -> & D1 & L1 & E1) (m2 & e2 & -> & D2 & L2 & E2).
  pose proof (digs_bounds m1) as B1. pose proof (digs_bounds m2) as B2. rewrite D1 in B1. rewrite D2 in B2.
  assert (He : e1 = e2).
  { destruct (Z.lt_trichotomy e1 e2) as [Hl|[|Hl]]; auto; exfalso.
    - replace (e - e1) with ((e - e2) + (e2 - e1)) in E1 by lia. rewrite Z.pow_add_r, Z.mul_assoc, <- E2 in E1 by lia.
      assert (2 ^ 1 <= 2 ^ (e2 - e1)) by (apply Z.pow_le_mono_r; lia). nia.
    - replace (e - e2) with ((e - e1) + (e1 - e2)) in E2 by lia. rewrite Z.pow_add_r, Z.mul_assoc, <- E1 in E2 by lia.
      assert (2 ^ 1 <= 2 ^ (e1 - e2)) by (apply Z.pow_le_mono_r; lia). nia. }
  subst e2. congruence.
Qed.

(** Floats compare as their numbers. *)
Lemma rep_compare f g a b e : rep f a e -> rep g b e -> 0 <= a -> 0 <= b -> SFcompare f g = Some (a ?= b).
Proof.
  unfold rep. intros Hf Hg Ha Hb.
  destruct (Z.eqb_spec a 0) as [->|Ha0], (Z.eqb_spec b 0) as [->|Hb0].
  - subst. reflexivity.
  - subst f. destruct Hg as (m & e' & -> & _). cbn. destruct b; [lia|reflexivity|lia].
  - subst g. destruct Hf as (m & e' & -> & _). cbn. destruct a; [lia|reflexivity|lia].
  - destruct Hf as (m1 & e1 & -> & D1 & L1 & E1), Hg as (m2 & e2 & -> & D2 & L2 & E2). cbn [SFcompare]. f_equal.
    pose proof (digs_bounds m1) as B1. pose proof (digs_bounds m2) as B2. rewrite D1 in B1. rewrite D2 in B2.
    assert (P1 : 0 < 2 ^ (e - e1)) by (apply Z.pow_pos_nonneg; lia).
    assert (P2 : 0 < 2 ^ (e - e2)) by (apply Z.pow_pos_nonneg; lia).
    destruct (Z.compare_spec e1 e2) as [->|Hl|Hl].
    + change (Pos.compare_cont Eq m1 m2) with (m1 ?= m2)%positive. change (m1 ?= m2)%positive with (Z.pos m1 ?= Z.pos m2).
      rewrite E1, E2. destruct (Z.compare_spec a b); [subst; apply Z.compare_refl|apply Z.compare_lt_iff; nia|apply Z.compare_gt_iff; nia].
    + symmetry. apply Z.compare_lt_iff. replace (e - e1) with ((e - e2) + (e2 - e1)) in E1 by lia.
      rewrite Z.pow_add_r in E1 by lia. assert (2 ^ 1 <= 2 ^ (e2 - e1)) by (apply Z.pow_le_mono_r; lia).
      assert (2 * (a * 2 ^ (e - e2)) <= Z.pos m1) by nia. apply (Z.mul_lt_mono_pos_r (2 ^ (e - e2))); lia.
    + symmetry. apply Z.compare_gt_iff. replace (e - e2) with ((e - e1) + (e1 - e2)) in E2 by lia.
      rewrite Z.pow_add_r in E2 by lia. assert (2 ^ 1 <= 2 ^ (e1 - e2)) by (apply Z.pow_le_mono_r; lia).
      assert (2 * (b * 2 ^ (e - e1)) <= Z.pos m2) by nia. apply (Z.mul_lt_mono_pos_r (2 ^ (e - e1))); lia.
Qed.

Lemma rep_lt f g a b e : rep f a e -> rep g b e -> 0 <= a -> 0 <= b -> f_lt f g = (a <? b).
Proof. intros Hf Hg Ha Hb. unfold f_lt, SFltb, Z.ltb. rewrite (rep_compare _ _ _ _ _ Hf Hg Ha Hb). destruct (a ?= b); reflexivity. Qed.
Lemma rep_le f g a b e : rep f a e -> rep g b e -> 0 <= a -> 0 <= b -> f_le f g = (a <=? b).
Proof. intros Hf Hg Ha Hb. unfold f_le, SFleb, Z.leb. rewrite (rep_compare _ _ _ _ _ Hf Hg Ha Hb). destruct (a ?= b); reflexivity. Qed.
