(* ===== verification/GoUtf8.v ===== *)
(** * UTF-8 (package [unicode/utf8]) and the string functions that depend on
    it: [strings.ToLower] on ASCII letters, [strings.TrimSpace],
    [strings.ReplaceAll], [strings.Split], [strings.Index]. *)
From S2P Require Import Prelude GoStrings.

Definition code (c : ascii) : Z := Z.of_nat (nat_of_ascii c).
Definition chr (z : Z) : ascii := ascii_of_nat (Z.to_nat z).

Definition RuneError : Z := 0xFFFD.

Definition in_range (lo hi z : Z) : bool := (lo <=? z) && (z <=? hi).

(** The bounds of the second byte and the number of bytes that a first byte
    announces. *)
Definition first_byte (c : Z) : option (nat * Z * Z) :=
  if in_range 0xC2 0xDF c then Some (2%nat, 0x80, 0xBF)
  else if c =? 0xE0 then Some (3%nat, 0xA0, 0xBF)
  else if c =? 0xED then Some (3%nat, 0x80, 0x9F)
  else if in_range 0xE1 0xEF c then Some (3%nat, 0x80, 0xBF)
  else if c =? 0xF0 then Some (4%nat, 0x90, 0xBF)
  else if in_range 0xF1 0xF3 c then Some (4%nat, 0x80, 0xBF)
  else if c =? 0xF4 then Some (4%nat, 0x80, 0x8F)
  else None.

Definition cont (c : Z) : bool := in_range 0x80 0xBF c.

(** [utf8.DecodeRuneInString]: the rune and its width; an invalid byte is
    [RuneError] of width 1. *)
Definition DecodeRune (s : string) : Z * nat :=
  match s with
  | ""%string => (RuneError, 0%nat)
  | String c0 s =>
      let c0 := code c0 in
      if c0 <? 0x80 then (c0, 1%nat)
      else match first_byte c0, s with
      | Some (2%nat, lo, hi), String c1 _ =>
          if in_range lo hi (code c1)
          then (Z.land c0 0x1F * 64 + Z.land (code c1) 0x3F, 2%nat) else (RuneError, 1%nat)
      | Some (3%nat, lo, hi), String c1 (String c2 _) =>
          if in_range lo hi (code c1) && cont (code c2)
          then (Z.land c0 0x0F * 4096 + Z.land (code c1) 0x3F * 64 + Z.land (code c2) 0x3F, 3%nat)
          else (RuneError, 1%nat)
      | Some (4%nat, lo, hi), String c1 (String c2 (String c3 _)) =>
          if in_range lo hi (code c1) && cont (code c2) && cont (code c3)
          then (Z.land c0 0x07 * 262144 + Z.land (code c1) 0x3F * 4096
                + Z.land (code c2) 0x3F * 64 + Z.land (code c3) 0x3F, 4%nat)
          else (RuneError, 1%nat)
      | _, _ => (RuneError, 1%nat)
      end
  end.

(** [utf8.AppendRune]: surrogates and numbers beyond U+10FFFF are written as
    [RuneError]. *)
Definition encode_rune (r : Z) : string :=
  let r := if (r <? 0) || (0x10FFFF <? r) || in_range 0xD800 0xDFFF r then RuneError else r in
  let tail k := chr (0x80 + Z.land (Z.shiftr r k) 0x3F) in
  if r <? 0x80 then String (chr r) ""
  else if r <? 0x800 then String (chr (0xC0 + Z.shiftr r 6)) (String (tail 0) "")
  else if r <? 0x10000
  then String (chr (0xE0 + Z.shiftr r 12)) (String (tail 6) (String (tail 0) ""))
  else String (chr (0xF0 + Z.shiftr r 18)) (String (tail 12) (String (tail 6) (String (tail 0) ""))).

Fixpoint drop_str (n : nat) (s : string) : string :=
  match n, s with
  | O, _ => s
  | S n, ""%string => ""
  | S n, String _ s => drop_str n s
  end.
Fixpoint take_str (n : nat) (s : string) : string :=
  match n, s with
  | O, _ => ""
  | S n, ""%string => ""
  | S n, String c s => String c (take_str n s)
  end.

Lemma length_drop_str n s : String.length (drop_str n s) = (String.length s - n)%nat.
Proof. revert s. induction n; intros [|c s]; simpl; auto. Qed.

Lemma take_drop_str n s : take_str n s +:+ drop_str n s = s.
Proof.
  revert s. induction n; intros [|c s]; try reflexivity.
  change (String c (take_str n s +:+ drop_str n s) = String c s). rewrite IHn. reflexivity.
Qed.

Lemma DecodeRune_width s : s <> ""%string -> (1 <= snd (DecodeRune s) <= String.length s)%nat.
Proof.
  destruct s as [|c0 s]; [congruence|]. intros _. cbn -[first_byte in_range Z.land].
  destruct (code c0 <? 128); [cbn; lia|].
  destruct (first_byte (code c0)) as [[[n lo] hi]|]; [|cbn; lia].
  destruct n as [|[|[|[|[|n]]]]]; cbn -[in_range Z.land]; try lia;
    destruct s as [|c1 [|c2 [|c3 s]]]; cbn -[in_range Z.land]; try lia;
    repeat (case_match; cbn -[Z.land]; try lia).
Qed.

(** ** [strings] *)
Definition is_upper (c : ascii) : bool := in_range 65 90 (code c).
Definition is_lower (c : ascii) : bool := in_range 97 122 (code c).
Definition to_lower_ascii (c : ascii) : ascii := if is_upper c then chr (code c + 32) else c.

Fixpoint map_str (f : ascii -> ascii) (s : string) : string :=
  match s with ""%string => ""%string | String c s => String (f c) (map_str f s) end.

(** The space characters: U+0009-U+000D, U+0020, U+0085, U+00A0 and the
    Unicode category of separators. *)
Definition is_space (r : Z) : bool :=
  in_range 9 13 r || (r =? 0x20) || (r =? 0x85) || (r =? 0xA0) || (r =? 0x1680)
  || in_range 0x2000 0x200A r || (r =? 0x2028) || (r =? 0x2029) || (r =? 0x202F)
  || (r =? 0x205F) || (r =? 0x3000).

(** The runes of a string with the bytes each was decoded from. *)
Fixpoint runes_go (fuel : nat) (s : string) : list (Z * string) :=
  match fuel with
  | O => []
  | S fuel =>
      match s with
      | ""%string => []
      | _ => let '(r, n) := DecodeRune s in (r, take_str n s) :: runes_go fuel (drop_str n s)
      end
  end.
Definition runes (s : string) : list (Z * string) := runes_go (String.length s) s.

Definition unrunes (l : list (Z * string)) : string := String.concat "" (map snd l).

Fixpoint drop_while {A} (f : A -> bool) (l : list A) : list A :=
  match l with [] => [] | x :: l' => if f x then drop_while f l' else l end.

(** [strings.TrimFunc]. *)
Definition trim_runes (f : Z -> bool) (s : string) : string :=
  let g x := f (fst x) in
  unrunes (rev (drop_while g (rev (drop_while g (runes s))))).
Definition TrimSpace : string -> string := trim_runes is_space.

Lemma concat_cons (x : string) l : String.concat "" (x :: l) = x +:+ String.concat "" l.
Proof.
  destruct l as [|y l]; [|reflexivity]. cbn. induction x as [|c x IH]; [reflexivity|].
  change (String c x = String c (x +:+ "")). rewrite <- IH. reflexivity.
Qed.

Lemma runes_go_unrunes fuel s :
  (String.length s <= fuel)%nat -> unrunes (runes_go fuel s) = s.
Proof.
  revert s. induction fuel as [|fuel IH]; intros s Hs.
  - destruct s; [reflexivity|simpl in Hs; lia].
  - cbn [runes_go]. destruct s as [|c s]; [reflexivity|].
    pose proof (DecodeRune_width (String c s) ltac:(discriminate)) as Hw.
    destruct (DecodeRune (String c s)) as [r n]. cbn [snd] in Hw.
    unfold unrunes. cbn [map snd]. rewrite concat_cons. fold (unrunes (runes_go fuel (drop_str n (String c s)))).
    rewrite IH by (rewrite length_drop_str; simpl in *; lia). apply take_drop_str.
Qed.

(** Decoding into runes loses nothing, invalid bytes included. *)
Lemma runes_unrunes s : unrunes (runes s) = s.
Proof. apply runes_go_unrunes. reflexivity. Qed.

(** [strings.Index]: the position of the first occurrence. *)
Fixpoint Index (s sub : string) : option nat :=
  if HasPrefix s sub then Some 0%nat
  else match s with
       | ""%string => None
       | String _ s => S <$> Index s sub
       end.
Definition Contains (s sub : string) : bool := match Index s sub with Some _ => true | None => false end.

(** [strings.ReplaceAll] and [strings.Split] of a one-byte separator. *)
Fixpoint replace_char (c : ascii) (by_ : string) (s : string) : string :=
  match s with
  | ""%string => ""%string
  | String d s => (if bool_decide (d = c) then by_ else String d "") +:+ replace_char c by_ s
  end.

Fixpoint split_char (c : ascii) (s : string) : list string :=
  match s with
  | ""%string => [""%string]
  | String d s =>
      if bool_decide (d = c) then ""%string :: split_char c s
      else match split_char c s with
           | [] => [String d ""] (* not reached: a split is not empty *)
           | x :: l => String d x :: l
           end
  end.

(** [strings.Cut] at a one-byte separator. *)
Fixpoint Cut (c : ascii) (s : string) : option (string * string) :=
  match s with
  | ""%string => None
  | String d s =>
      if bool_decide (d = c) then Some (""%string, s)
      else match Cut c s with Some (a, b) => Some (String d a, b) | None => None end
  end.

Lemma split_char_join c s : String.concat (String c "") (split_char c s) = s.
Proof.
  induction s as [|d s IH]; [reflexivity|]. cbn [split_char].
  destruct (bool_decide_reflect (d = c)) as [->|Hne].
  - destruct (split_char c s) as [|x l] eqn:E; [destruct s; cbn in E; [discriminate|]; repeat case_match; discriminate|].
    change (String c (String.concat (String c "") (x :: l)) = String c s). congruence.
  - destruct (split_char c s) as [|x l] eqn:E; [destruct s; cbn in E; [discriminate|]; repeat case_match; discriminate|].
    rewrite <- IH. destruct l as [|y l]; reflexivity.
Qed.

(** [strings.ReplaceAll] of a longer pattern, left to right. *)
Fixpoint ReplaceAll_go (fuel : nat) (s old new : string) : string :=
  match fuel with
  | O => s
  | S fuel =>
      if HasPrefix s old then new +:+ ReplaceAll_go fuel (drop_str (String.length old) s) old new
      else match s with
           | ""%string => ""%string
           | String c s => String c (ReplaceAll_go fuel s old new)
           end
  end.
Definition ReplaceAll (s old new : string) : string := ReplaceAll_go (S (String.length s)) s old new.

Fixpoint existsb_str (f : ascii -> bool) (s : string) : bool :=
  match s with ""%string => false | String c s => f c || existsb_str f s end.

Example decode_examples :
  map DecodeRune ["A"; String (chr 0xC3) (String (chr 0xA9) "x");
    String (chr 0xE2) (String (chr 0x82) (String (chr 0xAC) ""));
    String (chr 0xC0) "a"; String (chr 0xED) (String (chr 0xA0) (String (chr 0x80) ""))]%string
  = [(65, 1%nat); (233, 2%nat); (8364, 3%nat); (65533, 1%nat); (65533, 1%nat)].
Proof. vm_compute. reflexivity. Qed.

(** ** Well-formed text: decoding inverts encoding *)

(** Division and remainder in linear arithmetic. *)
#[local] Ltac Zify.zify_post_hook ::= Z.to_euclidean_division_equations.

Definition valid_rune (r : Z) : Prop := 0 <= r <= 0x10FFFF /\ ~ (0xD800 <= r <= 0xDFFF).

(** The text of a list of runes; [well_formed] strings are such texts. *)
Fixpoint text (rs : list Z) : string :=
  match rs with [] => ""%string | r :: rs => encode_rune r +:+ text rs end.
Definition well_formed (s : string) : Prop := exists rs, Forall valid_rune rs /\ s = text rs.

Lemma code_chr z : 0 <= z < 256 -> code (chr z) = z.
Proof.
  intros H. unfold code, chr. rewrite nat_ascii_embedding by lia. lia.
Qed.

Lemma land_63 a : Z.land a 63 = a mod 64.
Proof. exact (Z.land_ones a 6 ltac:(lia)). Qed.
Lemma land_31 a : Z.land a 31 = a mod 32.
Proof. exact (Z.land_ones a 5 ltac:(lia)). Qed.
Lemma land_15 a : Z.land a 15 = a mod 16.
Proof. exact (Z.land_ones a 4 ltac:(lia)). Qed.
Lemma land_7 a : Z.land a 7 = a mod 8.
Proof. exact (Z.land_ones a 3 ltac:(lia)). Qed.

Lemma in_range_spec lo hi z : in_range lo hi z = bool_decide (lo <= z <= hi).
Proof. unfold in_range. case_bool_decide; zcases; reflexivity || lia. Qed.

Lemma tail_mod r k : 0 <= k -> 128 + Z.land (Z.shiftr r k) 63 = 128 + (r / 2 ^ k) mod 64.
Proof. intros. rewrite land_63, Z.shiftr_div_pow2 by lia. reflexivity. Qed.

Lemma string_app_cons c s t : String c s +:+ t = String c (s +:+ t).
Proof. reflexivity. Qed.

Lemma encode_valid r : valid_rune r ->
  encode_rune r =
    if r <? 0x80 then String (chr r) ""
    else if r <? 0x800 then String (chr (0xC0 + r / 64)) (String (chr (0x80 + r mod 64)) "")
    else if r <? 0x10000
    then String (chr (0xE0 + r / 4096)) (String (chr (0x80 + (r / 64) mod 64)) (String (chr (0x80 + r mod 64)) ""))
    else String (chr (0xF0 + r / 262144)) (String (chr (0x80 + (r / 4096) mod 64))
           (String (chr (0x80 + (r / 64) mod 64)) (String (chr (0x80 + r mod 64)) ""))).
Proof.
  intros [H1 H2]. unfold encode_rune. rewrite in_range_spec, bool_decide_eq_false_2 by lia.
  replace ((r <? 0) || (1114111 <? r) || false) with false by (zcases; reflexivity).
  rewrite !tail_mod, !Z.shiftr_div_pow2 by lia.
  change (2 ^ 0) with 1. change (2 ^ 6) with 64. change (2 ^ 12) with 4096. change (2 ^ 18) with 262144.
  rewrite Z.div_1_r. reflexivity.
Qed.

(** Every byte after the first is a continuation byte. *)
Lemma first_byte_2 c : 0xC2 <= c <= 0xDF -> first_byte c = Some (2%nat, 0x80, 0xBF).
Proof. intros. unfold first_byte. rewrite in_range_spec, bool_decide_eq_true_2 by lia. reflexivity. Qed.

Lemma first_byte_3 c d : 0xE0 <= c <= 0xEF -> 0x80 <= d <= 0xBF ->
  (c = 0xE0 -> 0xA0 <= d) -> (c = 0xED -> d <= 0x9F) ->
  exists lo hi, first_byte c = Some (3%nat, lo, hi) /\ in_range lo hi d = true.
Proof.
  intros Hc Hd H0 H1. unfold first_byte. rewrite (in_range_spec _ _ c), bool_decide_eq_false_2 by lia.
  destruct (Z.eqb_spec c 0xE0); [do 2 eexists; split; [reflexivity|]; rewrite in_range_spec; apply bool_decide_eq_true_2; lia|].
  destruct (Z.eqb_spec c 0xED); [do 2 eexists; split; [reflexivity|]; rewrite in_range_spec; apply bool_decide_eq_true_2; lia|].
  rewrite (in_range_spec _ _ c), bool_decide_eq_true_2 by lia.
  do 2 eexists; split; [reflexivity|]; rewrite in_range_spec; apply bool_decide_eq_true_2; lia.
Qed.

Lemma first_byte_4 c d : 0xF0 <= c <= 0xF4 -> 0x80 <= d <= 0xBF ->
  (c = 0xF0 -> 0x90 <= d) -> (c = 0xF4 -> d <= 0x8F) ->
  exists lo hi, first_byte c = Some (4%nat, lo, hi) /\ in_range lo hi d = true.
Proof.
  intros Hc Hd H0 H1. assert (c = 0xF0 \/ c = 0xF1 \/ c = 0xF2 \/ c = 0xF3 \/ c = 0xF4) as Hcases by lia.
  destruct Hcases as [-> |[-> |[-> |[-> | ->]]]];
    try specialize (H0 eq_refl); try specialize (H1 eq_refl);
    (do 2 eexists; split; [reflexivity|]; rewrite in_range_spec; apply bool_decide_eq_true_2; lia).
Qed.

Lemma cont_tail z : cont (128 + z mod 64) = true.
Proof. unfold cont. rewrite in_range_spec. apply bool_decide_eq_true_2. lia. Qed.

Lemma DecodeRune_encode r s : valid_rune r ->
  DecodeRune (encode_rune r +:+ s) = (r, String.length (encode_rune r)).
Proof.
  intros Hv. rewrite (encode_valid r Hv). destruct Hv as [H1 H2].
  destruct (Z.ltb_spec r 0x80) as [Ha|Ha].
  { rewrite string_app_cons. cbn [DecodeRune]. rewrite code_chr by lia.
    rewrite (proj2 (Z.ltb_lt _ _)) by lia. reflexivity. }
  destruct (Z.ltb_spec r 0x800) as [Hb|Hb].
  { rewrite !string_app_cons. cbn [DecodeRune]. rewrite !code_chr by lia.
    rewrite (proj2 (Z.ltb_ge _ _)), first_byte_2 by lia. fold (cont (128 + r mod 64)). rewrite cont_tail, land_31, land_63.
    f_equal. lia. }
  destruct (Z.ltb_spec r 0x10000) as [Hc|Hc].
  { rewrite !string_app_cons. cbn [DecodeRune]. rewrite !code_chr by lia.
    rewrite (proj2 (Z.ltb_ge _ _)) by lia.
    destruct (first_byte_3 (0xE0 + r / 4096) (0x80 + (r / 64) mod 64)) as (lo & hi & -> & ->); try lia.
    rewrite cont_tail, land_15, !land_63. cbn [andb]. f_equal. lia. }
  rewrite !string_app_cons. cbn [DecodeRune]. rewrite !code_chr by lia.
  rewrite (proj2 (Z.ltb_ge _ _)) by lia.
  destruct (first_byte_4 (0xF0 + r / 262144) (0x80 + (r / 4096) mod 64)) as (lo & hi & -> & ->); try lia.
  rewrite !cont_tail, land_7, !land_63. cbn [andb]. f_equal. lia.
Qed.

Lemma encode_rune_ne r : encode_rune r <> ""%string.
Proof. unfold encode_rune. repeat case_match; discriminate. Qed.

Lemma take_drop_app s t :
  take_str (String.length s) (s +:+ t) = s /\ drop_str (String.length s) (s +:+ t) = t.
Proof.
  induction s as [|c s [IH1 IH2]]; [destruct t; auto|]. split.
  - change (String c (take_str (String.length s) (s +:+ t)) = String c s). rewrite IH1. reflexivity.
  - exact IH2.
Qed.

Lemma runes_go_app fuel rs s : Forall valid_rune rs ->
  (String.length (text rs +:+ s) <= fuel)%nat ->
  exists fuel', (String.length s <= fuel')%nat
    /\ runes_go fuel (text rs +:+ s) = map (fun r => (r, encode_rune r)) rs ++ runes_go fuel' s.
Proof.
  revert fuel. induction rs as [|r rs IH]; intros fuel Hv Hf; [exists fuel; auto|].
  apply Forall_cons in Hv as [Hr Hv]. cbn [text] in *. rewrite app_str_assoc in Hf |- *.
  destruct fuel as [|fuel].
  { rewrite string_length_app in Hf. pose proof (encode_rune_ne r). destruct (encode_rune r); [congruence|simpl in Hf; lia]. }
  destruct (IH fuel Hv) as (fuel' & H1 & H2).
  { rewrite string_length_app in Hf. pose proof (encode_rune_ne r). destruct (encode_rune r); [congruence|simpl in Hf; lia]. }
  exists fuel'. split; [exact H1|]. cbn [runes_go].
  destruct (encode_rune r +:+ (text rs +:+ s)) as [|c t] eqn:E.
  { pose proof (encode_rune_ne r). destruct (encode_rune r); [congruence|discriminate]. }
  rewrite <- E, DecodeRune_encode by exact Hr.
  destruct (take_drop_app (encode_rune r) (text rs +:+ s)) as [-> ->]. rewrite H2. reflexivity.
Qed.

(** More fuel than bytes changes nothing. *)
Lemma runes_go_fuel fuel : forall fuel' s, (String.length s <= fuel)%nat -> (String.length s <= fuel')%nat ->
  runes_go fuel s = runes_go fuel' s.
Proof.
  induction fuel as [|fuel IH]; intros fuel' s H1 H2.
  - destruct s; [destruct fuel'; reflexivity|simpl in H1; lia].
  - destruct s as [|c s]; [destruct fuel'; reflexivity|]. destruct fuel' as [|fuel']; [simpl in H2; lia|].
    cbn [runes_go]. pose proof (DecodeRune_width (String c s) ltac:(discriminate)) as Hw.
    destruct (DecodeRune (String c s)) as [r n]. cbn [snd] in Hw. f_equal.
    apply IH; rewrite length_drop_str; simpl in *; lia.
Qed.

(** The runes of a well-formed text followed by any bytes. *)
Lemma runes_app rs s : Forall valid_rune rs ->
  runes (text rs +:+ s) = map (fun r => (r, encode_rune r)) rs ++ runes s.
Proof.
  intros Hv. destruct (runes_go_app _ rs s Hv (Nat.le_refl _)) as (f & H1 & H2). unfold runes at 1.
  rewrite H2. f_equal. apply runes_go_fuel; auto.
Qed.

Lemma app_str_nil s : s +:+ "" = s.
Proof. induction s as [|c s IH]; [reflexivity|]. change (String c (s +:+ "") = String c s). rewrite IH. reflexivity. Qed.

Lemma runes_text rs : Forall valid_rune rs -> runes (text rs) = map (fun r => (r, encode_rune r)) rs.
Proof.
  intros Hv. pose proof (runes_app rs "" Hv) as H. rewrite app_nil_r in H. rewrite <- H. f_equal.
  symmetry. apply app_str_nil.
Qed.

Lemma text_app rs rs' : text (rs ++ rs') = text rs +:+ text rs'.
Proof. induction rs as [|r rs IH]; [reflexivity|]. cbn. rewrite IH, app_str_assoc. reflexivity. Qed.
