(* ===== verification/Sha1.v ===== *)
(** * SHA-1 and hexadecimal text (packages [crypto/sha1], [encoding/hex]) *)
From S2P Require Import Prelude GoStrings.

Module Sha1.

Definition rotl (n x : Z) : Z := u32 (Z.lor (Z.shiftl x n) (Z.shiftr x (32 - n))).
Definition not32 (x : Z) : Z := Z.lxor x 0xffffffff.

Fixpoint be_Z (bs : list byte) (acc : Z) : Z :=
  match bs with [] => acc | b :: bs => be_Z bs (acc * 256 + Z_of_byte b) end.
Definition be_bytes (n : nat) (z : Z) : list byte := rev (le_bytes n z).

(** The message, a 1 bit, zeros, and the length in bits: whole blocks. *)
Definition pad (m : list byte) : list byte :=
  let n := Z.of_nat (length m) in
  m ++ [x80] ++ replicate (Z.to_nat ((55 - n) mod 64)) x00 ++ be_bytes 8 (n * 8).

Fixpoint blocks (fuel : nat) (k : nat) (l : list byte) : list (list byte) :=
  match fuel, l with
  | O, _ | _, [] => []
  | S fuel, _ => take k l :: blocks fuel k (drop k l)
  end.

(** The message schedule, latest word first. *)
Fixpoint extend (n : nat) (w : list Z) : list Z :=
  match n with
  | O => w
  | S n =>
      let x := Z.lxor (Z.lxor (nth 2 w 0) (nth 7 w 0)) (Z.lxor (nth 13 w 0) (nth 15 w 0)) in
      extend n (rotl 1 x :: w)
  end.

Definition f_k (t : nat) (b c d : Z) : Z * Z :=
  if (t <? 20)%nat then (Z.lor (Z.land b c) (Z.land (not32 b) d), 0x5a827999)
  else if (t <? 40)%nat then (Z.lxor b (Z.lxor c d), 0x6ed9eba1)
  else if (t <? 60)%nat
  then (Z.lor (Z.land b c) (Z.lor (Z.land b d) (Z.land c d)), 0x8f1bbcdc)
  else (Z.lxor b (Z.lxor c d), 0xca62c1d6).

Fixpoint rounds (t : nat) (w : list Z) (h : Z * Z * Z * Z * Z) : Z * Z * Z * Z * Z :=
  match w with
  | [] => h
  | x :: w =>
      let '(a, b, c, d, e) := h in
      let '(f, k) := f_k t b c d in
      rounds (S t) w (u32 (rotl 5 a + f + e + k + x), a, rotl 30 b, c, d)
  end.

Definition block (h : Z * Z * Z * Z * Z) (m : list byte) : Z * Z * Z * Z * Z :=
  let w := rev (extend 64 (rev (map (fun b => be_Z b 0) (blocks 16 4 m)))) in
  let '(a, b, c, d, e) := h in
  let '(a', b', c', d', e') := rounds 0 w h in
  (u32 (a + a'), u32 (b + b'), u32 (c + c'), u32 (d + d'), u32 (e + e')).

Definition sha1 (m : list byte) : list byte :=
  let p := pad m in
  let '(a, b, c, d, e) := fold_left block (blocks (length p) 64 p)
    (0x67452301, 0xefcdab89, 0x98badcfe, 0x10325476, 0xc3d2e1f0) in
  be_bytes 4 a ++ be_bytes 4 b ++ be_bytes 4 c ++ be_bytes 4 d ++ be_bytes 4 e.

Definition hex_char (d : Z) : ascii :=
  ascii_of_nat (Z.to_nat (if d <? 10 then 48 + d else 87 + d)).

(** [hex.EncodeToString]. *)
Fixpoint hex_encode (bs : list byte) : string :=
  match bs with
  | [] => ""%string
  | b :: bs => String (hex_char (Z_of_byte b / 16)) (String (hex_char (Z_of_byte b mod 16)) (hex_encode bs))
  end.

Lemma length_hex_encode bs : String.length (hex_encode bs) = (2 * length bs)%nat.
Proof. induction bs; simpl; lia. Qed.

Lemma length_sha1 m : length (sha1 m) = 20%nat.
Proof.
  unfold sha1. destruct (fold_left _ _ _) as [[[[a b] c] d] e].
  unfold be_bytes. rewrite !length_app, !length_rev, !length_le_bytes. reflexivity.
Qed.

(** The vectors of FIPS 180: "", "abc" and the 448-bit message. *)
Example sha1_vectors :
  map (fun s => hex_encode (sha1 (list_byte_of_string s)))
    [""; "abc"; "abcdbcdecdefdefgefghfghighijhijkijkljklmklmnlmnomnopnopq"]%string
  = ["da39a3ee5e6b4b0d3255bfef95601890afd80709"; "a9993e364706816aba3e25717850c26c9cd0d89d";
     "84983e441c3bd26ebaae4aa1f95129e5e54670f1"]%string.
Proof. vm_compute. reflexivity. Qed.

End Sha1.
