(* ===== verification/GoRegexp.v ===== *)
(** * Regular expressions (package [regexp]) and [path.Match]

    A matcher for the fragment of RE2 syntax the program uses, with Go's
    leftmost-first meaning: alternatives in order, repetition greedy. It
    works on runes, so a class counts a character of several bytes once. *)
From S2P Require Import Prelude GoStrings GoUtf8.

Module Regexp.

Inductive re :=
  | Eps
  | Set_ (f : Z -> bool)
  | Seq (a b : re)
  | Alt (a b : re)
  | Rep (a : re) (min : nat) (max : option nat)
  | Group (a : re)                 (* the capture group 1 *)
  | WordB                          (* \b *)
  | EndText.                       (* $ without the flag m *)

Definition text := list (Z * string).

(** What precedes the position, what follows it, the runes matched so far
    (latest first) and the capture. *)
Record pos := mkPos { prev : option Z; rest : text; taken : text; cap : text }.

Definition is_word (r : Z) : bool :=
  in_range 48 57 r || in_range 65 90 r || in_range 97 122 r || (r =? 95).
Definition word_at (o : option Z) : bool := match o with Some r => is_word r | None => false end.

Definition advance (x : Z * string) (l : text) (p : pos) : pos :=
  mkPos (Some (fst x)) l (x :: taken p) (cap p).

(** At most [fuel] repetitions, at least [min], the longest first. *)
Fixpoint rep (m : pos -> (pos -> option pos) -> option pos) (fuel min : nat)
    (p : pos) (k : pos -> option pos) : option pos :=
  match fuel with
  | O => match min with O => k p | S _ => None end
  | S fuel =>
      match m p (fun p' => rep m fuel (pred min) p' k) with
      | Some r => Some r
      | None => match min with O => k p | S _ => None end
      end
  end.

(** [match_ r p k]: the first way to match [r] at [p] after which [k]
    succeeds. *)
Fixpoint match_ (r : re) (p : pos) (k : pos -> option pos) : option pos :=
  match r with
  | Eps => k p
  | Set_ f =>
      match rest p with
      | x :: l => if f (fst x) then k (advance x l p) else None
      | [] => None
      end
  | Seq a b => match_ a p (fun p => match_ b p k)
  | Alt a b => match match_ a p k with Some q => Some q | None => match_ b p k end
  | Rep a min max =>
      rep (match_ a) (match max with Some n => n | None => length (rest p) end) min p k
  | Group a =>
      match_ a p (fun q =>
        k (mkPos (prev q) (rest q) (taken q)
             (rev (take (length (taken q) - length (taken p)) (taken q)))))
  | WordB =>
      if Bool.eqb (word_at (prev p)) (word_at (fst <$> head (rest p))) then None else k p
  | EndText => match rest p with [] => k p | _ => None end
  end.

Definition match_at (r : re) (prev : option Z) (l : text) : option pos :=
  match_ r (mkPos prev l [] []) Some.

(** The loop of ReplaceAllString from left to right, for expressions that do
    not match the empty text: [repl] makes the replacement of a match from
    its capture. *)
Fixpoint replace_go (fuel : nat) (r : re) (repl : text -> text) (prev_ : option Z) (l : text) : text :=
  match fuel with
  | O => l
  | S fuel =>
      match l with
      | [] => []
      | x :: l' =>
          match match_at r prev_ l with
          | Some q => repl (cap q) ++ replace_go fuel r repl (prev q) (rest q)
          | None => x :: replace_go fuel r repl (Some (fst x)) l'
          end
      end
  end.

Definition ReplaceAllFunc (r : re) (repl : text -> text) (l : text) : text :=
  replace_go (length l) r repl None l.
Definition ReplaceAllString (r : re) (repl : string) (s : string) : string :=
  unrunes (ReplaceAllFunc r (fun _ => runes repl) (runes s)).

(** ** Writing expressions *)
Definition is_digit (r : Z) : bool := in_range 48 57 r.
Definition is_hex (r : Z) : bool := in_range 48 57 r || in_range 97 102 r || in_range 65 70 r.
Definition chars (s : string) (r : Z) : bool := existsb_str (fun c => code c =? r) s.

Fixpoint lit (s : string) : re :=
  match s with
  | ""%string => Eps
  | String c ""%string => Set_ (Z.eqb (code c))
  | String c s => Seq (Set_ (Z.eqb (code c))) (lit s)
  end.
Fixpoint seqs (l : list re) : re :=
  match l with [] => Eps | [r] => r | r :: l => Seq r (seqs l) end.
Fixpoint alts (l : list re) : re :=
  match l with [] => Eps | [r] => r | r :: l => Alt r (alts l) end.
Definition plus (r : re) : re := Rep r 1 None.
Definition star (r : re) : re := Rep r 0 None.
Definition times (r : re) (n : nat) : re := Rep r n (Some n).

Example replace_examples :
  ReplaceAllString (plus (Set_ is_digit)) "<n>" "a12b3" = "a<n>b<n>"%string
  /\ ReplaceAllString (seqs [WordB; Rep (Set_ is_hex) 4 None; WordB]) "H" "beef beefy 1234_ 12345" = "H beefy 1234_ H"%string.
Proof. vm_compute. auto. Qed.

(** ** Where matches are *)

(** A match consumes a prefix of the text. *)
Definition from (p q : pos) : Prop :=
  exists w, rest p = w ++ rest q /\ taken q = rev w ++ taken p
    /\ prev q = match last w with Some x => Some (fst x) | None => prev p end.

Lemma from_refl p : from p p.
Proof. exists []. auto. Qed.

Lemma from_trans p q r : from p q -> from q r -> from p r.
Proof.
  intros (w & H1 & H2 & H3) (v & H4 & H5 & H6). exists (w ++ v).
  rewrite H1, H4, app_assoc. split_and!; [reflexivity| |].
  - rewrite H5, H2, rev_app_distr, app_assoc. reflexivity.
  - rewrite last_app, H6, H3. destruct (last v); reflexivity.
Qed.

Lemma from_advance x l p : rest p = x :: l -> from p (advance x l p).
Proof. intros H. exists [x]. rewrite H. auto. Qed.

Lemma rep_sound (m : pos -> (pos -> option pos) -> option pos) fuel :
  (forall p k r, m p k = Some r -> exists q, from p q /\ k q = Some r) ->
  forall min p k r, rep m fuel min p k = Some r -> exists q, from p q /\ k q = Some r.
Proof.
  intros Hm. induction fuel as [|fuel IH]; intros min p k r; cbn [rep].
  - destruct min; [|discriminate]. intros H. exists p. auto using from_refl.
  - destruct (m p _) as [r'|] eqn:E.
    + intros [= ->]. apply Hm in E as (q & Hq & E). apply IH in E as (q' & Hq' & E).
      exists q'. eauto using from_trans.
    + destruct min; [|discriminate]. intros H. exists p. auto using from_refl.
Qed.

(** Whatever a match hands to its continuation lies ahead of its start. *)
Lemma match_sound r : forall p k q, match_ r p k = Some q -> exists q', from p q' /\ k q' = Some q.
Proof.
  induction r as [|f|a IHa b IHb|a IHa b IHb|a IHa mn mx|a IHa| |]; intros p k q; cbn [match_].
  - intros H. exists p. auto using from_refl.
  - destruct (rest p) as [|x l] eqn:E; [discriminate|]. destruct (f (fst x)); [|discriminate].
    intros H. eauto using from_advance.
  - intros H. apply IHa in H as (p1 & H1 & H). apply IHb in H as (p2 & H2 & H). eauto using from_trans.
  - destruct (match_ a p k) eqn:E; [intros [= <-]; eapply IHa, E|apply IHb].
  - apply rep_sound, IHa.
  - intros H. apply IHa in H as (p1 & (w & H1 & H2 & H3) & H). eexists. split; [|exact H]. exists w. auto.
  - destruct (Bool.eqb _ _); [discriminate|]. intros H. exists p. auto using from_refl.
  - destruct (rest p); [|discriminate]. intros H. exists p. auto using from_refl.
Qed.

Lemma match_at_split r pv l q :
  match_at r pv l = Some q -> exists w, l = w ++ rest q.
Proof.
  intros H. apply match_sound in H as (q' & (w & H & _) & [= ->]). exists w. exact H.
Qed.

End Regexp.
