(* ===== verification/GoPath.v ===== *)
(** * [path.Match]: shell patterns

    [*] matches within a path component, [?] one character other than [/],
    [[...]] a class. A malformed pattern is an error, [inl tt]. *)
From S2P Require Import Prelude GoStrings GoUtf8.

Module Path.

Definition ErrBadPattern {A} : unit + A := inl tt.

(** The chunk of a pattern up to the next star outside a class. *)
Fixpoint scan_until (fuel : nat) (inrange : bool) (p : string) : string * string :=
  match fuel, p with
  | O, _ | _, ""%string => (""%string, p)
  | S fuel, String c p' =>
      if bool_decide (c = "\"%char) then
        match p' with
        | String d p'' => let '(a, b) := scan_until fuel inrange p'' in (String c (String d a), b)
        | ""%string => (String c "", ""%string)
        end
      else if bool_decide (c = "*"%char) && negb inrange then (""%string, p)
      else
        let inrange := if bool_decide (c = "["%char) then true
                       else if bool_decide (c = "]"%char) then false else inrange in
        let '(a, b) := scan_until fuel inrange p' in (String c a, b)
  end.

Fixpoint skip_stars (p : string) : bool * string :=
  match p with
  | String c p' => if bool_decide (c = "*"%char) then (true, snd (skip_stars p')) else (false, p)
  | ""%string => (false, p)
  end.

Definition scanChunk (p : string) : bool * string * string :=
  let '(star, p) := skip_stars p in
  let '(chunk, rest) := scan_until (String.length p) false p in
  (star, chunk, rest).

Definition getEsc (chunk : string) : unit + Z * string :=
  let decode chunk :=
    let '(r, n) := DecodeRune chunk in
    let nchunk := drop_str n chunk in
    if (r =? RuneError) && (n =? 1)%nat then ErrBadPattern
    else if bool_decide (nchunk = ""%string) then ErrBadPattern
    else inr (r, nchunk) in
  match chunk with
  | ""%string => ErrBadPattern
  | String c chunk' =>
      if bool_decide (c = "-"%char) || bool_decide (c = "]"%char) then ErrBadPattern
      else if bool_decide (c = "\"%char)
      then match chunk' with ""%string => ErrBadPattern | _ => decode chunk' end
      else decode chunk
  end.

(** The ranges of a class, up to its bracket: whether one holds [r]. *)
Fixpoint class_ranges (fuel : nat) (chunk : string) (r : Z) (nrange : nat) (m : bool)
    : unit + bool * string :=
  match fuel with
  | O => ErrBadPattern
  | S fuel =>
      let one :=
        match getEsc chunk with
        | inl e => inl e
        | inr (lo, chunk1) =>
            match chunk1 with
            | String c chunk2 =>
                if bool_decide (c = "-"%char) then
                  match getEsc chunk2 with
                  | inl e => inl e
                  | inr (hi, chunk3) => class_ranges fuel chunk3 r (S nrange) (m || in_range lo hi r)
                  end
                else class_ranges fuel chunk1 r (S nrange) (m || in_range lo lo r)
            | ""%string => ErrBadPattern
            end
        end in
      match chunk, nrange with
      | String c chunk', S _ => if bool_decide (c = "]"%char) then inr (m, chunk') else one
      | _, _ => one
      end
  end.

(** [Some (Some rest)]: the chunk matches and [rest] of the name is left. *)
Fixpoint match_chunk (fuel : nat) (chunk s : string) (failed : bool) : unit + option string :=
  match fuel with
  | O => inr (if failed then None else Some s)
  | S fuel =>
      match chunk with
      | ""%string => inr (if failed then None else Some s)
      | String c chunk' =>
          let failed := failed || bool_decide (s = ""%string) in
          if bool_decide (c = "["%char) then
            let '(r, n) := if failed then (0, 0%nat) else DecodeRune s in
            let s := drop_str n s in
            let '(negated, chunk') :=
              match chunk' with
              | String d chunk'' => if bool_decide (d = "^"%char) then (true, chunk'') else (false, chunk')
              | ""%string => (false, chunk')
              end in
            match class_ranges (S (String.length chunk')) chunk' r 0 false with
            | inl e => inl e
            | inr (m, chunk') => match_chunk fuel chunk' s (failed || Bool.eqb m negated)
            end
          else if bool_decide (c = "?"%char) then
            let slash := match s with String d _ => bool_decide (d = "/"%char) | _ => false end in
            match_chunk fuel chunk' (if failed then s else drop_str (snd (DecodeRune s)) s)
              (failed || slash)
          else
            let one c chunk' :=
              match_chunk fuel chunk' (if failed then s else drop_str 1 s)
                (failed || match s with String d _ => negb (bool_decide (c = d)) | _ => true end) in
            if bool_decide (c = "\"%char)
            then match chunk' with ""%string => ErrBadPattern | String c chunk' => one c chunk' end
            else one c chunk'
      end
  end.
Definition matchChunk (chunk s : string) : unit + option string :=
  match_chunk (String.length chunk) chunk s false.

(** The tries of a chunk after a star: at most the component is skipped. *)
Fixpoint star_skip (chunk name : string) (last : bool) : unit + option string :=
  match name with
  | ""%string => inr None
  | String c name' =>
      if bool_decide (c = "/"%char) then inr None
      else match matchChunk chunk name' with
           | inl e => inl e
           | inr (Some t) =>
               if last && negb (bool_decide (t = ""%string)) then star_skip chunk name' last
               else inr (Some t)
           | inr None => star_skip chunk name' last
           end
  end.

Fixpoint check_rest (fuel : nat) (pattern : string) : unit + bool :=
  match fuel, pattern with
  | O, _ | _, ""%string => inr false
  | S fuel, _ =>
      let '(_, chunk, pattern) := scanChunk pattern in
      match matchChunk chunk "" with inl e => inl e | inr _ => check_rest fuel pattern end
  end.

Fixpoint match_go (fuel : nat) (pattern name : string) : unit + bool :=
  match fuel, pattern with
  | O, _ | _, ""%string => inr (bool_decide (name = ""%string))
  | S fuel, _ =>
      let '(star, chunk, pattern) := scanChunk pattern in
      if star && bool_decide (chunk = ""%string)
      then inr (negb (existsb_str (fun c => bool_decide (c = "/"%char)) name))
      else
        let last := bool_decide (pattern = ""%string) in
        match matchChunk chunk name with
        | inl e => inl e
        | inr r =>
            match match r with
                  | Some t => if bool_decide (t = ""%string) || negb last then Some t else None
                  | None => None end with
            | Some t => match_go fuel pattern t
            | None =>
                match (if star then star_skip chunk name last else inr None) with
                | inl e => inl e
                | inr (Some t) => match_go fuel pattern t
                | inr None => check_rest (String.length pattern) pattern
                end
            end
        end
  end.

(** Every turn consumes a byte of the pattern. *)
Definition Match (pattern name : string) : unit + bool :=
  match_go (String.length pattern) pattern name.

(** Cases of the Go documentation's test table. *)
Example match_examples :
  map (fun '(p, s) => Match p s)
    [("abc", "abc"); ("*", "abc"); ("*c", "abc"); ("a*", "a"); ("a*", "ab/c"); ("a*/b", "abc/b");
     ("a*b*c*d*e*/f", "axbxcxdxe/f"); ("a*b?c*x", "abxbbxdbxebxczzx"); ("a*b?c*x", "abxbbxdbxebxczzy");
     ("ab[c]", "abc"); ("ab[b-d]", "abc"); ("ab[e-g]", "abc"); ("ab[^c]", "abc"); ("ab[^e-g]", "abc");
     ("a\*b", "a*b"); ("a\*b", "ab"); ("a???b", "abb"); ("[]a]", "]"); ("[-]", "-"); ("[x-]", "x");
     ("[\]a]", "]"); ("[a-b-c]", "a"); ("[", "a"); ("[^bc", "a"); ("a[", "ab"); ("*x", "xxx")]%string
  = [inr true; inr true; inr true; inr true; inr false; inr true;
     inr true; inr true; inr false;
     inr true; inr true; inr false; inr false; inr true;
     inr true; inr false; inr false; inl tt; inl tt; inl tt;
     inr true; inl tt; inl tt; inl tt; inl tt; inr true].
Proof. vm_compute. reflexivity. Qed.

End Path.
