(* ===== verification/GoJson.v ===== *)
(** * JSON (package [encoding/json])

    The syntax json.Unmarshal accepts, and the decoding of a value into the
    Go types the program uses: strings, lists of strings, optional integers
    and booleans, structs and [json.RawMessage]. A value of the wrong type is
    skipped and makes Unmarshal return an error in the end. *)
From S2P Require Import Prelude GoStrings GoUtf8.
#[local] Open Scope Z_scope.
#[local] Open Scope leser_scope.

Module Json.

Inductive json :=
  | JNull | JBool (b : bool) | JNum (lit : string) | JStr (s : string)
  | JArr (l : list json) | JObj (l : list (string * json)).

(** A parse: a result and what follows it, a syntax error, or no fuel. *)
Inductive res (A : Type) := Ok (a : A) (rest : string) | Bad | Fuel.
Arguments Ok {A} _ _.
Arguments Bad {A}.
Arguments Fuel {A}.

Definition is_ws (c : ascii) : bool :=
  let z := code c in (z =? 32) || (z =? 9) || (z =? 13) || (z =? 10).
Fixpoint skip_ws (s : string) : string :=
  match s with String c s' => if is_ws c then skip_ws s' else s | ""%string => s end.

(** ** Strings *)
Definition hex_val (c : ascii) : option Z :=
  let z := code c in
  if in_range 48 57 z then Some (z - 48)
  else if in_range 97 102 z then Some (z - 87)
  else if in_range 65 70 z then Some (z - 55) else None.

Definition hex4 (a b c d : ascii) : option Z :=
  match hex_val a, hex_val b, hex_val c, hex_val d with
  | Some a, Some b, Some c, Some d => Some (((a * 16 + b) * 16 + c) * 16 + d)
  | _, _, _, _ => None
  end.

Definition simple_escape (c : ascii) : option ascii :=
  if bool_decide (c = "b"%char) then Some (chr 8)
  else if bool_decide (c = "f"%char) then Some (chr 12)
  else if bool_decide (c = "n"%char) then Some (chr 10)
  else if bool_decide (c = "r"%char) then Some (chr 13)
  else if bool_decide (c = "t"%char) then Some (chr 9)
  else if bool_decide (c = "\"%char) || bool_decide (c = "/"%char) || (code c =? 34) then Some c
  else None.

(** [\uXXXX] at the head of the string. *)
Definition getu4 (s : string) : option (Z * string) :=
  match s with
  | String b (String u (String c1 (String c2 (String c3 (String c4 s))))) =>
      if bool_decide (b = "\"%char) && bool_decide (u = "u"%char)
      then match hex4 c1 c2 c3 c4 with Some r => Some (r, s) | None => None end
      else None
  | _ => None
  end.

(** The rest of a string literal after its opening quote. *)
Fixpoint read_string (fuel : nat) (s acc : string) : res string :=
  match fuel with
  | O => Fuel
  | S fuel =>
      match s with
      | ""%string => Bad
      | String c s' =>
          if code c =? 34 then Ok acc s'
          else if code c <? 32 then Bad
          else if bool_decide (c = "\"%char) then
            match getu4 s with
            | Some (r, s1) =>
                if in_range 0xD800 0xDFFF r then
                  match getu4 s1 with
                  | Some (r1, s2) =>
                      if in_range 0xD800 0xDBFF r && in_range 0xDC00 0xDFFF r1
                      then read_string fuel s2
                             (acc +:+ encode_rune ((r - 0xD800) * 1024 + (r1 - 0xDC00) + 0x10000))
                      else read_string fuel s1 (acc +:+ encode_rune RuneError)
                  | None => read_string fuel s1 (acc +:+ encode_rune RuneError)
                  end
                else read_string fuel s1 (acc +:+ encode_rune r)
            | None =>
                match s' with
                | String e s1 =>
                    match simple_escape e with
                    | Some d => read_string fuel s1 (acc +:+ String d "")
                    | None => Bad
                    end
                | ""%string => Bad
                end
            end
          else if code c <? 0x80 then read_string fuel s' (acc +:+ String c "")
          else
            let '(r, n) := DecodeRune s in
            read_string fuel (drop_str n s) (acc +:+ encode_rune r)
      end
  end.

Definition string_lit (s : string) : res string := read_string (S (String.length s)) s "".

(** ** Numbers *)
Definition is_digit_c (c : ascii) : bool := in_range 48 57 (code c).

Fixpoint span_digits (s : string) : string * string :=
  match s with
  | String c s' => if is_digit_c c then let '(a, b) := span_digits s' in (String c a, b) else (""%string, s)
  | ""%string => (""%string, s)
  end.

Definition frac_part (s : string) : option (string * string) :=
  match s with
  | String c s' =>
      if bool_decide (c = "."%char) then
        match span_digits s' with
        | (""%string, _) => None
        | (d, r) => Some (String c d, r)
        end
      else Some (""%string, s)
  | ""%string => Some (""%string, s)
  end.

Definition exp_part (s : string) : option (string * string) :=
  match s with
  | String c s' =>
      if bool_decide (c = "e"%char) || bool_decide (c = "E"%char) then
        let '(sign, s1) :=
          match s' with
          | String d s2 =>
              if bool_decide (d = "+"%char) || bool_decide (d = "-"%char) then (String d "", s2) else (""%string, s')
          | ""%string => (""%string, s')
          end in
        match span_digits s1 with
        | (""%string, _) => None
        | (d, r) => Some (String c sign +:+ d, r)
        end
      else Some (""%string, s)
  | ""%string => Some (""%string, s)
  end.

Definition number_lit (s : string) : res string :=
  let '(sign, s) :=
    match s with
    | String c s' => if bool_decide (c = "-"%char) then (String c "", s') else (""%string, s)
    | ""%string => (""%string, s)
    end in
  let int_part :=
    match s with
    | String c s' => if bool_decide (c = "0"%char) then ("0"%string, s') else span_digits s
    | ""%string => (""%string, s)
    end in
  match int_part with
  | (""%string, _) => Bad
  | (i, r) =>
      match frac_part r with
      | None => Bad
      | Some (f, r) => match exp_part r with None => Bad | Some (e, r) => Ok (sign +:+ i +:+ f +:+ e) r end
      end
  end.

(** ** Values *)
Definition maxNestingDepth : Z := 10000.

Fixpoint value (fuel depth : nat) (s : string) : res json :=
  match fuel with
  | O => Fuel
  | S fuel =>
      match skip_ws s with
      | ""%string => Bad
      | String c r as s =>
          if bool_decide (c = "{"%char) then
            if maxNestingDepth <=? Z.of_nat depth then Bad
            else match skip_ws r with
                 | String d r' => if bool_decide (d = "}"%char) then Ok (JObj []) r'
                                  else members fuel (S depth) [] r
                 | ""%string => Bad
                 end
          else if bool_decide (c = "["%char) then
            if maxNestingDepth <=? Z.of_nat depth then Bad
            else match skip_ws r with
                 | String d r' => if bool_decide (d = "]"%char) then Ok (JArr []) r'
                                  else elements fuel (S depth) [] r
                 | ""%string => Bad
                 end
          else if code c =? 34 then
            match string_lit r with Ok t r => Ok (JStr t) r | Bad => Bad | Fuel => Fuel end
          else if HasPrefix s "true" then Ok (JBool true) (drop_str 4 s)
          else if HasPrefix s "false" then Ok (JBool false) (drop_str 5 s)
          else if HasPrefix s "null" then Ok JNull (drop_str 4 s)
          else match number_lit s with Ok t r => Ok (JNum t) r | Bad => Bad | Fuel => Fuel end
      end
  end
with elements (fuel depth : nat) (acc : list json) (s : string) : res json :=
  match fuel with
  | O => Fuel
  | S fuel =>
      match value fuel depth s with
      | Bad => Bad
      | Fuel => Fuel
      | Ok v r =>
          match skip_ws r with
          | String c r =>
              if bool_decide (c = ","%char) then elements fuel depth (acc ++ [v]) r
              else if bool_decide (c = "]"%char) then Ok (JArr (acc ++ [v])) r
              else Bad
          | ""%string => Bad
          end
      end
  end
with members (fuel depth : nat) (acc : list (string * json)) (s : string) : res json :=
  match fuel with
  | O => Fuel
  | S fuel =>
      match skip_ws s with
      | ""%string => Bad
      | String q r =>
          if negb (code q =? 34) then Bad
          else match string_lit r with
          | Bad => Bad
          | Fuel => Fuel
          | Ok k r =>
              match skip_ws r with
              | ""%string => Bad
              | String c r =>
                  if negb (bool_decide (c = ":"%char)) then Bad
                  else match value fuel depth r with
                  | Bad => Bad
                  | Fuel => Fuel
                  | Ok v r =>
                      match skip_ws r with
                      | String c r =>
                          if bool_decide (c = ","%char) then members fuel depth (acc ++ [(k, v)]) r
                          else if bool_decide (c = "}"%char) then Ok (JObj (acc ++ [(k, v)])) r
                          else Bad
                      | ""%string => Bad
                      end
                  end
              end
          end
      end
  end.

(** A whole document: one value, then only white space. Two units of fuel a
    byte are enough ([value_fuel]). *)
Definition parse (s : string) : option json :=
  match value (S (2 * String.length s)) 0 s with
  | Ok v r => if bool_decide (skip_ws r = ""%string) then Some v else None
  | _ => None
  end.

(** ** Enough fuel *)
Lemma length_skip_ws s : (String.length (skip_ws s) <= String.length s)%nat.
Proof. induction s as [|c s IH]; simpl; [lia|]. destruct (is_ws c); simpl; lia. Qed.

Lemma getu4_shorter s r t : getu4 s = Some (r, t) -> String.length s = (6 + String.length t)%nat.
Proof. unfold getu4. intros H. repeat case_match; simplify_eq; reflexivity. Qed.

Lemma read_string_fuel fuel s acc :
  (String.length s < fuel)%nat ->
  match read_string fuel s acc with
  | Ok _ r => (String.length r < String.length s)%nat | Bad => True | Fuel => False end.
Proof.
  revert s acc. induction fuel as [|fuel IH]; intros s acc Hf; [lia|]. cbn [read_string].
  destruct s as [|c s]; [exact I|].
  assert (Hrec : forall t a, (String.length t <= String.length s)%nat ->
    match read_string fuel t a with
    | Ok _ r => (String.length r < String.length (String c s))%nat | Bad => True | Fuel => False end).
  { intros t a Ht. simpl in *. specialize (IH t a ltac:(lia)). destruct (read_string fuel t a); auto. lia. }
  destruct (code c =? 34); [simpl; lia|]. destruct (code c <? 32); [exact I|].
  destruct (bool_decide (c = "\"%char)).
  - destruct (getu4 (String c s)) as [[r s1]|] eqn:E1.
    + apply getu4_shorter in E1. simpl in E1.
      destruct (in_range 55296 57343 r); [|apply Hrec; lia].
      destruct (getu4 s1) as [[r1 s2]|] eqn:E2; [|apply Hrec; lia].
      apply getu4_shorter in E2. destruct (_ && _); apply Hrec; lia.
    + destruct s as [|e s1]; [exact I|]. destruct (simple_escape e); [|exact I]. apply Hrec. simpl. lia.
  - destruct (code c <? 128); [apply Hrec; lia|].
    pose proof (DecodeRune_width (String c s) ltac:(discriminate)) as Hw.
    destruct (DecodeRune (String c s)) as [r n]. apply Hrec. rewrite length_drop_str. simpl in *. lia.
Qed.

Lemma string_lit_fuel s :
  match string_lit s with Ok _ r => (String.length r < String.length s)%nat | Bad => True | Fuel => False end.
Proof. apply read_string_fuel. lia. Qed.

Lemma length_span_digits s : (String.length (span_digits s).1 + String.length (span_digits s).2 = String.length s)%nat.
Proof.
  induction s as [|c s IH]; [reflexivity|]. cbn [span_digits]. destruct (is_digit_c c); [|reflexivity].
  destruct (span_digits s). simpl in *. lia.
Qed.

Lemma number_lit_fuel s :
  match number_lit s with Ok _ r => (String.length r < String.length s)%nat | Bad => True | Fuel => False end.
Proof.
  unfold number_lit.
  assert (Hf : forall r f t, frac_part r = Some (f, t) -> (String.length t <= String.length r)%nat).
  { intros r f t. unfold frac_part. destruct r as [|c r]; [intros [= <- <-]; auto|].
    pose proof (length_span_digits r). destruct (bool_decide _); [|intros [= <- <-]; auto].
    destruct (span_digits r) as [[|d ds] u]; [discriminate|]. intros [= <- <-]. simpl in *. lia. }
  assert (He : forall r f t, exp_part r = Some (f, t) -> (String.length t <= String.length r)%nat).
  { intros r f t. unfold exp_part. destruct r as [|c r]; [intros [= <- <-]; auto|].
    destruct (_ || _); [|intros [= <- <-]; auto].
    set (p := match r with String d s2 => _ | ""%string => _ end).
    assert (Hp : (String.length p.2 <= String.length r)%nat).
    { subst p. destruct r as [|d r]; [auto|]. destruct (_ || _); simpl; lia. }
    destruct p as [sg s1]. pose proof (length_span_digits s1).
    destruct (span_digits s1) as [[|d ds] u]; [discriminate|]. intros [= <- <-]. simpl in *. lia. }
  set (p := match s with String c s' => _ | ""%string => _ end).
  assert (Hp : (String.length p.2 <= String.length s)%nat).
  { subst p. destruct s as [|c s]; [auto|]. destruct (bool_decide _); simpl; lia. }
  destruct p as [sg t]. simpl in Hp.
  set (i := match t with String c s' => _ | ""%string => _ end).
  assert (Hi : (String.length i.1 + String.length i.2 = String.length t)%nat).
  { subst i. destruct t as [|c t]; [reflexivity|]. destruct (bool_decide _); [reflexivity|apply length_span_digits]. }
  destruct i as [[|d ds] u]; [exact I|].
  destruct (frac_part u) as [[f v]|] eqn:Ef; [|exact I]. apply Hf in Ef.
  destruct (exp_part v) as [[e w]|] eqn:Ee; [|exact I]. apply He in Ee. simpl in *. lia.
Qed.

Definition shorter (s : string) (r : res json) : Prop :=
  match r with Ok _ t => (String.length t < String.length s)%nat | Bad => True | Fuel => False end.

Lemma HasPrefix_length s p : HasPrefix s p = true -> (String.length p <= String.length s)%nat.
Proof.
  unfold HasPrefix. revert s. induction p as [|c p IH]; intros [|d s]; simpl; try lia; try discriminate.
  destruct (ascii_dec c d); [|discriminate]. intros H%IH. lia.
Qed.

Lemma value_fuel fuel : forall depth s,
  ((2 * String.length s < fuel)%nat -> shorter s (value fuel depth s))
  /\ (forall acc, (2 * String.length s + 1 < fuel)%nat -> shorter s (elements fuel depth acc s))
  /\ (forall acc, (2 * String.length s + 1 < fuel)%nat -> shorter s (members fuel depth acc s)).
Proof.
  induction fuel as [|fuel IH]; intros depth s; [split_and!; intros; lia|].
  assert (Hsub : forall t r, (String.length t <= String.length s)%nat -> shorter t r -> shorter s r)
    by (intros t [a u| | ] Ht; simpl; auto; lia).
  split_and!; [intros Hf|intros acc Hf|intros acc Hf]; cbn [value elements members].
  - pose proof (length_skip_ws s) as Hw. destruct (skip_ws s) as [|c r] eqn:Es; [exact I|]. simpl in Hw.
    assert (Hb : forall A (x : res A) (f : A -> json),
      match x with Ok _ t => (String.length t < String.length s)%nat | Bad => True | Fuel => False end ->
      shorter s (match x with Ok t r => Ok (f t) r | Bad => Bad | Fuel => Fuel end))
      by (intros A [] f; auto).
    destruct (bool_decide (c = "{"%char)).
    { destruct (maxNestingDepth <=? Z.of_nat depth); [exact I|].
      pose proof (length_skip_ws r). destruct (skip_ws r) as [|d r'] eqn:Er; [exact I|]. simpl in *.
      destruct (bool_decide _); [simpl; lia|]. apply (Hsub r); [lia|]. apply IH. lia. }
    destruct (bool_decide (c = "["%char)).
    { destruct (maxNestingDepth <=? Z.of_nat depth); [exact I|].
      pose proof (length_skip_ws r). destruct (skip_ws r) as [|d r'] eqn:Er; [exact I|]. simpl in *.
      destruct (bool_decide _); [simpl; lia|]. apply (Hsub r); [lia|]. apply IH. lia. }
    destruct (code c =? 34).
    { apply (Hb _ _ JStr). pose proof (string_lit_fuel r). destruct (string_lit r); auto. lia. }
    assert (Hl : String.length (String c r) = S (String.length r)) by reflexivity.
    do 3 (destruct (HasPrefix (String c r) _); [unfold shorter; rewrite length_drop_str; lia|]).
    apply (Hb _ _ JNum). pose proof (number_lit_fuel (String c r)). destruct (number_lit _); auto. lia.
  - pose proof (proj1 (IH depth s) ltac:(lia)) as Hv. destruct (value fuel depth s) as [v r| | ]; [|exact I|destruct Hv].
    simpl in Hv. pose proof (length_skip_ws r). destruct (skip_ws r) as [|c r']; [exact I|]. simpl in *.
    destruct (bool_decide _); [|destruct (bool_decide _); simpl; [lia|exact I]].
    apply (Hsub r'); [lia|]. apply IH. lia.
  - pose proof (length_skip_ws s) as Hw. destruct (skip_ws s) as [|q r]; [exact I|]. simpl in Hw.
    destruct (negb _); [exact I|]. pose proof (string_lit_fuel r) as Hk.
    destruct (string_lit r) as [k r1| | ]; [|exact I|destruct Hk].
    pose proof (length_skip_ws r1). destruct (skip_ws r1) as [|c r2]; [exact I|]. simpl in *.
    destruct (negb _); [exact I|].
    pose proof (proj1 (IH depth r2) ltac:(lia)) as Hv. destruct (value fuel depth r2) as [v r3| | ]; [|exact I|destruct Hv].
    simpl in Hv. pose proof (length_skip_ws r3). destruct (skip_ws r3) as [|c' r4]; [exact I|]. simpl in *.
    destruct (bool_decide _); [|destruct (bool_decide _); simpl; [lia|exact I]].
    apply (Hsub r4); [lia|]. apply IH. lia.
Qed.

(** The parser never runs out of fuel: [None] is a syntax error. *)
Lemma parse_total s : value (S (2 * String.length s)) 0 s <> Fuel.
Proof.
  pose proof (proj1 (value_fuel (S (2 * String.length s)) 0 s) ltac:(lia)) as H.
  intros E. rewrite E in H. exact H.
Qed.

(** ** Decoding into Go values *)

(** A decoder updates a value and reports whether the types fitted. *)
Definition decoder (A : Type) : Type := json -> A -> A * bool.

Definition dec_string : decoder string := fun j old =>
  match j with JNull => (old, true) | JStr s => (s, true) | _ => (old, false) end.

(** A list element starts from the zero value. *)
Definition dec_list {A} (d : decoder A) (zero : A) : decoder (list A) := fun j old =>
  match j with
  | JNull => ([], true)
  | JArr l => let r := map (fun j => d j zero) l in (map fst r, forallb snd r)
  | _ => (old, false)
  end.

Definition dec_int_ptr : decoder (option Z) := fun j old =>
  match j with
  | JNull => (None, true)
  | JNum lit => match ParseInt lit with Some n => (Some n, true) | None => (Some (default 0 old), false) end
  | _ => (Some (default 0 old), false)
  end.

Definition dec_bool_ptr : decoder (option bool) := fun j old =>
  match j with
  | JNull => (None, true)
  | JBool b => (Some b, true)
  | _ => (Some (default false old), false)
  end.

(** [json.RawMessage]: the bytes of the value, here the value itself. *)
Definition dec_raw : decoder (option json) := fun j _ => (Some j, true).

(** The names under which a member is looked up: the letters in upper case,
    and the two runes beyond ASCII that fold to an ASCII letter. *)
Fixpoint fold_name (s : string) : string :=
  match s with
  | ""%string => ""%string
  | String a s1 =>
      match s1 with
      | String b s2 =>
          if (code a =? 0xC5) && (code b =? 0xBF) then String "S" (fold_name s2)
          else match s2 with
               | String c s3 =>
                   if (code a =? 0xE2) && (code b =? 0x84) && (code c =? 0xAA)
                   then String "K" (fold_name s3)
                   else String (if is_lower a then chr (code a - 32) else a) (fold_name s1)
               | ""%string => String (if is_lower a then chr (code a - 32) else a) (fold_name s1)
               end
      | ""%string => String (if is_lower a then chr (code a - 32) else a) ""
      end
  end.

Fixpoint find_field {A} (same : string -> string -> bool) (k : string)
    (fields : list (string * decoder A)) : option (decoder A) :=
  match fields with
  | [] => None
  | (n, d) :: fields => if same n k then Some d else find_field same k fields
  end.

(** Members in their order; unknown names are ignored. *)
Definition dec_struct {A} (fields : list (string * decoder A)) : decoder A := fun j old =>
  match j with
  | JNull => (old, true)
  | JObj l =>
      fold_left (fun (acc : A * bool) kv =>
        let '(a, ok) := acc in
        match match find_field (fun n k => bool_decide (n = k)) (fst kv) fields with
              | Some d => Some d
              | None => find_field (fun n k => bool_decide (fold_name n = fold_name k)) (fst kv) fields
              end with
        | None => (a, ok)
        | Some d => let '(a, ok') := d (snd kv) a in (a, ok && ok')
        end) l (old, true)
  | _ => (old, false)
  end.

(** A field of a struct, from its getter and setter. *)
Definition field {A B} (n : string) (get : A -> B) (set : B -> A -> A) (d : decoder B)
    : string * decoder A :=
  (n, fun j a => let '(b, ok) := d j (get a) in (set b a, ok)).

(** [json.Unmarshal(data, &v)]: the new value, and whether the error is nil.
    A syntax error leaves the value alone. *)
Definition Unmarshal {A} (d : decoder A) (data : string) (v : A) : A * bool :=
  match parse data with
  | None => (v, false)
  | Some j => d j v
  end.

(** [Some v] when Unmarshal into the zero value succeeds. *)
Definition Unmarshal_ok {A} (d : decoder A) (data : string) (zero : A) : option A :=
  match Unmarshal d data zero with (v, true) => Some v | (_, false) => None end.

Definition dq : string := String (chr 34) "".
Definition quoted (s : string) : string := dq +:+ s +:+ dq.

Example parse_examples :
  map parse
    [" [1, -0.5e+3 ,{} , [ ]]"; quoted "a\n\u0041\ud83d\ude00\ud800"; "{" +:+ quoted "k" +:+ ": null }";
     "01"; "[1,]"; "tru"; ""; "1 2"; "-"; "1."]%string
  = [Some (JArr [JNum "1"; JNum "-0.5e+3"; JObj []; JArr []]);
     Some (JStr ("a" +:+ String (chr 10) ("A" +:+ String (chr 240) (String (chr 159)
       (String (chr 152) (String (chr 128) (String (chr 239) (String (chr 191) (String (chr 189) ""))))))))) ;
     Some (JObj [("k"%string, JNull)]); None; None; None; None; None; None; None]%string.
Proof. vm_compute. reflexivity. Qed.

End Json.
