(* ===== verification/GoJsonEnc.v ===== *)
(** * JSON, encoding (package [encoding/json]: Marshal of strings)

    How json.Marshal writes a Go string, HTML-safe as it does by default, and
    that Unmarshal reads it back; a text cut inside is not JSON. *)
From S2P Require Import Prelude GoStrings GoUtf8 GoJson.
#[local] Open Scope Z_scope.
#[local] Open Scope leser_scope.

(** Division and remainder in linear arithmetic. *)
#[local] Ltac Zify.zify_post_hook ::= Z.to_euclidean_division_equations.

Module JsonEnc.
Import Json.

Definition hex_digit (z : Z) : ascii := if z <? 10 then chr (48 + z) else chr (87 + z).

(** [\u00XX], and the characters with a short form. *)
Definition escape_u (r : Z) : string :=
  "\u" +:+ String (hex_digit (r / 4096)) (String (hex_digit (r / 256 mod 16))
    (String (hex_digit (r / 16 mod 16)) (String (hex_digit (r mod 16)) ""))).

Definition short_escape (r : Z) : option ascii :=
  if r =? 8 then Some "b"%char else if r =? 12 then Some "f"%char else if r =? 10 then Some "n"%char
  else if r =? 13 then Some "r"%char else if r =? 9 then Some "t"%char
  else if (r =? 34) || (r =? 92) then Some (chr r) else None.

(** The characters below U+0080 that are not copied, and the two line
    separators. *)
Definition unsafe (r : Z) : bool :=
  (r <? 32) || (r =? 34) || (r =? 92) || (r =? 60) || (r =? 62) || (r =? 38) || (r =? 0x2028) || (r =? 0x2029).

Definition escape (x : Z * string) : string :=
  let '(r, bytes) := x in
  if (r =? RuneError) && (String.length bytes =? 1)%nat then escape_u RuneError
  else if unsafe r then
    match short_escape r with Some c => String "\" (String c "") | None => escape_u r end
  else bytes.

Definition body (s : string) : string := String.concat "" (map escape (runes s)).
Definition Marshal_string (s : string) : string := dq +:+ body s +:+ dq.

(** ** Reading an escaped rune *)
Definition token (r : Z) : string := escape (r, encode_rune r).

Lemma body_text rs : Forall valid_rune rs -> body (text rs) = String.concat "" (map token rs).
Proof. intros H. unfold body. rewrite runes_text, map_map by exact H. reflexivity. Qed.

Lemma getu4_no_u b e s : e <> "u"%char -> getu4 (String b (String e s)) = None.
Proof.
  intros He. unfold getu4. destruct s as [|c1 [|c2 [|c3 [|c4 s]]]]; try reflexivity.
  rewrite (bool_decide_false (e = _)) by exact He. rewrite andb_false_r. reflexivity.
Qed.

Definition unsafe_runes : list Z := map Z.of_nat (seq 0 32) ++ [34; 92; 60; 62; 38; 0x2028; 0x2029].

Lemma unsafe_cases r : valid_rune r -> unsafe r = true -> r ∈ unsafe_runes.
Proof.
  intros [H _] Hu. apply elem_of_app. unfold unsafe in Hu.
  destruct (Z.ltb_spec r 32); [left; apply list_elem_of_fmap; exists (Z.to_nat r); split; [lia|apply elem_of_seq; lia]|right].
  cbn [orb] in Hu. rewrite !orb_true_iff, !Z.eqb_eq in Hu. set_solver.
Qed.

(** The tokens of the unsafe runes, one by one. *)
Lemma read_unsafe_all : Forall (fun r => forall fuel rest acc,
  read_string (S fuel) (token r +:+ rest) acc = read_string fuel rest (acc +:+ encode_rune r)) unsafe_runes.
Proof.
  let l := eval vm_compute in unsafe_runes in change unsafe_runes with l.
  repeat constructor; intros fuel rest acc;
    match goal with |- context [token ?r] => let t := eval vm_compute in (token r) in change (token r) with t end;
    rewrite !string_app_cons; cbn [read_string]; try reflexivity; rewrite getu4_no_u by discriminate; reflexivity.
Qed.

Lemma read_unsafe r fuel rest acc : valid_rune r -> unsafe r = true ->
  read_string (S fuel) (token r +:+ rest) acc = read_string fuel rest (acc +:+ encode_rune r).
Proof. intros Hv Hu. pose proof read_unsafe_all as H. rewrite Forall_forall in H. apply H, unsafe_cases; assumption. Qed.

(** A copied rune. *)
Lemma token_safe r : valid_rune r -> unsafe r = false -> token r = encode_rune r.
Proof.
  intros Hv Hu. unfold token, escape. rewrite Hu. destruct (Z.eqb_spec r RuneError) as [->|]; [|reflexivity].
  reflexivity.
Qed.

Lemma unsafe_false r : unsafe r = false -> 32 <= r /\ r <> 34 /\ r <> 92.
Proof. unfold unsafe. rewrite !orb_false_iff. lia. Qed.

(** The first byte of a rune beyond ASCII. *)
Lemma encode_high r : valid_rune r -> 0x80 <= r -> exists c s, encode_rune r = String c s /\ 0x80 <= code c.
Proof.
  intros Hv Hr. rewrite (encode_valid r Hv). destruct Hv as [H1 H2].
  destruct (Z.ltb_spec r 128); [lia|].
  destruct (Z.ltb_spec r 2048); [|destruct (Z.ltb_spec r 65536)];
    (do 2 eexists; split; [reflexivity|]; rewrite code_chr by lia; lia).
Qed.

Lemma code_neq c d : code c <> code d -> c <> d.
Proof. congruence. Qed.

Lemma read_safe r fuel rest acc : valid_rune r -> unsafe r = false ->
  read_string (S fuel) (token r +:+ rest) acc = read_string fuel rest (acc +:+ encode_rune r).
Proof.
  intros Hv Hu. rewrite (token_safe r Hv Hu). destruct (unsafe_false r Hu) as (H1 & H2 & H3).
  destruct (Z.ltb_spec r 0x80) as [Hlt|Hge].
  - assert (E : encode_rune r = String (chr r) "") by (rewrite (encode_valid r Hv); destruct (Z.ltb_spec r 128); [reflexivity|lia]).
    rewrite E, string_app_cons. cbn [read_string]. rewrite code_chr by lia.
    rewrite (proj2 (Z.eqb_neq r 34) H2), (proj2 (Z.ltb_ge r 32) H1), bool_decide_false, (proj2 (Z.ltb_lt r 128) Hlt); [reflexivity|].
    apply code_neq. rewrite code_chr by lia. exact H3.
  - destruct (encode_high r Hv Hge) as (c & s & E & Hc). pose proof (DecodeRune_encode r rest Hv) as Hd.
    destruct (take_drop_app (encode_rune r) rest) as [_ Hdrop]. revert Hd Hdrop. rewrite E, string_app_cons. intros Hd Hdrop.
    cbn [read_string]. rewrite (proj2 (Z.eqb_neq _ 34)), (proj2 (Z.ltb_ge _ 32)), bool_decide_false, (proj2 (Z.ltb_ge _ 128)) by
      (try lia; apply code_neq; change (code "\") with 92; lia). rewrite Hd. cbv iota beta. rewrite Hdrop, <- E. reflexivity.
Qed.

Lemma read_token r fuel rest acc : valid_rune r ->
  read_string (S fuel) (token r +:+ rest) acc = read_string fuel rest (acc +:+ encode_rune r).
Proof. intros Hv. destruct (unsafe r) eqn:E; [apply read_unsafe|apply read_safe]; assumption. Qed.

Lemma read_tokens rs rest : Forall valid_rune rs -> forall fuel acc,
  read_string (length rs + fuel) (String.concat "" (map token rs) +:+ rest) acc = read_string fuel rest (acc +:+ text rs).
Proof.
  intros Hv. induction Hv as [|r rs Hr Hv IH]; intros fuel acc.
  - cbn. rewrite app_str_nil. reflexivity.
  - cbn [map length]. rewrite concat_cons, app_str_assoc. change (S (length rs) + fuel)%nat with (S (length rs + fuel)).
    rewrite read_token by exact Hr. rewrite IH. cbn [text]. rewrite app_str_assoc. reflexivity.
Qed.

Lemma token_nonempty r : (1 <= String.length (token r))%nat.
Proof.
  assert (Hu : forall z, (1 <= String.length (escape_u z))%nat) by (intros z; unfold escape_u; rewrite !string_app_cons; simpl; lia).
  unfold token, escape. destruct (_ && _); [apply Hu|]. destruct (unsafe r).
  - destruct (short_escape r); [simpl; lia|apply Hu].
  - pose proof (encode_rune_ne r). destruct (encode_rune r); [congruence|simpl; lia].
Qed.

Lemma length_tokens rs : (length rs <= String.length (String.concat "" (map token rs)))%nat.
Proof.
  induction rs as [|r rs IH]; [cbn; lia|]. cbn [map length]. rewrite concat_cons, string_length_app.
  pose proof (token_nonempty r). lia.
Qed.

(** Unmarshal reads a marshalled string back. *)
Lemma string_lit_Marshal s rest : well_formed s -> string_lit (body s +:+ dq +:+ rest) = Ok s rest.
Proof.
  intros (rs & Hv & ->). rewrite body_text by exact Hv. unfold string_lit.
  set (t := String.concat "" (map token rs)). pose proof (length_tokens rs) as Hl. fold t in Hl.
  replace (S (String.length (t +:+ dq +:+ rest))) with (length rs + S (S (String.length t - length rs + String.length rest)))%nat
    by (rewrite !string_length_app; cbn; lia).
  unfold t. rewrite read_tokens by exact Hv. cbn [read_string dq append]. reflexivity.
Qed.

(** ** A text that is cut off *)

(** Without a quote no string literal ends. *)
Fixpoint no_quote (s : string) : Prop :=
  match s with "" => True | String c s => code c <> 34 /\ no_quote s end%string.

Definition open_end {A} (r : res A) : Prop := match r with Ok _ _ => False | _ => True end.

Lemma no_quote_drop n s : no_quote s -> no_quote (drop_str n s).
Proof. revert n. induction s as [|c s IH]; intros [|n] H; cbn in *; auto. apply IH, H. Qed.

Lemma getu4_no_quote s r t : getu4 s = Some (r, t) -> no_quote s -> no_quote t.
Proof.
  unfold getu4. destruct s as [|b [|u [|c1 [|c2 [|c3 [|c4 s]]]]]]; try discriminate.
  destruct (_ && _); [|discriminate]. destruct (hex4 c1 c2 c3 c4); [|discriminate]. intros [= _ <-]. cbn. tauto.
Qed.

Lemma no_quote_open fuel : forall s acc, no_quote s -> open_end (read_string fuel s acc).
Proof.
  induction fuel as [|fuel IH]; intros s acc H; [exact I|]. cbn [read_string]. destruct s as [|c s]; [exact I|].
  destruct H as [Hc H]. rewrite (proj2 (Z.eqb_neq _ _) Hc). destruct (code c <? 32); [exact I|].
  assert (Hs : no_quote (String c s)) by (split; assumption). case_bool_decide.
  - destruct (getu4 (String c s)) as [[r s1]|] eqn:E.
    + pose proof (getu4_no_quote _ _ _ E Hs) as H1. destruct (in_range 0xD800 0xDFFF r); [|apply IH, H1].
      destruct (getu4 s1) as [[r1 s2]|] eqn:E1; [|apply IH, H1]. destruct (_ && _); [|apply IH, H1].
      apply IH, (getu4_no_quote _ _ _ E1 H1).
    + destruct s as [|e s]; [exact I|]. destruct H as [He H]. destruct (simple_escape e); [apply IH, H|exact I].
  - destruct (code c <? 128); [apply IH, H|]. destruct (DecodeRune (String c s)) as [r n]. apply IH, no_quote_drop, Hs.
Qed.

Lemma no_quote_app s t : no_quote s -> no_quote t -> no_quote (s +:+ t).
Proof. intros Hs Ht. induction s as [|c s IH]; [exact Ht|]. destruct Hs. split; auto. Qed.

Lemma no_quote_take n s : no_quote s -> no_quote (take_str n s).
Proof. revert n. induction s as [|c s IH]; intros [|n] H; cbn in *; try exact I. destruct H. auto. Qed.

Lemma token_no_quote r : valid_rune r -> r <> 34 -> no_quote (token r).
Proof.
  intros Hv Hr. destruct (unsafe r) eqn:Hu.
  - assert (H : Forall (fun r => r <> 34 -> no_quote (token r)) unsafe_runes).
    { let l := eval vm_compute in unsafe_runes in change unsafe_runes with l.
      repeat constructor; intros Hne; (congruence || (vm_compute; repeat split; discriminate)). }
    rewrite Forall_forall in H. apply H; [apply unsafe_cases; assumption|exact Hr].
  - rewrite (token_safe r Hv Hu), (encode_valid r Hv). destruct Hv as [H1 H2].
    destruct (Z.ltb_spec r 128); [|destruct (Z.ltb_spec r 2048); [|destruct (Z.ltb_spec r 65536)]];
      cbn [no_quote]; rewrite !code_chr by lia; repeat split; lia.
Qed.

(** A token cut inside. *)
Lemma token_cut r n fuel acc : valid_rune r -> (n < String.length (token r))%nat ->
  open_end (read_string fuel (take_str n (token r)) acc).
Proof.
  intros Hv Hn. destruct (decide (r = 34)) as [->|Hr].
  - change (token 34) with (String "\" dq) in *. cbn in Hn. destruct n as [|[|n]]; [| |lia]; destruct fuel; exact I.
  - apply no_quote_open, no_quote_take, token_no_quote; assumption.
Qed.

Lemma take_str_app n s t :
  take_str n (s +:+ t) = if (n <=? String.length s)%nat then take_str n s else s +:+ take_str (n - String.length s) t.
Proof.
  revert n. induction s as [|c s IH]; intros n.
  - cbn [String.length]. rewrite Nat.sub_0_r. destruct n; reflexivity.
  - rewrite string_app_cons. destruct n as [|n]; [reflexivity|]. cbn [take_str String.length Nat.leb Nat.sub]. rewrite IH.
    destruct (n <=? String.length s)%nat; reflexivity.
Qed.

Lemma take_str_all n s : (String.length s <= n)%nat -> take_str n s = s.
Proof. revert n. induction s as [|c s IH]; intros [|n] H; cbn in *; try reflexivity; [lia|]. rewrite IH by lia. reflexivity. Qed.

(** A marshalled string without its closing quote, cut anywhere. *)
Lemma tokens_cut rs : Forall valid_rune rs -> forall n fuel acc,
  open_end (read_string fuel (take_str n (String.concat "" (map token rs))) acc).
Proof.
  intros Hv. induction Hv as [|r rs Hr Hv IH]; intros n fuel acc.
  - destruct n, fuel; exact I.
  - cbn [map]. rewrite concat_cons, take_str_app. destruct (Nat.leb_spec n (String.length (token r))) as [Hle|Hgt].
    + destruct (decide (n = String.length (token r))) as [->|Hne]; [|apply token_cut; [exact Hr|lia]].
      rewrite take_str_all by lia. rewrite <- (app_str_nil (token r)). destruct fuel as [|fuel]; [exact I|].
      rewrite read_token by exact Hr. destruct fuel; exact I.
    + destruct fuel as [|fuel]; [exact I|]. rewrite read_token by exact Hr. apply IH.
Qed.

Lemma body_cut s n : well_formed s -> open_end (string_lit (take_str n (body s))).
Proof. intros (rs & Hv & ->). rewrite body_text by exact Hv. apply tokens_cut, Hv. Qed.

(** ** Objects whose members are strings *)
Definition pair_text (kv : string * string) : string := Marshal_string (fst kv) +:+ ":" +:+ Marshal_string (snd kv).

Fixpoint members_text (kvs : list (string * string)) : string :=
  match kvs with
  | [] => "}"
  | [kv] => pair_text kv +:+ "}"
  | kv :: kvs => pair_text kv +:+ "," +:+ members_text kvs
  end.
Definition Marshal_object (kvs : list (string * string)) : string := "{" +:+ members_text kvs.

Definition well_formed_pair (kv : string * string) : Prop := well_formed (fst kv) /\ well_formed (snd kv).

Lemma pair_rest kv rest : pair_text kv +:+ rest = dq +:+ (body (fst kv) +:+ (dq +:+ (":" +:+ (dq +:+ (body (snd kv) +:+ (dq +:+ rest)))))).
Proof. unfold pair_text, Marshal_string. rewrite !app_str_assoc. reflexivity. Qed.

Lemma value_string f d s r : well_formed s -> value (S f) d (dq +:+ (body s +:+ (dq +:+ r))) = Ok (JStr s) r.
Proof.
  intros Hs. pose proof (string_lit_Marshal s r Hs) as E. revert E. generalize (body s +:+ (dq +:+ r)). intros x E.
  change (dq +:+ x) with (String (chr 34) x). cbn [value skip_ws]. change (is_ws (chr 34)) with false. cbv iota.
  rewrite !bool_decide_false by (apply code_neq; discriminate). change (code (chr 34) =? 34) with true. cbv iota.
  rewrite E. reflexivity.
Qed.

Lemma skip_colon s : skip_ws (":" +:+ s) = ":" +:+ s.
Proof. reflexivity. Qed.

(** One member, up to the character after it. *)
Lemma members_key g d acc kv rest : well_formed (fst kv) ->
  members (S g) d acc (pair_text kv +:+ rest)
  = match value g d (dq +:+ (body (snd kv) +:+ (dq +:+ rest))) with
    | Ok v r =>
        match skip_ws r with
        | String c r =>
            if bool_decide (c = ","%char) then members g d (acc ++ [(fst kv, v)]) r
            else if bool_decide (c = "}"%char) then Ok (JObj (acc ++ [(fst kv, v)])) r else Bad
        | ""%string => Bad
        end
    | Bad => Bad
    | Fuel => Fuel
    end.
Proof.
  intros Hk. rewrite pair_rest. generalize (dq +:+ (body (snd kv) +:+ (dq +:+ rest))). intros y.
  pose proof (string_lit_Marshal (fst kv) (":" +:+ y) Hk) as E. revert E. generalize (body (fst kv) +:+ (dq +:+ (":" +:+ y))).
  intros x E. change (dq +:+ x) with (String (chr 34) x).
  cbn [members skip_ws]. change (is_ws (chr 34)) with false. cbv iota.
  change (code (chr 34) =? 34) with true. cbn [negb]. rewrite E, skip_colon. change (":" +:+ y) with (String ":" y). cbv iota beta.
  rewrite (bool_decide_true (":"%char = ":"%char)) by reflexivity. reflexivity.
Qed.

Lemma members_pair f d acc kv c rest : well_formed_pair kv -> is_ws c = false ->
  members (S (S f)) d acc (pair_text kv +:+ String c rest)
  = if bool_decide (c = ","%char) then members (S f) d (acc ++ [(fst kv, JStr (snd kv))]) rest
    else if bool_decide (c = "}"%char) then Ok (JObj (acc ++ [(fst kv, JStr (snd kv))])) rest else Bad.
Proof.
  intros [Hk Hv] Hc. rewrite members_key, value_string by assumption. cbn [skip_ws]. rewrite Hc. reflexivity.
Qed.

(** The members of a marshalled object. *)
Lemma members_all kvs : kvs <> [] -> Forall well_formed_pair kvs -> forall f d acc rest,
  members (S (length kvs) + f) d acc (members_text kvs +:+ rest)
  = Ok (JObj (acc ++ map (fun kv => (fst kv, JStr (snd kv))) kvs)) rest.
Proof.
  intros Hne Hw. induction Hw as [|kv kvs Hkv Hw IH]; [congruence|]. intros f d acc rest. cbn [length plus members_text].
  destruct kvs as [|kv2 kvs].
  - rewrite app_str_assoc. change ("}" +:+ rest) with (String "}" rest). cbn [length plus]. rewrite members_pair by auto. reflexivity.
  - rewrite !app_str_assoc. change ("," +:+ (members_text (kv2 :: kvs) +:+ rest)) with (String "," (members_text (kv2 :: kvs) +:+ rest)).
    cbn [length plus]. rewrite members_pair by auto. rewrite bool_decide_true by reflexivity.
    change (S (S (length kvs + f))) with (S (length (kv2 :: kvs)) + f)%nat. rewrite IH by discriminate.
    rewrite <- app_assoc. reflexivity.
Qed.

(** What is left of two parts: of the first only, or the first and one
    character more at least. *)
Lemma take_parts n s c t : (exists k, take_str n (s +:+ String c t) = take_str k s)
  \/ exists k, take_str n (s +:+ String c t) = s +:+ String c (take_str k t) /\ (String.length s + 1 + k = n)%nat.
Proof.
  rewrite take_str_app. destruct (Nat.leb_spec n (String.length s)) as [H|H]; [left; eauto|right].
  destruct (n - String.length s)%nat as [|m] eqn:E; [lia|]. exists m. split; [reflexivity|lia].
Qed.

Lemma string_cut f d s n : well_formed s -> match value f d (take_str n (dq +:+ (body s +:+ dq))) with Ok _ r => r = ""%string | _ => True end.
Proof.
  intros Hs. destruct f as [|f]; [exact I|]. destruct n as [|n]; [exact I|]. change (dq +:+ (body s +:+ dq)) with (String (chr 34) (body s +:+ dq)).
  cbn [take_str]. destruct (take_parts n (body s) (chr 34) "") as [(k & E)|(k & E & _)]; change (String (chr 34) "") with dq in E; rewrite E.
  - pose proof (body_cut s k Hs) as Ho. cbn [value skip_ws]. change (is_ws (chr 34)) with false. cbv iota.
    rewrite !bool_decide_false by (apply code_neq; discriminate). change (code (chr 34) =? 34) with true. cbv iota.
    destruct (string_lit (take_str k (body s))); [destruct Ho|exact I..].
  - change (String (chr 34) (body s +:+ String (chr 34) (take_str k ""))) with (dq +:+ (body s +:+ (dq +:+ take_str k ""))).
    rewrite value_string by exact Hs. destruct k; reflexivity.
Qed.

Lemma pair_cut f d acc kv n : well_formed_pair kv -> open_end (members f d acc (take_str n (pair_text kv))).
Proof.
  intros [Hk Hv]. destruct f as [|f]; [exact I|]. rewrite <- (app_str_nil (pair_text kv)), pair_rest.
  destruct n as [|n]; [exact I|]. change (dq +:+ ?x) with (String (chr 34) x). cbn [take_str].
  rewrite (app_str_nil dq). set (v := dq +:+ (body (snd kv) +:+ dq)). cbn [members skip_ws]. change (is_ws (chr 34)) with false. cbv iota.
  change (code (chr 34) =? 34) with true. cbn [negb]. change (dq +:+ (":" +:+ v)) with (String (chr 34) (String ":" v)).
  destruct (take_parts n (body (fst kv)) (chr 34) (String ":" v)) as [(k & ->)|(k & -> & _)].
  - pose proof (body_cut (fst kv) k Hk) as Ho. destruct (string_lit _); [destruct Ho|exact I..].
  - change (String (chr 34) (take_str k (String ":" v))) with (dq +:+ take_str k (String ":" v)).
    rewrite string_lit_Marshal by exact Hk. destruct k as [|k]; [exact I|]. cbn [take_str skip_ws]. change (is_ws ":") with false. cbv iota.
    rewrite (bool_decide_true (":"%char = ":"%char)) by reflexivity. cbn [negb].
    pose proof (string_cut f d (snd kv) k Hv) as Hc. fold v in Hc. destruct (value f d (take_str k v)); [rewrite Hc; exact I|exact I..].
Qed.

Lemma members_cut kvs : kvs <> [] -> Forall well_formed_pair kvs -> forall n f d acc,
  (n < String.length (members_text kvs))%nat -> open_end (members f d acc (take_str n (members_text kvs))).
Proof.
  intros Hne Hw. induction Hw as [|kv kvs Hkv Hw IH]; [congruence|]. intros n f d acc Hn. cbn [members_text] in *.
  assert (Hrest : exists c t, (kvs = [] /\ c = "}"%char /\ t = ""%string \/ kvs <> [] /\ c = ","%char /\ t = members_text kvs)
    /\ match kvs with [] => pair_text kv +:+ "}" | _ => pair_text kv +:+ "," +:+ members_text kvs end = pair_text kv +:+ String c t).
  { destruct kvs as [|kv2 kvs]; do 2 eexists; (split; [|reflexivity]); [left; auto|right; auto]. }
  destruct Hrest as (c & t & Ht & E). rewrite E in *. clear E.
  destruct (take_parts n (pair_text kv) c t) as [(k & ->)|(k & -> & Hk)]; [apply pair_cut, Hkv|].
  rewrite string_length_app in Hn. cbn [String.length] in Hn. destruct Ht as [(-> & -> & ->)|(Hkvs & -> & ->)]; [cbn in Hn; lia|].
  destruct f as [|[|f]]; [exact I|rewrite members_key by apply Hkv; exact I|].
  rewrite members_pair by auto. rewrite bool_decide_true by reflexivity. apply IH; [exact Hkvs|lia].
Qed.

(** ** Round trip, and no prefix *)
Lemma parse_object kvs : kvs <> [] -> Forall well_formed_pair kvs ->
  parse (Marshal_object kvs) = Some (JObj (map (fun kv => (fst kv, JStr (snd kv))) kvs)).
Proof.
  intros Hne Hw. unfold parse, Marshal_object. change ("{" +:+ members_text kvs) with (String "{" (members_text kvs)).
  assert (Hlen : (length kvs <= String.length (members_text kvs))%nat).
  { clear Hw Hne. induction kvs as [|kv kvs IH]; [cbn; lia|]. cbn [members_text length]. destruct kvs as [|kv2 kvs].
    - rewrite string_length_app. cbn. lia.
    - rewrite !string_length_app. cbn [String.length length] in *. lia. }
  assert (Hq : exists t, members_text kvs = String (chr 34) t).
  { destruct kvs as [|kv [|kv2 kvs]]; [congruence|..]; cbn [members_text]; rewrite pair_rest; eexists; reflexivity. }
  cbn [String.length]. set (n := String.length (members_text kvs)) in *.
  replace (S (2 * S n)) with (S (S (length kvs) + (2 * n + 1 - length kvs)))%nat by lia.
  destruct Hq as [t Ht]. cbn [value skip_ws]. change (is_ws "{") with false. cbv iota.
  rewrite (bool_decide_true ("{"%char = "{"%char)) by reflexivity. change (maxNestingDepth <=? Z.of_nat 0) with false. cbv iota.
  rewrite Ht at 1. cbn [skip_ws]. change (is_ws (chr 34)) with false. cbv iota.
  rewrite bool_decide_false by (apply code_neq; discriminate). rewrite <- (app_str_nil (members_text kvs)).
  rewrite members_all by assumption. reflexivity.
Qed.

Lemma parse_cut kvs n : kvs <> [] -> Forall well_formed_pair kvs -> (n < String.length (Marshal_object kvs))%nat ->
  parse (take_str n (Marshal_object kvs)) = None.
Proof.
  intros Hne Hw Hn. unfold Marshal_object in *. change ("{" +:+ members_text kvs) with (String "{" (members_text kvs)) in *.
  destruct n as [|n]; [reflexivity|]. cbn [take_str String.length] in *. unfold parse. cbn [String.length].
  generalize (2 * S (String.length (take_str n (members_text kvs))))%nat. intros f.
  cbn [value skip_ws]. change (is_ws "{") with false. cbv iota.
  rewrite (bool_decide_true ("{"%char = "{"%char)) by reflexivity. change (maxNestingDepth <=? Z.of_nat 0) with false. cbv iota.
  assert (Hq : exists t, members_text kvs = String (chr 34) t).
  { destruct kvs as [|kv [|kv2 kvs]]; [congruence|..]; cbn [members_text]; rewrite pair_rest; eexists; reflexivity. }
  destruct Hq as [t Ht]. destruct n as [|n]; [reflexivity|]. rewrite Ht at 1. cbn [take_str skip_ws].
  change (is_ws (chr 34)) with false. cbv iota. rewrite bool_decide_false by (apply code_neq; discriminate).
  pose proof (members_cut kvs Hne Hw (S n) f 1 [] ltac:(lia)) as Ho. destruct (members f 1 [] _); [destruct Ho|reflexivity..].
Qed.


End JsonEnc.
