(* ===== verification/Grouping.v ===== *)
(** * Issue fingerprints (internal/grouping: grouping.go, normalize.go,
    rules.go)

    The strategies of the fallback chain, the normalisation of messages,
    symbols and modules, the project rules and the enhancement rules.
    [lower_rune] is the table of [unicode.ToLower] beyond ASCII. *)
From S2P Require Import Prelude GoStrings GoUtf8 Sha1 GoRegexp GoPath.
Import Regexp.
#[local] Open Scope string_scope.
#[local] Open Scope list_scope.
#[local] Open Scope Z_scope.
#[local] Open Scope leser_scope.

Module Grouping.

(** ** Data *)
Inductive Basis :=
  | BasisCustom | BasisRule | BasisStacktrace | BasisException | BasisMessageTemplate
  | BasisMessage | BasisFallback.

Definition basis_string (b : Basis) : string :=
  match b with
  | BasisCustom => "custom" | BasisRule => "rule" | BasisStacktrace => "stacktrace"
  | BasisException => "exception" | BasisMessageTemplate => "message-template"
  | BasisMessage => "message" | BasisFallback => "fallback"
  end.

Record Frame := mkFrame {
  Function_ : string; Module_ : string; Filename : string; AbsPath : string; InApp : option bool }.
Record Exception := mkException { Type_ : string; Value : string; Frames : list Frame }.
Record Input := mkInput {
  Platform : string; SDKFingerprint : list string; Exceptions : list Exception;
  MessageTemplate : string; i_Message : string }.
Record Result := mkResult { r_Fingerprint : string; r_Basis : Basis }.

Definition maxFrames : nat := 30.

(** ** normalize.go *)
Definition hexs : re := Set_ is_hex.
Definition digits : re := Set_ is_digit.
Definition dash : re := lit "-".

Definition reHexAddr : re := seqs [lit "0x"; plus hexs].
Definition reUUID : re :=
  seqs [times hexs 8; dash; times hexs 4; dash; times hexs 4; dash; times hexs 4; dash; times hexs 12].
Definition reLongHex : re := seqs [WordB; Rep hexs 16 None; WordB].
Definition reNumRun : re := plus digits.
Definition reJavaLambda : re :=
  seqs [lit "lambda$"; Group (plus (Set_ (fun r => is_word r || chars "." r))); lit "$"; plus digits].
Definition reDollarNum : re := seqs [lit "$"; plus digits; EndText].
Definition reGenSuffix : re :=
  Seq
    (Alt
       (seqs [Rep (Set_ (chars ".$")) 0 (Some 1%nat);
              alts (map lit ["func"; "lambda"; "anon"; "closure"; "gen"; "block"]);
              star (Set_ (fun r => is_digit r || chars "$" r))])
       (seqs [lit "."; alts (map lit ["constprop"; "isra"; "part"]); lit "."; plus digits]))
    EndText.
Definition reGoInst : re :=
  Alt (lit "[...]") (seqs [lit "["; Rep (Set_ (fun r => negb (chars "]" r))) 0 (Some 80%nat); lit "]"]).
Definition reBundleHash : re := seqs [lit "."; Rep hexs 6 (Some 20%nat); lit "."].

Definition truncate_to (n : nat) (s : string) : string :=
  if (n <? String.length s)%nat then take_str n s else s.

Definition NormalizeMessage (s : string) : string :=
  let s := truncate_to 512 s in
  let s := ReplaceAllString reUUID "<uuid>" s in
  let s := ReplaceAllString reHexAddr "<addr>" s in
  let s := ReplaceAllString reLongHex "<hex>" s in
  let s := ReplaceAllString reNumRun "<num>" s in
  TrimSpace s.

Definition normalizeSymbol (s : string) : string :=
  if bool_decide (s = "") then "<unknown>"
  else
    let s := truncate_to 256 s in
    let s := ReplaceAllString reGoInst "[T]" s in
    let s := ReplaceAllString reHexAddr "<addr>" s in
    let s := unrunes (ReplaceAllFunc reJavaLambda (fun cap => runes "lambda$" ++ cap) (runes s)) in
    let s := ReplaceAllString reDollarNum "" s in
    ReplaceAllString reGenSuffix ".<gen>" s.

Definition last_n {A} (n : nat) (l : list A) : list A :=
  if (n <? length l)%nat then drop (length l - n) l else l.

Definition normalizeModule (f : Frame) : string :=
  if negb (bool_decide (Module_ f = "")) then normalizeSymbol (Module_ f)
  else
    let name := if bool_decide (Filename f = "") then AbsPath f else Filename f in
    if bool_decide (name = "") then "<unknown>"
    else
      let name := replace_char "\" "/" name in
      let name := String.concat "/" (last_n 3 (split_char "/" name)) in
      let name := ReplaceAllString reBundleHash ".<hash>." name in
      let name := ReplaceAllString reUUID "<uuid>" name in
      ReplaceAllString reNumRun "<num>" name.

Definition libraryMarkers : list string :=
  ["node_modules/"; "site-packages/"; "dist-packages/"; "/vendor/"; "vendor/bundle"; "/gems/";
   "/go/pkg/mod/"; "/usr/lib/"; "/usr/local/lib/"; "<frozen "; "internal/modules/cjs";
   "webpack/bootstrap"].

Definition libraryModulePrefixes : list string :=
  ["java."; "javax."; "jakarta."; "sun."; "com.sun."; "kotlin."; "scala."; "org.springframework.";
   "org.apache."; "org.hibernate."; "io.netty."; "System."; "Microsoft."; "runtime."; "reflect.";
   "net/http."; "database/sql."].

(** ** rules.go *)
Record Matcher := mkMatcher { m_Type : string; Pattern : string }.
Record Rule := mkRule { Matchers : list Matcher; ru_Fingerprint : list string }.
Record EnhancementRule := mkEnhancement { e_Pattern : string; MatchModule : bool; e_InApp : bool }.

(** The shortest, then leftmost, stretch of [s] from position [i] on that the
    fragment matches; the result is where it ends. *)
Fixpoint shortest (fragment s : string) (i j fuel : nat) : option nat :=
  if match Path.Match fragment (slice s i j) with inr true => true | _ => false end then Some j
  else match fuel with O => None | S fuel => shortest fragment s i (S j) fuel end.

Fixpoint scan_from (fragment s : string) (i fuel : nat) : option nat :=
  match shortest fragment s i i (String.length s - i) with
  | Some j => Some j
  | None => match fuel with O => None | S fuel => scan_from fragment s (S i) fuel end
  end.

Definition indexGlob (s fragment : string) (anchored : bool) : option nat :=
  if negb (existsb_str (fun c => existsb_str (fun d => bool_decide (c = d)) "*?[") fragment) then
    if anchored then if HasPrefix s fragment then Some (String.length fragment) else None
    else (fun i => i + String.length fragment)%nat <$> Index s fragment
  else if anchored then shortest fragment s 0 0 (String.length s)
  else scan_from fragment s 0 (String.length s).

Fixpoint split_stars (p : string) : list string :=
  match p with
  | String c ((String d p') as p1) =>
      if bool_decide (c = "*"%char) && bool_decide (d = "*"%char) then "" :: split_stars p'
      else match split_stars p1 with [] => [String c ""] | x :: l => String c x :: l end
  | _ => [p]
  end.

Fixpoint pieces (anchored : bool) (l : list string) (rest : string) : bool :=
  match l with
  | [] => true
  | part :: l =>
      if bool_decide (part = "") then pieces false l rest
      else match indexGlob rest part anchored with
           | None => false
           | Some idx => pieces false l (drop_str idx rest)
           end
  end.

Definition globMatch (pattern s : string) : bool :=
  if bool_decide (pattern = "") then false
  else if bool_decide (pattern = "*") || bool_decide (pattern = "**") then negb (bool_decide (s = ""))
  else if Contains pattern "**" then pieces true (split_stars pattern) s
  else match Path.Match pattern s with inr ok => ok | inl _ => false end.

Definition frame_path (f : Frame) : string :=
  if bool_decide (AbsPath f = "") then Filename f else AbsPath f.

Definition matcherMatches (i : Input) (m : Matcher) : bool :=
  let glob := globMatch (Pattern m) in
  let ty := m_Type m in
  if bool_decide (ty = "platform") then glob (Platform i)
  else if bool_decide (ty = "message") then glob (i_Message i) || glob (MessageTemplate i)
  else if bool_decide (ty = "type") then existsb (fun e => glob (Type_ e)) (Exceptions i)
  else if bool_decide (ty = "value") then existsb (fun e => glob (Value e)) (Exceptions i)
  else if bool_decide (ty = "module")
  then existsb (fun e => existsb (fun f => glob (Module_ f)) (Frames e)) (Exceptions i)
  else if bool_decide (ty = "path")
  then existsb (fun e => existsb (fun f => glob (frame_path f)) (Frames e)) (Exceptions i)
  else false.

Definition ruleMatches (i : Input) (r : Rule) : bool := forallb (matcherMatches i) (Matchers r).

Fixpoint applyRules (i : Input) (rules : list Rule) : option (list string) :=
  match rules with
  | [] => None
  | r :: rules =>
      if (length (ru_Fingerprint r) =? 0)%nat || (length (Matchers r) =? 0)%nat then applyRules i rules
      else if ruleMatches i r then Some (ru_Fingerprint r)
      else applyRules i rules
  end.

Fixpoint enhance_frame (rules : list EnhancementRule) (f : Frame) : Frame :=
  match rules with
  | [] => f
  | r :: rules =>
      let subject := if MatchModule r then Module_ f else frame_path f in
      if globMatch (e_Pattern r) subject
      then mkFrame (Function_ f) (Module_ f) (Filename f) (AbsPath f) (Some (e_InApp r))
      else enhance_frame rules f
  end.

Definition ApplyEnhancements (i : Input) (rules : list EnhancementRule) : Input :=
  match rules with
  | [] => i
  | _ => mkInput (Platform i) (SDKFingerprint i)
           (map (fun e => mkException (Type_ e) (Value e) (map (enhance_frame rules) (Frames e)))
              (Exceptions i))
           (MessageTemplate i) (i_Message i)
  end.

Section Lower.
Context (lower_rune : Z -> Z).

(** [strings.ToLower]. *)
Definition ToLower (s : string) : string :=
  if existsb_str (fun c => 0x80 <=? code c) s
  then String.concat "" (map (fun x => encode_rune
         (if fst x <? 0x80 then code (to_lower_ascii (chr (fst x))) else lower_rune (fst x))) (runes s))
  else map_str to_lower_ascii s.

Definition IsInApp (f : Frame) (platform : string) : bool :=
  match InApp f with
  | Some b => b
  | None =>
      let lower := ToLower (replace_char "\" "/" (frame_path f)) in
      if existsb (Contains lower) libraryMarkers then false
      else if existsb (fun p => HasPrefix (Module_ f) p || HasPrefix (Function_ f) p) libraryModulePrefixes
      then false
      else if Contains lower "/libexec/" || Contains lower "/goroot/" then false
      else true
  end.

(** ** grouping.go *)
Definition selectFrames (i : Input) : list Frame :=
  match last (Exceptions i) with
  | None => []
  | Some e =>
      match Frames e with
      | [] => []
      | frames =>
          let inApp := List.filter (fun f => IsInApp f (Platform i)) frames in
          last_n maxFrames (match inApp with [] => frames | _ => inApp end)
      end
  end.

Definition lastExceptionType (i : Input) : string :=
  match last (Exceptions i) with None => "" | Some e => Type_ e end.

Definition isDefaultToken (s : string) : bool :=
  let t := TrimSpace s in bool_decide (t = "{{ default }}") || bool_decide (t = "{{default}}").
Definition onlyDefault (fp : list string) : bool := forallb isDefaultToken fp.

(** What hashParts writes into the hash. *)
Definition preimage (ns : string) (parts : list string) : list byte :=
  list_byte_of_string ns ++ concat (map (fun p => x00 :: list_byte_of_string p) parts).
Definition hashParts (ns : string) (parts : list string) : string :=
  take_str 32 (Sha1.hex_encode (Sha1.sha1 (preimage ns parts))).

(** The parts the stack trace contributes. *)
Definition stack_parts (i : Input) (frames : list Frame) : list string :=
  (let t := lastExceptionType i in if bool_decide (t = "") then [] else [normalizeSymbol t])
  ++ flat_map (fun f => [normalizeModule f; normalizeSymbol (Function_ f)]) frames.

Definition message_fingerprint (i : Input) : Result :=
  if negb (bool_decide (MessageTemplate i = ""))
  then mkResult (hashParts "tmpl" [MessageTemplate i]) BasisMessageTemplate
  else if negb (bool_decide (i_Message i = ""))
  then mkResult (hashParts "msg" [NormalizeMessage (i_Message i)]) BasisMessage
  else mkResult (hashParts "fallback" []) BasisFallback.

Definition defaultFingerprint (i : Input) : Result :=
  match selectFrames i with
  | (_ :: _) as frames => mkResult (hashParts "stack" (stack_parts i frames)) BasisStacktrace
  | [] =>
      match last (Exceptions i) with
      | Some e =>
          if negb (bool_decide (Type_ e = "")) || negb (bool_decide (Value e = ""))
          then mkResult (hashParts "exc" [normalizeSymbol (Type_ e); NormalizeMessage (Value e)]) BasisException
          else message_fingerprint i
      | None => message_fingerprint i
      end
  end.

Definition Fingerprint (i : Input) (rules : list Rule) : Result :=
  match applyRules i rules with
  | Some fp => mkResult (hashParts "rule" fp) BasisRule
  | None =>
      match SDKFingerprint i with
      | [] => defaultFingerprint i
      | fps =>
          if onlyDefault fps then defaultFingerprint i
          else
            let parts := map (fun p => if isDefaultToken p then r_Fingerprint (defaultFingerprint i) else p) fps in
            mkResult (hashParts "custom" parts) BasisCustom
      end
  end.
End Lower.

End Grouping.
