(* ===== verification/GroupingProps.v ===== *)
(** * Properties of the grouping engine, and its golden corpus

    What normalisation keeps and removes, what a fingerprint goes by, and the
    repository's own corpus evaluated. *)
From S2P Require Import Prelude GoStrings GoUtf8 Sha1 GoRegexp Grouping.
Import Regexp Grouping.

Module GroupingProps.

(** ** Digits of strings and of their runes *)
Definition has_digit (s : string) : bool := existsb_str (fun c => is_digit (code c)) s.

Lemma has_digit_app s t : has_digit (s +:+ t) = has_digit s || has_digit t.
Proof.
  induction s as [|c s IH]; [reflexivity|].
  change (is_digit (code c) || has_digit (s +:+ t) = (is_digit (code c) || has_digit s) || has_digit t).
  rewrite IH, orb_assoc. reflexivity.
Qed.

Lemma has_digit_unrunes l : has_digit (unrunes l) = existsb (fun x => has_digit (snd x)) l.
Proof.
  induction l as [|x l IH]; [reflexivity|]. unfold unrunes in *. cbn [map].
  rewrite concat_cons, has_digit_app, IH. reflexivity.
Qed.

(** A digit among the bytes of a rune is the rune. *)
Definition digit_ok (x : Z * string) : Prop := has_digit (snd x) = true -> is_digit (fst x) = true.

Lemma high_not_digit c : 0x80 <= code c -> is_digit (code c) = false.
Proof. unfold is_digit, in_range. intros H. rewrite (proj2 (Z.leb_gt (code c) 57)) by lia. apply andb_false_r. Qed.

Lemma in_range_high lo hi z : in_range lo hi z = true -> 0x80 <= lo -> 0x80 <= z.
Proof. unfold in_range. intros [H _]%andb_true_iff. apply Z.leb_le in H. lia. Qed.

Lemma first_byte_high c n lo hi : first_byte c = Some (n, lo, hi) -> 0x80 <= lo /\ 0x80 <= c.
Proof.
  unfold first_byte, in_range. intros H. repeat case_match; simplify_eq;
    repeat match goal with
    | H : (_ && _) = true |- _ => apply andb_true_iff in H as [? ?]
    | H : (_ <=? _) = true |- _ => apply Z.leb_le in H
    | H : (_ =? _) = true |- _ => apply Z.eqb_eq in H
    end; lia.
Qed.

Lemma DecodeRune_digit s r n : DecodeRune s = (r, n) -> digit_ok (r, take_str n s).
Proof.
  unfold digit_ok. cbn [fst snd]. destruct s as [|c0 s]; [intros [= <- <-]; discriminate|].
  cbn -[first_byte in_range Z.land]. destruct (Z.ltb_spec (code c0) 128) as [Hlt|Hge].
  { intros [= <- <-]. cbn -[in_range]. rewrite orb_false_r. auto. }
  assert (Hone : forall r' m, (r', m) = (r, n) -> m = 1%nat ->
    has_digit (take_str n (String c0 s)) = true -> is_digit r = true).
  { intros r' m [= <- <-] -> H. cbn in H. rewrite high_not_digit in H by lia. discriminate. }
  destruct (first_byte (code c0)) as [[[k lo] hi]|] eqn:E;
    [|intros H; eapply Hone; [exact H|reflexivity]].
  apply first_byte_high in E as [Hlo _]. unfold cont.
  destruct k as [|[|[|[|[|k]]]]], s as [|c1 [|c2 [|c3 s]]]; cbn -[in_range Z.land];
    try (intros H; eapply Hone; [exact H|reflexivity]);
    repeat (case_match; cbn -[Z.land in_range] in *);
    try (intros H'; eapply Hone; [exact H'|reflexivity]);
    intros [= <- <-]; unfold has_digit; cbn -[in_range];
    repeat match goal with
    | H : (_ && _) = true |- _ => apply andb_true_iff in H as [? ?]
    | H : in_range _ _ _ = true |- _ => apply in_range_high in H; [|lia]
    end; rewrite !high_not_digit by lia; discriminate.
Qed.

Lemma runes_digit_ok s : Forall digit_ok (runes s).
Proof.
  unfold runes. generalize (String.length s). intros fuel. revert s.
  induction fuel as [|fuel IH]; intros s; cbn [runes_go]; [constructor|].
  destruct s as [|c s]; [constructor|].
  destruct (DecodeRune (String c s)) as [r n] eqn:E. constructor; [|apply IH].
  eapply DecodeRune_digit, E.
Qed.

Lemma digit_free_runes s : has_digit s = false <-> existsb (fun x => has_digit (snd x)) (runes s) = false.
Proof. rewrite <- has_digit_unrunes, runes_unrunes. reflexivity. Qed.

(** ** Replacing the runs of digits leaves none *)
Lemma rep_zero_some f fuel p : exists q, rep (match_ (Set_ f)) fuel 0 p Some = Some q.
Proof.
  revert p. induction fuel as [|fuel IH]; intros p; cbn [rep]; [eauto|].
  destruct (match_ (Set_ f) p _); eauto.
Qed.

Lemma match_digits pv x l :
  match match_at reNumRun pv (x :: l) with
  | Some q => is_digit (fst x) = true /\ exists w, l = w ++ rest q
  | None => is_digit (fst x) = false
  end.
Proof.
  unfold match_at, reNumRun, plus, digits. cbn [match_ rest length rep pred].
  destruct (is_digit (fst x)) eqn:E; [|reflexivity].
  destruct (rep_zero_some is_digit (length l) (advance x l (mkPos pv (x :: l) [] []))) as [q Hq].
  cbn [match_] in Hq. rewrite Hq. split; [reflexivity|].
  apply rep_sound in Hq as (q' & (w & H & _) & [= ->]); [exists w; exact H|].
  apply (match_sound (Set_ is_digit)).
Qed.

Lemma replace_digits fuel repl pv l :
  (length l <= fuel)%nat -> Forall digit_ok l ->
  existsb (fun x => has_digit (snd x)) repl = false ->
  existsb (fun x => has_digit (snd x)) (replace_go fuel reNumRun (fun _ => repl) pv l) = false.
Proof.
  intros Hlen Hok Hr. revert pv l Hlen Hok. induction fuel as [|fuel IH]; intros pv l Hlen Hok.
  { destruct l; [reflexivity|simpl in Hlen; lia]. }
  cbn [replace_go]. destruct l as [|x l]; [reflexivity|].
  inversion Hok as [|? ? Hx Hl]; subst. simpl in Hlen.
  pose proof (match_digits pv x l) as Hm. destruct (match_at reNumRun pv (x :: l)) as [q|].
  - destruct Hm as [_ [w Hw]]. rewrite existsb_app, Hr. cbn [orb]. apply IH.
    + rewrite Hw, length_app in Hlen. lia.
    + rewrite Hw in Hl. apply Forall_app in Hl as [_ Hl]. exact Hl.
  - cbn [existsb]. rewrite IH by (auto; lia).
    destruct (has_digit (snd x)) eqn:E; [|reflexivity]. apply Hx in E. congruence.
Qed.

Lemma ReplaceAllString_digits repl s :
  has_digit repl = false -> has_digit (ReplaceAllString reNumRun repl s) = false.
Proof.
  intros Hr. unfold ReplaceAllString. rewrite has_digit_unrunes. apply replace_digits.
  - reflexivity.
  - apply runes_digit_ok.
  - apply digit_free_runes, Hr.
Qed.

Lemma existsb_rev {A} (f : A -> bool) l : existsb f (rev l) = existsb f l.
Proof. induction l as [|x l IH]; [reflexivity|]. cbn. rewrite existsb_app, IH. cbn. rewrite orb_false_r. apply orb_comm. Qed.

Lemma existsb_drop_while {A} (f g : A -> bool) l : existsb f l = false -> existsb f (drop_while g l) = false.
Proof.
  induction l as [|x l IH]; [auto|]. intros H. cbn. destruct (g x); [|exact H].
  apply IH. cbn in H. apply orb_false_iff in H as [_ H]. exact H.
Qed.

Lemma TrimSpace_digits s : has_digit s = false -> has_digit (TrimSpace s) = false.
Proof.
  rewrite digit_free_runes. intros H. unfold TrimSpace, trim_runes. rewrite has_digit_unrunes, existsb_rev.
  apply existsb_drop_while. rewrite existsb_rev. apply existsb_drop_while, H.
Qed.

(** no number of a message takes part in its fingerprint: the normalised
    text of any message, bytes that are not UTF-8 included, holds no decimal
    digit, so ids, counts and times cannot split an issue. *)
Theorem normalized_message_has_no_digit s : has_digit (NormalizeMessage s) = false.
Proof.
  unfold NormalizeMessage. cbv zeta. apply TrimSpace_digits, ReplaceAllString_digits. reflexivity.
Qed.

(** ** What the hash is computed from *)
Definition no_nul (s : string) : Prop := x00 ∉ list_byte_of_string s.

#[export] Instance no_nul_dec s : Decision (no_nul s).
Proof. unfold no_nul. apply _. Defined.

Lemma list_byte_of_string_inj s t : list_byte_of_string s = list_byte_of_string t -> s = t.
Proof.
  intros H. apply (f_equal string_of_list_byte) in H. rewrite !string_of_list_byte_of_string in H. exact H.
Qed.

Lemma split_nul a b xs ys :
  x00 ∉ a -> x00 ∉ b -> (xs = [] \/ exists l, xs = x00 :: l) -> (ys = [] \/ exists l, ys = x00 :: l) ->
  a ++ xs = b ++ ys -> a = b /\ xs = ys.
Proof.
  revert b. induction a as [|x a IH]; intros [|y b] Ha Hb Hxs Hys E; cbn in E; auto.
  - destruct Hxs as [->|[l ->]]; [discriminate|]. injection E as <- _. exfalso. apply Hb. left.
  - destruct Hys as [->|[l ->]]; [discriminate|]. injection E as -> _. exfalso. apply Ha. left.
  - injection E as -> E. destruct (IH b) as [-> ->]; auto; [intros H; apply Ha; right; exact H|intros H; apply Hb; right; exact H].
Qed.

Lemma parts_head ps : let l := concat (map (fun p => x00 :: list_byte_of_string p) ps) in
  l = [] \/ exists t, l = x00 :: t.
Proof. destruct ps as [|p ps]; [left; reflexivity|right; cbn; eauto]. Qed.

Lemma parts_inj ps qs :
  Forall no_nul ps -> Forall no_nul qs ->
  concat (map (fun p => x00 :: list_byte_of_string p) ps)
  = concat (map (fun p => x00 :: list_byte_of_string p) qs) -> ps = qs.
Proof.
  intros Hp. revert qs. induction Hp as [|p ps Hp Hps IH]; intros [|q qs] Hq E; try discriminate; [reflexivity|].
  inversion Hq; subst. cbn in E. injection E as E.
  destruct (split_nul _ _ _ _ Hp ltac:(eassumption) (parts_head ps) (parts_head qs) E) as [E1 E2].
  f_equal; [apply list_byte_of_string_inj, E1|apply IH; assumption].
Qed.

(** two fingerprints are made from the same bytes only if they have the
    same basis and the same parts: parts cannot run into each other or into
    the basis, as long as no part holds a NUL byte. *)
Theorem fingerprint_preimage_injective ns ps ns' qs :
  no_nul ns -> no_nul ns' -> Forall no_nul ps -> Forall no_nul qs ->
  preimage ns ps = preimage ns' qs -> ns = ns' /\ ps = qs.
Proof.
  intros Hn Hn' Hp Hq E. unfold preimage in E.
  destruct (split_nul _ _ _ _ Hn Hn' (parts_head ps) (parts_head qs) E) as [E1 E2].
  split; [apply list_byte_of_string_inj, E1|apply parts_inj; assumption].
Qed.

Lemma fingerprint_preimage_injective_witness :
  let a := ("stack", ["KeyError"; "shop.cart"])%string in
  preimage (fst a) (snd a) = preimage (fst a) (snd a)
  /\ (preimage (fst a) (snd a) = preimage "stack" ["KeyError"; "shop.cart"]%string ->
      fst a = "stack"%string /\ snd a = ["KeyError"; "shop.cart"]%string).
Proof.
  split; [reflexivity|]. intros E.
  apply (fingerprint_preimage_injective _ _ _ _); [..|exact E];
    repeat constructor; apply (bool_decide_unpack _); vm_compute; exact I.
Defined.

(** ** What counts *)
Section Evidence.
Context (lower_rune : Z -> Z).

(** What a frame contributes. *)
Definition frame_key (f : Frame) : string * string := (normalizeModule f, normalizeSymbol (Function_ f)).

(** What the built-in grouping goes by: a stack trace, an exception without
    one, the template of the message, the message, or nothing. *)
Inductive evidence :=
  | EStack (ty : option string) (frames : list (string * string))
  | EException (ty value : string) | ETemplate (t : string) | EMessage (m : string) | ENothing.

(** The frames of an exception: those of the application if it has any. *)
Definition app_trace (platform : string) (e : Exception) : list (string * string) :=
  let app := List.filter (fun f => IsInApp lower_rune f platform) (Frames e) in
  last_n maxFrames (map frame_key (if existsb (fun f => IsInApp lower_rune f platform) (Frames e) then app else Frames e)).

Definition text_evidence (i : Input) : evidence :=
  if bool_decide (MessageTemplate i = "") then
    if bool_decide (i_Message i = "") then ENothing else EMessage (NormalizeMessage (i_Message i))
  else ETemplate (MessageTemplate i).

Definition exception_evidence (platform : string) (e : Exception) : option evidence :=
  match app_trace platform e with
  | [] => if bool_decide (Type_ e = "" /\ Value e = "") then None
          else Some (EException (normalizeSymbol (Type_ e)) (NormalizeMessage (Value e)))
  | fs => Some (EStack (if bool_decide (Type_ e = "") then None else Some (normalizeSymbol (Type_ e))) fs)
  end.

Definition evidence_of (i : Input) : evidence :=
  default (text_evidence i) (last (Exceptions i) ≫= exception_evidence (Platform i)).

(** How the evidence is written into the hash. *)
Definition frame_parts : list (string * string) -> list string := flat_map (fun k => [fst k; snd k]).
Definition evidence_parts (e : evidence) : string * list string * Basis :=
  match e with
  | EStack ty fs => ("stack", option_list ty ++ frame_parts fs, BasisStacktrace)
  | EException ty value => ("exc", [ty; value], BasisException)
  | ETemplate t => ("tmpl", [t], BasisMessageTemplate)
  | EMessage m => ("msg", [m], BasisMessage)
  | ENothing => ("fallback", [], BasisFallback)
  end.
Definition hash_of (x : string * list string * Basis) : Result := mkResult (hashParts (fst (fst x)) (snd (fst x))) (snd x).

(** The same with rules and the fingerprint of the SDK, whose default token
    stands for the built-in one. *)
Inductive group_key := ByRule (fp : list string) | BySDK (parts : list (evidence + string)) | ByDefault (e : evidence).

Definition key_of (i : Input) (rules : list Rule) : group_key :=
  match applyRules i rules with
  | Some fp => ByRule fp
  | None =>
      if forallb isDefaultToken (SDKFingerprint i) then ByDefault (evidence_of i)
      else BySDK (map (fun p => if isDefaultToken p then inl (evidence_of i) else inr p) (SDKFingerprint i))
  end.

Definition key_parts (k : group_key) : string * list string * Basis :=
  match k with
  | ByRule fp => ("rule", fp, BasisRule)
  | BySDK parts =>
      ("custom", map (fun p => match p with inl e => r_Fingerprint (hash_of (evidence_parts e)) | inr s => s end) parts, BasisCustom)
  | ByDefault e => evidence_parts e
  end.

(** *** The code computes the key *)
Lemma last_n_map {A B} (f : A -> B) n l : last_n n (map f l) = map f (last_n n l).
Proof. unfold last_n. rewrite length_map. destruct (_ <? _)%nat; [apply skipn_map|reflexivity]. Qed.

Lemma last_n_nil {A} n (l : list A) : last_n (S n) l = [] -> l = [].
Proof.
  unfold last_n. destruct (Nat.ltb_spec (S n) (length l)) as [H|H]; [|auto].
  intros E. apply (f_equal length) in E. rewrite length_drop in E. simpl in E. lia.
Qed.

Lemma filter_existsb {A} (f : A -> bool) l : existsb f l = match List.filter f l with [] => false | _ => true end.
Proof. induction l as [|x l IH]; [reflexivity|]. cbn. destruct (f x); [reflexivity|exact IH]. Qed.

Lemma selectFrames_trace i : map frame_key (selectFrames lower_rune i) = default [] (app_trace (Platform i) <$> last (Exceptions i)).
Proof.
  unfold selectFrames, app_trace. destruct (last (Exceptions i)) as [e|]; [|reflexivity]. cbn [default fmap option_fmap option_map].
  rewrite last_n_map, filter_existsb. destruct (Frames e) as [|f fs]; [reflexivity|].
  destruct (List.filter (fun f => IsInApp lower_rune f (Platform i)) (f :: fs)); reflexivity.
Qed.

Lemma frame_parts_keys fs :
  flat_map (fun f => [normalizeModule f; normalizeSymbol (Function_ f)]) fs = frame_parts (map frame_key fs).
Proof. induction fs as [|f fs IH]; [reflexivity|]. cbn. rewrite IH. reflexivity. Qed.

Lemma text_evidence_hash i : message_fingerprint i = hash_of (evidence_parts (text_evidence i)).
Proof.
  unfold message_fingerprint, text_evidence.
  destruct (bool_decide (MessageTemplate i = "")); [destruct (bool_decide (i_Message i = ""))|]; reflexivity.
Qed.

Lemma default_evidence i : defaultFingerprint lower_rune i = hash_of (evidence_parts (evidence_of i)).
Proof.
  unfold defaultFingerprint, evidence_of, stack_parts, lastExceptionType. pose proof (selectFrames_trace i) as Hs.
  destruct (last (Exceptions i)) as [e|]; cbn in Hs |- *.
  2:{ apply map_eq_nil in Hs. rewrite Hs. apply text_evidence_hash. }
  unfold exception_evidence. rewrite <- Hs.
  destruct (selectFrames lower_rune i) as [|f fs]; cbn [map].
  - pose proof (text_evidence_hash i) as Ht.
    destruct (decide (Type_ e = "")) as [E1|E1], (decide (Value e = "")) as [E2|E2];
      rewrite ?(bool_decide_true (Type_ e = "")), ?(bool_decide_false (Type_ e = "")),
        ?(bool_decide_true (Value e = "")), ?(bool_decide_false (Value e = "")) by assumption; cbn [negb orb];
      [rewrite bool_decide_true by auto; exact Ht|rewrite bool_decide_false by tauto; reflexivity..].
  - rewrite frame_parts_keys. cbn [map]. destruct (bool_decide (Type_ e = "")); reflexivity.
Qed.

Lemma Fingerprint_key i rules : Fingerprint lower_rune i rules = hash_of (key_parts (key_of i rules)).
Proof.
  unfold Fingerprint, key_of, onlyDefault. destruct (applyRules i rules) as [fp|]; [reflexivity|].
  rewrite default_evidence. destruct (SDKFingerprint i) as [|p ps] eqn:E; [reflexivity|].
  destruct (forallb isDefaultToken (p :: ps)); [reflexivity|].
  unfold hash_of at 2. cbn [key_parts fst snd]. f_equal. f_equal. rewrite map_map. apply map_ext. intros x.
  destruct (isDefaultToken x); reflexivity.
Qed.

(** *** The hashed bytes determine it *)
Lemma frame_parts_inj fs fs' : frame_parts fs = frame_parts fs' -> fs = fs'.
Proof.
  revert fs'. induction fs as [|[a b] fs IH]; intros [|[a' b'] fs'] E; try discriminate; [reflexivity|].
  cbn in E. injection E as -> -> E. f_equal. apply IH, E.
Qed.

Lemma length_frame_parts fs : length (frame_parts fs) = (2 * length fs)%nat.
Proof.
  induction fs as [|k fs IH]; [reflexivity|].
  change (length (frame_parts (k :: fs))) with (S (S (length (frame_parts fs)))). cbn [length]. lia.
Qed.

Lemma evidence_parts_inj e e' : fst (evidence_parts e) = fst (evidence_parts e') -> e = e'.
Proof.
  assert (Hs : forall ty fs ty' fs', option_list ty ++ frame_parts fs = option_list ty' ++ frame_parts fs' -> EStack ty fs = EStack ty' fs').
  { intros ty fs ty' fs' H. pose proof (f_equal length H) as Hl. rewrite !length_app, !length_frame_parts in Hl.
    destruct ty, ty'; cbn in H, Hl; try lia; simplify_eq; f_equal; apply frame_parts_inj; assumption. }
  destruct e as [ty fs|t v|t|m|], e' as [ty' fs'|t' v'|t'|m'|]; cbn; intros H; try discriminate;
    [apply Hs; congruence|congruence..].
Qed.

Definition is_sdk (k : group_key) : bool := match k with BySDK _ => true | _ => false end.

Lemma key_parts_inj k k' : fst (key_parts k) = fst (key_parts k') -> is_sdk k = false -> k = k'.
Proof.
  destruct k as [fp|ps|e], k' as [fp'|ps'|e']; cbn; intros H Hs; try discriminate; simplify_eq; try reflexivity.
  - destruct e'; discriminate.
  - destruct e; discriminate.
  - destruct e; discriminate.
  - f_equal. apply evidence_parts_inj, H.
Qed.

Lemma key_ns_no_nul k : no_nul (fst (fst (key_parts k))).
Proof. destruct k as [| |[]]; apply (bool_decide_unpack _); vm_compute; exact I. Qed.

(** C34: two events are grouped alike if they agree on what counts, and, if
    none of it holds a NUL byte, the bytes that are hashed are the same only
    then (a part of the SDK spelled like a built-in fingerprint aside). What
    counts is the fingerprint of the first matching rule; else the
    parts the SDK gave, a default token standing for the built-in evidence,
    unless there are only such tokens; else the built-in evidence: the
    normalised type of the last exception and the normalised module and
    function of the last thirty of its application frames, or of its frames if
    none is the application's; if it has no frames its normalised type and
    value; if that has neither, or there is none, the message's template, or
    else the normalised message. *)
Theorem grouping_goes_by_evidence i rules i' rules' :
  let k := key_of i rules in
  let k' := key_of i' rules' in
  let bytes k := preimage (fst (fst (key_parts k))) (snd (fst (key_parts k))) in
  (k = k' -> Fingerprint lower_rune i rules = Fingerprint lower_rune i' rules')
  /\ r_Fingerprint (Fingerprint lower_rune i rules) = take_str 32 (Sha1.hex_encode (Sha1.sha1 (bytes k)))
  /\ (Forall no_nul (snd (fst (key_parts k))) -> Forall no_nul (snd (fst (key_parts k'))) -> bytes k = bytes k' ->
      fst (key_parts k) = fst (key_parts k') /\ (is_sdk k = false -> k = k')).
Proof.
  intros k k' bytes. rewrite !Fingerprint_key. fold k k'. split_and!; [intros ->; reflexivity|reflexivity|].
  intros H1 H2 E. destruct (fingerprint_preimage_injective _ _ _ _ (key_ns_no_nul k) (key_ns_no_nul k') H1 H2 E) as [E1 E2].
  assert (Hp : fst (key_parts k) = fst (key_parts k')).
  { destruct (key_parts k) as [[a b] c], (key_parts k') as [[a' b'] c']. cbn in *. congruence. }
  split; [exact Hp|apply key_parts_inj, Hp].
Qed.
End Evidence.

(** The same crash from two deploys, the second with more library frames and
    another cause; a third with another exception type. *)
Definition ex_input (outer : list Exception) (lib : list Frame) (ty dir addr : string) : Input :=
  mkInput "python" []
    (outer ++ [mkException ty ("at " +:+ addr)
       (lib ++ [mkFrame "checkout" "" "" (dir +:+ "/shop/views.py") None])]) "" "".

Lemma grouping_goes_by_evidence_witness :
  let i := ex_input [] [] "ValueError" "/srv/app" "0x10" in
  let i' := ex_input [mkException "IOError" "" []] [mkFrame "get" "java.util" "" "" None] "ValueError" "/home/deploy/app" "0x2f" in
  let i2 := ex_input [] [] "KeyError" "/srv/app" "0x10" in
  Fingerprint (fun r => r) i [] = Fingerprint (fun r => r) i' []
  /\ key_of (fun r => r) i [] <> key_of (fun r => r) i2 [].
Proof.
  split; [|vm_compute; discriminate].
  apply (grouping_goes_by_evidence (fun r => r)). vm_compute. reflexivity.
Defined.

End GroupingProps.

(** ** The golden corpus of the grouping engine
    (internal/grouping/testdata/corpus.json and corpus.golden)

    Every case of the corpus, evaluated: the model computes the basis and the
    SHA-1 fingerprint that the repository's golden file records. The texts of
    the corpus are ASCII, so the table of lower-case runes is not consulted. *)
Module GroupingGolden.

#[local] Open Scope string_scope.
#[local] Open Scope list_scope.
#[local] Open Scope Z_scope.
#[local] Open Scope leser_scope.

(** A double quote. *)
Definition q : string := String (chr 34) "".

Definition corpus : list (string * Input * (string * string)) :=
  [
   ("python-django-valueerror",
    mkInput "python" []
      [mkException "ValueError" "invalid literal for int() with base 10: 'abc'"
        [mkFrame "inner" "django.core.handlers.exception" "" "/usr/local/lib/python3.12/site-packages/django/core/handlers/exception.py" None;
         mkFrame "get_response" "django.core.handlers.base" "" "/usr/local/lib/python3.12/site-packages/django/core/handlers/base.py" None;
         mkFrame "checkout" "shop.views" "" "/srv/app/shop/views.py" None;
         mkFrame "parse_quantity" "shop.cart" "" "/srv/app/shop/cart.py" None]]
      "" "", ("stacktrace", "6143a387bb100f52dc4bd734a826f30c"));
   ("python-django-valueerror-different-deploy-path",
    mkInput "python" []
      [mkException "ValueError" "invalid literal for int() with base 10: '99x'"
        [mkFrame "inner" "django.core.handlers.exception" "" "/home/deploy/release-2024/venv/lib/python3.12/site-packages/django/core/handlers/exception.py" None;
         mkFrame "get_response" "django.core.handlers.base" "" "/home/deploy/release-2024/venv/lib/python3.12/site-packages/django/core/handlers/base.py" None;
         mkFrame "checkout" "shop.views" "" "/home/deploy/release-2024/app/shop/views.py" None;
         mkFrame "parse_quantity" "shop.cart" "" "/home/deploy/release-2024/app/shop/cart.py" None]]
      "" "", ("stacktrace", "6143a387bb100f52dc4bd734a826f30c"));
   ("python-celery-timeout-no-frames",
    mkInput "python" []
      [mkException "TimeoutError" "task shop.tasks.sync_inventory timed out after 300s (job 8842911)"
        []]
      "" "", ("exception", "7027cbe944e32870a472680b6f590ed3"));
   ("python-celery-timeout-different-job-id",
    mkInput "python" []
      [mkException "TimeoutError" "task shop.tasks.sync_inventory timed out after 300s (job 11)"
        []]
      "" "", ("exception", "7027cbe944e32870a472680b6f590ed3"));
   ("node-express-typeerror",
    mkInput "node" []
      [mkException "TypeError" "Cannot read properties of undefined (reading 'id')"
        [mkFrame "Layer.handle" "" "node_modules/express/lib/router/layer.js" "" None;
         mkFrame "next" "" "node_modules/express/lib/router/route.js" "" None;
         mkFrame "getOrder" "" "src/routes/orders.js" "" None;
         mkFrame "formatOrder" "" "src/lib/format.js" "" None]]
      "" "", ("stacktrace", "5b1ce5e110fafdb956aed60610606b14"));
   ("browser-react-minified-bundle-a",
    mkInput "javascript" []
      [mkException "TypeError" "t is undefined"
        [mkFrame "ci" "" "https://cdn.acme.com/assets/vendor.8f31bc02.js" "" None;
         mkFrame "renderWithHooks" "" "https://cdn.acme.com/assets/vendor.8f31bc02.js" "" None;
         mkFrame "ProfileCard" "" "https://cdn.acme.com/assets/app.4a1198cd.js" "" None]]
      "" "", ("stacktrace", "506caaa707ca9fd5cb237ab2061fc824"));
   ("browser-react-minified-bundle-b-new-hashes",
    mkInput "javascript" []
      [mkException "TypeError" "t is undefined"
        [mkFrame "ci" "" "https://cdn.acme.com/assets/vendor.11d2e9aa.js" "" None;
         mkFrame "renderWithHooks" "" "https://cdn.acme.com/assets/vendor.11d2e9aa.js" "" None;
         mkFrame "ProfileCard" "" "https://cdn.acme.com/assets/app.77e01f43.js" "" None]]
      "" "", ("stacktrace", "506caaa707ca9fd5cb237ab2061fc824"));
   ("go-nil-pointer-panic",
    mkInput "go" []
      [mkException "*runtime.TypeAssertionError" "interface conversion: interface {} is nil, not string"
        [mkFrame "net/http.(*conn).serve" "net/http" "" "/opt/homebrew/libexec/go/src/net/http/server.go" None;
         mkFrame "main.(*server).handleWebhook" "main" "" "/build/api/webhook.go" None;
         mkFrame "main.parsePayload" "main" "" "/build/api/payload.go" None]]
      "" "", ("stacktrace", "48d3dac3eee571b7dee69a9abec544e7"));
   ("go-generic-func-instantiation-a",
    mkInput "go" []
      [mkException "*errors.errorString" "queue full"
        [mkFrame "main.Enqueue[go.shape.string]" "main" "" "/build/q/queue.go" None]]
      "" "", ("stacktrace", "a980be29ad229574c60bfaf8873267b4"));
   ("go-generic-func-instantiation-b",
    mkInput "go" []
      [mkException "*errors.errorString" "queue full"
        [mkFrame "main.Enqueue[go.shape.int64]" "main" "" "/build/q/queue.go" None]]
      "" "", ("stacktrace", "a980be29ad229574c60bfaf8873267b4"));
   ("java-spring-npe",
    mkInput "java" []
      [mkException "java.lang.NullPointerException" ("Cannot invoke " +:+ q +:+ "com.acme.User.getEmail()" +:+ q +:+ " because " +:+ q +:+ "user" +:+ q +:+ " is null")
        [mkFrame "invoke" "org.springframework.web.method.support.InvocableHandlerMethod" "" "" None;
         mkFrame "handleRequest" "com.acme.billing.InvoiceController" "" "" None;
         mkFrame "buildInvoice" "com.acme.billing.InvoiceService" "" "" None]]
      "" "", ("stacktrace", "5ab627cc1c09b22e3d0f654f1f3077a8"));
   ("java-lambda-suffix-churn-a",
    mkInput "java" []
      [mkException "java.util.concurrent.CompletionException" "boom"
        [mkFrame "lambda$fetchAll$3" "com.acme.search.SearchService" "" "" None]]
      "" "", ("stacktrace", "97b627f02ae15c0eb2df62b0a534cc92"));
   ("java-lambda-suffix-churn-b",
    mkInput "java" []
      [mkException "java.util.concurrent.CompletionException" "boom"
        [mkFrame "lambda$fetchAll$7" "com.acme.search.SearchService" "" "" None]]
      "" "", ("stacktrace", "97b627f02ae15c0eb2df62b0a534cc92"));
   ("ruby-rails-record-not-found",
    mkInput "ruby" []
      [mkException "ActiveRecord::RecordNotFound" "Couldn't find Order with 'id'=48123"
        [mkFrame "find" "" "/usr/local/bundle/gems/activerecord-7.1.0/lib/active_record/core.rb" "" None;
         mkFrame "show" "" "app/controllers/orders_controller.rb" "" None]]
      "" "", ("stacktrace", "ae3aba61c6c0eab41d81a2165c22253e"));
   ("ruby-rails-record-not-found-other-id",
    mkInput "ruby" []
      [mkException "ActiveRecord::RecordNotFound" "Couldn't find Order with 'id'=99"
        [mkFrame "find" "" "/usr/local/bundle/gems/activerecord-7.1.0/lib/active_record/core.rb" "" None;
         mkFrame "show" "" "app/controllers/orders_controller.rb" "" None]]
      "" "", ("stacktrace", "ae3aba61c6c0eab41d81a2165c22253e"));
   ("php-laravel-query-exception",
    mkInput "php" []
      [mkException "Illuminate\Database\QueryException" "SQLSTATE[23000]: Integrity constraint violation: 1062 Duplicate entry 'user-9911' for key 'users.email'"
        [mkFrame "runQueryCallback" "" "/var/www/vendor/laravel/framework/src/Illuminate/Database/Connection.php" "" None;
         mkFrame "store" "" "/var/www/app/Http/Controllers/UserController.php" "" None]]
      "" "", ("stacktrace", "3ed1b5e8ccd562c5246518603edd1e1f"));
   ("csharp-aspnet-invalidoperation",
    mkInput "csharp" []
      [mkException "System.InvalidOperationException" "Sequence contains no elements"
        [mkFrame "System.Linq.Enumerable.First[TSource]" "System.Linq.Enumerable" "" "" None;
         mkFrame "Acme.Api.Controllers.CartController.GetActiveCart" "Acme.Api.Controllers.CartController" "" "" None]]
      "" "", ("stacktrace", "74b1e97cdcd862bf98d92db4d54bc4a9"));
   ("rust-panic-unwrap",
    mkInput "rust" []
      [mkException "panic" "called `Option::unwrap()` on a `None` value"
        [mkFrame "core::option::Option<T>::unwrap" "" "/rustc/1.79.0/library/core/src/option.rs" "" None;
         mkFrame "api::handlers::get_user" "" "src/handlers/user.rs" "" None]]
      "" "", ("stacktrace", "e705050b6af69e1ef324c820fa8ab19a"));
   ("message-only-with-ids",
    mkInput "python" []
      []
      "" "payment webhook retry 4402 failed for customer 991233 at 0x7f3ca11b", ("message", "d6408e66de1cc85b4d3cb4be3a3e7c12"));
   ("message-only-different-ids",
    mkInput "python" []
      []
      "" "payment webhook retry 7 failed for customer 15 at 0x1a", ("message", "d6408e66de1cc85b4d3cb4be3a3e7c12"));
   ("message-template-wins-over-message",
    mkInput "python" []
      []
      "Failed to connect to %s after %d attempts" "Failed to connect to db-7.internal after 3 attempts", ("message-template", "2d9eb35407bee64bfb4053ba65c6d15f"));
   ("sdk-custom-fingerprint",
    mkInput "node" ["checkout-payment-failures"]
      [mkException "PaymentError" "card declined"
        [mkFrame "charge" "" "src/payments.js" "" None]]
      "" "", ("custom", "64f5bebf49b771eccf4241488725d6f5"));
   ("sdk-custom-fingerprint-groups-different-stacks",
    mkInput "node" ["checkout-payment-failures"]
      [mkException "RefundError" "gateway 502"
        [mkFrame "refund" "" "src/refunds.js" "" None]]
      "" "", ("custom", "64f5bebf49b771eccf4241488725d6f5"));
   ("sdk-default-token-equals-builtin",
    mkInput "node" ["{{ default }}"]
      [mkException "TypeError" "Cannot read properties of undefined (reading 'id')"
        [mkFrame "Layer.handle" "" "node_modules/express/lib/router/layer.js" "" None;
         mkFrame "next" "" "node_modules/express/lib/router/route.js" "" None;
         mkFrame "getOrder" "" "src/routes/orders.js" "" None;
         mkFrame "formatOrder" "" "src/lib/format.js" "" None]]
      "" "", ("stacktrace", "5b1ce5e110fafdb956aed60610606b14"));
   ("different-exception-type-same-stack-differs",
    mkInput "python" []
      [mkException "KeyError" "'quantity'"
        [mkFrame "inner" "django.core.handlers.exception" "" "/usr/local/lib/python3.12/site-packages/django/core/handlers/exception.py" None;
         mkFrame "get_response" "django.core.handlers.base" "" "/usr/local/lib/python3.12/site-packages/django/core/handlers/base.py" None;
         mkFrame "checkout" "shop.views" "" "/srv/app/shop/views.py" None;
         mkFrame "parse_quantity" "shop.cart" "" "/srv/app/shop/cart.py" None]]
      "" "", ("stacktrace", "6c8fb788885a0788a4d14979b1db799b"));
   ("in-app-hint-respected",
    mkInput "node" []
      [mkException "TypeError" "Cannot read properties of undefined (reading 'id')"
        [mkFrame "Layer.handle" "" "node_modules/express/lib/router/layer.js" "" (Some true);
         mkFrame "next" "" "node_modules/express/lib/router/route.js" "" (Some true);
         mkFrame "getOrder" "" "src/routes/orders.js" "" (Some false);
         mkFrame "formatOrder" "" "src/lib/format.js" "" (Some false)]]
      "" "", ("stacktrace", "99d905475ca551e2ce4a97f6fcafcc36"));
   ("chained-exceptions-group-on-innermost",
    mkInput "python" []
      [mkException "OSError" "connection reset"
        [mkFrame "recv_into" "socket" "" "/usr/local/lib/python3.12/socket.py" None];
       mkException "DatabaseError" "server closed the connection unexpectedly"
        [mkFrame "execute" "psycopg2.extensions" "" "/usr/local/lib/python3.12/site-packages/psycopg2/extensions.py" None;
         mkFrame "fetch_report" "analytics.reports" "" "/srv/app/analytics/reports.py" None]]
      "" "", ("stacktrace", "14586a4f57d6a4c289d6746520eab6bd"));
   ("empty-event-fallback",
    mkInput "other" []
      []
      "" "", ("fallback", "5d288ad264adcc2a70039c116c397be7"))
  ].

Definition outcome (i : Input) : string * string :=
  let r := Fingerprint (fun r => r) i [] in (basis_string (r_Basis r), r_Fingerprint r).

Example golden_corpus :
  filter (fun c => outcome (snd (fst c)) <> snd c) corpus = [].
Proof. vm_compute. reflexivity. Qed.

End GroupingGolden.
