(* ===== verification/Envelope.v ===== *)
(** * The envelope wire format (internal/ingest/envelope.go)

    Parse reads a newline-delimited envelope through a [bufio.Reader] on top
    of an [io.LimitedReader] on top of a [bytes.Reader]. The three are the
    record [Br]: the bytes not yet read, what the limit still allows, and the
    buffered bytes; the test of the limit in the loop sees how far the buffer
    has read ahead. *)
From S2P Require Import Prelude GoStrings GoUtf8 GoJson.
Import Json.
#[local] Open Scope Z_scope.
#[local] Open Scope leser_scope.

Module Envelope.

(** ** Data *)
Record Limits := mkLimits { MaxEnvelopeBytes : Z; MaxItems : Z; MaxItemBytes : Z }.

Definition defaults (l : Limits) : Limits :=
  {| MaxEnvelopeBytes := if MaxEnvelopeBytes l <=? 0 then Z.shiftl 20 20 else MaxEnvelopeBytes l;
     MaxItems := if MaxItems l <=? 0 then 50 else MaxItems l;
     MaxItemBytes := if MaxItemBytes l <=? 0 then Z.shiftl 10 20 else MaxItemBytes l |}.

Definition ItemEvent : string := "event".
Definition ItemTransaction : string := "transaction".
Definition acceptedTypes : list string :=
  ["event"; "transaction"; "attachment"; "session"; "client_report"; "check_in"]%string.

(** The reasons of ErrMalformed. *)
Inductive reason :=
  | MissingHeader | HeaderNotJSON | EnvelopeTooLong | TooManyItems | ItemHeaderNotJSON
  | ItemNoType | ItemLength | PayloadTruncated | NoNewline | PayloadUnterminated.

Record EnvelopeHeader := mkHeader { h_EventID : string; h_DSN : string; h_SentAt : string }.
Record ItemHeader := mkItemHeader { ih_Type : string; ih_Length : option Z }.
Record Item := mkItem { it_Header : ItemHeader; it_Payload : list byte }.
Record Envelope := mkEnvelope { e_Header : EnvelopeHeader; e_Items : list Item }.

(** The struct tags. *)
Definition dec_header : decoder EnvelopeHeader := dec_struct
  [field "event_id" h_EventID (fun v h => mkHeader v (h_DSN h) (h_SentAt h)) dec_string;
   field "dsn" h_DSN (fun v h => mkHeader (h_EventID h) v (h_SentAt h)) dec_string;
   field "sent_at" h_SentAt (fun v h => mkHeader (h_EventID h) (h_DSN h) v) dec_string].
Definition dec_item_header : decoder ItemHeader := dec_struct
  [field "type" ih_Type (fun v h => mkItemHeader v (ih_Length h)) dec_string;
   field "length" ih_Length (fun v h => mkItemHeader (ih_Type h) v) dec_int_ptr].

Definition unmarshal_header (line : list byte) : option EnvelopeHeader :=
  Unmarshal_ok dec_header (string_of_list_byte line) (mkHeader "" "" "").
Definition unmarshal_item (line : list byte) : option ItemHeader :=
  Unmarshal_ok dec_item_header (string_of_list_byte line) (mkItemHeader "" None).

(** ** The buffered, limited reader *)
Record Br := mkBr { src : list byte; lim_n : Z; bufd : list byte }.

Definition bufSize : Z := 65536.
Definition zlen {A} (l : list A) : Z := Z.of_nat (length l).

(** fill: one read of the underlying reader into the free part of the
    buffer; the boolean is [io.EOF]. *)
Definition fill (r : Br) : Br * bool :=
  let k := Z.min (bufSize - zlen (bufd r)) (Z.min (lim_n r) (zlen (src r))) in
  if (lim_n r <=? 0) || (zlen (src r) =? 0) then (r, true)
  else
    (mkBr (drop (Z.to_nat k) (src r)) (lim_n r - k) (bufd r ++ take (Z.to_nat k) (src r)), false).

Fixpoint split_nl (l : list byte) : option (list byte * list byte) :=
  match l with
  | [] => None
  | b :: l =>
      if Byte.eqb b x0a then Some ([], l)
      else match split_nl l with Some (a, r) => Some (b :: a, r) | None => None end
  end.

Inductive slice_err := SliceOk | SliceFull | SliceEOF.

(** ReadSlice('\n'); the line comes without its terminator. *)
Fixpoint ReadSlice (fuel : nat) (r : Br) : Br * list byte * slice_err :=
  match fuel with
  | O => (r, [], SliceEOF)
  | S fuel =>
      match split_nl (bufd r) with
      | Some (line, rest) => (mkBr (src r) (lim_n r) rest, line, SliceOk)
      | None =>
          if bufSize <=? zlen (bufd r) then (mkBr (src r) (lim_n r) [], bufd r, SliceFull)
          else
            let '(r', eof) := fill r in
            if eof then (mkBr (src r) (lim_n r) [], bufd r, SliceEOF) else ReadSlice fuel r'
      end
  end.

Inductive line_err := LineOk | LineTooLong | LineEOF.

(** readLine reads until the newline with a byte bound; the bound counts the
    terminator. *)
Fixpoint read_line (fuel : nat) (r : Br) (max : Z) (out : list byte) : Br * list byte * line_err :=
  match fuel with
  | O => (r, out, LineEOF)
  | S fuel =>
      let '(r, chunk, e) := ReadSlice (S (length (src r))) r in
      let out := out ++ chunk in
      if max <? zlen out + (match e with SliceOk => 1 | _ => 0 end) then (r, [], LineTooLong)
      else match e with
           | SliceOk => (r, out, LineOk)
           | SliceFull => read_line fuel r max out
           | SliceEOF => (r, out, LineEOF)
           end
  end.
Definition readLine (r : Br) (max : Z) : Br * list byte * line_err :=
  read_line (S (length (src r) + length (bufd r))) r max [].

(** [io.ReadFull(br, payload)] for [n] bytes: [None] when the input ends
    first. A large read with an empty buffer bypasses it. *)
Fixpoint read_full (fuel : nat) (r : Br) (n : Z) (out : list byte) : Br * option (list byte) :=
  match fuel with
  | O => (r, None)
  | S fuel =>
      if n <=? 0 then (r, Some out)
      else match bufd r with
      | [] =>
          if bufSize <=? n then
            let k := Z.min n (Z.min (lim_n r) (zlen (src r))) in
            if (lim_n r <=? 0) || (zlen (src r) =? 0) then (r, None)
            else read_full fuel (mkBr (drop (Z.to_nat k) (src r)) (lim_n r - k) []) (n - k)
                   (out ++ take (Z.to_nat k) (src r))
          else
            let '(r', eof) := fill r in
            if eof then (r, None)
            else
              let k := Z.to_nat (Z.min n (zlen (bufd r'))) in
              read_full fuel (mkBr (src r') (lim_n r') (drop k (bufd r'))) (n - Z.of_nat k)
                (out ++ take k (bufd r'))
      | b =>
          let k := Z.to_nat (Z.min n (zlen b)) in
          read_full fuel (mkBr (src r) (lim_n r) (drop k b)) (n - Z.of_nat k) (out ++ take k b)
      end
  end.
Definition ReadFull (r : Br) (n : Z) : Br * option (list byte) :=
  read_full (S (S (length (src r) + length (bufd r)))) r n [].

(** ReadByte: [None] is [io.EOF]. *)
Definition ReadByte (r : Br) : Br * option byte :=
  match bufd r with
  | b :: l => (mkBr (src r) (lim_n r) l, Some b)
  | [] =>
      let '(r', eof) := fill r in
      match eof, bufd r' with
      | false, b :: l => (mkBr (src r') (lim_n r') l, Some b)
      | _, _ => (r, None)
      end
  end.

(** ** Parse *)
Definition blank (line : list byte) : bool :=
  bool_decide (TrimSpace (string_of_list_byte line) = ""%string).

(** The payload that follows an item header. *)
Definition read_payload (lim : Limits) (ih : ItemHeader) (r : Br) : Br * (reason + list byte) :=
  match ih_Length ih with
  | Some n =>
      if (n <? 0) || (MaxItemBytes lim <? n) then (r, inl ItemLength)
      else
        let '(r, p) := ReadFull r n in
        match p with
        | None => (r, inl PayloadTruncated)
        | Some p =>
            let '(r, b) := ReadByte r in
            match b with
            | Some b => if negb (Byte.eqb b x0a) then (r, inl NoNewline) else (r, inr p)
            | None => (r, inr p)
            end
        end
  | None =>
      let '(r, p, e) := readLine r (MaxItemBytes lim) in
      match e with LineTooLong => (r, inl PayloadUnterminated) | _ => (r, inr p) end
  end.

(** The loop over the items. *)
Fixpoint items_loop (fuel : nat) (lim : Limits) (r : Br) (items : list Item) : reason + list Item :=
  match fuel with
  | O => inr items
  | S fuel =>
      if lim_n r <=? 0 then inl EnvelopeTooLong
      else
        let '(r, line, e) := readLine r (MaxEnvelopeBytes lim) in
        if blank line then
          match e with
          | LineOk => items_loop fuel lim r items (* a blank line between items *)
          | _ => inr items
          end
        else if MaxItems lim <=? zlen items then inl TooManyItems
        else match unmarshal_item line with
        | None => inl ItemHeaderNotJSON
        | Some ih =>
            if bool_decide (ih_Type ih = ""%string) then inl ItemNoType
            else
              let '(r, p) := read_payload lim ih r in
              match p with
              | inl e => inl e
              | inr p =>
                  if negb (bool_decide (ih_Type ih ∈ acceptedTypes)) then items_loop fuel lim r items
                  else items_loop fuel lim r (items ++ [mkItem ih p])
              end
        end
  end.

Definition Parse (body : list byte) (lim : Limits) : reason + Envelope :=
  let lim := defaults lim in
  let r := mkBr body (MaxEnvelopeBytes lim + 1) [] in
  let '(r, line, e) := readLine r (MaxEnvelopeBytes lim) in
  match e with
  | LineOk =>
      match unmarshal_header line with
      | None => inl HeaderNotJSON
      | Some h =>
          match items_loop (S (length body)) lim r [] with
          | inl e => inl e
          | inr items => inr (mkEnvelope h items)
          end
      end
  | _ => inl MissingHeader
  end.

End Envelope.
