(* ===== verification/EnvelopeProps.v ===== *)
(** * Properties of the envelope parser

    [spec_parse] is the parser one would write on the whole body at once. As
    long as the body is within the limit, buffering and read-ahead do not
    show: the code computes what [spec_parse] computes. *)
From S2P Require Import Prelude GoStrings GoUtf8 GoJson Envelope.
Import Json Envelope.
#[local] Open Scope Z_scope.
#[local] Open Scope leser_scope.

Module EnvelopeProps.

#[export] Instance line_err_eq_dec : EqDecision line_err.
Proof. solve_decision. Defined.

(** ** The parser on the whole body *)
Definition line_of (s : list byte) (max : Z) : list byte * list byte * line_err :=
  match split_nl s with
  | Some (l, s') => if max <? zlen l + 1 then ([], [], LineTooLong) else (s', l, LineOk)
  | None => if max <? zlen s then ([], [], LineTooLong) else ([], s, LineEOF)
  end.

Definition payload_of (lim : Limits) (ih : ItemHeader) (s : list byte) : reason + (list byte * list byte) :=
  match ih_Length ih with
  | Some n =>
      if (n <? 0) || (MaxItemBytes lim <? n) then inl ItemLength
      else if zlen s <? n then inl PayloadTruncated
      else
        let p := take (Z.to_nat n) s in
        match drop (Z.to_nat n) s with
        | [] => inr (p, [])
        | b :: s => if negb (Byte.eqb b x0a) then inl NoNewline else inr (p, s)
        end
  | None =>
      match line_of s (MaxItemBytes lim) with
      | (_, _, LineTooLong) => inl PayloadUnterminated
      | (s, p, _) => inr (p, s)
      end
  end.

Fixpoint spec_items (fuel : nat) (lim : Limits) (s : list byte) (items : list Item) : reason + list Item :=
  match fuel with
  | O => inr items
  | S fuel =>
      let '(s, line, e) := line_of s (MaxEnvelopeBytes lim) in
      if blank line then match e with LineOk => spec_items fuel lim s items | _ => inr items end
      else if MaxItems lim <=? zlen items then inl TooManyItems
      else match unmarshal_item line with
      | None => inl ItemHeaderNotJSON
      | Some ih =>
          if bool_decide (ih_Type ih = ""%string) then inl ItemNoType
          else match payload_of lim ih s with
          | inl e => inl e
          | inr (p, s) =>
              if negb (bool_decide (ih_Type ih ∈ acceptedTypes)) then spec_items fuel lim s items
              else spec_items fuel lim s (items ++ [mkItem ih p])
          end
      end
  end.

Definition spec_parse (fuel : nat) (body : list byte) (lim : Limits) : reason + Envelope :=
  let lim := defaults lim in
  match line_of body (MaxEnvelopeBytes lim) with
  | (s, line, LineOk) =>
      match unmarshal_header line with
      | None => inl HeaderNotJSON
      | Some h => match spec_items fuel lim s [] with
                  | inl e => inl e | inr items => inr (mkEnvelope h items) end
      end
  | _ => inl MissingHeader
  end.

(** ** The reader as a stream *)
Definition rest (r : Br) : list byte := bufd r ++ src r.

(** The limit is beyond what is left. *)
Definition fits (r : Br) : Prop := zlen (src r) < lim_n r /\ zlen (bufd r) <= bufSize.

Lemma zlen_app {A} (a b : list A) : zlen (a ++ b) = zlen a + zlen b.
Proof. unfold zlen. rewrite length_app. lia. Qed.
Lemma zlen_nonneg {A} (a : list A) : 0 <= zlen a.
Proof. unfold zlen. lia. Qed.
Lemma zlen_nil {A} (a : list A) : zlen a = 0 -> a = [].
Proof. destruct a; [auto|]. unfold zlen. simpl. lia. Qed.

Lemma fill_nil r : src r = [] -> fill r = (r, true).
Proof. intros H. unfold fill. rewrite H. cbn. rewrite orb_true_r. reflexivity. Qed.

Lemma fill_some r :
  fits r -> src r <> [] -> zlen (bufd r) < bufSize ->
  exists r', fill r = (r', false) /\ fits r' /\ rest r' = rest r
    /\ (length (src r') < length (src r))%nat /\ bufd r' <> [].
Proof.
  intros [H1 H2] Hne Hb. unfold fill.
  assert (Hs : 0 < zlen (src r)) by (destruct (src r); [congruence|unfold zlen; simpl; lia]).
  rewrite (proj2 (Z.leb_gt _ _)), (proj2 (Z.eqb_neq _ _)) by lia. cbn [orb].
  set (k := Z.min _ _). assert (Hk : 0 < k <= zlen (src r) /\ k <= bufSize - zlen (bufd r)) by lia.
  eexists. split; [reflexivity|]. unfold fits, rest, zlen in *. cbn [src bufd lim_n].
  rewrite length_drop, length_app, length_take. split_and!; try lia.
  - rewrite <- app_assoc, take_drop. reflexivity.
  - intros E. apply (f_equal length) in E. rewrite length_app, length_take in E. simpl in E. lia.
Qed.

Lemma split_nl_app a b :
  split_nl (a ++ b) =
  match split_nl a with
  | Some (l, r) => Some (l, r ++ b)
  | None => match split_nl b with Some (l, r) => Some (a ++ l, r) | None => None end
  end.
Proof.
  induction a as [|x a IH]; cbn; [destruct (split_nl b) as [[]|]; reflexivity|].
  destruct (Byte.eqb x x0a); [reflexivity|]. rewrite IH.
  destruct (split_nl a) as [[]|]; [reflexivity|]. destruct (split_nl b) as [[]|]; reflexivity.
Qed.

Lemma split_nl_length s l r : split_nl s = Some (l, r) -> length s = S (length l + length r).
Proof.
  revert l r. induction s as [|x s IH]; cbn; intros l r; [discriminate|].
  destruct (Byte.eqb x x0a); [intros [= <- <-]; reflexivity|].
  destruct (split_nl s) as [[l' r']|]; [|discriminate]. intros [= <- <-]. simpl. rewrite (IH l' r' eq_refl). lia.
Qed.

Lemma ReadSlice_stream fuel : forall r, fits r -> (length (src r) < fuel)%nat ->
  let '(r', l, e) := ReadSlice fuel r in
  fits r' /\ match e with
  | SliceOk => split_nl (rest r) = Some (l, rest r')
  | SliceEOF => split_nl (rest r) = None /\ l = rest r /\ rest r' = []
  | SliceFull => rest r = l ++ rest r' /\ split_nl l = None /\ l <> []
  end.
Proof.
  induction fuel as [|fuel IH]; intros r Hf Hlen; [lia|]. cbn [ReadSlice].
  destruct (split_nl (bufd r)) as [[l s]|] eqn:E.
  { destruct Hf as [H1 H2]. apply split_nl_length in E as El. unfold fits, zlen in *. cbn [src bufd lim_n].
    split; [lia|]. unfold rest. cbn [bufd src]. rewrite split_nl_app, E. reflexivity. }
  destruct (Z.leb_spec bufSize (zlen (bufd r))) as [Hfull|Hfull].
  { destruct Hf as [H1 H2]. split; [split; [exact H1|cbn; discriminate]|].
    split_and!; [reflexivity|exact E|]. intros E0. rewrite E0 in Hfull. unfold zlen, bufSize in Hfull. simpl in Hfull. lia. }
  destruct (decide (src r = [])) as [Hs|Hs].
  - rewrite fill_nil by exact Hs. destruct Hf as [H1 H2]. split; [split; [exact H1|cbn; discriminate]|].
    unfold rest. cbn [bufd src]. rewrite Hs, app_nil_r. auto.
  - destruct (fill_some r Hf Hs Hfull) as (r1 & -> & Hf1 & <- & Hlt & _). apply IH; [exact Hf1|lia].
Qed.

Definition line_ok (r : Br) (out : list byte) (max : Z) (x : Br * list byte * line_err) : Prop :=
  match split_nl (rest r) with
  | Some (l, s') =>
      if max <? zlen (out ++ l) + 1 then snd (fst x) = [] /\ snd x = LineTooLong
      else fits (fst (fst x)) /\ rest (fst (fst x)) = s' /\ snd (fst x) = out ++ l /\ snd x = LineOk
  | None =>
      if max <? zlen (out ++ rest r) then snd (fst x) = [] /\ snd x = LineTooLong
      else fits (fst (fst x)) /\ rest (fst (fst x)) = [] /\ snd (fst x) = out ++ rest r /\ snd x = LineEOF
  end.

Lemma read_line_stream fuel : forall r max out, fits r -> (length (rest r) < fuel)%nat ->
  line_ok r out max (read_line fuel r max out).
Proof.
  induction fuel as [|fuel IH]; intros r max out Hf Hlen; [lia|]. cbn [read_line].
  pose proof (ReadSlice_stream (S (length (src r))) r Hf ltac:(lia)) as Hs.
  destruct (ReadSlice _ r) as [[r' l] e]. destruct Hs as [Hf' Hs]. unfold line_ok.
  destruct e.
  - rewrite Hs. destruct (max <? zlen (out ++ l) + 1); cbn; auto.
  - destruct Hs as (Hr & Hl & Hne). rewrite Z.add_0_r.
    assert (Hrest : (length (rest r') < fuel)%nat).
    { apply (f_equal length) in Hr. rewrite length_app in Hr. destruct l; [congruence|]. simpl in Hr. lia. }
    specialize (IH r' max (out ++ l) Hf' Hrest). rewrite Hr, split_nl_app, Hl. unfold line_ok in IH.
    destruct (split_nl (rest r')) as [[l' s']|].
    + rewrite app_assoc. destruct (Z.ltb_spec max (zlen (out ++ l))) as [Hm|Hm]; [|exact IH].
      rewrite (proj2 (Z.ltb_lt _ _)); [cbn; auto|]. rewrite zlen_app. pose proof (zlen_nonneg l'). lia.
    + rewrite app_assoc. destruct (Z.ltb_spec max (zlen (out ++ l))) as [Hm|Hm]; [|exact IH].
      rewrite (proj2 (Z.ltb_lt _ _)); [cbn; auto|]. rewrite zlen_app. pose proof (zlen_nonneg (rest r')). lia.
  - destruct Hs as (Hn & -> & Hr'). rewrite Hn, Z.add_0_r. destruct (max <? _); cbn; auto.
Qed.

Lemma readLine_stream r max : fits r -> line_ok r [] max (readLine r max).
Proof. intros Hf. apply read_line_stream; [exact Hf|]. unfold rest. rewrite length_app. lia. Qed.

(** readLine on the stream is [line_of]; where the line is too long the
    stream does not matter any more. *)
Lemma readLine_line_of r max : fits r ->
  let '(s, l, e) := line_of (rest r) max in
  let '(r', l', e') := readLine r max in
  l' = l /\ e' = e /\ (e <> LineTooLong -> fits r' /\ rest r' = s).
Proof.
  intros Hf. pose proof (readLine_stream r max Hf) as H. destruct (readLine r max) as [[r' l'] e'].
  unfold line_ok, line_of in *. cbn [fst snd app] in H.
  destruct (split_nl (rest r)) as [[l s]|]; destruct (max <? _); destruct H as (? & ?); intuition congruence.
Qed.

Lemma ReadByte_stream r : fits r ->
  match rest r with
  | [] => ReadByte r = (r, None)
  | b :: s => exists r', ReadByte r = (r', Some b) /\ fits r' /\ rest r' = s
  end.
Proof.
  intros Hf. unfold ReadByte, rest in *. destruct (bufd r) as [|b l] eqn:Eb.
  - cbn [app]. destruct (decide (src r = [])) as [Hs|Hs].
    + rewrite fill_nil, Hs by exact Hs. reflexivity.
    + destruct (fill_some r Hf Hs) as (r' & -> & Hf' & Hr & _ & Hne); [rewrite Eb; reflexivity|].
      unfold rest in Hr. rewrite Eb in Hr. cbn [app] in Hr. rewrite <- Hr.
      destruct (bufd r') as [|b l] eqn:E'; [congruence|]. cbn. eexists. split; [reflexivity|].
      destruct Hf' as [H1 H2]. rewrite E' in H2. unfold fits, zlen in *. cbn in *. split; [lia|reflexivity].
  - cbn. eexists. split; [reflexivity|]. destruct Hf as [H1 H2]. rewrite Eb in H2. unfold fits, zlen in *.
    cbn in *. split; [lia|reflexivity].
Qed.

Lemma take_take_drop {A} (k n : nat) (l : list A) :
  (k <= n)%nat -> take k l ++ take (n - k) (drop k l) = take n l.
Proof. intros H. rewrite <- (take_drop k l) at 3. rewrite take_app, take_take, length_take.
  replace (n `min` k)%nat with k by lia. f_equal.
  destruct (Nat.le_gt_cases k (length l)); [f_equal; lia|]. rewrite !drop_ge by lia. rewrite !take_nil. reflexivity.
Qed.

(** What reading [n] more bytes gives, [done] being in hand, when the stream
    still holds [all]. *)
Definition full_read (res : Br * option (list byte)) (n : Z) (done all : list byte) : Prop :=
  if n <=? zlen all
  then exists r', res = (r', Some (done ++ take (Z.to_nat n) all)) /\ fits r' /\ rest r' = drop (Z.to_nat n) all
  else snd res = None.

Lemma full_read_step res n k out all : 0 < k <= n -> k <= zlen all ->
  full_read res (n - k) (out ++ take (Z.to_nat k) all) (drop (Z.to_nat k) all) -> full_read res n out all.
Proof.
  unfold full_read, zlen. intros Hk Hk' H. rewrite length_drop in H.
  replace (n - k <=? Z.of_nat (length all - Z.to_nat k)) with (n <=? Z.of_nat (length all)) in H
    by (apply eq_true_iff_eq; rewrite !Z.leb_le; lia).
  destruct (n <=? _); [|exact H]. destruct H as (r' & -> & Hf & Hr). exists r'.
  rewrite Z2Nat.inj_sub, <- app_assoc, take_take_drop in * by lia.
  split_and!; [reflexivity|exact Hf|]. rewrite Hr, drop_drop. f_equal. lia.
Qed.

(** A read that went on after [k] bytes. *)
Lemma full_read_after (rd : Br -> Z -> list byte -> Br * option (list byte)) r r' n k out :
  (full_read (rd r' (n - k) (out ++ take (Z.to_nat k) (rest r))) (n - k) (out ++ take (Z.to_nat k) (rest r)) (rest r')) ->
  0 < k <= n -> k <= zlen (rest r) -> rest r' = drop (Z.to_nat k) (rest r) ->
  full_read (rd r' (n - k) (out ++ take (Z.to_nat k) (rest r))) n out (rest r).
Proof. intros H Hk Hk' Hr. rewrite Hr in H. eapply full_read_step; eauto. Qed.

Lemma full_read_end res n out all : 0 < n -> all = [] -> snd res = None -> full_read res n out all.
Proof. intros Hn -> H. unfold full_read. rewrite (proj2 (Z.leb_gt _ _)) by (unfold zlen; cbn; lia). exact H. Qed.

Lemma read_full_stream fuel : forall r n out, fits r -> (S (length (rest r)) < fuel)%nat -> 0 <= n ->
  full_read (read_full fuel r n out) n out (rest r).
Proof.
  induction fuel as [|fuel IH]; intros r n out Hf Hlen Hn; [lia|]. cbn [read_full].
  destruct (Z.leb_spec n 0) as [Hn0|Hn0].
  { assert (n = 0) as -> by lia. unfold full_read. rewrite (proj2 (Z.leb_le _ _)) by apply zlen_nonneg.
    exists r. cbn. rewrite app_nil_r. auto. }
  assert (Hstep : forall r' k, 0 < k <= n -> k <= zlen (rest r) -> fits r' ->
    rest r' = drop (Z.to_nat k) (rest r) ->
    full_read (read_full fuel r' (n - k) (out ++ take (Z.to_nat k) (rest r))) n out (rest r)).
  { intros r' k Hk Hk' Hf' Hr'. apply (full_read_after (read_full fuel)); auto.
    apply IH; [exact Hf'| |lia]. rewrite Hr', length_drop. unfold zlen in Hk'. lia. }
  pose proof Hf as [H1 H2]. destruct (bufd r) as [|b l] eqn:Eb.
  - assert (Hrest : rest r = src r) by (unfold rest; rewrite Eb; reflexivity).
    destruct (Z.leb_spec bufSize n) as [Hbig|Hbig].
    + destruct (decide (src r = [])) as [Hs|Hs].
      * apply full_read_end; [exact Hn0|congruence|].
        rewrite Hs. cbn [zlen length Z.of_nat Z.eqb]. rewrite orb_true_r. reflexivity.
      * assert (Hs' : 0 < zlen (src r)) by (destruct (src r); [congruence|unfold zlen; simpl; lia]).
        rewrite (proj2 (Z.leb_gt (lim_n r) 0)), (proj2 (Z.eqb_neq (zlen (src r)) 0)) by lia. cbn [orb].
        set (k := Z.min n (Z.min (lim_n r) (zlen (src r)))).
        replace (take (Z.to_nat k) (src r)) with (take (Z.to_nat k) (rest r)) by (rewrite Hrest; reflexivity).
        apply Hstep; [lia|rewrite Hrest; lia| |]; [|rewrite Hrest; reflexivity].
        unfold fits, zlen in *. cbn. rewrite length_drop. unfold bufSize. lia.
    + destruct (decide (src r = [])) as [Hs|Hs].
      * apply full_read_end; [exact Hn0|congruence|]. rewrite fill_nil by exact Hs. reflexivity.
      * destruct (fill_some r Hf Hs ltac:(rewrite Eb; reflexivity))
          as (r' & -> & [F1 F2] & Hr & _ & Hne).
        set (k := Z.min n (zlen (bufd r'))).
        assert (Hk : 0 < k) by (destruct (bufd r'); [congruence|unfold k, zlen; simpl; lia]).
        rewrite Z2Nat.id by lia.
        assert (Ht : take (Z.to_nat k) (bufd r') = take (Z.to_nat k) (rest r)).
        { rewrite <- Hr. unfold rest. rewrite take_app_le; [reflexivity|unfold zlen in *; lia]. }
        rewrite Ht. apply Hstep; [lia| | |].
        -- rewrite <- Hr. unfold rest. rewrite zlen_app. pose proof (zlen_nonneg (src r')). lia.
        -- unfold fits, zlen in *. cbn. rewrite length_drop. lia.
        -- rewrite <- Hr. unfold rest. cbn. rewrite drop_app_le; [reflexivity|unfold zlen in *; lia].
  - assert (Hr : rest r = (b :: l) ++ src r) by (unfold rest; rewrite Eb; reflexivity).
    set (k := Z.min n (zlen (b :: l))). assert (Hk : 0 < k) by (unfold k, zlen; simpl; lia).
    rewrite Z2Nat.id by lia.
    assert (Ht : take (Z.to_nat k) (b :: l) = take (Z.to_nat k) (rest r)).
    { rewrite Hr. rewrite take_app_le; [reflexivity|unfold zlen in *; lia]. }
    rewrite Ht. apply Hstep; [lia| | |].
    + rewrite Hr, zlen_app. pose proof (zlen_nonneg (src r)). lia.
    + unfold fits, zlen in *. cbn. rewrite length_drop. lia.
    + rewrite Hr. unfold rest. cbn [bufd src]. rewrite drop_app_le; [reflexivity|unfold zlen in *; lia].
Qed.

(** ** Parse is [spec_parse] *)
Lemma read_payload_stream lim ih r : fits r ->
  match payload_of lim ih (rest r) with
  | inl e => snd (read_payload lim ih r) = inl e
  | inr (p, s) => exists r', read_payload lim ih r = (r', inr p) /\ fits r' /\ rest r' = s
  end.
Proof.
  intros Hf. unfold payload_of, read_payload. destruct (ih_Length ih) as [n|].
  - destruct (Z.ltb_spec n 0) as [Hneg|Hneg]; [reflexivity|].
    destruct (Z.ltb_spec (MaxItemBytes lim) n) as [Hbig|Hbig]; [reflexivity|]. cbn [orb].
    pose proof (read_full_stream (S (S (length (src r) + length (bufd r)))) r n [] Hf
      ltac:(unfold rest; rewrite length_app; lia) Hneg) as H.
    unfold ReadFull. unfold full_read in H. rewrite Z.leb_antisym in H. destruct (Z.ltb_spec (zlen (rest r)) n); cbn [negb] in H.
    + destruct (read_full _ r n []) as [r' [x|]]; [discriminate H|reflexivity].
    + destruct H as (r' & -> & Hf' & Hr'). cbn [app]. pose proof (ReadByte_stream r' Hf') as Hb.
      rewrite Hr' in Hb. destruct (drop (Z.to_nat n) (rest r)) as [|b s].
      * rewrite Hb. eauto.
      * destruct Hb as (r'' & -> & Hf'' & <-). destruct (negb _); [reflexivity|eauto].
  - pose proof (readLine_line_of r (MaxItemBytes lim) Hf) as H.
    destruct (line_of (rest r) (MaxItemBytes lim)) as [[s l] e].
    destruct (readLine r (MaxItemBytes lim)) as [[r' l'] e']. destruct H as (-> & -> & H).
    destruct e; [|reflexivity|]; destruct (H ltac:(discriminate)); eauto.
Qed.

Lemma line_of_too_long s max x : line_of s max = (x, LineTooLong) -> snd x = [].
Proof. unfold line_of. destruct (split_nl s) as [[]|]; destruct (_ <? _); congruence || (intros [= <-]; reflexivity). Qed.

Lemma items_loop_stream fuel : forall lim r items, fits r ->
  items_loop fuel lim r items = spec_items fuel lim (rest r) items.
Proof.
  induction fuel as [|fuel IH]; intros lim r items Hf; [reflexivity|]. cbn [items_loop spec_items].
  assert (Hn : 0 < lim_n r) by (destruct Hf as [H _]; pose proof (zlen_nonneg (src r)); lia).
  rewrite (proj2 (Z.leb_gt _ _)) by exact Hn.
  pose proof (readLine_line_of r (MaxEnvelopeBytes lim) Hf) as H.
  destruct (line_of (rest r) (MaxEnvelopeBytes lim)) as [[s l] e] eqn:El.
  destruct (readLine r (MaxEnvelopeBytes lim)) as [[r' l'] e']. destruct H as (-> & -> & H).
  destruct (decide (e = LineTooLong)) as [->|He].
  { apply line_of_too_long in El. cbn in El. subst l. reflexivity. }
  destruct (H He) as [Hf' <-]. destruct (blank l).
  { destruct e; [apply IH, Hf'|reflexivity..]. }
  destruct (MaxItems lim <=? zlen items); [reflexivity|].
  destruct (unmarshal_item l) as [ih|]; [|reflexivity]. destruct (bool_decide _); [reflexivity|].
  pose proof (read_payload_stream lim ih r' Hf') as Hp.
  destruct (payload_of lim ih (rest r')) as [e1|[p s1]].
  - destruct (read_payload lim ih r') as [r2 x]. cbn in Hp. rewrite Hp. reflexivity.
  - destruct Hp as (r2 & -> & Hf2 & <-). destruct (negb _); apply IH, Hf2.
Qed.

(** Every turn of the item loop consumes at least one byte, so more fuel than
    bytes is the same as any other such fuel. *)
Lemma line_of_length s max s' l e :
  line_of s max = (s', l, e) -> e <> LineTooLong -> (length s' <= length s)%nat
  /\ (e = LineOk -> length s' < length s)%nat /\ (l <> [] -> length s' < length s)%nat.
Proof.
  unfold line_of. intros E He. destruct (split_nl s) as [[l1 s1]|] eqn:Es; destruct (_ <? _); simplify_eq.
  - apply split_nl_length in Es. lia.
  - simpl. split_and!; [lia|discriminate|]. intros Hl. destruct l; [congruence|simpl; lia].
Qed.

Lemma payload_of_length lim ih s p s' : payload_of lim ih s = inr (p, s') -> (length s' <= length s)%nat.
Proof.
  unfold payload_of. intros E. destruct (ih_Length ih) as [n|].
  - destruct (_ || _); [discriminate|]. destruct (_ <? _); [discriminate|].
    destruct (drop (Z.to_nat n) s) as [|b t] eqn:Ed; [simplify_eq; simpl; lia|].
    apply (f_equal length) in Ed. rewrite length_drop in Ed. simpl in Ed. destruct (negb _); simplify_eq. lia.
  - destruct (line_of s (MaxItemBytes lim)) as [[t l] e] eqn:El.
    assert (He : e <> LineTooLong /\ s' = t) by (destruct e; simplify_eq; split; congruence).
    destruct He as [He ->]. apply line_of_length in El; [lia|exact He].
Qed.

Lemma blank_nil : blank [] = true.
Proof. reflexivity. Qed.

Lemma spec_items_fuel fuel : forall fuel' lim s items, (length s < fuel)%nat -> (length s < fuel')%nat ->
  spec_items fuel lim s items = spec_items fuel' lim s items.
Proof.
  induction fuel as [|fuel IH]; intros [|fuel'] lim s items H1 H2; try lia. cbn [spec_items].
  destruct (line_of s (MaxEnvelopeBytes lim)) as [[s1 l] e] eqn:El.
  destruct (decide (e = LineTooLong)) as [->|He].
  { apply line_of_too_long in El. cbn in El. subst l. reflexivity. }
  destruct (line_of_length _ _ _ _ _ El He) as (L1 & L2 & L3).
  destruct (blank l) eqn:Eb.
  { destruct e; [|reflexivity..]. specialize (L2 eq_refl). apply IH; lia. }
  assert (Hl : l <> []) by (intros ->; discriminate). specialize (L3 Hl).
  destruct (MaxItems lim <=? zlen items); [reflexivity|].
  destruct (unmarshal_item l) as [ih|]; [|reflexivity]. destruct (bool_decide _); [reflexivity|].
  destruct (payload_of lim ih s1) as [|[p s2]] eqn:Ep; [reflexivity|]. apply payload_of_length in Ep.
  destruct (negb _); apply IH; lia.
Qed.

Lemma Parse_spec body lim fuel :
  zlen body <= MaxEnvelopeBytes (defaults lim) -> (length body < fuel)%nat ->
  Parse body lim = spec_parse fuel body lim.
Proof.
  intros Hb Hfuel. unfold Parse, spec_parse.
  set (r := mkBr body (MaxEnvelopeBytes (defaults lim) + 1) []).
  assert (Hf : fits r) by (split; unfold r; cbn [src lim_n bufd]; [lia|discriminate]).
  pose proof (readLine_line_of r (MaxEnvelopeBytes (defaults lim)) Hf) as H.
  change (rest r) with body in H.
  destruct (line_of body (MaxEnvelopeBytes (defaults lim))) as [[s l] e] eqn:El.
  destruct (readLine r (MaxEnvelopeBytes (defaults lim))) as [[r' l'] e']. destruct H as (-> & -> & H).
  destruct e; [|reflexivity..]. destruct (H ltac:(discriminate)) as [Hf' <-].
  destruct (unmarshal_header l); [|reflexivity]. rewrite items_loop_stream by exact Hf'.
  apply line_of_length in El as (L & _); [|discriminate].
  rewrite (spec_items_fuel _ fuel) by lia. reflexivity.
Qed.

(** C25: buffering, read-ahead and the byte limit of the reader do not show
    in the result: on a body within the limit, Parse computes what the plain
    parser computes on the whole body, with any fuel beyond its length, and
    in particular never reports an envelope that is too long. *)
Theorem Parse_is_stream_parser body lim fuel :
  zlen body <= MaxEnvelopeBytes (defaults lim) -> (length body < fuel)%nat ->
  Parse body lim = spec_parse fuel body lim /\ Parse body lim <> inl EnvelopeTooLong.
Proof.
  intros Hb Hfuel. rewrite (Parse_spec body lim fuel Hb Hfuel). split; [reflexivity|].
  assert (Hp : forall lim ih s, payload_of lim ih s <> inl EnvelopeTooLong).
  { intros l ih s. unfold payload_of. repeat case_match; congruence. }
  assert (Hi : forall fuel lim s items, spec_items fuel lim s items <> inl EnvelopeTooLong).
  { clear -Hp. induction fuel as [|fuel IH]; intros lim s items; cbn [spec_items]; [discriminate|].
    destruct (line_of s _) as [[s1 l] e]. destruct (blank l); [destruct e; auto; discriminate|].
    destruct (_ <=? _); [discriminate|]. destruct (unmarshal_item l) as [ih|]; [|discriminate].
    destruct (bool_decide _); [discriminate|]. specialize (Hp lim ih s1).
    destruct (payload_of lim ih s1) as [e1|[p s2]]; [congruence|]. destruct (negb _); apply IH. }
  unfold spec_parse. destruct (line_of body _) as [[s l] e]. destruct e; [|discriminate..].
  destruct (unmarshal_header l); [|discriminate].
  pose proof (Hi fuel (defaults lim) s []). destruct (spec_items _ _ _ _); congruence.
Qed.

(** ** Writing an envelope *)

(** An item as an SDK writes it: its header line and its payload. *)
Record wire := mkWire { w_line : list byte; w_header : ItemHeader; w_payload : list byte }.

Definition wire_ok (lim : Limits) (w : wire) : Prop :=
  split_nl (w_line w) = None /\ blank (w_line w) = false
  /\ unmarshal_item (w_line w) = Some (w_header w) /\ ih_Type (w_header w) <> ""%string
  /\ match ih_Length (w_header w) with
     | Some n => n = zlen (w_payload w) /\ n <= MaxItemBytes lim
     | None => split_nl (w_payload w) = None /\ zlen (w_payload w) + 1 <= MaxItemBytes lim
     end.

Definition render (w : wire) : list byte := w_line w ++ [x0a] ++ w_payload w ++ [x0a].
Definition item_of (w : wire) : option Item :=
  if bool_decide (ih_Type (w_header w) ∈ acceptedTypes) then Some (mkItem (w_header w) (w_payload w)) else None.

Lemma split_nl_line l s : split_nl l = None -> split_nl (l ++ x0a :: s) = Some (l, s).
Proof. intros H. rewrite split_nl_app, H. cbn. rewrite app_nil_r. reflexivity. Qed.

Lemma payload_of_render lim w s :
  wire_ok lim w -> payload_of lim (w_header w) (w_payload w ++ x0a :: s) = inr (w_payload w, s).
Proof.
  intros (_ & _ & _ & _ & H). unfold payload_of. destruct (ih_Length (w_header w)) as [n|].
  - destruct H as [-> H]. pose proof (zlen_nonneg (w_payload w)).
    rewrite (proj2 (Z.ltb_ge _ 0)), (proj2 (Z.ltb_ge (MaxItemBytes lim) _)) by lia. cbn [orb].
    rewrite zlen_app, (proj2 (Z.ltb_ge _ _)) by (pose proof (zlen_nonneg (x0a :: s)); lia).
    unfold zlen. rewrite Nat2Z.id, take_app_length, drop_app_length. reflexivity.
  - destruct H as [Hn H]. unfold line_of. rewrite split_nl_line by exact Hn.
    rewrite (proj2 (Z.ltb_ge _ _)) by lia. reflexivity.
Qed.

Lemma zlen_render w : zlen (render w) = zlen (w_line w) + zlen (w_payload w) + 2.
Proof. unfold render. rewrite !zlen_app. change (zlen [x0a]) with 1. lia. Qed.

Lemma spec_items_render lim ws : forall fuel items,
  Forall (wire_ok lim) ws -> zlen items + zlen ws <= MaxItems lim ->
  zlen (concat (map render ws)) <= MaxEnvelopeBytes lim -> (length ws < fuel)%nat ->
  spec_items fuel lim (concat (map render ws)) items = inr (items ++ omap item_of ws).
Proof.
  induction ws as [|w ws IH]; intros fuel items Hok Hn Hlen Hfuel; destruct fuel as [|fuel]; try (simpl in Hfuel; lia).
  - cbn [map concat] in *. cbn [spec_items]. unfold line_of. cbn [split_nl].
    rewrite (proj2 (Z.ltb_ge _ _)) by exact Hlen. cbn. rewrite app_nil_r. reflexivity.
  - inversion Hok as [|? ? Hw Hws]; subst. cbn [map concat] in *. rewrite zlen_app, zlen_render in Hlen.
    pose proof (zlen_nonneg (w_payload w)). pose proof (zlen_nonneg (concat (map render ws))).
    pose proof (zlen_nonneg (w_line w)).
    unfold zlen in Hn. simpl in Hn, Hfuel. cbn [spec_items].
    assert (Hl : line_of (render w ++ concat (map render ws)) (MaxEnvelopeBytes lim)
      = (w_payload w ++ x0a :: concat (map render ws), w_line w, LineOk)).
    { unfold render, line_of. rewrite <- !app_assoc. cbn [app].
      rewrite split_nl_line by apply Hw.
      rewrite (proj2 (Z.ltb_ge _ _)) by lia. reflexivity. }
    rewrite Hl. cbn beta iota. destruct (id Hw) as (_ & -> & -> & Hty & _). rewrite payload_of_render by exact Hw.
    rewrite (proj2 (Z.leb_gt _ _)) by (unfold zlen; lia). rewrite bool_decide_false by exact Hty.
    cbn [omap list_omap]. unfold item_of at 1. destruct (bool_decide_reflect (ih_Type (w_header w) ∈ acceptedTypes)); cbn [negb].
    + rewrite IH; [rewrite <- app_assoc; reflexivity|exact Hws| |lia|lia].
      rewrite zlen_app. unfold zlen. cbn. lia.
    + apply IH; [exact Hws|unfold zlen; lia|lia|lia].
Qed.

Lemma length_concat_render ws : (length ws <= length (concat (map render ws)))%nat.
Proof.
  induction ws as [|w ws IH]; cbn; [lia|]. rewrite length_app.
  pose proof (zlen_render w) as H. unfold zlen in H. lia.
Qed.

(** C26: framing. An envelope written item by item, each payload any bytes
    under its declared length or any line without one, is parsed back into
    its header and the items of accepted types, in order, payloads byte for
    byte. *)
Theorem envelope_roundtrip lim hline h ws :
  split_nl hline = None -> unmarshal_header hline = Some h ->
  Forall (wire_ok (defaults lim)) ws -> zlen ws <= MaxItems (defaults lim) ->
  zlen (hline ++ [x0a] ++ concat (map render ws)) <= MaxEnvelopeBytes (defaults lim) ->
  Parse (hline ++ [x0a] ++ concat (map render ws)) lim = inr (mkEnvelope h (omap item_of ws)).
Proof.
  intros Hn Hh Hws Hcount Hlen. pose proof (length_concat_render ws).
  rewrite (Parse_spec _ _ (S (length (hline ++ [x0a] ++ concat (map render ws))))) by (auto; lia).
  unfold spec_parse, line_of. cbn [app]. rewrite split_nl_line by exact Hn.
  rewrite !zlen_app in Hlen. pose proof (zlen_nonneg (concat (map render ws))). cbn [zlen] in Hlen.
  change (zlen [x0a]) with 1 in Hlen. pose proof (zlen_nonneg hline).
  rewrite (proj2 (Z.ltb_ge _ _)) by lia. rewrite Hh, spec_items_render; [reflexivity|exact Hws| |lia|].
  - change (zlen (@nil Item)) with 0. lia.
  - rewrite length_app. simpl. lia.
Qed.

(** ** Bounds of the result, for any body *)
Lemma read_line_len fuel : forall r max out, zlen out <= max ->
  match read_line fuel r max out with (_, l, LineTooLong) => True | (_, l, _) => zlen l <= max end.
Proof.
  induction fuel as [|fuel IH]; intros r max out Ho; cbn [read_line]; [exact Ho|].
  destruct (ReadSlice _ r) as [[r' l] e].
  destruct (Z.ltb_spec max (zlen (out ++ l) + match e with SliceOk => 1 | _ => 0 end)); [exact I|].
  destruct e; [lia|apply IH; lia|lia].
Qed.

Lemma read_full_len fuel : forall r n out,
  match snd (read_full fuel r n out) with Some p => zlen p = zlen out + Z.max 0 n | None => True end.
Proof.
  induction fuel as [|fuel IH]; intros r n out; cbn [read_full]; [exact I|].
  destruct (Z.leb_spec n 0) as [Hn|Hn]; [cbn; lia|].
  assert (Hstep : forall r' (l : list byte) k, 0 <= k <= n -> k <= zlen l ->
    match snd (read_full fuel r' (n - k) (out ++ take (Z.to_nat k) l)) with
    | Some p => zlen p = zlen out + Z.max 0 n | None => True end).
  { intros r' l k Hk Hl. specialize (IH r' (n - k) (out ++ take (Z.to_nat k) l)).
    destruct (snd _); [|exact I]. rewrite zlen_app in IH. unfold zlen in *. rewrite length_take in IH. lia. }
  destruct (bufd r) as [|b l].
  - destruct (bufSize <=? n).
    + destruct (Z.leb_spec (lim_n r) 0); [exact I|]. destruct (_ =? _); [exact I|]. cbn [orb].
      apply Hstep; pose proof (zlen_nonneg (src r)); lia.
    + destruct (fill r) as [r' []]; [exact I|]. pose proof (zlen_nonneg (bufd r')). rewrite Z2Nat.id by lia.
      apply Hstep; lia.
  - pose proof (zlen_nonneg (b :: l)). rewrite Z2Nat.id by lia. apply Hstep; lia.
Qed.

Lemma read_payload_len lim ih r r' p :
  0 <= MaxItemBytes lim -> read_payload lim ih r = (r', inr p) -> zlen p <= MaxItemBytes lim.
Proof.
  intros H0 E. unfold read_payload in E. destruct (ih_Length ih) as [n|].
  - destruct (Z.ltb_spec n 0); [discriminate|]. destruct (Z.ltb_spec (MaxItemBytes lim) n); [discriminate|].
    cbn [orb] in E. pose proof (read_full_len (S (S (length (src r) + length (bufd r)))) r n []) as Hl.
    unfold ReadFull in E. destruct (read_full _ r n []) as [r1 [q|]]; [|discriminate]. cbn [snd] in Hl.
    destruct (ReadByte r1) as [r2 [b|]]; [destruct (negb _); [discriminate|]|]; simplify_eq;
      unfold zlen in *; cbn in Hl; lia.
  - pose proof (read_line_len (S (length (src r) + length (bufd r))) r (MaxItemBytes lim) [] H0) as Hl.
    unfold readLine in E. destruct (read_line _ _ _ _) as [[r1 l] []]; simplify_eq; exact Hl.
Qed.

Definition item_bounded (lim : Limits) (i : Item) : Prop :=
  zlen (it_Payload i) <= MaxItemBytes lim /\ ih_Type (it_Header i) ∈ acceptedTypes.

Lemma items_loop_bounds fuel : forall lim r items its, 0 <= MaxItemBytes lim ->
  Forall (item_bounded lim) items -> zlen items <= MaxItems lim ->
  items_loop fuel lim r items = inr its -> Forall (item_bounded lim) its /\ zlen its <= MaxItems lim.
Proof.
  induction fuel as [|fuel IH]; intros lim r items its H0 Hit Hn E; cbn [items_loop] in E; [simplify_eq; auto|].
  destruct (_ <=? 0); [discriminate|]. destruct (readLine r _) as [[r1 l] e].
  destruct (blank l); [destruct e; simplify_eq; eauto|].
  destruct (Z.leb_spec (MaxItems lim) (zlen items)) as [|Hlt]; [discriminate|].
  destruct (unmarshal_item l) as [ih|]; [|discriminate]. destruct (bool_decide _); [discriminate|].
  destruct (read_payload lim ih r1) as [r2 [|p]] eqn:Ep; [discriminate|].
  apply read_payload_len in Ep; [|exact H0].
  destruct (bool_decide_reflect (ih_Type ih ∈ acceptedTypes)) as [Hty|Hty]; cbn [negb] in E; [|eauto].
  eapply IH in E; eauto.
  - apply Forall_app. split; [exact Hit|]. constructor; [split; assumption|constructor].
  - rewrite zlen_app. unfold zlen in *. simpl. lia.
Qed.

(** whatever bytes arrive, also more than the limit, an envelope that
    is accepted has at most the configured number of items, each of an
    accepted type and no larger than the configured size. *)
Theorem Parse_bounds body lim env :
  Parse body lim = inr env ->
  zlen (e_Items env) <= MaxItems (defaults lim)
  /\ Forall (item_bounded (defaults lim)) (e_Items env).
Proof.
  unfold Parse. intros E. destruct (readLine _ _) as [[r l] e]. destruct e; [|discriminate..].
  destruct (unmarshal_header l) as [h|]; [|discriminate].
  destruct (items_loop _ _ r []) as [|its] eqn:Ei; [discriminate|]. injection E as <-. cbn [e_Items].
  eapply items_loop_bounds in Ei as [H1 H2]; auto.
  - cbn. destruct (Z.leb_spec (MaxItemBytes lim) 0); [vm_compute; discriminate|lia].
  - change (zlen (@nil Item)) with 0. unfold defaults. cbn [MaxItems]. destruct (Z.leb_spec (MaxItems lim) 0); lia.
Qed.

(** ** A concrete envelope *)
Definition bs : string -> list byte := list_byte_of_string.
Definition ex_hline : list byte := bs ("{" +:+ quoted "event_id" +:+ ":" +:+ quoted "ab" +:+ "}").
Definition ex_wires : list wire :=
  [mkWire (bs ("{" +:+ quoted "type" +:+ ":" +:+ quoted "event" +:+ "," +:+ quoted "length" +:+ ":3}"))
     (mkItemHeader "event" (Some 3)) [x7b; x0a; x7d];
   mkWire (bs ("{" +:+ quoted "type" +:+ ":" +:+ quoted "profile" +:+ "}")) (mkItemHeader "profile" None) (bs "skip me");
   mkWire (bs ("{" +:+ quoted "Type" +:+ ":" +:+ quoted "session" +:+ "}")) (mkItemHeader "session" None) []].
Definition ex_lim : Limits := mkLimits 1000 3 100.
Definition ex_body : list byte := ex_hline ++ [x0a] ++ concat (map render ex_wires).

Lemma Parse_is_stream_parser_witness :
  Parse ex_body ex_lim = spec_parse 1000 ex_body ex_lim /\ Parse ex_body ex_lim <> inl EnvelopeTooLong.
Proof.
  apply (Parse_is_stream_parser ex_body ex_lim 1000); [vm_compute; discriminate|].
  apply Nat.ltb_lt. vm_compute. reflexivity.
Defined.

Lemma envelope_roundtrip_witness :
  Parse ex_body ex_lim = inr (mkEnvelope (mkHeader "ab" "" "") (omap item_of ex_wires))
  /\ length (omap item_of ex_wires) = 2%nat.
Proof.
  split; [|vm_compute; reflexivity].
  apply (envelope_roundtrip ex_lim ex_hline (mkHeader "ab" "" "") ex_wires);
    [vm_compute; reflexivity|vm_compute; reflexivity| |vm_compute; discriminate|vm_compute; discriminate].
  repeat constructor; vm_compute; congruence.
Defined.

Lemma Parse_bounds_witness :
  zlen (e_Items (mkEnvelope (mkHeader "ab" "" "") (omap item_of ex_wires))) <= MaxItems (defaults ex_lim)
  /\ Forall (item_bounded (defaults ex_lim)) (e_Items (mkEnvelope (mkHeader "ab" "" "") (omap item_of ex_wires))).
Proof. apply (Parse_bounds ex_body). vm_compute. reflexivity. Defined.

End EnvelopeProps.
