(* ===== verification/IngestEvent.v ===== *)
(** * Extraction of events (internal/ingest/event.go)

    The JSON payload of an event is decoded into the fields the store keeps
    as columns. [time.Parse] of RFC 3339 text, [strconv.ParseFloat], the
    conversion of a float out of the range of int64 and the lower-case table
    beyond ASCII are parameters. *)
From S2P Require Import Prelude GoStrings GoUtf8 GoFloat GoJson Grouping.
Import Json Grouping.
#[local] Open Scope Z_scope.
#[local] Open Scope leser_scope.

Module IngestEvent.

(** ** The wire structs *)
Record logentry := mkLogentry { l_Formatted : string; l_Message : string }.
Record user := mkUser { u_ID : string; u_Email : string }.
Record sentryEvent := mkSentryEvent {
  se_EventID : string; se_Timestamp : option json; se_Platform : string; se_Level : string;
  se_Release : string; se_Environment : string; se_Message : string; se_Fingerprint : list string;
  se_Logentry : logentry; se_User : user; se_Exception : option json }.

Definition zero_event : sentryEvent :=
  mkSentryEvent "" None "" "" "" "" "" [] (mkLogentry "" "") (mkUser "" "") None.

Definition dec_logentry : decoder logentry := dec_struct
  [field "formatted" l_Formatted (fun v l => mkLogentry v (l_Message l)) dec_string;
   field "message" l_Message (fun v l => mkLogentry (l_Formatted l) v) dec_string].
Definition dec_user : decoder user := dec_struct
  [field "id" u_ID (fun v u => mkUser v (u_Email u)) dec_string;
   field "email" u_Email (fun v u => mkUser (u_ID u) v) dec_string].

Definition dec_event : decoder sentryEvent :=
  let mk := mkSentryEvent in dec_struct
  [field "event_id" se_EventID (fun v e => mk v (se_Timestamp e) (se_Platform e) (se_Level e) (se_Release e)
     (se_Environment e) (se_Message e) (se_Fingerprint e) (se_Logentry e) (se_User e) (se_Exception e)) dec_string;
   field "timestamp" se_Timestamp (fun v e => mk (se_EventID e) v (se_Platform e) (se_Level e) (se_Release e)
     (se_Environment e) (se_Message e) (se_Fingerprint e) (se_Logentry e) (se_User e) (se_Exception e)) dec_raw;
   field "platform" se_Platform (fun v e => mk (se_EventID e) (se_Timestamp e) v (se_Level e) (se_Release e)
     (se_Environment e) (se_Message e) (se_Fingerprint e) (se_Logentry e) (se_User e) (se_Exception e)) dec_string;
   field "level" se_Level (fun v e => mk (se_EventID e) (se_Timestamp e) (se_Platform e) v (se_Release e)
     (se_Environment e) (se_Message e) (se_Fingerprint e) (se_Logentry e) (se_User e) (se_Exception e)) dec_string;
   field "release" se_Release (fun v e => mk (se_EventID e) (se_Timestamp e) (se_Platform e) (se_Level e) v
     (se_Environment e) (se_Message e) (se_Fingerprint e) (se_Logentry e) (se_User e) (se_Exception e)) dec_string;
   field "environment" se_Environment (fun v e => mk (se_EventID e) (se_Timestamp e) (se_Platform e) (se_Level e)
     (se_Release e) v (se_Message e) (se_Fingerprint e) (se_Logentry e) (se_User e) (se_Exception e)) dec_string;
   field "message" se_Message (fun v e => mk (se_EventID e) (se_Timestamp e) (se_Platform e) (se_Level e)
     (se_Release e) (se_Environment e) v (se_Fingerprint e) (se_Logentry e) (se_User e) (se_Exception e)) dec_string;
   field "fingerprint" se_Fingerprint (fun v e => mk (se_EventID e) (se_Timestamp e) (se_Platform e) (se_Level e)
     (se_Release e) (se_Environment e) (se_Message e) v (se_Logentry e) (se_User e) (se_Exception e)) (dec_list dec_string "");
   field "logentry" se_Logentry (fun v e => mk (se_EventID e) (se_Timestamp e) (se_Platform e) (se_Level e)
     (se_Release e) (se_Environment e) (se_Message e) (se_Fingerprint e) v (se_User e) (se_Exception e)) dec_logentry;
   field "user" se_User (fun v e => mk (se_EventID e) (se_Timestamp e) (se_Platform e) (se_Level e)
     (se_Release e) (se_Environment e) (se_Message e) (se_Fingerprint e) (se_Logentry e) v (se_Exception e)) dec_user;
   field "exception" se_Exception (fun v e => mk (se_EventID e) (se_Timestamp e) (se_Platform e) (se_Level e)
     (se_Release e) (se_Environment e) (se_Message e) (se_Fingerprint e) (se_Logentry e) (se_User e) v) dec_raw].

(** sentryFrame is copied field by field into grouping.Frame, and
    sentryExcValue into grouping.Exception: the records of Grouping.v. *)
Definition dec_frame : decoder Frame := dec_struct
  [field "function" Function_ (fun v f => mkFrame v (Module_ f) (Filename f) (AbsPath f) (InApp f)) dec_string;
   field "module" Module_ (fun v f => mkFrame (Function_ f) v (Filename f) (AbsPath f) (InApp f)) dec_string;
   field "filename" Filename (fun v f => mkFrame (Function_ f) (Module_ f) v (AbsPath f) (InApp f)) dec_string;
   field "abs_path" AbsPath (fun v f => mkFrame (Function_ f) (Module_ f) (Filename f) v (InApp f)) dec_string;
   field "in_app" InApp (fun v f => mkFrame (Function_ f) (Module_ f) (Filename f) (AbsPath f) v) dec_bool_ptr].
Definition zero_frame : Frame := mkFrame "" "" "" "" None.

Definition dec_stacktrace : decoder (list Frame) := dec_struct
  [field "frames" (fun l => l) (fun v _ => v) (dec_list dec_frame zero_frame)].
Definition dec_exc : decoder Exception := dec_struct
  [field "type" Type_ (fun v e => mkException v (Value e) (Frames e)) dec_string;
   field "value" Value (fun v e => mkException (Type_ e) v (Frames e)) dec_string;
   field "stacktrace" Frames (fun v e => mkException (Type_ e) (Value e) v) dec_stacktrace].
Definition zero_exc : Exception := mkException "" "" [].

Definition dec_exception : decoder (list Exception) := dec_struct
  [field "values" (fun l => l) (fun v _ => v) (dec_list dec_exc zero_exc)].

(** parseExceptions accepts the object form and the bare list. *)
Definition parseExceptions (raw : option json) : list Exception :=
  match raw with
  | None => []
  | Some j =>
      match dec_exception j [] with
      | ((_ :: _) as vs, true) => vs
      | _ => match dec_list dec_exc zero_exc j [] with (l, true) => l | _ => [] end
      end
  end.

Record ExtractedEvent := mkExtracted {
  x_EventID : string; x_Timestamp : Z; x_Level : string; x_Fingerprint : string; x_Basis : Basis;
  x_Release : string; x_Environment : string; x_UserID : string; x_Message : string }.

Fixpoint firstNonEmpty (ss : list string) : string :=
  match ss with
  | [] => ""%string
  | s :: ss => if negb (bool_decide (s = ""%string)) then s else firstNonEmpty ss
  end.

Definition joinNonEmpty (a b : string) : string :=
  if bool_decide (a = ""%string) then b
  else if bool_decide (b = ""%string) then a else (a +:+ ": " +:+ b)%string.

Section Extract.
Context (time_Parse : string -> option Z) (ParseFloat : string -> option float64)
  (convert_out_of_range : float64 -> Z) (lower_rune : Z -> Z).

(** [int64(f * float64(time.Second))]. *)
Definition seconds_to_nanos (f : float64) : Z :=
  let g := f_mul f (f_of_Z 1000000000) in
  match f_trunc (- 2 ^ 63) (2 ^ 63) g with Some n => n | None => convert_out_of_range g end.

Definition parseSentryTime (raw : option json) (now : Z) : Z :=
  match raw with
  | None => now
  | Some j =>
      match dec_string j "" with
      | (s, true) =>
          match time_Parse s with
          | Some t => t
          | None => match ParseFloat s with Some f => seconds_to_nanos f | None => now end
          end
      | (_, false) =>
          match j with
          | JNum lit =>
              match ParseFloat lit with
              | Some f => if f_lt (f_of_Z 0) f then seconds_to_nanos f else now
              | None => now
              end
          | _ => now
          end
      end
  end.

(** The grouping input made from the event. *)
Definition grouping_input (se : sentryEvent) : Input :=
  mkInput (se_Platform se) (se_Fingerprint se) (parseExceptions (se_Exception se))
    (l_Message (se_Logentry se)) (firstNonEmpty [l_Formatted (se_Logentry se); se_Message se]).

Definition extract (se : sentryEvent) (now : Z) : ExtractedEvent :=
  let exc := last (parseExceptions (se_Exception se)) in
  let excType := match exc with Some e => Type_ e | None => ""%string end in
  let excValue := match exc with Some e => Value e | None => ""%string end in
  let res := Fingerprint lower_rune (grouping_input se) [] in
  {| x_EventID := ToLower lower_rune (replace_char "-" "" (se_EventID se));
     x_Timestamp := parseSentryTime (se_Timestamp se) now;
     x_Level := if bool_decide (se_Level se = ""%string) then "error"%string else se_Level se;
     x_Fingerprint := r_Fingerprint res; x_Basis := r_Basis res;
     x_Release := se_Release se; x_Environment := se_Environment se;
     x_UserID := firstNonEmpty [u_ID (se_User se); u_Email (se_User se)];
     x_Message := firstNonEmpty [joinNonEmpty excType excValue; l_Formatted (se_Logentry se);
                                 l_Message (se_Logentry se); se_Message se] |}.

(** ExtractEvent; [None] is the malformed error. *)
Definition ExtractEvent (payload : list byte) (now : Z) : option ExtractedEvent :=
  match Unmarshal_ok dec_event (string_of_list_byte payload) zero_event with
  | None => None
  | Some se => Some (extract se now)
  end.
End Extract.

(** An event as an SDK sends it. *)
Definition js (kvs : list (string * string)) : string :=
  ("{" +:+ String.concat "," (map (fun '(k, v) => quoted k +:+ ":" +:+ v) kvs) +:+ "}")%string.

Example extract_example :
  let payload := list_byte_of_string (js
    [("event_id", quoted "AB-12"); ("timestamp", "1.5"); ("user", js [("email", quoted "a@b")]);
     ("exception", js [("values", "[" +:+ js [("type", quoted "KeyError"); ("value", quoted "id 7")] +:+ "]")])])%string in
  (fun x => (x_EventID x, x_Timestamp x, x_Level x, x_UserID x, x_Message x, x_Basis x))
    <$> ExtractEvent (fun _ => None) (fun _ => Some (f_div (f_of_Z 3) (f_of_Z 2))) (fun _ => 0) (fun r => r) payload 9
  = Some ("ab12", 1500000000, "error", "a@b", "KeyError: id 7", BasisException)%string.
Proof. vm_compute. reflexivity. Qed.

End IngestEvent.
