(* ===== verification/Lru.v ===== *)
(** * The byte-bounded LRU (internal/cache/lru.go)

    [ll] is the doubly linked list, front first, as the sequence of its
    elements with their identities; [items] maps a key to the identity of its
    element, as the Go map holds the [*list.Element]. The clock is an argument
    of the operations that read it. Counters wrap at their widths. *)
From S2P Require Import Prelude.

Module Lru.

Section Lru.
Context {V : Type}.

Record entry := mkEntry { key : string; val : V; e_bytes : Z; expires : Z }.

Record LRU := mkLRU {
  maxBytes : Z; curBytes : Z; ttl : Z;
  ll : list (nat * entry); items : gmap string nat; fresh : nat;
  hits : Z; misses : Z }.

Definition New (max ttl : Z) : LRU :=
  mkLRU (if max <=? 0 then Z.shiftl 1 20 else max) 0 ttl [] ∅ 0 0 0.

Definition element (c : LRU) (id : nat) : option entry :=
  snd <$> List.find (fun x => (fst x =? id)%nat) (ll c).

(** removeElement unlinks the element and forgets its key. *)
Definition removeElement (id : nat) (c : LRU) : LRU :=
  match element c id with
  | None => c
  | Some en =>
      mkLRU (maxBytes c) (i64 (curBytes c - e_bytes en)) (ttl c)
        (List.filter (fun x => negb (fst x =? id)%nat) (ll c))
        (delete (key en) (items c)) (fresh c) (hits c) (misses c)
  end.

Definition MoveToFront (id : nat) (c : LRU) : LRU :=
  match element c id with
  | None => c
  | Some en =>
      mkLRU (maxBytes c) (curBytes c) (ttl c)
        ((id, en) :: List.filter (fun x => negb (fst x =? id)%nat) (ll c))
        (items c) (fresh c) (hits c) (misses c)
  end.

Definition hit (c : LRU) : LRU :=
  mkLRU (maxBytes c) (curBytes c) (ttl c) (ll c) (items c) (fresh c) (u64 (hits c + 1)) (misses c).
Definition miss (c : LRU) : LRU :=
  mkLRU (maxBytes c) (curBytes c) (ttl c) (ll c) (items c) (fresh c) (hits c) (u64 (misses c + 1)).

(** Get: the value, or [None] for the zero value and [false]. *)
Definition Get (k : string) (now : Z) (c : LRU) : LRU * option V :=
  match items c !! k with
  | None => (miss c, None)
  | Some id =>
      match element c id with
      | None => (miss c, None) (* an element of the map is in the list *)
      | Some en =>
          if (0 <? ttl c) && (expires en <? now) then (miss (removeElement id c), None)
          else (hit (MoveToFront id c), Some (val en))
      end
  end.

(** The loop of Set; every turn removes an element, so their number is fuel
    enough. *)
Fixpoint evict (fuel : nat) (c : LRU) : LRU :=
  match fuel with
  | O => c
  | S fuel =>
      if maxBytes c <? curBytes c then
        match last (ll c) with
        | None => c
        | Some (id, _) => evict fuel (removeElement id c)
        end
      else c
  end.

Definition remove_key (k : string) (c : LRU) : LRU :=
  match items c !! k with Some id => removeElement id c | None => c end.

Definition PushFront (k : string) (v : V) (bytes now : Z) (c : LRU) : LRU :=
  mkLRU (maxBytes c) (i64 (curBytes c + bytes)) (ttl c)
    ((fresh c, mkEntry k v bytes (now + ttl c)) :: ll c)
    (<[k := fresh c]> (items c)) (S (fresh c)) (hits c) (misses c).

Definition Set_ (k : string) (v : V) (bytes now : Z) (c : LRU) : LRU :=
  let bytes := if bytes <=? 0 then 1 else bytes in
  if maxBytes c <? bytes then c
  else
    let c := PushFront k v bytes now (remove_key k c) in
    evict (length (ll c)) c.

Definition Delete (k : string) (c : LRU) : LRU := remove_key k c.

Definition Stats (c : LRU) : Z * Z * Z := (hits c, misses c, curBytes c).

(** ** The abstract cache: entries, most recent first *)
Definition entries (c : LRU) : list entry := map snd (ll c).
Definition total (es : list entry) : Z := foldr (fun e t => e_bytes e + t) 0 es.
Definition without (k : string) (es : list entry) : list entry :=
  List.filter (fun e => negb (bool_decide (key e = k))) es.

(** The longest run of most recent entries that fits. *)
Fixpoint fit (room : Z) (es : list entry) : list entry :=
  match es with
  | [] => []
  | e :: es => if e_bytes e <=? room then e :: fit (room - e_bytes e) es else []
  end.

Definition lookup_key (k : string) (es : list entry) : option entry :=
  List.find (fun e => bool_decide (key e = k)) es.

(** ** Invariant *)
Record wf (c : LRU) : Prop := {
  wf_ids : NoDup (map fst (ll c));
  wf_keys : NoDup (map key (entries c));
  wf_items : forall k id, items c !! k = Some id <-> exists en, (id, en) ∈ ll c /\ key en = k;
  wf_fresh : Forall (fun x => (fst x < fresh c)%nat) (ll c);
  wf_cur : curBytes c = total (entries c);
  wf_pos : Forall (fun e => 1 <= e_bytes e <= maxBytes c) (entries c);
  wf_max : 0 < maxBytes c < 2 ^ 62;
  wf_total : total (entries c) <= 2 * maxBytes c }.

#[local] Arguments total : simpl never.
Lemma total_cons e es : total (e :: es) = e_bytes e + total es.
Proof. reflexivity. Qed.
Lemma total_app es1 es2 : total (es1 ++ es2) = total es1 + total es2.
Proof.
  induction es1 as [|e es1 IH]; [reflexivity|]. simpl app. rewrite !total_cons, IH. lia.
Qed.

Lemma total_nonneg m es : Forall (fun e => 1 <= e_bytes e <= m) es -> 0 <= total es.
Proof. induction 1 as [|e es]; [reflexivity|]. rewrite total_cons. lia. Qed.

Lemma find_In (l : list (nat * entry)) id en :
  NoDup (map fst l) ->
  (List.find (fun x => (fst x =? id)%nat) l = Some (id, en) <-> (id, en) ∈ l).
Proof.
  induction l as [|[i e] l IH]; intros Hn; [split; [discriminate|intros H; inversion H]|].
  cbn in *. inversion Hn as [|? ? Hni Hn']; subst. rewrite elem_of_cons. destruct (Nat.eqb_spec i id) as [->|Hne].
  - split; [intros [= ->]; auto|]. intros [[= ->]|Hin]; [reflexivity|]. exfalso. apply Hni.
    apply list_elem_of_fmap. exists (id, en). auto.
  - rewrite (IH Hn'). split; [auto|]. intros [[= -> ->]|]; [congruence|assumption].
Qed.

Lemma element_In c id en : NoDup (map fst (ll c)) -> (element c id = Some en <-> (id, en) ∈ ll c).
Proof.
  intros Hn. rewrite <- (find_In _ _ _ Hn). unfold element.
  destruct (List.find _ _) as [[i e]|] eqn:E; cbn; [|split; discriminate].
  apply List.find_some in E as [_ E%Nat.eqb_eq]. cbn in E. subst i.
  split; intros [= ->]; reflexivity.
Qed.

(** An element splits the list; removing it joins the halves. *)
Lemma filter_id_split l1 l2 id (en : entry) :
  NoDup (map fst (l1 ++ (id, en) :: l2)) ->
  List.filter (fun x => negb (fst x =? id)%nat) (l1 ++ (id, en) :: l2) = l1 ++ l2.
Proof.
  intros Hn. rewrite map_app in Hn. cbn in Hn. apply NoDup_app in Hn as (_ & Hd & Hn2).
  inversion Hn2 as [|? ? Hni _]; subst.
  assert (Hkeep : forall l : list (nat * entry), id ∉ map fst l -> List.filter (fun x => negb (fst x =? id)%nat) l = l).
  { intros l. induction l as [|[i e] l IH]; [reflexivity|]. cbn. intros Hi.
    destruct (Nat.eqb_spec i id) as [->|]; [exfalso; apply Hi; left|].
    cbn. f_equal. apply IH. intros Hi'. apply Hi. right. exact Hi'. }
  rewrite List.filter_app. cbn. rewrite Nat.eqb_refl. cbn.
  rewrite !Hkeep; auto. intros Hi. apply (Hd _ Hi). left.
Qed.

(** ** removeElement *)
Definition removed (c : LRU) l1 l2 (en : entry) : LRU :=
  mkLRU (maxBytes c) (curBytes c - e_bytes en) (ttl c) (l1 ++ l2)
    (delete (key en) (items c)) (fresh c) (hits c) (misses c).

Lemma removeElement_eq c l1 l2 id en :
  wf c -> ll c = l1 ++ (id, en) :: l2 -> removeElement id c = removed c l1 l2 en.
Proof.
  intros [] Hl. unfold removeElement.
  assert (He : element c id = Some en).
  { apply element_In; [assumption|]. rewrite Hl. apply elem_of_app. right. left. }
  rewrite He, Hl, filter_id_split by (rewrite <- Hl; assumption).
  unfold removed. f_equal. apply i64_small.
  rewrite wf_cur0. unfold entries in *. rewrite Hl, map_app, total_app in *. cbn in *.
  rewrite total_cons in *. apply Forall_app in wf_pos0 as [P1 P2].
  apply Forall_cons_1 in P2 as [P2 P3].
  apply total_nonneg in P1, P3. lia.
Qed.

Lemma wf_removed c l1 l2 id en :
  wf c -> ll c = l1 ++ (id, en) :: l2 -> wf (removed c l1 l2 en).
Proof.
  intros [] Hl. unfold entries in *. rewrite Hl in *.
  assert (Hp : l1 ++ (id, en) :: l2 ≡ₚ (id, en) :: l1 ++ l2)
    by (symmetry; apply Permutation_middle).
  assert (Hids : NoDup (map fst ((id, en) :: l1 ++ l2))) by (rewrite <- Hp; assumption).
  assert (Hkeys : NoDup (map key (map snd ((id, en) :: l1 ++ l2)))) by (rewrite <- Hp; assumption).
  cbn in Hids, Hkeys. inversion Hids as [|? ? _ Hids']; inversion Hkeys as [|? ? Hk Hkeys']; subst.
  constructor; cbn; auto.
  - intros k i. rewrite lookup_delete_Some, wf_items0. setoid_rewrite Hp. split.
    + intros (Hne & e & Hin & <-). exists e. split; [|reflexivity].
      apply elem_of_cons in Hin as [[= -> ->]|]; [congruence|assumption].
    + intros (e & Hin & <-). split.
      * intros Heq. apply Hk. rewrite Heq. apply list_elem_of_fmap. exists e. split; [reflexivity|].
        apply list_elem_of_fmap. exists (i, e). auto.
      * exists e. split; [right; exact Hin|reflexivity].
  - rewrite Hp in wf_fresh0. inversion wf_fresh0; assumption.
  - rewrite wf_cur0. unfold entries. cbn. rewrite !map_app, !total_app. cbn.
    rewrite total_cons. lia.
  - unfold entries. cbn. rewrite !map_app in *. apply Forall_app in wf_pos0 as [P1 P2].
    apply Forall_app. split; [assumption|]. inversion P2; assumption.
  - unfold entries in *. cbn. rewrite !map_app, !total_app in *. cbn in *.
    rewrite total_cons in *. apply Forall_app in wf_pos0 as [_ P2].
    apply Forall_cons_1 in P2 as [P2 _]. lia.
Qed.

Lemma in_split c k id :
  wf c -> items c !! k = Some id ->
  exists l1 l2 en, ll c = l1 ++ (id, en) :: l2 /\ key en = k.
Proof.
  intros [] H. apply wf_items0 in H as (en & Hin & Hk).
  apply list_elem_of_split in Hin as (l1 & l2 & ->). eauto.
Qed.

Lemma without_split l1 l2 (en : entry) :
  NoDup (map key (l1 ++ en :: l2)) -> without (key en) (l1 ++ en :: l2) = l1 ++ l2.
Proof.
  intros Hn. unfold without. rewrite List.filter_app. cbn.
  rewrite bool_decide_true by reflexivity. cbn.
  rewrite map_app in Hn. cbn in Hn. apply NoDup_app in Hn as (_ & Hd & Hn2).
  inversion Hn2 as [|? ? Hni _]; subst.
  assert (Hkeep : forall l : list entry, key en ∉ map key l ->
    List.filter (fun e => negb (bool_decide (key e = key en))) l = l).
  { intros l. induction l as [|e l IH]; [reflexivity|]. cbn. intros Hi.
    rewrite bool_decide_false by (intros E; apply Hi; rewrite <- E; left).
    cbn. f_equal. apply IH. intros Hi'. apply Hi. right. exact Hi'. }
  rewrite !Hkeep; auto. intros Hi. apply (Hd _ Hi). left.
Qed.

Lemma without_absent k es : k ∉ map key es -> without k es = es.
Proof.
  unfold without. induction es as [|e es IH]; [reflexivity|]. cbn. intros Hi.
  rewrite bool_decide_false by (intros E; apply Hi; rewrite <- E; left).
  cbn. f_equal. apply IH. intros Hi'. apply Hi. right. exact Hi'.
Qed.

Lemma key_absent c k : wf c -> items c !! k = None -> k ∉ map key (entries c).
Proof.
  intros [] Hn Hin. unfold entries in Hin. rewrite map_map in Hin.
  apply list_elem_of_fmap in Hin as ([id en] & -> & Hin).
  assert (items c !! key en = Some id) by (apply wf_items0; eauto). cbn in *. congruence.
Qed.

Lemma remove_key_ok k c :
  wf c -> wf (remove_key k c) /\ entries (remove_key k c) = without k (entries c)
    /\ maxBytes (remove_key k c) = maxBytes c /\ ttl (remove_key k c) = ttl c
    /\ items (remove_key k c) !! k = None.
Proof.
  intros Hwf. unfold remove_key. destruct (items c !! k) as [id|] eqn:E.
  - destruct (in_split _ _ _ Hwf E) as (l1 & l2 & en & Hl & <-).
    rewrite (removeElement_eq _ _ _ _ _ Hwf Hl). split; [eapply wf_removed; eauto|].
    split_and!; try reflexivity; [|apply lookup_delete_eq].
    pose proof (wf_keys _ Hwf) as Hk. unfold entries, removed in *. cbn. rewrite Hl in *.
    rewrite !map_app in *. cbn in *. symmetry. apply without_split.
    rewrite map_app. exact Hk.
  - split_and!; auto. symmetry. apply without_absent, key_absent; assumption.
Qed.

(** ** Eviction keeps the longest run of most recent entries that fits *)
Lemma fit_all room es : Forall (fun e => 0 <= e_bytes e) es -> total es <= room -> fit room es = es.
Proof.
  intros Hp. revert room. induction Hp as [|e es He Hp IH]; intros room Ht; [reflexivity|].
  rewrite total_cons in Ht. cbn [fit].
  assert (0 <= total es) by (clear -Hp; induction Hp; [reflexivity|rewrite total_cons; lia]).
  zcases. f_equal. apply IH. lia.
Qed.

Lemma fit_snoc room es e : room < total (es ++ [e]) -> fit room (es ++ [e]) = fit room es.
Proof.
  revert room. induction es as [|x es IH]; intros room Ht; simpl app in *; rewrite total_cons in Ht.
  - cbn [fit]. change (total []) with 0 in Ht. zcases. reflexivity.
  - cbn [fit]. destruct (Z.leb_spec (e_bytes x) room); [|reflexivity]. f_equal. apply IH. lia.
Qed.

Lemma total_fit room es : 0 <= room -> total (fit room es) <= room.
Proof.
  revert room. induction es as [|e es IH]; intros room Hr; [exact Hr|]. cbn [fit].
  destruct (Z.leb_spec (e_bytes e) room); [|exact Hr]. rewrite total_cons.
  specialize (IH (room - e_bytes e)). lia.
Qed.

Lemma length_entries c : length (entries c) = length (ll c).
Proof. apply length_map. Qed.

Lemma evict_ok fuel c :
  wf c -> (length (ll c) <= fuel)%nat ->
  wf (evict fuel c) /\ entries (evict fuel c) = fit (maxBytes c) (entries c)
  /\ maxBytes (evict fuel c) = maxBytes c /\ ttl (evict fuel c) = ttl c.
Proof.
  revert c. induction fuel as [|fuel IH]; intros c Hwf Hf.
  - cbn [evict]. split_and!; auto. unfold entries.
    destruct (ll c); [reflexivity|cbn in Hf; lia].
  - cbn [evict]. destruct (Z.ltb_spec (maxBytes c) (curBytes c)) as [Hlt|Hge].
    + destruct (ll c) as [|x l _] eqn:El using rev_ind.
      { pose proof (wf_cur _ Hwf) as Hc. pose proof (wf_max _ Hwf).
        unfold entries in Hc. rewrite El in Hc. change (total _) with 0 in Hc. lia. }
      destruct x as [id en]. rewrite last_snoc. rewrite (removeElement_eq c l [] id en Hwf El).
      destruct (IH (removed c l [] en)) as (H1 & H2 & H3 & H4);
        [eapply wf_removed; eauto|unfold removed; cbn; rewrite length_app in *; cbn in *; lia|].
      split_and!; auto. rewrite H2. unfold entries, removed. cbn [ll maxBytes].
      rewrite app_nil_r, El, map_app. symmetry. apply fit_snoc.
      rewrite (wf_cur _ Hwf) in Hlt. unfold entries in Hlt. rewrite El, map_app in Hlt. exact Hlt.
    + split_and!; auto. symmetry. apply fit_all; [|rewrite <- (wf_cur _ Hwf); exact Hge].
      eapply Forall_impl; [apply (wf_pos _ Hwf)|]. simpl. lia.
Qed.

(** ** The operations against the abstract cache *)

(** The invariant between operations. *)
Definition good (c : LRU) : Prop := wf c /\ total (entries c) <= maxBytes c.

Lemma wf_PushFront k v b now c :
  good c -> items c !! k = None -> 1 <= b <= maxBytes c ->
  wf (PushFront k v b now c).
Proof.
  intros [Hwf Ht] Hk Hb. pose proof (key_absent _ _ Hwf Hk) as Hni. destruct Hwf.
  constructor; cbn; auto.
  - constructor; [|assumption]. intros Hin. apply list_elem_of_fmap in Hin as (x & Hx & Hin).
    rewrite Forall_forall in wf_fresh0. specialize (wf_fresh0 _ Hin). lia.
  - constructor; assumption.
  - intros k' id. rewrite lookup_insert_Some, wf_items0. setoid_rewrite elem_of_cons. split.
    + intros [[-> <-]|(Hne & e & Hin & He)]; eauto.
    + intros (e & [[= -> ->]|Hin] & <-); [auto|]. right. split; [|eauto].
      intros ->. assert (items c !! key e = Some id) by (apply wf_items0; eauto). congruence.
  - constructor; [cbn; lia|]. eapply Forall_impl; [exact wf_fresh0|]. simpl. lia.
  - unfold entries. cbn. rewrite total_cons, wf_cur0. cbn. fold (entries c).
    rewrite i64_small; [lia|]. apply total_nonneg in wf_pos0. lia.
  - unfold entries. cbn. rewrite total_cons. cbn. fold (entries c). lia.
Qed.

Lemma without_total k m es :
  Forall (fun e => 1 <= e_bytes e <= m) es -> total (without k es) <= total es.
Proof.
  induction 1 as [|e es He Hes IH]; [reflexivity|]. unfold without. cbn.
  destruct (negb _); fold (without k es); rewrite ?total_cons; lia.
Qed.

Lemma remove_key_good k c : good c -> good (remove_key k c).
Proof.
  intros [Hwf Ht]. destruct (remove_key_ok k c Hwf) as (H1 & H2 & H3 & _).
  split; [exact H1|]. rewrite H2, H3.
  pose proof (without_total k _ _ (wf_pos _ Hwf)). lia.
Qed.

Lemma Set_ok k v b now c :
  good c ->
  good (Set_ k v b now c) /\ maxBytes (Set_ k v b now c) = maxBytes c
  /\ ttl (Set_ k v b now c) = ttl c
  /\ entries (Set_ k v b now c)
     = (if maxBytes c <? Z.max 1 b then entries c
        else fit (maxBytes c)
               (mkEntry k v (Z.max 1 b) (now + ttl c) :: without k (entries c))).
Proof.
  intros Hg. unfold Set_. replace (if b <=? 0 then 1 else b) with (Z.max 1 b) by zcases.
  destruct (Z.ltb_spec (maxBytes c) (Z.max 1 b)) as [|Hb]; [auto|].
  destruct (remove_key_ok k c (proj1 Hg)) as (_ & H2 & H3 & H4 & H5).
  set (c' := PushFront k v (Z.max 1 b) now (remove_key k c)).
  assert (Hwf : wf c') by (apply wf_PushFront; [apply remove_key_good, Hg|exact H5|lia]).
  destruct (evict_ok (length (ll c')) c' Hwf ltac:(lia)) as (E1 & E2 & E3 & E4).
  assert (Hm : maxBytes c' = maxBytes c) by exact H3.
  split; [split; [exact E1|]|split_and!].
  - rewrite E2, E3. apply total_fit. pose proof (wf_max _ Hwf). lia.
  - rewrite E3. exact H3.
  - rewrite E4. exact H4.
  - rewrite E2, Hm. unfold c', PushFront, entries at 1. cbn. fold (entries (remove_key k c)).
    rewrite H2, H4. reflexivity.
Qed.

Lemma wf_front c l1 l2 id en :
  wf c -> ll c = l1 ++ (id, en) :: l2 ->
  wf (mkLRU (maxBytes c) (curBytes c) (ttl c) ((id, en) :: l1 ++ l2) (items c) (fresh c)
        (hits c) (misses c)).
Proof.
  intros Hwf Hl.
  assert (Hp : ll c ≡ₚ (id, en) :: l1 ++ l2) by (rewrite Hl; symmetry; apply Permutation_middle).
  assert (Htot : forall l l' : list entry, l ≡ₚ l' -> total l = total l').
  { induction 1; rewrite ?total_cons; try reflexivity; lia. }
  destruct Hwf. constructor; unfold entries in *; cbn [ll items fresh maxBytes curBytes] in *; auto.
  - rewrite <- Hp. assumption.
  - rewrite <- Hp. assumption.
  - intros k i. rewrite wf_items0. setoid_rewrite Hp. reflexivity.
  - rewrite <- Hp. assumption.
  - rewrite wf_cur0. apply Htot. rewrite Hp. reflexivity.
  - rewrite <- Hp. assumption.
  - rewrite <- (Htot _ _ (Permutation_map snd Hp)). assumption.
Qed.

Lemma lookup_key_split l1 l2 (en : entry) :
  NoDup (map key (l1 ++ en :: l2)) -> lookup_key (key en) (l1 ++ en :: l2) = Some en.
Proof.
  induction l1 as [|x l1 IH]; intros Hn; cbn.
  - rewrite bool_decide_true by reflexivity. reflexivity.
  - cbn in Hn. inversion Hn as [|? ? Hni Hn']; subst.
    rewrite bool_decide_false; [apply IH, Hn'|]. intros E. apply Hni. rewrite E, map_app.
    apply elem_of_app. right. left.
Qed.

Lemma lookup_key_absent k es : k ∉ map key es -> lookup_key k es = None.
Proof.
  induction es as [|e es IH]; intros Hn; [reflexivity|]. cbn in *.
  rewrite bool_decide_false by (intros E; apply Hn; rewrite <- E; left).
  apply IH. intros H. apply Hn. right. exact H.
Qed.

(** The abstract Get. *)
Definition spec_get (ttl now : Z) (k : string) (es : list entry) : list entry * option V :=
  match lookup_key k es with
  | None => (es, None)
  | Some en =>
      if (0 <? ttl) && (expires en <? now) then (without k es, None)
      else (en :: without k es, Some (val en))
  end.

Lemma Get_ok k now c :
  good c ->
  let '(c', r) := Get k now c in
  good c' /\ maxBytes c' = maxBytes c /\ ttl c' = ttl c
  /\ spec_get (ttl c) now k (entries c) = (entries c', r).
Proof.
  intros Hg. pose proof Hg as [Hwf Ht]. unfold Get, spec_get.
  destruct (items c !! k) as [id|] eqn:E.
  2:{ rewrite lookup_key_absent by (apply key_absent; assumption).
      split_and!; try reflexivity. split; [|exact Ht]. destruct Hwf. constructor; assumption. }
  destruct (in_split _ _ _ Hwf E) as (l1 & l2 & en & Hl & <-).
  assert (He : element c id = Some en).
  { apply element_In; [apply (wf_ids _ Hwf)|]. rewrite Hl. apply elem_of_app. right. left. }
  assert (Hes : entries c = map snd l1 ++ en :: map snd l2)
    by (unfold entries; rewrite Hl, map_app; reflexivity).
  pose proof (wf_keys _ Hwf) as Hk. rewrite Hes in Hk.
  rewrite He, Hes, (lookup_key_split _ _ _ Hk), (without_split _ _ _ Hk).
  destruct (_ && _).
  - assert (Hg' : good (remove_key (key en) c)) by (apply remove_key_good, Hg).
    unfold remove_key in Hg'. rewrite E in Hg'.
    rewrite (removeElement_eq _ _ _ _ _ Hwf Hl) in *.
    split_and!; try reflexivity.
    + destruct Hg' as [[] ?]. split; [constructor|]; assumption.
    + unfold entries, removed, miss. cbn. rewrite map_app. reflexivity.
  - unfold MoveToFront. rewrite He, Hl, filter_id_split by (rewrite <- Hl; apply (wf_ids _ Hwf)).
    pose proof (wf_front _ _ _ _ _ Hwf Hl) as Hf. split_and!; try reflexivity.
    + split; [destruct Hf; constructor; assumption|]. unfold entries, hit in *. cbn [ll maxBytes] in *.
      rewrite Hl in Ht. rewrite !map_app in *. cbn [map] in *. rewrite !map_app.
      rewrite !total_app, !total_cons, ?total_app in *. cbn in *. lia.
    + unfold entries, hit. cbn. rewrite map_app. reflexivity.
Qed.

Lemma New_good max t : max < 2 ^ 62 -> good (New max t).
Proof.
  intros H. unfold New. destruct (Z.leb_spec max 0);
    (split; [constructor|]); unfold entries; cbn [ll items fresh maxBytes curBytes map];
    change (total []) with 0; try constructor; try reflexivity; try lia.
  all: try (rewrite lookup_empty in *; intros [=]).
  all: try (intros (? & Hin & _); inversion Hin; fail).
  all: vm_compute; discriminate.
Qed.

(** ** Sequences of operations *)
Inductive op := OGet (k : string) (now : Z) | OSet (k : string) (v : V) (b now : Z)
  | ODelete (k : string).

Definition step (o : op) (c : LRU) : LRU * option V :=
  match o with
  | OGet k now => Get k now c
  | OSet k v b now => (Set_ k v b now c, None)
  | ODelete k => (Delete k c, None)
  end.

Definition spec_step (max ttl : Z) (o : op) (es : list entry) : list entry * option V :=
  match o with
  | OGet k now => spec_get ttl now k es
  | OSet k v b now =>
      (if max <? Z.max 1 b then es
       else fit max (mkEntry k v (Z.max 1 b) (now + ttl) :: without k es), None)
  | ODelete k => (without k es, None)
  end.

Fixpoint run {S} (f : op -> S -> S * option V) (ops : list op) (s : S) : S * list (option V) :=
  match ops with
  | [] => (s, [])
  | o :: ops => let '(s, r) := f o s in let '(s, rs) := run f ops s in (s, r :: rs)
  end.

Lemma step_ok o c :
  good c ->
  let '(c', r) := step o c in
  good c' /\ maxBytes c' = maxBytes c /\ ttl c' = ttl c
  /\ spec_step (maxBytes c) (ttl c) o (entries c) = (entries c', r).
Proof.
  intros Hg. destruct o as [k now|k v b now|k]; cbn [step spec_step].
  - apply Get_ok, Hg.
  - destruct (Set_ok k v b now c Hg) as (H1 & H2 & H3 & H4). rewrite H4. auto.
  - destruct (remove_key_ok k c (proj1 Hg)) as (_ & H2 & H3 & H4 & _).
    unfold Delete. rewrite H2. auto using remove_key_good.
Qed.

Lemma run_ok ops c :
  good c ->
  let '(c', rs) := run step ops c in
  good c' /\ run (spec_step (maxBytes c) (ttl c)) ops (entries c) = (entries c', rs).
Proof.
  revert c. induction ops as [|o ops IH]; intros c Hg; [cbn; auto|]. cbn [run].
  pose proof (step_ok o c Hg) as Hs. destruct (step o c) as [c1 r].
  destruct Hs as (Hg1 & Hm & Ht & ->). specialize (IH c1 Hg1). rewrite Hm, Ht in IH.
  destruct (run step ops c1) as [c2 rs]. destruct IH as [Hg2 ->]. auto.
Qed.

(** C38: the cache refines a list of entries, most recent first: any sequence
    of Get, Set and Delete gives the answers and the entries of the abstract
    cache (a fresh Get moves its entry to the front, an expired one is
    dropped, a Set replaces the key and keeps the longest run of most recent
    entries that fits), and the accounted bytes are those of the entries and
    within the limit. *)
Theorem lru_refines max t ops :
  max < 2 ^ 62 ->
  let c0 := New max t in
  let '(c, rs) := run step ops c0 in
  run (spec_step (maxBytes c0) t) ops [] = (entries c, rs)
  /\ curBytes c = total (entries c) /\ curBytes c <= maxBytes c.
Proof.
  intros H c0. pose proof (run_ok ops c0 (New_good _ _ H)) as Hr.
  destruct (run step ops c0) as [c rs]. destruct Hr as ([Hwf Ht] & Hr).
  split; [exact Hr|]. rewrite (wf_cur _ Hwf). auto.
Qed.

(** a value that fits the cache is found by the next Get of its key up
    to its expiry, whatever was evicted for it. *)
Theorem get_after_set max t ops k v b now now' :
  max < 2 ^ 62 ->
  let c := fst (run step ops (New max t)) in
  b <= maxBytes c -> (t <= 0 \/ now' <= now + t) ->
  snd (Get k now' (Set_ k v b now c)) = Some v.
Proof.
  intros H c Hb Hexp. pose proof (run_ok ops (New max t) (New_good _ _ H)) as Hr.
  assert (Htt : ttl c = t).
  { unfold c. clear -H. assert (Hx : forall ops d, good d -> ttl (fst (run step ops d)) = ttl d).
    { clear. induction ops as [|o ops IH]; intros d Hg; [reflexivity|]. cbn [run].
      pose proof (step_ok o d Hg) as Hs. destruct (step o d) as [d1 r].
      destruct Hs as (Hg1 & _ & Ht & _). specialize (IH d1 Hg1).
      destruct (run step ops d1). cbn in *. congruence. }
    rewrite Hx by (apply New_good, H). reflexivity. }
  unfold c in *. destruct (run step ops (New max t)) as [c1 rs]. cbn [fst] in *.
  destruct Hr as [Hg _]. pose proof (wf_max _ (proj1 Hg)).
  destruct (Set_ok k v b now c1 Hg) as (Hg' & _ & Ht' & He).
  pose proof (Get_ok k now' _ Hg') as Hget. destruct (Get k now' _) as [c2 r].
  destruct Hget as (_ & _ & _ & Hspec). rewrite Ht', He in Hspec.
  rewrite (proj2 (Z.ltb_ge _ _)) in Hspec by lia. cbn [fit e_bytes] in Hspec.
  rewrite (proj2 (Z.leb_le _ _)) in Hspec by lia. unfold spec_get in Hspec.
  cbn in Hspec. rewrite bool_decide_true in Hspec by reflexivity. cbn in Hspec.
  destruct ((0 <? ttl c1) && (now + ttl c1 <? now')) eqn:E; [|injection Hspec as _ <-; reflexivity].
  apply andb_true_iff in E as [E1%Z.ltb_lt E2%Z.ltb_lt]. lia.
Qed.

End Lru.
#[global] Arguments entry : clear implicits.
#[global] Arguments LRU : clear implicits.

Definition ex_ops : list (@op Z) :=
  [OSet "a" 1 60 0; OSet "b" 2 60 1; OGet "a" 2; OGet "b" 3].

Lemma lru_refines_witness :
  let c0 := New 100 0 in
  let '(c, rs) := run step ex_ops c0 in
  run (spec_step (maxBytes c0) 0) ex_ops [] = (entries c, rs)
  /\ curBytes c = total (entries c) /\ curBytes c <= maxBytes c.
Proof. apply (lru_refines 100 0 ex_ops). lia. Defined.

Lemma get_after_set_witness :
  snd (Get "c" 9 (Set_ "c" 3 100 5 (fst (run step ex_ops (New 100 7))))) = Some 3.
Proof. apply (get_after_set 100 7 ex_ops "c" 3 100 5 9); [lia|vm_compute; discriminate|lia]. Defined.

End Lru.
