(* ===== verification/Ring.v ===== *)
(** * Consistent-hash ownership (internal/cluster/ring.go, membership.go)

    [sort.Slice] is used through the interface [SliceSort], which makes no
    promise on the order of equal hashes. The gossip library is outside the model: a
    refresh receives, per live member, what [json.Unmarshal] made of its
    metadata. *)
From S2P Require Import Prelude GoSort Hash Monad.
From stdpp Require Import pretty.
#[local] Open Scope Z_scope.

Module Ring.

(** ** Data *)
Record ringEntry := mkRingEntry { hash : Z; node : string }.

Record Ring := mkRing { entries : list ringEntry; nodes : gset string }.

Definition vnodesPerNode : nat := 100.

Definition NewRing : Ring := mkRing [] ∅.

(** The murmur3 finalizer over FNV-1a. *)
Definition fmix32 (x : Z) : Z :=
  let x := Z.lxor x (Z.shiftr x 16) in
  let x := u32 (x * 0x85ebca6b) in
  let x := Z.lxor x (Z.shiftr x 13) in
  let x := u32 (x * 0xc2b2ae35) in
  Z.lxor x (Z.shiftr x 16).

Definition hashKey (s : string) : Z := fmix32 (Fnv.fnv32a (list_byte_of_string s)).

Definition vnode (id : string) (v : nat) : ringEntry :=
  mkRingEntry (hashKey (id +:+ "#" +:+ pretty (N.of_nat v))) id.

Definition node_entries (id : string) : list ringEntry :=
  map (vnode id) (seq 0 vnodesPerNode).

(** sort.Slice with [entries[i].hash < entries[j].hash]. *)
Definition hash_le : relation ringEntry := key_le hash.

(** sort.Strings of the keys of a Go map, whose iteration order is
    arbitrary. *)
Definition sorted_ids (uniq : gset string) : list string :=
  merge_sort String.le (elements uniq).

Section Ring.
Context `{!SliceSort hash_le}.

Definition SetNodes (nodeIDs : list string) (r : Ring) : Ring :=
  let uniq := list_to_set nodeIDs in
  mkRing (sort_slice hash_le (concat (map node_entries (sorted_ids uniq)))) uniq.

Definition OwnerFor (r : Ring) (key : string) : option string :=
  match entries r with
  | [] => None
  | _ =>
      let h := hashKey key in
      let i := Search (length (entries r))
        (fun i => match entries r !! i with Some e => h <=? hash e | None => true end) in
      let i := if (i =? length (entries r))%nat then 0%nat else i in
      node <$> entries r !! i
  end.

Definition Nodes (r : Ring) : list string := sorted_ids (nodes r).

(** ** Lemmas *)
Definition vnodes (ids : gset string) : list ringEntry :=
  concat (map node_entries (sorted_ids ids)).

Lemma elem_of_sorted_ids id ids : id ∈ sorted_ids ids <-> id ∈ ids.
Proof. unfold sorted_ids. rewrite merge_sort_Permutation. apply elem_of_elements. Qed.

Lemma vnodes_In e ids : e ∈ vnodes ids <-> exists id v, id ∈ ids /\ (v < vnodesPerNode)%nat /\ e = vnode id v.
Proof.
  unfold vnodes. rewrite list_elem_of_In, in_concat. split.
  - intros (l & Hl & He). apply in_map_iff in Hl as (id & <- & Hid).
    apply list_elem_of_In, elem_of_sorted_ids in Hid.
    apply in_map_iff in He as (v & <- & Hv). apply in_seq in Hv. exists id, v. split_and!; auto; lia.
  - intros (id & v & Hid & Hv & ->). exists (node_entries id). split.
    + apply in_map, list_elem_of_In, elem_of_sorted_ids, Hid.
    + apply in_map, in_seq. lia.
Qed.

Lemma SetNodes_In e ids r : e ∈ entries (SetNodes ids r) <-> e ∈ vnodes (list_to_set ids).
Proof. unfold SetNodes. cbn. rewrite sort_slice_perm. reflexivity. Qed.

Lemma SetNodes_sorted ids r :
  StronglySorted (fun x y => hash x <= hash y) (entries (SetNodes ids r)).
Proof. apply (sort_slice_sorted (le := hash_le)). Qed.

(** [owner_entry h es e]: [e] is a first entry at or after [h] on the ring,
    or a first one at all when none is. *)
Definition owner_entry (h : Z) (es : list ringEntry) (e : ringEntry) : Prop :=
  e ∈ es /\
  ((h <= hash e /\ forall x, x ∈ es -> h <= hash x -> hash e <= hash x)
   \/ ((forall x, x ∈ es -> hash x < h) /\ forall x, x ∈ es -> hash e <= hash x)).

Lemma sorted_lookup_le (es : list ringEntry) i j x y :
  StronglySorted (fun x y => hash x <= hash y) es ->
  es !! i = Some x -> es !! j = Some y -> (i <= j)%nat -> hash x <= hash y.
Proof.
  intros Hs Hi Hj Hij. destruct (Nat.eq_dec i j) as [->|].
  - replace y with x by congruence. lia.
  - apply (StronglySorted_lookup _ _ _ _ _ _ Hs Hi Hj). lia.
Qed.

(** The binary search finds such an entry. *)
Lemma OwnerFor_entry r key :
  StronglySorted (fun x y => hash x <= hash y) (entries r) -> entries r <> [] ->
  exists e, OwnerFor r key = Some (node e) /\ owner_entry (hashKey key) (entries r) e.
Proof.
  intros Hs Hne. unfold OwnerFor. set (es := entries r) in *. set (h := hashKey key).
  destruct es as [|e0 es0] eqn:E; [congruence|]. rewrite <- E in *. clear Hne.
  set (f := fun i => match es !! i with Some e => h <=? hash e | None => true end).
  assert (Hmono : forall i j, (i <= j)%nat -> f i = true -> f j = true).
  { intros i j Hij Hi. unfold f in *. destruct (es !! j) as [y|] eqn:Ej; [|reflexivity].
    destruct (lookup_lt_is_Some_2 es i) as [x Hx];
      [apply lookup_lt_Some in Ej; lia|]. rewrite Hx in Hi. apply Z.leb_le in Hi.
    apply Z.leb_le. pose proof (sorted_lookup_le _ _ _ _ _ Hs Hx Ej Hij). lia. }
  destruct (Search_spec f Hmono (length es)) as (Hle & Hlow & Hat).
  set (i := Search (length es) f) in *.
  destruct (Nat.eqb_spec i (length es)) as [Heq|Hneq].
  - exists e0. rewrite E. split; [reflexivity|]. rewrite <- E. split; [rewrite E; left|]. right.
    split.
    + intros x Hx. apply list_elem_of_lookup in Hx as [k Hk].
      pose proof (lookup_lt_Some _ _ _ Hk). specialize (Hlow k ltac:(lia)). unfold f in Hlow.
      rewrite Hk in Hlow. apply Z.leb_gt in Hlow. exact Hlow.
    + intros x Hx. apply list_elem_of_lookup in Hx as [k Hk].
      eapply (sorted_lookup_le es 0 k); eauto; [rewrite E; reflexivity|lia].
  - destruct (lookup_lt_is_Some_2 es i) as [e He]; [lia|]. exists e. rewrite He.
    split; [reflexivity|]. specialize (Hat ltac:(lia)). unfold f in Hat. rewrite He in Hat.
    apply Z.leb_le in Hat. split; [apply list_elem_of_lookup; eauto|]. left. split; [exact Hat|].
    intros x Hx Hhx. apply list_elem_of_lookup in Hx as [k Hk].
    destruct (Nat.lt_ge_cases k i) as [Hlt|Hge].
    + specialize (Hlow k Hlt). unfold f in Hlow. rewrite Hk in Hlow. apply Z.leb_gt in Hlow. lia.
    + apply (sorted_lookup_le es i k); auto.
Qed.

(** No two nodes share a point of the ring. *)
Definition no_collision (ids : gset string) : Prop :=
  forall x y, x ∈ vnodes ids -> y ∈ vnodes ids -> hash x = hash y -> node x = node y.

Lemma owner_entry_hash h es x y : owner_entry h es x -> owner_entry h es y -> hash x = hash y.
Proof.
  intros [Hx [[H1 H2]|[H1 H2]]] [Hy [[H3 H4]|[H3 H4]]].
  - pose proof (H2 y Hy H3). pose proof (H4 x Hx H1). lia.
  - specialize (H3 x Hx). lia.
  - specialize (H1 y Hy). lia.
  - pose proof (H2 y Hy). pose proof (H4 x Hx). lia.
Qed.

(** An owner among more entries is an owner among fewer, if it is one of
    them. *)
Lemma owner_entry_subset h es es' e :
  (forall x, x ∈ es -> x ∈ es') -> e ∈ es -> owner_entry h es' e -> owner_entry h es e.
Proof.
  intros Hsub He [_ [[H1 H2]|[H1 H2]]]; (split; [exact He|]); [left|right]; split; auto.
Qed.

Lemma vnodes_nonempty ids id : id ∈ ids -> vnodes ids <> [].
Proof.
  intros Hid Hn. assert (vnode id 0 ∈ vnodes ids) as Hin.
  { apply vnodes_In. exists id, 0%nat. split_and!; auto. unfold vnodesPerNode. lia. }
  rewrite Hn in Hin. inversion Hin.
Qed.

Lemma SetNodes_entry ids r key id :
  id ∈ ids -> exists e, OwnerFor (SetNodes ids r) key = Some (node e)
    /\ owner_entry (hashKey key) (entries (SetNodes ids r)) e.
Proof.
  intros Hid. apply OwnerFor_entry; [apply SetNodes_sorted|].
  intros Hn. assert (Hin : vnode id 0 ∈ entries (SetNodes ids r)).
  { apply SetNodes_In, vnodes_In. exists id, 0%nat. split_and!; auto;
      [apply elem_of_list_to_set, Hid|unfold vnodesPerNode; lia]. }
  rewrite Hn in Hin. inversion Hin.
Qed.

(** the owner of a key depends on the set of live nodes alone, not on
    their order, on repetitions or on what the ring held before; there is one
    exactly when there is a node, it is one of the nodes, and it is the node
    of the first ring point at or after the key's hash (of the first point
    at all when the hash is behind the last one). *)
Theorem owner_determined_by_members ids ids' r r' key :
  (forall id, id ∈ ids <-> id ∈ ids') ->
  OwnerFor (SetNodes ids r) key = OwnerFor (SetNodes ids' r') key
  /\ (OwnerFor (SetNodes ids r) key = None <-> ids = [])
  /\ forall n, OwnerFor (SetNodes ids r) key = Some n ->
       n ∈ ids /\ exists e, node e = n /\ owner_entry (hashKey key) (vnodes (list_to_set ids)) e.
Proof.
  intros Heq. assert (Hset : list_to_set ids =@{gset string} list_to_set ids').
  { apply set_eq. intros id. rewrite !elem_of_list_to_set. apply Heq. }
  split; [|split].
  - unfold SetNodes. rewrite Hset. reflexivity.
  - split.
    + destruct ids as [|id ids]; [reflexivity|].
      destruct (SetNodes_entry (id :: ids) r key id) as (e & -> & _); [left|discriminate].
    + intros ->. unfold OwnerFor. destruct (entries (SetNodes [] r)) as [|e es] eqn:E; [reflexivity|].
      assert (Hin : e ∈ entries (SetNodes [] r)) by (rewrite E; left).
      apply SetNodes_In, vnodes_In in Hin as (id & _ & Hid & _). rewrite list_to_set_nil in Hid. set_solver.
  - intros n Hn. destruct ids as [|id ids]; [unfold SetNodes, OwnerFor in Hn; cbn in Hn|].
    + pose proof (sort_slice_perm (le := hash_le) []) as Hp. apply Permutation_nil_r in Hp. cbn in Hn.
      unfold sorted_ids in Hn. rewrite elements_empty in Hn. cbn in Hn. rewrite Hp in Hn. discriminate.
    + destruct (SetNodes_entry (id :: ids) r key id) as (e & He & Ho); [left|].
      rewrite Hn in He. injection He as ->.
      assert (Hin : e ∈ vnodes (list_to_set (id :: ids))).
      { destruct Ho as [Hin _]. eapply SetNodes_In, Hin. }
      split.
      * apply vnodes_In in Hin as (id' & v & Hid & _ & ->). apply elem_of_list_to_set in Hid. exact Hid.
      * exists e. split; [reflexivity|]. eapply owner_entry_subset; [|exact Hin|exact Ho].
        intros x Hx. apply SetNodes_In, Hx.
Qed.

(** C40: when a node joins, a key either stays with its owner or moves to the
    new node, and when it leaves, only its own keys move, provided no two
    nodes share a ring point. *)
Theorem join_moves_keys_to_the_new_node ids n r r' key :
  no_collision (list_to_set (n :: ids)) ->
  OwnerFor (SetNodes (n :: ids) r) key = Some n
  \/ OwnerFor (SetNodes (n :: ids) r) key = OwnerFor (SetNodes ids r') key.
Proof.
  intros Hnc.
  destruct (SetNodes_entry (n :: ids) r key n) as (e & -> & Ho); [left|].
  destruct (decide (node e = n)) as [->|Hne]; [auto|]. right.
  assert (He : e ∈ vnodes (list_to_set ids)).
  { destruct Ho as [Hin _]. apply SetNodes_In, vnodes_In in Hin as (id & v & Hid & Hv & ->).
    apply vnodes_In. exists id, v. split_and!; auto. cbn in Hne. set_solver. }
  assert (Hid : node e ∈ ids).
  { apply vnodes_In in He as (id & v & Hid & _ & ->). apply elem_of_list_to_set in Hid. exact Hid. }
  destruct (SetNodes_entry ids r' key (node e) Hid) as (e' & -> & Ho'). f_equal.
  assert (Hsub : forall x, x ∈ vnodes (list_to_set ids) -> x ∈ vnodes (list_to_set (n :: ids))).
  { intros x Hx. apply vnodes_In in Hx as (id & v & Hx & Hv & ->). apply vnodes_In.
    exists id, v. split_and!; auto. set_solver. }
  apply Hnc; [apply Hsub, He| |].
  - apply Hsub. destruct Ho' as [Hin _]. eapply SetNodes_In, Hin.
  - eapply owner_entry_hash; [|exact Ho'].
    eapply (owner_entry_subset _ (entries (SetNodes ids r'))); [| |exact Ho].
    + intros x Hx. apply SetNodes_In in Hx. apply SetNodes_In, Hsub, Hx.
    + apply SetNodes_In, He.
Qed.

End Ring.

Lemma owner_determined_by_members_witness :
  OwnerFor (SetNodes ["a"; "b"]%string NewRing) "project-1"
  = OwnerFor (SetNodes ["b"; "a"; "b"]%string NewRing) "project-1"
  /\ (OwnerFor (SetNodes ["a"; "b"]%string NewRing) "project-1" = None <-> ["a"; "b"]%string = [])
  /\ forall n, OwnerFor (SetNodes ["a"; "b"]%string NewRing) "project-1" = Some n ->
       n ∈ ["a"; "b"]%string
       /\ exists e, node e = n
            /\ owner_entry (hashKey "project-1") (vnodes (list_to_set ["a"; "b"]%string)) e.
Proof.
  apply (owner_determined_by_members ["a"; "b"]%string ["b"; "a"; "b"]%string).
  intros id. rewrite !elem_of_cons. tauto.
Defined.

(** The 200 ring points of two nodes are distinct. *)
Lemma ex_no_collision : no_collision (list_to_set ["a"; "b"]%string).
Proof.
  assert (Hb : bool_decide (NoDup (map hash (vnodes (list_to_set ["a"; "b"]%string)))) = true)
    by (vm_compute; reflexivity).
  apply bool_decide_eq_true in Hb. intros x y Hx Hy Hxy.
  apply list_elem_of_lookup in Hx as [i Hi]. apply list_elem_of_lookup in Hy as [j Hj].
  assert (i = j) as ->.
  { eapply NoDup_lookup; [exact Hb| |];
      change (map hash) with (fmap (M := list) hash); rewrite list_lookup_fmap;
      [rewrite Hi; reflexivity|rewrite Hj; cbn; congruence]. }
  congruence.
Qed.

Lemma join_moves_keys_to_the_new_node_witness :
  OwnerFor (SetNodes ["a"; "b"]%string NewRing) "project-1" = Some "a"%string
  \/ OwnerFor (SetNodes ["a"; "b"]%string NewRing) "project-1"
     = OwnerFor (SetNodes ["b"]%string NewRing) "project-1".
Proof.
  apply (join_moves_keys_to_the_new_node ["b"%string] "a"). exact ex_no_collision.
Defined.

End Ring.
