(* ===== verification/Membership.v ===== *)
(** * Routing requests to the owner (internal/cluster/membership.go)

    The gossip library (hashicorp/memberlist) is a parameter: whether it
    starts, what its Join, Leave and Shutdown answer, and at each refresh the
    metadata of the members it lists. What a node publishes and reads back is
    JSON text. The ring is used through its theorems only, for any
    [SliceSort]. *)
From S2P Require Import Prelude GoSort GoStrings GoUtf8 GoJson GoJsonEnc Hash Monad Ring.
From stdpp Require Import pretty.
#[local] Open Scope Z_scope.
Import Ring.

Module Membership.

Record NodeInfo := mkNodeInfo { NodeID : string; APIAddr : string }.

(** json.Marshal and json.Unmarshal at this type. *)
Definition Marshal (i : NodeInfo) : string :=
  JsonEnc.Marshal_object [("node_id", NodeID i); ("api_addr", APIAddr i)]%string.
Definition dec_node : Json.decoder NodeInfo := Json.dec_struct
  [Json.field "node_id" NodeID (fun v i => mkNodeInfo v (APIAddr i)) Json.dec_string;
   Json.field "api_addr" APIAddr (fun v i => mkNodeInfo (NodeID i) v) Json.dec_string].
Definition read_node (meta : string) : option NodeInfo := Json.Unmarshal_ok dec_node meta (mkNodeInfo "" "").

Record Config := mkConfig {
  Self : NodeInfo; BindAddr : string; BindPort : Z; JoinPeers : list string; RingRefresh : Z }.

(** [quit] is the closed channel m.quit. *)
Record Membership := mkMembership {
  ring : Ring; self : NodeInfo; meta : gmap string NodeInfo; joinErr : option string; quit : bool }.

(** The delegate's metadata, as far as the library takes it. *)
Definition NodeMeta (meta : string) (limit : nat) : string :=
  if (limit <? String.length meta)%nat then take_str limit meta else meta.

(** The members whose metadata is usable, in the order of the list. *)
Definition announced (members : list string) : list NodeInfo :=
  omap (fun m => match read_node m with
        | Some info => if bool_decide (NodeID info = ""%string) then None else Some info
        | None => None
        end) members.

Definition meta_of (infos : list NodeInfo) : gmap string NodeInfo :=
  fold_left (fun m info => <[NodeID info := info]> m) infos ∅.

Section Membership.
Context `{!SliceSort hash_le}.

Definition refreshRing (members : list string) (m : Membership) : Membership :=
  let infos := announced members in
  mkMembership (SetNodes (map NodeID infos) (ring m)) (self m) (meta_of infos) (joinErr m) (quit m).

Definition project_key (projectID : Z) : string := "project-" +:+ pretty projectID.

(** [(addr, isRemote)]. *)
Definition OwnerAddr (m : Membership) (projectID : Z) : string * bool :=
  match OwnerFor (ring m) (project_key projectID) with
  | None => (""%string, false)
  | Some nodeID =>
      if bool_decide (nodeID = NodeID (self m)) then (""%string, false)
      else match meta m !! nodeID with
           | None => (""%string, false)
           | Some info => (APIAddr info, true)
           end
  end.

(** Join: [Create] starts the gossip under the node's name, address and port
    with its metadata; an error of [ml_Join] is kept as a warning. The first
    refresh sees [members]; [interval] is the pace of the others. *)
Definition interval (cfg : Config) : Z := if RingRefresh cfg <=? 0 then 500 * 1000000 else RingRefresh cfg.

Definition Join (Create : string -> string -> Z -> string -> bool) (ml_Join : list string -> option string)
    (cfg : Config) (members : list string) : option Membership :=
  if Create (NodeID (Self cfg)) (BindAddr cfg) (BindPort cfg) (Marshal (Self cfg))
  then let warning := match JoinPeers cfg with [] => None | peers => ml_Join peers end in
       Some (refreshRing members (mkMembership NewRing (Self cfg) ∅ warning false))
  else None.

Definition JoinWarning (m : Membership) : option string := joinErr m.

(** refreshLoop until m.quit is closed: one refresh for each tick. *)
Definition refreshLoop (ticks : list (list string)) (m : Membership) : Membership :=
  fold_left (fun m members => refreshRing members m) ticks m.

(** Members ranges over the map. *)
Definition Members `{!MapRange NodeInfo} (m : Membership) : list NodeInfo := range_keys (map snd (map_to_list (meta m))).

(** Leave stops the loop, leaves the gossip and shuts it down; [None] is the
    panic of a second Leave. *)
Definition Leave (ml_Leave ml_Shutdown : option string) (m : Membership) : option (Membership * option string) :=
  if quit m then None
  else Some (mkMembership (ring m) (self m) (meta m) (joinErr m) true,
             match ml_Leave with Some e => Some e | None => ml_Shutdown end).

Lemma meta_fold infos (m : gmap string NodeInfo) :
  NoDup (map NodeID infos) ->
  forall info, info ∈ infos ->
    fold_left (fun m info => <[NodeID info := info]> m) infos m !! NodeID info = Some info.
Proof.
  revert m. induction infos as [|i infos IH]; intros m Hn info Hin; [inversion Hin|].
  cbn in *. inversion Hn as [|? ? Hni Hn']; subst.
  apply elem_of_cons in Hin as [->|Hin]; [|apply IH; assumption].
  clear IH Hn. assert (Hkeep : forall l (m : gmap string NodeInfo), NodeID i ∉ map NodeID l ->
    fold_left (fun m info => <[NodeID info := info]> m) l m !! NodeID i = m !! NodeID i).
  { induction l as [|x l IHl]; intros m' Hx; [reflexivity|]. cbn in *.
    rewrite IHl by (intros Hin; apply Hx; right; exact Hin).
    apply lookup_insert_ne. intros E. apply Hx. rewrite E. left. }
  rewrite Hkeep by exact Hni. apply lookup_insert_eq.
Qed.

(** ** What is published is what is read *)
Definition well_formed_node (i : NodeInfo) : Prop := well_formed (NodeID i) /\ well_formed (APIAddr i).

Definition fits (limit : nat) (i : NodeInfo) : bool := (String.length (Marshal i) <=? limit)%nat.

Lemma name_1 : well_formed "node_id".
Proof. exists (map Z.of_nat [110; 111; 100; 101; 95; 105; 100]%nat). split; [|reflexivity]. repeat constructor; cbn; lia. Qed.
Lemma name_2 : well_formed "api_addr".
Proof. exists (map Z.of_nat [97; 112; 105; 95; 97; 100; 100; 114]%nat). split; [|reflexivity]. repeat constructor; cbn; lia. Qed.

Lemma pairs_well_formed i : well_formed_node i ->
  Forall JsonEnc.well_formed_pair [("node_id", NodeID i); ("api_addr", APIAddr i)]%string.
Proof. intros [H1 H2]. pose proof name_1. pose proof name_2. repeat constructor; assumption. Qed.

Lemma read_Marshal i : well_formed_node i -> read_node (Marshal i) = Some i.
Proof.
  intros H. unfold read_node, Json.Unmarshal_ok, Json.Unmarshal, Marshal.
  rewrite JsonEnc.parse_object by (discriminate || apply pairs_well_formed, H). destruct i. reflexivity.
Qed.

Lemma read_cut i n : well_formed_node i -> (n < String.length (Marshal i))%nat -> read_node (take_str n (Marshal i)) = None.
Proof.
  intros H Hn. unfold read_node, Json.Unmarshal_ok, Json.Unmarshal, Marshal.
  rewrite JsonEnc.parse_cut by (discriminate || exact Hn || apply pairs_well_formed, H). reflexivity.
Qed.

(** The nodes the others can route to. *)
Definition routable (limit : nat) (nodes : list NodeInfo) : list NodeInfo :=
  List.filter (fun i => fits limit i && negb (bool_decide (NodeID i = ""%string))) nodes.

Lemma announced_published limit nodes : Forall well_formed_node nodes ->
  announced (map (fun i => NodeMeta (Marshal i) limit) nodes) = routable limit nodes.
Proof.
  induction 1 as [|i nodes Hi _ IH]; [reflexivity|]. unfold announced, routable in *. cbn [map omap list_omap List.filter].
  unfold NodeMeta at 1, fits at 1. destruct (Nat.ltb_spec limit (String.length (Marshal i))) as [Hlt|Hge].
  - rewrite read_cut by assumption. rewrite (proj2 (Nat.leb_gt _ _)) by exact Hlt. exact IH.
  - rewrite read_Marshal by assumption. rewrite (proj2 (Nat.leb_le _ _)) by exact Hge. cbn [andb].
    case_bool_decide; cbn [negb]; [exact IH|]. f_equal. exact IH.
Qed.

(** ** Routing *)

(** Nodes that refreshed from lists of the same usable members agree on who
    serves a project: exactly one member is its owner, that member serves it
    locally, and every other member sends it to the address the owner
    announced; a forwarded request is never forwarded again. *)
Lemma routing_agrees infos projectID :
  NoDup (map NodeID infos) -> infos <> [] ->
  exists owner, owner ∈ infos /\
    forall m members, announced members ≡ₚ infos ->
      OwnerAddr (refreshRing members m) projectID
      = if bool_decide (NodeID (self m) = NodeID owner) then (""%string, false)
        else (APIAddr owner, true).
Proof.
  intros Hn Hne.
  destruct (owner_determined_by_members (map NodeID infos) (map NodeID infos) NewRing NewRing
    (project_key projectID)) as (_ & Hsome & Hin); [reflexivity|].
  destruct (OwnerFor (SetNodes (map NodeID infos) NewRing) (project_key projectID)) as [id|] eqn:E.
  2:{ exfalso. apply Hne. destruct infos; [reflexivity|]. destruct Hsome as [Hs _].
      discriminate Hs. reflexivity. }
  destruct (Hin id eq_refl) as [Hid _]. apply list_elem_of_fmap in Hid as (owner & -> & Hown).
  exists owner. split; [exact Hown|]. intros m members Hp. unfold OwnerAddr, refreshRing. cbn [ring self meta].
  destruct (owner_determined_by_members (map NodeID (announced members)) (map NodeID infos) (ring m) NewRing
    (project_key projectID)) as (-> & _); [intros x; rewrite Hp; reflexivity|]. rewrite E.
  destruct (decide (NodeID owner = NodeID (self m))) as [Heq|Hneq].
  - rewrite !bool_decide_true by congruence. reflexivity.
  - rewrite !bool_decide_false by congruence. unfold meta_of. rewrite meta_fold; [reflexivity|rewrite Hp; exact Hn|].
    rewrite Hp. exact Hown.
Qed.

(** C39: what nodes publish is enough to route: for nodes with different names,
    each project has one owner among those whose metadata the gossip carries
    uncut, and every node that has refreshed from the published metadata,
    listed in any order, serves the project itself if it is the owner and
    otherwise sends it to the address the owner was configured with; a node
    whose metadata is cut is skipped by all. *)
Theorem published_nodes_route limit nodes projectID :
  Forall well_formed_node nodes -> NoDup (map NodeID nodes) -> routable limit nodes <> [] ->
  exists owner, owner ∈ nodes /\ fits limit owner = true /\ NodeID owner <> ""%string /\
    forall m members, members ≡ₚ map (fun i => NodeMeta (Marshal i) limit) nodes ->
      OwnerAddr (refreshRing members m) projectID
      = if bool_decide (NodeID (self m) = NodeID owner) then (""%string, false)
        else (APIAddr owner, true).
Proof.
  intros Hw Hn Hne. assert (Hn' : NoDup (map NodeID (routable limit nodes))).
  { clear Hw Hne. unfold routable. induction nodes as [|i l IH]; [constructor|]. inversion Hn as [|? ? Hx Hl]; subst.
    cbn [List.filter]. destruct (_ && _); [|apply IH, Hl]. cbn [map]. constructor; [|apply IH, Hl]. intros Hin. apply Hx.
    apply list_elem_of_fmap in Hin as (y & -> & Hy). apply list_elem_of_In, filter_In in Hy as [Hy _].
    apply list_elem_of_fmap. exists y. rewrite list_elem_of_In. auto. }
  destruct (routing_agrees (routable limit nodes) projectID Hn' Hne) as (owner & Hown & Hr).
  apply list_elem_of_In, filter_In in Hown as [Hin Hf]. apply andb_true_iff in Hf as [Hf Hid].
  apply negb_true_iff, bool_decide_eq_false in Hid.
  exists owner. split_and!; auto; [apply list_elem_of_In, Hin|]. intros m members Hp. apply Hr.
  rewrite <- (announced_published limit nodes Hw). unfold announced. rewrite Hp. reflexivity.
Qed.

(** With no usable member every node serves every project. *)
Lemma alone_serves_all members m projectID : announced members = [] -> OwnerAddr (refreshRing members m) projectID = (""%string, false).
Proof.
  intros E. unfold OwnerAddr, refreshRing. rewrite E. cbn [ring map].
  destruct (owner_determined_by_members [] [] (ring m) NewRing (project_key projectID)) as (_ & Hs & _); [reflexivity|].
  rewrite (proj2 Hs eq_refl). reflexivity.
Qed.
End Membership.

(** Three nodes; the address of the third does not fit. *)
Definition ex_nodes : list NodeInfo :=
  [mkNodeInfo "a" "http://a:8080"; mkNodeInfo "b" "http://b:8080"; mkNodeInfo "c" "http://a-host-with-a-long-name.example.org:8080"].

Lemma ex_ascii s : forallb (fun c => (0 <=? code c) && (code c <? 128)) (String.list_ascii_of_string s) = true -> well_formed s.
Proof.
  intros H. exists (map code (String.list_ascii_of_string s)). induction s as [|c s IH]; [split; constructor|].
  cbn in H. apply andb_true_iff in H as [Hc H]. destruct (IH H) as [H1 H2]. split; [constructor; [unfold valid_rune; lia|exact H1]|].
  cbn [String.list_ascii_of_string map text]. rewrite <- H2, encode_valid by (unfold valid_rune; lia).
  destruct (Z.ltb_spec (code c) 128); [|lia]. unfold chr, code. rewrite Nat2Z.id, ascii_nat_embedding. reflexivity.
Qed.

Lemma published_nodes_route_witness : exists owner, owner ∈ ex_nodes /\ fits 60 owner = true /\
  forall m, OwnerAddr (refreshRing (map (fun i => NodeMeta (Marshal i) 60) ex_nodes) m) 1
    = if bool_decide (NodeID (self m) = NodeID owner) then (""%string, false) else (APIAddr owner, true).
Proof.
  destruct (published_nodes_route 60 ex_nodes 1) as (owner & H1 & H2 & _ & H).
  - repeat constructor; apply ex_ascii; reflexivity.
  - refine (bool_decide_unpack _ _). vm_compute. exact I.
  - vm_compute. discriminate.
  - exists owner. split; [exact H1|]. split; [exact H2|]. intros m. apply H. reflexivity.
Defined.

Example third_is_cut : map (fits 60) ex_nodes = [true; true; false]
  /\ map NodeID (announced (map (fun i => NodeMeta (Marshal i) 60) ex_nodes)) = ["a"; "b"]%string.
Proof. vm_compute. auto. Qed.

End Membership.
