(* ===== verification/Authz.v ===== *)
(** * The authorization core (internal/authz/authz.go)

    Permissions are strings, as in the code; the [map[Permission]bool], whose
    values are always true, is the set of its keys. A nil [*AuthContext] is
    [None]. *)
From S2P Require Import Prelude.

Module Authz.

Definition Permission := string.

Definition EventRead : Permission := "event:read".
Definition EventAdmin : Permission := "event:admin".
Definition IssueRead : Permission := "issue:read".
Definition IssueWrite : Permission := "issue:write".
Definition ProjectRead : Permission := "project:read".
Definition ProjectWrite : Permission := "project:write".
Definition ProjectAdmin : Permission := "project:admin".
Definition MemberRead : Permission := "member:read".
Definition MemberWrite : Permission := "member:write".
Definition TeamWrite : Permission := "team:write".
Definition OrgRead : Permission := "org:read".
Definition OrgWrite : Permission := "org:write".
Definition AlertsWrite : Permission := "alerts:write".
Definition TokenAdmin : Permission := "token:admin".
Definition AuditRead : Permission := "audit:read".
Definition OpsRead : Permission := "ops:read".

Definition AllPermissions : list Permission :=
  [EventRead; EventAdmin; IssueRead; IssueWrite; ProjectRead; ProjectWrite; ProjectAdmin;
   MemberRead; MemberWrite; TeamWrite; OrgRead; OrgWrite; AlertsWrite; TokenAdmin; AuditRead;
   OpsRead].

Definition RoleOwner : string := "owner".
Definition RoleManager : string := "manager".
Definition RoleAdmin : string := "admin".
Definition RoleMember : string := "member".
Definition RoleBilling : string := "billing".
Definition RoleReadOnly : string := "read_only".

Definition builtinRoles : list (string * list Permission) :=
  [(RoleOwner, [EventRead; EventAdmin; IssueRead; IssueWrite; ProjectRead; ProjectWrite;
      ProjectAdmin; MemberRead; MemberWrite; TeamWrite; OrgRead; OrgWrite; AlertsWrite;
      TokenAdmin; AuditRead; OpsRead]);
   (RoleManager, [EventRead; EventAdmin; IssueRead; IssueWrite; ProjectRead; ProjectWrite;
      ProjectAdmin; MemberRead; MemberWrite; TeamWrite; OrgRead; AlertsWrite; OpsRead]);
   (RoleAdmin, [EventRead; IssueRead; IssueWrite; ProjectRead; ProjectWrite; MemberRead;
      OrgRead; AlertsWrite; OpsRead]);
   (RoleMember, [EventRead; IssueRead; IssueWrite; ProjectRead; OrgRead; OpsRead]);
   (RoleBilling, [OrgRead]);
   (RoleReadOnly, [IssueRead; ProjectRead; OrgRead; OpsRead])].

(** RolePermissions: nil for an unknown role. *)
Definition RolePermissions (role : string) : list Permission :=
  match List.find (fun r => bool_decide (fst r = role)) builtinRoles with
  | Some (_, ps) => ps
  | None => []
  end.

Record AuthContext := mkAuth {
  UserID : Z; OrgID : Z; Role : string; perms : gset Permission;
  projectOK : option (Z -> bool) }.

Definition NewAuthContext (userID orgID : Z) (role : string) (extraPerms : list Permission)
    (ok : option (Z -> bool)) : AuthContext :=
  mkAuth userID orgID role
    (fold_left (fun pm p => {[p]} ∪ pm) extraPerms
       (fold_left (fun pm p => {[p]} ∪ pm) (RolePermissions role) ∅)) ok.

Definition Restrict (a : AuthContext) (allowed : list Permission) : AuthContext :=
  mkAuth (UserID a) (OrgID a) (Role a)
    (fold_left (fun pm p => if bool_decide (p ∈ perms a) then {[p]} ∪ pm else pm) allowed ∅)
    (projectOK a).

Definition Can (a : option AuthContext) (p : Permission) : bool :=
  match a with None => false | Some a => bool_decide (p ∈ perms a) end.

Definition CanProject (a : option AuthContext) (p : Permission) (projectID : Z) : bool :=
  if negb (Can a p) then false
  else match a with
       | None => false (* Can of a nil context is false *)
       | Some a => match projectOK a with None => false | Some ok => ok projectID end
       end.

(** ** Lemmas *)
Lemma elem_of_grants ps pm (p : Permission) :
  p ∈ fold_left (fun pm p => {[p]} ∪ pm) ps pm <-> p ∈ ps \/ p ∈ (pm : gset Permission).
Proof.
  revert pm. induction ps as [|q ps IH]; intros pm; cbn; [set_solver|]. rewrite IH. set_solver.
Qed.

Lemma elem_of_restricted (a : gset Permission) ps pm (p : Permission) :
  p ∈ fold_left (fun pm p => if bool_decide (p ∈ a) then {[p]} ∪ pm else pm) ps pm
  <-> p ∈ ps /\ p ∈ a \/ p ∈ (pm : gset Permission).
Proof.
  revert pm. induction ps as [|q ps IH]; intros pm; cbn; [set_solver|]. rewrite IH.
  destruct (bool_decide_reflect (q ∈ a)); set_solver.
Qed.

(** A context's permissions are those of its role and the extra ones. *)
Lemma Can_NewAuthContext u o role extra ok p :
  Can (Some (NewAuthContext u o role extra ok)) p = true <-> p ∈ RolePermissions role \/ p ∈ extra.
Proof. cbn. rewrite bool_decide_eq_true, !elem_of_grants. set_solver. Qed.

Lemma Can_Restrict a allowed p :
  Can (Some (Restrict a allowed)) p = true <-> Can (Some a) p = true /\ p ∈ allowed.
Proof. cbn. rewrite !bool_decide_eq_true, elem_of_restricted. set_solver. Qed.

(** deny by default. A project-level check passes only for a context
    whose role or extra permissions grant the permission, whose token (any
    nesting of restrictions) lists it, and whose membership oracle is wired
    and accepts the project; restricting a context never adds a permission,
    and an unknown role alone grants none. *)
Theorem authorization_denies_by_default u o role extra ok (tokens : list (list Permission)) p project :
  let a := fold_left Restrict tokens (NewAuthContext u o role extra ok) in
  (CanProject (Some a) p project = true <->
     (p ∈ RolePermissions role \/ p ∈ extra) /\ Forall (fun allowed => p ∈ allowed) tokens
     /\ exists f, ok = Some f /\ f project = true)
  /\ (CanProject None p project = false)
  /\ (role ∉ map fst builtinRoles -> extra = [] -> Can (Some a) p = false).
Proof.
  assert (Hfold : forall ts c,
    (Can (Some (fold_left Restrict ts c)) p = true <->
      Can (Some c) p = true /\ Forall (fun allowed => p ∈ allowed) ts)
    /\ projectOK (fold_left Restrict ts c) = projectOK c).
  { induction ts as [|t ts IH]; intros c; [cbn [fold_left]; split; [|reflexivity]; split;
      [intros ?; split; [assumption|constructor]|tauto]|].
    cbn [fold_left]. destruct (IH (Restrict c t)) as [-> ->]. split; [|reflexivity].
    rewrite Can_Restrict, Forall_cons. tauto. }
  intros a. destruct (Hfold tokens (NewAuthContext u o role extra ok)) as [Hcan Hok]. fold a in Hcan, Hok.
  rewrite Can_NewAuthContext in Hcan. split_and!; [|reflexivity|].
  - unfold CanProject. rewrite Hok. cbn [projectOK NewAuthContext].
    destruct (Can (Some a) p); cbn [negb].
    + destruct Hcan as [Hcan _]. destruct (Hcan eq_refl) as [H1 H2]. destruct ok as [f|].
      * split; [eauto|]. intros (_ & _ & f' & [= ->] & Hf). exact Hf.
      * split; [discriminate|]. intros (_ & _ & f' & [=] & _).
    + split; [discriminate|]. intros (H1 & H2 & _). destruct Hcan as [_ Hcan].
      discriminate Hcan. auto.
  - intros Hrole ->. apply not_true_iff_false. intros H. apply Hcan in H as [[H|H] _]; [|inversion H].
    unfold RolePermissions in H. destruct (List.find _ _) as [[r ps]|] eqn:E; [|inversion H].
    apply List.find_some in E as [Hin Hr]. apply bool_decide_eq_true in Hr. apply Hrole.
    apply list_elem_of_In, in_map_iff. exists (r, ps). auto.
Qed.

(** The built-in roles grant only enumerated permissions, each includes the
    next of owner, manager, admin, member, and read_only cannot read raw
    events. *)
Example builtin_roles_ok :
  forallb (fun r => forallb (fun p => bool_decide (p ∈ AllPermissions)) (snd r)) builtinRoles = true
  /\ bool_decide (EventRead ∈ RolePermissions RoleReadOnly) = false
  /\ bool_decide (Forall (fun p => p ∈ RolePermissions RoleOwner) (RolePermissions RoleManager)) = true
  /\ bool_decide (Forall (fun p => p ∈ RolePermissions RoleManager) (RolePermissions RoleAdmin)) = true
  /\ bool_decide (Forall (fun p => p ∈ RolePermissions RoleAdmin) (RolePermissions RoleMember)) = true.
Proof. vm_compute. repeat split. Qed.

End Authz.
