(* ===== verification/RateLimit.v ===== *)
(** * Per-project token buckets (internal/ratelimit/ratelimit.go)

    The clock readings of an operation are its arguments; a [Duration] is an
    int64 of nanoseconds; tokens and limits are binary64. The limiter is then
    shown to be a token bucket on integers, for clock readings on which its
    arithmetic does not round. *)
From S2P Require Import Prelude GoFloat.

Module RateLimit.

Definition Second : Z := 1000000000.

(** time.Time.Sub saturates at the int64 range. *)
Definition time_sub (t u : Z) : Z := Z.max (- 2 ^ 63) (Z.min (2 ^ 63 - 1) (t - u)).

(** Duration.Seconds. *)
Definition Seconds (d : Z) : float64 :=
  f_add (f_of_Z (Z.quot d Second)) (f_div (f_of_Z (Z.rem d Second)) (f_of_Z 1000000000)).

(** ** Data *)
Record Limit := mkLimit { PerSecond : float64; Burst : float64 }.

Definition DefaultLimit : Limit := mkLimit (f_of_Z 1000) (f_of_Z 5000).

Record bucket := mkBucket { tokens : float64; last_ : Z }.

Record Limiter := mkLimiter {
  def : Limit; limit : gmap Z Limit; b : gmap Z bucket; max : Z }.

Definition New (d : Limit) (maxProjects : Z) : Limiter :=
  mkLimiter d ∅ ∅ (if maxProjects <=? 0 then 10000 else maxProjects).

Definition SetLimit (projectID : Z) (lim : Limit) (l : Limiter) : Limiter :=
  mkLimiter (def l) (<[projectID := lim]> (limit l)) (b l) (max l).

Definition limit_of (l : Limiter) (projectID : Z) : Limit :=
  default (def l) (limit l !! projectID).

Definition set_bucket (projectID : Z) (bk : bucket) (l : Limiter) : Limiter :=
  mkLimiter (def l) (limit l) (<[projectID := bk]> (b l)) (max l).

(** The refill: elapsed seconds times the rate, capped at the burst. *)
Definition refill (lim : Limit) (bk : bucket) (now : Z) : float64 :=
  let t := f_add (tokens bk) (f_mul (Seconds (time_sub now (last_ bk))) (PerSecond lim)) in
  if f_lt (Burst lim) t then Burst lim else t.

Section Allow.
(** What the implementation makes of an unrepresentable wait. *)
Context (convert_out_of_range : float64 -> Z).

Definition wait_of (t : float64) (lim : Limit) : Z :=
  let f := f_mul (f_div (f_sub (f_of_Z 1) t) (PerSecond lim)) (f_of_Z Second) in
  let wait := match f_trunc (- 2 ^ 63) (2 ^ 63) f with Some z => z | None => convert_out_of_range f end in
  if wait <? Second then Second else wait.

(** Allow: [now0] is the clock when a new bucket is made, [now] the reading
    that follows. *)
Definition Allow (projectID now0 now : Z) (l : Limiter) : Limiter * (bool * Z) :=
  let lim := limit_of l projectID in
  let consume bk l :=
    let t := refill lim bk now in
    if f_le (f_of_Z 1) t
    then (set_bucket projectID (mkBucket (f_sub t (f_of_Z 1)) now) l, (true, 0))
    else (set_bucket projectID (mkBucket t now) l, (false, wait_of t lim)) in
  match b l !! projectID with
  | Some bk => consume bk l
  | None =>
      if max l <=? Z.of_nat (size (b l)) then (l, (true, 0))
      else let bk := mkBucket (Burst lim) now0 in consume bk (set_bucket projectID bk l)
  end.

Definition Snapshot (l : Limiter) : gmap Z float64 := tokens <$> b l.

(** Restore ranges over a Go map: [state] lists it in the order of the
    iteration. *)
Fixpoint Restore (state : list (Z * float64)) (now : Z) (l : Limiter) : Limiter :=
  match state with
  | [] => l
  | (id, t) :: state =>
      if max l <=? Z.of_nat (size (b l)) then l
      else Restore state now (set_bucket id (mkBucket t now) l)
  end.

(** A sequence of requests: each a project and the two clock readings. *)
Fixpoint requests (reqs : list (Z * (Z * Z))) (l : Limiter) : Limiter * list (bool * Z) :=
  match reqs with
  | [] => (l, [])
  | (id, (now0, now)) :: reqs =>
      let '(l, o) := Allow id now0 now l in
      let '(l, os) := requests reqs l in (l, o :: os)
  end.
End Allow.

(** ** The integer token bucket

    The limiter with the limit the program gives it is, on clock readings that
    are multiples of a 512th of a second, exactly this machine on integers:
    tokens in 64ths, time in 512ths of a second, 1000 tokens a second. *)
Definition tick : Z := 1953125.
Definition full : Z := 64 * 5000.

Notation buckets := (gmap Z (Z * Z)).

Definition charge (id t : Z) (bk : Z * Z) (m : buckets) : buckets * (bool * Z) :=
  let n := Z.min full (fst bk + 125 * (t - snd bk)) in
  if 64 <=? n then (<[id := (n - 64, t)]> m, (true, 0)) else (<[id := (n, t)]> m, (false, Second)).

Definition spec_allow (cap id t0 t : Z) (m : buckets) : buckets * (bool * Z) :=
  match m !! id with
  | Some bk => charge id t bk m
  | None => if cap <=? Z.of_nat (size m) then (m, (true, 0)) else charge id t (full, t0) m
  end.

Fixpoint spec_requests (cap : Z) (reqs : list (Z * (Z * Z))) (m : buckets) : buckets * list (bool * Z) :=
  match reqs with
  | [] => (m, [])
  | (id, (t0, t)) :: reqs =>
      let '(m, o) := spec_allow cap id t0 t m in
      let '(m, os) := spec_requests cap reqs m in (m, o :: os)
  end.

(** The limiter's state for a state of the machine. *)
Definition f_tokens (n : Z) : float64 := SpecFloat.binary_normalize 53 1024 n (-6) false.
Definition f_bucket (x : Z * Z) : bucket := mkBucket (f_tokens (fst x)) (snd x * tick).
Definition concrete (cap : Z) (m : buckets) : Limiter := mkLimiter DefaultLimit ∅ (f_bucket <$> m) cap.

(** The requests come in the order of the clock, which does not run back; the
    times are in ticks. *)
Fixpoint ordered (now : Z) (reqs : list (Z * (Z * Z))) : Prop :=
  match reqs with
  | [] => True
  | (_, (t0, t)) :: reqs => now <= t0 <= t /\ t < 2 ^ 42 /\ ordered t reqs
  end.

Fixpoint end_of (now : Z) (reqs : list (Z * (Z * Z))) : Z :=
  match reqs with [] => now | (_, (_, t)) :: reqs => end_of t reqs end.

Definition scaled (reqs : list (Z * (Z * Z))) : list (Z * (Z * Z)) :=
  map (fun x => (fst x, (fst (snd x) * tick, snd (snd x) * tick))) reqs.

(** The requests of one project, their answers, how many were admitted. *)
Definition only (id : Z) (reqs : list (Z * (Z * Z))) : list (Z * (Z * Z)) := List.filter (fun x => fst x =? id) reqs.

Fixpoint project_answers (id : Z) (reqs : list (Z * (Z * Z))) (os : list (bool * Z)) : list (bool * Z) :=
  match reqs, os with
  | (i, _) :: reqs, o :: os => if i =? id then o :: project_answers id reqs os else project_answers id reqs os
  | _, _ => []
  end.

Definition admitted (os : list (bool * Z)) : Z := Z.of_nat (length (List.filter fst os)).

(** The part of the state that concerns one project. *)
Definition one (id : Z) (m : buckets) : buckets := match m !! id with Some x => <[id := x]> ∅ | None => ∅ end.

(** ** The arithmetic of one request *)
Lemma tokens_rep n : 0 <= n < 2 ^ 53 -> rep (f_tokens n) n (-6).
Proof. intros H. apply normalize_exact; [rewrite Z.sub_diag; lia|lia|split; lia]. Qed.

Lemma rep_tokens f n : 0 <= n < 2 ^ 53 -> rep f n (-6) -> f = f_tokens n.
Proof. intros H Hf. exact (rep_unique _ _ _ _ Hf (tokens_rep n H)). Qed.

(** The fraction of a second, one of 512. *)
Definition fraction (k : Z) : float64 := f_div (f_of_Z (k * tick)) (f_of_Z 1000000000).

Lemma fractions : map fraction (map Z.of_nat (seq 0 512))
  = map (fun k => SpecFloat.binary_normalize 53 1024 k (-9) false) (map Z.of_nat (seq 0 512)).
Proof. vm_compute. reflexivity. Qed.

Lemma fraction_rep k : 0 <= k < 512 -> rep (fraction k) k (-9).
Proof.
  intros H. assert (E : fraction k = SpecFloat.binary_normalize 53 1024 k (-9) false).
  { pose proof (f_equal (fun l => l !! Z.to_nat k) fractions) as E. cbn beta in E.
    change map with (@fmap list list_fmap) in E. rewrite !list_lookup_fmap, lookup_seq_lt in E by lia.
    cbn in E. injection E as E. rewrite Z2Nat.id in E by lia. exact E. }
  rewrite E. apply normalize_exact; [rewrite Z.sub_diag; lia|lia|split; lia].
Qed.

Lemma Seconds_rep d : 0 <= d < 2 ^ 42 -> rep (Seconds (d * tick)) d (-9).
Proof.
  intros H. assert (Hq : Z.quot (d * tick) Second = d / 512 /\ Z.rem (d * tick) Second = d mod 512 * tick).
  { change Second with (512 * tick). rewrite Z.quot_div_nonneg, Z.rem_mod_nonneg by (unfold tick; lia).
    rewrite Z.div_mul_cancel_r, Zmult_mod_distr_r by (unfold tick; lia). auto. }
  destruct Hq as [Hq Hr]. unfold Seconds. rewrite Hq, Hr. fold (fraction (d mod 512)).
  pose proof (Z.div_mod d 512 ltac:(lia)) as E. pose proof (Z.mod_pos_bound d 512 ltac:(lia)) as Hm.
  assert (Hd : 0 <= d / 512 < 2 ^ 42) by (split; [apply Z.div_pos; lia|apply Z.div_lt_upper_bound; lia]).
  replace d with (d / 512 * 2 ^ 9 + d mod 512) at 3 by (change (2 ^ 9) with 512; lia).
  apply rep_add; [apply rep_refine|apply fraction_rep|..]; try lia; [apply rep_of_Z; lia|split; lia].
Qed.

(** The limits as 64ths. *)
Lemma burst_rep : rep (Burst DefaultLimit) full (-6).
Proof. apply (rep_refine _ 5000 6 (-6)); [lia..|]. apply rep_of_Z. lia. Qed.
Lemma one_rep : rep (f_of_Z 1) 64 (-6).
Proof. apply (rep_refine _ 1 6 (-6)); [lia..|]. apply rep_of_Z. lia. Qed.

Lemma time_sub_ticks a b : 0 <= a - b < 2 ^ 42 -> time_sub (a * tick) (b * tick) = (a - b) * tick.
Proof. intros H. unfold time_sub, tick. lia. Qed.

Lemma refill_tokens n t0 t : 0 <= n <= full -> 0 <= t - t0 < 2 ^ 42 ->
  refill DefaultLimit (f_bucket (n, t0)) (t * tick) = f_tokens (Z.min full (n + 125 * (t - t0))).
Proof.
  intros Hn Ht. unfold refill, full in *. cbn [tokens last_ f_bucket fst snd]. rewrite time_sub_ticks by exact Ht.
  set (d := t - t0) in *. assert (Hm : rep (f_mul (Seconds (d * tick)) (PerSecond DefaultLimit)) (125 * d) (-6)).
  { apply (rep_scale _ _ 3 (-9)); [lia..|]. replace (125 * d * 2 ^ 3) with (d * 1000) by lia.
    apply (rep_mul _ _ d 1000 (-9) 0); [apply Seconds_rep; lia|apply rep_of_Z; lia|lia|lia|split; lia]. }
  pose proof (rep_add _ _ n (125 * d) (-6) (tokens_rep n ltac:(lia)) Hm ltac:(lia) ltac:(lia) ltac:(split; lia)) as Ha.
  rewrite (rep_lt _ _ _ _ _ burst_rep Ha) by (unfold full; lia). unfold full. destruct (Z.ltb_spec (64 * 5000) (n + 125 * d)).
  - rewrite Z.min_l by lia. apply rep_tokens; [lia|exact burst_rep].
  - rewrite Z.min_r by lia. apply rep_tokens; [lia|exact Ha].
Qed.

(** The first request of a project finds the bucket full. *)
Lemma burst_tokens : Burst DefaultLimit = f_tokens full.
Proof. vm_compute. reflexivity. Qed.

Section Exact.
Context (convert_out_of_range : float64 -> Z).
Notation Allow := (Allow convert_out_of_range).
Notation requests := (requests convert_out_of_range).

(** Less than a token short is less than a second to wait. *)
Lemma waits : map (fun n => wait_of convert_out_of_range (f_tokens n) DefaultLimit) (map Z.of_nat (seq 0 64))
  = replicate 64 Second.
Proof. vm_compute. reflexivity. Qed.

Lemma wait_tokens n : 0 <= n < 64 -> wait_of convert_out_of_range (f_tokens n) DefaultLimit = Second.
Proof.
  intros H. pose proof (f_equal (fun l => l !! Z.to_nat n) waits) as E. cbn beta in E.
  change map with (@fmap list list_fmap) in E. rewrite !list_lookup_fmap, lookup_seq_lt in E by lia.
  rewrite lookup_replicate_2 in E by lia. cbn in E. injection E as E. rewrite Z2Nat.id in E by lia. exact E.
Qed.

(** ** One request *)

(** Tokens are within the burst, the clock does not run back. *)
Definition sound (now : Z) (m : buckets) : Prop :=
  map_Forall (fun _ x => 0 <= fst x <= full /\ 0 <= snd x <= now) m.

Lemma charge_exact cap id t n t0 m : 0 <= n <= full -> 0 <= t - t0 < 2 ^ 42 ->
  (let t' := refill DefaultLimit (f_bucket (n, t0)) (t * tick) in
   if f_le (f_of_Z 1) t'
   then (set_bucket id (mkBucket (f_sub t' (f_of_Z 1)) (t * tick)) (concrete cap m), (true, 0))
   else (set_bucket id (mkBucket t' (t * tick)) (concrete cap m), (false, wait_of convert_out_of_range t' DefaultLimit)))
  = let '(m', o) := charge id t (n, t0) m in (concrete cap m', o).
Proof.
  intros Hn Ht. cbv zeta. rewrite refill_tokens by assumption. unfold charge. cbn [fst snd].
  set (n1 := Z.min full (n + 125 * (t - t0))). assert (H1 : 0 <= n1 <= full) by (unfold n1; lia). unfold full in H1.
  rewrite (rep_le _ _ _ _ _ one_rep (tokens_rep n1 ltac:(lia))) by lia.
  destruct (Z.leb_spec 64 n1) as [Hle|Hgt]; unfold concrete, set_bucket; cbn [b def limit max]; rewrite fmap_insert.
  - do 4 f_equal. unfold f_bucket. cbn [fst snd]. f_equal. apply rep_tokens; [lia|].
    apply rep_sub; [apply tokens_rep; lia|exact one_rep|lia|split; lia].
  - do 2 f_equal. apply wait_tokens. lia.
Qed.

Lemma set_bucket_twice id bk bk' l : set_bucket id bk (set_bucket id bk' l) = set_bucket id bk l.
Proof. unfold set_bucket. cbn. rewrite insert_insert_eq. reflexivity. Qed.

Lemma Allow_exact cap id t0 t now m : sound now m -> now <= t0 <= t -> 0 <= now -> t < 2 ^ 42 ->
  Allow id (t0 * tick) (t * tick) (concrete cap m) = let '(m', o) := spec_allow cap id t0 t m in (concrete cap m', o).
Proof.
  intros Hs Ht Hn Hb. unfold RateLimit.Allow, spec_allow, limit_of. cbn [b limit def max concrete].
  rewrite lookup_empty, lookup_fmap, map_size_fmap. cbn [default].
  destruct (m !! id) as [[n tl]|] eqn:E; cbn [fmap option_fmap option_map].
  - destruct (Hs id _ E) as [H1 H2]. cbn [fst snd] in *. apply charge_exact; lia.
  - destruct (cap <=? Z.of_nat (size m)); [reflexivity|]. rewrite burst_tokens. cbv zeta.
    rewrite !set_bucket_twice. apply (charge_exact cap id t full t0 m); unfold full; lia.
Qed.

Lemma charge_sound id t bk m now : sound now m -> 0 <= fst bk <= full -> 0 <= snd bk <= t -> now <= t ->
  sound t (fst (charge id t bk m)).
Proof.
  intros Hs H1 H2 Ht. unfold charge. set (n := Z.min _ _).
  assert (Hn : 0 <= n <= full) by (unfold n; lia).
  assert (Hm : sound t m) by (eapply map_Forall_impl; [exact Hs|]; cbn; lia).
  destruct (Z.leb_spec 64 n); apply map_Forall_insert_2; auto; cbn; lia.
Qed.

Lemma spec_sound cap id t0 t now m : sound now m -> 0 <= now -> now <= t0 <= t -> sound t (fst (spec_allow cap id t0 t m)).
Proof.
  intros Hs Hn Ht. unfold spec_allow. destruct (m !! id) as [bk|] eqn:E.
  - destruct (Hs id _ E). apply (charge_sound _ _ _ _ now); auto; lia.
  - destruct (_ <=? _); [eapply map_Forall_impl; [exact Hs|]; cbn; lia|].
    apply (charge_sound _ _ _ _ now); auto; unfold full; cbn; lia.
Qed.
Notation requests_of cap reqs m := (requests (scaled reqs) (concrete cap m)).

Lemma requests_exact cap reqs : forall now m, sound now m -> 0 <= now -> ordered now reqs ->
  requests_of cap reqs m = let '(m', os) := spec_requests cap reqs m in (concrete cap m', os).
Proof.
  induction reqs as [|[id [t0 t]] reqs IH]; intros now m Hs Hn Ho; cbn in *; [reflexivity|]. fold (scaled reqs).
  destruct Ho as (Ht & Hb & Ho). rewrite (Allow_exact cap id t0 t now) by assumption.
  pose proof (spec_sound cap id t0 t now m Hs Hn Ht) as Hs'. destruct (spec_allow cap id t0 t m) as [m1 o].
  rewrite (IH t m1 Hs' ltac:(lia) Ho). destruct (spec_requests cap reqs m1). reflexivity.
Qed.
End Exact.

(** ** Runs of the machine *)

(** A request leaves the other projects alone. *)
Lemma spec_allow_other cap id id' t0 t m : id <> id' -> fst (spec_allow cap id t0 t m) !! id' = m !! id'.
Proof.
  intros H. unfold spec_allow, charge. destruct (m !! id); [|destruct (_ <=? _); [reflexivity|]].
  all: destruct (_ <=? _); cbn; rewrite lookup_insert_ne by exact H; reflexivity.
Qed.

(** A tracked project stays tracked, one over the cap stays over it. *)
Lemma spec_allow_tracked cap id id' t0 t m : is_Some (m !! id') -> is_Some (fst (spec_allow cap id t0 t m) !! id').
Proof.
  intros H. destruct (decide (id = id')) as [->|Hne]; [|rewrite spec_allow_other by exact Hne; exact H].
  destruct H as [bk E]. unfold spec_allow, charge. rewrite E. destruct (_ <=? _); cbn; rewrite lookup_insert_eq; eauto.
Qed.

Lemma spec_requests_tracked cap reqs : forall m id, is_Some (m !! id) -> is_Some (fst (spec_requests cap reqs m) !! id).
Proof.
  induction reqs as [|[id' [t0 t]] reqs IH]; intros m id H; cbn; [exact H|].
  pose proof (spec_allow_tracked cap id' id t0 t m H) as H1. destruct (spec_allow cap id' t0 t m) as [m1 o].
  pose proof (IH m1 id H1) as H2. destruct (spec_requests cap reqs m1). exact H2.
Qed.

Lemma over_cap_untracked cap reqs : forall m id, cap <= Z.of_nat (size m) -> m !! id = None ->
  fst (spec_requests cap reqs m) !! id = None.
Proof.
  induction reqs as [|[id' [t0 t]] reqs IH]; intros m id Hc H; cbn; [exact H|].
  assert (E : fst (spec_allow cap id' t0 t m) !! id = None /\ cap <= Z.of_nat (size (fst (spec_allow cap id' t0 t m)))).
  { unfold spec_allow, charge. rewrite (proj2 (Z.leb_le _ _) Hc). destruct (m !! id') as [bk|] eqn:E; [|auto].
    destruct (_ <=? _); cbn; rewrite lookup_insert_ne by congruence; rewrite map_size_insert_Some by (rewrite E; eauto); auto. }
  destruct (spec_allow cap id' t0 t m) as [m1 o]. pose proof (IH m1 id (proj2 E) (proj1 E)) as H2.
  destruct (spec_requests cap reqs m1). exact H2.
Qed.

(** A request leaves its project untracked only over the cap. *)
Lemma fresh_over_cap cap id t0 t m : fst (spec_allow cap id t0 t m) !! id = None ->
  cap <= Z.of_nat (size (fst (spec_allow cap id t0 t m))).
Proof.
  unfold spec_allow, charge. destruct (m !! id).
  - destruct (_ <=? _); cbn; rewrite lookup_insert_eq; discriminate.
  - destruct (Z.leb_spec cap (Z.of_nat (size m))); [auto|].
    destruct (_ <=? _); cbn; rewrite lookup_insert_eq; discriminate.
Qed.

(** What a project may still take at [now]. *)
Definition credit (now id : Z) (m : buckets) : Z :=
  match m !! id with Some (n, t) => Z.min full (n + 125 * (now - t)) | None => full end.

Lemma credit_later now t id m : now <= t -> credit t id m <= credit now id m + 125 * (t - now).
Proof. intros H. unfold credit. destruct (m !! id) as [[n tl]|]; lia. Qed.

(** A request of a project that ends up tracked is paid from its credit. *)
Lemma charge_pays id t bk m :
  let '(m', o) := charge id t bk m in
  (if fst o then 64 else 0) + credit t id m' <= Z.min full (fst bk + 125 * (t - snd bk)).
Proof.
  unfold charge, credit. set (n := Z.min _ _).
  destruct (Z.leb_spec 64 n); cbn; rewrite lookup_insert_eq; lia.
Qed.

Lemma spec_allow_pays cap id id' t0 t now m : now <= t0 <= t -> is_Some (fst (spec_allow cap id' t0 t m) !! id) ->
  let '(m', o) := spec_allow cap id' t0 t m in
  (if (id' =? id) && fst o then 64 else 0) + credit t id m' <= credit now id m + 125 * (t - now).
Proof.
  intros Ht. destruct (Z.eqb_spec id' id) as [->|Hne].
  - unfold spec_allow. destruct (m !! id) as [[n tl]|] eqn:E.
    + intros _. pose proof (charge_pays id t (n, tl) m) as H. destruct (charge _ _ _ _) as [m' o].
      unfold credit at 2. rewrite E. cbn [fst snd andb] in *. lia.
    + destruct (cap <=? _); [cbn; rewrite E; intros [? [=]]|]. intros _.
      pose proof (charge_pays id t (full, t0) m) as H. destruct (charge _ _ _ _) as [m' o].
      unfold credit at 2. rewrite E. cbn [fst snd andb] in *. lia.
  - intros _. pose proof (spec_allow_other cap id' id t0 t m Hne) as H. destruct (spec_allow _ _ _ _ _) as [m' o].
    cbn [fst andb] in *. unfold credit. rewrite H. destruct (m !! id) as [[n tl]|]; lia.
Qed.

Lemma end_of_ge now reqs : ordered now reqs -> now <= end_of now reqs.
Proof.
  revert now. induction reqs as [|[id [t0 t]] reqs IH]; intros now H; cbn in *; [lia|].
  destruct H as (H & _ & Ho). specialize (IH t Ho). lia.
Qed.

Lemma rate_bounded cap id reqs : forall now m, ordered now reqs ->
  let '(m', os) := spec_requests cap reqs m in
  is_Some (m' !! id) ->
  64 * admitted (project_answers id reqs os) + credit (end_of now reqs) id m' <= credit now id m + 125 * (end_of now reqs - now).
Proof.
  induction reqs as [|[id' [t0 t]] reqs IH]; intros now m Ho; cbn in *; [unfold admitted; cbn; lia|].
  destruct Ho as (Ht & _ & Ho). pose proof (spec_allow_pays cap id id' t0 t now m Ht) as Hp.
  pose proof (over_cap_untracked cap reqs (fst (spec_allow cap id' t0 t m)) id) as Hu.
  pose proof (spec_allow_other cap id' id t0 t m) as Hother. pose proof (fresh_over_cap cap id' t0 t m) as Hc.
  destruct (spec_allow cap id' t0 t m) as [m1 o]. specialize (IH t m1 Ho). cbn [fst] in *. destruct (spec_requests cap reqs m1) as [m2 os].
  cbn [fst] in *. intros Htr. specialize (IH Htr). destruct (Z.eqb_spec id' id) as [->|Hne].
  - cbn [fst] in Hc. destruct (m1 !! id) as [x|] eqn:E; [|destruct Htr as [y Hy]; rewrite (Hu (Hc eq_refl) eq_refl) in Hy; discriminate].
    specialize (Hp ltac:(eauto)). unfold admitted in *. cbn [List.filter andb] in *. destruct (fst o); cbn [length]; lia.
  - assert (E : credit t id m1 = credit t id m) by (unfold credit; rewrite Hother by exact Hne; reflexivity).
    pose proof (credit_later now t id m ltac:(lia)). lia.
Qed.

(** The requests of a tracked project are served as if it were alone. *)
Lemma spec_allow_alone cap id t0 t m : is_Some (fst (spec_allow cap id t0 t m) !! id) ->
  spec_allow 1 id t0 t (one id m) = (one id (fst (spec_allow cap id t0 t m)), snd (spec_allow cap id t0 t m)).
Proof.
  intros H. unfold spec_allow, charge, one in *. destruct (m !! id) as [bk|] eqn:E.
  - rewrite lookup_insert_eq. destruct (_ <=? _); cbn; rewrite lookup_insert_eq, insert_insert_eq; reflexivity.
  - rewrite lookup_empty, map_size_empty. destruct (cap <=? _); cbn [fst snd] in *; [rewrite E in H; destruct H; discriminate|].
    cbn [Z.leb Z.compare Z.of_nat]. destruct (64 <=? _); cbn; rewrite lookup_insert_eq; reflexivity.
Qed.

Lemma served_alone cap id reqs : forall m, let '(m', os) := spec_requests cap reqs m in
  is_Some (m' !! id) -> project_answers id reqs os = snd (spec_requests 1 (only id reqs) (one id m)).
Proof.
  induction reqs as [|[id' [t0 t]] reqs IH]; intros m; cbn; [reflexivity|].
  pose proof (over_cap_untracked cap reqs (fst (spec_allow cap id' t0 t m)) id) as Hu.
  pose proof (fresh_over_cap cap id' t0 t m) as Hc. pose proof (spec_allow_other cap id' id t0 t m) as Hother.
  pose proof (spec_allow_alone cap id' t0 t m) as Ha. destruct (spec_allow cap id' t0 t m) as [m1 o].
  specialize (IH m1). cbn [fst snd] in *. destruct (spec_requests cap reqs m1) as [m2 os]. intros Htr. specialize (IH Htr).
  cbn [fst snd project_answers] in *. destruct (Z.eqb_spec id' id) as [->|Hne].
  - destruct (m1 !! id) as [x|] eqn:E; [|destruct Htr as [y Hy]; rewrite (Hu (Hc eq_refl) eq_refl) in Hy; discriminate].
    cbn [spec_requests]. rewrite (Ha ltac:(eauto)). destruct (spec_requests 1 _ (one id m1)). cbn in *. congruence.
  - rewrite IH. unfold one. rewrite Hother by exact Hne. reflexivity.
Qed.

(** A project that is never tracked is never refused. *)
Lemma untracked_admitted cap id reqs : forall m, let '(m', os) := spec_requests cap reqs m in
  m' !! id = None -> Forall (eq (true, 0)) (project_answers id reqs os).
Proof.
  induction reqs as [|[id' [t0 t]] reqs IH]; intros m; cbn; [constructor|].
  pose proof (spec_requests_tracked cap reqs (fst (spec_allow cap id' t0 t m)) id) as Ht.
  assert (Ha : fst (spec_allow cap id' t0 t m) !! id' = None -> snd (spec_allow cap id' t0 t m) = (true, 0)).
  { unfold spec_allow, charge. destruct (m !! id'); [|destruct (cap <=? _); [reflexivity|]].
    all: destruct (_ <=? _); cbn; rewrite lookup_insert_eq; discriminate. }
  destruct (spec_allow cap id' t0 t m) as [m1 o]. specialize (IH m1). cbn [fst snd] in *.
  destruct (spec_requests cap reqs m1) as [m2 os]. intros Hn. specialize (IH Hn).
  cbn [fst project_answers] in *. destruct (Z.eqb_spec id' id) as [->|_]; [|exact IH].
  constructor; [|exact IH]. symmetry. apply Ha. apply eq_None_not_Some. intros H. specialize (Ht H). rewrite Hn in Ht. destruct Ht; discriminate.
Qed.

(** ** The wait that is suggested *)

(** A rate of one token in [2 ^ j] seconds. *)
Definition one_in (j : Z) : float64 := f_div (f_of_Z 1) (f_of_Z (2 ^ j)).

(** With [n] 64ths of a token in hand, the rest of a token takes this long. *)
Definition until_token (j n : Z) : Z := Z.max Second ((64 - n) * 2 ^ j * (8 * tick)).

Section Wait.
Context (convert_out_of_range : float64 -> Z).
Notation Allow := (Allow convert_out_of_range).

Definition wait_shown (j n : Z) : Z * float64 * bool :=
  (wait_of convert_out_of_range (f_tokens n) (mkLimit (one_in j) (f_of_Z 1)),
   f_add (f_tokens n) (f_mul (Seconds 0) (one_in j)),
   f_le (f_of_Z 1) (f_add (f_tokens n) (f_mul (Seconds (until_token j n)) (one_in j)))).

(** The pairs of an exponent up to 16 and a number of 64ths. *)
Definition slow_limits : list (Z * Z) := map (fun i => (Z.of_nat i / 64, Z.of_nat i mod 64)) (seq 0 1088).

Lemma waits_shown : map (fun x => wait_shown (fst x) (snd x)) slow_limits
  = map (fun x => (until_token (fst x) (snd x), f_tokens (snd x), true)) slow_limits.
Proof. vm_compute. reflexivity. Qed.

Lemma wait_shown_is j n : 0 <= j <= 16 -> 0 <= n < 64 -> wait_shown j n = (until_token j n, f_tokens n, true).
Proof.
  intros Hj Hn. pose proof (f_equal (fun l => l !! Z.to_nat (64 * j + n)) waits_shown) as E. cbn beta in E.
  unfold slow_limits in E. change map with (@fmap list list_fmap) in E.
  rewrite !list_lookup_fmap, lookup_seq_lt in E by lia. cbn [fmap option_fmap option_map fst snd Nat.add] in E.
  apply (inj Some) in E. rewrite Z2Nat.id in E by lia.
  replace ((64 * j + n) / 64) with j in E by (apply (Z.div_unique _ _ _ n); lia).
  replace ((64 * j + n) mod 64) with n in E by (apply (Z.mod_unique _ _ j); lia). exact E.
Qed.

Lemma wait_suffices l id j n k last now0 now1 :
  0 <= j <= 16 -> 0 <= n < 64 -> 1 <= k < 2 ^ 46 ->
  limit_of l id = mkLimit (one_in j) (f_of_Z k) -> b l !! id = Some (mkBucket (f_tokens n) last) ->
  let '(l', o) := Allow id now0 last l in
  o = (false, until_token j n) /\ snd (Allow id now1 (last + until_token j n) l') = (true, 0).
Proof.
  intros Hj Hn Hk Hl Hb. pose proof (wait_shown_is j n Hj Hn) as E. unfold wait_shown in E.
  apply pair_equal_spec in E as [E E3]. apply pair_equal_spec in E as [E1 E2].
  assert (Hu : 0 <= until_token j n < 2 ^ 63).
  { unfold until_token, tick, Second. pose proof (Z.pow_le_mono_r 2 j 16). pose proof (Z.pow_pos_nonneg 2 j). nia. }
  assert (Hburst : rep (f_of_Z k) (k * 2 ^ 6) (-6)) by (apply (rep_refine _ k 6 (-6)); [lia..|]; apply rep_of_Z; lia).
  unfold RateLimit.Allow, refill. rewrite Hl, Hb. cbn [tokens last_ PerSecond Burst].
  replace (time_sub last last) with 0 by (unfold time_sub; lia). rewrite E2.
  rewrite (rep_lt _ _ _ _ _ Hburst (tokens_rep n ltac:(lia))), (proj2 (Z.ltb_ge _ _)) by lia.
  rewrite (rep_le _ _ _ _ _ one_rep (tokens_rep n ltac:(lia))), (proj2 (Z.leb_gt _ _)) by lia.
  split; [rewrite <- E1; reflexivity|].
  unfold limit_of, set_bucket in *. cbn [b limit def]. rewrite Hl, lookup_insert_eq. cbn [tokens last_ PerSecond Burst].
  replace (time_sub (last + until_token j n) last) with (until_token j n) by (unfold time_sub; lia).
  destruct (f_lt _ _); [|rewrite E3; reflexivity].
  rewrite (rep_le _ _ _ _ _ one_rep Hburst), (proj2 (Z.leb_le _ _)) by lia. reflexivity.
Qed.
End Wait.

(** ** Sequences of requests *)
Lemma spec_requests_sound cap reqs : forall now m, sound now m -> 0 <= now -> ordered now reqs ->
  sound (end_of now reqs) (fst (spec_requests cap reqs m)).
Proof.
  induction reqs as [|[id [t0 t]] reqs IH]; intros now m Hs Hn Ho; cbn in *; [exact Hs|]. destruct Ho as (Ht & _ & Ho).
  pose proof (spec_sound cap id t0 t now m Hs Hn Ht) as Hs'. destruct (spec_allow cap id t0 t m) as [m1 o].
  specialize (IH t m1 Hs' ltac:(lia) Ho). destruct (spec_requests cap reqs m1). exact IH.
Qed.

Lemma ordered_from now now' reqs : now' <= now -> ordered now reqs -> ordered now' reqs.
Proof. intros H. destruct reqs as [|[id [t0 t]] reqs]; cbn; [auto|]. intros (Ht & Hb & Ho). repeat split; auto; lia. Qed.

Lemma ordered_only id reqs : forall now, ordered now reqs -> ordered now (only id reqs).
Proof.
  induction reqs as [|[id' [t0 t]] reqs IH]; intros now; cbn; [auto|]. intros (Ht & Hb & Ho).
  destruct (id' =? id); cbn; [auto|]. apply (ordered_from t); [lia|auto].
Qed.

Lemma sound_one now id m : sound now m -> sound now (one id m).
Proof.
  intros H. unfold one. destruct (m !! id) as [x|] eqn:E; [|apply map_Forall_empty].
  apply map_Forall_insert_2; [exact (H id x E)|apply map_Forall_empty].
Qed.

Lemma credit_range now id m : sound now m -> 0 <= credit now id m <= full.
Proof.
  intros H. unfold credit. destruct (m !! id) as [[n t]|] eqn:E; [|unfold full; lia].
  destruct (H id _ E). cbn [fst snd] in *. unfold full in *. lia.
Qed.


(** A limiter with one place, taken by a project with two tokens left: the
    third request of an instant is refused, a sixteenth of a second later the
    next is admitted; the project over the cap is admitted too. *)
Definition example_buckets : buckets := <[7 := (130, 512)]> ∅.
Definition example_requests : list (Z * (Z * Z)) :=
  [(7, (512, 512)); (7, (512, 512)); (8, (512, 512)); (7, (512, 512)); (7, (544, 544))].


(** A burst of a new limiter: 5000 requests at once are admitted, the next is
    told to wait a second. *)
Example burst_then_refused :
  concrete 10000 ∅ = New DefaultLimit 0
  /\ snd (spec_requests 10000 (repeat (7, (512, 512)) 5001) ∅) = repeat (true, 0) 5000 ++ [(false, Second)].
Proof. split; [unfold concrete, New; rewrite fmap_empty; reflexivity|vm_compute; reflexivity]. Qed.

End RateLimit.
