(* ===== verification/Hll.v ===== *)
(** * The HyperLogLog sketch (internal/eventstore/hll.go)

    Registers are bytes, [hllM] of them; HllText.v has their text form. [Estimate] is modelled up to
    [math.Log], which is a parameter. *)
From S2P Require Import Prelude GoFloat Hash.

Module Hll.

Definition hllP : Z := 12.
Definition hllM : nat := 4096.

Abbreviation HLL := (list Z).

Definition NewHLL : HLL := replicate hllM 0.

(** murmur3's 64-bit finalizer. *)
Definition fmix64 (x : Z) : Z :=
  let x := Z.lxor x (Z.shiftr x 33) in
  let x := u64 (x * 0xff51afd7ed558ccd) in
  let x := Z.lxor x (Z.shiftr x 33) in
  let x := u64 (x * 0xc4ceb9fe1a85ec53) in
  Z.lxor x (Z.shiftr x 33).

(** bits.LeadingZeros64. *)
Definition LeadingZeros64 (x : Z) : Z := if x =? 0 then 64 else 63 - Z.log2 x.

Definition hll_hash (s : list byte) : Z := fmix64 (Fnv.fnv64a s).
Definition hll_index (s : list byte) : nat := Z.to_nat (Z.shiftr (hll_hash s) (64 - hllP)).
Definition hll_rank (s : list byte) : Z :=
  LeadingZeros64 (Z.lor (u64 (Z.shiftl (hll_hash s) hllP)) 1) + 1.

(** Add: [h.regs[idx]] is read with Go's bounds check; the index of a 64-bit
    hash is always below [hllM] ([hll_index_lt]). *)
Definition Add (s : list byte) (h : HLL) : HLL :=
  let idx := hll_index s in
  let rank := hll_rank s in
  match h !! idx with
  | Some r => if r <? rank then <[idx := rank]> h else h
  | None => h
  end.

Definition Merge (o h : HLL) : HLL :=
  imap (fun i r => match o !! i with Some v => if r <? v then v else r | None => r end) h.

(** The registers after adding a list of users. *)
Definition add_all (us : list (list byte)) (h : HLL) : HLL := fold_left (fun h u => Add u h) us h.

(** ** Estimate *)
Section Estimate.
Context (math_Log : float64 -> float64).

Definition hllM_f : float64 := f_of_Z 4096.
(** [uint64(1)<<v] is 0 for v >= 64. *)
Definition reg_weight (v : Z) : float64 := f_div (f_of_Z 1) (f_of_Z (u64 (Z.shiftl 1 v))).

(** 0.7213, 1.079 and 2.5*hllM as the literals' binary64 values. *)
Definition c_07213 : float64 := f_div (f_of_Z 7213) (f_of_Z 10000).
Definition c_1079 : float64 := f_div (f_of_Z 1079) (f_of_Z 1000).
Definition alpha : float64 := f_div c_07213 (f_add (f_of_Z 1) (f_div c_1079 hllM_f)).

Definition Estimate (h : HLL) : option Z :=
  let sum := fold_left (fun s v => f_add s (reg_weight v)) h (f_of_Z 0) in
  let zeros := Z.of_nat (length (List.filter (fun v => v =? 0) h)) in
  let e := f_div (f_mul (f_mul alpha hllM_f) hllM_f) sum in
  let e := if f_le e (f_of_Z 10240) && (0 <? zeros)
           then f_mul hllM_f (math_Log (f_div hllM_f (f_of_Z zeros))) else e in
  f_trunc 0 (2 ^ 64) (f_add e (f_div (f_of_Z 1) (f_of_Z 2))).
End Estimate.

(** ** Lemmas *)
Lemma lxor_shiftr_range x n : 0 <= n -> 0 <= x < 2 ^ 64 -> 0 <= Z.lxor x (Z.shiftr x n) < 2 ^ 64.
Proof.
  intros Hn Hx. assert (H0 : 0 <= Z.shiftr x n) by (apply Z.shiftr_nonneg; lia).
  split; [apply Z.lxor_nonneg; lia|].
  destruct (Z.eq_dec (Z.lxor x (Z.shiftr x n)) 0) as [->|Hne]; [lia|].
  apply Z.log2_lt_pow2; [pose proof (proj2 (Z.lxor_nonneg x (Z.shiftr x n))); lia|].
  eapply Z.le_lt_trans; [apply Z.log2_lxor; lia|].
  destruct (Z.eq_dec x 0) as [->|]; [rewrite Z.shiftr_0_l; simpl; lia|].
  assert (Z.log2 x < 64) by (apply Z.log2_lt_pow2; lia).
  assert (Z.log2 (Z.shiftr x n) <= Z.log2 x).
  { apply Z.log2_le_mono. rewrite Z.shiftr_div_pow2 by lia. apply Z.div_le_upper_bound; nia. }
  lia.
Qed.

Lemma fmix64_range x : 0 <= x < 2 ^ 64 -> 0 <= fmix64 x < 2 ^ 64.
Proof. intros Hx. unfold fmix64. apply lxor_shiftr_range; [lia|apply u64_range]. Qed.

Lemma fnv64a_range s : 0 <= Fnv.fnv64a s < 2 ^ 64.
Proof.
  unfold Fnv.fnv64a. assert (H : 0 <= 0xcbf29ce484222325 < 2 ^ 64) by lia. revert H.
  generalize 0xcbf29ce484222325. induction s as [|b s IH]; intros z Hz; [exact Hz|].
  cbn [fold_left]. apply IH, u64_range.
Qed.

Lemma hll_index_lt s : (hll_index s < hllM)%nat.
Proof.
  unfold hll_index, hll_hash. pose proof (fmix64_range _ (fnv64a_range s)) as H.
  rewrite Z.shiftr_div_pow2 by (unfold hllP; lia).
  assert (0 <= fmix64 (Fnv.fnv64a s) / 2 ^ (64 - hllP) < 4096); [|unfold hllM; lia].
  split; [apply Z.div_pos; unfold hllP; lia|apply Z.div_lt_upper_bound; unfold hllP; lia].
Qed.

Lemma hll_rank_range s : 1 <= hll_rank s <= 64.
Proof.
  unfold hll_rank, LeadingZeros64. set (y := u64 _).
  assert (Hy : 0 <= y < 2 ^ 64) by apply u64_range.
  assert (Hl : 0 < Z.lor y 1 < 2 ^ 64).
  { assert (0 <= Z.lor y 1) by (apply Z.lor_nonneg; lia).
    assert (Z.lor y 1 <> 0) by (intros E; apply Z.lor_eq_0_iff in E; lia).
    split; [lia|]. apply Z.log2_lt_pow2; [lia|]. rewrite Z.log2_lor by lia.
    destruct (Z.eq_dec y 0) as [->|]; [simpl; lia|].
    assert (Z.log2 y < 64) by (apply Z.log2_lt_pow2; lia). simpl. lia. }
  rewrite (proj2 (Z.eqb_neq _ _)) by lia.
  assert (Z.log2 (Z.lor y 1) < 64) by (apply Z.log2_lt_pow2; lia).
  pose proof (Z.log2_nonneg (Z.lor y 1)). lia.
Qed.

Definition hll_wf (h : HLL) : Prop := length h = hllM /\ Forall (fun r => 0 <= r <= 64) h.

Lemma NewHLL_wf : hll_wf NewHLL.
Proof. split; [apply length_replicate|]. apply Forall_replicate. lia. Qed.

(** The value a register has after adding [us] to an empty sketch. *)
Definition reg_max (i : nat) (us : list (list byte)) : Z :=
  foldr (fun u m => if (hll_index u =? i)%nat then Z.max (hll_rank u) m else m) 0 us.

Lemma reg_max_cons i u us :
  reg_max i (u :: us) = if (hll_index u =? i)%nat then Z.max (hll_rank u) (reg_max i us) else reg_max i us.
Proof. reflexivity. Qed.

Lemma reg_max_nonneg i us : 0 <= reg_max i us.
Proof.
  induction us as [|u us IH]; [reflexivity|]. rewrite reg_max_cons. destruct (_ =? _)%nat; lia.
Qed.

Lemma length_Add s h : length (Add s h) = length h.
Proof. unfold Add. destruct (h !! _); [|reflexivity]. destruct (_ <? _); [apply length_insert|reflexivity]. Qed.

Lemma Add_lookup s h i r :
  length h = hllM -> h !! i = Some r ->
  Add s h !! i = Some (if (hll_index s =? i)%nat then Z.max (hll_rank s) r else r).
Proof.
  intros Hl Hi. unfold Add. pose proof (hll_index_lt s) as Hlt. rewrite <- Hl in Hlt.
  destruct (lookup_lt_is_Some_2 _ _ Hlt) as [r' Hr']. rewrite Hr'.
  destruct (Nat.eqb_spec (hll_index s) i) as [<-|Hne].
  - assert (r' = r) as -> by congruence. destruct (Z.ltb_spec r (hll_rank s)).
    + rewrite list_lookup_insert_eq by exact Hlt. f_equal. lia.
    + rewrite Hi. f_equal. lia.
  - destruct (_ <? _); [rewrite list_lookup_insert_ne by exact Hne|]; exact Hi.
Qed.

Lemma length_add_all us h : length (add_all us h) = length h.
Proof.
  revert h. induction us as [|u us IH]; intros h; [reflexivity|].
  cbn [add_all fold_left] in *. unfold add_all in IH. rewrite IH. apply length_Add.
Qed.

Lemma add_all_lookup us h i r :
  length h = hllM -> h !! i = Some r -> 0 <= r ->
  add_all us h !! i = Some (Z.max r (reg_max i us)).
Proof.
  revert h r. induction us as [|u us IH]; intros h r Hl Hi Hr.
  - change (reg_max i []) with 0. rewrite Z.max_l by exact Hr. exact Hi.
  - cbn [add_all fold_left]. unfold add_all in IH.
    erewrite IH; [|rewrite length_Add; exact Hl|apply Add_lookup; eassumption|].
    + rewrite reg_max_cons. f_equal. destruct (_ =? _)%nat; lia.
    + destruct (_ =? _)%nat; lia.
Qed.

Lemma Merge_lookup o h i r :
  length o = length h -> h !! i = Some r ->
  exists v, o !! i = Some v /\ Merge o h !! i = Some (Z.max r v).
Proof.
  intros Hl Hi. destruct (lookup_lt_is_Some_2 o i) as [v Hv];
    [rewrite Hl; eapply lookup_lt_Some, Hi|]. exists v. split; [exact Hv|].
  unfold Merge. rewrite list_lookup_imap, Hi. cbn. rewrite Hv. f_equal. zcases.
Qed.

Lemma reg_max_app i us vs : reg_max i (us ++ vs) = Z.max (reg_max i us) (reg_max i vs).
Proof.
  induction us as [|u us IH].
  - change (reg_max i []) with 0. pose proof (reg_max_nonneg i vs). simpl app. lia.
  - simpl app. rewrite !reg_max_cons, IH. destruct (_ =? _)%nat; lia.
Qed.

Lemma reg_max_In i u us : u ∈ us -> reg_max i us = Z.max (reg_max i [u]) (reg_max i us).
Proof.
  induction us as [|v us IH]; intros Hin; [inversion Hin|].
  change (v :: us) with ([v] ++ us). rewrite reg_max_app.
  apply elem_of_cons in Hin as [->|Hin]; [lia|]. rewrite (IH Hin). lia.
Qed.

Lemma reg_max_incl i us vs : us ⊆ vs -> reg_max i us <= reg_max i vs.
Proof.
  intros Hs. induction us as [|u us IH]; [apply reg_max_nonneg|].
  change (u :: us) with ([u] ++ us). rewrite reg_max_app.
  rewrite (reg_max_In i u vs) by (apply Hs; left).
  assert (reg_max i us <= reg_max i vs) by (apply IH; intros x Hx; apply Hs; right; exact Hx). lia.
Qed.

(** Two sketches with the same elements are equal. *)
Lemma add_all_set us vs :
  (forall u, u ∈ us <-> u ∈ vs) -> add_all us NewHLL = add_all vs NewHLL.
Proof.
  intros Heq. apply list_eq. intros i.
  destruct (Nat.lt_ge_cases i hllM) as [Hi|Hi].
  - assert (H0 : NewHLL !! i = Some 0) by (apply lookup_replicate; auto).
    rewrite !(add_all_lookup _ _ _ 0) by (first [apply length_replicate|exact H0|lia]).
    f_equal. f_equal. apply Z.le_antisymm; apply reg_max_incl; intros u; apply Heq.
  - rewrite !lookup_ge_None_2; [reflexivity| |]; rewrite length_add_all; unfold NewHLL;
      rewrite length_replicate; exact Hi.
Qed.

Definition regs_ok (h : HLL) : Prop := length h = hllM /\ Forall (fun r => 0 <= r) h.

Lemma NewHLL_ok : regs_ok NewHLL.
Proof. split; [apply length_replicate|]. apply Forall_replicate. lia. Qed.

Lemma add_all_reg us h i r :
  regs_ok h -> h !! i = Some r -> add_all us h !! i = Some (Z.max r (reg_max i us)).
Proof.
  intros [Hl Hp] Hi. apply add_all_lookup; auto. exact (Forall_lookup_1 _ _ _ _ Hp Hi).
Qed.

Lemma regs_ok_add_all us h : regs_ok h -> regs_ok (add_all us h).
Proof.
  intros Hh. pose proof Hh as [Hl Hp]. split; [rewrite length_add_all; exact Hl|].
  apply Forall_lookup_2. intros i r Hi.
  destruct (lookup_lt_is_Some_2 h i) as [r0 Hr0];
    [rewrite <- (length_add_all us h); eapply lookup_lt_Some, Hi|].
  rewrite (add_all_reg _ _ _ _ Hh Hr0) in Hi. injection Hi as <-.
  pose proof (reg_max_nonneg i us). lia.
Qed.

(** Adding values to a sketch into which their own sketch was merged. *)
Lemma add_all_merged us h :
  regs_ok h -> add_all us (Merge (add_all us NewHLL) h) = add_all us h.
Proof.
  intros Hh. pose proof Hh as [Hl Hp].
  assert (Hlen : length (add_all us NewHLL) = length h)
    by (rewrite length_add_all, Hl; apply length_replicate).
  assert (Hm : regs_ok (Merge (add_all us NewHLL) h)).
  { split; [unfold Merge; rewrite length_imap; exact Hl|]. apply Forall_lookup_2. intros i r Hi.
    destruct (lookup_lt_is_Some_2 h i) as [r0 Hr0];
      [apply lookup_lt_Some in Hi; unfold Merge in Hi; rewrite length_imap in Hi; exact Hi|].
    destruct (Merge_lookup _ _ _ _ Hlen Hr0) as (v & _ & Hv). rewrite Hv in Hi. injection Hi as <-.
    pose proof (Forall_lookup_1 _ _ _ _ Hp Hr0). cbv beta in *. lia. }
  apply list_eq. intros i. destruct (h !! i) as [r|] eqn:Hi.
  - destruct (Merge_lookup _ _ _ _ Hlen Hi) as (v & Hv & Hmv).
    rewrite (add_all_reg _ _ _ _ Hm Hmv), (add_all_reg _ _ _ _ Hh Hi).
    assert (Hn : NewHLL !! i = Some 0)
      by (apply lookup_replicate; split; [reflexivity|rewrite <- Hl; eapply lookup_lt_Some, Hi]).
    rewrite (add_all_reg _ _ _ _ NewHLL_ok Hn) in Hv. injection Hv as <-.
    pose proof (reg_max_nonneg i us). f_equal. lia.
  - apply lookup_ge_None in Hi. rewrite !lookup_ge_None_2; [reflexivity| |];
      rewrite length_add_all; [|unfold Merge; rewrite length_imap]; exact Hi.
Qed.

(** a sketch stands for the set of the values added to it: their order
    and repetitions do not matter, merging the sketches of two collections is
    the sketch of both, and adding values that a merged sketch already holds
    changes nothing. *)
Theorem Merge_is_union us vs :
  Merge (add_all vs NewHLL) (add_all us NewHLL) = add_all (us ++ vs) NewHLL
  /\ (forall ws, (forall u, u ∈ ws <-> u ∈ us \/ u ∈ vs) ->
       add_all ws NewHLL = add_all (us ++ vs) NewHLL)
  /\ add_all us (Merge (add_all us NewHLL) (add_all vs NewHLL))
     = Merge (add_all us NewHLL) (add_all vs NewHLL).
Proof.
  assert (Hlen : forall ws, length (add_all ws NewHLL) = hllM)
    by (intros ws; rewrite length_add_all; apply length_replicate).
  assert (Hreg : forall ws i, (i < hllM)%nat -> add_all ws NewHLL !! i = Some (reg_max i ws)).
  { intros ws i Hi. erewrite (add_all_lookup _ _ _ 0);
      [|apply length_replicate|apply lookup_replicate; auto|lia].
    f_equal. pose proof (reg_max_nonneg i ws). lia. }
  assert (Hm : forall xs ys i, (i < hllM)%nat ->
    Merge (add_all ys NewHLL) (add_all xs NewHLL) !! i = Some (Z.max (reg_max i xs) (reg_max i ys))).
  { intros xs ys i Hi.
    destruct (Merge_lookup (add_all ys NewHLL) _ i _ ltac:(rewrite !Hlen; reflexivity) (Hreg xs i Hi))
      as (v & Hv & ->). rewrite Hreg in Hv by exact Hi. congruence. }
  assert (Hmlen : forall xs ys, length (Merge (add_all ys NewHLL) (add_all xs NewHLL)) = hllM)
    by (intros; unfold Merge; rewrite length_imap; apply Hlen).
  split_and!.
  - apply list_eq. intros i. destruct (Nat.lt_ge_cases i hllM) as [Hi|Hi].
    + rewrite Hm, Hreg, reg_max_app by exact Hi. reflexivity.
    + rewrite !lookup_ge_None_2; [reflexivity| |]; rewrite ?Hlen, ?Hmlen; exact Hi.
  - intros ws Hws. apply add_all_set. intros u. rewrite Hws. set_solver.
  - apply list_eq. intros i. destruct (Nat.lt_ge_cases i hllM) as [Hi|Hi].
    + pose proof (reg_max_nonneg i us) as Hn.
      rewrite (add_all_lookup _ _ i _ (Hmlen _ _) (Hm _ _ i Hi)) by lia.
      rewrite Hm by exact Hi. f_equal. lia.
    + rewrite !lookup_ge_None_2; [reflexivity| |]; rewrite ?length_add_all, ?Hmlen; exact Hi.
Qed.

(** A value whose FNV-1a hash is 0 has rank 64, and Estimate's
    [uint64(1)<<64] is 0, so the sum becomes infinite. *)
Example rank_64 :
  let s := [xd5; x6b; xb9; x53; x42; x87; x08; x36] in
  hll_index s = 0%nat /\ hll_rank s = 64 /\ reg_weight 64 = SpecFloat.S754_infinity false.
Proof. vm_compute. repeat split. Qed.

End Hll.
