(* ===== verification/EventStore.v ===== *)
(** * The columnar event store (internal/eventstore/store.go, query.go,
    aggregate.go)

    A directory maps the path of a segment to its content. A path is the
    (project, hour) pair its partition directory encodes and its file name.
    Parquet is a library: the class [Parquet] says what the code relies on
    (rows are read back in their order, cut into row groups and pages; page
    bounds; Bloom filters without false negatives). Footer values are the
    numbers their decimal strings stand for, [None] when absent or
    unparsable. *)
From S2P Require Import Prelude GoSort GoFloat GoStrings Hash Monad Hll.
#[local] Open Scope Z_scope.
#[local] Open Scope leser_scope.
Import Hll.

Module EventStore.

(** ** Data *)
Definition SchemaVersion : Z := 1.
Definition hourNanos : Z := 3600000000000.

Record Event := mkEvent {
  EventID : string; e_ProjectID : Z; Timestamp : Z; e_Level : string; e_Fingerprint : string;
  e_Release : string; e_Environment : string; e_UserID : string; Message : string;
  Payload : list byte }.

Record Options := mkOptions {
  FlushRows : Z; MaxBufferRows : Z; FlushAge : Z; QueryLimitDefault : Z }.

Definition defaults (o : Options) : Options :=
  let rows := if FlushRows o <=? 0 then 50000 else FlushRows o in
  {| FlushRows := rows;
     MaxBufferRows := if MaxBufferRows o <=? 0 then 2 * rows else MaxBufferRows o;
     FlushAge := if FlushAge o <=? 0 then 10 * 1000000000 else FlushAge o;
     QueryLimitDefault := if QueryLimitDefault o <=? 0 then 10000 else QueryLimitDefault o |}.

Record path := mkPath { p_proj : Z; p_hour : Z; p_name : string }.

#[export] Instance path_eq_dec : EqDecision path.
Proof. solve_decision. Defined.
#[export] Program Instance path_countable : Countable path :=
  inj_countable' (fun p => (p_proj p, p_hour p, p_name p)) (fun '(a, b, c) => mkPath a b c) _.
Next Obligation. intros []. reflexivity. Qed.

(** A segment file: its footer metadata and rows. *)
Record SegFile := mkSegFile {
  f_version : option Z; f_min : option Z; f_max : option Z; f_users : option (list Z);
  f_rows : list Event }.

Record segMeta := mkSegMeta {
  s_path : path; projectID : Z; hour : Z; minTS : Z; maxTS : Z; rows : Z }.

Record Store := mkStore {
  opts : Options; buf : list Event; bufSince : Z; segs : list segMeta; known : gset path;
  flushCount : Z; statSegsTotal : Z; statSegsOpen : Z }.

Inductive es_error :=
  | ErrBufferFull | ErrNoProject | ErrIO | ErrVersion | ErrBounds | ErrVisit.

(** The process and the directory; [io] schedules the outcomes of the system
    calls of writeSegment, true for success, and is success once empty. *)
Record St := mkSt { files : gmap path SegFile; io : list bool; store : Store }.
Definition E := M St es_error.

Definition syscall : E unit := fun s =>
  match io s with
  | [] => (s, inr tt)
  | b :: r => (mkSt (files s) r (store s), if b then inr tt else inl ErrIO)
  end.
Definition set_store (f : Store -> Store) : E unit :=
  modify (fun s => mkSt (files s) (io s) (f (store s))).
Definition set_buf (v : list Event) (s : Store) : Store :=
  mkStore (opts s) v (bufSince s) (segs s) (known s) (flushCount s) (statSegsTotal s) (statSegsOpen s).
Definition set_bufSince (v : Z) (s : Store) : Store :=
  mkStore (opts s) (buf s) v (segs s) (known s) (flushCount s) (statSegsTotal s) (statSegsOpen s).
Definition set_segs (v : list segMeta) (s : Store) : Store :=
  mkStore (opts s) (buf s) (bufSince s) v (known s) (flushCount s) (statSegsTotal s) (statSegsOpen s).
Definition set_known (v : gset path) (s : Store) : Store :=
  mkStore (opts s) (buf s) (bufSince s) (segs s) v (flushCount s) (statSegsTotal s) (statSegsOpen s).
Definition set_flushCount (v : Z) (s : Store) : Store :=
  mkStore (opts s) (buf s) (bufSince s) (segs s) (known s) v (statSegsTotal s) (statSegsOpen s).
Definition add_stats (considered opened : Z) (s : Store) : Store :=
  mkStore (opts s) (buf s) (bufSince s) (segs s) (known s) (flushCount s)
    (u64 (statSegsTotal s + considered)) (u64 (statSegsOpen s + opened)).

(** ** Sorting *)
Definition event_le : relation Event := key_le Timestamp.

(** [a.projectID, a.hour, a.path] in lexicographic order. *)
Definition seg_le (a b : segMeta) : Prop :=
  projectID a < projectID b
  \/ projectID a = projectID b /\ (hour a < hour b
     \/ hour a = hour b /\ String.le (p_name (s_path a)) (p_name (s_path b))).

#[export] Instance seg_le_dec : RelDecision seg_le.
Proof. intros a b. unfold seg_le. apply _. Defined.
#[export] Instance seg_le_total : Total seg_le.
Proof.
  intros a b. unfold seg_le.
  destruct (Z.lt_trichotomy (projectID a) (projectID b)) as [|[|]]; [auto| |auto].
  destruct (Z.lt_trichotomy (hour a) (hour b)) as [|[|]]; [auto 6| |auto 6].
  destruct (total String.le (p_name (s_path a)) (p_name (s_path b))); auto 8.
Qed.
#[export] Instance seg_le_trans : Transitive seg_le.
Proof.
  intros a b c. unfold seg_le. intros [H|[H [H'|[H' H'']]]] [K|[K [K'|[K' K'']]]];
    try (left; lia); right; (split; [lia|]); try (left; lia). right. split; [lia|].
  etransitivity; eassumption.
Qed.

(** ** The Parquet library *)
Inductive column := ColFingerprint | ColRelease | ColUserID.

Definition col_value (c : column) (e : Event) : string :=
  match c with
  | ColFingerprint => e_Fingerprint e | ColRelease => e_Release e | ColUserID => e_UserID e
  end.

Class Parquet := {
  (** How the writer cuts the rows into row groups, and a group into the
      pages of its timestamp column. *)
  row_groups : list Event -> list (list Event);
  row_groups_concat l : concat (row_groups l) = l;
  pages : list Event -> list (list Event);
  pages_concat l : concat (pages l) = l;
  (** The column index of a row group, when it has one: per page the bounds
      of its values. *)
  column_index : list Event -> option (list (Z * Z));
  column_index_ok l ci : column_index l = Some ci ->
    Forall2 (fun b p => Forall (fun e => fst b <= Timestamp e <= snd b) p
      /\ (exists e, e ∈ p /\ Timestamp e = fst b) /\ exists e, e ∈ p /\ Timestamp e = snd b)
      ci (pages l);
  (** BloomFilter().Check: [None] when there is no filter or it fails. *)
  bloom : list Event -> column -> string -> option bool;
  bloom_ok l c v : bloom l c v = Some false -> Forall (fun e => col_value c e <> v) l }.

(** ** query.go *)
Record Query := mkQuery {
  q_ProjectID : Z; TimeMin : Z; TimeMax : Z; q_Level : string; q_Fingerprint : string;
  q_Release : string; q_Environment : string; q_UserID : string; Limit : Z }.

Definition str_ok (want have : string) : bool :=
  bool_decide (want = ""%string) || bool_decide (have = want).

(** match applies the row-level predicate. *)
Definition match_ (q : Query) (e : Event) : bool :=
  if negb (e_ProjectID e =? q_ProjectID q) then false
  else if negb (TimeMin q =? 0) && (Timestamp e <? TimeMin q) then false
  else if negb (TimeMax q =? 0) && (TimeMax q <? Timestamp e) then false
  else if negb (str_ok (q_Level q) (e_Level e)) then false
  else if negb (str_ok (q_Fingerprint q) (e_Fingerprint e)) then false
  else if negb (str_ok (q_Release q) (e_Release e)) then false
  else if negb (str_ok (q_Environment q) (e_Environment e)) then false
  else if negb (str_ok (q_UserID q) (e_UserID e)) then false
  else true.

(** segmentMayMatch prunes on the manifest metadata alone. *)
Definition segmentMayMatch (q : Query) (m : segMeta) : bool :=
  if negb (projectID m =? q_ProjectID q) then false
  else if negb (TimeMin q =? 0) && (maxTS m <? TimeMin q) then false
  else if negb (TimeMax q =? 0) && (TimeMax q <? minTS m) then false
  else true.

Section Store.
Context `{!Parquet} `{!SliceSort event_le} `{!SliceSort seg_le}.

(** Whether the statistics of a row group rule it out. *)
Definition rg_time_skip (q : Query) (rg : list Event) : bool :=
  if negb (TimeMin q =? 0) || negb (TimeMax q =? 0) then
    match column_index rg with
    | Some (b :: bs) =>
        let rgMin := fst b in
        let rgMax := snd (List.last (b :: bs) b) in
        (negb (TimeMax q =? 0) && (TimeMax q <? rgMin))
        || (negb (TimeMin q =? 0) && (rgMax <? TimeMin q))
    | _ => false
    end
  else false.

(** The loop over the Bloom filter columns. *)
Fixpoint bloom_skip (rg : list Event) (cols : list (column * string)) : bool :=
  match cols with
  | [] => false
  | (c, want) :: cols =>
      if bool_decide (want = ""%string) then bloom_skip rg cols
      else match bloom rg c want with
           | Some false => true
           | _ => bloom_skip rg cols
           end
  end.

Definition bloom_cols (q : Query) : list (column * string) :=
  [(ColFingerprint, q_Fingerprint q); (ColRelease, q_Release q); (ColUserID, q_UserID q)].

(** *** Scan

    The callback acts on a state of its own and may fail. *)
Section Scan.
Context {A : Type} (fn : Event -> M A es_error unit).

Fixpoint scan_rows (q : Query) (limit emitted : Z) (l : list Event) : M A es_error Z :=
  match l with
  | [] => ret emitted
  | e :: l =>
      if emitted <? limit then
        if match_ q e then fn e ;; scan_rows q limit (emitted + 1) l
        else scan_rows q limit emitted l
      else ret emitted
  end.

Fixpoint scan_groups (q : Query) (limit emitted : Z) (rgs : list (list Event)) : M A es_error Z :=
  match rgs with
  | [] => ret emitted
  | rg :: rgs =>
      if limit <=? emitted then ret emitted
      else if rg_time_skip q rg then scan_groups q limit emitted rgs
      else if bloom_skip rg (bloom_cols q) then scan_groups q limit emitted rgs
      else let! n := scan_rows q limit emitted rg in scan_groups q limit n rgs
  end.

Definition scanSegment (fs : gmap path SegFile) (m : segMeta) (q : Query) (limit : Z)
    : M A es_error Z :=
  match fs !! s_path m with
  | None => throw ErrIO
  | Some f => scan_groups q limit 0 (row_groups (f_rows f))
  end.

(** The loop over the segments, with the counters it adds to the store's. *)
Fixpoint scan_segs (fs : gmap path SegFile) (q : Query) (limit emitted considered opened : Z)
    (l : list segMeta) (a : A) : A * (es_error + unit) * (Z * Z) :=
  match l with
  | [] => (a, inr tt, (considered, opened))
  | m :: l =>
      let considered := considered + 1 in
      if negb (segmentMayMatch q m) then scan_segs fs q limit emitted considered opened l a
      else if limit <=? emitted then (a, inr tt, (considered, opened))
      else
        let opened := opened + 1 in
        match scanSegment fs m q (limit - emitted) a with
        | (a, inl e) => (a, inl e, (considered, opened))
        | (a, inr n) => scan_segs fs q limit (emitted + n) considered opened l a
        end
  end.

(** The rows of the buffer the query selects, at most [limit]. *)
Definition hot_rows (q : Query) (limit : Z) (l : list Event) : list Event :=
  take (Z.to_nat limit) (List.filter (match_ q) l).

Fixpoint visit (l : list Event) : M A es_error unit :=
  match l with [] => ret tt | e :: l => fn e ;; visit l end.

Definition scan_limit (q : Query) (s : Store) : Z :=
  if Limit q <=? 0 then QueryLimitDefault (opts s) else Limit q.

Definition Scan (q : Query) (fs : gmap path SegFile) (s : Store) (a : A)
    : A * (es_error + unit) * Store :=
  if q_ProjectID q =? 0 then (a, inl ErrNoProject, s)
  else
    let limit := scan_limit q s in
    let hot := hot_rows q limit (buf s) in
    match visit hot a with
    | (a, inl e) => (a, inl e, s)
    | (a, inr _) =>
        let '(a, r, (considered, opened)) :=
          scan_segs fs q limit (Z.of_nat (length hot)) 0 0 (segs s) a in
        (a, r, add_stats considered opened s)
    end.
End Scan.

(** ** store.go *)
Definition Append (events : list Event) (now : Z) : E unit :=
  let! s := get in
  if MaxBufferRows (opts (store s)) <? Z.of_nat (length (buf (store s)) + length events)
  then throw ErrBufferFull
  else
    (match buf (store s) with [] => set_store (set_bufSince now) | _ => ret tt end) ;;
    set_store (fun st => set_buf (buf st ++ events) st).

Definition NeedsFlush (now : Z) (s : Store) : bool :=
  if FlushRows (opts s) <=? Z.of_nat (length (buf s)) then true
  else (0 <? Z.of_nat (length (buf s))) && (FlushAge (opts s) <=? now - bufSince s).

(** The counters and sizes the status page and the tests read. *)
Definition PruneStats (s : Store) : Z * Z := (statSegsTotal s, statSegsOpen s).
Definition SegmentCount (s : Store) : Z := Z.of_nat (length (segs s)).
Definition BufferLen (s : Store) : Z := Z.of_nat (length (buf s)).

(** [Timestamp - Timestamp%hourNanos]: Go's remainder has the sign of the
    dividend. *)
Definition hour_of (t : Z) : Z := t - Z.rem t hourNanos.

Definition part_key (e : Event) : Z * Z := (e_ProjectID e, hour_of (Timestamp e)).

(** The rows of one partition, in their order. *)
Definition part_rows (k : Z * Z) (l : list Event) : list Event :=
  List.filter (fun e => bool_decide (part_key e = k)) l.

(** [fmt.Sprintf("%0*x")] and [%0*d] of a number that fits the width; beyond
    it they are longer. *)
Definition hex_digit (d : Z) : ascii :=
  ascii_of_N (Z.to_N (if d <? 10 then 48 + d else 87 + d)).
Fixpoint num_digits (b : Z) (fuel : nat) (n : Z) (acc : string) : string :=
  match fuel with
  | O => acc
  | S fuel =>
      let acc := String (hex_digit (n mod b)) acc in
      if n / b =? 0 then acc else num_digits b fuel (n / b) acc
  end.
Definition pad0 (width : nat) (s : string) : string :=
  String.concat "" (repeat "0"%string (width - String.length s)) +:+ s.
Definition hex16 (n : Z) : string :=
  if n <? 0 then "-" +:+ pad0 15 (num_digits 16 16 (- n) "") else pad0 16 (num_digits 16 16 n "").

Definition segment_file (minTS flushCount : Z) : string :=
  hex16 minTS +:+ "-" +:+ pad0 6 (num_digits 10 20 flushCount "") +:+ ".parquet".

Definition users_sketch (evs : list Event) : list Z :=
  add_all (omap (fun e => if bool_decide (e_UserID e = ""%string) then None
                          else Some (list_byte_of_string (e_UserID e))) evs) NewHLL.

(** writeSegment: the temporary file is written, synced and renamed over the
    final name; a failure on the way leaves no file under it. *)
Definition writeSegment (proj hr : Z) (evs : list Event) : E segMeta :=
  let evs := sort_slice event_le evs in
  match evs with
  | [] => throw ErrIO (* evs[0] of an empty slice panics; partitions are not empty *)
  | e0 :: _ =>
      let mn := Timestamp e0 in
      let mx := Timestamp (List.last evs e0) in
      syscall (* MkdirAll *) ;;
      (set_store (fun st => set_flushCount (u64 (flushCount st + 1)) st) ;;
       (let! s := get in
        let final := mkPath proj hr (segment_file mn (flushCount (store s))) in
        syscall (* Create *) ;; (syscall (* Write *) ;; (syscall (* writer Close *) ;;
        (syscall (* Sync *) ;; (syscall (* Close *) ;; (syscall (* Rename *) ;;
         (modify (fun s => mkSt (<[final := mkSegFile (Some SchemaVersion) (Some mn) (Some mx)
                                    (Some (users_sketch evs)) evs]> (files s)) (io s) (store s)) ;;
          ret (mkSegMeta final proj hr mn mx (Z.of_nat (length evs)))))))))))
  end.

(** The rows taken from the buffer go back in front of those that arrived
    meanwhile. *)
Definition put_back (all : list Event) : E unit := set_store (fun st => set_buf (all ++ buf st) st).

(** The loop over the partitions, in the order [ks] the Go map yields them. *)
Fixpoint write_parts (all : list Event) (ks : list (Z * Z)) : E (list segMeta) :=
  match ks with
  | [] => ret []
  | k :: ks =>
      let! r := try (writeSegment (fst k) (snd k) (part_rows k all)) in
      match r with
      | inl e => put_back all ;; throw e
      | inr m => let! ms := write_parts all ks in ret (m :: ms)
      end
  end.

Definition register (ms : list segMeta) : E unit :=
  set_store (fun st => set_segs (sort_slice seg_le (segs st ++ ms))
    (set_known (list_to_set (map s_path ms) ∪ known st) st)).

Definition Flush (ks : list (Z * Z)) : E unit :=
  let! s := get in
  let all := buf (store s) in
  set_store (set_buf []) ;;
  match all with
  | [] => ret tt
  | _ => let! ms := write_parts all ks in register ms
  end.

(** readSegmentMeta opens a footer and extracts the pruning metadata. *)
Definition readSegmentMeta (p : path) : E segMeta :=
  let! s := get in
  match files s !! p with
  | None => throw ErrIO
  | Some f =>
      if negb (bool_decide (f_version f = Some SchemaVersion)) then throw ErrVersion
      else match f_min f, f_max f with
           | Some mn, Some mx => ret (mkSegMeta p (p_proj p) (p_hour p) mn mx (Z.of_nat (length (f_rows f))))
           | _, _ => throw ErrBounds
           end
  end.

(** loadSegments and Refresh walk the directory; [walk] lists the paths of its
    segments in the order of the walk. *)
Fixpoint loadSegments (walk : list path) : E unit :=
  match walk with
  | [] => ret tt
  | p :: walk =>
      let! m := readSegmentMeta p in
      set_store (fun st => set_segs (segs st ++ [m]) (set_known ({[p]} ∪ known st) st)) ;;
      loadSegments walk
  end.

Definition Open (o : Options) (walk : list path) : E unit :=
  syscall (* MkdirAll *) ;;
  (set_store (fun _ => mkStore (defaults o) [] 0 [] ∅ 0 0 0) ;; loadSegments walk).

Fixpoint refresh_new (walk : list path) : E (list segMeta) :=
  match walk with
  | [] => ret []
  | p :: walk =>
      let! s := get in
      if bool_decide (p ∈ known (store s)) then refresh_new walk
      else let! m := readSegmentMeta p in let! ms := refresh_new walk in ret (m :: ms)
  end.

Definition Refresh (walk : list path) : E unit :=
  let! ms := refresh_new walk in
  match ms with [] => ret tt | _ => register ms end.

(** ** aggregate.go *)
Record Acc := mkAcc {
  a_total : Z; a_buckets : gmap Z Z; a_level : gmap string Z; a_release : gmap string Z;
  a_environment : gmap string Z; a_fingerprint : gmap string Z; a_users : list Z }.

Definition bump {K} `{Countable K} (k : K) (m : gmap K Z) : gmap K Z :=
  <[k := default 0 (m !! k) + 1]> m.

Definition acc0 : Acc := mkAcc 0 ∅ ∅ ∅ ∅ ∅ NewHLL.

(** The closure [add] of Aggregate. *)
Definition add (bucketNanos : Z) (acc : Acc) (e : Event) : Acc :=
  mkAcc (a_total acc + 1)
    (bump (Timestamp e - Z.rem (Timestamp e) bucketNanos) (a_buckets acc))
    (bump (e_Level e) (a_level acc)) (bump (e_Release e) (a_release acc))
    (bump (e_Environment e) (a_environment acc)) (bump (e_Fingerprint e) (a_fingerprint acc))
    (if bool_decide (e_UserID e = ""%string) then a_users acc
     else Add (list_byte_of_string (e_UserID e)) (a_users acc)).

Definition merge_users (h : list Z) (acc : Acc) : Acc :=
  mkAcc (a_total acc) (a_buckets acc) (a_level acc) (a_release acc) (a_environment acc)
    (a_fingerprint acc) (Merge h (a_users acc)).

Definition wholeSegment (q : Query) (m : segMeta) : bool :=
  ((TimeMin q =? 0) || (TimeMin q <=? minTS m))
  && ((TimeMax q =? 0) || (maxTS m <=? TimeMax q))
  && bool_decide (q_Level q = ""%string) && bool_decide (q_Fingerprint q = ""%string)
  && bool_decide (q_Release q = ""%string) && bool_decide (q_Environment q = ""%string)
  && bool_decide (q_UserID q = ""%string).

(** UnmarshalHLL accepts a decoded sketch of the right size only. *)
Definition footer_sketch (f : SegFile) : option (list Z) :=
  match f_users f with
  | Some h => if (length h =? hllM)%nat then Some h else None
  | None => None
  end.

Definition aggregateSegment (fs : gmap path SegFile) (m : segMeta) (q : Query) (bucketNanos : Z)
    (acc : Acc) : option Acc :=
  match fs !! s_path m with
  | None => None
  | Some f =>
      let acc := if wholeSegment q m
                 then match footer_sketch f with Some h => merge_users h acc | None => acc end
                 else acc in
      Some (fold_left (fun acc e => if match_ q e then add bucketNanos acc e else acc)
              (concat (row_groups (f_rows f))) acc)
  end.

Fixpoint aggregate_segs (fs : gmap path SegFile) (q : Query) (bucketNanos : Z)
    (l : list segMeta) (acc : Acc) : option Acc :=
  match l with
  | [] => Some acc
  | m :: l =>
      if negb (segmentMayMatch q m) then aggregate_segs fs q bucketNanos l acc
      else match aggregateSegment fs m q bucketNanos acc with
           | None => None
           | Some acc => aggregate_segs fs q bucketNanos l acc
           end
  end.

Record Stats := mkStats {
  Total : Z; Buckets : list (Z * Z); TopBy : list (string * list (string * Z));
  UniqueUsers : option Z }.

(** More frequent first, then by key. *)
Definition kv_le (a b : string * Z) : Prop :=
  snd b < snd a \/ snd a = snd b /\ String.le (fst a) (fst b).

#[local] Instance kv_le_dec : RelDecision kv_le.
Proof. intros a b. unfold kv_le. apply _. Defined.

Definition top (topN : Z) (m : gmap string Z) : list (string * Z) :=
  take (Z.to_nat topN)
    (merge_sort kv_le (List.filter (fun kv => negb (bool_decide (fst kv = ""%string))) (map_to_list m))).

Definition finish (math_Log : float64 -> float64) (topN : Z) (acc : Acc) : Stats :=
  mkStats (a_total acc) (merge_sort (key_le fst) (map_to_list (a_buckets acc)))
    [("level", top topN (a_level acc)); ("release", top topN (a_release acc));
     ("environment", top topN (a_environment acc)); ("fingerprint", top topN (a_fingerprint acc))]%string
    (Estimate math_Log (a_users acc)).

(** Aggregate; [None] when a segment cannot be opened. *)
Definition Aggregate (math_Log : float64 -> float64) (q : Query) (bucketNanos topN : Z)
    (fs : gmap path SegFile) (s : Store) : option Stats :=
  let bucketNanos := if bucketNanos <=? 0 then hourNanos else bucketNanos in
  let topN := if (topN <=? 0) || (50 <? topN) then 10 else topN in
  let hot := fold_left (fun acc e => if match_ q e then add bucketNanos acc e else acc) (buf s) acc0 in
  finish math_Log topN <$> aggregate_segs fs q bucketNanos (segs s) hot.

End Store.
End EventStore.
