(* ===== verification/EventStoreProps.v ===== *)
(** * Queries see every row, whatever tier it is in

    The invariant ties the registered segments to the files and their
    metadata to the rows; under it the pruning of [Scan] and the sketch
    merging of [Aggregate] do not change the answer, and [Flush] only moves
    rows. *)
From S2P Require Import Prelude GoSort GoFloat GoStrings Hash Monad Hll EventStore.
#[local] Open Scope Z_scope.
#[local] Open Scope leser_scope.
Import Hll EventStore.

Module EventStoreProps.

(** A system call leaves the files and the store alone and may fail. *)
Lemma syscall_cases s :
  exists r io', syscall s = (mkSt (files s) io' (store s), r) /\ (r = inl ErrIO \/ r = inr tt).
Proof. unfold syscall. destruct s as [fs [|[] io] st]; eauto. Qed.

Ltac step_sys H :=
  match type of H with
  | bind syscall _ ?s = _ =>
      let io' := fresh "io" in let E := fresh "E" in
      destruct (syscall_cases s) as (? & io' & E & [-> | ->]);
      [rewrite (bind_err _ _ _ _ _ E) in H|rewrite (bind_ok _ _ _ _ _ E) in H]; clear E;
      cbn [files store io] in H
  end.

Section Props.
Context `{!Parquet} `{!SliceSort event_le} `{!SliceSort seg_le}.

(** ** The invariant *)
Record seg_ok (fs : gmap path SegFile) (m : segMeta) (f : SegFile) : Prop := {
  so_file : fs !! s_path m = Some f;
  so_path : p_proj (s_path m) = projectID m /\ p_hour (s_path m) = hour m;
  so_footer : f_version f = Some SchemaVersion /\ f_min f = Some (minTS m) /\ f_max f = Some (maxTS m);
  so_users : f_users f = Some (users_sketch (f_rows f));
  so_sorted : StronglySorted event_le (f_rows f);
  so_rows : Forall (fun e => e_ProjectID e = projectID m /\ minTS m <= Timestamp e <= maxTS m) (f_rows f) }.

Definition seg_rows (fs : gmap path SegFile) (m : segMeta) : list Event :=
  match fs !! s_path m with Some f => f_rows f | None => [] end.

Definition segs_ok (fs : gmap path SegFile) (l : list segMeta) : Prop :=
  Forall (fun m => exists f, seg_ok fs m f) l.

(** Every row a query can reach. *)
Definition all_rows (fs : gmap path SegFile) (s : Store) : list Event :=
  buf s ++ concat (map (seg_rows fs) (segs s)).

Definition selected (q : Query) (l : list Event) : list Event := List.filter (match_ q) l.

Lemma selected_app q l1 l2 : selected q (l1 ++ l2) = selected q l1 ++ selected q l2.
Proof. apply List.filter_app. Qed.

Lemma selected_nil q l : Forall (fun e => match_ q e = false) l -> selected q l = [].
Proof. induction 1 as [|e l He Hl IH]; [reflexivity|]. unfold selected in *. cbn. rewrite He. exact IH. Qed.

(** ** match, and why pruning is sound *)
Lemma match_spec q e :
  match_ q e = true <->
  e_ProjectID e = q_ProjectID q
  /\ (TimeMin q = 0 \/ TimeMin q <= Timestamp e) /\ (TimeMax q = 0 \/ Timestamp e <= TimeMax q)
  /\ (q_Level q = ""%string \/ e_Level e = q_Level q)
  /\ (q_Fingerprint q = ""%string \/ e_Fingerprint e = q_Fingerprint q)
  /\ (q_Release q = ""%string \/ e_Release e = q_Release q)
  /\ (q_Environment q = ""%string \/ e_Environment e = q_Environment q)
  /\ (q_UserID q = ""%string \/ e_UserID e = q_UserID q).
Proof.
  assert (Hs : forall w h, str_ok w h = true <-> w = ""%string \/ h = w)
    by (intros; unfold str_ok; rewrite orb_true_iff, !bool_decide_eq_true; reflexivity).
  unfold match_. rewrite <- !Hs.
  destruct (Z.eqb_spec (e_ProjectID e) (q_ProjectID q)); cbn [negb]; [|intuition congruence].
  destruct (Z.eqb_spec (TimeMin q) 0), (Z.eqb_spec (TimeMax q) 0),
    (Z.ltb_spec (Timestamp e) (TimeMin q)), (Z.ltb_spec (TimeMax q) (Timestamp e)); cbn [negb andb];
    try (split; [discriminate|intros (_ & [|] & [|] & _); lia]);
    destruct (str_ok (q_Level q) _), (str_ok (q_Fingerprint q) _), (str_ok (q_Release q) _),
      (str_ok (q_Environment q) _), (str_ok (q_UserID q) _); cbn [negb];
    intuition (try discriminate; try lia).
Qed.

Lemma may_match_sound fs q m f :
  seg_ok fs m f -> segmentMayMatch q m = false -> selected q (f_rows f) = [].
Proof.
  intros [] Hm. apply selected_nil. eapply Forall_impl; [exact so_rows0|]. intros e [Hp Ht].
  apply not_true_iff_false. rewrite match_spec. intros (H1 & H2 & H3 & _).
  unfold segmentMayMatch in Hm. revert Hm.
  rewrite (proj2 (Z.eqb_eq _ _)) by congruence. cbn [negb].
  destruct (Z.eqb_spec (TimeMin q) 0), (Z.eqb_spec (TimeMax q) 0); cbn [negb andb]; zcases; discriminate.
Qed.

Lemma StronglySorted_app_inv {A} (R : relation A) l1 l2 :
  StronglySorted R (l1 ++ l2) -> StronglySorted R l1 /\ StronglySorted R l2
    /\ forall x y, x ∈ l1 -> y ∈ l2 -> R x y.
Proof. rewrite StronglySorted_app. tauto. Qed.

(** The bounds of the first and last page bound a sorted row group. *)
Lemma column_index_bounds rg b bs :
  StronglySorted event_le rg -> column_index rg = Some (b :: bs) ->
  Forall (fun e => fst b <= Timestamp e <= snd (List.last (b :: bs) b)) rg.
Proof.
  intros Hs Hc. pose proof (column_index_ok _ _ Hc) as Hp. rewrite <- (pages_concat rg) in Hs |- *.
  set (bl := List.last (b :: bs) b).
  assert (Hlast : exists bs0, b :: bs = bs0 ++ [bl])
    by (exists (removelast (b :: bs)); apply app_removelast_last; discriminate).
  destruct Hlast as [bs0 Hbl]. apply Forall_and. split.
  - inversion Hp as [|? p ? ps (Hp1 & (e0 & He0 & Hmin) & _) Hps Hb Hpg]; subst.
    rewrite <- Hpg in *. cbn [concat] in *. apply StronglySorted_app_inv in Hs as (_ & _ & Hx).
    apply Forall_app. split; [eapply Forall_impl; [exact Hp1|]; simpl; lia|].
    apply Forall_forall. intros e He. specialize (Hx e0 e He0 He). unfold event_le, key_le in Hx. lia.
  - rewrite Hbl in Hp. apply Forall2_app_inv_l in Hp as (ps & pl & _ & Hpl & Hpg).
    inversion Hpl as [|? p ? nil (Hp1 & _ & (e1 & He1 & Hmax)) Hn]; subst. inversion Hn; subst.
    rewrite Hpg in *. rewrite concat_app in *. cbn [concat] in *. rewrite app_nil_r in *.
    apply StronglySorted_app_inv in Hs as (_ & _ & Hx).
    apply Forall_app. split; [|eapply Forall_impl; [exact Hp1|]; simpl; lia].
    apply Forall_forall. intros e He. specialize (Hx e e1 He He1). unfold event_le, key_le in Hx. lia.
Qed.

Lemma rg_time_skip_sound q rg :
  StronglySorted event_le rg -> rg_time_skip q rg = true -> selected q rg = [].
Proof.
  intros Hs. unfold rg_time_skip. destruct (_ || _); [|discriminate].
  destruct (column_index rg) as [[|b bs]|] eqn:Ec; [discriminate| |discriminate].
  pose proof (column_index_bounds _ _ _ Hs Ec) as Hb. intros Hskip. apply selected_nil.
  eapply Forall_impl; [exact Hb|]. intros e He. apply not_true_iff_false. rewrite match_spec.
  intros (_ & H2 & H3 & _). revert Hskip. cbv zeta.
  destruct (Z.eqb_spec (TimeMin q) 0), (Z.eqb_spec (TimeMax q) 0); cbn [negb andb orb]; try discriminate;
    rewrite ?orb_true_iff, ?orb_false_r, !Z.ltb_lt; cbv beta in He; intuition (try discriminate; lia).
Qed.

Lemma bloom_skip_sound q rg : bloom_skip rg (bloom_cols q) = true -> selected q rg = [].
Proof.
  intros Hsk.
  assert (Hc : exists c v, (c, v) ∈ bloom_cols q /\ v <> ""%string /\ bloom rg c v = Some false).
  { revert Hsk. generalize (bloom_cols q). induction l as [|[c v] l IH]; cbn [bloom_skip]; [discriminate|].
    assert (Hlater : bloom_skip rg l = true ->
      exists c' v', (c', v') ∈ (c, v) :: l /\ v' <> ""%string /\ bloom rg c' v' = Some false).
    { intros Hl. destruct (IH Hl) as (c' & v' & Hin & Hrest). exists c', v'. split; [right|]; assumption. }
    destruct (bool_decide_reflect (v = ""%string)) as [|Hv]; [exact Hlater|].
    destruct (bloom rg c v) as [[]|] eqn:Eb; [exact Hlater| |exact Hlater].
    intros _. exists c, v. split; [left|auto]. }
  destruct Hc as (c & v & Hin & Hv & Hb). apply bloom_ok in Hb. apply selected_nil.
  eapply Forall_impl; [exact Hb|]. intros e He. apply not_true_iff_false. rewrite match_spec.
  intros (_ & _ & _ & _ & H5 & H6 & _ & H8). unfold bloom_cols in Hin.
  rewrite !elem_of_cons in Hin. destruct Hin as [[= -> ->]|[[= -> ->]|[[= -> ->]|Hin]]];
    [..|inversion Hin]; cbn in He; intuition congruence.
Qed.

(** ** Scan *)
Section Scan.
Context {A : Type} (fn : Event -> M A es_error unit).

(** Visit rows and count them. *)
Definition visit_n (l : list Event) (emitted : Z) : M A es_error Z :=
  visit fn l ;; ret (emitted + Z.of_nat (length l)).

Lemma visit_app l1 l2 a : visit fn (l1 ++ l2) a = (visit fn l1 ;; visit fn l2) a.
Proof.
  revert a. induction l1 as [|e l1 IH]; intros a; [reflexivity|]. cbn [visit app].
  rewrite bind_assoc. unfold bind at 1 2. destruct (fn e a) as [a' [err|[]]]; [reflexivity|]. apply IH.
Qed.

Lemma visit_n_app l1 l2 n a :
  visit_n (l1 ++ l2) n a = (let! m := visit_n l1 n in visit_n l2 m) a.
Proof.
  unfold visit_n, bind. rewrite visit_app. unfold bind.
  destruct (visit fn l1 a) as [a1 [e|[]]]; [reflexivity|]. unfold ret.
  destruct (visit fn l2 a1) as [a2 [e|[]]]; [reflexivity|]. rewrite length_app. do 2 f_equal. lia.
Qed.

Lemma visit_n_nil n a : visit_n [] n a = (a, inr n).
Proof. unfold visit_n, bind, ret. cbn. do 2 f_equal. lia. Qed.

Lemma scan_rows_eq q limit l emitted a :
  scan_rows fn q limit emitted l a
  = visit_n (take (Z.to_nat (limit - emitted)) (selected q l)) emitted a.
Proof.
  revert emitted a. induction l as [|e l IH]; intros emitted a; cbn [scan_rows].
  - unfold selected. cbn. rewrite take_nil, visit_n_nil. reflexivity.
  - destruct (Z.ltb_spec emitted limit) as [Hlt|Hge].
    2:{ replace (Z.to_nat (limit - emitted)) with 0%nat by lia. rewrite take_0, visit_n_nil. reflexivity. }
    unfold selected in *. cbn [List.filter]. destruct (match_ q e); [|apply IH].
    replace (Z.to_nat (limit - emitted)) with (S (Z.to_nat (limit - (emitted + 1)))) by lia.
    cbn [take]. unfold visit_n. cbn [visit]. rewrite bind_assoc. unfold bind at 1 2.
    destruct (fn e a) as [a' [err|[]]]; [reflexivity|]. rewrite IH. unfold visit_n, bind, ret.
    destruct (visit fn _ a') as [a2 [err|[]]]; [reflexivity|]. cbn [length]. do 2 f_equal. lia.
Qed.

(** Taking from two runs, counting what the first gave. *)
Lemma visit_take_app limit emitted l1 l2 a :
  visit_n (take (Z.to_nat (limit - emitted)) (l1 ++ l2)) emitted a
  = (let! m := visit_n (take (Z.to_nat (limit - emitted)) l1) emitted in
     visit_n (take (Z.to_nat (limit - m)) l2) m) a.
Proof.
  rewrite take_app, visit_n_app. unfold visit_n at 1 3. unfold bind, ret.
  destruct (visit fn (take _ l1) a) as [a1 [e|[]]]; [reflexivity|].
  rewrite length_take. f_equal. f_equal. lia.
Qed.

Lemma scan_groups_eq q limit rgs emitted a :
  Forall (StronglySorted event_le) rgs ->
  scan_groups fn q limit emitted rgs a
  = visit_n (take (Z.to_nat (limit - emitted)) (selected q (concat rgs))) emitted a.
Proof.
  intros Hs. revert emitted a. induction Hs as [|rg rgs Hrg Hs IH]; intros emitted a; cbn [scan_groups].
  - cbn. rewrite take_nil, visit_n_nil. reflexivity.
  - cbn [concat]. rewrite selected_app. destruct (Z.leb_spec limit emitted) as [Hle|Hgt].
    { replace (Z.to_nat (limit - emitted)) with 0%nat by lia. rewrite take_0, visit_n_nil. reflexivity. }
    destruct (rg_time_skip q rg) eqn:Et; [rewrite (rg_time_skip_sound _ _ Hrg Et); apply IH|].
    destruct (bloom_skip rg (bloom_cols q)) eqn:Eb; [rewrite (bloom_skip_sound _ _ Eb); apply IH|].
    rewrite visit_take_app. unfold bind. rewrite scan_rows_eq.
    destruct (visit_n _ emitted a) as [a1 [e|n]]; [reflexivity|]. apply IH.
Qed.

Lemma row_groups_sorted l :
  StronglySorted event_le l -> Forall (StronglySorted event_le) (row_groups l).
Proof.
  rewrite <- (row_groups_concat l) at 1. induction (row_groups l) as [|rg rgs IH]; [constructor|].
  cbn [concat]. intros (H1 & H2 & _)%StronglySorted_app_inv. constructor; auto.
Qed.

Lemma scanSegment_eq fs m f q limit a :
  seg_ok fs m f ->
  scanSegment fn fs m q limit a
  = visit_n (take (Z.to_nat limit) (selected q (f_rows f))) 0 a.
Proof.
  intros []. unfold scanSegment. rewrite so_file0, scan_groups_eq, row_groups_concat
    by (apply row_groups_sorted; assumption).
  rewrite Z.sub_0_r. reflexivity.
Qed.

Lemma scan_segs_eq fs q limit l emitted c o a :
  segs_ok fs l -> 0 <= emitted ->
  exists c' o', scan_segs fn fs q limit emitted c o l a
    = (visit fn (take (Z.to_nat (limit - emitted)) (selected q (concat (map (seg_rows fs) l)))) a, (c', o')).
Proof.
  intros Hok. revert emitted c o a. induction Hok as [|m l (f & Hm) Hok IH]; intros emitted c o a He.
  - cbn. rewrite take_nil. eauto.
  - assert (Hrows : seg_rows fs m = f_rows f) by (unfold seg_rows; rewrite (so_file _ _ _ Hm); reflexivity).
    cbn [scan_segs map concat]. rewrite selected_app, Hrows.
    destruct (segmentMayMatch q m) eqn:Em; cbn [negb];
      [|rewrite (may_match_sound _ _ _ _ Hm Em); apply IH, He].
    destruct (Z.leb_spec limit emitted) as [Hle|Hgt].
    { replace (Z.to_nat (limit - emitted)) with 0%nat by lia. rewrite take_0. eauto. }
    rewrite (scanSegment_eq _ _ _ _ _ _ Hm), take_app, visit_app.
    set (l1 := take _ (selected q (f_rows f))). unfold visit_n, bind.
    destruct (visit fn l1 a) as [a1 [e|[]]]; [eauto|]. unfold ret.
    destruct (IH (emitted + (0 + Z.of_nat (length l1))) (c + 1) (o + 1) a1) as (c' & o' & ->); [lia|].
    exists c', o'. do 3 f_equal. subst l1. rewrite length_take. f_equal. lia.
Qed.

Lemma Scan_visits q fs s a :
  segs_ok fs (segs s) -> q_ProjectID q <> 0 -> 0 < scan_limit q s ->
  let '(a', r, s') := Scan fn q fs s a in
  visit fn (take (Z.to_nat (scan_limit q s)) (selected q (all_rows fs s))) a = (a', r)
  /\ (s' = s \/ exists considered opened, s' = add_stats considered opened s).
Proof.
  intros Hok Hp Hl. unfold Scan. rewrite (proj2 (Z.eqb_neq _ _) Hp).
  set (limit := scan_limit q s) in *. unfold all_rows. rewrite selected_app, take_app, visit_app.
  unfold hot_rows. fold (selected q (buf s)). unfold bind.
  destruct (visit fn (take (Z.to_nat limit) (selected q (buf s))) a) as [a1 [e|[]]] eqn:Ev; [auto|].
  set (hot := take (Z.to_nat limit) (selected q (buf s))) in *.
  destruct (scan_segs_eq fs q limit (segs s) (Z.of_nat (length hot)) 0 0 a1 Hok ltac:(lia))
    as (c & o & ->).
  replace (Z.to_nat (limit - Z.of_nat (length hot))) with (Z.to_nat limit - length (selected q (buf s)))%nat
    by (subst hot; rewrite length_take; lia).
  destruct (visit fn _ a1) as [a2 r]. eauto.
Qed.

(** C11: a scan visits exactly the rows the query selects, hot rows first and
    then the segments in their order, up to the limit, and stops at the first
    error of the callback: the segment, row group and Bloom filter pruning
    never loses a row. It changes nothing of the store but its pruning
    counters. *)
Theorem Scan_is_filter q fs s a :
  segs_ok fs (segs s) -> q_ProjectID q <> 0 -> 0 < scan_limit q s ->
  let '(a', r, s') := Scan fn q fs s a in
  visit fn (take (Z.to_nat (scan_limit q s)) (selected q (all_rows fs s))) a = (a', r)
  /\ (s' = s \/ exists considered opened, s' = add_stats considered opened s).
Proof. exact (Scan_visits q fs s a). Qed.
(** ** What the counters and the buffer's bound mean *)
Lemma scan_segs_counts fs q limit l : forall emitted c o a,
  let '(_, _, (c', o')) := scan_segs fn fs q limit emitted c o l a in
  c <= c' <= c + Z.of_nat (length l) /\ 0 <= o' - o <= c' - c.
Proof.
  induction l as [|m l IH]; intros emitted c o a; cbn [scan_segs length]; [lia|]. cbv zeta.
  destruct (negb _); [specialize (IH emitted (c + 1) o a); destruct (scan_segs _ _ _ _ _ _ _ _ _) as [[? ?] [? ?]]; lia|].
  destruct (_ <=? _); [lia|]. destruct (scanSegment _ _ _ _ _ _) as [a' [e|n]]; [lia|].
  specialize (IH (emitted + n) (c + 1) (o + 1) a'). destruct (scan_segs _ _ _ _ _ _ _ _ _) as [[? ?] [? ?]]; lia.
Qed.

(** A Scan opens at most the segments it has considered, and considers at most
    those there are. *)
Lemma Scan_counts q fs s a : exists c o, 0 <= o <= c /\ c <= SegmentCount s /\
  let s' := snd (Scan fn q fs s a) in
  SegmentCount s' = SegmentCount s /\ BufferLen s' = BufferLen s
  /\ (s' = s \/ PruneStats s' = (u64 (fst (PruneStats s) + c), u64 (snd (PruneStats s) + o))).
Proof.
  unfold Scan. destruct (_ =? 0).
  { exists 0, 0. unfold SegmentCount. cbn. split_and!; auto; lia. }
  cbv zeta. destruct (visit _ _ a) as [a' [e|[]]].
  { exists 0, 0. unfold SegmentCount. cbn. split_and!; auto; lia. }
  pose proof (scan_segs_counts fs q (scan_limit q s) (segs s) (Z.of_nat (length (hot_rows q (scan_limit q s) (buf s)))) 0 0 a') as Hc.
  destruct (scan_segs _ _ _ _ _ _ _ _ _) as [[a2 r] [c o]]. exists c, o. unfold SegmentCount. cbn. split_and!; auto; lia.
Qed.
End Scan.

(** ** Flush *)
Lemma f_equal_permutation {B C} (f : B -> list C) x y : x = y -> f x ≡ₚ f y.
Proof. intros ->. reflexivity. Qed.

Lemma partition_rows ks : forall l,
  NoDup ks -> (forall e, e ∈ l -> part_key e ∈ ks) ->
  concat (map (fun k => part_rows k l) ks) ≡ₚ l.
Proof.
  induction ks as [|k ks IH]; intros l Hn Hin.
  - destruct l as [|e l]; [reflexivity|]. specialize (Hin e ltac:(left)). inversion Hin.
  - inversion Hn as [|? ? Hk Hn']; subst. cbn [map concat].
    set (l2 := List.filter (fun e => negb (bool_decide (part_key e = k))) l).
    assert (Hsplit : part_rows k l ++ l2 ≡ₚ l).
    { subst l2. unfold part_rows. clear. induction l as [|e l IH]; [reflexivity|]. cbn.
      destruct (bool_decide _); cbn; [rewrite IH; reflexivity|].
      rewrite <- Permutation_middle, IH. reflexivity. }
    transitivity (part_rows k l ++ l2); [|exact Hsplit]. apply Permutation_app_head. rewrite <- (IH l2 Hn').
    + apply (f_equal_permutation (@concat Event)), map_ext_in. intros k' Hk'. unfold part_rows, l2.
      assert (Hne : k' <> k) by (intros ->; apply Hk, list_elem_of_In, Hk').
      clear -Hne. induction l as [|e l IH]; [reflexivity|]. cbn.
      destruct (bool_decide_reflect (part_key e = k')) as [E|E];
        destruct (bool_decide_reflect (part_key e = k)) as [E'|E']; cbn; [congruence|..];
        rewrite ?bool_decide_true, ?bool_decide_false by congruence; rewrite IH; reflexivity.
    + intros e He. subst l2. apply list_elem_of_In, filter_In in He as [He Hne].
      apply negb_true_iff, bool_decide_eq_false in Hne.
      specialize (Hin e (proj2 (list_elem_of_In _ _) He)). apply elem_of_cons in Hin as [|]; [congruence|assumption].
Qed.

(** No file has a name the next flushes of these partitions can choose. *)
Definition fresh (fs : gmap path SegFile) (ks : list (Z * Z)) (fc n : Z) : Prop :=
  forall k mn c, k ∈ ks -> fc < c <= fc + n -> fs !! mkPath (fst k) (snd k) (segment_file mn c) = None.

(** What a process changes of its store while it writes segments. *)
Record same_store (s s' : Store) : Prop := {
  ss_segs : segs s' = segs s; ss_known : known s' = known s; ss_opts : opts s' = opts s;
  ss_count : flushCount s <= flushCount s' <= flushCount s + 1 }.

Lemma seg_ok_mono fs fs' m f : fs ⊆ fs' -> seg_ok fs m f -> seg_ok fs' m f.
Proof. intros Hsub []. constructor; auto. eapply lookup_weaken; eauto. Qed.

Lemma sorted_bounds (l : list Event) e0 l' :
  StronglySorted event_le l -> l = e0 :: l' ->
  Forall (fun e => Timestamp e0 <= Timestamp e <= Timestamp (List.last l e0)) l.
Proof.
  intros Hs ->. assert (Hlast : exists l0, e0 :: l' = l0 ++ [List.last (e0 :: l') e0])
    by (exists (removelast (e0 :: l')); apply app_removelast_last; discriminate).
  destruct Hlast as [l0 Hl]. apply Forall_and. split.
  - inversion Hs as [|? ? _ Hf]; subst. constructor; [lia|exact Hf].
  - set (x := List.last (e0 :: l') e0) in *. rewrite Hl in *.
    apply StronglySorted_app_inv in Hs as (_ & _ & Hx). apply Forall_app.
    split; [|repeat constructor; lia].
    apply Forall_forall. intros e He. apply Hx; [exact He|left].
Qed.

Lemma writeSegment_cases k l s s' r :
  writeSegment (fst k) (snd k) (part_rows k l) s = (s', r) -> part_rows k l <> [] ->
  0 <= flushCount (store s) -> flushCount (store s) + 1 < 2 ^ 64 ->
  fresh (files s) [k] (flushCount (store s)) 1 ->
  same_store (store s) (store s') /\ buf (store s') = buf (store s)
  /\ match r with
     | inl _ => files s' = files s
     | inr m => files s ⊆ files s'
         /\ (forall k' mn c, k' <> k -> files s' !! mkPath (fst k') (snd k') (segment_file mn c)
               = files s !! mkPath (fst k') (snd k') (segment_file mn c))
         /\ exists f, seg_ok (files s') m f /\ f_rows f ≡ₚ part_rows k l
     end.
Proof.
  intros Hw Hne Hc0 Hc Hfresh. unfold writeSegment in Hw.
  pose proof (sort_slice_perm (le := event_le) (part_rows k l)) as Hperm.
  pose proof (sort_slice_sorted (le := event_le) (part_rows k l)) as Hsort.
  set (evs := sort_slice event_le (part_rows k l)) in *.
  destruct evs as [|e0 evs'] eqn:Ee; [apply Permutation_nil_l in Hperm; congruence|].
  rewrite <- Ee in *.
  step_sys Hw.
  { injection Hw as <- <-. split; [constructor; cbn; auto; lia|auto]. }
  unfold bind at 1, set_store at 1, modify at 1 in Hw. cbn [files store io] in Hw.
  unfold bind at 1, get at 1 in Hw. cbn [files store io flushCount set_flushCount] in Hw.
  rewrite u64_small in Hw by lia. set (c := flushCount (store s) + 1) in *.
  assert (Hsame : forall st', st' = set_flushCount c (store s) ->
      same_store (store s) st' /\ buf st' = buf (store s))
    by (intros st' ->; split; [constructor; cbn; auto; lia|reflexivity]).
  do 6 (step_sys Hw; [injection Hw as <- <-; cbn [store files]; split; [apply Hsame; reflexivity|auto]|]).
  unfold bind, modify, ret in Hw. cbn [files store io] in Hw. injection Hw as <- <-.
  cbn [store files]. split; [apply Hsame; reflexivity|]. split; [reflexivity|].
  set (mn := Timestamp e0) in *.
  assert (Hnone : files s !! mkPath (fst k) (snd k) (segment_file mn c) = None)
    by (apply Hfresh; [left|lia]).
  split; [apply insert_subseteq, Hnone|]. split.
  { intros k' mn' c' Hk. apply lookup_insert_ne. intros [= H1 H2 _]. apply Hk. destruct k, k'; cbn in *; congruence. }
  exists (mkSegFile (Some SchemaVersion) (Some mn) (Some (Timestamp (List.last evs e0)))
    (Some (users_sketch evs)) evs).
  split; [|exact Hperm]. constructor; cbn [s_path projectID hour minTS maxTS f_rows f_users f_version f_min f_max p_proj p_hour]; auto.
  - apply lookup_insert_eq.
  - apply Forall_and. split; [|eapply sorted_bounds; eauto].
    rewrite Hperm. apply Forall_forall. intros e He. apply list_elem_of_In, filter_In in He as [_ He].
    apply bool_decide_eq_true in He. unfold part_key in He. destruct k; cbn. congruence.
Qed.

Lemma fresh_sub fs ks ks' fc n fc' n' :
  fresh fs ks fc n -> ks' ⊆ ks -> fc <= fc' -> fc' + n' <= fc + n -> fresh fs ks' fc' n'.
Proof. intros Hf Hk H1 H2 k mn c Hin Hc. apply Hf; [apply Hk, Hin|lia]. Qed.

Lemma write_parts_ok all ks : forall s s' r,
  write_parts all ks s = (s', r) -> NoDup ks -> (forall k, k ∈ ks -> part_rows k all <> []) ->
  0 <= flushCount (store s) -> flushCount (store s) + Z.of_nat (length ks) < 2 ^ 64 ->
  fresh (files s) ks (flushCount (store s)) (Z.of_nat (length ks)) ->
  segs (store s') = segs (store s) /\ known (store s') = known (store s)
  /\ files s ⊆ files s'
  /\ match r with
     | inl _ => buf (store s') = all ++ buf (store s)
     | inr ms => buf (store s') = buf (store s)
         /\ Forall2 (fun k m => exists f, seg_ok (files s') m f /\ f_rows f ≡ₚ part_rows k all) ks ms
     end.
Proof.
  induction ks as [|k ks IH]; intros s s' r Hw Hn Hrows Hc0 Hc Hfresh; cbn [write_parts] in Hw.
  - injection Hw as <- <-. split_and!; auto.
  - inversion Hn as [|? ? Hk Hn']; subst. cbn [length] in *.
    unfold bind at 1, try in Hw.
    destruct (writeSegment (fst k) (snd k) (part_rows k all) s) as [s1 r1] eqn:Ew.
    pose proof (writeSegment_cases _ _ _ _ _ Ew (Hrows k ltac:(left)) Hc0 ltac:(lia)
      ltac:(eapply fresh_sub; [exact Hfresh|intros x Hx; apply list_elem_of_singleton in Hx as ->; left|lia|lia]))
      as (Hsame & Hbuf & Hr).
    destruct Hsame as [Hs1 Hs2 _ Hs4]. destruct r1 as [e|m].
    + unfold bind, put_back, set_store, modify, throw in Hw. injection Hw as <- <-. cbn. rewrite Hbuf, Hr. auto.
    + destruct Hr as (Hsub & Hother & f & Hok & Hperm).
      destruct (write_parts all ks s1) as [s2 r2] eqn:Ep.
      specialize (IH s1 s2 r2 Ep Hn' ltac:(intros; apply Hrows; right; assumption) ltac:(lia) ltac:(lia)).
      destruct IH as (I1 & I2 & I3 & I4).
      { intros k' mn c Hin Hcc. rewrite Hother by (intros ->; contradiction).
        apply Hfresh; [right; exact Hin|lia]. }
      unfold bind, ret in Hw. rewrite Ep in Hw. destruct r2 as [e|ms]; injection Hw as <- <-.
      * split_and!; [congruence..|etransitivity; eassumption|congruence].
      * destruct I4 as [I4 I5]. split_and!; [congruence..|etransitivity; eassumption|congruence|].
        constructor; [|exact I5]. exists f. split; [eapply seg_ok_mono; eassumption|exact Hperm].
Qed.

Lemma concat_perm {B} (l l' : list (list B)) : Forall2 (≡ₚ) l l' -> concat l ≡ₚ concat l'.
Proof. induction 1 as [|x y l l' Hxy Hl IH]; cbn; [reflexivity|]. rewrite Hxy, IH. reflexivity. Qed.

(** The segments of a complete flush hold the rows of the buffer. *)
Lemma written_rows fs ks ms all :
  Forall2 (fun k m => exists f, seg_ok fs m f /\ f_rows f ≡ₚ part_rows k all) ks ms ->
  NoDup ks -> (forall e, e ∈ all -> part_key e ∈ ks) ->
  segs_ok fs ms /\ concat (map (seg_rows fs) ms) ≡ₚ all.
Proof.
  intros Hf2 Hn Hks. split.
  - clear -Hf2. induction Hf2 as [|k m ks ms (f & Hf & _) Hf2 IH]; constructor; eauto.
  - transitivity (concat (map (fun k => part_rows k all) ks)).
    + apply concat_perm. clear -Hf2. induction Hf2 as [|k m ks ms (f & Hf & Hpf) Hf2 IH]; constructor; auto.
      unfold seg_rows. rewrite (so_file _ _ _ Hf). exact Hpf.
    + apply partition_rows; [exact Hn|exact Hks].
Qed.

Lemma seg_rows_weaken fs fs' ms :
  segs_ok fs ms -> fs ⊆ fs' -> map (seg_rows fs') ms = map (seg_rows fs) ms.
Proof.
  intros Hok Hsub. apply map_ext_in. intros m Hm. apply list_elem_of_In in Hm.
  unfold segs_ok in Hok. rewrite Forall_forall in Hok. destruct (Hok m Hm) as (f & [Hf _ _ _ _ _]).
  unfold seg_rows. rewrite Hf, (lookup_weaken _ _ _ _ Hf Hsub). reflexivity.
Qed.

(** Compaction moves rows: whatever system call fails, the buffer and the
    registered segments together hold the same rows as before, and the buffer
    is empty after a success and complete again after a failure. [ks] lists
    the partitions of the buffer in any order; the file names of the flush
    must be unused. *)
Lemma Flush_ok s ks :
  segs_ok (files s) (segs (store s)) -> NoDup ks ->
  (forall k, k ∈ ks <-> exists e, e ∈ buf (store s) /\ part_key e = k) ->
  0 <= flushCount (store s) -> flushCount (store s) + Z.of_nat (length ks) < 2 ^ 64 ->
  fresh (files s) ks (flushCount (store s)) (Z.of_nat (length ks)) ->
  let '(s', r) := Flush ks s in
  segs_ok (files s') (segs (store s'))
  /\ all_rows (files s') (store s') ≡ₚ all_rows (files s) (store s)
  /\ match r with
     | inr _ => buf (store s') = []
     | inl _ => buf (store s') = buf (store s) /\ segs (store s') = segs (store s)
     end.
Proof.
  intros Hok Hn Hks Hc0 Hc Hfresh. unfold Flush. unfold bind at 1, get. cbv zeta.
  unfold bind at 1, set_store at 1, modify at 1. cbn [files io store].
  set (s1 := mkSt (files s) (io s) (set_buf [] (store s))).
  destruct (buf (store s)) as [|e0 l0] eqn:Eall.
  { unfold ret. cbn. split_and!; auto. unfold all_rows. cbn. rewrite Eall. reflexivity. }
  set (all := e0 :: l0) in *. unfold bind.
  destruct (write_parts all ks s1) as [s2 r2] eqn:Ew.
  destruct (write_parts_ok all ks s1 s2 r2 Ew Hn) as (H1 & H2 & H3 & H4); auto.
  { intros k Hk Hnil. apply Hks in Hk as (e & He & Hke).
    assert (e ∈ part_rows k all); [|rewrite Hnil in *; set_solver].
    apply list_elem_of_In, filter_In. split; [apply list_elem_of_In, He|]. apply bool_decide_eq_true, Hke. }
  cbn [s1 files store segs known buf set_buf] in H1, H2, H3, H4.
  pose proof (seg_rows_weaken _ _ _ Hok H3) as Hsr.
  assert (Hok2 : segs_ok (files s2) (segs (store s)))
    by (eapply Forall_impl; [exact Hok|]; intros m (f & Hf); exists f; eapply seg_ok_mono; eauto).
  destruct r2 as [e|ms].
  - split_and!; auto; [rewrite H1; exact Hok2| |rewrite H4, app_nil_r; reflexivity].
    unfold all_rows. rewrite H1, H4, Hsr, app_nil_r, Eall. reflexivity.
  - destruct H4 as [H4 H5]. unfold register, set_store, modify. cbn [files store segs buf set_segs set_known].
    rewrite H1, H4.
    pose proof (sort_slice_perm (le := seg_le) (segs (store s) ++ ms)) as Hp.
    destruct (written_rows _ _ _ _ H5 Hn) as [Hms Hrows]; [intros e He; apply Hks; eauto|].
    split_and!; [unfold segs_ok; rewrite Hp; apply Forall_app; auto| |reflexivity].
    unfold all_rows. cbn [buf segs set_segs set_known]. rewrite H4, Eall. cbn [app]. fold all.
    change (map (seg_rows (files s2))) with (@fmap list _ _ _ (seg_rows (files s2))).
    rewrite Hp. rewrite fmap_app, concat_app. rewrite Permutation_app_comm.
    change (@fmap list _ _ _ (seg_rows (files s2))) with (map (seg_rows (files s2))).
    rewrite Hrows, Hsr. reflexivity.
Qed.

(** ** Aggregate *)
Definition users (l : list Event) : list (list byte) :=
  omap (fun e => if bool_decide (e_UserID e = ""%string) then None
                 else Some (list_byte_of_string (e_UserID e))) l.

Lemma fold_selected q bn l acc :
  fold_left (fun acc e => if match_ q e then add bn acc e else acc) l acc
  = fold_left (add bn) (selected q l) acc.
Proof.
  revert acc. induction l as [|e l IH]; intros acc; [reflexivity|].
  unfold selected in *. cbn. destruct (match_ q e); apply IH.
Qed.

Definition with_users (us : list Z) (acc : Acc) : Acc :=
  mkAcc (a_total acc) (a_buckets acc) (a_level acc) (a_release acc) (a_environment acc)
    (a_fingerprint acc) us.

(** The users of the rows go into the sketch; the rest ignores the sketch. *)
Lemma fold_add_users bn l acc h :
  fold_left (add bn) l (with_users h acc)
  = with_users (add_all (users l) h) (fold_left (add bn) l acc).
Proof.
  revert acc h. induction l as [|e l IH]; intros acc h; [reflexivity|].
  cbn [fold_left users omap list_omap]. unfold users in *. cbn.
  destruct (bool_decide (e_UserID e = ""%string)) eqn:E.
  - rewrite <- IH. f_equal. unfold add. rewrite E. reflexivity.
  - cbn [add_all fold_left]. unfold add_all in *. rewrite <- IH. f_equal. unfold add. rewrite E. reflexivity.
Qed.

Lemma fold_add_own bn l acc :
  a_users (fold_left (add bn) l acc) = add_all (users l) (a_users acc).
Proof.
  assert (Hacc : acc = with_users (a_users acc) acc) by (destruct acc; reflexivity).
  rewrite Hacc at 1. rewrite fold_add_users. reflexivity.
Qed.

(** Every row of a segment inside the window matches. *)
Lemma whole_selected fs q m f :
  seg_ok fs m f -> segmentMayMatch q m = true -> wholeSegment q m = true ->
  selected q (f_rows f) = f_rows f.
Proof.
  intros [] Hm Hw. unfold wholeSegment in Hw. rewrite !andb_true_iff, !orb_true_iff in Hw.
  rewrite !bool_decide_eq_true, !Z.eqb_eq, !Z.leb_le in Hw.
  unfold segmentMayMatch in Hm. destruct (Z.eqb_spec (projectID m) (q_ProjectID q)) as [Hp|]; [|discriminate].
  clear Hm so_sorted0 so_users0. induction so_rows0 as [|e l [He Ht] _ IH]; [reflexivity|].
  unfold selected in *. cbn. rewrite IH.
  assert (Hmatch : match_ q e = true); [|rewrite Hmatch; reflexivity].
  apply match_spec. destruct Hw as [[[[[[H1 H2] H3] H4] H5] H6] H7].
  split_and!; auto; [congruence|destruct H1; [auto|right; lia]|destruct H2; [auto|right; lia]].
Qed.

Lemma aggregateSegment_eq fs q bn m f acc :
  seg_ok fs m f -> segmentMayMatch q m = true -> regs_ok (a_users acc) ->
  aggregateSegment fs m q bn acc = Some (fold_left (add bn) (selected q (f_rows f)) acc).
Proof.
  intros Hok Hm Hr. unfold aggregateSegment. rewrite (so_file _ _ _ Hok), row_groups_concat, fold_selected.
  f_equal. destruct (wholeSegment q m) eqn:Ew; [|reflexivity].
  unfold footer_sketch. rewrite (so_users _ _ _ Hok). unfold users_sketch at 1.
  rewrite length_add_all. unfold NewHLL at 1. rewrite length_replicate, Nat.eqb_refl.
  rewrite (whole_selected _ _ _ _ Hok Hm Ew). set (l := f_rows f).
  change (merge_users (users_sketch l) acc) with (with_users (Merge (users_sketch l) (a_users acc)) acc).
  rewrite fold_add_users. fold (users l). unfold users_sketch. fold (users l).
  rewrite add_all_merged by exact Hr. rewrite <- fold_add_users. f_equal. destruct acc; reflexivity.
Qed.

Lemma aggregate_segs_eq fs q bn l acc :
  segs_ok fs l -> regs_ok (a_users acc) ->
  aggregate_segs fs q bn l acc
  = Some (fold_left (add bn) (selected q (concat (map (seg_rows fs) l))) acc).
Proof.
  intros Hok. revert acc. induction Hok as [|m l (f & Hm) Hok IH]; intros acc Hr; [reflexivity|].
  cbn [aggregate_segs map concat]. rewrite selected_app, fold_left_app.
  assert (Hrows : seg_rows fs m = f_rows f) by (unfold seg_rows; rewrite (so_file _ _ _ Hm); reflexivity).
  rewrite Hrows. destruct (segmentMayMatch q m) eqn:Em; cbn [negb].
  - rewrite (aggregateSegment_eq _ _ _ _ _ _ Hm Em Hr). apply IH.
    rewrite fold_add_own. apply regs_ok_add_all, Hr.
  - rewrite (may_match_sound _ _ _ _ Hm Em). apply IH, Hr.
Qed.

(** C13: an aggregation answers for the rows the query selects, each counted
    once whatever tier it is in: total, time buckets and tag counts are those
    of adding these rows one by one, and so is the sketch of the unique
    users, although whole segments contribute the sketch of their footer. *)
Theorem Aggregate_is_fold math_Log q bucketNanos topN fs s :
  segs_ok fs (segs s) ->
  let bn := if bucketNanos <=? 0 then hourNanos else bucketNanos in
  let tn := if (topN <=? 0) || (50 <? topN) then 10 else topN in
  Aggregate math_Log q bucketNanos topN fs s
  = Some (finish math_Log tn (fold_left (add bn) (selected q (all_rows fs s)) acc0)).
Proof.
  intros Hok bn tn. unfold Aggregate. fold bn tn. rewrite fold_selected.
  rewrite aggregate_segs_eq; [|exact Hok|rewrite fold_add_own; apply regs_ok_add_all, NewHLL_ok].
  unfold all_rows. rewrite selected_app, fold_left_app. reflexivity.
Qed.

(** The buffer never holds more than MaxBufferRows: an Append that would go
    over it is refused and changes nothing. *)
Lemma Append_bounded events now s s' r : Append events now s = (s', r) ->
  BufferLen (store s) <= MaxBufferRows (opts (store s)) ->
  opts (store s') = opts (store s) /\ BufferLen (store s') <= MaxBufferRows (opts (store s'))
  /\ match r with
      | inr _ => BufferLen (store s') = BufferLen (store s) + Z.of_nat (length events)
      | inl e => e = ErrBufferFull /\ s' = s /\ MaxBufferRows (opts (store s)) < BufferLen (store s) + Z.of_nat (length events)
      end.
Proof.
  unfold BufferLen, Append, bind at 1, get. intros He Hb. destruct (Z.ltb_spec (MaxBufferRows (opts (store s))) (Z.of_nat (length (buf (store s)) + length events))).
  - injection He as <- <-. split_and!; auto; lia.
  - destruct s as [fs io st]. cbn [store files] in *. destruct (buf st) eqn:E; injection He as <- <-; cbn; rewrite ?E, ?length_app; cbn; split_and!; auto; cbn in *; lia.
Qed.
End Props.

(** ** A concrete library and store *)

(** One row group, a page per row, exact filters. *)
#[export] Program Instance simple_parquet : Parquet := {|
  row_groups l := [l];
  pages l := map (fun e => [e]) l;
  column_index l := Some (map (fun e => (Timestamp e, Timestamp e)) l);
  bloom l c v := Some (existsb (fun e => bool_decide (col_value c e = v)) l) |}.
Next Obligation. intros l. cbn. apply app_nil_r. Qed.
Next Obligation. intros l. induction l as [|e l IH]; cbn; congruence. Qed.
Next Obligation.
  intros l ci [= <-]. induction l as [|e l IH]; constructor; [|exact IH]. cbn. split_and!.
  - repeat constructor; lia.
  - exists e. split; [left|reflexivity].
  - exists e. split; [left|reflexivity].
Qed.
Next Obligation.
  intros l c v [= H]. apply Forall_forall. intros e He Hv.
  assert (existsb (fun e => bool_decide (col_value c e = v)) l = true); [|congruence].
  apply existsb_exists. exists e. split; [apply list_elem_of_In, He|]. apply bool_decide_eq_true, Hv.
Qed.

Definition ex_event (id : string) (ts : Z) (user : string) : Event :=
  mkEvent id 1 ts "error" "fp" "" "" user "boom" [].
Definition ex_rows : list Event := [ex_event "a" 10 "u1"; ex_event "b" 20 "u2"].
Definition ex_path : path := mkPath 1 0 (segment_file 10 1).
Definition ex_meta : segMeta := mkSegMeta ex_path 1 0 10 20 2.
Definition ex_files : gmap path SegFile :=
  {[ ex_path := mkSegFile (Some 1) (Some 10) (Some 20) (Some (users_sketch ex_rows)) ex_rows ]}.
Definition ex_opts : Options := defaults (mkOptions 0 0 0 0).
Definition ex_store : Store :=
  mkStore ex_opts [ex_event "c" 30 "u1"] 0 [ex_meta] {[ ex_path ]} 1 0 0.
Definition ex_query : Query := mkQuery 1 15 0 "" "fp" "" "" "" 0.

Lemma ex_segs_ok : segs_ok ex_files (segs ex_store).
Proof.
  constructor; [|constructor]. eexists. constructor; try apply lookup_singleton_eq; try reflexivity;
    try (split_and!; reflexivity).
  - repeat constructor; unfold event_le, key_le; cbn; lia.
  - repeat constructor; cbn; lia.
Qed.

(** Collects the rows it is given. *)
Definition collect_row (e : Event) : M (list Event) es_error unit := modify (fun l => l ++ [e]).

Lemma Scan_is_filter_witness :
  let '(a', r, s') := Scan collect_row ex_query ex_files ex_store [] in
  visit collect_row (take (Z.to_nat (scan_limit ex_query ex_store))
    (selected ex_query (all_rows ex_files ex_store))) [] = (a', r)
  /\ (s' = ex_store \/ exists considered opened, s' = add_stats considered opened ex_store).
Proof.
  apply (Scan_is_filter collect_row ex_query ex_files ex_store []);
    [exact ex_segs_ok|discriminate|reflexivity].
Defined.

Lemma Aggregate_is_fold_witness (math_Log := fun x : float64 => x) :
  Aggregate math_Log ex_query 0 0 ex_files ex_store
  = Some (finish math_Log 10 (fold_left (add hourNanos)
      (selected ex_query (all_rows ex_files ex_store)) acc0)).
Proof. apply (Aggregate_is_fold math_Log ex_query 0 0 ex_files ex_store). exact ex_segs_ok. Defined.

(** The flush of a first process, in which the Sync fails. *)
Definition ex_fresh : Store := mkStore ex_opts ex_rows 0 [] ∅ 0 0 0.

(** ** Where the store falls short *)

(** The rows of every file, as a process that opens the directory finds
    them. *)
Definition dir_ids (s : St) : list string :=
  concat (map (fun f => map EventID (f_rows f)) (map_to_list (files s)).*2).

(** A process flushes [first]; the next one, on the same directory, flushes
    [second]; then the ids on disk and those a query of it reaches. *)
Definition two_processes (first second : Event) : list string * list string :=
  let s0 := mkSt ∅ [] ex_fresh in
  let s1 := fst ((Open (mkOptions 0 0 0 0) [] ;; (Append [first] 0 ;; Flush [part_key first])) s0) in
  let walk := (map_to_list (files s1)).*1 in
  let s2 := fst ((Open (mkOptions 0 0 0 0) walk ;; (Append [second] 0 ;; Flush [part_key second])) s1) in
  (dir_ids s2, map EventID (all_rows (files s2) (store s2))).

(** file names are unique within a process only: the counter in them
    restarts at zero, so the first flush after a restart of a partition whose
    earliest row has the same timestamp renames its segment over the one of
    the previous process. The old rows are lost, and the new ones are
    answered twice, because the path is registered twice. *)
Theorem restart_overwrites_segment :
  two_processes (ex_event "old" 10 "u") (ex_event "new" 10 "u") = (["new"], ["new"; "new"])%string.
Proof. vm_compute. reflexivity. Qed.

(** A flush of two partitions whose second segment fails, the retry, and the
    ids on disk. *)
Definition failed_flush_then_retry : list string :=
  let evs := [ex_event "a" 10 "u"; ex_event "b" (10 + hourNanos) "u"] in
  let ks := map part_key evs in
  let s0 := mkSt ∅ (repeat true 7 ++ [false]) (set_buf evs ex_fresh) in
  dir_ids (fst (Flush ks (fst (Flush ks s0)))).

(** a failed flush leaves the segments it already renamed in the
    directory, puts all rows back into the buffer, and the retry writes them
    again under a new name: the directory then holds rows twice, and a
    process that opens or refreshes it answers with both. *)
Theorem failed_flush_duplicates_rows :
  Permutation failed_flush_then_retry ["a"; "a"; "b"]%string.
Proof.
  assert (H : merge_sort String.le failed_flush_then_retry = ["a"; "a"; "b"]%string)
    by (vm_compute; reflexivity).
  rewrite <- H. symmetry. apply merge_sort_Permutation.
Qed.

End EventStoreProps.
