(* ===== verification/EventStoreRun.v ===== *)
(** * The event store over many flushes

    The names of new segments carry the flush counter, so a process that
    starts with unused names keeps them unused. [es_ok] is the invariant a
    running store keeps under Append and Flush, whatever I/O fails. The second
    module takes a flush apart into its steps and lets appends and queries run
    between them. *)
From S2P Require Import Prelude GoSort GoFloat GoStrings Hash Monad Hll EventStore EventStoreProps.
#[local] Open Scope Z_scope.
#[local] Open Scope leser_scope.
Import Hll EventStore EventStoreProps.

Module EventStoreRun.

(** ** The flush counter is in the name *)
Definition dval (c : ascii) : Z := Z.of_nat (nat_of_ascii c) - 48.

Fixpoint seq_of (s : string) (v : Z) : Z :=
  match s with
  | ""%string => v
  | String c s =>
      if bool_decide (c = "-"%char) then seq_of s 0
      else if bool_decide (c = "."%char) then v else seq_of s (v * 10 + dval c)
  end.

Fixpoint no_dot (s : string) : bool :=
  match s with ""%string => true | String c s => negb (bool_decide (c = "."%char)) && no_dot s end.

Lemma seq_of_dash h t v : no_dot h = true -> seq_of (h +:+ String "-" t) v = seq_of t 0.
Proof.
  revert v. induction h as [|c h IH]; intros v; [reflexivity|]. cbn [no_dot].
  intros [Hc Hh]%andb_true_iff. apply negb_true_iff, bool_decide_eq_false in Hc.
  change (seq_of (String c (h +:+ String "-" t)) v = seq_of t 0). cbn [seq_of].
  rewrite (bool_decide_false (c = "."%char)) by exact Hc. destruct (bool_decide _); apply IH, Hh.
Qed.

Lemma hex_digit_code d : 0 <= d < 16 ->
  Z.of_nat (nat_of_ascii (hex_digit d)) = if d <? 10 then 48 + d else 87 + d.
Proof.
  intros H. unfold hex_digit, nat_of_ascii. destruct (Z.ltb_spec d 10);
    rewrite N_ascii_embedding by lia; rewrite N_nat_Z, Z2N.id by lia; reflexivity.
Qed.

Lemma hex_digit_plain d : 0 <= d < 16 -> hex_digit d <> "-"%char /\ hex_digit d <> "."%char.
Proof.
  intros H. pose proof (hex_digit_code d H) as E.
  split; intros E'; rewrite E' in E;
    [change (Z.of_nat (nat_of_ascii "-")) with 45 in E|change (Z.of_nat (nat_of_ascii ".")) with 46 in E];
    revert E; destruct (Z.ltb_spec d 10); lia.
Qed.

Lemma no_dot_digits b fuel : forall n acc, 1 < b <= 16 -> 0 <= n -> no_dot acc = true ->
  no_dot (num_digits b fuel n acc) = true.
Proof.
  induction fuel as [|fuel IH]; intros n acc Hb Hn Ha; cbn [num_digits]; [exact Ha|].
  assert (Hm : 0 <= n mod b < 16) by (pose proof (Z.mod_pos_bound n b); lia).
  assert (no_dot (String (hex_digit (n mod b)) acc) = true).
  { cbn. rewrite Ha, (bool_decide_false (hex_digit (n mod b) = "."%char)) by apply hex_digit_plain, Hm. reflexivity. }
  destruct (_ =? 0); [assumption|]. apply IH; auto. apply Z.div_pos; lia.
Qed.

Lemma no_dot_app s t : no_dot (s +:+ t) = no_dot s && no_dot t.
Proof.
  induction s as [|c s IH]; [reflexivity|].
  change (negb (bool_decide (c = "."%char)) && no_dot (s +:+ t)
    = (negb (bool_decide (c = "."%char)) && no_dot s) && no_dot t). rewrite IH, andb_assoc. reflexivity.
Qed.

Lemma zeros_cons n s : String.concat "" (repeat "0"%string (S n)) +:+ s
  = String "0" (String.concat "" (repeat "0"%string n) +:+ s).
Proof. destruct n; reflexivity. Qed.

Lemma no_dot_pad0 w s : no_dot s = true -> no_dot (pad0 w s) = true.
Proof.
  intros H. unfold pad0. generalize (w - String.length s)%nat. intros n.
  induction n as [|n IH]; [exact H|]. rewrite zeros_cons. exact IH.
Qed.

Lemma no_dot_hex16 n : no_dot (hex16 n) = true.
Proof.
  unfold hex16. destruct (Z.ltb_spec n 0).
  - rewrite no_dot_app. cbn [no_dot andb]. apply no_dot_pad0, no_dot_digits; auto; lia.
  - apply no_dot_pad0, no_dot_digits; auto; lia.
Qed.

Lemma seq_of_digits fuel : forall n t, 0 <= n < 10 ^ Z.of_nat fuel -> (0 < fuel)%nat ->
  seq_of (num_digits 10 fuel n t) 0 = seq_of t n.
Proof.
  induction fuel as [|fuel IH]; intros n t Hn Hf; [lia|]. cbn [num_digits].
  assert (Hm : 0 <= n mod 10 < 10) by (apply Z.mod_pos_bound; lia).
  destruct (hex_digit_plain (n mod 10) ltac:(lia)) as [H1 H2].
  pose proof (hex_digit_code (n mod 10) ltac:(lia)) as Hc. rewrite (proj2 (Z.ltb_lt _ _)) in Hc by lia.
  assert (Hstep : forall v, seq_of (String (hex_digit (n mod 10)) t) v = seq_of t (v * 10 + n mod 10)).
  { intros v. cbn [seq_of]. rewrite !bool_decide_false by assumption. unfold dval. rewrite Hc. f_equal. lia. }
  pose proof (Z.div_mod n 10 ltac:(lia)) as Hd.
  destruct (Z.eqb_spec (n / 10) 0) as [E|E].
  - rewrite Hstep. f_equal. lia.
  - destruct fuel as [|fuel].
    + exfalso. apply E, Z.div_small. cbn in Hn. lia.
    + rewrite IH; [rewrite Hstep; f_equal; lia| |lia]. split; [apply Z.div_pos; lia|].
      apply Z.div_lt_upper_bound; [lia|]. rewrite Nat2Z.inj_succ, Z.pow_succ_r in Hn by lia. lia.
Qed.

Lemma num_digits_app b fuel : forall n acc t, num_digits b fuel n acc +:+ t = num_digits b fuel n (acc +:+ t).
Proof. induction fuel as [|fuel IH]; intros n acc t; cbn; [reflexivity|]. destruct (_ =? 0); [reflexivity|]. apply IH. Qed.

Lemma seq_of_zeros n s : seq_of (String.concat "" (repeat "0"%string n) +:+ s) 0 = seq_of s 0.
Proof. induction n as [|n IH]; [reflexivity|]. rewrite zeros_cons. exact IH. Qed.

(** The counter can be read off the file name. *)
Lemma segment_file_seq mn c : 0 <= c < 2 ^ 64 -> seq_of (segment_file mn c) 0 = c.
Proof.
  intros Hc. unfold segment_file.
  change ("-" +:+ pad0 6 (num_digits 10 20 c "") +:+ ".parquet")
    with (String "-" (pad0 6 (num_digits 10 20 c "") +:+ ".parquet")).
  rewrite seq_of_dash by apply no_dot_hex16. unfold pad0. rewrite app_str_assoc, num_digits_app, seq_of_zeros.
  rewrite seq_of_digits by lia. reflexivity.
Qed.

Lemma segment_file_ne mn c mn' c' :
  0 <= c < 2 ^ 64 -> 0 <= c' < 2 ^ 64 -> c <> c' -> segment_file mn c <> segment_file mn' c'.
Proof.
  intros H H' Hne E. apply Hne. rewrite <- (segment_file_seq mn c H), E. apply segment_file_seq, H'.
Qed.

(** ** Names stay unused *)
Section Run.
Context `{!SliceSort event_le} `{!SliceSort seg_le}.

Definition fresh_from (fs : gmap path SegFile) (fc : Z) : Prop :=
  forall proj hr mn c, fc < c < 2 ^ 64 -> fs !! mkPath proj hr (segment_file mn c) = None.

Lemma fresh_from_fresh fs ks fc n : fresh_from fs fc -> fc + n < 2 ^ 64 -> fresh fs ks fc n.
Proof. intros H Hn k mn c _ Hc. apply H. lia. Qed.

(** What one segment write can do to the counter and the files. *)
Lemma writeSegment_names proj hr evs s s' r :
  writeSegment proj hr evs s = (s', r) -> 0 <= flushCount (store s) -> flushCount (store s) + 1 < 2 ^ 64 ->
  fresh_from (files s) (flushCount (store s)) ->
  fresh_from (files s') (flushCount (store s'))
  /\ flushCount (store s) <= flushCount (store s') <= flushCount (store s) + 1
  /\ opts (store s') = opts (store s).
Proof.
  intros Hw H0 Hc Hf. unfold writeSegment in Hw. destruct (sort_slice event_le evs) as [|e0 l] eqn:Ee.
  { injection Hw as <- <-. split_and!; auto; lia. }
  rewrite <- Ee in *. clear Ee.
  assert (Hmono : fresh_from (files s) (flushCount (store s) + 1)) by (intros ? ? ? ? ?; apply Hf; lia).
  step_sys Hw. { injection Hw as <- <-. cbn. split_and!; auto; lia. }
  unfold bind at 1, set_store at 1, modify at 1 in Hw. cbn [files store EventStore.io] in Hw.
  unfold bind at 1, get at 1 in Hw. cbn [files store EventStore.io flushCount set_flushCount] in Hw.
  rewrite u64_small in Hw by lia.
  do 6 (step_sys Hw; [injection Hw as <- <-; cbn; split_and!; auto; lia|]).
  unfold bind, modify, ret in Hw. injection Hw as <- <-. cbn. split_and!; [|lia|lia|reflexivity].
  intros pr h mn c Hcc. rewrite lookup_insert_ne; [apply Hf; lia|].
  intros [= _ _ E]. revert E. apply segment_file_ne; lia.
Qed.

Lemma write_parts_names all ks : forall s s' r,
  write_parts all ks s = (s', r) -> 0 <= flushCount (store s) ->
  flushCount (store s) + Z.of_nat (length ks) < 2 ^ 64 ->
  fresh_from (files s) (flushCount (store s)) ->
  fresh_from (files s') (flushCount (store s'))
  /\ flushCount (store s) <= flushCount (store s') <= flushCount (store s) + Z.of_nat (length ks)
  /\ opts (store s') = opts (store s).
Proof.
  induction ks as [|k ks IH]; intros s s' r Hw H0 Hc Hf; cbn [write_parts] in Hw.
  { injection Hw as <- <-. split_and!; auto; lia. }
  cbn [length] in Hc. unfold bind at 1, try in Hw.
  destruct (writeSegment (fst k) (snd k) (part_rows k all) s) as [s1 r1] eqn:Ew.
  destruct (writeSegment_names _ _ _ _ _ _ Ew H0 ltac:(lia) Hf) as (F1 & C1 & O1). destruct r1 as [e|m].
  - unfold bind, put_back, set_store, modify, throw in Hw. injection Hw as <- <-. cbn. split_and!; auto; lia.
  - unfold bind, ret in Hw. destruct (write_parts all ks s1) as [s2 r2] eqn:Ep.
    destruct (IH _ _ _ Ep ltac:(lia) ltac:(lia) F1) as (F2 & C2 & O2).
    destruct r2; injection Hw as <- <-; (split_and!; [exact F2|lia|cbn [length]; lia|congruence]).
Qed.

Lemma Flush_names ks s :
  0 <= flushCount (store s) -> flushCount (store s) + Z.of_nat (length ks) < 2 ^ 64 ->
  fresh_from (files s) (flushCount (store s)) ->
  let s' := fst (Flush ks s) in
  fresh_from (files s') (flushCount (store s'))
  /\ flushCount (store s) <= flushCount (store s') <= flushCount (store s) + Z.of_nat (length ks)
  /\ opts (store s') = opts (store s).
Proof.
  intros H0 Hc Hf. cbv zeta. destruct (Flush ks s) as [s' r] eqn:E. cbn [fst].
  unfold Flush in E. unfold bind at 1, get in E. cbv zeta in E.
  unfold bind at 1, set_store at 1, modify at 1 in E. cbn [files store EventStore.io] in E.
  destruct (buf (store s)) as [|e l]; [injection E as <- _; cbn; split_and!; auto; lia|]. unfold bind in E.
  destruct (write_parts _ ks _) as [s2 r2] eqn:Ew.
  destruct (write_parts_names _ _ _ _ _ Ew H0 Hc Hf) as (F & C & O).
  cbn [store flushCount set_buf opts] in C, O.
  destruct r2; [injection E as <- _; auto|]. unfold register, set_store, modify in E. injection E as <- _. cbn. auto.
Qed.

(** ** The invariant of a running store *)
Record es_ok (s : St) : Prop := {
  eo_segs : segs_ok (files s) (segs (store s));
  eo_count : 0 <= flushCount (store s);
  eo_fresh : fresh_from (files s) (flushCount (store s));
  eo_buf : Z.of_nat (length (buf (store s))) <= MaxBufferRows (opts (store s)) }.

(** The rows that are in segments. *)
Definition disk_rows (s : St) : list Event := concat (map (seg_rows (files s)) (segs (store s))).
Definition rows_of (s : St) : list Event := all_rows (files s) (store s).

Lemma rows_of_eq s : rows_of s = buf (store s) ++ disk_rows s.
Proof. reflexivity. Qed.

(** The partitions of the buffer. *)
Definition partitions (s : St) : list (Z * Z) := remove_dups (map part_key (buf (store s))).

Lemma length_partitions (l : list Event) :
  (length (remove_dups (map part_key l)) <= length l)%nat.
Proof.
  induction l as [|e l IH]; [auto|]. cbn. case_decide; simpl; lia.
Qed.

Context `{!MapRange (Z * Z)}.

Lemma Flush_step s s' r :
  Flush (range_keys (partitions s)) s = (s', r) -> es_ok s ->
  flushCount (store s) + MaxBufferRows (opts (store s)) < 2 ^ 64 ->
  es_ok s' /\ rows_of s' ≡ₚ rows_of s /\ opts (store s') = opts (store s)
  /\ flushCount (store s') <= flushCount (store s) + MaxBufferRows (opts (store s))
  /\ disk_rows s ⊆+ disk_rows s'
  /\ match r with
     | inr _ => buf (store s') = []
     | inl _ => buf (store s') = buf (store s)
     end.
Proof.
  intros E [Hsegs H0 Hfresh Hbuf] Hb. set (ks := range_keys (partitions s)) in *.
  pose proof (range_perm (partitions s)) as Hp. fold ks in Hp.
  assert (Hlen : Z.of_nat (length ks) <= MaxBufferRows (opts (store s))).
  { rewrite Hp. pose proof (length_partitions (buf (store s))). unfold partitions. lia. }
  assert (Hn : NoDup ks) by (rewrite Hp; apply NoDup_remove_dups).
  assert (Hks : forall k, k ∈ ks <-> exists e, e ∈ buf (store s) /\ part_key e = k).
  { intros k. rewrite Hp. unfold partitions. rewrite elem_of_remove_dups, list_elem_of_In, in_map_iff.
    setoid_rewrite list_elem_of_In. naive_solver. }
  pose proof (Flush_ok s ks Hsegs Hn Hks H0 ltac:(lia) (fresh_from_fresh _ ks _ (Z.of_nat (length ks)) Hfresh ltac:(lia))) as HF.
  destruct (Flush_names ks s H0 ltac:(lia) Hfresh) as (F1 & F2 & F3). rewrite E in HF, F1, F2, F3. cbn [fst] in *.
  destruct HF as (G1 & G2 & G3).
  assert (Hbuf' : match r with inr _ => buf (store s') = [] | inl _ => buf (store s') = buf (store s) end)
    by (destruct r; [apply G3|exact G3]).
  split_and!; auto; [|lia|].
  - constructor; auto; [lia|]. rewrite F3. destruct r; rewrite Hbuf'; [exact Hbuf|cbn; lia].
  - unfold rows_of, all_rows, disk_rows in *. destruct r as [e|[]].
    + destruct G3 as [Gb Gs]. rewrite Gb in G2. apply Permutation_app_inv_l in G2. rewrite G2. reflexivity.
    + rewrite G3 in G2. cbn [app] in G2. rewrite G2. apply submseteq_inserts_l. reflexivity.
Qed.

Lemma Append_step e now s :
  es_ok s ->
  match Append [e] now s with
  | (s', inr _) => es_ok s' /\ rows_of s' ≡ₚ rows_of s ++ [e] /\ opts (store s') = opts (store s)
      /\ flushCount (store s') = flushCount (store s) /\ disk_rows s' = disk_rows s
  | (s', inl err) => s' = s /\ err = ErrBufferFull
  end.
Proof.
  intros [Hsegs H0 Hfresh Hbuf]. unfold Append, bind at 1, get.
  destruct (Z.ltb_spec (MaxBufferRows (opts (store s))) (Z.of_nat (length (buf (store s)) + length [e]))) as [|Hle];
    [split; reflexivity|].
  assert (Hrun : forall st, buf st = buf (store s) -> segs st = segs (store s) -> opts st = opts (store s) ->
    flushCount st = flushCount (store s) ->
    es_ok (mkSt (files s) (EventStore.io s) (set_buf (buf st ++ [e]) st))
    /\ rows_of (mkSt (files s) (EventStore.io s) (set_buf (buf st ++ [e]) st)) ≡ₚ rows_of s ++ [e]).
  { intros st E1 E2 E3 E4. split.
    - constructor; cbn; rewrite ?E1, ?E2, ?E3, ?E4; auto. rewrite length_app. simpl in *. lia.
    - unfold rows_of, all_rows. cbn. rewrite E1, E2, <- app_assoc. rewrite (Permutation_app_comm [e]), app_assoc. reflexivity. }
  unfold bind, set_store, modify, ret. destruct (buf (store s)) as [|b l] eqn:Eb; cbn [store files EventStore.io].
  - destruct (Hrun (set_bufSince now (store s))) as [R1 R2]; [cbn; auto..|]. cbn in *. split_and!; auto.
  - destruct (Hrun (store s)) as [R1 R2]; [auto..|]. rewrite Eb in *. split_and!; auto.
Qed.
End Run.

End EventStoreRun.

(** ** Queries while a flush is under way

    A flush takes the rows under the lock, writes its segments without it and
    registers them under it; appends and queries go on between these steps,
    and a query reads its segments one by one after its snapshot. A step is
    what happens under one hold of the lock, or the reading or writing of one
    segment. *)
Module EventStoreConc.
Import EventStoreRun.

(** The flush under way: its rows, the partitions to write, the segments
    written. *)
Record flight := mkFlight { fl_rows : list Event; fl_ks : list (Z * Z); fl_ms : list segMeta }.

(** A query: what is left to read, what its callback got; [sc_seen] and
    [sc_missed] record what its snapshot could reach and the rows that were
    with the flush. *)
Record scan := mkScan {
  sc_q : Query; sc_limit : Z; sc_emitted : Z; sc_segs : list segMeta; sc_rows : list Event;
  sc_considered : Z; sc_opened : Z; sc_end : option (es_error + unit);
  sc_seen : list Event; sc_missed : list Event; sc_arrived : list Event }.

Record Sys := mkSys { st : St; flying : option flight; arrived : list Event; scans : list scan }.

Definition flying_rows (s : Sys) : list Event := match flying s with Some f => fl_rows f | None => [] end.
Definition set_st (x : St) (s : Sys) : Sys := mkSys x (flying s) (arrived s) (scans s).

Section Conc.
Context `{!Parquet} `{!SliceSort event_le} `{!SliceSort seg_le} `{!MapRange (Z * Z)}.

(** The snapshot, and the visit of the buffer's rows. *)
Definition start_scan (q : Query) (s : Sys) : scan :=
  let limit := scan_limit q (store (st s)) in
  let hot := hot_rows q limit (buf (store (st s))) in
  mkScan q limit (Z.of_nat (length hot)) (segs (store (st s))) hot 0 0 None
    (rows_of (st s)) (flying_rows s) (arrived s).

(** One turn of the loop over the segments, on the files there are now. *)
Definition scan_turn (fs : gmap path SegFile) (c : scan) : scan :=
  match sc_segs c with
  | [] => mkScan (sc_q c) (sc_limit c) (sc_emitted c) [] (sc_rows c) (sc_considered c) (sc_opened c) (Some (inr tt))
            (sc_seen c) (sc_missed c) (sc_arrived c)
  | m :: l =>
      let go emitted l rows opened e :=
        mkScan (sc_q c) (sc_limit c) emitted l rows (sc_considered c + 1) opened e (sc_seen c) (sc_missed c) (sc_arrived c) in
      if negb (segmentMayMatch (sc_q c) m) then go (sc_emitted c) l (sc_rows c) (sc_opened c) None
      else if sc_limit c <=? sc_emitted c then go (sc_emitted c) l (sc_rows c) (sc_opened c) (Some (inr tt))
      else match scanSegment collect_row fs m (sc_q c) (sc_limit c - sc_emitted c) (sc_rows c) with
           | (rows, inl e) => go (sc_emitted c) l rows (sc_opened c + 1) (Some (inl e))
           | (rows, inr n) => go (sc_emitted c + n) l rows (sc_opened c + 1) None
           end
  end.

(** A segment that cannot be read ends the query. *)
Definition failed_scan (c : scan) : scan :=
  mkScan (sc_q c) (sc_limit c) (sc_emitted c) [] (sc_rows c) (sc_considered c) (sc_opened c) (Some (inl ErrIO))
    (sc_seen c) (sc_missed c) (sc_arrived c).

Inductive step : Sys -> Sys -> Prop :=
  | s_append s e now x r : Append [e] now (st s) = (x, r) ->
      step s (mkSys x (flying s) (match r with inr _ => arrived s ++ [e] | inl _ => arrived s end) (scans s))
  | s_take s : flying s = None -> buf (store (st s)) <> [] ->
      step s (mkSys (mkSt (files (st s)) (EventStore.io (st s)) (set_buf [] (store (st s))))
        (Some (mkFlight (buf (store (st s))) (range_keys (partitions (st s))) [])) (arrived s) (scans s))
  | s_write s all k ks ms x m : flying s = Some (mkFlight all (k :: ks) ms) ->
      writeSegment (fst k) (snd k) (part_rows k all) (st s) = (x, inr m) ->
      step s (mkSys x (Some (mkFlight all ks (ms ++ [m]))) (arrived s) (scans s))
  | s_fail s all k ks ms x x' e r : flying s = Some (mkFlight all (k :: ks) ms) ->
      writeSegment (fst k) (snd k) (part_rows k all) (st s) = (x, inl e) ->
      put_back all x = (x', r) ->
      step s (mkSys x' None (arrived s) (scans s))
  | s_register s all ms x r : flying s = Some (mkFlight all [] ms) -> register ms (st s) = (x, r) ->
      step s (mkSys x None (arrived s) (scans s))
  | s_query s q : q_ProjectID q <> 0 -> step s (mkSys (st s) (flying s) (arrived s) (scans s ++ [start_scan q s]))
  | s_turn s i c : scans s !! i = Some c -> sc_end c = None ->
      step s (mkSys (st s) (flying s) (arrived s) (<[i := scan_turn (files (st s)) c]> (scans s)))
  | s_unreadable s i c : scans s !! i = Some c -> sc_end c = None ->
      step s (mkSys (st s) (flying s) (arrived s) (<[i := failed_scan c]> (scans s)))
  | s_stats s i c e : scans s !! i = Some c -> sc_end c = Some e ->
      step s (set_st (mkSt (files (st s)) (EventStore.io (st s)) (add_stats (sc_considered c) (sc_opened c) (store (st s)))) s).

Inductive steps : nat -> Sys -> Sys -> Prop :=
  | steps_O s : steps 0 s s
  | steps_S n s s1 s2 : steps n s s1 -> step s1 s2 -> steps (S n) s s2.

(** *** The steps as a function of an operation, for evaluation *)
Inductive op := OAppend (e : Event) (now : Z) | OFlush | OQuery (q : Query) | OTurn (i : nat).

Definition flush_op (s : Sys) : Sys :=
  match flying s with
  | None =>
      match buf (store (st s)) with
      | [] => s
      | _ => mkSys (mkSt (files (st s)) (EventStore.io (st s)) (set_buf [] (store (st s))))
               (Some (mkFlight (buf (store (st s))) (range_keys (partitions (st s))) [])) (arrived s) (scans s)
      end
  | Some (mkFlight all [] ms) => mkSys (fst (register ms (st s))) None (arrived s) (scans s)
  | Some (mkFlight all (k :: ks) ms) =>
      match writeSegment (fst k) (snd k) (part_rows k all) (st s) with
      | (x, inr m) => mkSys x (Some (mkFlight all ks (ms ++ [m]))) (arrived s) (scans s)
      | (x, inl e) => mkSys (fst (put_back all x)) None (arrived s) (scans s)
      end
  end.

Definition run_op (o : op) (s : Sys) : Sys :=
  match o with
  | OAppend e now =>
      let '(x, r) := Append [e] now (st s) in
      mkSys x (flying s) (match r with inr _ => arrived s ++ [e] | inl _ => arrived s end) (scans s)
  | OFlush => flush_op s
  | OQuery q => if q_ProjectID q =? 0 then s else mkSys (st s) (flying s) (arrived s) (scans s ++ [start_scan q s])
  | OTurn i =>
      match scans s !! i with
      | Some c => match sc_end c with
                  | None => mkSys (st s) (flying s) (arrived s) (<[i := scan_turn (files (st s)) c]> (scans s))
                  | Some _ => s
                  end
      | None => s
      end
  end.

Lemma flush_op_steps s : flush_op s = s \/ step s (flush_op s).
Proof.
  unfold flush_op. destruct (flying s) as [[all [|k ks] ms]|] eqn:Ef.
  - right. destruct (register ms (st s)) as [x r] eqn:E. eapply s_register; eauto.
  - right. destruct (writeSegment _ _ _ _) as [x [e|m]] eqn:E; [|eapply s_write; eauto].
    destruct (put_back all x) as [x' r] eqn:Ep. eapply s_fail; eauto.
  - destruct (buf (store (st s))) eqn:Eb; [auto|]. right. rewrite <- Eb. apply s_take; [exact Ef|congruence].
Qed.

Lemma run_op_steps o s : run_op o s = s \/ step s (run_op o s).
Proof.
  destruct o as [e now| |q|i]; cbn [run_op].
  - destruct (Append [e] now (st s)) as [x r] eqn:E. right. eapply s_append; eauto.
  - apply flush_op_steps.
  - destruct (Z.eqb_spec (q_ProjectID q) 0); [auto|]. right. apply s_query. assumption.
  - destruct (scans s !! i) as [c|] eqn:Ei; [|auto]. destruct (sc_end c) eqn:Ee; [auto|]. right. eapply s_turn; eauto.
Qed.

Lemma run_ops_steps l : forall s, exists n, (n <= length l)%nat /\ steps n s (fold_left (fun s o => run_op o s) l s).
Proof.
  assert (Hcons : forall n s s1 s2, step s s1 -> steps n s1 s2 -> steps (S n) s s2).
  { intros n s s1 s2 E Hs. induction Hs as [s1|n s1 s2 s3 _ IH E']; [econstructor; [constructor|exact E]|]. econstructor; eauto. }
  induction l as [|o l IH]; intros s; cbn [fold_left]; [exists 0%nat; split; [auto|constructor]|].
  destruct (IH (run_op o s)) as (n & Hn & Hs). destruct (run_op_steps o s) as [E|E].
  - exists n. rewrite E in Hs at 1. split; [cbn; lia|exact Hs].
  - exists (S n). split; [cbn; lia|]. eapply Hcons; eauto.
Qed.

(** ** The invariant *)
Definition flight_ok (fs : gmap path SegFile) (f : flight) : Prop :=
  exists done, NoDup (done ++ fl_ks f) /\ (forall k, k ∈ done ++ fl_ks f <-> exists e, e ∈ fl_rows f /\ part_key e = k)
    /\ Forall2 (fun k m => exists g, seg_ok fs m g /\ f_rows g ≡ₚ part_rows k (fl_rows f)) done (fl_ms f).

(** A query has what it is to have of the snapshot, so far. *)
Record scan_ok (fs : gmap path SegFile) (c : scan) : Prop := {
  so_segs : segs_ok fs (sc_segs c);
  so_limit : 0 < sc_limit c -> sc_emitted c = Z.of_nat (length (sc_rows c));
  so_rest : 0 < sc_limit c -> match sc_end c with
    | None => sc_rows c ++ take (Z.to_nat (sc_limit c - sc_emitted c)) (selected (sc_q c) (concat (map (seg_rows fs) (sc_segs c))))
              = take (Z.to_nat (sc_limit c)) (selected (sc_q c) (sc_seen c))
    | Some (inr _) => sc_rows c = take (Z.to_nat (sc_limit c)) (selected (sc_q c) (sc_seen c))
    | Some (inl _) => True end;
  so_all : sc_seen c ++ sc_missed c ≡ₚ sc_arrived c }.

Record inv (n : Z) (s : Sys) : Prop := {
  i_segs : segs_ok (files (st s)) (segs (store (st s)));
  i_count : 0 <= flushCount (store (st s)) <= n;
  i_fresh : fresh_from (files (st s)) (flushCount (store (st s)));
  i_flight : match flying s with Some f => flight_ok (files (st s)) f | None => True end;
  i_rows : rows_of (st s) ++ flying_rows s ≡ₚ arrived s;
  i_scans : Forall (scan_ok (files (st s))) (scans s) }.

Lemma Append_cases e now x x' r : Append [e] now x = (x', r) ->
  files x' = files x /\ segs (store x') = segs (store x) /\ flushCount (store x') = flushCount (store x)
  /\ match r with inr _ => buf (store x') = buf (store x) ++ [e] | inl _ => x' = x end.
Proof.
  unfold Append, bind, get. destruct (_ <? _); [intros [= <- <-]; auto|].
  unfold set_store, modify, ret. destruct (buf (store x)) as [|b l] eqn:E; intros [= <- <-]; cbn; rewrite ?E; auto.
Qed.

Lemma visit_collect l : forall a, visit collect_row l a = (a ++ l, inr tt).
Proof.
  induction l as [|e l IH]; intros a; cbn [visit]; [rewrite app_nil_r; reflexivity|].
  unfold bind, collect_row, modify. fold collect_row. rewrite IH, <- app_assoc. reflexivity.
Qed.

Lemma segs_ok_mono fs fs' l : fs ⊆ fs' -> segs_ok fs l -> segs_ok fs' l.
Proof. intros Hs Hl. eapply Forall_impl; [exact Hl|]. intros m (f & Hf). exists f. eapply seg_ok_mono; eauto. Qed.

Lemma scan_ok_mono fs fs' c : fs ⊆ fs' -> scan_ok fs c -> scan_ok fs' c.
Proof.
  intros Hs [H1 H2 H3 H4]. split; auto; [eapply segs_ok_mono; eauto|]. rewrite (seg_rows_weaken _ _ _ H1 Hs). exact H3.
Qed.

Lemma scan_ok_start fs q s : files (st s) = fs -> segs_ok fs (segs (store (st s))) ->
  rows_of (st s) ++ flying_rows s ≡ₚ arrived s -> scan_ok fs (start_scan q s).
Proof.
  intros <- H1 H2. split; [exact H1|reflexivity| |exact H2].
  intros Hl. cbn [start_scan sc_end sc_rows sc_limit sc_emitted sc_segs sc_q sc_seen] in *.
  unfold rows_of, all_rows. rewrite selected_app, take_app. unfold hot_rows. fold (selected q (buf (store (st s)))).
  f_equal. f_equal. rewrite length_take. lia.
Qed.

Lemma scan_ok_turn fs c : scan_ok fs c -> sc_end c = None -> scan_ok fs (scan_turn fs c).
Proof.
  intros [H1 H2 H3 H4] He. rewrite He in H3. unfold scan_turn.
  destruct (sc_segs c) as [|m l] eqn:El.
  { split; cbn [sc_segs sc_limit sc_emitted sc_rows sc_end sc_q sc_seen sc_missed sc_arrived]; auto. intros Hl. specialize (H3 Hl).
    cbn in H3. rewrite take_nil, app_nil_r in H3. exact H3. }
  inversion H1 as [|? ? (f & Hf) Hok]; subst. cbn [map concat] in H3.
  assert (Hrows : seg_rows fs m = f_rows f) by (unfold seg_rows; rewrite (so_file _ _ _ Hf); reflexivity).
  destruct (segmentMayMatch (sc_q c) m) eqn:Em; cbn [negb].
  2: { split; cbn [sc_segs sc_limit sc_emitted sc_rows sc_end sc_q sc_seen sc_missed sc_arrived]; auto. intros Hl. rewrite <- (H3 Hl), selected_app, Hrows, (may_match_sound _ _ _ _ Hf Em). reflexivity. }
  destruct (Z.leb_spec (sc_limit c) (sc_emitted c)) as [Hle|Hgt].
  { split; cbn [sc_segs sc_limit sc_emitted sc_rows sc_end sc_q sc_seen sc_missed sc_arrived]; auto. intros Hl. rewrite <- (H3 Hl). replace (Z.to_nat _) with 0%nat by lia. rewrite take_0, app_nil_r. reflexivity. }
  rewrite (scanSegment_eq collect_row _ _ _ _ _ _ Hf). unfold visit_n, bind. rewrite visit_collect. unfold ret. cbv iota beta zeta.
  set (got := take _ (selected _ (f_rows f))).
  split; cbn [sc_segs sc_limit sc_emitted sc_rows sc_end sc_q sc_seen sc_missed sc_arrived]; auto.
  - intros Hl. rewrite length_app, (H2 Hl). lia.
  - intros Hl. rewrite <- (H3 Hl), selected_app, Hrows, take_app, <- app_assoc. do 2 f_equal. f_equal.
    unfold got. rewrite length_take. lia.
Qed.

Lemma flight_ok_mono fs fs' f : fs ⊆ fs' -> flight_ok fs f -> flight_ok fs' f.
Proof.
  intros Hs (done & H1 & H2 & H3). exists done. split_and!; auto. eapply Forall2_impl; [exact H3|].
  intros k m (g & Hg & Hp). exists g. split; [eapply seg_ok_mono; eauto|exact Hp].
Qed.

(** What a step that leaves the segments and the flight alone keeps. *)
Lemma inv_queries n s scs : inv n s -> Forall (scan_ok (files (st s))) scs -> inv n (mkSys (st s) (flying s) (arrived s) scs).
Proof. intros [] Hs. split; auto. Qed.

Lemma flight_start s : NoDup (range_keys (partitions s)) /\
  (forall k, k ∈ range_keys (partitions s) <-> exists e, e ∈ buf (store s) /\ part_key e = k).
Proof.
  pose proof (range_perm (partitions s)) as Hp. split; [rewrite Hp; apply NoDup_remove_dups|].
  intros k. rewrite Hp. unfold partitions. rewrite elem_of_remove_dups, list_elem_of_In, in_map_iff.
  setoid_rewrite list_elem_of_In. naive_solver.
Qed.

Lemma fresh_one k fs fc : fresh_from fs fc -> fc + 1 < 2 ^ 64 -> fresh fs [k] fc 1.
Proof. intros Hf Hc. apply fresh_from_fresh; assumption. Qed.

(** The partition to write has rows. *)
Lemma flight_part fs all k ks ms : flight_ok fs (mkFlight all (k :: ks) ms) -> part_rows k all <> [].
Proof.
  intros (done & _ & Hd & _) Hnil. cbn in Hd. destruct (proj1 (Hd k)) as (e & He & Hk); [set_solver|].
  assert (e ∈ part_rows k all); [|rewrite Hnil in *; set_solver].
  apply list_elem_of_In, filter_In. split; [apply list_elem_of_In, He|]. apply bool_decide_eq_true, Hk.
Qed.

Lemma disk_rows_mono fs fs' l : segs_ok fs l -> fs ⊆ fs' -> concat (map (seg_rows fs') l) = concat (map (seg_rows fs) l).
Proof. intros H1 H2. rewrite (seg_rows_weaken _ _ _ H1 H2). reflexivity. Qed.

(** What a step may do to the process while rows and flights add up. *)
Lemma inv_process n s x fl ar : inv n s -> files (st s) ⊆ files x -> segs (store x) = segs (store (st s)) ->
  0 <= flushCount (store x) <= n + 1 -> fresh_from (files x) (flushCount (store x)) ->
  match fl with Some f => flight_ok (files x) f | None => True end ->
  buf (store x) ++ match fl with Some f => fl_rows f | None => [] end ++ disk_rows (st s) ≡ₚ ar ->
  inv (n + 1) (mkSys x fl ar (scans s)).
Proof.
  intros [H1 H2 H3 H4 H5 H6] Hsub Hsegs Hfc Hfresh Hfl Hrows.
  assert (Hd : disk_rows x = disk_rows (st s)) by (unfold disk_rows; rewrite Hsegs; apply disk_rows_mono; assumption).
  split; cbn [st flying arrived scans]; auto.
  - rewrite Hsegs. eapply segs_ok_mono; eauto.
  - etransitivity; [|exact Hrows]. rewrite rows_of_eq, Hd. unfold flying_rows. cbn [flying]. rewrite <- app_assoc.
    apply Permutation_app_head, Permutation_app_comm.
  - eapply Forall_impl; [exact H6|]. intros c. apply scan_ok_mono, Hsub.
Qed.

Lemma inv_rows n s : inv n s -> buf (store (st s)) ++ flying_rows s ++ disk_rows (st s) ≡ₚ arrived s.
Proof.
  intros I. etransitivity; [|apply (i_rows _ _ I)]. rewrite rows_of_eq, <- app_assoc. apply Permutation_app_head, Permutation_app_comm.
Qed.

Lemma inv_append n s e now x r : inv n s -> Append [e] now (st s) = (x, r) ->
  inv (n + 1) (mkSys x (flying s) (match r with inr _ => arrived s ++ [e] | inl _ => arrived s end) (scans s)).
Proof.
  intros I E. destruct (Append_cases _ _ _ _ _ E) as (F1 & F2 & F3 & F4). pose proof I as [H1 H2 H3 H4 H5 H6].
  apply inv_process; auto; rewrite ?F1, ?F3; auto; [lia|].
  pose proof (inv_rows n s I) as Hr. unfold flying_rows in Hr. destruct r as [err|[]]; [subst x; exact Hr|].
  rewrite F4, <- Hr. rewrite <- !app_assoc. apply Permutation_app_head.
  rewrite (Permutation_app_comm [e]). rewrite <- app_assoc. reflexivity.
Qed.

Lemma es_take n s : inv n s -> flying s = None -> inv (n + 1) (mkSys (mkSt (files (st s)) (EventStore.io (st s)) (set_buf [] (store (st s))))
  (Some (mkFlight (buf (store (st s))) (range_keys (partitions (st s))) [])) (arrived s) (scans s)).
Proof.
  intros I Hf. pose proof I as [H1 H2 H3 H4 H5 H6]. apply inv_process; cbn; auto; try lia.
  - exists []. destruct (flight_start (st s)). split_and!; auto.
  - pose proof (inv_rows n s I) as Hr. unfold flying_rows in Hr. rewrite Hf in Hr. exact Hr.
Qed.

(** One segment written, or not. *)
Lemma write_effect n s all k ks ms x r : inv n s -> n + 1 < 2 ^ 64 -> flying s = Some (mkFlight all (k :: ks) ms) ->
  writeSegment (fst k) (snd k) (part_rows k all) (st s) = (x, r) ->
  files (st s) ⊆ files x /\ segs (store x) = segs (store (st s)) /\ buf (store x) = buf (store (st s))
  /\ 0 <= flushCount (store x) <= n + 1 /\ fresh_from (files x) (flushCount (store x))
  /\ match r with inr m => exists f, seg_ok (files x) m f /\ f_rows f ≡ₚ part_rows k all | inl _ => True end.
Proof.
  intros [H1 H2 H3 H4 H5 H6] Hn Hf E. rewrite Hf in H4.
  destruct (writeSegment_names _ _ _ _ _ _ E ltac:(lia) ltac:(lia) H3) as (N1 & N2 & _).
  destruct (writeSegment_cases _ _ _ _ _ E (flight_part _ _ _ _ _ H4) ltac:(lia) ltac:(lia) (fresh_one k _ _ H3 ltac:(lia)))
    as ([C1 C2 C3 C4] & C5 & C6).
  destruct r as [e|m]; [|destruct C6 as (C6 & _ & C7)]; split_and!; auto; try lia. rewrite C6. reflexivity.
Qed.

Lemma inv_write n s all k ks ms x m : inv n s -> n + 1 < 2 ^ 64 -> flying s = Some (mkFlight all (k :: ks) ms) ->
  writeSegment (fst k) (snd k) (part_rows k all) (st s) = (x, inr m) ->
  inv (n + 1) (mkSys x (Some (mkFlight all ks (ms ++ [m]))) (arrived s) (scans s)).
Proof.
  intros I Hn Hf E. destruct (write_effect _ _ _ _ _ _ _ _ I Hn Hf E) as (F1 & F2 & F3 & F4 & F5 & f & F6 & F7).
  apply inv_process; auto.
  - pose proof (i_flight _ _ I) as Hfl. rewrite Hf in Hfl. apply (flight_ok_mono _ _ _ F1) in Hfl.
    destruct Hfl as (done & D1 & D2 & D3). cbn [fl_ks fl_rows fl_ms] in *. exists (done ++ [k]).
    cbn [fl_ks fl_rows fl_ms]. rewrite <- app_assoc. split_and!; auto. apply Forall2_app; [exact D3|]. repeat constructor. eauto.
  - rewrite F3. pose proof (inv_rows n s I) as Hr. unfold flying_rows in Hr. rewrite Hf in Hr. exact Hr.
Qed.

Lemma inv_fail n s all k ks ms x x' e r : inv n s -> n + 1 < 2 ^ 64 -> flying s = Some (mkFlight all (k :: ks) ms) ->
  writeSegment (fst k) (snd k) (part_rows k all) (st s) = (x, inl e) -> put_back all x = (x', r) ->
  inv (n + 1) (mkSys x' None (arrived s) (scans s)).
Proof.
  intros I Hn Hf E [= <- <-]. destruct (write_effect _ _ _ _ _ _ _ _ I Hn Hf E) as (F1 & F2 & F3 & F4 & F5 & _).
  apply inv_process; cbn; auto. rewrite F3, <- (inv_rows n s I). unfold flying_rows. rewrite Hf. cbn [fl_rows].
  rewrite !app_assoc. apply Permutation_app_tail, Permutation_app_comm.
Qed.

Lemma inv_register n s all ms x r : inv n s -> flying s = Some (mkFlight all [] ms) -> register ms (st s) = (x, r) ->
  inv (n + 1) (mkSys x None (arrived s) (scans s)).
Proof.
  intros I Hf [= <- <-]. pose proof I as [H1 H2 H3 H4 H5 H6]. rewrite Hf in H4.
  destruct H4 as (done & D1 & D2 & D3). cbn [fl_ks fl_rows fl_ms] in *. rewrite app_nil_r in D1, D2.
  destruct (written_rows _ _ _ _ D3 D1) as [W1 W2]; [intros e He; apply D2; eauto|].
  pose proof (sort_slice_perm (le := seg_le) (segs (store (st s)) ++ ms)) as Hp.
  split; cbn [st flying arrived scans files store segs set_segs set_known flushCount]; auto; try lia.
  - unfold segs_ok. rewrite Hp. apply Forall_app. auto.
  - etransitivity; [|apply (inv_rows n s I)]. unfold flying_rows, rows_of, all_rows, disk_rows. rewrite Hf. cbn [flying store files buf segs set_segs set_known fl_rows].
    rewrite app_nil_r. apply Permutation_app_head.
    change (map (seg_rows (files (st s)))) with (@fmap list _ _ _ (seg_rows (files (st s)))).
    rewrite Hp, fmap_app, concat_app.
    change (@fmap list _ _ _ (seg_rows (files (st s)))) with (map (seg_rows (files (st s)))). rewrite W2. apply Permutation_app_comm.
Qed.

Lemma inv_weaken n s : inv n s -> inv (n + 1) s.
Proof. intros []. split; auto. lia. Qed.

Lemma es_step n s s' : inv n s -> n + 1 < 2 ^ 64 -> step s s' -> inv (n + 1) s'.
Proof.
  intros I Hn E. destruct E as [s e now x r E|s Hf Hb|s all k ks ms x m Hf E|s all k ks ms x x' e r Hf E Ep|s all ms x r Hf E
    |s q Hq|s i c Hi He|s i c Hi He|s i c e Hi He].
  - apply (inv_append n s e now x r I E).
  - apply es_take; assumption.
  - eapply inv_write; eauto.
  - eapply inv_fail; eauto.
  - eapply inv_register; eauto.
  - apply inv_weaken, inv_queries; [exact I|]. apply Forall_app. split; [apply I|]. constructor; [|constructor].
    destruct I. apply scan_ok_start; auto.
  - apply inv_weaken, inv_queries; [exact I|]. apply Forall_insert; [apply I|].
    apply scan_ok_turn; [|exact He]. pose proof (i_scans _ _ I) as Hs. rewrite Forall_lookup in Hs. eauto.
  - apply inv_weaken, inv_queries; [exact I|]. apply Forall_insert; [apply I|].
    pose proof (i_scans _ _ I) as Hs. rewrite Forall_lookup in Hs. destruct (Hs _ _ Hi). split; cbn; auto. constructor.
  - apply inv_weaken. destruct I. split; auto.
Qed.

(** A process on a directory whose names from its counter on are unused. *)
Definition starts (s : Sys) : Prop :=
  flying s = None /\ scans s = [] /\ arrived s = rows_of (st s) /\ segs_ok (files (st s)) (segs (store (st s)))
  /\ 0 <= flushCount (store (st s)) /\ fresh_from (files (st s)) (flushCount (store (st s))).

Lemma steps_inv n s s' : steps n s s' -> starts s -> flushCount (store (st s)) + Z.of_nat n < 2 ^ 64 ->
  inv (flushCount (store (st s)) + Z.of_nat n) s'.
Proof.
  induction 1 as [s|n s s1 s2 E IH E1]; intros Hs Hn.
  - destruct Hs as (F & S & A & G & C & N). split; auto; rewrite ?F, ?S; auto; try lia.
    unfold flying_rows. rewrite F, A, app_nil_r. reflexivity.
  - replace (_ + Z.of_nat (S n)) with (flushCount (store (st s)) + Z.of_nat n + 1) by lia.
    apply (es_step _ s1); [apply IH; [exact Hs|lia]|lia|exact E1].
Qed.

(** *** A flush that nothing interrupts is Flush *)
Lemma steps_trans m n s s1 s2 : steps m s s1 -> steps n s1 s2 -> exists k, steps k s s2.
Proof. intros H1 H2. induction H2 as [s1|n s1 s2 s3 _ IH E]; [eauto|]. destruct (IH H1) as [k Hk]. exists (S k). econstructor; eauto. Qed.

Lemma write_parts_steps all ar sc ks : forall ms x x' r, write_parts all ks x = (x', r) ->
  exists n, steps n (mkSys x (Some (mkFlight all ks ms)) ar sc)
    (mkSys x' (match r with inr ms' => Some (mkFlight all [] (ms ++ ms')) | inl _ => None end) ar sc).
Proof.
  induction ks as [|k ks IH]; intros ms x x' r E; cbn [write_parts] in E.
  - injection E as <- <-. exists 0%nat. rewrite app_nil_r. constructor.
  - unfold bind at 1, try in E. destruct (writeSegment (fst k) (snd k) (part_rows k all) x) as [x1 [e|m]] eqn:Ew.
    + exists 1%nat. unfold bind in E. destruct (put_back all x1) as [x2 [e'|u]] eqn:Ep; injection E as <- <-.
      all: econstructor; [constructor|]; eapply s_fail; eauto; reflexivity.
    + unfold bind in E. destruct (write_parts all ks x1) as [x2 r2] eqn:Ep.
      destruct (IH (ms ++ [m]) _ _ _ Ep) as [n Hn].
      assert (H1 : steps 1 (mkSys x (Some (mkFlight all (k :: ks) ms)) ar sc) (mkSys x1 (Some (mkFlight all ks (ms ++ [m]))) ar sc))
        by (econstructor; [constructor|]; eapply s_write; [reflexivity|exact Ew]).
      destruct (steps_trans _ _ _ _ _ H1 Hn) as [j Hj]. exists j.
      destruct r2; injection E as <- <-; [exact Hj|]. rewrite <- app_assoc in Hj. exact Hj.
Qed.

Lemma Flush_is_steps x x' r ar sc : Flush (range_keys (partitions x)) x = (x', r) -> buf (store x) <> [] ->
  exists n, steps n (mkSys x None ar sc) (mkSys x' None ar sc).
Proof.
  unfold Flush. unfold bind at 1, get. cbv zeta. unfold bind at 1, set_store at 1, modify at 1. intros E Hb.
  assert (H1 : steps 1 (mkSys x None ar sc) (mkSys (mkSt (files x) (EventStore.io x) (set_buf [] (store x)))
    (Some (mkFlight (buf (store x)) (range_keys (partitions x)) [])) ar sc))
    by (econstructor; [constructor|]; apply (s_take (mkSys x None ar sc)); auto).
  destruct (buf (store x)) as [|e0 l] eqn:Eb; [contradiction|]. unfold bind in E.
  destruct (write_parts _ _ _) as [x1 r1] eqn:Ew. destruct (write_parts_steps _ ar sc _ [] _ _ _ Ew) as [n Hn].
  destruct (steps_trans _ _ _ _ _ H1 Hn) as [j Hj]. destruct r1 as [e|ms]; [injection E as <- <-; eauto|].
  exists (S j). econstructor; [exact Hj|]. eapply s_register; [reflexivity|exact E].
Qed.


End Conc.
(** ** A query in the middle of a flush *)
Definition ex0 : Sys := mkSys (mkSt ∅ [] (mkStore ex_opts [] 0 [] ∅ 0 0 0)) None [] [].
Definition ex_a : Event := ex_event "a"%string 20 "u1"%string.

(** The event is accepted, a flush takes it, a query runs to its end, then the
    flush writes and registers its segment and a second query runs. *)
Definition ex_ops : list op :=
  [OAppend ex_a 5; OFlush; OQuery ex_query; OTurn 0; OFlush; OFlush; OQuery ex_query; OTurn 1; OTurn 1].

Lemma ex0_starts : starts ex0.
Proof.
  split_and!; [reflexivity|reflexivity|reflexivity|constructor|vm_compute; discriminate|].
  intros ? ? ? ? _. apply lookup_empty.
Qed.

(** a query in the middle of a flush misses an event that was accepted
    before it, and that a query after the flush finds. *)
Theorem flush_hides_rows : exists n s, steps n ex0 s /\ arrived s = [ex_a]
  /\ map (fun c => (sc_end c, sc_arrived c, sc_rows c)) (scans s) = [(Some (inr tt), [ex_a], []); (Some (inr tt), [ex_a], [ex_a])].
Proof.
  destruct (run_ops_steps ex_ops ex0) as (n & _ & H). exists n. eexists. split; [exact H|]. vm_compute. auto.
Qed.


End EventStoreConc.
