(* ===== verification/Pipeline.v ===== *)
(** * The ingest pipeline (internal/ingest/pipeline.go)

    Submit appends records to the write-ahead log; Run reads them back,
    extracts the events, drops duplicates, hands them to the event store and
    commits the consumer offset.

    Every [select] of Run and process takes the next entry of a schedule:
    which of its cases fires and the time then. Once the schedule is used up
    the context stays done: every later select answers [SelDone], and it is
    for the code to act on it. The loops run on fuel of their own, and
    [p_hung] records that the retry loop used its fuel up, which is what a
    loop that never ends does; [PipelineRun.Run_terminates] shows that none
    does. The issue sink is the list of the calls made to it. *)
From S2P Require Import Prelude GoSort GoStrings GoFloat GoUtf8 Monad WalSegment.
From S2P Require Import Wal WalReader Grouping Envelope IngestEvent EventStore.
#[local] Open Scope Z_scope.
#[local] Open Scope leser_scope.

Module Pipeline.

(** ** Options, drop reasons, record kinds *)
Record PipelineOptions := mkOptions {
  MaxLag : Z; AppendTimeout : Z; DedupeCap : Z; CommitEvery : Z }.

Definition defaults (o : PipelineOptions) : PipelineOptions :=
  {| MaxLag := if MaxLag o =? 0 then 100000 else MaxLag o;
     AppendTimeout := if AppendTimeout o <=? 0 then 5 * 1000000000 else AppendTimeout o;
     DedupeCap := if DedupeCap o <=? 0 then 500000 else DedupeCap o;
     CommitEvery := if CommitEvery o <=? 0 then 512 else CommitEvery o |}.

Definition DropMalformed : string := "malformed".
Definition DropDuplicate : string := "duplicate".
Definition DropOverloaded : string := "overloaded".

Definition ConsumerName : string := "pipeline".
Definition recEnvelope : byte := x01.
Definition recEventJSON : byte := x02.

Record IssueHit := mkHit {
  ih_ProjectID : Z; ih_Fingerprint : string; ih_Basis : Grouping.Basis; ih_Title : string;
  ih_Level : string; ih_SeenAt : Z }.

(** ** dedupe: two generations of keys *)
Record dedupe := mkDedupe { d_cap : Z; d_cur : gset string; d_prev : gset string }.

Definition newDedupe (capacity : Z) : dedupe := mkDedupe capacity ∅ ∅.

Definition firstSeen (key : string) (d : dedupe) : dedupe * bool :=
  if bool_decide (key ∈ d_cur d) then (d, false)
  else if bool_decide (key ∈ d_prev d) then (d, false)
  else
    let d := if d_cap d <=? Z.of_nat (size (d_cur d)) then mkDedupe (d_cap d) ∅ (d_cur d) else d in
    (mkDedupe (d_cap d) ({[key]} ∪ d_cur d) (d_prev d), true).

(** The project's eight bytes in front of the event id. *)
Definition projectKey (projectID : Z) (eventID : string) : string :=
  string_of_list_byte (le_bytes 8 (u64 projectID)) +:+ eventID.

(** ** The state *)
Record Pipeline := mkPipeline {
  popts : PipelineOptions; plim : Envelope.Limits; has_issues : bool; received : Z; stored : Z;
  drops : gmap string Z; dd : dedupe; consumerLag : Z }.

Inductive select := SelDone | SelTick | SelOther.

(** [p_cut] says whether process ever returned in the middle of a record,
    which it does when the context is done; [p_hung] whether its retry loop
    ever ran out of fuel. *)
Record PSt := mkPSt {
  p_rd : Reader.RSt; p_es : EventStore.St; p_pl : Pipeline; uncommitted : Z;
  p_sched : list (select * Z); p_now : Z; p_hits : list IssueHit; p_cut : bool;
  p_hung : bool }.

Definition NewPipeline (o : PipelineOptions) (lim : Envelope.Limits) (issues : bool) : Pipeline :=
  mkPipeline (defaults o) (Envelope.defaults lim) issues 0 0 ∅ (newDedupe (DedupeCap (defaults o))) 0.

Definition set_rd (v : Reader.RSt) (s : PSt) : PSt :=
  mkPSt v (p_es s) (p_pl s) (uncommitted s) (p_sched s) (p_now s) (p_hits s) (p_cut s) (p_hung s).
Definition set_es (v : EventStore.St) (s : PSt) : PSt :=
  mkPSt (p_rd s) v (p_pl s) (uncommitted s) (p_sched s) (p_now s) (p_hits s) (p_cut s) (p_hung s).
Definition set_pl (f : Pipeline -> Pipeline) (s : PSt) : PSt :=
  mkPSt (p_rd s) (p_es s) (f (p_pl s)) (uncommitted s) (p_sched s) (p_now s) (p_hits s) (p_cut s) (p_hung s).
Definition set_uncommitted (v : Z) (s : PSt) : PSt :=
  mkPSt (p_rd s) (p_es s) (p_pl s) v (p_sched s) (p_now s) (p_hits s) (p_cut s) (p_hung s).
Definition set_turn (sched : list (select * Z)) (now : Z) (s : PSt) : PSt :=
  mkPSt (p_rd s) (p_es s) (p_pl s) (uncommitted s) sched now (p_hits s) (p_cut s) (p_hung s).
Definition add_hit (h : IssueHit) (s : PSt) : PSt :=
  mkPSt (p_rd s) (p_es s) (p_pl s) (uncommitted s) (p_sched s) (p_now s) (p_hits s ++ [h]) (p_cut s) (p_hung s).
Definition set_cut (s : PSt) : PSt :=
  mkPSt (p_rd s) (p_es s) (p_pl s) (uncommitted s) (p_sched s) (p_now s) (p_hits s) true (p_hung s).
Definition set_hung (s : PSt) : PSt :=
  mkPSt (p_rd s) (p_es s) (p_pl s) (uncommitted s) (p_sched s) (p_now s) (p_hits s) (p_cut s) true.

Definition drop_ (reason : string) (p : Pipeline) : Pipeline :=
  mkPipeline (popts p) (plim p) (has_issues p) (received p) (stored p)
    (<[reason := u64 (default 0 (drops p !! reason) + 1)]> (drops p)) (dd p) (consumerLag p).
Definition set_dd (v : dedupe) (p : Pipeline) : Pipeline :=
  mkPipeline (popts p) (plim p) (has_issues p) (received p) (stored p) (drops p) v (consumerLag p).
Definition add_stored (p : Pipeline) : Pipeline :=
  mkPipeline (popts p) (plim p) (has_issues p) (received p) (u64 (stored p + 1)) (drops p) (dd p) (consumerLag p).
Definition add_received (p : Pipeline) : Pipeline :=
  mkPipeline (popts p) (plim p) (has_issues p) (u64 (received p + 1)) (stored p) (drops p) (dd p) (consumerLag p).
Definition set_lag (v : Z) (p : Pipeline) : Pipeline :=
  mkPipeline (popts p) (plim p) (has_issues p) (received p) (stored p) (drops p) (dd p) v.

(** ** Submit *)

(** The log record of a body: kind, project, bytes. *)
Definition record_of (kind : byte) (projectID : Z) (body : list byte) : list byte :=
  kind :: le_bytes 8 (u64 projectID) ++ body.

(** What Append of the log answers: the offset, an expired deadline, or
    another error. *)
Inductive append_answer := AppendOk (offset : Z) | AppendDeadline | AppendErr.

(** Submit; [append] is the log's Append under the context with the
    deadline, a step of the log's state [L] with its answer: whatever the
    answer is, the log may have changed. *)
Inductive submit_result := Accepted | ErrOverloaded | SubmitErr.

Definition Submit {L} (append : byte -> list byte -> L -> L * append_answer) (kind : byte) (projectID : Z)
    (body : list byte) (log : L) (p : Pipeline) : L * Pipeline * submit_result :=
  let p := add_received p in
  if MaxLag (popts p) <? consumerLag p then (log, drop_ DropOverloaded p, ErrOverloaded)
  else
    let '(log, a) := append kind (record_of kind projectID body) log in
    match a with
    | AppendOk _ => (log, p, Accepted)
    | AppendDeadline => (log, drop_ DropOverloaded p, ErrOverloaded)
    | AppendErr => (log, p, SubmitErr)
    end.

(** ** process *)

(** truncate bounds a string to [n] bytes on a rune boundary. *)
Fixpoint boundary (s : string) (i : nat) : nat :=
  match i with
  | O => 0
  | S i' =>
      match String.get i s with
      | Some c => if negb (Z.land (code c) 0xC0 =? 0x80) then i else boundary s i'
      | None => boundary s i'
      end
  end.
Definition truncate (s : string) (n : nat) : string :=
  if (String.length s <=? n)%nat then s
  else match boundary s n with
       | O => take_str n s
       | i => take_str i s
       end.

Section Process.
Context (time_Parse : string -> option Z) (ParseFloat : string -> option float64)
  (convert_out_of_range : float64 -> Z) (lower_rune : Z -> Z).
Context `{!SliceSort EventStore.event_le} `{!SliceSort EventStore.seg_le} `{!MapRange (Z * Z)}.

Definition extract_event := IngestEvent.ExtractEvent time_Parse ParseFloat convert_out_of_range lower_rune.

Record pending := mkPending { pe_ex : IngestEvent.ExtractedEvent; pe_payload : list byte }.

Definition with_id (id : string) (x : IngestEvent.ExtractedEvent) : IngestEvent.ExtractedEvent :=
  IngestEvent.mkExtracted id (IngestEvent.x_Timestamp x) (IngestEvent.x_Level x)
    (IngestEvent.x_Fingerprint x) (IngestEvent.x_Basis x) (IngestEvent.x_Release x)
    (IngestEvent.x_Environment x) (IngestEvent.x_UserID x) (IngestEvent.x_Message x).

(** One item of an envelope: nothing, a malformed event, or an event, which
    takes the envelope's id when it has none. *)
Definition item_event (now : Z) (h : Envelope.EnvelopeHeader) (i : Envelope.Item) : option (option pending) :=
  let ty := Envelope.ih_Type (Envelope.it_Header i) in
  if negb (bool_decide (ty = Envelope.ItemEvent)) && negb (bool_decide (ty = Envelope.ItemTransaction))
  then None
  else match extract_event (Envelope.it_Payload i) now with
       | None => Some None
       | Some x =>
           let x := if bool_decide (IngestEvent.x_EventID x = ""%string)
                       && negb (bool_decide (Envelope.h_EventID h = ""%string))
                    then with_id (Envelope.h_EventID h) x else x in
           Some (Some (mkPending x (Envelope.it_Payload i)))
       end.

(** The events of a record in order, [None] for each malformed unit; the
    project. *)
Definition record_events (lim : Envelope.Limits) (now : Z) (payload : list byte) : Z * list (option pending) :=
  if (length payload <? 9)%nat then (0, [None])
  else
    let kind := nth 0 payload x00 in
    let projectID := i64 (le_Z (take 8 (drop 1 payload))) in
    let body := drop 9 payload in
    (projectID,
     if Byte.eqb kind recEnvelope then
       match Envelope.Parse body lim with
       | inl _ => [None]
       | inr env => omap (item_event now (Envelope.e_Header env)) (Envelope.e_Items env)
       end
     else if Byte.eqb kind recEventJSON then
       match extract_event body now with
       | None => [None]
       | Some x => [Some (mkPending x body)]
       end
     else [None]).

Definition toStoreEvent (projectID : Z) (x : IngestEvent.ExtractedEvent) (payload : list byte) : EventStore.Event :=
  EventStore.mkEvent (IngestEvent.x_EventID x) projectID (IngestEvent.x_Timestamp x)
    (IngestEvent.x_Level x) (IngestEvent.x_Fingerprint x) (IngestEvent.x_Release x)
    (IngestEvent.x_Environment x) (IngestEvent.x_UserID x) (IngestEvent.x_Message x) payload.

Definition issue_hit (projectID : Z) (x : IngestEvent.ExtractedEvent) : IssueHit :=
  mkHit projectID (IngestEvent.x_Fingerprint x) (IngestEvent.x_Basis x)
    (truncate (IngestEvent.x_Message x) 200) (IngestEvent.x_Level x) (IngestEvent.x_Timestamp x).

(** [p.store.Flush()]: the partitions of the buffer come in the order the
    map yields them. *)
Definition flush (s : PSt) : PSt * (EventStore.es_error + unit) :=
  let ks := range_keys (remove_dups (map EventStore.part_key (EventStore.buf (EventStore.store (p_es s))))) in
  let '(es, r) := EventStore.Flush ks (p_es s) in (set_es es s, r).

(** A select: the case that fires, or, once the schedule is used up, the
    context's. *)
Definition take_turn (s : PSt) : PSt * select :=
  match p_sched s with
  | [] => (s, SelDone)
  | (x, t) :: sched => (set_turn sched t s, x)
  end.

(** The retry loop around Append; [false] when the context is done. *)
Fixpoint append_retry (fuel : nat) (ev : EventStore.Event) (s : PSt) : PSt * bool :=
  match fuel with
  | O => (set_hung s, false)
  | S fuel =>
      let '(es, r) := EventStore.Append [ev] (p_now s) (p_es s) in
      let s := set_es es s in
      match r with
      | inr _ => (set_pl add_stored s, true)
      | inl EventStore.ErrBufferFull =>
          let '(s, _) := flush s in
          let '(s, sel) := take_turn s in
          match sel with
          | SelDone => (s, false)
          | _ => append_retry fuel ev s
          end
      | inl _ => (s, true)
      end
  end.

Definition store_one (projectID : Z) (pe : pending) (s : PSt) : PSt * bool :=
  let x := pe_ex pe in
  let '(d, fresh) :=
    if bool_decide (IngestEvent.x_EventID x = ""%string) then (dd (p_pl s), true)
    else firstSeen (projectKey projectID (IngestEvent.x_EventID x)) (dd (p_pl s)) in
  let s := set_pl (set_dd d) s in
  if negb fresh then (set_pl (drop_ DropDuplicate) s, true)
  else
    let '(s, go) := append_retry (S (length (p_sched s))) (toStoreEvent projectID x (pe_payload pe)) s in
    if go then (if has_issues (p_pl s) then add_hit (issue_hit projectID x) s else s, true)
    else (s, false).

Fixpoint store_all (projectID : Z) (l : list pending) (s : PSt) : PSt :=
  match l with
  | [] => s
  | pe :: l => let '(s, go) := store_one projectID pe s in if go then store_all projectID l s else set_cut s
  end.

Definition process (payload : list byte) (s : PSt) : PSt :=
  let '(projectID, evs) := record_events (plim (p_pl s)) (p_now s) payload in
  let s := Nat.iter (length (List.filter (fun o => match o with None => true | _ => false end) evs))
             (set_pl (drop_ DropMalformed)) s in
  store_all projectID (omap id evs) s.

(** ** Run *)
Inductive run_error :=
  | RunFlush (e : EventStore.es_error) | RunCommit (e : Reader.rd_error) | RunNext (e : Reader.rd_error).

(** commit flushes the event store before it advances the offset. *)
Definition commit (s : PSt) : PSt * (run_error + unit) :=
  let '(s, r) := flush s in
  match r with
  | inl e => (s, inl (RunFlush e))
  | inr _ =>
      let '(rd, r) := Reader.Commit (p_rd s) in
      let s := set_rd rd s in
      match r with
      | inl e => (s, inl (RunCommit e))
      | inr _ => (set_uncommitted 0 s, inr tt)
      end
  end.

(** The periodic commit. *)
Definition periodic (s : PSt) : PSt :=
  if (0 <? uncommitted s) || EventStore.NeedsFlush (p_now s) (EventStore.store (p_es s))
  then fst (commit s) else s.

(** The loop's body after its select: one record, or a pause; [Some r] when
    Run returns. *)
Definition consume (rec : Segment.Record) (s : PSt) : PSt :=
  let s := set_pl (set_lag (Reader.Lag (p_rd s))) s in
  let s := process (Segment.Payload rec) s in
  let s := set_uncommitted (uncommitted s + 1) s in
  if CommitEvery (popts (p_pl s)) <=? uncommitted s then fst (commit s) else s.

Definition final_commit (s : PSt) : PSt * option (run_error + unit) :=
  let '(s, r) := commit s in (s, Some r).

Definition run_body (s : PSt) : PSt * option (run_error + unit) :=
  let '(rd, r) := Reader.Next (p_rd s) in
  let s := set_rd rd s in
  match r with
  | inl Reader.ErrNoRecord =>
      let '(s, sel) := take_turn (set_pl (set_lag 0) s) in
      match sel with SelDone => final_commit s | _ => (s, None) end
  | inl e => (s, Some (inl (RunNext e)))
  | inr rec => (consume rec s, None)
  end.

Definition run_turn (s : PSt) : PSt * option (run_error + unit) :=
  let '(s, sel) := take_turn s in
  match sel with
  | SelDone => final_commit s
  | SelTick => run_body (periodic s)
  | SelOther => run_body s
  end.

Fixpoint run_loop (fuel : nat) (s : PSt) : PSt * option (run_error + unit) :=
  match fuel with
  | O => (s, None)
  | S fuel =>
      match run_turn s with
      | (s, Some r) => (s, Some r)
      | (s, None) => run_loop fuel s
      end
  end.

(** Run: the reader is opened, the loop runs until it returns, the reader is
    closed. A turn that does not return takes an entry of the schedule, so
    this fuel is enough ([PipelineRun.Run_terminates]). *)
Definition Run (s : PSt) : PSt * option (run_error + unit) :=
  let '(rd, r) := Reader.NewReader ConsumerName (p_rd s) in
  let s := set_uncommitted 0 (set_rd rd s) in
  match r with
  | inl e => (s, Some (inl (RunNext e)))
  | inr _ =>
      let '(s, r) := run_loop (S (length (p_sched s))) s in
      (set_rd (fst (Reader.CloseReader (p_rd s))) s, r)
  end.

(** ** Backpressure without a consumer of its own, and the status *)
Definition RefreshLagFromWAL (consumerName : string) (s : PSt) : PSt :=
  let '(rd, r) := Reader.ConsumerOffset consumerName (p_rd s) in
  let s := set_rd rd s in
  match r with
  | inl _ => s
  | inr o =>
      let off := default 0 o in
      let latest := Wal.LatestOffset (Wal.log (Reader.r_st (p_rd s))) in
      set_pl (set_lag (if off <? latest then latest - off else 0)) s
  end.

Record Status := mkStatus {
  Received : Z; Stored : Z; Drops : gmap string Z; ConsumerLag : Z; WALLatest : Z;
  BufferRows : Z; Segments : Z; SegsQueried : Z; SegsOpened : Z }.

Definition status (s : PSt) : Status :=
  let st := EventStore.store (p_es s) in
  mkStatus (received (p_pl s)) (stored (p_pl s)) (drops (p_pl s)) (consumerLag (p_pl s))
    (Wal.LatestOffset (Wal.log (Reader.r_st (p_rd s))))
    (Z.of_nat (length (EventStore.buf st))) (Z.of_nat (length (EventStore.segs st)))
    (EventStore.statSegsTotal st) (EventStore.statSegsOpen st).

Definition DropCount (reason : string) (p : Pipeline) : Z := default 0 (drops p !! reason).
End Process.

End Pipeline.
