(* ===== verification/PipelineProps.v ===== *)
(** * What the pipeline promises

    Run hands every record of the log to the store exactly once and commits
    an offset only when the rows of all records before it are in segments.
    [consumed] says what the events of a sequence of records are, given the
    duplicates known at its start; [kept] says the same of a run that a
    shutdown may have made break off records, and names the events lost. *)
From S2P Require Import Prelude GoSort GoStrings GoFloat GoUtf8 Monad WalSegment.
From S2P Require Import Wal WalInv WalReader WalReaderInv WalProps Grouping Envelope.
From S2P Require Import IngestEvent EventStore EventStoreProps EventStoreRun Pipeline.
Import Segment Reader ReaderInv EventStore EventStoreProps EventStoreRun Pipeline.
#[local] Open Scope Z_scope.
#[local] Open Scope leser_scope.

Module PipelineProps.

Section Props.
Context (time_Parse : string -> option Z) (ParseFloat : string -> option float64)
  (convert_out_of_range : float64 -> Z) (lower_rune : Z -> Z).
Context `{!SliceSort event_le} `{!SliceSort seg_le} `{!MapRange (Z * Z)}.

Notation record_events := (record_events time_Parse ParseFloat convert_out_of_range lower_rune).
Notation process := (process time_Parse ParseFloat convert_out_of_range lower_rune).
Notation run_turn := (run_turn time_Parse ParseFloat convert_out_of_range lower_rune).
Notation run_loop := (run_loop time_Parse ParseFloat convert_out_of_range lower_rune).
Notation Run := (Run time_Parse ParseFloat convert_out_of_range lower_rune).

(** ** The events of a sequence of records *)
Fixpoint accept (projectID : Z) (l : list pending) (d : dedupe) : dedupe * list Event :=
  match l with
  | [] => (d, [])
  | pe :: l =>
      let '(d, fresh) :=
        if bool_decide (IngestEvent.x_EventID (pe_ex pe) = ""%string) then (d, true)
        else firstSeen (projectKey projectID (IngestEvent.x_EventID (pe_ex pe))) d in
      let '(d, es) := accept projectID l d in
      (d, if fresh then toStoreEvent projectID (pe_ex pe) (pe_payload pe) :: es else es)
  end.

Definition record_accept (lim : Envelope.Limits) (now : Z) (payload : list byte) (d : dedupe)
    : dedupe * list Event :=
  let '(projectID, evs) := record_events lim now payload in accept projectID (omap id evs) d.

Inductive consumed (lim : Envelope.Limits) (d0 : dedupe) : list Record -> dedupe -> list Event -> Prop :=
  | consumed_nil : consumed lim d0 [] d0 []
  | consumed_snoc rs r now d d' es es' :
      consumed lim d0 rs d es -> record_accept lim now (Segment.Payload r) d = (d', es') ->
      consumed lim d0 (rs ++ [r]) d' (es ++ es').

(** One record whose processing may break off: at an event whose key is in
    the window by then, and which is lost with those behind it that are no
    duplicates. *)
Inductive stored_part (projectID : Z) (l : list pending) (d : dedupe) : dedupe -> list Event -> list Event -> Prop :=
  | stored_all d' es : accept projectID l d = (d', es) -> stored_part projectID l d d' es []
  | stored_cut l1 pe l2 d1 es d' e :
      l = l1 ++ pe :: l2 -> accept projectID l1 d = (d1, es) -> accept projectID [pe] d1 = (d', [e]) ->
      stored_part projectID l d d' es (e :: snd (accept projectID l2 d')).

Definition record_part (lim : Envelope.Limits) (now : Z) (payload : list byte) (d d' : dedupe)
    (es lost : list Event) : Prop :=
  let '(projectID, evs) := record_events lim now payload in stored_part projectID (omap id evs) d d' es lost.

(** Of the events of a sequence of records, [es] were handed on and [lost]
    were not, because their records broke off. *)
Inductive kept (lim : Envelope.Limits) (d0 : dedupe) : list Record -> dedupe -> list Event -> list Event -> Prop :=
  | kept_nil : kept lim d0 [] d0 [] []
  | kept_snoc rs r now d d' es es' lost lost' :
      kept lim d0 rs d es lost -> record_part lim now (Segment.Payload r) d d' es' lost' ->
      kept lim d0 (rs ++ [r]) d' (es ++ es') (lost ++ lost').

(** If nothing is lost, no record broke off. *)
Lemma kept_consumed lim d0 rs d es lost : kept lim d0 rs d es lost -> lost = [] -> consumed lim d0 rs d es.
Proof.
  induction 1 as [|rs r now d d' es es' lost lost' _ IH Hp]; intros Hl; [constructor|].
  apply app_eq_nil in Hl as [-> ->]. apply (consumed_snoc _ _ rs r now d); [exact (IH eq_refl)|].
  unfold record_part, record_accept in *. destruct (record_events lim now _) as [p evs].
  inversion Hp; subst; assumption.
Qed.

(** ** What the issue sink is told *)
Definition reports (e : Event) (h : IssueHit) : Prop :=
  ih_ProjectID h = e_ProjectID e /\ ih_Fingerprint h = e_Fingerprint e /\ ih_Title h = truncate (Message e) 200
  /\ ih_Level h = e_Level e /\ ih_SeenAt h = Timestamp e.

(** One call per event, in their order, if there is a sink. *)
Definition reported (issues : bool) (es : list Event) (hs : list IssueHit) : Prop :=
  if issues then Forall2 reports es hs else hs = [].

Lemma reported_nil b : reported b [] [].
Proof. destruct b; [constructor|reflexivity]. Qed.
Lemma reported_app b es es' hs hs' : reported b es hs -> reported b es' hs' -> reported b (es ++ es') (hs ++ hs').
Proof. destruct b; cbn; [apply Forall2_app|intros -> ->; reflexivity]. Qed.

(** ** The flush counter does not overflow *)
Definition cap_rows (s : PSt) : Z := MaxBufferRows (opts (store (p_es s))).
Definition budget (s : PSt) (k : Z) : Prop :=
  flushCount (store (p_es s)) + (3 * Z.of_nat (length (p_sched s)) + k) * cap_rows s < 2 ^ 64.

Lemma cap_nonneg s : es_ok (p_es s) -> 0 <= cap_rows s.
Proof. intros H. pose proof (eo_buf _ H). unfold cap_rows. lia. Qed.

(** [j] flushes were made, and the schedule did not grow. *)
Lemma budget_use s s' k k' j :
  0 <= cap_rows s -> cap_rows s' = cap_rows s ->
  flushCount (store (p_es s')) <= flushCount (store (p_es s)) + j * cap_rows s ->
  3 * Z.of_nat (length (p_sched s')) + k' + j <= 3 * Z.of_nat (length (p_sched s)) + k ->
  budget s k -> budget s' k'.
Proof.
  unfold budget. intros Hc Hc' Hf Hl Hb. rewrite Hc'.
  pose proof (Z.mul_le_mono_nonneg_r _ _ _ Hc Hl). lia.
Qed.

(** What the store side of the pipeline keeps: the reader, the options and
    the committed count. *)
Record same (s s' : PSt) : Prop := {
  sm_rd : p_rd s' = p_rd s; sm_lim : plim (p_pl s') = plim (p_pl s);
  sm_issues : has_issues (p_pl s') = has_issues (p_pl s);
  sm_opts : popts (p_pl s') = popts (p_pl s); sm_cap : cap_rows s' = cap_rows s;
  sm_sched : (length (p_sched s') <= length (p_sched s))%nat }.

Lemma same_refl s : same s s.
Proof. constructor; auto. Qed.
Lemma same_trans s1 s2 s3 : same s1 s2 -> same s2 s3 -> same s1 s3.
Proof. intros [] []. constructor; try congruence. lia. Qed.

(** [s'] has the same store with more in its segments. *)
Record store_step (s s' : PSt) (new : list Event) : Prop := {
  st_same : same s s'; st_ok : es_ok (p_es s');
  st_rows : rows_of (p_es s') ≡ₚ rows_of (p_es s) ++ new;
  st_disk : disk_rows (p_es s) ⊆+ disk_rows (p_es s') }.

Lemma store_step_trans s1 s2 s3 a b :
  store_step s1 s2 a -> store_step s2 s3 b -> store_step s1 s3 (a ++ b).
Proof.
  intros [A1 A2 A3 A4] [B1 B2 B3 B4]. constructor; auto.
  - eapply same_trans; eassumption.
  - rewrite B3, A3, app_assoc. reflexivity.
  - etransitivity; eassumption.
Qed.

Lemma flush_ok s s' r k :
  flush s = (s', r) -> es_ok (p_es s) -> budget s (k + 1) -> 0 <= k ->
  store_step s s' [] /\ budget s' k /\ p_pl s' = p_pl s /\ uncommitted s' = uncommitted s
  /\ p_sched s' = p_sched s /\ p_cut s' = p_cut s /\ p_hits s' = p_hits s
  /\ match r with inr _ => buf (store (p_es s')) = [] | inl _ => True end.
Proof.
  intros E Hok Hb Hk. pose proof (cap_nonneg s Hok) as Hc.
  assert (Hfc : flushCount (store (p_es s)) + cap_rows s < 2 ^ 64).
  { unfold budget in Hb. pose proof (Z.mul_le_mono_nonneg_r 1 (3 * Z.of_nat (length (p_sched s)) + (k + 1)) _ Hc).
    lia. }
  unfold flush in E. change (remove_dups _) with (partitions (p_es s)) in E.
  destruct (Flush (range_keys (partitions (p_es s))) (p_es s)) as [es r'] eqn:EF. injection E as <- <-.
  destruct (Flush_step _ _ _ EF Hok Hfc) as (F1 & F2 & F3 & F4 & F5 & F6).
  assert (Hcap : cap_rows (set_es es s) = cap_rows s) by (unfold cap_rows; cbn; rewrite F3; reflexivity).
  split_and!; try reflexivity.
  - constructor; [constructor; auto|exact F1|cbn; rewrite app_nil_r; exact F2|exact F5].
  - apply (budget_use s _ (k + 1) k 1); auto; cbn; [unfold cap_rows in *; lia|lia].
  - destruct r'; auto.
Qed.

(** A select touches the schedule and the clock alone. *)
Lemma take_turn_step s s' sel k : es_ok (p_es s) -> budget s k -> take_turn s = (s', sel) ->
  store_step s s' [] /\ (if sel is SelDone then budget s' k else budget s' (k + 3))
  /\ dd (p_pl s') = dd (p_pl s) /\ uncommitted s' = uncommitted s /\ p_cut s' = p_cut s /\ p_hits s' = p_hits s.
Proof.
  intros Hok Hb E. unfold take_turn in E. destruct (p_sched s) as [|[x t] sched] eqn:Es; injection E as <- <-.
  - split_and!; auto. constructor; auto using same_refl. rewrite app_nil_r. reflexivity.
  - assert (H3 : budget (set_turn sched t s) (k + 3)).
    { apply (budget_use s _ k _ 0); auto; [apply cap_nonneg, Hok|cbn; lia|cbn; rewrite Es; simpl; lia]. }
    assert (H0 : budget (set_turn sched t s) k).
    { apply (budget_use (set_turn sched t s) _ (k + 3) k 0); auto; try lia. apply (cap_nonneg s), Hok. }
    split_and!; auto; [|destruct x; assumption]. constructor; auto; [|cbn; rewrite app_nil_r; reflexivity].
    constructor; auto. cbn. rewrite Es. simpl. lia.
Qed.

Lemma append_retry_ok ev fuel : forall s s' go k,
  es_ok (p_es s) -> budget s (k + 1) -> 0 <= k ->
  append_retry fuel ev s = (s', go) ->
  store_step s s' (if go then [ev] else []) /\ budget s' (if go then k + 1 else k)
  /\ dd (p_pl s') = dd (p_pl s) /\ uncommitted s' = uncommitted s /\ p_cut s' = p_cut s /\ p_hits s' = p_hits s.
Proof.
  induction fuel as [|fuel IH]; intros s s' go k Hok Hb Hk E; cbn [append_retry] in E.
  { injection E as <- <-. split_and!; auto.
    - constructor; auto; [constructor; auto|cbn; rewrite app_nil_r; reflexivity].
    - apply (budget_use s _ (k + 1) k 0); auto; try (cbn; lia). apply cap_nonneg, Hok. }
  pose proof (Append_step ev (p_now s) (p_es s) Hok) as HA.
  destruct (Append [ev] (p_now s) (p_es s)) as [es [e|[]]].
  2:{ destruct HA as (A1 & A2 & A3 & A4 & A5). injection E as <- <-.
    assert (Hcap : cap_rows (set_pl add_stored (set_es es s)) = cap_rows s)
      by (unfold cap_rows; cbn; rewrite A3; reflexivity).
    split_and!; try reflexivity.
    - constructor; [constructor; auto|exact A1|exact A2|cbn; rewrite A5; reflexivity].
    - apply (budget_use s _ (k + 1) (k + 1) 0); auto; cbn; [apply cap_nonneg, Hok|lia|lia]. }
  destruct HA as [-> ->].
  assert (Hid : set_es (p_es s) s = s) by (destruct s; reflexivity). rewrite Hid in E.
  destruct (flush s) as [s1 r1] eqn:EF.
  destruct (flush_ok _ _ _ k EF Hok Hb Hk) as (F1 & F2 & F3 & F4 & F5 & F6 & F7 & _).
  destruct (take_turn s1) as [s2 sel] eqn:ET.
  destruct (take_turn_step _ _ _ _ (st_ok _ _ _ F1) F2 ET) as (T1 & T2 & T3 & T4 & T5 & T6).
  pose proof (store_step_trans _ _ _ _ _ F1 T1) as S2. cbn [app] in S2.
  destruct sel.
  { injection E as <- <-. split_and!; auto; congruence. }
  all: assert (Hb2 : budget s2 (k + 1))
    by (apply (budget_use s2 _ (k + 3) (k + 1) 0); auto; try lia; apply cap_nonneg, T1).
  all: destruct (IH s2 s' go k (st_ok _ _ _ T1) Hb2 Hk E) as (I1 & I2 & I3 & I4 & I5 & I6).
  all: split_and!; [exact (store_step_trans _ _ _ _ _ S2 I1)|exact I2|congruence..].
Qed.

(** Steps that touch neither the store nor the schedule. *)
Definition quiet (s s' : PSt) : Prop :=
  p_rd s' = p_rd s /\ p_es s' = p_es s /\ plim (p_pl s') = plim (p_pl s)
  /\ popts (p_pl s') = popts (p_pl s) /\ p_sched s' = p_sched s /\ has_issues (p_pl s') = has_issues (p_pl s).

Lemma quiet_step s s' k : quiet s s' -> es_ok (p_es s) -> budget s k ->
  store_step s s' [] /\ budget s' k.
Proof.
  intros (Q1 & Q2 & Q3 & Q4 & Q5 & Q6) Hok Hb. split.
  - constructor; rewrite ?Q2; auto; [|rewrite app_nil_r; reflexivity].
    constructor; auto; [unfold cap_rows; rewrite Q2; reflexivity|rewrite Q5; reflexivity].
  - apply (budget_use s s' k k 0); unfold cap_rows; rewrite ?Q2, ?Q5; auto; try lia.
    apply (cap_nonneg s Hok).
Qed.

(** The rows and the reports of a step of process. *)
Definition step_adds (s s' : PSt) (es : list Event) : Prop :=
  rows_of (p_es s') ≡ₚ rows_of (p_es s) ++ es
  /\ exists hs, p_hits s' = p_hits s ++ hs /\ reported (has_issues (p_pl s)) es hs.

Lemma step_adds_trans s1 s2 s3 a b : has_issues (p_pl s2) = has_issues (p_pl s1) ->
  step_adds s1 s2 a -> step_adds s2 s3 b -> step_adds s1 s3 (a ++ b).
Proof.
  intros Hi (A1 & hs & A2 & A3) (B1 & hs' & B2 & B3). split; [rewrite B1, A1, app_assoc; reflexivity|].
  exists (hs ++ hs'). rewrite B2, A2, app_assoc. rewrite Hi in B3. split; [reflexivity|apply reported_app; assumption].
Qed.

Lemma step_adds_none s s' : rows_of (p_es s') ≡ₚ rows_of (p_es s) -> p_hits s' = p_hits s -> step_adds s s' [].
Proof.
  intros H1 H2. split; [rewrite app_nil_r; exact H1|]. exists []. rewrite app_nil_r. split; [exact H2|apply reported_nil].
Qed.

(** One event: handed on unless it is a duplicate, or not handed on. *)
Lemma store_one_ok projectID pe s s' go k :
  es_ok (p_es s) -> budget s (k + 1) -> 0 <= k -> store_one projectID pe s = (s', go) ->
  es_ok (p_es s') /\ same s s' /\ disk_rows (p_es s) ⊆+ disk_rows (p_es s')
  /\ uncommitted s' = uncommitted s /\ p_cut s' = p_cut s /\ budget s' (if go then k + 1 else k)
  /\ exists es, accept projectID [pe] (dd (p_pl s)) = (dd (p_pl s'), es)
        /\ if go then step_adds s s' es else step_adds s s' [] /\ length es = 1%nat.
Proof.
  intros Hok Hb Hk E. unfold store_one in E. cbn [accept].
  destruct (if bool_decide _ then _ else _) as [d fresh].
  assert (Q1 : quiet s (set_pl (set_dd d) s)) by (repeat split).
  destruct (quiet_step _ _ _ Q1 Hok Hb) as [S1 B1]. destruct fresh; cbn [negb] in E.
  - destruct (append_retry _ _ _) as [s1 go1] eqn:EA.
    destruct (append_retry_ok _ _ (set_pl (set_dd d) s) s1 go1 k (st_ok _ _ _ S1) B1 Hk EA) as (A1 & A2 & A3 & A4 & A5 & A6).
    pose proof (store_step_trans _ _ _ _ _ S1 A1) as SA. destruct go1.
    + assert (Q2 : quiet s1 (if has_issues (p_pl s1) then add_hit (issue_hit projectID (pe_ex pe)) s1 else s1))
        by (destruct (has_issues _); repeat split).
      destruct (quiet_step _ _ _ Q2 (st_ok _ _ _ A1) A2) as [S2 B2].
      pose proof (store_step_trans _ _ _ _ _ SA S2) as [T1 T2 T3 T4]. cbn [app] in T3.
      assert (Hd : dd (p_pl s') = d /\ uncommitted s' = uncommitted s1 /\ p_cut s' = p_cut s1
        /\ s' = (if has_issues (p_pl s1) then add_hit (issue_hit projectID (pe_ex pe)) s1 else s1) /\ go = true)
        by (destruct (has_issues _); injection E as <- <-; cbn in *; auto).
      destruct Hd as (D1 & D2 & D3 & D4 & ->). rewrite <- D4 in *.
      cbn in A4, A5. split_and!; auto; try congruence.
      eexists. rewrite D1. split; [reflexivity|]. split; [exact T3|].
      pose proof (sm_issues _ _ (st_same _ _ _ A1)) as Hi. cbn in Hi. rewrite <- Hi, D4. clear -A6.
      destruct (has_issues (p_pl s1)); cbn; rewrite A6; cbn.
      * eexists. split; [reflexivity|]. repeat constructor.
      * exists []. rewrite app_nil_r. auto.
    + injection E as <- <-. destruct SA as [T1 T2 T3 T4]. split_and!; auto; try congruence.
      rewrite A3. eexists. split; [reflexivity|]. split; [|reflexivity].
      apply step_adds_none; [rewrite T3; cbn; rewrite app_nil_r; reflexivity|exact A6].
  - injection E as <- <-.
    assert (Q2 : quiet (set_pl (set_dd d) s) (set_pl (drop_ DropDuplicate) (set_pl (set_dd d) s))) by (repeat split).
    destruct (quiet_step _ _ _ Q2 (st_ok _ _ _ S1) B1) as [S2 B2].
    destruct (store_step_trans _ _ _ _ _ S1 S2) as [T1 T2 T3 T4].
    split_and!; auto. eexists. split; [reflexivity|]. apply step_adds_none; reflexivity.
Qed.

Lemma accept_cons projectID pe l d :
  accept projectID (pe :: l) d =
  let '(d1, es1) := accept projectID [pe] d in
  let '(d2, es2) := accept projectID l d1 in (d2, es1 ++ es2).
Proof.
  cbn [accept]. destruct (if bool_decide _ then _ else _) as [d1 fresh].
  destruct (accept projectID l d1). destruct fresh; reflexivity.
Qed.

Lemma stored_part_cons projectID pe l d d1 es1 d' es lost :
  accept projectID [pe] d = (d1, es1) -> stored_part projectID l d1 d' es lost ->
  stored_part projectID (pe :: l) d d' (es1 ++ es) lost.
Proof.
  intros E1 H. destruct H as [d' es E|l1 pe' l2 d2 es d' e -> E E2].
  - constructor. rewrite accept_cons, E1, E. reflexivity.
  - apply (stored_cut _ _ _ (pe :: l1) pe' l2 d2); [reflexivity| |exact E2]. rewrite accept_cons, E1, E. reflexivity.
Qed.

Lemma store_all_ok projectID l : forall s k,
  es_ok (p_es s) -> budget s (k + 1) -> 0 <= k ->
  let s' := store_all projectID l s in
  es_ok (p_es s') /\ same s s' /\ disk_rows (p_es s) ⊆+ disk_rows (p_es s')
  /\ uncommitted s' = uncommitted s /\ budget s' k
  /\ exists es lost, stored_part projectID l (dd (p_pl s)) (dd (p_pl s')) es lost /\ step_adds s s' es
        /\ (p_cut s' = false -> p_cut s = false /\ lost = []).
Proof.
  induction l as [|pe l IH]; intros s k Hok Hb Hk; cbn [store_all].
  - cbv zeta. split_and!; auto using same_refl.
    + apply (budget_use s _ (k + 1) k 0); auto; try lia. apply cap_nonneg, Hok.
    + exists [], []. split_and!; [constructor; reflexivity|apply step_adds_none; reflexivity|auto].
  - destruct (store_one projectID pe s) as [s1 go] eqn:E1.
    destruct (store_one_ok _ _ _ _ _ _ Hok Hb Hk E1) as (O1 & O2 & O3 & O4 & O5 & O6 & es1 & A1 & P1). destruct go.
    + specialize (IH s1 k O1 O6 Hk). cbv zeta in *. destruct IH as (I1 & I2 & I3 & I4 & I5 & es2 & lost & A2 & P2 & I6).
      split_and!; auto; try congruence; [eapply same_trans; eassumption|etransitivity; eassumption|].
      exists (es1 ++ es2), lost. split_and!.
      * exact (stored_part_cons _ _ _ _ _ _ _ _ _ A1 A2).
      * exact (step_adds_trans _ _ _ _ _ (sm_issues _ _ O2) P1 P2).
      * intros Hc. destruct (I6 Hc). split; [congruence|assumption].
    + destruct P1 as [P1 Hl]. destruct es1 as [|e [|]]; try discriminate.
      destruct O2. cbn in O4, O6 |- *. split_and!; auto; try (constructor; auto).
      exists [], (e :: snd (accept projectID l (dd (p_pl s1)))). split_and!; [|exact P1|discriminate].
      exact (stored_cut projectID (pe :: l) _ [] pe l _ [] _ e eq_refl eq_refl A1).
Qed.

Lemma iter_drop_quiet n s : quiet s (Nat.iter n (set_pl (drop_ DropMalformed)) s)
  /\ dd (p_pl (Nat.iter n (set_pl (drop_ DropMalformed)) s)) = dd (p_pl s)
  /\ uncommitted (Nat.iter n (set_pl (drop_ DropMalformed)) s) = uncommitted s
  /\ p_cut (Nat.iter n (set_pl (drop_ DropMalformed)) s) = p_cut s
  /\ p_hits (Nat.iter n (set_pl (drop_ DropMalformed)) s) = p_hits s.
Proof.
  induction n as [|n ((Q1 & Q2 & Q3 & Q4 & Q5 & Q6) & D & U & C & G)]; [repeat split|].
  cbn [Nat.iter]. unfold quiet. cbn. auto 10.
Qed.

(** process of one record: its events that are not duplicates are in the
    store and were told to the sink, up to the place where it was cut short. *)
Lemma process_ok payload s k :
  es_ok (p_es s) -> budget s (k + 1) -> 0 <= k ->
  let s' := process payload s in
  es_ok (p_es s') /\ same s s' /\ disk_rows (p_es s) ⊆+ disk_rows (p_es s')
  /\ uncommitted s' = uncommitted s /\ budget s' k
  /\ exists es lost, record_part (plim (p_pl s)) (p_now s) payload (dd (p_pl s)) (dd (p_pl s')) es lost
        /\ step_adds s s' es /\ (p_cut s' = false -> p_cut s = false /\ lost = []).
Proof.
  intros Hok Hb Hk. cbv zeta. unfold Pipeline.process, record_part.
  destruct (record_events (plim (p_pl s)) (p_now s) payload) as [projectID evs].
  set (n := length _). destruct (iter_drop_quiet n s) as (Q & D & U & C & G).
  destruct (quiet_step _ _ _ Q Hok Hb) as [[S1 S2 S3 S4] B1].
  set (s1 := Nat.iter n _ s) in *.
  destruct (store_all_ok projectID (omap id evs) s1 k S2 B1 Hk) as (A1 & A2 & A3 & A4 & A5 & es & lost & E1 & E2 & E3).
  rewrite D in E1. rewrite C in E3.
  split_and!; auto; [eapply same_trans; eassumption|etransitivity; eassumption|congruence|].
  exists es, lost. split_and!; [exact E1| |exact E3].
  apply (step_adds_trans s s1 _ [] es (sm_issues _ _ S1)); [|exact E2].
  apply step_adds_none; [rewrite S3, app_nil_r; reflexivity|exact G].
Qed.

End Props.
End PipelineProps.
