(* ===== verification/PipelineRun.v ===== *)
(** * Run neither loses nor repeats an event

    The invariant of Run's loop: the reader stands behind the records whose
    events the store has, and the offset on disk stands behind records whose
    rows are all in segments. What records a shutdown cut short have lost is
    part of it. *)
From S2P Require Import Prelude GoSort GoStrings GoFloat GoUtf8 Monad WalSegment Wal.
From S2P Require Import GoJson WalInv WalRun WalReader WalReaderInv WalProps Grouping Envelope IngestEvent.
From S2P Require Import EventStore EventStoreProps EventStoreRun Pipeline PipelineProps.
Import Segment Wal WalInv WalRun Reader ReaderInv WalProps EventStore EventStoreProps EventStoreRun Pipeline
  PipelineProps Json.
#[local] Open Scope Z_scope.
#[local] Open Scope leser_scope.

Module PipelineRun.

(** ** The duplicate window *)

(** The keys that were taken for new, in order. *)
Fixpoint feed (ks : list string) (d : dedupe) : dedupe * list string :=
  match ks with
  | [] => (d, [])
  | k :: ks =>
      let '(d, fresh) := firstSeen k d in
      let '(d, acc) := feed ks d in (d, if fresh then k :: acc else acc)
  end.

Record window (cap : nat) (d : dedupe) (acc : list string) : Prop := {
  wi_cap : d_cap d = Z.of_nat cap;
  wi_split : exists old l2 l3, acc = old ++ l2 ++ l3 /\ d_prev d = list_to_set l2 /\ d_cur d = list_to_set l3
    /\ NoDup l2 /\ NoDup l3 /\ (length l3 <= cap)%nat /\ (length l2 <= cap)%nat
    /\ (old ++ l2 = [] \/ length l2 = cap) }.

Lemma firstSeen_window cap d acc k :
  (0 < cap)%nat -> window cap d acc ->
  let '(d', fresh) := firstSeen k d in
  window cap d' (if fresh then acc ++ [k] else acc) /\ (fresh = false -> k ∈ acc).
Proof.
  intros Hcap [Hd (old & l2 & l3 & -> & Hp & Hc & N2 & N3 & L3 & L2 & Hfull)]. unfold firstSeen.
  rewrite Hp, Hc. destruct (bool_decide_reflect (k ∈@{gset string} list_to_set l3)) as [H3|H3].
  { split; [constructor; [exact Hd|exists old, l2, l3; auto 10]|set_solver]. }
  destruct (bool_decide_reflect (k ∈@{gset string} list_to_set l2)) as [H2|H2].
  { split; [constructor; [exact Hd|exists old, l2, l3; auto 10]|set_solver]. }
  split; [|discriminate]. rewrite elem_of_list_to_set in H2, H3. rewrite size_list_to_set, Hd by exact N3.
  try rewrite Hc.
  destruct (Z.leb_spec (Z.of_nat cap) (Z.of_nat (length l3))); constructor; cbn; try reflexivity; try exact Hd.
  - exists (old ++ l2), l3, [k].
    split_and!; auto using NoDup_singleton; [rewrite <- !app_assoc; reflexivity|right; lia].
  - exists old, l2, (l3 ++ [k]). rewrite length_app, list_to_set_app_L, Hc. simpl. split_and!; auto.
    + rewrite <- !app_assoc. reflexivity.
    + set_solver.
    + apply NoDup_app. split_and!; [exact N3|set_solver|apply NoDup_singleton].
    + lia.
Qed.

Lemma feed_window cap ks : forall d acc, (0 < cap)%nat -> window cap d acc ->
  let '(d', new) := feed ks d in window cap d' (acc ++ new).
Proof.
  induction ks as [|k ks IH]; intros d acc Hcap Hw; cbn [feed]; [rewrite app_nil_r; exact Hw|].
  pose proof (firstSeen_window cap d acc k Hcap Hw) as H1. destruct (firstSeen k d) as [d1 fresh].
  destruct H1 as [H1 _]. specialize (IH _ _ Hcap H1). destruct (feed ks d1) as [d2 new].
  destruct fresh; [|exact IH]. rewrite <- app_assoc in IH. exact IH.
Qed.

(** Whatever keys came before: a key is refused only if it was
    accepted before, each of the last DedupeCap accepted keys is refused, and
    the two generations hold at most DedupeCap keys each. *)
Theorem dedupe_window o ks :
  let cap := DedupeCap (defaults o) in
  let '(d, acc) := feed ks (newDedupe cap) in
  (forall k, snd (firstSeen k d) = false -> k ∈ acc)
  /\ (forall k, k ∈ drop (length acc - Z.to_nat cap) acc -> snd (firstSeen k d) = false)
  /\ Z.of_nat (size (d_cur d)) <= cap /\ Z.of_nat (size (d_prev d)) <= cap.
Proof.
  intros cap. assert (Hcap : 0 < cap) by (unfold cap, defaults; cbn; destruct (Z.leb_spec (DedupeCap o) 0); lia).
  pose proof (feed_window (Z.to_nat cap) ks (newDedupe cap) [] ltac:(lia)) as H.
  assert (H0 : window (Z.to_nat cap) (newDedupe cap) []).
  { constructor; [rewrite Z2Nat.id by lia; reflexivity|]. exists [], [], []. split_and!; auto using NoDup_nil_2; simpl; lia. }
  specialize (H H0). destruct (feed ks (newDedupe cap)) as [d acc]. cbn [app] in H. split_and!.
  - intros k Hk. pose proof (firstSeen_window (Z.to_nat cap) _ _ k ltac:(lia) H) as Hf.
    destruct (firstSeen k d). destruct Hf as [_ Hf]. apply Hf, Hk.
  - intros k Hk. destruct H as [Hd (old & l2 & l3 & -> & Hp & Hc & N2 & N3 & L3 & L2 & Hfull)].
    assert (Hin : k ∈ l2 ++ l3).
    { destruct Hfull as [Hf|Hf]; [apply app_eq_nil in Hf as [-> ->]; eapply subseteq_drop, Hk|].
      rewrite drop_app in Hk. apply elem_of_app in Hk as [Hk|Hk]; [|eapply subseteq_drop, Hk].
      rewrite skipn_all2 in Hk; [inversion Hk|]. rewrite !length_app. lia. }
    unfold firstSeen. rewrite Hp, Hc. apply elem_of_app in Hin as [Hin|Hin].
    + case_bool_decide; [reflexivity|]. rewrite bool_decide_true; [reflexivity|set_solver].
    + rewrite bool_decide_true; [reflexivity|set_solver].
  - destruct H as [Hd (old & l2 & l3 & _ & Hp & Hc & N2 & N3 & L3 & L2 & _)].
    rewrite Hc, size_list_to_set by exact N3. lia.
  - destruct H as [Hd (old & l2 & l3 & _ & Hp & Hc & N2 & N3 & L3 & L2 & _)].
    rewrite Hp, size_list_to_set by exact N2. lia.
Qed.

(** ** Commit and NewReader on a working disk *)

Lemma rnext_io_ok s : d_io (r_st s) = [] -> rnext_io s = (s, inr IoOk).
Proof. intros H. unfold rnext_io, next_io. rewrite H. destruct s; reflexivity. Qed.

Lemma writeOffsetFile_ok path off s :
  d_io (r_st s) = [] ->
  exists offs, writeOffsetFile path off s = (mkRSt (r_st s) offs (r_rd s), inr tt)
    /\ offs !! path = Some (offset_bytes off).
Proof.
  destruct s as [st offs rd]. cbn [r_st r_offs r_rd]. intros Hio.
  assert (Hs : forall o, rsys (mkRSt st o rd) = (mkRSt st o rd, inr tt)) by (intros; apply rsys_ok, Hio).
  assert (Hn : forall o, rnext_io (mkRSt st o rd) = (mkRSt st o rd, inr IoOk)) by (intros; apply rnext_io_ok, Hio).
  unfold writeOffsetFile. rewrite (bind_ok _ _ _ _ _ (Hs _)), bind_set_off. cbn [r_st r_offs r_rd].
  rewrite (bind_ok _ _ _ _ _ (Hn _)), bind_set_off. cbn [r_st r_offs r_rd].
  do 3 rewrite (bind_ok _ _ _ _ _ (Hs _)). unfold set_off, modify. cbn [r_st r_offs r_rd].
  eexists. split; [reflexivity|]. rewrite lookup_delete_ne by apply tmp_ne. apply lookup_insert_eq.
Qed.

Lemma Commit_ok s :
  d_io (r_st s) = [] ->
  exists offs, Commit s = (mkRSt (r_st s) offs (set_committed (pos (r_rd s)) (r_rd s)), inr tt)
    /\ offs !! offsetPath (name (r_rd s)) = Some (offset_bytes (pos (r_rd s))).
Proof.
  intros Hio. destruct (writeOffsetFile_ok (offsetPath (name (r_rd s))) (pos (r_rd s)) s Hio) as (offs & E & H).
  exists offs. split; [|exact H]. unfold Commit. unfold bind at 1, get.
  rewrite (bind_ok _ _ _ _ _ E). reflexivity.
Qed.

(** The offset a consumer's file holds. *)
Definition stored_offset (n : string) (s : RSt) : option Z :=
  match r_offs s !! offsetPath n with Some b => parse_offset b | None => None end.

(** Where a new reader starts: at its offset, but not before the log does. *)
Definition start_offset (n : string) (s : RSt) : Z :=
  let oldest := OldestOffset (log (r_st s)) in Z.max (default oldest (stored_offset n s)) oldest.

Lemma NewReader_ok n s :
  wal_wf (r_st s) -> d_io (r_st s) = [] -> n <> ""%string -> contains_sep n = false ->
  match r_offs s !! offsetPath n with
  | Some b => exists o, parse_offset b = Some o /\ o <= LatestOffset (log (r_st s))
  | None => True
  end ->
  NewReader n s = (mkRSt (r_st s) (r_offs s)
    (mkReader n (start_offset n s) (default (OldestOffset (log (r_st s))) (stored_offset n s)) None), inr tt).
Proof.
  intros Hwf Hio Hn Hsep Hoff. unfold NewReader. rewrite bool_decide_false, Hsep by exact Hn. change (false || false) with false. cbv iota.
  rewrite (bind_ok _ _ _ _ _ (rsys_ok _ Hio)). unfold bind at 1, Reader.set_rd at 1, modify at 1.
  set (s1 := mkRSt (r_st s) (r_offs s) (mkReader n 0 0 None)).
  assert (E : try (readOffsetFile (offsetPath n)) s1
    = (s1, inr match stored_offset n s with Some o => inr o | None => inl RErrNotExist end)).
  { unfold try, readOffsetFile. rewrite (bind_ok _ _ _ _ _ (rsys_ok s1 Hio)). unfold bind, get, stored_offset.
    cbn [r_offs s1]. destruct (r_offs s !! offsetPath n) as [b|]; [|reflexivity].
    destruct Hoff as (o & -> & _). reflexivity. }
  rewrite (bind_ok _ _ _ _ _ E). unfold bind, get. cbv zeta. unfold start_offset.
  destruct (stored_offset n s) as [o|]; cbn; unfold Reader.set_rd, modify, set_pos, set_committed; cbn.
  - destruct (Z.ltb_spec o (OldestOffset (log (r_st s)))); cbn; [rewrite Z.max_r by lia|rewrite Z.max_l by lia]; reflexivity.
  - rewrite Z.ltb_irrefl, Z.max_id. reflexivity.
Qed.

(** ** The invariant of the loop *)
Section Run.
Context (time_Parse : string -> option Z) (ParseFloat : string -> option float64)
  (convert_out_of_range : float64 -> Z) (lower_rune : Z -> Z).
Context `{!SliceSort event_le} `{!SliceSort seg_le} `{!MapRange (Z * Z)}.

Notation consumed := (consumed time_Parse ParseFloat convert_out_of_range lower_rune).
Notation kept := (kept time_Parse ParseFloat convert_out_of_range lower_rune).
Notation process := (process time_Parse ParseFloat convert_out_of_range lower_rune).
Notation consume := (consume time_Parse ParseFloat convert_out_of_range lower_rune).
Notation run_body := (run_body time_Parse ParseFloat convert_out_of_range lower_rune).
Notation run_turn := (run_turn time_Parse ParseFloat convert_out_of_range lower_rune).
Notation run_loop := (run_loop time_Parse ParseFloat convert_out_of_range lower_rune).
Notation Run := (Run time_Parse ParseFloat convert_out_of_range lower_rune).

(** The records from offset [p] on. *)
Definition unread (p : Z) (w : Wal.St) : list Record := drop (Z.to_nat (p - OldestOffset (log w))) (log_records w).

(** A run that began at offset [p0] with the store rows [rows0] and the
    reports [hits0] has the events of the first [n] records, and the sink was
    told of each of them. *)
Definition has_reported (lim : Envelope.Limits) (d0 : dedupe) (w : Wal.St) (p0 : Z) (n : nat) (d : dedupe)
    (rows0 rows : list Event) (issues : bool) (hits0 hits : list IssueHit) : Prop :=
  exists es hs, consumed lim d0 (take n (unread p0 w)) d es /\ rows ≡ₚ rows0 ++ es
    /\ hits = hits0 ++ hs /\ reported issues es hs.

(** The same, but for the events [lost] behind the places where records were
    cut short. *)
Definition has_kept (lim : Envelope.Limits) (d0 : dedupe) (w : Wal.St) (p0 : Z) (n : nat) (d : dedupe)
    (rows0 rows : list Event) (issues : bool) (hits0 hits : list IssueHit) (lost : list Event) : Prop :=
  exists es hs, kept lim d0 (take n (unread p0 w)) d es lost /\ rows ≡ₚ rows0 ++ es
    /\ hits = hits0 ++ hs /\ reported issues es hs.

Lemma has_kept_reported lim d0 w p0 n d rows0 rows issues hits0 hits lost : lost = [] ->
  has_kept lim d0 w p0 n d rows0 rows issues hits0 hits lost -> has_reported lim d0 w p0 n d rows0 rows issues hits0 hits.
Proof. intros -> (es & hs & C1 & C2). exists es, hs. split; [exact (kept_consumed _ _ _ _ _ _ _ _ _ _ C1 eq_refl)|exact C2]. Qed.

(** The offset on disk: the one at the start, or one behind [m] records; all
    their rows but the lost ones are in segments. *)
Definition offset_safe (lim : Envelope.Limits) (d0 : dedupe) (w : Wal.St) (p0 : Z) (off0 : option (list byte))
    (rows0 : list Event) (lost : list Event) (s : PSt) : Prop :=
  r_offs (p_rd s) !! offsetPath ConsumerName = off0
  \/ exists m d es l, p0 + Z.of_nat m <= pos (r_rd (p_rd s))
       /\ r_offs (p_rd s) !! offsetPath ConsumerName = Some (offset_bytes (p0 + Z.of_nat m))
       /\ kept lim d0 (take m (unread p0 w)) d es l /\ l `prefix_of` lost
       /\ rows0 ++ es ⊆+ disk_rows (p_es s).

Section Inv.
Context (lim : Envelope.Limits) (d0 : dedupe) (w : Wal.St) (p0 : Z) (off0 : option (list byte)) (rows0 : list Event)
  (issues : bool) (hits0 : list IssueHit).

Record run_inv (s : PSt) : Prop := {
  ri_rd : reader_ok (p_rd s);
  ri_w : r_st (p_rd s) = w;
  ri_name : name (r_rd (p_rd s)) = ConsumerName;
  ri_lim : plim (p_pl s) = lim;
  ri_issues : has_issues (p_pl s) = issues;
  ri_es : es_ok (p_es s);
  ri_old : OldestOffset (log w) <= p0;
  ri_pos : p0 <= pos (r_rd (p_rd s));
  ri_all : exists lost,
    has_kept lim d0 w p0 (Z.to_nat (pos (r_rd (p_rd s)) - p0)) (dd (p_pl s)) rows0 (rows_of (p_es s))
      issues hits0 (p_hits s) lost
    /\ offset_safe lim d0 w p0 off0 rows0 lost s /\ (p_cut s = false -> lost = []) }.

(** More in the segments does no harm to the offset. *)
Lemma offset_safe_mono lost lost' s s' :
  r_offs (p_rd s') = r_offs (p_rd s) -> pos (r_rd (p_rd s)) <= pos (r_rd (p_rd s')) ->
  disk_rows (p_es s) ⊆+ disk_rows (p_es s') -> lost `prefix_of` lost' ->
  offset_safe lim d0 w p0 off0 rows0 lost s -> offset_safe lim d0 w p0 off0 rows0 lost' s'.
Proof.
  intros H1 H2 H3 H4 [Ho|(m & d & es & l & M1 & M2 & M3 & M4 & M5)]; [left; congruence|].
  right. exists m, d, es, l. rewrite H1. split_and!; auto; [lia|etransitivity; eassumption|etransitivity; eassumption].
Qed.

(** A step of the store that adds no event keeps it. *)
Lemma run_inv_store s s' :
  run_inv s -> same s s' -> es_ok (p_es s') -> disk_rows (p_es s) ⊆+ disk_rows (p_es s') ->
  rows_of (p_es s') ≡ₚ rows_of (p_es s) -> dd (p_pl s') = dd (p_pl s) -> p_hits s' = p_hits s ->
  p_cut s' = p_cut s -> run_inv s'.
Proof.
  intros [R1 R2 R3 R4 Ris R5 Rold R6 (lost & (es & hs & C1 & C2 & C3) & R8 & R9)] [S1 S2 Sis S3 S4 S5] Hok Hd Hr E1 E2 E3.
  constructor; rewrite ?S1; auto; [congruence|congruence|].
  exists lost. rewrite E1, E2, E3. split_and!; [exists es, hs; rewrite Hr; auto| |exact R9].
  apply (offset_safe_mono lost lost s); auto; rewrite S1; [reflexivity|lia].
Qed.

(** How a commit ends: all rows are in segments and the offset on disk is the
    reader's, or the flush failed. *)
Definition finished (s : PSt) (r : run_error + unit) : Prop :=
  match r with
  | inr _ => buf (store (p_es s)) = []
      /\ r_offs (p_rd s) !! offsetPath ConsumerName = Some (offset_bytes (pos (r_rd (p_rd s))))
  | inl e => exists e', e = RunFlush e'
  end.

(** commit: it flushes, then moves the offset on disk behind what was read. *)
Lemma commit_ok s s' r k :
  run_inv s -> budget s (k + 1) -> 0 <= k -> commit s = (s', r) ->
  run_inv s' /\ budget s' k /\ p_sched s' = p_sched s /\ p_cut s' = p_cut s
  /\ pos (r_rd (p_rd s')) = pos (r_rd (p_rd s))
  /\ finished s' r.
Proof.
  intros Hinv Hb Hk E. unfold commit in E. destruct (flush s) as [s1 r1] eqn:EF.
  destruct (flush_ok _ _ _ k EF (ri_es _ Hinv) Hb Hk) as ([F1 F2 F3 F4] & Fb & Fp & Fu & Fs & Fc & Fh & Fr).
  rewrite app_nil_r in F3.
  assert (Hinv1 : run_inv s1).
  { apply (run_inv_store s); auto. rewrite Fp. reflexivity. }
  pose proof (sm_rd _ _ F1) as Hrd.
  destruct r1 as [e|u].
  - injection E as <- <-. rewrite Hrd. split_and!; auto. eexists. reflexivity.
  - destruct Hinv1 as [R1 R2 R3 R4 Ris R5 Rold R6 (lost & R7 & _ & R9)].
    assert (Hio : d_io (r_st (p_rd s1)) = []) by (destruct R1 as (? & ? & ? & ? & _ & ? & _); assumption).
    destruct (Commit_ok (p_rd s1) Hio) as (offs & EC & Hoff). rewrite EC in E. injection E as <- <-.
    rewrite R3 in Hoff. rewrite Hrd in Hoff |- *. rewrite Hrd in R1, R2, R3, R6, R7.
    split_and!; auto; [|split; [exact Fr|exact Hoff]].
    constructor; auto. exists lost. split_and!; [exact R7| |exact R9]. right. destruct R7 as (es & hs & C1 & C2 & _).
    exists (Z.to_nat (pos (r_rd (p_rd s)) - p0)), (dd (p_pl s1)), es, lost.
    cbn. rewrite Z2Nat.id, Zplus_minus by lia. split_and!; [lia|exact Hoff|exact C1|reflexivity|].
    rewrite <- C2, rows_of_eq, Fr. reflexivity.
Qed.

Lemma unread_lookup p n :
  OldestOffset (log w) <= p -> unread p w !! n = log_records w !! Z.to_nat (p + Z.of_nat n - OldestOffset (log w)).
Proof. intros H. unfold unread. rewrite lookup_drop. f_equal. lia. Qed.

(** One record read and processed. *)
Lemma read_ok s rd rec (lag u k : Z) :
  run_inv s -> budget s (k + 1) -> 0 <= k -> pos (r_rd (p_rd s)) < LatestOffset (log w) ->
  Next (p_rd s) = (rd, inr rec) ->
  let s' := set_uncommitted u (process (Segment.Payload rec) (set_pl (set_lag lag) (set_rd rd s))) in
  run_inv s' /\ budget s' k /\ (length (p_sched s') <= length (p_sched s))%nat.
Proof.
  intros [R1 R2 R3 R4 Ris R5 Rold R6 (lost0 & (es0 & hs0 & C1 & C2 & C3 & C4) & R8 & R9)] Hb Hk Hlt E.
  cbv zeta. rewrite <- R2 in Hlt.
  destruct (Next_reads _ R1 Hlt) as (rd' & rec' & E' & Hrec & _ & N1 & N2 & [_ N3] & N4 & N5).
  rewrite E in E'. injection E' as <- <-.
  set (s1 := set_pl (set_lag lag) (set_rd rd s)).
  destruct (process_ok time_Parse ParseFloat convert_out_of_range lower_rune (Segment.Payload rec) s1 k R5 Hb Hk)
    as (P1 & [S1 S2 Sis S3 S4 S5] & P3 & P4 & P5 & es & lost & A1 & (A2 & hs & A3 & A4) & P6).
  set (s2 := process (Segment.Payload rec) s1) in *. cbn in S1, S2, Sis, P3, S5.
  split_and!; [|exact P5|exact S5].
  constructor; cbn; rewrite ?S1; try congruence; auto; [lia|].
  exists (lost0 ++ lost). split_and!.
  - replace (Z.to_nat (pos (r_rd rd) - p0)) with (S (Z.to_nat (pos (r_rd (p_rd s)) - p0))) by lia.
    exists (es0 ++ es), (hs0 ++ hs). rewrite (take_S_r _ _ rec).
    + split_and!; [|rewrite A2; cbn; rewrite C2, app_assoc; reflexivity|rewrite A3; cbn; rewrite C3, app_assoc; reflexivity|
        apply reported_app; [exact C4|rewrite <- Ris; exact A4]].
      eapply kept_snoc; [exact C1|]. cbn in A1. rewrite R4 in A1. exact A1.
    + rewrite unread_lookup by exact Rold. rewrite <- Hrec, R2. f_equal. lia.
  - refine (offset_safe_mono lost0 _ s _ _ _ P3 _ R8); cbn; rewrite ?S1; [exact N2|lia|].
    apply prefix_app_r. reflexivity.
  - intros Hc. destruct (P6 Hc) as [Hc0 ->]. rewrite (R9 Hc0). reflexivity.
Qed.

Lemma budget_weaken s k k' : es_ok (p_es s) -> k' <= k -> budget s k -> budget s k'.
Proof. intros Hok Hk Hb. apply (budget_use s s k k' 0); auto; try lia. apply cap_nonneg, Hok. Qed.

(** The invariant does not speak of the schedule, the lag and the count. *)
Lemma run_inv_quiet s s' :
  run_inv s -> p_rd s' = p_rd s -> p_es s' = p_es s -> plim (p_pl s') = plim (p_pl s) ->
  dd (p_pl s') = dd (p_pl s) -> p_cut s' = p_cut s -> has_issues (p_pl s') = has_issues (p_pl s) ->
  p_hits s' = p_hits s -> run_inv s'.
Proof.
  intros [R1 R2 R3 R4 Ris R5 Rold R6 R7] E1 E2 E3 E4 E5 E6 E7.
  constructor; unfold offset_safe in *; rewrite ?E1, ?E2, ?E3, ?E4, ?E5, ?E6, ?E7; auto.
Qed.

Lemma take_turn_ok s s' sel k :
  run_inv s -> budget s k -> take_turn s = (s', sel) ->
  run_inv s' /\ budget s' k /\ p_rd s' = p_rd s
  /\ (sel = SelDone \/ budget s' (k + 3) /\ (length (p_sched s') < length (p_sched s))%nat).
Proof.
  intros Hinv Hb E. unfold take_turn in E. destruct (p_sched s) as [|[x t] sched] eqn:Es.
  { injection E as <- <-. auto 10. }
  injection E as <- <-.
  assert (T1 : run_inv (set_turn sched t s)) by (apply (run_inv_quiet s); auto).
  assert (Hb3 : budget (set_turn sched t s) (k + 3)).
  { apply (budget_use s _ k _ 0); auto; [apply cap_nonneg, Hinv|cbn; lia|cbn; rewrite Es; simpl; lia]. }
  split_and!; auto.
  eapply budget_weaken; [apply (ri_es _ T1)| |exact Hb3]. lia.
Qed.

Lemma periodic_ok s k :
  run_inv s -> budget s (k + 1) -> 0 <= k ->
  run_inv (periodic s) /\ budget (periodic s) k /\ p_sched (periodic s) = p_sched s.
Proof.
  intros Hinv Hb Hk. unfold periodic. destruct (_ || _).
  - destruct (commit s) as [s' r] eqn:E. destruct (commit_ok _ _ _ _ Hinv Hb Hk E) as (C1 & C2 & C3 & _). auto.
  - split_and!; auto. eapply budget_weaken; [apply Hinv| |exact Hb]. lia.
Qed.

Lemma final_commit_ok s s' o k :
  run_inv s -> budget s (k + 1) -> 0 <= k -> final_commit s = (s', o) ->
  run_inv s' /\ exists r, o = Some r /\ finished s' r.
Proof.
  unfold final_commit. intros Hinv Hb Hk E. destruct (commit s) as [s2 r] eqn:E2. injection E as <- <-.
  destruct (commit_ok _ _ _ _ Hinv Hb Hk E2) as (C1 & _ & _ & _ & _ & C6). eauto.
Qed.

Lemma consume_ok s rd rec k :
  run_inv s -> budget s (k + 2) -> 0 <= k -> pos (r_rd (p_rd s)) < LatestOffset (log w) ->
  Next (p_rd s) = (rd, inr rec) ->
  let s' := consume rec (set_rd rd s) in
  run_inv s' /\ budget s' k /\ (length (p_sched s') <= length (p_sched s))%nat.
Proof.
  intros Hinv Hb Hk Hlt E. cbv zeta. unfold Pipeline.consume. cbv zeta.
  replace (k + 2) with (k + 1 + 1) in Hb by lia.
  set (s2 := set_uncommitted _ _).
  assert (H2 : run_inv s2 /\ budget s2 (k + 1) /\ (length (p_sched s2) <= length (p_sched s))%nat)
    by (apply read_ok; auto; lia).
  clearbody s2. destruct H2 as (R1 & R2 & R3). destruct (_ <=? _).
  - destruct (commit s2) as [s' r] eqn:EC. destruct (commit_ok _ _ _ _ R1 R2 Hk EC) as (C1 & C2 & C3 & _).
    cbn [fst]. rewrite C3. auto.
  - split_and!; auto. eapply budget_weaken; [apply (ri_es _ R1)| |exact R2]. lia.
Qed.

Lemma run_body_ok s s' o :
  run_inv s -> budget s 5 -> run_body s = (s', o) ->
  run_inv s' /\ match o with
                | None => budget s' 3 /\ (length (p_sched s') <= length (p_sched s))%nat
                | Some r => finished s' r
                end.
Proof.
  intros Hinv Hb E. unfold Pipeline.run_body in E.
  pose proof (ri_w _ Hinv) as Hw. destruct (Z.lt_ge_cases (pos (r_rd (p_rd s))) (LatestOffset (log w))) as [Hlt|Hge].
  - rewrite <- Hw in Hlt. destruct (Next_reads _ (ri_rd _ Hinv) Hlt) as (rd & rec & EN & _). rewrite EN in E.
    injection E as <- <-. rewrite Hw in Hlt. destruct (consume_ok _ _ _ 3 Hinv Hb ltac:(lia) Hlt EN) as (C1 & C2 & C3). auto.
  - rewrite <- Hw in Hge. rewrite (Next_at_head _ Hge) in E.
    set (s1 := set_pl (set_lag 0) (set_rd (p_rd s) s)) in E.
    assert (H1 : run_inv s1) by (apply (run_inv_quiet s); auto).
    assert (B1 : budget s1 5) by exact Hb. assert (L1 : p_sched s1 = p_sched s) by reflexivity. clearbody s1.
    destruct (take_turn s1) as [s2 sel] eqn:ET. destruct (take_turn_ok _ _ _ _ H1 B1 ET) as (T1 & T2 & _ & T3).
    destruct sel; [|injection E as <- <-; destruct T3 as [|[T3 T4]]; [discriminate|]; rewrite L1 in T4;
      (split_and!; [exact T1|eapply budget_weaken; [apply (ri_es _ T1)| |exact T3]; lia|lia])..].
    destruct (final_commit_ok _ _ _ 4 T1 T2 ltac:(lia) E) as (F1 & r & -> & F2). auto.
Qed.

(** One turn of the loop keeps the invariant; if it does not end the run, it
    took an entry of the schedule. *)
Lemma run_turn_ok s s' o :
  run_inv s -> budget s 3 -> run_turn s = (s', o) ->
  run_inv s' /\ match o with
                | None => budget s' 3 /\ (length (p_sched s') < length (p_sched s))%nat
                | Some r => finished s' r
                end.
Proof.
  intros Hinv Hb E. unfold Pipeline.run_turn in E. destruct (take_turn s) as [s1 sel] eqn:E1.
  destruct (take_turn_ok _ _ _ _ Hinv Hb E1) as (T1 & T2 & T3 & T5).
  assert (Hbody : forall s2, run_body s2 = (s', o) -> run_inv s2 -> budget s2 5 -> p_sched s2 = p_sched s1 ->
    (length (p_sched s1) < length (p_sched s))%nat ->
    run_inv s' /\ match o with
                  | None => budget s' 3 /\ (length (p_sched s') < length (p_sched s))%nat
                  | Some r => finished s' r
                  end).
  { intros s2 E2 I2 B2 L2 Hl. destruct (run_body_ok _ _ _ I2 B2 E2) as (Y1 & Y2). split; [exact Y1|].
    destruct o; [exact Y2|]. rewrite L2 in Y2. destruct Y2. split; [assumption|lia]. }
  destruct sel.
  - destruct (final_commit_ok _ _ _ 2 T1 T2 ltac:(lia) E) as (F1 & r & -> & F2). auto.
  - destruct T5 as [|[T5 T6]]; [discriminate|]. destruct (periodic_ok s1 5 T1 T5 ltac:(lia)) as (P1 & P2 & P3). eauto.
  - destruct T5 as [|[T5 T6]]; [discriminate|]. eapply Hbody; eauto. eapply budget_weaken; [apply T1| |exact T5]. lia.
Qed.

Lemma run_loop_ok fuel : forall s s' o,
  run_inv s -> budget s 3 -> run_loop fuel s = (s', o) ->
  run_inv s' /\ match o with
                | None => (fuel <= length (p_sched s))%nat
                | Some r => finished s' r
                end.
Proof.
  induction fuel as [|fuel IH]; intros s s' o Hinv Hb E; cbn [Pipeline.run_loop] in E.
  { injection E as <- <-. split; [exact Hinv|lia]. }
  destruct (run_turn s) as [s1 o1] eqn:E1. destruct (run_turn_ok _ _ _ Hinv Hb E1) as (R1 & R2).
  destruct o1 as [r|].
  - injection E as <- <-. auto.
  - destruct R2 as [R2 R3]. destruct (IH _ _ _ R1 R2 E) as (I1 & I2). split; [exact I1|]. destruct o; [exact I2|lia].
Qed.

End Inv.
(** ** Every turn uses the schedule *)
Lemma flush_sched s : p_sched (fst (flush s)) = p_sched s.
Proof. unfold flush. destruct (Flush _ _). reflexivity. Qed.

Lemma commit_sched s : p_sched (fst (commit s)) = p_sched s.
Proof.
  pose proof (flush_sched s) as H. unfold commit. destruct (flush s) as [s1 [e|u]]; [exact H|].
  destruct (Commit (p_rd s1)) as [rd [e|v]]; exact H.
Qed.

Lemma take_turn_sched s : let '(s', sel) := take_turn s in
  p_hung s' = p_hung s /\ (length (p_sched s') <= length (p_sched s))%nat
  /\ (sel = SelDone \/ (length (p_sched s') < length (p_sched s))%nat).
Proof. unfold take_turn. destruct (p_sched s) as [|[x t] l] eqn:E; [rewrite E; auto|]. simpl. split_and!; auto; lia. Qed.

(** [s'] comes of [s] without a loop that ran out of fuel. *)
Definition steady (s s' : PSt) : Prop := p_hung s' = p_hung s /\ (length (p_sched s') <= length (p_sched s))%nat.

Lemma steady_trans s1 s2 s3 : steady s1 s2 -> steady s2 s3 -> steady s1 s3.
Proof. unfold steady. intros [A1 A2] [B1 B2]. split; [congruence|lia]. Qed.

Lemma flush_hung s : p_hung (fst (flush s)) = p_hung s.
Proof. unfold flush. destruct (Flush _ _). reflexivity. Qed.

Lemma commit_steady s : steady s (fst (commit s)).
Proof.
  split; [|rewrite commit_sched; reflexivity]. pose proof (flush_hung s) as H. unfold commit.
  destruct (flush s) as [s1 [e|u]]; [exact H|]. destruct (Commit (p_rd s1)) as [rd [e|v]]; exact H.
Qed.

(** The retry loop ends: each attempt takes an entry of the schedule, and once
    that is used up, the context's case ends it. *)
Lemma append_retry_steady ev fuel : forall s, (length (p_sched s) < fuel)%nat -> steady s (fst (append_retry fuel ev s)).
Proof.
  induction fuel as [|fuel IH]; intros s Hf; [lia|]. cbn [append_retry].
  destruct (Append [ev] (p_now s) (p_es s)) as [es [[]|u]]; try (split; reflexivity).
  pose proof (flush_sched (set_es es s)) as F1. pose proof (flush_hung (set_es es s)) as F2.
  destruct (flush (set_es es s)) as [s1 r1]. cbn [fst set_es p_sched p_hung] in F1, F2.
  pose proof (take_turn_sched s1) as HT. destruct (take_turn s1) as [s2 sel]. destruct HT as (T1 & T2 & T3).
  rewrite F1 in T2, T3. assert (S2 : steady s s2) by (split; [congruence|exact T2]). destruct sel; [exact S2|..];
    (destruct T3 as [|T3]; [discriminate|]; apply (steady_trans _ s2); [exact S2|apply IH; lia]).
Qed.

Lemma store_all_steady projectID l : forall s, steady s (store_all projectID l s).
Proof.
  induction l as [|pe l IH]; intros s; cbn [store_all]; [split; reflexivity|].
  destruct (store_one projectID pe s) as [s1 go] eqn:E.
  assert (H : steady s s1).
  { unfold store_one in E. destruct (if bool_decide _ then _ else _) as [d fresh].
    destruct fresh; cbn [negb] in E; [|injection E as <- <-; split; reflexivity].
    pose proof (append_retry_steady (toStoreEvent projectID (pe_ex pe) (pe_payload pe)) _ (set_pl (set_dd d) s) (Nat.lt_succ_diag_r _)) as HA.
    destruct (append_retry _ _ _) as [s2 [|]]; [destruct (has_issues _)|]; injection E as <- <-; exact HA. }
  destruct go; [apply (steady_trans _ s1); [exact H|apply IH]|exact H].
Qed.

Lemma iter_drop_hung n s : p_hung (Nat.iter n (set_pl (drop_ DropMalformed)) s) = p_hung s.
Proof. induction n as [|n IH]; [reflexivity|exact IH]. Qed.

Lemma process_steady payload s : steady s (process payload s).
Proof.
  unfold Pipeline.process. destruct (record_events _ _ _ _ _ _ _) as [p evs].
  set (n := length _). apply (steady_trans _ (Nat.iter n (set_pl (drop_ DropMalformed)) s)); [|apply store_all_steady].
  destruct (iter_drop_quiet n s) as ((_ & _ & _ & _ & Q & _) & _). split; [apply iter_drop_hung|rewrite Q; reflexivity].
Qed.

Lemma run_body_steady s : steady s (fst (run_body s)).
Proof.
  unfold Pipeline.run_body. destruct (Next (p_rd s)) as [rd [[]|rec]]; try (split; reflexivity).
  - set (s1 := set_pl _ _). assert (H1 : steady s s1) by (split; reflexivity). clearbody s1.
    pose proof (take_turn_sched s1) as HT. destruct (take_turn s1) as [s2 sel]. destruct HT as (T1 & T2 & _).
    apply (steady_trans _ s1 _ H1). assert (H2 : steady s1 s2) by (split; assumption).
    destruct sel; [|exact H2..]. unfold final_commit. pose proof (commit_steady s2) as HC.
    destruct (commit s2). exact (steady_trans _ _ _ H2 HC).
  - unfold Pipeline.consume. cbv zeta. cbn [fst]. set (s0 := set_pl _ (set_rd rd s)). set (s2 := set_uncommitted _ _).
    assert (H : steady s s2) by (apply (process_steady (Segment.Payload rec) s0)). clearbody s2.
    destruct (_ <=? _); [apply (steady_trans _ s2); [exact H|apply commit_steady]|exact H].
Qed.

Lemma periodic_steady s : steady s (periodic s).
Proof. unfold periodic. destruct (_ || _); [apply commit_steady|split; reflexivity]. Qed.

(** A turn that does not return took an entry of the schedule. *)
Lemma run_turn_steady s : let '(s', o) := run_turn s in
  steady s s' /\ (o = None -> (length (p_sched s') < length (p_sched s))%nat).
Proof.
  unfold Pipeline.run_turn. pose proof (take_turn_sched s) as HT. destruct (take_turn s) as [s1 sel]. destruct HT as (T1 & T2 & T3).
  assert (H1 : steady s s1) by (split; assumption).
  assert (Hb : forall s2, steady s1 s2 -> sel <> SelDone -> let '(s', o) := run_body s2 in
    steady s s' /\ (o = None -> (length (p_sched s') < length (p_sched s))%nat)).
  { intros s2 H2 Hs. destruct T3 as [|T3]; [contradiction|]. pose proof (run_body_steady s2) as HB.
    destruct (run_body s2) as [s3 o]. cbn [fst] in HB.
    split; [exact (steady_trans _ _ _ H1 (steady_trans _ _ _ H2 HB))|]. intros _. destruct H2, HB. lia. }
  destruct sel; [|apply Hb..]; try discriminate; [|apply periodic_steady|split; reflexivity].
  unfold final_commit. pose proof (commit_steady s1) as HC. destruct (commit s1) as [s2 r].
  split; [exact (steady_trans _ _ _ H1 HC)|discriminate].
Qed.

(** Any fuel beyond the schedule gives the same answer, and no loop hangs. *)
Lemma run_loop_steady fuel : forall s, (length (p_sched s) < fuel)%nat ->
  steady s (fst (run_loop fuel s)) /\ snd (run_loop fuel s) <> None /\ run_loop (S fuel) s = run_loop fuel s.
Proof.
  induction fuel as [|fuel IH]; intros s Hf; [lia|]. cbn [Pipeline.run_loop]. pose proof (run_turn_steady s) as H.
  destruct (run_turn s) as [s1 [r|]]; destruct H as [H1 H2]; [split_and!; [exact H1|discriminate|reflexivity]|].
  destruct (IH s1 ltac:(specialize (H2 eq_refl); lia)) as (I1 & I2 & I3).
  split_and!; [exact (steady_trans _ _ _ H1 I1)|exact I2|exact I3].
Qed.

Lemma run_loop_returns fuel s : (length (p_sched s) < fuel)%nat -> snd (run_loop fuel s) <> None.
Proof. intros H. apply (run_loop_steady fuel s H). Qed.

(** The offset file of the consumer, if there is one, is intact and not ahead
    of the log. *)
Definition start_ok (n : string) (s : RSt) : Prop :=
  match r_offs s !! offsetPath n with
  | Some b => exists o, parse_offset b = Some o /\ o <= LatestOffset (log (r_st s))
  | None => True
  end.

Lemma CloseReader_ok s :
  d_io (r_st s) = [] -> r_st (fst (CloseReader s)) = r_st s /\ r_offs (fst (CloseReader s)) = r_offs s
  /\ pos (r_rd (fst (CloseReader s))) = pos (r_rd s).
Proof.
  intros Hio. unfold CloseReader, bind, get. destruct (cur (r_rd s)); [|auto].
  unfold try. rewrite (rsys_ok _ Hio). auto.
Qed.

Lemma start_inv s offs :
  wal_wf (r_st (p_rd s)) -> d_io (r_st (p_rd s)) = [] -> es_ok (p_es s) -> start_ok ConsumerName (p_rd s) ->
  NewReader ConsumerName (p_rd s) = (offs, inr tt) ->
  run_inv (plim (p_pl s)) (dd (p_pl s)) (r_st (p_rd s)) (start_offset ConsumerName (p_rd s))
    (r_offs (p_rd s) !! offsetPath ConsumerName) (rows_of (p_es s)) (has_issues (p_pl s)) (p_hits s) (set_uncommitted 0 (set_rd offs s)).
Proof.
  intros Hwf Hio Hes Hstart E. rewrite NewReader_ok in E; [|auto; discriminate..]. injection E as <-.
  pose proof Hwf as (l & a & ss & rs & Hinv). destruct (inv_next_oldest _ _ _ _ _ Hinv) as [Hn _].
  constructor; cbn; auto; try lia.
  - exists l, a, ss, rs. cbn. split_and!; auto.
    + unfold start_offset. cbv zeta. lia.
    + unfold start_offset, stored_offset, start_ok in *. cbv zeta. unfold LatestOffset in *.
      destruct (r_offs (p_rd s) !! _) as [b|]; [destruct Hstart as (o & -> & Ho)|]; cbn; lia.
  - unfold start_offset. cbv zeta. lia.
  - rewrite Z.sub_diag. exists []. split_and!; [|left; reflexivity|auto].
    exists [], []. rewrite !app_nil_r. split_and!; auto using reported_nil. constructor.
Qed.

Lemma reader_range s :
  reader_ok s -> 0 <= OldestOffset (log (r_st s)) /\ pos (r_rd s) < 2 ^ 64
  /\ pos (r_rd s) <= OldestOffset (log (r_st s)) + Z.of_nat (length (log_records (r_st s))).
Proof.
  intros (l & a & ss & rs & Hinv & _ & Hpos & _). destruct (inv_next_oldest _ _ _ _ _ Hinv) as [Hn _].
  destruct (inv_chain _ _ _ _ _ Hinv) as [Hms _]. destruct (inv_OldestOffset _ _ _ _ _ Hinv) as (m0 & Hh & ->).
  pose proof (iv_segs _ _ _ _ _ Hinv) as Hsegs. pose proof (iv_next _ _ _ _ _ Hinv) as Hnext.
  unfold LatestOffset in Hpos. destruct (iv_repr _ _ _ _ _ Hinv) as [_ (f & _ & Ha) _ _].
  pose proof (seg_end _ _ _ _ Ha). pose proof (sr_bound _ _ _ _ Ha). split_and!; [|lia|].
  - destruct Hms as [|m r ms rss (g & _ & Hg) _]; [discriminate|]. injection Hh as <-.
    apply (seg_base_range _ _ _ _ Hg).
  - destruct (inv_OldestOffset _ _ _ _ _ Hinv) as (m1 & Hh1 & Ho). rewrite Hh in Hh1. injection Hh1 as <-. lia.
Qed.

(** C35: Run returns once its context is done, however many turns come before
    that and whatever the log, the store and the outcomes of all I/O are:
    neither its loop nor the retry loop around Append, which a full buffer
    that no flush empties keeps going until then, runs out of its fuel, and
    more fuel would change nothing. *)
Theorem Run_terminates s : exists s' r, Run s = (s', Some r) /\ p_hung s' = p_hung s
  /\ forall fuel s1, (length (p_sched s1) < fuel)%nat ->
       run_loop fuel s1 = run_loop (S (length (p_sched s1))) s1 /\ p_hung (fst (run_loop fuel s1)) = p_hung s1.
Proof.
  assert (Hmore : forall fuel s1, (length (p_sched s1) < fuel)%nat ->
    run_loop fuel s1 = run_loop (S (length (p_sched s1))) s1 /\ p_hung (fst (run_loop fuel s1)) = p_hung s1).
  { intros fuel s1 Hf. split; [|apply (run_loop_steady fuel s1 Hf)].
    induction Hf as [|fuel Hf IH]; [reflexivity|]. rewrite <- IH. apply (run_loop_steady fuel s1). lia. }
  unfold Pipeline.Run. destruct (NewReader ConsumerName (p_rd s)) as [rd [e|u]]; [eexists _, _; split_and!; eauto|].
  set (s1 := set_uncommitted 0 (set_rd rd s)).
  destruct (run_loop_steady (S (length (p_sched s1))) s1 (Nat.lt_succ_diag_r _)) as ([H1 _] & H2 & _).
  destruct (run_loop _ s1) as [s2 [r|]]; [|contradiction]. eexists _, _. split_and!; [reflexivity|exact H1|exact Hmore].
Qed.

(** Run is the loop between the opening and the closing of its reader, and
    keeps the invariant. *)
Lemma Run_steps s :
  wal_wf (r_st (p_rd s)) -> d_io (r_st (p_rd s)) = [] -> start_ok ConsumerName (p_rd s) ->
  es_ok (p_es s) -> budget s 3 ->
  let w := r_st (p_rd s) in
  let p0 := start_offset ConsumerName (p_rd s) in
  let inv := run_inv (plim (p_pl s)) (dd (p_pl s)) w p0 (r_offs (p_rd s) !! offsetPath ConsumerName) (rows_of (p_es s))
    (has_issues (p_pl s)) (p_hits s) in
  exists rd s2 r, NewReader ConsumerName (p_rd s) = (rd, inr tt)
    /\ let s1 := set_uncommitted 0 (set_rd rd s) in
       inv s1 /\ pos (r_rd rd) = p0 /\ r_st rd = w
       /\ run_loop (S (length (p_sched s1))) s1 = (s2, Some r) /\ inv s2 /\ finished s2 r
       /\ Run s = (set_rd (fst (CloseReader (p_rd s2))) s2, Some r).
Proof.
  intros Hwf Hio Hstart Hes Hb w p0 inv. unfold Pipeline.Run.
  destruct (NewReader ConsumerName (p_rd s)) as [rd r0] eqn:EN.
  pose proof (NewReader_ok ConsumerName (p_rd s) Hwf Hio ltac:(discriminate) eq_refl Hstart) as EN'.
  rewrite EN in EN'. injection EN' as Erd ->.
  pose proof (start_inv s rd Hwf Hio Hes Hstart EN) as Hinv. set (s1 := set_uncommitted 0 (set_rd rd s)) in *.
  pose proof (run_loop_returns (S (length (p_sched s1))) s1 ltac:(lia)) as Hret.
  destruct (run_loop _ s1) as [s2 [r|]] eqn:EL; [|contradiction].
  destruct (run_loop_ok _ _ _ _ _ _ _ _ _ _ _ _ Hinv Hb EL) as [Hinv2 Hfin].
  exists rd, s2, r. cbv zeta. fold s1. split_and!; auto; rewrite Erd; reflexivity.
Qed.

(** What a run that returned has done, [n] records read. *)
Definition ended (lim : Envelope.Limits) (d0 : dedupe) (w : Wal.St) (p0 : Z) (off0 : option (list byte))
    (rows0 : list Event) (issues : bool) (hits0 : list IssueHit) (n : nat) (lost : list Event) (s' : PSt)
    (r : run_error + unit) : Prop :=
  has_kept lim d0 w p0 n (dd (p_pl s')) rows0 (rows_of (p_es s')) issues hits0 (p_hits s') lost
  /\ (n <= length (unread p0 w))%nat /\ (p_cut s' = false -> lost = [])
  /\ match r with
     | inr _ => rows_of (p_es s') = disk_rows (p_es s') /\ stored_offset ConsumerName (p_rd s') = Some (p0 + Z.of_nat n)
     | inl e => (exists e', e = RunFlush e') /\ offset_safe lim d0 w p0 off0 rows0 lost s'
     end.

Lemma Run_end s s2 r :
  let w := r_st (p_rd s) in
  let p0 := start_offset ConsumerName (p_rd s) in
  let off0 := r_offs (p_rd s) !! offsetPath ConsumerName in
  run_inv (plim (p_pl s)) (dd (p_pl s)) w p0 off0 (rows_of (p_es s)) (has_issues (p_pl s)) (p_hits s) s2 ->
  finished s2 r ->
  let s' := set_rd (fst (CloseReader (p_rd s2))) s2 in
  let n := Z.to_nat (pos (r_rd (p_rd s2)) - p0) in
  r_st (p_rd s') = w
  /\ exists lost, ended (plim (p_pl s)) (dd (p_pl s)) w p0 off0 (rows_of (p_es s)) (has_issues (p_pl s)) (p_hits s) n lost s' r.
Proof.
  intros w p0 off0 [R1 R2 R3 R4 Ris R5 Rold R6 (lost & R7 & R8 & R9)] Hfin s' n.
  assert (Hio2 : d_io (r_st (p_rd s2)) = []) by (destruct R1 as (? & ? & ? & ? & _ & ? & _); assumption).
  destruct (CloseReader_ok _ Hio2) as (C1 & C2 & C3). destruct (reader_range _ R1) as (G1 & G2 & G3). rewrite R2 in *.
  unfold s'. cbn [set_rd p_rd p_es p_cut p_pl]. rewrite C1. split; [reflexivity|]. exists lost.
  unfold ended. cbn [set_rd p_rd p_es p_cut p_pl p_hits]. split_and!; [exact R7| |exact R9|].
  - subst n p0 w. unfold unread. rewrite length_drop. lia.
  - subst n p0 w off0. unfold offset_safe, stored_offset in *. cbn [set_rd p_rd p_es]. rewrite C2, C3.
    destruct r as [e|u]; cbn in Hfin; [split; [exact Hfin|exact R8]|]. destruct Hfin as [F1 F2].
    split; [rewrite rows_of_eq, F1; reflexivity|]. rewrite F2, Z2Nat.id, Zplus_minus by lia.
    apply parse_offset_bytes. lia.
Qed.

(** Run on an intact log, whatever the event store's disk does: the store
    afterwards has the rows it had and those of the events of the first [n]
    unread records, without their duplicates, each once, and the issue sink, if
    there is one, was told of each of those events once and in their order; but
    for the events [lost] behind the places where a shutdown cut records short.
    If Run returns without an error, all rows are in segments and the offset
    on disk is behind those [n] records. Otherwise its last flush failed, and
    the offset on disk is still the old one or behind records whose rows are
    all in segments. *)
Theorem Run_exactly_once s :
  wal_wf (r_st (p_rd s)) -> d_io (r_st (p_rd s)) = [] -> start_ok ConsumerName (p_rd s) ->
  es_ok (p_es s) -> budget s 3 ->
  let w := r_st (p_rd s) in
  let p0 := start_offset ConsumerName (p_rd s) in
  exists s' r n lost, Run s = (s', Some r) /\ r_st (p_rd s') = w
    /\ ended (plim (p_pl s)) (dd (p_pl s)) w p0 (r_offs (p_rd s) !! offsetPath ConsumerName) (rows_of (p_es s))
         (has_issues (p_pl s)) (p_hits s) n lost s' r.
Proof.
  intros Hwf Hio Hstart Hes Hb w p0.
  destruct (Run_steps s Hwf Hio Hstart Hes Hb) as (rd & s2 & r & _ & _ & _ & _ & _ & Hinv & Hfin & E).
  destruct (Run_end s s2 r Hinv Hfin) as (E1 & lost & E2). rewrite E. eexists _, r, _, lost.
  split_and!; [reflexivity|exact E1|exact E2].
Qed.

End Run.
(** ** A concrete run: two events, the first sent twice *)
Definition ex_json (id : string) : list byte :=
  list_byte_of_string ("{" +:+ quoted "event_id" +:+ ":" +:+ quoted id +:+ "}")%string.
Definition ex_req (id : string) : appendReq := mkReq recEventJSON (record_of recEventJSON 1 (ex_json id)).
Definition ex_batch : list appendReq := map ex_req ["a"; "b"; "a"]%string.
Definition ex_wal : Wal.St := fst (writeBatch ex_batch ex_open).

Lemma ex_wal_eq : writeBatch ex_batch ex_open = (ex_wal, inr [0; 1; 2]).
Proof. unfold ex_wal. vm_compute. reflexivity. Qed.

Lemma ex_wal_wf : wal_wf ex_wal /\ d_io ex_wal = [].
Proof.
  assert (Hn : d_now ex_open = 7) by (vm_compute; reflexivity).
  assert (Hr : run WalProps.ex_opts (acked_batch (d_now ex_open) [0; 1; 2] ex_batch) ex_wal).
  { apply (run_append WalProps.ex_opts [] ex_open ex_batch ex_wal [0; 1; 2]);
      [eapply run_open, ex_open_eq|discriminate| |apply ex_wal_eq].
    vm_compute. repeat constructor; discriminate. }
  destruct (run_run_inv WalProps.ex_opts _ _ eq_refl ltac:(reflexivity) ltac:(discriminate) Hr). auto.
Qed.

(** No event of the example has a timestamp, a number or a capital. *)
Definition ex_Run : PSt -> PSt * option (run_error + unit) :=
  Run (fun _ => None) (fun _ => None) (fun _ => 0) (fun r => r).

(** A store with room for one row, and the schedule. *)
Definition ex_store (rows : list Event) : EventStore.St :=
  EventStore.mkSt ∅ [] (mkStore (EventStore.mkOptions 1 1 0 0) rows 0 [] ∅ 0 0 0).
Definition ex_start (rd : RSt) (es : EventStore.St) (sched : list (select * Z)) : PSt :=
  mkPSt rd es (NewPipeline (mkOptions 0 0 0 0) (Envelope.mkLimits 0 0 0) true) 0 sched 0 [] false false.
Definition ex_rd : RSt := mkRSt ex_wal ∅ (mkReader "" 0 0 None).
Definition calm : list (select * Z) := [(SelOther, 1); (SelOther, 2); (SelOther, 3); (SelTick, 4); (SelOther, 5)].
Definition halt : list (select * Z) := [(SelOther, 1); (SelOther, 2); (SelDone, 3)].

Notation ex_ended := (ended (fun _ => None) (fun _ => None) (fun _ => 0) (fun r => r)).

Lemma Run_exactly_once_witness :
  let s := ex_start ex_rd (ex_store []) calm in
  p_cut (fst (ex_Run s)) = false /\
  exists s' r n lost, ex_Run s = (s', Some r) /\ r_st (p_rd s') = r_st (p_rd s)
    /\ ex_ended (plim (p_pl s)) (dd (p_pl s)) (r_st (p_rd s)) (start_offset ConsumerName (p_rd s))
         (r_offs (p_rd s) !! offsetPath ConsumerName) (rows_of (p_es s)) (has_issues (p_pl s)) (p_hits s) n lost s' r.
Proof.
  intros s. split; [vm_compute; reflexivity|]. destruct ex_wal_wf as [Hwf Hio].
  apply (Run_exactly_once (fun _ => None) (fun _ => None) (fun _ => 0) (fun r => r) s); auto.
  - exact I.
  - constructor; cbn; try lia; [constructor|]. intros p h m c _. apply lookup_empty.
  - vm_compute. reflexivity.
Defined.

(** Shutdown arrives while Run waits for room for an acknowledged event: the
    wait ends, the flush that made room notwithstanding, and the final commit
    moves the offset past the record. The event "b" is in no row and no drop
    is counted; a later run does not see it, but stores "a" again, because
    the duplicate window is not kept across restarts. *)
Theorem shutdown_loses_event :
  let '(s, r) := ex_Run (ex_start ex_rd (ex_store []) halt) in
  let '(s2, r2) := ex_Run (ex_start (p_rd s) (p_es s) calm) in
  r = Some (inr tt) /\ map EventID (rows_of (p_es s)) = ["a"%string]
  /\ stored_offset ConsumerName (p_rd s) = Some 2
  /\ forallb (fun reason => DropCount reason (p_pl s) =? 0) [DropMalformed; DropDuplicate; DropOverloaded] = true
  /\ r2 = Some (inr tt) /\ map EventID (rows_of (p_es s2)) = ["a"; "a"]%string.
Proof. vm_compute. split_and!; reflexivity. Qed.

End PipelineRun.
