(* ===== verification/PipelineDrain.v ===== *)
(** * Run drains the log

    On a disk that works and with a schedule that leaves enough turns before
    the context is done, Run reads the whole log, stores every event and
    commits the offset of its head. *)
From S2P Require Import Prelude GoSort GoStrings GoFloat GoUtf8 Monad WalSegment Wal.
From S2P Require Import WalInv WalRun WalReader WalReaderInv WalProps Envelope IngestEvent.
From S2P Require Import EventStore EventStoreProps EventStoreRun Pipeline PipelineProps PipelineRun.
Import Segment Wal WalInv.WalInv WalRun.WalRun Reader ReaderInv EventStore EventStoreProps EventStoreRun Pipeline PipelineProps PipelineRun.
#[local] Open Scope Z_scope.
#[local] Open Scope leser_scope.

Module PipelineDrain.

(** ** The store on a disk that works *)
Section Store.
Context `{!SliceSort event_le} `{!SliceSort seg_le} `{!MapRange (Z * Z)}.
Notation St := EventStore.St.

Lemma syscall_works s : EventStore.io s = [] -> syscall s = (s, inr tt).
Proof. unfold syscall. intros ->. reflexivity. Qed.

(** The buffer, the options and the schedule of the disk. *)
Definition same_disk (s s' : St) : Prop :=
  EventStore.io s' = EventStore.io s /\ buf (store s') = buf (store s) /\ opts (store s') = opts (store s).

Lemma writeSegment_works p h evs s : EventStore.io s = [] -> evs <> [] ->
  exists s' m, writeSegment p h evs s = (s', inr m) /\ same_disk s s'.
Proof.
  intros Hio Hne. unfold writeSegment. destruct (sort_slice event_le evs) as [|e0 l] eqn:E.
  { exfalso. apply Hne. apply Permutation_nil. rewrite <- E. apply sort_slice_perm. }
  rewrite (bind_ok _ _ _ _ _ (syscall_works s Hio)). unfold bind at 1, set_store, modify, bind at 1, get.
  set (s1 := mkSt _ _ _).
  assert (H1 : syscall s1 = (s1, inr tt)) by (apply syscall_works, Hio).
  do 6 rewrite (bind_ok _ _ _ _ _ H1). unfold bind, ret. eexists _, _. split; [reflexivity|]. repeat split.
Qed.

Lemma write_parts_works all ks : forall s, EventStore.io s = [] -> (forall k, k ∈ ks -> part_rows k all <> []) ->
  exists s' ms, write_parts all ks s = (s', inr ms) /\ same_disk s s'.
Proof.
  induction ks as [|k ks IH]; intros s Hio Hks; cbn [write_parts].
  { exists s, []. split; [reflexivity|repeat split]. }
  destruct (writeSegment_works (fst k) (snd k) (part_rows k all) s Hio (Hks k ltac:(left))) as (s1 & m & E & L1 & L2 & L3).
  unfold bind at 1, try. rewrite E. destruct (IH s1 ltac:(congruence)) as (s2 & ms & E2 & M1 & M2 & M3).
  { intros k' Hk'. apply Hks. right. exact Hk'. }
  exists s2, (m :: ms). rewrite (bind_ok _ _ _ _ _ E2). split; [reflexivity|]. unfold same_disk. split_and!; congruence.
Qed.

Lemma Flush_works s : EventStore.io s = [] ->
  exists s', Flush (range_keys (partitions s)) s = (s', inr tt)
    /\ EventStore.io s' = [] /\ buf (store s') = [] /\ opts (store s') = opts (store s).
Proof.
  intros Hio. unfold Flush. unfold bind at 1, get, bind at 1, set_store, modify.
  set (s1 := mkSt _ _ _). destruct (buf (store s)) as [|b l] eqn:Eb.
  { exists s1. split_and!; try reflexivity. exact Hio. }
  rewrite <- Eb. destruct (write_parts_works (buf (store s)) (range_keys (partitions s)) s1 Hio) as (s2 & ms & E & L1 & L2 & L3).
  - intros k Hk. rewrite range_perm in Hk. unfold partitions in Hk. rewrite elem_of_remove_dups in Hk.
    apply list_elem_of_fmap in Hk as (e & -> & He). intros H.
    assert (Hin : e ∈ part_rows (part_key e) (buf (store s))).
    { unfold part_rows. apply list_elem_of_In, List.filter_In. split; [apply list_elem_of_In, He|].
      apply bool_decide_eq_true. reflexivity. }
    rewrite H in Hin. inversion Hin.
  - rewrite (bind_ok _ _ _ _ _ E). eexists. split; [reflexivity|]. cbn in *. split_and!; congruence.
Qed.
End Store.

(** ** The pipeline on a disk that works *)
Section Drain.
Context (time_Parse : string -> option Z) (ParseFloat : string -> option float64)
  (convert_out_of_range : float64 -> Z) (lower_rune : Z -> Z).
Context `{!SliceSort event_le} `{!SliceSort seg_le} `{!MapRange (Z * Z)}.

Notation record_events := (record_events time_Parse ParseFloat convert_out_of_range lower_rune).
Notation process := (process time_Parse ParseFloat convert_out_of_range lower_rune).
Notation consume := (consume time_Parse ParseFloat convert_out_of_range lower_rune).
Notation run_body := (run_body time_Parse ParseFloat convert_out_of_range lower_rune).
Notation run_turn := (run_turn time_Parse ParseFloat convert_out_of_range lower_rune).
Notation run_loop := (run_loop time_Parse ParseFloat convert_out_of_range lower_rune).
Notation Run := (Run time_Parse ParseFloat convert_out_of_range lower_rune).
Notation has_reported := (has_reported time_Parse ParseFloat convert_out_of_range lower_rune).

Definition not_done (x : select * Z) : Prop := fst x <> SelDone.

Record works (s : PSt) : Prop := {
  wk_io : EventStore.io (p_es s) = [];
  wk_rd : d_io (r_st (p_rd s)) = [];
  wk_cap : 1 <= cap_rows s;
  wk_cut : p_cut s = false;
  wk_sched : Forall not_done (p_sched s) }.

(** [s'] works too, and took at most [n] entries of the schedule. *)
Definition takes (n : nat) (s s' : PSt) : Prop :=
  works s' /\ p_rd s' = p_rd s /\ (length (p_sched s) <= length (p_sched s') + n)%nat.

Lemma takes_trans a b s1 s2 s3 : takes a s1 s2 -> takes b s2 s3 -> takes (a + b) s1 s3.
Proof. intros (A1 & A2 & A3) (B1 & B2 & B3). split_and!; [exact B1|congruence|lia]. Qed.

(** Steps that leave the store, the schedule and the reader alone. *)
Lemma takes_quiet s s' : works s -> quiet s s' -> p_cut s' = p_cut s -> takes 0 s s'.
Proof.
  intros [] (Q1 & Q2 & Q3 & Q4 & Q5 & _) Q6. unfold takes. rewrite Q5. split_and!; [|exact Q1|lia].
  constructor; unfold cap_rows; rewrite ?Q1, ?Q2, ?Q5, ?Q6; assumption.
Qed.

Lemma flush_works s : works s -> exists s', flush s = (s', inr tt) /\ takes 0 s s' /\ buf (store (p_es s')) = []
  /\ p_pl s' = p_pl s.
Proof.
  intros [W1 W2 W3 W4 W5]. destruct (Flush_works (p_es s) W1) as (es & E & H1 & H2 & H3). unfold flush.
  change (remove_dups _) with (partitions (p_es s)). rewrite E. eexists. split; [reflexivity|].
  split_and!; [|exact H2|reflexivity]. split_and!; [|reflexivity|cbn; lia].
  constructor; auto. unfold cap_rows in *. cbn. rewrite H3. exact W3.
Qed.

Lemma commit_works s : works s -> exists s', commit s = (s', inr tt) /\ works s' /\ p_sched s' = p_sched s
  /\ pos (r_rd (p_rd s')) = pos (r_rd (p_rd s)).
Proof.
  intros Hw. destruct (flush_works s Hw) as (s1 & E & (W1 & R1 & S1) & _ & _). unfold commit. rewrite E.
  destruct (Commit_ok (p_rd s1) (wk_rd _ W1)) as (offs & EC & _). rewrite EC. eexists. split; [reflexivity|].
  assert (Hs : p_sched s1 = p_sched s) by (pose proof (flush_sched s) as H; rewrite E in H; exact H).
  destruct W1. split_and!; [constructor; auto|exact Hs|cbn; rewrite R1; reflexivity].
Qed.

(** Append finds room, at the latest after a flush and one turn. *)
Lemma append_room ev now s : EventStore.io s = [] -> 1 <= MaxBufferRows (opts (store s)) -> buf (store s) = [] ->
  exists s', Append [ev] now s = (s', inr tt) /\ EventStore.io s' = [] /\ opts (store s') = opts (store s).
Proof.
  intros Hio Hc Hb. unfold Append, bind at 1, get. rewrite Hb. cbn [length app].
  destruct (Z.ltb_spec (MaxBufferRows (opts (store s))) (Z.of_nat (0 + 1))); [lia|].
  eexists. split; [reflexivity|]. cbn. auto.
Qed.

Lemma append_cases ev now s :
  (exists s', Append [ev] now s = (s', inr tt) /\ EventStore.io s' = EventStore.io s /\ opts (store s') = opts (store s))
  \/ Append [ev] now s = (s, inl ErrBufferFull).
Proof.
  destruct (MaxBufferRows (opts (store s)) <? Z.of_nat (length (buf (store s)) + length [ev])) eqn:E.
  - right. unfold Append, bind at 1, get. rewrite E. reflexivity.
  - left. unfold Append, bind at 1, get. rewrite E.
    destruct (buf (store s)); (eexists; split; [reflexivity|]; cbn; auto).
Qed.

(** The state once an event was appended. *)
Lemma appended s es : works s -> EventStore.io es = [] -> opts (store es) = opts (store (p_es s)) ->
  takes 0 s (set_pl add_stored (set_es es s)).
Proof.
  intros [W1 W2 W3 W4 W5] H1 H2. split_and!; [|reflexivity|cbn; lia].
  constructor; auto. unfold cap_rows in *. cbn. rewrite H2. exact W3.
Qed.

Lemma append_retry_works ev s : works s -> p_sched s <> [] ->
  exists s', append_retry (S (length (p_sched s))) ev s = (s', true) /\ takes 1 s s'.
Proof.
  intros Hw Hne. cbn [append_retry]. destruct (append_cases ev (p_now s) (p_es s)) as [(es & E & H1 & H2)|E].
  { exists (set_pl add_stored (set_es es s)). rewrite E. split; [reflexivity|].
    destruct (appended s es Hw) as (A1 & A2 & A3); [rewrite H1; apply Hw|exact H2|]. split_and!; auto; lia. }
  rewrite E. assert (Hid : set_es (p_es s) s = s) by (destruct s; reflexivity). rewrite Hid.
  destruct (flush_works s Hw) as (s1 & EF & (W1 & R1 & S1) & Hb & _). rewrite EF.
  assert (Hs : p_sched s1 = p_sched s) by (pose proof (flush_sched s) as H; rewrite EF in H; exact H).
  unfold take_turn. rewrite Hs. destruct (p_sched s) as [|[x t] sched] eqn:Es; [congruence|].
  pose proof (wk_sched _ Hw) as Hf. rewrite Es in Hf. inversion Hf as [|? ? Hx Hf']; subst. unfold not_done in Hx. cbn in Hx.
  set (s2 := set_turn sched t s1).
  assert (W2 : works s2) by (destruct W1; constructor; auto).
  destruct (append_room ev (p_now s2) (p_es s2) (wk_io _ W2) (wk_cap _ W2) Hb) as (es & E2 & H1 & H2).
  exists (set_pl add_stored (set_es es s2)). split.
  - destruct x; [congruence| |]; cbn [append_retry length]; rewrite E2; reflexivity.
  - destruct (appended s2 es W2 H1 H2) as (A1 & A2 & A3). split_and!; [exact A1|cbn; congruence|].
    cbn in *. rewrite Es. simpl. lia.
Qed.

Lemma store_one_works projectID pe s : works s -> p_sched s <> [] ->
  exists s', store_one projectID pe s = (s', true) /\ takes 1 s s'.
Proof.
  intros Hw Hne. unfold store_one. destruct (if bool_decide _ then _ else _) as [d fresh].
  set (s1 := set_pl (set_dd d) s).
  assert (H1 : takes 0 s s1) by (apply takes_quiet; auto; repeat split). destruct fresh; cbn [negb].
  - change (p_sched s1) with (p_sched s).
    destruct (append_retry_works (toStoreEvent projectID (pe_ex pe) (pe_payload pe)) s1 (proj1 H1) Hne) as (s2 & E & H2).
    change (p_sched s1) with (p_sched s) in E. rewrite E. eexists. split; [reflexivity|].
    apply (takes_trans 1 0 _ s2); [exact (takes_trans _ _ _ _ _ H1 H2)|].
    apply takes_quiet; [apply H2| |]; destruct (has_issues (p_pl s2)); repeat split.
  - eexists. split; [reflexivity|]. apply (takes_trans 0 1 _ s1); [exact H1|].
    destruct (takes_quiet s1 (set_pl (drop_ DropDuplicate) s1) (proj1 H1)) as (A1 & A2 & A3); [repeat split|reflexivity|].
    split_and!; auto; lia.
Qed.

Lemma store_all_works projectID l : forall s, works s -> (length l <= length (p_sched s))%nat ->
  takes (length l) s (store_all projectID l s).
Proof.
  induction l as [|pe l IH]; intros s Hw Hl; cbn [store_all length] in *.
  { split_and!; auto; lia. }
  destruct (store_one_works projectID pe s Hw) as (s1 & E & H1).
  { intros H. rewrite H in Hl. simpl in Hl. lia. }
  rewrite E. apply (takes_trans 1 _ _ s1); [exact H1|]. apply IH; [apply H1|]. destruct H1 as (_ & _ & H1). lia.
Qed.

(** ** How many turns a record may take *)

(** At least the number of its events. *)
Definition units (lim : Envelope.Limits) (payload : list byte) : nat :=
  match Envelope.Parse (drop 9 payload) lim with
  | inr env => S (length (Envelope.e_Items env))
  | inl _ => 1
  end.

Lemma length_omap {A B} (f : A -> option B) l : (length (omap f l) <= length l)%nat.
Proof. induction l as [|x l IH]; [auto|]. cbn. destruct (f x); simpl; lia. Qed.

Lemma record_events_units lim now payload :
  (length (omap id (snd (record_events lim now payload))) <= units lim payload)%nat.
Proof.
  assert (H : forall l : list (option pending), (length l <= units lim payload)%nat ->
    (length (omap id l) <= units lim payload)%nat) by (intros l Hl; pose proof (length_omap id l); lia).
  assert (H1 : (1 <= units lim payload)%nat) by (unfold units; destruct (Envelope.Parse _ _); lia).
  unfold Pipeline.record_events. destruct (_ <? _)%nat; cbn [snd]; [apply H; exact H1|]. apply H.
  destruct (Byte.eqb _ recEnvelope).
  - unfold units. destruct (Envelope.Parse _ lim) as [|env]; [auto|]. rewrite length_omap. lia.
  - destruct (Byte.eqb _ recEventJSON); [|exact H1].
    destruct (extract_event _ _ _ _ _ _); exact H1.
Qed.

Lemma process_works payload s : works s -> (units (plim (p_pl s)) payload <= length (p_sched s))%nat ->
  takes (units (plim (p_pl s)) payload) s (process payload s).
Proof.
  intros Hw Hl. unfold Pipeline.process. pose proof (record_events_units (plim (p_pl s)) (p_now s) payload) as Hu.
  destruct (record_events (plim (p_pl s)) (p_now s) payload) as [projectID evs]. cbn [snd] in Hu.
  set (n := length (List.filter _ _)). destruct (iter_drop_quiet n s) as (Q & _ & _ & C & _).
  set (s1 := Nat.iter n _ s) in *. pose proof (takes_quiet s s1 Hw Q C) as H1.
  destruct H1 as (W1 & R1 & S1). destruct (store_all_works projectID (omap id evs) s1 W1 ltac:(lia)) as (A1 & A2 & A3).
  split_and!; [exact A1|congruence|lia].
Qed.

(** The turns the records from offset [p] on may take. *)
Definition turns (lim : Envelope.Limits) (rs : list Record) : nat :=
  sum_list_with (fun r => S (units lim (Segment.Payload r))) rs.

(** ** The loop *)
Section Loop.
Context (lim : Envelope.Limits) (d0 : dedupe) (w : Wal.St) (p0 : Z) (off0 : option (list byte)) (rows0 : list Event)
  (issues : bool) (hits0 : list IssueHit).
Notation run_inv := (run_inv time_Parse ParseFloat convert_out_of_range lower_rune lim d0 w p0 off0 rows0 issues hits0).

Definition left_ (s : PSt) : list Record := unread (pos (r_rd (p_rd s))) w.

Record drains (s : PSt) : Prop := {
  dr_works : works s;
  dr_turns : (turns lim (left_ s) <= length (p_sched s))%nat }.

(** The log is empty beyond the reader exactly at its head. *)
Lemma left_cons s : run_inv s -> pos (r_rd (p_rd s)) < LatestOffset (log w) ->
  forall rd r, Next (p_rd s) = (rd, inr r) ->
  left_ s = r :: unread (pos (r_rd rd)) w /\ r_st rd = w.
Proof.
  intros Hinv Hlt rd r E. pose proof (ri_w _ _ _ _ _ _ _ _ _ _ _ _ _ Hinv) as Hw. rewrite <- Hw in Hlt.
  destruct (Next_reads _ (ri_rd _ _ _ _ _ _ _ _ _ _ _ _ _ Hinv) Hlt) as (rd' & r' & E' & Hr & _ & N1 & _ & _ & N4 & _).
  rewrite E in E'. injection E' as <- <-. split; [|congruence]. unfold left_, unread. rewrite Hw in *. rewrite N4.
  pose proof (ri_old _ _ _ _ _ _ _ _ _ _ _ _ _ Hinv) as Ho. pose proof (ri_pos _ _ _ _ _ _ _ _ _ _ _ _ _ Hinv) as Hp.
  rewrite (drop_S _ _ _ Hr). do 2 f_equal. lia.
Qed.

Lemma head_of s : run_inv s -> (turns lim (left_ s) <= 0)%nat -> LatestOffset (log w) <= pos (r_rd (p_rd s)).
Proof.
  intros Hinv Ht. destruct (Z.lt_ge_cases (pos (r_rd (p_rd s))) (LatestOffset (log w))) as [Hlt|]; [|assumption].
  pose proof Hlt as Hlt'. rewrite <- (ri_w _ _ _ _ _ _ _ _ _ _ _ _ _ Hinv) in Hlt'.
  destruct (Next_reads _ (ri_rd _ _ _ _ _ _ _ _ _ _ _ _ _ Hinv) Hlt') as (rd & r & E & _).
  destruct (left_cons s Hinv Hlt rd r E) as [El _]. rewrite El in Ht. cbn in Ht. lia.
Qed.

Definition drained (s : PSt) (o : option (run_error + unit)) : Prop :=
  works s /\ match o with
             | None => drains s
             | Some r => r = inr tt /\ LatestOffset (log w) <= pos (r_rd (p_rd s))
             end.

Lemma final_drained s : works s -> LatestOffset (log w) <= pos (r_rd (p_rd s)) ->
  exists s', final_commit s = (s', Some (inr tt)) /\ drained s' (Some (inr tt)).
Proof.
  intros Hw Hp. destruct (commit_works s Hw) as (s' & E & H1 & _ & H3). unfold final_commit. rewrite E.
  exists s'. split; [reflexivity|]. split_and!; auto. lia.
Qed.

Lemma consume_drains s rd r : works s -> r_st rd = r_st (p_rd s) -> plim (p_pl s) = lim ->
  (S (units lim (Segment.Payload r)) + turns lim (unread (pos (r_rd rd)) w) <= S (length (p_sched s)))%nat ->
  drains (consume r (set_rd rd s)).
Proof.
  intros [W1 W2 W3 W4 W5] Hst Hl Hn. unfold Pipeline.consume. cbv zeta.
  set (s1 := set_pl _ (set_rd rd s)).
  assert (Hw1 : works s1) by (constructor; auto; cbn; congruence).
  assert (Hl1 : plim (p_pl s1) = lim) by exact Hl.
  destruct (process_works (Segment.Payload r) s1 Hw1 ltac:(rewrite Hl1; cbn; lia)) as (P1 & P2 & P3).
  rewrite Hl1 in P3. set (s2 := process (Segment.Payload r) s1) in *.
  set (s3 := set_uncommitted (uncommitted s2 + 1) s2).
  assert (H3 : works s3 /\ pos (r_rd (p_rd s3)) = pos (r_rd rd) /\ (turns lim (left_ s3) <= length (p_sched s3))%nat).
  { split_and!; [destruct P1; constructor; auto|cbn; rewrite P2; reflexivity|].
    unfold left_. cbn. rewrite P2. cbn. change (p_sched s1) with (p_sched s) in P3. lia. }
  destruct H3 as (H1 & H2 & H3). destruct (_ <=? _); [|constructor; assumption].
  destruct (commit_works s3 H1) as (s4 & E & C1 & C2 & C3). rewrite E. cbn [fst].
  constructor; [exact C1|]. unfold left_ in *. rewrite C2, C3. exact H3.
Qed.

Lemma body_drains s s' o : run_inv s -> works s ->
  (turns lim (left_ s) <= S (length (p_sched s)))%nat -> run_body s = (s', o) -> drained s' o.
Proof.
  intros Hinv Hw Ht E. unfold Pipeline.run_body in E. pose proof (ri_w _ _ _ _ _ _ _ _ _ _ _ _ _ Hinv) as Ew.
  destruct (Z.lt_ge_cases (pos (r_rd (p_rd s))) (LatestOffset (log w))) as [Hlt|Hge].
  - pose proof Hlt as Hlt'. rewrite <- Ew in Hlt'.
    destruct (Next_reads _ (ri_rd _ _ _ _ _ _ _ _ _ _ _ _ _ Hinv) Hlt') as (rd & r & EN & _). rewrite EN in E.
    injection E as <- <-. destruct (left_cons s Hinv Hlt rd r EN) as [El Er]. rewrite El in Ht.
    assert (D : drains (consume r (set_rd rd s))).
    { apply consume_drains; [exact Hw|congruence|apply Hinv|exact Ht]. }
    split; [apply D|exact D].
  - rewrite <- Ew in Hge. rewrite (Next_at_head _ Hge) in E. rewrite Ew in Hge.
    set (s1 := set_pl (set_lag 0) (set_rd (p_rd s) s)) in E.
    assert (W1 : works s1) by (destruct Hw; constructor; auto).
    assert (Hp : p_rd s1 = p_rd s) by reflexivity. unfold take_turn in E.
    assert (Hnil : left_ s = []).
    { unfold left_, unread. apply drop_ge. pose proof (ri_rd _ _ _ _ _ _ _ _ _ _ _ _ _ Hinv) as Hr.
      destruct (reader_range _ Hr) as (G1 & _). rewrite <- Ew.
      destruct Hr as (l & a & ss & rs & Hi & _). destruct (WalRun.WalRun.inv_next_oldest _ _ _ _ _ Hi) as [Hn _]. unfold LatestOffset in Hge. rewrite Ew in *. lia. }
    destruct (p_sched s1) as [|[x t] sched] eqn:Es.
    + destruct (final_drained s1 W1 ltac:(rewrite Hp; exact Hge)) as (s2 & E2 & D). rewrite E2 in E.
      injection E as <- <-. exact D.
    + assert (Hx : x <> SelDone /\ Forall not_done sched).
      { pose proof (wk_sched _ W1) as Hf. rewrite Es in Hf. inversion Hf; subst. auto. }
      assert (D : drained (set_turn sched t s1) None).
      { assert (W2 : works (set_turn sched t s1)) by (destruct W1; constructor; auto; apply Hx).
        split; [exact W2|]. constructor; [exact W2|].
        change (left_ (set_turn sched t s1)) with (left_ s). rewrite Hnil. cbn. lia. }
      destruct x; [destruct Hx; congruence|injection E as <- <-; exact D..].
Qed.

Lemma turn_drains s s' o : run_inv s -> budget s 3 -> drains s -> run_turn s = (s', o) -> drained s' o.
Proof.
  intros Hinv Hb [Hw Ht] E. unfold Pipeline.run_turn, take_turn in E. destruct (p_sched s) as [|[x t] sched] eqn:Es.
  - pose proof (head_of s Hinv ltac:(simpl in Ht; lia)) as Hh.
    destruct (final_drained s Hw Hh) as (s2 & E2 & D). rewrite E2 in E. injection E as <- <-. exact D.
  - assert (Hx : x <> SelDone /\ Forall not_done sched).
    { pose proof (wk_sched _ Hw) as Hf. rewrite Es in Hf. inversion Hf; subst. auto. }
    destruct Hx as [Hx Hf]. set (s1 := set_turn sched t s) in *.
    assert (W1 : works s1) by (destruct Hw; constructor; auto).
    assert (I1 : run_inv s1) by (eapply run_inv_quiet; eauto; reflexivity).
    assert (B1 : budget s1 6).
    { apply (budget_use s _ 3 _ 0); auto; [eapply cap_nonneg, Hinv|cbn; lia|cbn; rewrite Es; simpl; lia]. }
    destruct x; [congruence| |].
    + destruct (periodic_ok _ _ _ _ _ _ _ _ _ _ _ _ s1 5 I1 B1 ltac:(lia)) as (P1 & _ & P3).
      assert (P4 : works (periodic s1) /\ pos (r_rd (p_rd (periodic s1))) = pos (r_rd (p_rd s1))).
      { unfold periodic. destruct (_ || _); [|auto]. destruct (commit_works s1 W1) as (s2 & -> & C1 & _ & C3). auto. }
      destruct P4 as [P4 P5]. eapply body_drains; [exact P1|exact P4| |exact E].
      unfold left_ in *. rewrite P3, P5. cbn. simpl in Ht. lia.
    + eapply body_drains; [exact I1|exact W1| |exact E]. unfold left_ in *. cbn. simpl in Ht. lia.
Qed.

Lemma loop_drains fuel : forall s s' r, run_inv s -> budget s 3 -> drains s -> run_loop fuel s = (s', Some r) ->
  works s' /\ r = inr tt /\ LatestOffset (log w) <= pos (r_rd (p_rd s')).
Proof.
  induction fuel as [|fuel IH]; intros s s' r Hinv Hb Hd E; cbn [Pipeline.run_loop] in E; [discriminate|].
  destruct (run_turn s) as [s1 [r1|]] eqn:E1; destruct (turn_drains _ _ _ Hinv Hb Hd E1) as [W1 D1].
  - injection E as <- <-. auto.
  - destruct (run_turn_ok _ _ _ _ _ _ _ _ _ _ _ _ _ _ _ Hinv Hb E1) as (I1 & B1 & _). eapply IH; eauto.
Qed.
End Loop.

Lemma Run_drains s :
  wal_wf (r_st (p_rd s)) -> start_ok ConsumerName (p_rd s) -> es_ok (p_es s) -> budget s 3 -> works s ->
  let w := r_st (p_rd s) in
  let p0 := start_offset ConsumerName (p_rd s) in
  (turns (plim (p_pl s)) (unread p0 w) <= length (p_sched s))%nat ->
  exists s', Run s = (s', Some (inr tt)) /\ p_cut s' = false
    /\ has_reported (plim (p_pl s)) (dd (p_pl s)) w p0 (length (unread p0 w)) (dd (p_pl s'))
         (rows_of (p_es s)) (rows_of (p_es s')) (has_issues (p_pl s)) (p_hits s) (p_hits s')
    /\ rows_of (p_es s') = disk_rows (p_es s')
    /\ stored_offset ConsumerName (p_rd s') = Some (LatestOffset (log w)).
Proof.
  intros Hwf Hstart Hes Hb Hw w p0 Ht.
  destruct (Run_steps time_Parse ParseFloat convert_out_of_range lower_rune s Hwf (wk_rd _ Hw) Hstart Hes Hb)
    as (rd & s2 & r & _ & Hinv1 & Hp & Hst & EL & Hinv2 & Hfin & E).
  set (s1 := set_uncommitted 0 (set_rd rd s)) in *.
  assert (D1 : drains (plim (p_pl s)) w s1).
  { constructor; [destruct Hw; constructor; auto; cbn; congruence|]. unfold left_. cbn. rewrite Hp. exact Ht. }
  destruct (loop_drains _ _ _ _ _ _ _ _ _ s1 s2 r Hinv1 Hb D1 EL) as (W2 & -> & Hhead).
  destruct (Run_end _ _ _ _ s s2 (inr tt) Hinv2 Hfin) as (_ & lost & H1 & H2 & Hl & H3 & H4).
  apply has_kept_reported in H1; [|exact (Hl (wk_cut _ W2))].
  pose proof (ri_rd _ _ _ _ _ _ _ _ _ _ _ _ _ Hinv2) as Hrd. pose proof (ri_w _ _ _ _ _ _ _ _ _ _ _ _ _ Hinv2) as Ew.
  pose proof (ri_pos _ _ _ _ _ _ _ _ _ _ _ _ _ Hinv2) as Hpos. pose proof (ri_old _ _ _ _ _ _ _ _ _ _ _ _ _ Hinv2) as Hold.
  destruct Hrd as (l & a & ss & rs & Hi & _ & Hle & _).
  destruct (WalRun.WalRun.inv_next_oldest _ _ _ _ _ Hi) as [Hn _]. unfold LatestOffset in *. rewrite Ew in *.
  assert (Hall : Z.to_nat (pos (r_rd (p_rd s2)) - p0) = length (unread p0 w)).
  { unfold unread. rewrite length_drop. subst p0 w. lia. }
  eexists. split; [exact E|]. split_and!; [apply W2|rewrite <- Hall; exact H1|exact H3|].
  rewrite H4. f_equal. subst p0 w. lia.
Qed.

(** On a disk that works, with room for a row in the buffer and a
    schedule of at least one turn for each unread record and each of its
    events before the context is done, Run returns without an error and has
    drained the log: every event of every unread record that is no duplicate
    is in a segment and was told to the issue sink, and the offset on disk is the
    head of the log. *)
Theorem Run_drains_the_log s :
  wal_wf (r_st (p_rd s)) -> start_ok ConsumerName (p_rd s) -> es_ok (p_es s) -> budget s 3 -> works s ->
  let w := r_st (p_rd s) in
  let p0 := start_offset ConsumerName (p_rd s) in
  (turns (plim (p_pl s)) (unread p0 w) <= length (p_sched s))%nat ->
  exists s', Run s = (s', Some (inr tt)) /\ p_cut s' = false
    /\ has_reported (plim (p_pl s)) (dd (p_pl s)) w p0 (length (unread p0 w)) (dd (p_pl s'))
         (rows_of (p_es s)) (rows_of (p_es s')) (has_issues (p_pl s)) (p_hits s) (p_hits s')
    /\ rows_of (p_es s') = disk_rows (p_es s')
    /\ stored_offset ConsumerName (p_rd s') = Some (LatestOffset (log w)).
Proof. exact (Run_drains s). Qed.

End Drain.

(** ** The example log of two events, one sent twice *)
Definition ex_calm : list (select * Z) := repeat (SelOther, 1) 12.
Definition ex_drain : PSt := ex_start ex_rd (ex_store []) ex_calm.

Lemma ex_drain_ready : es_ok (p_es ex_drain) /\ budget ex_drain 3 /\ works ex_drain.
Proof.
  split_and!.
  - constructor; cbn; try lia; [constructor|]. intros p h m c _. apply lookup_empty.
  - vm_compute. reflexivity.
  - constructor; [reflexivity|apply ex_wal_wf|vm_compute; discriminate|reflexivity|].
    unfold ex_drain, ex_start, ex_calm. cbn [p_sched repeat]. repeat constructor; discriminate.
Qed.

Lemma Run_drains_the_log_witness :
  exists s', ex_Run ex_drain = (s', Some (inr tt)) /\ p_cut s' = false
    /\ has_reported (fun _ => None) (fun _ => None) (fun _ => 0) (fun r => r) (plim (p_pl ex_drain)) (dd (p_pl ex_drain))
         (r_st (p_rd ex_drain)) (start_offset ConsumerName (p_rd ex_drain))
         (length (unread (start_offset ConsumerName (p_rd ex_drain)) (r_st (p_rd ex_drain)))) (dd (p_pl s'))
         (rows_of (p_es ex_drain)) (rows_of (p_es s')) (has_issues (p_pl ex_drain)) (p_hits ex_drain) (p_hits s')
    /\ rows_of (p_es s') = disk_rows (p_es s')
    /\ stored_offset ConsumerName (p_rd s') = Some (LatestOffset (log (r_st (p_rd ex_drain)))).
Proof.
  destruct ex_wal_wf as [Hwf Hio]. destruct ex_drain_ready as (H1 & H2 & H3).
  apply (Run_drains_the_log (fun _ => None) (fun _ => None) (fun _ => 0) (fun r => r) ex_drain); auto.
  - exact I.
  - vm_compute. lia.
Defined.

End PipelineDrain.
