(* ===== verification/PipelineLive.v ===== *)
(** * Run while the log grows (internal/ingest/pipeline.go, internal/wal)

    The log's writer works while the consumer runs: between any two turns of
    Run's loop it may append any records and sync. [live] is the relation of
    those steps; what [PipelineRun] shows of a run over a fixed log holds of
    every interleaving, with the log as it is at the end. *)
From S2P Require Import Prelude GoSort GoStrings GoFloat GoUtf8 Monad WalSegment Wal.
From S2P Require Import GoJson WalInv WalRun WalReader WalReaderInv WalProps Grouping Envelope IngestEvent.
From S2P Require Import EventStore EventStoreProps EventStoreRun Pipeline PipelineProps PipelineRun PipelineDrain.
Import Segment Wal WalInv WalRun Reader ReaderInv WalProps EventStore EventStoreProps EventStoreRun Pipeline
  PipelineProps PipelineRun PipelineDrain.
#[local] Open Scope Z_scope.
#[local] Open Scope leser_scope.

Module PipelineLive.

(** ** Records of a segment as a slice of the log *)
Lemma seg_slice max files ms rss : Forall2 (active_repr max files) ms rss -> chain_ok ms = true ->
  forall m0 i m rs, head ms = Some m0 -> ms !! i = Some m -> rss !! i = Some rs ->
  base m0 <= base m /\ rs = take (length rs) (drop (Z.to_nat (base m - base m0)) (concat rss)).
Proof.
  induction 1 as [|x rsx ms rss (f & Hf & Hx) Hms IH]; intros Hc m0 i m rs Hh Hi Hrs; [discriminate|].
  injection Hh as <-. destruct i as [|i].
  { injection Hi as <-. injection Hrs as <-. rewrite Z.sub_diag. split; [lia|]. symmetry. cbn [concat].
    change (Z.to_nat 0) with 0%nat. rewrite drop_0. apply take_app_length. }
  destruct Hms as [|y rsy ms rss Hy Hms]; [discriminate|]. apply chain_ok_cons in Hc as [He Hc].
  destruct (IH Hc y i m rs eq_refl Hi Hrs) as [Hb Hs]. rewrite (seg_end _ _ _ _ Hx) in He. split; [lia|].
  rewrite Hs at 1. f_equal. change (concat (rsx :: rsy :: rss)) with (rsx ++ concat (rsy :: rss)).
  replace (Z.to_nat (base m - base x)) with (length rsx + Z.to_nat (base m - base y))%nat by lia.
  rewrite drop_app_add. reflexivity.
Qed.

(** ** A log that grew by one record *)
Record extends (w w' : Wal.St) (rs : list Record) : Prop := {
  ex_opts : Wal.opts (log w') = Wal.opts (log w);
  ex_oldest : OldestOffset (log w') = OldestOffset (log w);
  ex_records : log_records w' = log_records w ++ rs;
  ex_next : next (log w') = next (log w) + Z.of_nat (length rs) }.

Lemma inv_slice s sealed a srss ars i m rs : inv s sealed a srss ars ->
  (sealed ++ [a]) !! i = Some m -> (srss ++ [ars]) !! i = Some rs ->
  OldestOffset (log s) <= base m /\ records m = Z.of_nat (length rs)
  /\ end_ m = base m + Z.of_nat (length rs)
  /\ rs = take (length rs) (drop (Z.to_nat (base m - OldestOffset (log s))) (log_records s)).
Proof.
  intros Hinv Hi Hrs. destruct (inv_chain _ _ _ _ _ Hinv) as [Hms Hc].
  destruct (inv_OldestOffset _ _ _ _ _ Hinv) as (m0 & Hh & Hold). rewrite (iv_segs _ _ _ _ _ Hinv) in *.
  destruct (seg_slice _ _ _ _ Hms Hc m0 i m rs Hh Hi Hrs) as [H1 H2].
  destruct (Forall2_lookup_lr _ _ _ _ _ _ Hms Hi Hrs) as (f & _ & Hm).
  rewrite Hold, (inv_log_records _ _ _ _ _ Hinv), <- concat_snoc.
  split_and!; [exact H1|apply Hm|exact (seg_end _ _ _ _ Hm)|exact H2].
Qed.

(** The segment a listed segment of the grown log was before. *)
Lemma grown_from s sealed a srss ars s' sealed' a' srss' ars' i m' : inv s sealed a srss ars -> inv s' sealed' a' srss' ars' ->
  next (log s) <= next (log s') -> grown sealed a sealed' a' ->
  (sealed' ++ [a']) !! i = Some m' -> base m' <= base a ->
  exists i m, (sealed ++ [a]) !! i = Some m /\ base m = base m' /\ end_ m <= end_ m'.
Proof.
  intros Hinv Hinv' Hn Hg Hi Hle. pose proof (iv_next _ _ _ _ _ Hinv) as E1. pose proof (iv_next _ _ _ _ _ Hinv') as E2.
  destruct Hg as [[-> Hb]|[-> Hr]].
  - apply lookup_snoc_Some in Hi as [[Hl Hi]|[-> <-]].
    + exists i, m'. rewrite lookup_app_l by exact Hl. split_and!; auto. lia.
    + exists (length sealed), a. rewrite lookup_app_r, Nat.sub_diag by lia. split_and!; auto. lia.
  - apply lookup_snoc_Some in Hi as [[Hl Hi]|[-> <-]]; [exists i, m'; split_and!; auto; lia|]. exfalso.
    assert (Hlt : base a < base a').
    { apply (last_base_max _ _ (repr_sorted _ _ _ _ _ _ (iv_repr _ _ _ _ _ Hinv'))), list_elem_of_fmap.
      exists a. split; [reflexivity|]. apply elem_of_app. right. left. }
    lia.
Qed.

Lemma cursor_grown s sealed a srss ars s' sealed' a' srss' ars' rs c : inv s sealed a srss ars -> inv s' sealed' a' srss' ars' ->
  extends s s' rs -> grown sealed a sealed' a' ->
  cursor_ok (sealed ++ [a]) (srss ++ [ars]) c /\ fBase c <= base a ->
  cursor_ok (sealed' ++ [a']) (srss' ++ [ars']) c /\ fBase c <= base a'.
Proof.
  intros Hinv Hinv' Hx Hg [Hc Hle]. split.
  2:{ destruct Hg as [[_ ->]|[-> _]]; [exact Hle|]. etransitivity; [exact Hle|].
      apply (listed_le _ _ _ _ _ _ (length sealed) a (iv_repr _ _ _ _ _ Hinv')).
      rewrite lookup_app_l by (rewrite length_app; simpl; lia). rewrite lookup_app_r, Nat.sub_diag by lia. reflexivity. }
  intros i' m' rs' Hi' Hrs' Hb. rewrite Hb in Hle.
  destruct (grown_from _ _ _ _ _ _ _ _ _ _ _ _ Hinv Hinv' ltac:(rewrite (ex_next _ _ _ Hx); lia) Hg Hi' Hle)
    as (i & m & Hi & Hbm & He).
  assert (exists rsm, (srss ++ [ars]) !! i = Some rsm) as [rsm Hrs].
  { destruct (inv_chain _ _ _ _ _ Hinv) as [Hms _]. rewrite (iv_segs _ _ _ _ _ Hinv) in Hms.
    destruct (Forall2_lookup_l _ _ _ _ _ Hms Hi) as (rsm & Hrs & _). eauto. }
  destruct (Hc i m rsm Hi Hrs ltac:(congruence)) as (j & Hj & Hfo & Hbp).
  destruct (inv_slice _ _ _ _ _ _ _ _ Hinv Hi Hrs) as (O1 & _ & L1 & S1).
  destruct (inv_slice _ _ _ _ _ _ _ _ Hinv' Hi' Hrs') as (O2 & _ & L2 & S2).
  assert (Hlen : (length rsm <= length rs')%nat) by lia. exists j. rewrite <- Hbm. split_and!; [lia|exact Hfo|].
  rewrite Hbp. unfold rec_pos. do 4 f_equal.
  rewrite S1, S2, !take_take, !Nat.min_l by lia. rewrite Hbm, (ex_oldest _ _ _ Hx), (ex_records _ _ _ Hx).
  assert (Hd : (Z.to_nat (base m' - OldestOffset (log s)) + length rsm <= length (log_records s))%nat).
  { apply (f_equal length) in S1. rewrite length_take, length_drop, Hbm in S1.
    destruct (Nat.eq_dec (length rsm) 0%nat) as [E0|]; [|lia]. rewrite E0.
    destruct (inv_next_oldest _ _ _ _ _ Hinv) as [N1 _]. pose proof (iv_next _ _ _ _ _ Hinv).
    destruct (rp_active _ _ _ _ _ _ (iv_repr _ _ _ _ _ Hinv)) as (f & _ & Ha). pose proof (seg_end _ _ _ _ Ha). lia. }
  rewrite skipn_app, take_app_le; [reflexivity|]. rewrite length_drop. lia.
Qed.

(** The steps of the writer: one record, one sync. *)
Lemma extends_oldest s sealed a srss ars s' sealed' a' srss' ars' rs : inv s sealed a srss ars -> inv s' sealed' a' srss' ars' ->
  log_records s' = log_records s ++ rs -> next (log s') = next (log s) + Z.of_nat (length rs) ->
  OldestOffset (log s') = OldestOffset (log s).
Proof.
  intros Hinv Hinv' Hr Hn. destruct (inv_next_oldest _ _ _ _ _ Hinv) as [N1 _].
  destruct (inv_next_oldest _ _ _ _ _ Hinv') as [N2 _]. rewrite Hr, length_app in N2. lia.
Qed.

Lemma write_one_extends s sealed a srss ars now r : d_io s = [] -> inv s sealed a srss ars -> next (log s) + 1 < 2 ^ 64 ->
  req_ok (MaxRecordBytes (Wal.opts (log s))) now r ->
  exists s' sealed' a' srss' ars', write_one now r s = (s', inr (next (log s))) /\ inv s' sealed' a' srss' ars'
    /\ d_io s' = [] /\ extends s s' [new_record (next (log s)) now r] /\ grown sealed a sealed' a'.
Proof.
  intros Hio Hinv Hb Hreq. destruct (write_one_grows _ _ _ _ _ now r Hio Hinv Hb Hreq)
    as (s' & l' & a' & ss' & rs' & H1 & H2 & H3 & H4 & H5 & H6 & _ & _ & H9).
  assert (Hr : log_records s' = log_records s ++ [new_record (next (log s)) now r])
    by (rewrite (inv_log_records _ _ _ _ _ H2), (inv_log_records _ _ _ _ _ Hinv); exact H3).
  exists s', l', a', ss', rs'. split_and!; auto. constructor; [apply H6| |exact Hr|exact H4].
  exact (extends_oldest _ _ _ _ _ _ _ _ _ _ _ Hinv H2 Hr H4).
Qed.

Lemma sync_batch_extends s sealed a srss ars : d_io s = [] -> inv s sealed a srss ars ->
  exists s', sync_batch s = (s', inr tt) /\ inv s' sealed a srss ars /\ d_io s' = [] /\ extends s s' [].
Proof.
  intros Hio Hinv. destruct (sync_batch_ok _ _ _ _ _ Hio Hinv) as (s' & H1 & H2 & H3 & H4 & H5 & _).
  assert (Hr : log_records s' = log_records s ++ [])
    by (rewrite app_nil_r, (inv_log_records _ _ _ _ _ H2), (inv_log_records _ _ _ _ _ Hinv); reflexivity).
  exists s'. split_and!; auto. rewrite <- Z.add_0_r in H3. constructor; [exact H5| |exact Hr|exact H3].
  exact (extends_oldest _ _ _ _ _ _ _ _ _ _ _ Hinv H2 Hr H3).
Qed.

(** A reader of the log is a reader of the grown log. *)
Definition over (w : Wal.St) (s : RSt) : RSt := mkRSt w (r_offs s) (r_rd s).

Lemma reader_grown s sealed a srss ars w' sealed' a' srss' ars' rs :
  inv (r_st s) sealed a srss ars -> inv w' sealed' a' srss' ars' -> d_io w' = [] -> extends (r_st s) w' rs ->
  grown sealed a sealed' a' -> OldestOffset (log (r_st s)) <= pos (r_rd s) <= LatestOffset (log (r_st s)) ->
  match cur (r_rd s) with
  | Some c => cursor_ok (sealed ++ [a]) (srss ++ [ars]) c /\ fBase c <= base a | None => True end ->
  reader_ok (over w' s).
Proof.
  intros Hinv Hinv' Hio Hx Hg Hpos Hcur. exists sealed', a', srss', ars'. unfold over. cbn [r_st r_rd].
  pose proof (ex_next _ _ _ Hx). unfold LatestOffset in *. rewrite (ex_oldest _ _ _ Hx). split_and!; auto; try lia.
  destruct (cur (r_rd s)) as [c|]; [|exact I]. exact (cursor_grown _ _ _ _ _ _ _ _ _ _ _ _ Hinv Hinv' Hx Hg Hcur).
Qed.

Lemma reader_writes s now r : reader_ok s -> next (log (r_st s)) + 1 < 2 ^ 64 ->
  req_ok (MaxRecordBytes (Wal.opts (log (r_st s)))) now r ->
  exists w', write_one now r (r_st s) = (w', inr (next (log (r_st s)))) /\ reader_ok (over w' s)
    /\ extends (r_st s) w' [new_record (next (log (r_st s))) now r].
Proof.
  intros (l & a & ss & rs & Hinv & Hio & Hpos & Hcur) Hb Hreq.
  destruct (write_one_extends _ _ _ _ _ now r Hio Hinv Hb Hreq) as (w' & l' & a' & ss' & rs' & E & Hinv' & Hio' & Hx & Hg).
  exists w'. split_and!; auto. exact (reader_grown _ _ _ _ _ _ _ _ _ _ _ Hinv Hinv' Hio' Hx Hg Hpos Hcur).
Qed.

Lemma reader_syncs s : reader_ok s ->
  exists w', sync_batch (r_st s) = (w', inr tt) /\ reader_ok (over w' s) /\ extends (r_st s) w' [].
Proof.
  intros (l & a & ss & rs & Hinv & Hio & Hpos & Hcur).
  destruct (sync_batch_extends _ _ _ _ _ Hio Hinv) as (w' & E & Hinv' & Hio' & Hx).
  exists w'. split_and!; auto. exact (reader_grown _ _ _ _ _ _ _ _ _ _ _ Hinv Hinv' Hio' Hx (or_introl (conj eq_refl eq_refl)) Hpos Hcur).
Qed.

Lemma extends_refl w : extends w w [].
Proof. constructor; rewrite ?app_nil_r; simpl; auto; lia. Qed.
Lemma extends_trans w1 w2 w3 rs1 rs2 : extends w1 w2 rs1 -> extends w2 w3 rs2 -> extends w1 w3 (rs1 ++ rs2).
Proof.
  intros [A1 A2 A3 A4] [B1 B2 B3 B4]. constructor; [congruence|congruence|rewrite B3, A3, app_assoc; reflexivity|].
  rewrite length_app. lia.
Qed.

(** ** The steps of the writer and of Run *)
Section Live.
Context (time_Parse : string -> option Z) (ParseFloat : string -> option float64)
  (convert_out_of_range : float64 -> Z) (lower_rune : Z -> Z).
Context `{!SliceSort event_le} `{!SliceSort seg_le} `{!MapRange (Z * Z)}.

Notation run_turn := (run_turn time_Parse ParseFloat convert_out_of_range lower_rune).
Notation run_loop := (run_loop time_Parse ParseFloat convert_out_of_range lower_rune).
Notation Run := (Run time_Parse ParseFloat convert_out_of_range lower_rune).
Notation run_inv := (run_inv time_Parse ParseFloat convert_out_of_range lower_rune).
Notation has_reported := (has_reported time_Parse ParseFloat convert_out_of_range lower_rune).
Notation has_kept := (has_kept time_Parse ParseFloat convert_out_of_range lower_rune).
Notation offset_safe := (offset_safe time_Parse ParseFloat convert_out_of_range lower_rune).
Notation ended := (ended time_Parse ParseFloat convert_out_of_range lower_rune).

Definition log_of (s : PSt) : Wal.St := r_st (p_rd s).
Definition with_log (w : Wal.St) (s : PSt) : PSt := set_rd (over w (p_rd s)) s.

(** What Append lets through, while offsets are left. *)
Definition writable (now : Z) (r : appendReq) (w : Wal.St) : Prop :=
  req_ok (MaxRecordBytes (Wal.opts (log w))) now r /\ next (log w) + 1 < 2 ^ 64.

Inductive live : PSt -> PSt -> Prop :=
  | live_turn s s' : run_turn s = (s', None) -> live s s'
  | live_write now r s : writable now r (log_of s) -> live s (with_log (fst (write_one now r (log_of s))) s)
  | live_sync s : live s (with_log (fst (sync_batch (log_of s))) s).

(** ** The invariant of Run, over a log that grew *)
Lemma unread_grown p w w' rs : extends w w' rs -> OldestOffset (log w) <= p <= next (log w) -> wal_wf w ->
  unread p w' = unread p w ++ rs /\ Z.of_nat (length (unread p w)) = next (log w) - p.
Proof.
  intros Hx Hp (l & a & ss & r & Hinv). destruct (inv_next_oldest _ _ _ _ _ Hinv) as [N _].
  unfold unread. rewrite (ex_oldest _ _ _ Hx), (ex_records _ _ _ Hx), length_drop. split; [|lia].
  rewrite drop_app_le by lia. reflexivity.
Qed.

Lemma take_grown {A} n (l k : list A) : (n <= length l)%nat -> take n (l ++ k) = take n l.
Proof. intros H. apply take_app_le, H. Qed.

Lemma run_inv_grown lim d0 w p0 off0 rows0 issues hits0 w' rs s :
  run_inv lim d0 w p0 off0 rows0 issues hits0 s -> reader_ok (over w' (p_rd s)) -> extends w w' rs ->
  run_inv lim d0 w' p0 off0 rows0 issues hits0 (with_log w' s).
Proof.
  intros [R1 R2 R3 R4 Ris R5 Rold R6 (lost & (es & hs & C1 & C2) & R8 & R9)] Hr Hx.
  assert (Hwf : wal_wf w) by (destruct R1 as (l & a & ss & r & Hinv & _); rewrite <- R2; exists l, a, ss, r; exact Hinv).
  assert (Hpos : pos (r_rd (p_rd s)) <= next (log w)).
  { destruct R1 as (? & ? & ? & ? & _ & _ & Hp & _). rewrite R2 in Hp. apply Hp. }
  destruct (unread_grown p0 w w' rs Hx ltac:(lia) Hwf) as [Hu Hl].
  constructor; cbn; auto; [rewrite (ex_oldest _ _ _ Hx); exact Rold|]. exists lost. split_and!; [| |exact R9].
  - exists es, hs. rewrite Hu, take_grown by lia. auto.
  - destruct R8 as [Ho|(m & d & es1 & l & M1 & M2 & M3 & M4)]; [left; exact Ho|].
    right. exists m, d, es1, l. cbn. rewrite Hu, take_grown by lia. auto.
Qed.

Section Inv.
Context (lim : Envelope.Limits) (d0 : dedupe) (w0 : Wal.St) (p0 : Z) (off0 : option (list byte)) (rows0 : list Event)
  (issues : bool) (hits0 : list IssueHit).

Record live_inv (s : PSt) : Prop := {
  li_run : run_inv lim d0 (log_of s) p0 off0 rows0 issues hits0 s;
  li_budget : budget s 3;
  li_log : exists rs, extends w0 (log_of s) rs }.

Lemma live_inv_grown s w rs : live_inv s -> reader_ok (over w (p_rd s)) -> extends (log_of s) w rs ->
  live_inv (with_log w s).
Proof.
  intros [R B (rs0 & Hx0)] Hr Hx. constructor; [exact (run_inv_grown _ _ _ _ _ _ _ _ _ _ _ R Hr Hx)|exact B|].
  exists (rs0 ++ rs). exact (extends_trans _ _ _ _ _ Hx0 Hx).
Qed.

Lemma live_keeps s s' : live s s' -> live_inv s -> live_inv s'.
Proof.
  intros [s1 s2 E|now r s1 [Hr Hn]|s1] Hinv; pose proof (li_run _ Hinv) as R.
  - destruct (run_turn_ok _ _ _ _ _ _ _ _ _ _ _ _ _ _ _ R (li_budget _ Hinv) E) as [R' [B' _]].
    assert (El : log_of s2 = log_of s1) by exact (ri_w _ _ _ _ _ _ _ _ _ _ _ _ _ R').
    constructor; rewrite ?El; [exact R'|exact B'|apply Hinv].
  - destruct (reader_writes _ now r (ri_rd _ _ _ _ _ _ _ _ _ _ _ _ _ R) Hn Hr) as (w & E & H1 & H2).
    unfold log_of. rewrite E. exact (live_inv_grown _ _ _ Hinv H1 H2).
  - destruct (reader_syncs _ (ri_rd _ _ _ _ _ _ _ _ _ _ _ _ _ R)) as (w & E & H1 & H2).
    unfold log_of. rewrite E. exact (live_inv_grown _ _ _ Hinv H1 H2).
Qed.

Lemma lives_keep s s' : rtc live s s' -> live_inv s -> live_inv s'.
Proof. induction 1; eauto using live_keeps. Qed.
End Inv.

(** ** Run between the writer's steps *)

(** The reader is opened, turns and writer steps alternate in any way, a turn
    returns, the reader is closed. *)
Definition live_run (s s' : PSt) (r : run_error + unit) : Prop :=
  exists rd s2 s3, NewReader ConsumerName (p_rd s) = (rd, inr tt)
    /\ rtc live (set_uncommitted 0 (set_rd rd s)) s2 /\ run_turn s2 = (s3, Some r)
    /\ s' = set_rd (fst (CloseReader (p_rd s3))) s3.

Lemma run_loop_live fuel : forall s s' r, run_loop fuel s = (s', Some r) ->
  exists s2, rtc live s s2 /\ run_turn s2 = (s', Some r).
Proof.
  induction fuel as [|fuel IH]; intros s s' r E; cbn [Pipeline.run_loop] in E; [discriminate|].
  destruct (run_turn s) as [s1 [r1|]] eqn:E1.
  - injection E as <- <-. exists s. split; [apply rtc_refl|exact E1].
  - destruct (IH _ _ _ E) as (s2 & H1 & H2). exists s2. split; [|exact H2]. eapply rtc_l; [apply live_turn, E1|exact H1].
Qed.

(** Run over a log that rests is one of them. *)
Lemma Run_is_live s s' r rd : NewReader ConsumerName (p_rd s) = (rd, inr tt) -> Run s = (s', Some r) -> live_run s s' r.
Proof.
  unfold Pipeline.Run. intros EN E. rewrite EN in E. destruct (run_loop _ _) as [s2 o] eqn:EL. injection E as <- ->.
  destruct (run_loop_live _ _ _ _ EL) as (s1 & H1 & H2). exists rd, s1, s2. auto.
Qed.

(** A batch of the writer is some of its steps. *)
Lemma write_all_live now batch : forall s, reader_ok (p_rd s) ->
  Forall (req_ok (MaxRecordBytes (Wal.opts (log (log_of s)))) now) batch ->
  next (log (log_of s)) + Z.of_nat (length batch) < 2 ^ 64 ->
  exists w offs, write_all now batch (log_of s) = (w, inr offs) /\ rtc live s (with_log w s) /\ reader_ok (over w (p_rd s)).
Proof.
  induction batch as [|r batch IH]; intros s Hr Hok Hn.
  { exists (log_of s), []. split; [reflexivity|]. destruct s as [[]]. split; [apply rtc_refl|exact Hr]. }
  apply Forall_cons in Hok as [Hok1 Hok]. cbn [length] in Hn.
  destruct (reader_writes _ now r Hr ltac:(unfold log_of in Hn; lia) Hok1) as (w & E & H1 & [X1 _ _ X4]). fold (log_of s) in E.
  destruct (IH (with_log w s)) as (w2 & offs & E2 & L2 & R2).
  - exact H1.
  - cbn. rewrite X1. exact Hok.
  - cbn. rewrite X4. simpl. unfold log_of in Hn. lia.
  - cbn [log_of with_log set_rd p_rd over r_st] in E2. exists w2, (next (log (log_of s)) :: offs). split_and!; [|
      |exact R2].
    + cbn [write_all]. rewrite (bind_ok _ _ _ _ _ E), (bind_ok _ _ _ _ _ E2). reflexivity.
    + eapply rtc_l; [|exact L2]. pose proof (live_write now r s ltac:(split; [exact Hok1|lia])) as L. rewrite E in L. exact L.
Qed.

Lemma writeBatch_live batch s : reader_ok (p_rd s) ->
  Forall (req_ok (MaxRecordBytes (Wal.opts (log (log_of s)))) (d_now (log_of s))) batch ->
  next (log (log_of s)) + Z.of_nat (length batch) < 2 ^ 64 ->
  rtc live s (with_log (fst (writeBatch batch (log_of s))) s).
Proof.
  intros Hr Hok Hn. destruct (write_all_live _ _ _ Hr Hok Hn) as (w & offs & E & L & R).
  destruct (reader_syncs _ R) as (w2 & E2 & _ & _). cbn [over r_st] in E2.
  unfold writeBatch, bind at 1, get. rewrite (bind_ok _ _ _ _ _ E), (bind_ok _ _ _ _ _ E2). cbn [fst ret].
  etransitivity; [exact L|]. apply rtc_once. pose proof (live_sync (with_log w s)) as H. cbn [log_of with_log set_rd p_rd over r_st] in H.
  rewrite E2 in H. exact H.
Qed.

(** What has been opened and not yet returned. *)
Lemma lives_inv s rd s2 :
  wal_wf (log_of s) -> d_io (log_of s) = [] -> start_ok ConsumerName (p_rd s) -> es_ok (p_es s) -> budget s 3 ->
  NewReader ConsumerName (p_rd s) = (rd, inr tt) -> rtc live (set_uncommitted 0 (set_rd rd s)) s2 ->
  live_inv (plim (p_pl s)) (dd (p_pl s)) (log_of s) (start_offset ConsumerName (p_rd s))
    (r_offs (p_rd s) !! offsetPath ConsumerName) (rows_of (p_es s)) (has_issues (p_pl s)) (p_hits s) s2.
Proof.
  intros Hwf Hio Hstart Hes Hb EN L.
  pose proof (start_inv time_Parse ParseFloat convert_out_of_range lower_rune s rd Hwf Hio Hes Hstart EN) as Hinv0.
  assert (Hrd : r_st rd = log_of s).
  { pose proof EN as EN'. rewrite NewReader_ok in EN'; [|auto; discriminate..]. injection EN' as <-. reflexivity. }
  refine (lives_keep _ _ _ _ _ _ _ _ _ _ L _). constructor; [|exact Hb|].
  - unfold log_of. cbn. rewrite Hrd. exact Hinv0.
  - exists []. unfold log_of. cbn. rewrite Hrd. apply extends_refl.
Qed.

(** [Run_end], for a run over a log that grew to [w]. *)
Lemma live_end s s3 r w rs : extends (log_of s) w rs ->
  let p0 := start_offset ConsumerName (p_rd s) in
  let off0 := r_offs (p_rd s) !! offsetPath ConsumerName in
  run_inv (plim (p_pl s)) (dd (p_pl s)) w p0 off0 (rows_of (p_es s)) (has_issues (p_pl s)) (p_hits s) s3 -> finished s3 r ->
  let s' := set_rd (fst (CloseReader (p_rd s3))) s3 in
  let n := Z.to_nat (pos (r_rd (p_rd s3)) - p0) in
  log_of s' = w
  /\ exists lost, ended (plim (p_pl s)) (dd (p_pl s)) w p0 off0 (rows_of (p_es s)) (has_issues (p_pl s)) (p_hits s) n lost s' r.
Proof.
  intros Hx p0 off0 R3 Hf.
  pose proof (Run_end time_Parse ParseFloat convert_out_of_range lower_rune (with_log w s) s3 r) as End.
  assert (Hp0 : start_offset ConsumerName (p_rd (with_log w s)) = p0).
  { unfold p0, start_offset. cbn. unfold log_of in Hx. rewrite (ex_oldest _ _ _ Hx). reflexivity. }
  cbv zeta in End. rewrite Hp0 in End. exact (End R3 Hf).
Qed.


Lemma live_drains s rd s2 :
  wal_wf (log_of s) -> d_io (log_of s) = [] -> start_ok ConsumerName (p_rd s) -> es_ok (p_es s) -> budget s 3 ->
  NewReader ConsumerName (p_rd s) = (rd, inr tt) -> rtc live (set_uncommitted 0 (set_rd rd s)) s2 ->
  drains (plim (p_pl s)) (log_of s2) s2 ->
  let w := log_of s2 in
  let p0 := start_offset ConsumerName (p_rd s) in
  exists s', live_run s s' (inr tt) /\ log_of s' = w /\ p_cut s' = false
    /\ has_reported (plim (p_pl s)) (dd (p_pl s)) w p0 (length (unread p0 w)) (dd (p_pl s'))
         (rows_of (p_es s)) (rows_of (p_es s')) (has_issues (p_pl s)) (p_hits s) (p_hits s')
    /\ rows_of (p_es s') = disk_rows (p_es s')
    /\ stored_offset ConsumerName (p_rd s') = Some (LatestOffset (log w)).
Proof.
  intros Hwf Hio Hstart Hes Hb EN L Hd w p0. destruct (lives_inv s rd s2 Hwf Hio Hstart Hes Hb EN L) as [Rl Bl (rs & Hx)].
  pose proof (run_loop_returns time_Parse ParseFloat convert_out_of_range lower_rune (S (length (p_sched s2))) s2 ltac:(lia)) as Hret.
  destruct (run_loop _ s2) as [s3 [r|]] eqn:EL; [|contradiction].
  destruct (run_loop_ok _ _ _ _ _ _ _ _ _ _ _ _ _ _ _ _ Rl Bl EL) as [R3 Hf].
  destruct (loop_drains _ _ _ _ _ _ _ _ _ _ _ _ _ _ _ _ Rl Bl Hd EL) as (W3 & -> & Hhead).
  destruct (live_end s s3 (inr tt) w rs Hx R3 Hf) as (E1 & lost & H1 & H2 & Hl & H3 & H4).
  apply has_kept_reported in H1; [|exact (Hl (wk_cut _ W3))].
  destruct (run_loop_live _ _ _ _ EL) as (s4 & L2 & ET).
  assert (Hall : Z.to_nat (pos (r_rd (p_rd s3)) - p0) = length (unread p0 w)).
  { pose proof (ri_w _ _ _ _ _ _ _ _ _ _ _ _ _ R3) as Ew. pose proof (ri_pos _ _ _ _ _ _ _ _ _ _ _ _ _ R3) as Hp.
    pose proof (ri_old _ _ _ _ _ _ _ _ _ _ _ _ _ R3) as Ho.
    destruct (ri_rd _ _ _ _ _ _ _ _ _ _ _ _ _ R3) as (l & a & ss & r & Hi & _ & Hle & _).
    destruct (inv_next_oldest _ _ _ _ _ Hi) as [Hn _]. fold w in Hhead, Ew. unfold LatestOffset in *. rewrite Ew in *.
    unfold unread. rewrite length_drop. fold p0 in Hp, Ho. fold w in Ho. lia. }
  fold w p0 in H1, H4. rewrite Hall in H1, H4.
  eexists. split; [exists rd, s4, s3; split_and!; [exact EN|etransitivity; [exact L|exact L2]|exact ET|reflexivity]|].
  split_and!; [exact E1|apply W3|exact H1|exact H3|]. rewrite H4. f_equal.
  pose proof (ri_w _ _ _ _ _ _ _ _ _ _ _ _ _ R3) as Ew. pose proof (ri_pos _ _ _ _ _ _ _ _ _ _ _ _ _ R3) as Hp.
  destruct (ri_rd _ _ _ _ _ _ _ _ _ _ _ _ _ R3) as (l & a & ss & r & Hi & _ & Hle & _). fold w in Hhead, Ew.
  rewrite Ew in Hle. fold p0 in Hp. lia.
Qed.

(** C6: Once the writer rests, whatever it has added before, on a disk that
    works, with room for a row in the buffer and a schedule of at least one
    turn for each record left and each of its events before the context is
    done, Run returns without an error and has drained the log: every event of
    every record unread at the start or written since that is no duplicate is
    in a segment and was told to the issue sink, and the offset on disk is the
    head of the log. *)
Theorem live_drains_the_log s rd s2 :
  wal_wf (log_of s) -> d_io (log_of s) = [] -> start_ok ConsumerName (p_rd s) -> es_ok (p_es s) -> budget s 3 ->
  NewReader ConsumerName (p_rd s) = (rd, inr tt) -> rtc live (set_uncommitted 0 (set_rd rd s)) s2 ->
  drains (plim (p_pl s)) (log_of s2) s2 ->
  let w := log_of s2 in
  let p0 := start_offset ConsumerName (p_rd s) in
  exists s', live_run s s' (inr tt) /\ log_of s' = w /\ p_cut s' = false
    /\ has_reported (plim (p_pl s)) (dd (p_pl s)) w p0 (length (unread p0 w)) (dd (p_pl s'))
         (rows_of (p_es s)) (rows_of (p_es s')) (has_issues (p_pl s)) (p_hits s) (p_hits s')
    /\ rows_of (p_es s') = disk_rows (p_es s')
    /\ stored_offset ConsumerName (p_rd s') = Some (LatestOffset (log w)).
Proof. exact (live_drains s rd s2). Qed.

Lemma live_turns s : snd (run_turn s) = None -> live s (fst (run_turn s)).
Proof. intros H. apply live_turn. destruct (run_turn s) as [s' o]. cbn in *. congruence. Qed.
End Live.

(** ** Three records are in the log; the fourth arrives after the first turn *)
Notation ex_turn := (run_turn (fun _ => None) (fun _ => None) (fun _ => 0) (fun r => r)).
Definition ex_s0 : PSt := ex_start ex_rd
  (EventStore.mkSt ∅ [] (mkStore (EventStore.mkOptions 10 10 0 0) [] 0 [] ∅ 0 0 0))
  [(SelOther, 1); (SelOther, 2); (SelOther, 3); (SelOther, 4)].
Definition ex_s1 : PSt := set_uncommitted 0 (set_rd (fst (NewReader ConsumerName (p_rd ex_s0))) ex_s0).
Definition ex_s2 : PSt := fst (ex_turn ex_s1).
Definition ex_s3 : PSt := with_log (fst (write_one 9 (ex_req "c") (log_of ex_s2))) ex_s2.
Definition ex_s4 : PSt := fst (ex_turn (fst (ex_turn (fst (ex_turn ex_s3))))).
Definition ex_end : PSt := fst (ex_turn ex_s4).
Definition ex_final : PSt := set_rd (fst (CloseReader (p_rd ex_end))) ex_end.

Lemma ex_live : live_run (fun _ => None) (fun _ => None) (fun _ => 0) (fun r => r) ex_s0 ex_final (inr tt).
Proof.
  exists (fst (NewReader ConsumerName (p_rd ex_s0))), ex_s4, ex_end. split; [|split; [|split; [|reflexivity]]].
  - vm_compute. reflexivity.
  - eapply rtc_l; [apply live_turns; vm_compute; reflexivity|]. fold ex_s1 ex_s2.
    eapply rtc_l; [apply (live_write _ _ _ _ 9 (ex_req "c")); (split; [split; [|split]|]); vm_compute; congruence|].
    do 3 (eapply rtc_l; [apply live_turns; vm_compute; reflexivity|]). apply rtc_refl.
  - unfold ex_end. assert (H : snd (ex_turn ex_s4) = Some (inr tt)) by (vm_compute; reflexivity).
    destruct (ex_turn ex_s4). cbn in *. congruence.
Qed.

Example ex_live_rows : map EventID (rows_of (p_es ex_final)) = ["a"; "b"; "c"]%string /\ p_cut ex_final = false.
Proof. vm_compute. split; reflexivity. Qed.


(** The same with turns to spare. *)
Definition ex_d0 : PSt := ex_start ex_rd (p_es ex_s0) ex_calm.
Definition ex_d1 : PSt := set_uncommitted 0 (set_rd (fst (NewReader ConsumerName (p_rd ex_d0))) ex_d0).
Definition ex_d2 : PSt := with_log (fst (write_one 9 (ex_req "c") (log_of (fst (ex_turn ex_d1))))) (fst (ex_turn ex_d1)).

Definition ex_live_run : PSt -> PSt -> run_error + unit -> Prop :=
  live_run (fun _ => None) (fun _ => None) (fun _ => 0) (fun r => r).

Lemma ex_d2_ready : es_ok (p_es ex_d0) /\ budget ex_d0 3
  /\ rtc (live (fun _ => None) (fun _ => None) (fun _ => 0) (fun r => r)) ex_d1 ex_d2 /\ drains (plim (p_pl ex_d0)) (log_of ex_d2) ex_d2.
Proof.
  split_and!.
  - constructor; cbn; try lia; [constructor|]. intros p h m c _. apply lookup_empty.
  - vm_compute. reflexivity.
  - eapply rtc_l; [apply live_turns; vm_compute; reflexivity|].
    eapply rtc_l; [|apply rtc_refl]. apply (live_write _ _ _ _ 9 (ex_req "c")).
    split; [split; [|split]|]; vm_compute; congruence.
  - constructor; [constructor|]; try (vm_compute; congruence).
    + assert (E : p_sched ex_d2 = repeat (SelOther, 1) 11) by (vm_compute; reflexivity). rewrite E.
      repeat constructor; discriminate.
    + vm_compute. lia.
Qed.

Lemma live_drains_the_log_witness : exists s',
  live_run (fun _ => None) (fun _ => None) (fun _ => 0) (fun r => r) ex_d0 s' (inr tt) /\ log_of s' = log_of ex_d2
  /\ length (unread (start_offset ConsumerName (p_rd ex_d0)) (log_of ex_d2)) = 4%nat
  /\ stored_offset ConsumerName (p_rd s') = Some (LatestOffset (log (log_of ex_d2))).
Proof.
  destruct ex_wal_wf as [Hwf Hio]. destruct ex_d2_ready as (R1 & R2 & R3 & R4).
  destruct (live_drains_the_log (fun _ => None) (fun _ => None) (fun _ => 0) (fun r => r) ex_d0
    (fst (NewReader ConsumerName (p_rd ex_d0))) ex_d2) as (s' & H1 & H2 & _ & _ & _ & H3);
    [exact Hwf|exact Hio|exact I|exact R1|exact R2|vm_compute; reflexivity|exact R3|exact R4|].
  exists s'. split_and!; [exact H1|exact H2|vm_compute; reflexivity|exact H3].
Defined.

End PipelineLive.
