(* ===== verification/Sql.v ===== *)
(** * SQL statements and the single writer (internal/metadata/db.go: Write,
    execTx, writeLoop)

    A table is the list of its rows. A statement reads or rewrites the tables
    as its SQL text says, or fails as the next entry of a fault schedule says;
    a transaction that fails in any statement or in its commit leaves the
    tables as they were. [ctxs] schedules what the context of a Write does. *)
From S2P Require Import Prelude GoSort Monad.
#[local] Open Scope Z_scope.
#[local] Open Scope leser_scope.

Module Sql.

Inductive sql_error := ErrSql | ErrNoRows | ErrNotFound | ErrInvalid | ErrCtx.

#[export] Instance sql_error_eq_dec : EqDecision sql_error.
Proof. solve_decision. Defined.

(** What the context of a Write does: it is done before the operation is
    queued, or while the caller waits for the answer, or not at all. *)
Inductive ctx_event := CtxBeforeQueue | CtxWhileWaiting | CtxLive.

Section Tx.
Context {D : Type}.

Record St := mkSt { db : D; faults : list bool; ctxs : list ctx_event }.
Definition Tx := M St sql_error.

(** The next statement's outcome; the empty schedule is success. *)
Definition stmt : Tx unit := fun s =>
  match faults s with
  | [] => (s, inr tt)
  | ok :: l => (mkSt (db s) l (ctxs s), if ok then inr tt else inl ErrSql)
  end.

(** A statement that reads, and one that writes; [None] is a constraint that
    does not hold. *)
Definition query {A} (f : D -> A) : Tx A := stmt ;; (let! s := get in ret (f (db s))).
Definition query_row {A} (f : D -> option A) : Tx A :=
  let! r := query f in match r with Some a => ret a | None => throw ErrNoRows end.
Definition exec {A} (f : D -> option (D * A)) : Tx A :=
  stmt ;;
  (let! s := get in
   match f (db s) with
   | None => throw ErrSql
   | Some (d, a) => modify (fun s => mkSt d (faults s) (ctxs s)) ;; ret a
   end).

(** ErrNoRows of a read becomes the package's ErrNotFound. *)
Definition or_not_found {A} (m : Tx A) : Tx A :=
  let! r := try m in
  match r with inr a => ret a | inl ErrNoRows => throw ErrNotFound | inl e => throw e end.

(** execTx: begin, the function, then commit, or rollback on an error. *)
Definition rollback (d : D) : Tx unit := modify (fun s => mkSt d (faults s) (ctxs s)).

Definition execTx {A} (fn : Tx A) : Tx A :=
  let! s := get in
  stmt (* Begin *) ;;
  (let! r := try fn in
   match r with
   | inl e => rollback (db s) ;; throw e
   | inr a =>
       let! c := try stmt (* Commit *) in
       match c with
       | inl e => rollback (db s) ;; throw e
       | inr _ => ret a
       end
   end).

(** Write: the writer goroutine executes the operation once it is queued,
    also when the caller no longer waits. *)
Definition next_ctx : Tx ctx_event := fun s =>
  match ctxs s with
  | [] => (s, inr CtxLive)
  | c :: l => (mkSt (db s) (faults s) l, inr c)
  end.

Definition Write {A} (fn : Tx A) : Tx A :=
  let! c := next_ctx in
  match c with
  | CtxBeforeQueue => throw ErrCtx
  | CtxWhileWaiting => let! _ := try (execTx fn) in throw ErrCtx
  | CtxLive => execTx fn
  end.

(** ** What a transaction may leave *)

(** [fn] takes tables in [P] to tables in [P] when it succeeds. *)
Definition tx_keeps {A} (P : D -> Prop) (fn : Tx A) : Prop :=
  forall s s' a, fn s = (s', inr a) -> P (db s) -> P (db s').

Lemma stmt_db s s' r : stmt s = (s', r) -> db s' = db s.
Proof. unfold stmt. destruct (faults s); intros [= <- _]; reflexivity. Qed.

(** A transaction leaves the old tables or those of a run of [fn] that
    succeeded. *)
Lemma execTx_cases {A} (fn : Tx A) s s' r :
  execTx fn s = (s', r) ->
  (db s' = db s /\ exists e, r = inl e)
  \/ exists s1 s2 a, db s1 = db s /\ fn s1 = (s2, inr a) /\ db s' = db s2 /\ r = inr a.
Proof.
  unfold execTx, bind at 1, get. intros H. unfold bind at 1 in H.
  destruct (stmt s) as [s1 [e|u]] eqn:E1; pose proof (stmt_db _ _ _ E1) as D1.
  { injection H as <- <-. left. eauto. }
  unfold bind at 1, try at 1 in H. destruct (fn s1) as [s2 [e|a]] eqn:E2.
  { unfold bind, rollback, modify, throw in H. injection H as <- <-. left. eauto. }
  unfold bind at 1, try at 1 in H. destruct (stmt s2) as [s3 [e|v]] eqn:E3; pose proof (stmt_db _ _ _ E3) as D3.
  { unfold bind, rollback, modify, throw in H. injection H as <- <-. left. eauto. }
  injection H as <- <-. right. exists s1, s2, a. auto.
Qed.

(** The same for a Write, whose caller may not learn the outcome. *)
Lemma Write_cases {A} (fn : Tx A) s s' r :
  Write fn s = (s', r) ->
  (db s' = db s /\ exists e, r = inl e)
  \/ exists s1 s2 a, db s1 = db s /\ fn s1 = (s2, inr a) /\ db s' = db s2 /\ (r = inr a \/ r = inl ErrCtx).
Proof.
  unfold Write. intros H. unfold bind at 1, next_ctx in H.
  assert (Hx : forall s0, db s0 = db s -> execTx fn s0 = (s', r) ->
    (db s' = db s /\ exists e, r = inl e)
    \/ exists s1 s2 a, db s1 = db s /\ fn s1 = (s2, inr a) /\ db s' = db s2 /\ (r = inr a \/ r = inl ErrCtx)).
  { intros s0 H0 Hr. destruct (execTx_cases _ _ _ _ Hr) as [[E1 E2]|(s1 & s2 & a & E1 & E2 & E3 & E4)].
    - left. split; [congruence|exact E2].
    - right. exists s1, s2, a. split_and!; auto; congruence. }
  destruct (ctxs s) as [|[] l]; [apply (Hx s); auto| | |exact (Hx (mkSt (db s) (faults s) l) eq_refl H)].
  - injection H as <- <-. left. eauto.
  - unfold bind, try in H. destruct (execTx fn (mkSt (db s) (faults s) l)) as [s1 r1] eqn:E. injection H as <- <-.
    destruct (execTx_cases _ _ _ _ E) as [[E1 _]|(s2 & s3 & a & E1 & E2 & E3 & E4)]; [left; eauto|].
    right. exists s2, s3, a. auto 10.
Qed.

Lemma Write_keeps {A} (P : D -> Prop) (fn : Tx A) s :
  tx_keeps P fn -> P (db s) -> P (db (fst (Write fn s))).
Proof.
  intros Hk HP. destruct (Write fn s) as [s' r] eqn:E. cbn [fst].
  destruct (Write_cases _ _ _ _ E) as [[-> _]|(s1 & s2 & a & E1 & E2 & -> & _)]; [exact HP|].
  apply (Hk _ _ _ E2). rewrite E1. exact HP.
Qed.

(** Composition. *)
Lemma keeps_bind {A B} (P : D -> Prop) (m : Tx A) (k : A -> Tx B) :
  tx_keeps P m -> (forall a, tx_keeps P (k a)) -> tx_keeps P (bind m k).
Proof.
  intros Hm Hk s s' b H HP. apply bind_inr in H as (s1 & a & E1 & E2).
  apply (Hk a _ _ _ E2), (Hm _ _ _ E1), HP.
Qed.

Lemma keeps_same {A} (P : D -> Prop) (m : Tx A) :
  (forall s s' r, m s = (s', r) -> db s' = db s) -> tx_keeps P m.
Proof. intros H s s' a E HP. rewrite (H _ _ _ E). exact HP. Qed.

Lemma ret_keeps {A} P (a : A) : tx_keeps P (ret a).
Proof. intros s s' b [= <- _]. auto. Qed.
Lemma throw_keeps {A} P e : tx_keeps P (throw e : Tx A).
Proof. intros s s' b [=]. Qed.

Lemma query_db {A} (f : D -> A) s s' r : query f s = (s', r) -> db s' = db s.
Proof.
  unfold query, bind at 1. destruct (stmt s) as [s1 [e|u]] eqn:E; pose proof (stmt_db _ _ _ E) as D1;
    unfold bind, get, ret; intros [= <- _]; exact D1.
Qed.

Lemma query_row_db {A} (f : D -> option A) s s' r : query_row f s = (s', r) -> db s' = db s.
Proof.
  unfold query_row, bind at 1. destruct (query f s) as [s1 [e|[a|]]] eqn:E; pose proof (query_db _ _ _ _ E) as D1;
    intros [= <- _]; exact D1.
Qed.

(** What a read returns. *)
Lemma query_ret {A} (f : D -> A) s s' a : query f s = (s', inr a) -> a = f (db s).
Proof.
  unfold query, bind at 1. destruct (stmt s) as [s1 [e|u]] eqn:E; [discriminate|].
  unfold bind, get, ret. intros [= _ <-]. rewrite (stmt_db _ _ _ E). reflexivity.
Qed.

Lemma query_row_ret {A} (f : D -> option A) s s' a : query_row f s = (s', inr a) -> f (db s) = Some a.
Proof.
  unfold query_row. intros H. apply bind_inr in H as (s1 & r & E1 & E2). rewrite <- (query_ret _ _ _ _ E1).
  destruct r; [injection E2 as _ ->; reflexivity|discriminate].
Qed.

Lemma query_keeps {A} P (f : D -> A) : tx_keeps P (query f).
Proof. apply keeps_same. intros s s' r. apply query_db. Qed.
Lemma query_row_keeps {A} P (f : D -> option A) : tx_keeps P (query_row f).
Proof. apply keeps_same. intros s s' r. apply query_row_db. Qed.

Lemma exec_ret {A} (f : D -> option (D * A)) s s' a :
  exec f s = (s', inr a) -> f (db s) = Some (db s', a).
Proof.
  unfold exec, bind at 1. destruct (stmt s) as [s1 [e|u]] eqn:E; [discriminate|]. unfold bind at 1, get.
  rewrite (stmt_db _ _ _ E). destruct (f (db s)) as [[d b]|]; [|discriminate].
  unfold bind, modify, ret. intros [= <- <-]. reflexivity.
Qed.

Lemma exec_keeps {A} (P : D -> Prop) (f : D -> option (D * A)) :
  (forall d d' a, f d = Some (d', a) -> P d -> P d') -> tx_keeps P (exec f).
Proof. intros Hf s s' a H. apply exec_ret in H. eauto. Qed.

(** With no fault scheduled every statement succeeds. *)
Lemma stmt_ok s : faults s = [] -> stmt s = (s, inr tt).
Proof. unfold stmt. intros ->. reflexivity. Qed.
End Tx.
#[global] Arguments St : clear implicits.
#[global] Arguments Tx : clear implicits.

Create HintDb sql.
#[export] Hint Resolve keeps_bind ret_keeps throw_keeps query_keeps query_row_keeps exec_keeps : sql.

(** ** Tables *)
Section Table.
Context {R : Type}.

(** INTEGER PRIMARY KEY: one more than the largest id. *)
Definition next_id (id : R -> Z) (l : list R) : Z := 1 + foldr (fun r m => Z.max (id r) m) 0 l.

(** UPDATE ... WHERE, with the number of rows affected. *)
Definition update_where (p : R -> bool) (f : R -> R) (l : list R) : list R * Z :=
  (map (fun r => if p r then f r else r) l, Z.of_nat (length (List.filter p l))).

Lemma next_id_gt id l r : r ∈ l -> id r < next_id id l.
Proof.
  unfold next_id. induction 1 as [r l|r x l _ IH]; cbn; lia.
Qed.

Lemma next_id_fresh id l : next_id id l ∉ map id l.
Proof. intros H. apply list_elem_of_fmap in H as (r & E & Hr). pose proof (next_id_gt id l r Hr). lia. Qed.
End Table.

(** ORDER BY ... LIMIT: some order of the ties. *)
Definition limit_rows {R} (n : Z) (l : list R) : list R := take (Z.to_nat n) l.

End Sql.
