(* ===== verification/MetaConc.v ===== *)
(** * Concurrent writes (internal/metadata/db.go: Write, writeLoop, Close)

    Any number of goroutines call Write while the writer goroutine runs
    writeLoop and another may Close the store. Their steps interleave in every
    way: a [select] takes any case that is ready, a context ends at any time,
    and a send on the closed channel panics. The channel of writes is the
    queue of the calls that wait in it. [writes_in_turn] is the sequential
    specification: one [Sql.Write] after the other. *)
From S2P Require Import Prelude Monad Sql.
Import Sql.
#[local] Open Scope Z_scope.
#[local] Open Scope leser_scope.

Module MetaConc.

(** The capacity of db.writes. *)
Definition cap : Z := 256.

(** A transaction function does not look at contexts. *)
Definition plain {D A} (fn : Tx D A) : Prop :=
  forall d f c, fn (mkSt d f c) = let '(s, r) := fn (mkSt d f []) in (mkSt (db s) (faults s) c, r).

Section Conc.
Context {D A : Type}.
Notation Fn := (Tx D A).
Notation answer := (sql_error + A)%type.

(** ** States *)
Inductive result := Answer (r : answer) | CtxDone.
Inductive pc := AtSend | AtWait | Returned (r : result) | Panicked.
Inductive writer := WIdle | WExec (i : nat) | WAnswer (i : nat) (r : answer) | WExited.

(** [closed] is the closed channel db.writes, an exited writer the closed
    channel db.done; [executed] lists the calls in the order in which their
    transactions ran, with what each gave. *)
Record Sys := mkSys {
  tables : D; flt : list bool; closed : bool; calls : list (Fn * pc); queue : list nat; wr : writer;
  resp : gmap nat answer; executed : list (nat * answer) }.

Definition set_closed s := mkSys (tables s) (flt s) true (calls s) (queue s) (wr s) (resp s) (executed s).
Definition set_calls v s := mkSys (tables s) (flt s) (closed s) v (queue s) (wr s) (resp s) (executed s).
Definition set_queue v s := mkSys (tables s) (flt s) (closed s) (calls s) v (wr s) (resp s) (executed s).
Definition set_wr v s := mkSys (tables s) (flt s) (closed s) (calls s) (queue s) v (resp s) (executed s).
Definition set_resp v s := mkSys (tables s) (flt s) (closed s) (calls s) (queue s) (wr s) v (executed s).
Definition goto (i : nat) (p : pc) (s : Sys) : Sys := set_calls (alter (fun c => (fst c, p)) i (calls s)) s.

(** The transaction of call [i] runs. *)
Definition ran (i : nat) (o : St D * answer) (s : Sys) : Sys :=
  mkSys (db (fst o)) (faults (fst o)) (closed s) (calls s) (queue s) (WAnswer i (snd o)) (resp s)
    (executed s ++ [(i, snd o)]).

(** ** One turn of writeLoop: receive, execTx, answer; or the end of the range *)
Inductive wstep : Sys -> Sys -> Prop :=
  | step_take i rest s : wr s = WIdle -> queue s = i :: rest -> wstep s (set_wr (WExec i) (set_queue rest s))
  | step_exec i fn p s : wr s = WExec i -> calls s !! i = Some (fn, p) ->
      wstep s (ran i (execTx fn (mkSt (tables s) (flt s) [])) s)
  | step_answer i r s : wr s = WAnswer i r -> wstep s (set_wr WIdle (set_resp (<[i := r]> (resp s)) s))
  | step_exit s : wr s = WIdle -> queue s = [] -> closed s = true -> wstep s (set_wr WExited s).

(** ** All steps *)
Inductive step : Sys -> Sys -> Prop :=
  (* Write: the call, the select that sends, the select that waits *)
  | step_call fn s : plain fn -> step s (set_calls (calls s ++ [(fn, AtSend)]) s)
  | step_send i fn s : calls s !! i = Some (fn, AtSend) -> closed s = false -> Z.of_nat (length (queue s)) < cap ->
      step s (goto i AtWait (set_queue (queue s ++ [i]) s))
  | step_send_closed i fn s : calls s !! i = Some (fn, AtSend) -> closed s = true -> step s (goto i Panicked s)
  | step_send_ctx i fn s : calls s !! i = Some (fn, AtSend) -> step s (goto i (Returned CtxDone) s)
  | step_recv i fn r s : calls s !! i = Some (fn, AtWait) -> resp s !! i = Some r ->
      step s (goto i (Returned (Answer r)) (set_resp (delete i (resp s)) s))
  | step_wait_ctx i fn s : calls s !! i = Some (fn, AtWait) -> step s (goto i (Returned CtxDone) s)
  | step_writer s s' : wstep s s' -> step s s'
  (* Close: the channel; it then waits for the writer to exit *)
  | step_close s : closed s = false -> step s (set_closed s).

Definition init (d : D) (f : list bool) : Sys := mkSys d f false [] [] WIdle ∅ [].
Notation steps := (rtc step).

(** ** The specification: the writes one after the other *)
Fixpoint writes_in_turn (fns : list Fn) : Tx D (list answer) :=
  match fns with
  | [] => ret []
  | fn :: fns => let! r := try (Write fn) in let! rs := writes_in_turn fns in ret (r :: rs)
  end.

(** What the context of a call did, and what the call gets to know. *)
Definition ctx_of (p : pc) : ctx_event := match p with Returned CtxDone => CtxWhileWaiting | _ => CtxLive end.
Definition told (p : pc) (r : answer) : answer := match p with Returned CtxDone => inl ErrCtx | _ => r end.
Definition pc_of (s : Sys) (i : nat) : pc := match calls s !! i with Some (_, p) => p | None => AtSend end.
Definition fn_of (s : Sys) (i : nat) : Fn := match calls s !! i with Some (fn, _) => fn | None => throw ErrSql end.


(** ** Transactions and contexts *)
Lemma execTx_plain (fn : Fn) : plain fn -> plain (execTx fn).
Proof.
  intros Hp d f c. unfold execTx, bind, get, stmt, try, rollback, modify, throw, ret. cbn [faults db ctxs].
  destruct f as [|[] f]; cbn [faults db ctxs]; [| |reflexivity]; rewrite (Hp d _ c);
    destruct (fn (mkSt d f [])) as [[d1 f1 c1] [e|a]] eqn:E || destruct (fn (mkSt d [] [])) as [[d1 f1 c1] [e|a]] eqn:E;
    cbn [db faults ctxs]; try reflexivity; destruct f1 as [|[] f1]; reflexivity.
Qed.

Lemma Write_plain (fn : Fn) d f c cs : plain fn -> c <> CtxBeforeQueue ->
  Write fn (mkSt d f (c :: cs))
  = let '(s, r) := execTx fn (mkSt d f []) in
    (mkSt (db s) (faults s) cs, match c with CtxWhileWaiting => inl ErrCtx | _ => r end).
Proof.
  intros Hp Hc. unfold Write, next_ctx, bind, try. cbn [ctxs db faults].
  destruct c; [contradiction|..]; rewrite (execTx_plain _ Hp); destruct (execTx fn (mkSt d f [])); reflexivity.
Qed.

(** The transactions one after the other, contexts aside. *)
Fixpoint run_all (fns : list Fn) (d : D) (f : list bool) : D * list bool * list answer :=
  match fns with
  | [] => (d, f, [])
  | fn :: fns =>
      let '(s, r) := execTx fn (mkSt d f []) in
      let '(d, f, rs) := run_all fns (db s) (faults s) in (d, f, r :: rs)
  end.

Lemma run_all_snoc fns (fn : Fn) d f d1 f1 rs s r : run_all fns d f = (d1, f1, rs) -> execTx fn (mkSt d1 f1 []) = (s, r) ->
  run_all (fns ++ [fn]) d f = (db s, faults s, rs ++ [r]).
Proof.
  revert d f rs. induction fns as [|g fns IH]; intros d f rs H E; cbn [run_all app] in *.
  - injection H as -> -> <-. rewrite E. reflexivity.
  - destruct (execTx g (mkSt d f [])) as [s1 r1]. destruct (run_all fns (db s1) (faults s1)) as [[d2 f2] rs2] eqn:E2.
    injection H as -> -> <-. rewrite (IH _ _ _ E2 E). reflexivity.
Qed.

Lemma writes_run_all l d f d' f' rs :
  Forall (fun x => plain (fst x)) l -> run_all (map fst l) d f = (d', f', rs) ->
  writes_in_turn (map fst l) (mkSt d f (map (fun x => ctx_of (snd x)) l))
  = (mkSt d' f' [], inr (zip_with (fun x r => told (snd x) r) l rs)).
Proof.
  revert d f rs. induction l as [|[fn p] l IH]; intros d f rs Hp H; cbn [map run_all writes_in_turn zip_with fst snd] in *.
  - injection H as -> -> <-. reflexivity.
  - apply Forall_cons in Hp as [Hp Hl]. unfold bind at 1, try. rewrite Write_plain by (auto; destruct p as [| |[]|]; discriminate).
    destruct (execTx fn (mkSt d f [])) as [s1 r1]. destruct (run_all _ _ _) as [[d2 f2] rs2] eqn:E2.
    injection H as -> -> <-. rewrite (bind_ok _ _ _ _ _ (IH _ _ _ Hl E2)). cbn [zip_with snd]. unfold ret.
    destruct p as [| |[]|]; reflexivity.
Qed.

(** ** The invariant *)
Definition pending (s : Sys) : list nat := match wr s with WExec i => [i] | _ => [] end ++ queue s.
Definition order (s : Sys) : list nat := map fst (executed s).
Definition sent (p : pc) : Prop := p = AtWait \/ exists r, p = Returned r.

Record inv (d0 : D) (f0 : list bool) (s : Sys) : Prop := {
  iv_run : run_all (map (fn_of s) (order s)) d0 f0 = (tables s, flt s, map snd (executed s));
  iv_plain : Forall (fun c => plain (fst c)) (calls s);
  iv_nodup : NoDup (pending s ++ order s);
  iv_sent : forall i, i ∈ pending s ++ order s -> exists fn p, calls s !! i = Some (fn, p) /\ sent p;
  iv_ans : forall i r, wr s = WAnswer i r -> (i, r) ∈ executed s;
  iv_resp : forall i r, resp s !! i = Some r -> (i, r) ∈ executed s;
  iv_ret : forall i fn r, calls s !! i = Some (fn, Returned (Answer r)) -> (i, r) ∈ executed s;
  iv_wait : forall i fn, calls s !! i = Some (fn, AtWait) ->
      i ∈ pending s \/ (exists r, wr s = WAnswer i r) \/ is_Some (resp s !! i);
  iv_exit : wr s = WExited -> queue s = [] /\ closed s = true }.

Lemma elem_order i r s : (i, r) ∈ executed s -> i ∈ order s.
Proof. intros H. apply list_elem_of_fmap. exists (i, r). auto. Qed.

Lemma goto_at i (fn : Fn) p0 p s j : calls s !! i = Some (fn, p0) ->
  calls (goto i p s) !! j = if decide (i = j) then Some (fn, p) else calls s !! j.
Proof.
  intros H. cbn. destruct (decide (i = j)) as [<-|Hne]; [|apply list_lookup_alter_ne, Hne].
  rewrite list_lookup_alter_eq, H. reflexivity.
Qed.

Lemma fn_of_goto i p s j : fn_of (goto i p s) j = fn_of s j.
Proof.
  unfold fn_of. cbn. destruct (decide (i = j)) as [<-|Hne]; [|rewrite list_lookup_alter_ne by exact Hne; reflexivity].
  rewrite list_lookup_alter_eq. destruct (calls s !! i) as [[fn q]|]; reflexivity.
Qed.

Section Steps.
Context (d0 : D) (f0 : list bool).
Notation inv := (inv d0 f0).

(** A call moves on; the rest of the state may have changed as [inv] lets it. *)
Lemma inv_goto i (fn : Fn) p0 p s : inv s -> calls s !! i = Some (fn, p0) ->
  (i ∈ pending s ++ order s -> sent p) ->
  (forall r, p = Returned (Answer r) -> (i, r) ∈ executed s) ->
  (p = AtWait -> i ∈ pending s) -> inv (goto i p s).
Proof.
  intros [] Hi Hs Hr Hw. constructor; try assumption.
  - rewrite (map_ext (fn_of (goto i p s)) (fn_of s)); [exact iv_run0|]. intros j. apply fn_of_goto.
  - apply Forall_forall. intros c Hc. apply list_elem_of_lookup in Hc as [j Hj]. rewrite (goto_at _ _ _ _ _ _ Hi) in Hj.
    rewrite Forall_forall in iv_plain0. destruct (decide (i = j)) as [<-|_]; [injection Hj as <-|]; eauto using list_elem_of_lookup_2.
    apply (iv_plain0 (fn, p0)). eauto using list_elem_of_lookup_2.
  - intros j Hj. rewrite (goto_at _ _ _ _ _ _ Hi). destruct (decide (i = j)) as [<-|_]; [|apply iv_sent0, Hj].
    exists fn, p. auto.
  - intros j fn' r. rewrite (goto_at _ _ _ _ _ _ Hi). destruct (decide (i = j)) as [<-|_]; [|apply iv_ret0].
    intros [= _ ->]. apply Hr. reflexivity.
  - intros j fn'. rewrite (goto_at _ _ _ _ _ _ Hi). destruct (decide (i = j)) as [<-|_]; [|apply iv_wait0].
    intros [= _ ->]. left. apply Hw. reflexivity.
Qed.

(** A call that is not sent is in none of the lists. *)
Lemma unsent i (fn : Fn) p s : inv s -> calls s !! i = Some (fn, p) -> ~ sent p -> i ∉ pending s ++ order s.
Proof.
  intros H Hi Hn Hin. destruct (iv_sent _ _ _ H i Hin) as (fn' & p' & E & Hp). rewrite Hi in E. injection E as <- <-. auto.
Qed.

Lemma inv_call (fn : Fn) s : plain fn -> inv s -> inv (set_calls (calls s ++ [(fn, AtSend)]) s).
Proof.
  intros Hp []. assert (Hold : forall i, i ∈ pending s ++ order s -> (calls s ++ [(fn, AtSend)]) !! i = calls s !! i).
  { intros i Hi. destruct (iv_sent0 i Hi) as (g & q & E & _). rewrite E. apply lookup_app_l_Some, E. }
  assert (Hnew : forall i (g : Fn) q, (calls s ++ [(fn, AtSend)]) !! i = Some (g, q) -> q <> AtSend -> calls s !! i = Some (g, q)).
  { intros i g q E Hq. apply lookup_app_Some in E as [E|[_ E]]; [exact E|].
    apply list_lookup_singleton_Some in E as [_ [= _ <-]]. contradiction. }
  constructor; try assumption.
  - rewrite (map_ext_in _ (fn_of s)); [exact iv_run0|]. intros i Hi%list_elem_of_In. unfold fn_of. cbn.
    rewrite Hold; [reflexivity|]. apply elem_of_app. right. exact Hi.
  - apply Forall_app. split; [exact iv_plain0|]. repeat constructor. exact Hp.
  - intros i Hi. cbn. rewrite (Hold i Hi). apply iv_sent0, Hi.
  - intros i g r E. apply (iv_ret0 i g), Hnew; [exact E|discriminate].
  - intros i g E. apply (iv_wait0 i g), Hnew; [exact E|discriminate].
Qed.

Lemma inv_send i (fn : Fn) s : inv s -> calls s !! i = Some (fn, AtSend) -> closed s = false ->
  inv (goto i AtWait (set_queue (queue s ++ [i]) s)).
Proof.
  intros H Hi Hc. pose proof (unsent i fn AtSend s H Hi ltac:(intros [?|[? ?]]; discriminate)) as Hnot.
  destruct H. set (t := goto i AtWait (set_queue (queue s ++ [i]) s)).
  assert (Hpend : pending t = pending s ++ [i]) by (unfold pending; cbn; apply app_assoc).
  assert (Hg : forall j, calls t !! j = if decide (i = j) then Some (fn, AtWait) else calls s !! j).
  { intros j. exact (goto_at i fn AtSend AtWait s j Hi). }
  constructor.
  - rewrite (map_ext (fn_of t) (fn_of s)); [exact iv_run0|]. intros j. exact (fn_of_goto i AtWait s j).
  - apply Forall_forall. intros c Hc'. apply list_elem_of_lookup in Hc' as [j Hj]. rewrite Hg in Hj.
    rewrite Forall_forall in iv_plain0. destruct (decide (i = j)) as [<-|_]; [injection Hj as <-|eauto using list_elem_of_lookup_2].
    apply (iv_plain0 (fn, AtSend)). eauto using list_elem_of_lookup_2.
  - rewrite Hpend. change (order t) with (order s). rewrite <- app_assoc, (Permutation_app_comm [i]), app_assoc. apply NoDup_app.
    split_and!; [exact iv_nodup0| |apply NoDup_singleton]. intros x Hx ->%list_elem_of_singleton. auto.
  - intros j Hj. rewrite Hg. destruct (decide (i = j)) as [<-|Hne]; [exists fn, AtWait; split; [reflexivity|left; reflexivity]|].
    apply iv_sent0. rewrite Hpend in Hj. change (order t) with (order s) in Hj. set_solver.
  - exact iv_ans0.
  - exact iv_resp0.
  - intros j g r. rewrite Hg. destruct (decide (i = j)) as [<-|_]; [discriminate|apply iv_ret0].
  - intros j g. rewrite Hg, Hpend. destruct (decide (i = j)) as [<-|_]; [set_solver|]. intros E.
    destruct (iv_wait0 j g E) as [?|?]; [set_solver|auto].
  - intros Hx. destruct (iv_exit0 Hx). congruence.
Qed.

Lemma inv_forget i s : inv s -> (forall fn, calls s !! i <> Some (fn, AtWait)) -> inv (set_resp (delete i (resp s)) s).
Proof.
  intros [] Hi. constructor; try assumption.
  - intros j r Hj. cbn [resp set_resp] in Hj. apply lookup_delete_Some in Hj as [_ Hj]. auto.
  - intros j fn Hj. destruct (iv_wait0 j fn Hj) as [?|[?|Hr]]; auto. right. right. cbn.
    rewrite lookup_delete_ne; [exact Hr|]. intros <-. eapply Hi, Hj.
Qed.

(** The writer. *)
Lemma inv_take i rest s : inv s -> wr s = WIdle -> queue s = i :: rest -> inv (set_wr (WExec i) (set_queue rest s)).
Proof.
  intros [] Hw Hq. assert (Hp : pending (set_wr (WExec i) (set_queue rest s)) = pending s)
    by (unfold pending; rewrite Hw, Hq; reflexivity).
  constructor; rewrite ?Hp; try assumption; try discriminate. intros j fn Hj.
  destruct (iv_wait0 j fn Hj) as [?|[[r Hr]|?]]; auto. congruence.
Qed.

Lemma inv_exec i (fn : Fn) p s : inv s -> wr s = WExec i -> calls s !! i = Some (fn, p) ->
  inv (ran i (execTx fn (mkSt (tables s) (flt s) [])) s).
Proof.
  intros [] Hw Hi. destruct (execTx fn (mkSt (tables s) (flt s) [])) as [v r] eqn:E. unfold ran. cbn [fst snd].
  set (t := mkSys _ _ _ _ _ _ _ _). assert (Hp : pending s = i :: pending t) by (unfold pending; rewrite Hw; reflexivity).
  assert (Ho : order t = order s ++ [i]) by (unfold order; cbn; apply map_app). rewrite Hp in *.
  constructor.
  - rewrite Ho, map_app. cbn [executed tables flt t]. rewrite map_app. apply (run_all_snoc _ _ _ _ _ _ _ _ _ iv_run0).
    cbn [map]. unfold fn_of. cbn [calls t]. rewrite Hi. exact E.
  - exact iv_plain0.
  - rewrite Ho, app_assoc. change ((i :: pending t) ++ order s) with ([i] ++ (pending t ++ order s)) in iv_nodup0.
    rewrite Permutation_app_comm in iv_nodup0. exact iv_nodup0.
  - intros j Hj. apply iv_sent0. rewrite Ho in Hj. set_solver.
  - intros j r' [= <- <-]. cbn. set_solver.
  - intros j r' Hj. cbn. apply elem_of_app. left. apply iv_resp0, Hj.
  - intros j g r' Hj. cbn. apply elem_of_app. left. eapply iv_ret0, Hj.
  - intros j g Hj. destruct (iv_wait0 j g Hj) as [Hin|[[r' Hr]|?]]; [|congruence|auto].
    apply elem_of_cons in Hin as [->|Hin]; [right; left; exists r; reflexivity|auto].
  - discriminate.
Qed.

Lemma inv_answer i r s : inv s -> wr s = WAnswer i r -> inv (set_wr WIdle (set_resp (<[i := r]> (resp s)) s)).
Proof.
  intros [] Hw. assert (Hp : pending (set_wr WIdle (set_resp (<[i := r]> (resp s)) s)) = pending s)
    by (unfold pending; rewrite Hw; reflexivity).
  constructor; rewrite ?Hp; try assumption; try discriminate.
  - intros j r' Hj. cbn [resp set_resp set_wr] in Hj. apply lookup_insert_Some in Hj as [[<- <-]|[_ Hj]]; [apply iv_ans0, Hw|auto].
  - intros j fn Hj. cbn. destruct (iv_wait0 j fn Hj) as [?|[[r' Hr]|Hr]]; auto; right; right.
    + rewrite Hw in Hr. injection Hr as <- <-. rewrite lookup_insert_eq. eauto.
    + destruct (decide (i = j)) as [<-|Hne]; [rewrite lookup_insert_eq; eauto|rewrite lookup_insert_ne by exact Hne; exact Hr].
Qed.

Lemma inv_exit s : inv s -> wr s = WIdle -> queue s = [] -> closed s = true -> inv (set_wr WExited s).
Proof.
  intros [] Hw Hq Hc. assert (Hp : pending (set_wr WExited s) = pending s) by (unfold pending; rewrite Hw; reflexivity).
  constructor; rewrite ?Hp; try assumption; try discriminate.
  - intros j fn Hj. destruct (iv_wait0 j fn Hj) as [?|[[r Hr]|?]]; auto. congruence.
  - auto.
Qed.

Lemma inv_wstep s s' : inv s -> wstep s s' -> inv s'.
Proof.
  intros H Hs. destruct Hs; eauto using inv_take, inv_exec, inv_answer, inv_exit.
Qed.

Lemma inv_step s s' : inv s -> step s s' -> inv s'.
Proof.
  intros H Hs. destruct Hs as [fn s Hp|i fn s Hi Hc _|i fn s Hi Hc|i fn s Hi|i fn r s Hi Hr|i fn s Hi|s s' Hw|s Hc];
    eauto using inv_call, inv_send, inv_wstep.
  - eapply inv_goto; try discriminate; eauto. intros Hin. exfalso. revert Hin.
    apply (unsent i fn AtSend); auto. intros [?|[? ?]]; discriminate.
  - eapply inv_goto; try discriminate; eauto. intros _. right. eauto.
  - pose proof (iv_resp _ _ _ H i r Hr) as Hin.
    apply (inv_forget i (goto i (Returned (Answer r)) s)).
    + eapply inv_goto; try discriminate; eauto; [intros _; right; eauto|]. intros r' [= <-]. exact Hin.
    + intros g. rewrite (goto_at _ _ _ _ _ _ Hi), decide_True by reflexivity. discriminate.
  - eapply inv_goto; try discriminate; eauto. intros _. right. eauto.
  - destruct H. constructor; try assumption. intros Hx. destruct (iv_exit0 Hx). auto.
Qed.

Lemma inv_init : inv (init d0 f0).
Proof. constructor; cbn; auto; try discriminate; try set_solver; constructor. Qed.

Lemma inv_steps s s' : inv s -> steps s s' -> inv s'.
Proof. intros H Hs. induction Hs; eauto using inv_step. Qed.
End Steps.

(** ** What a step keeps *)
Lemma write_step_mono s s' : step s s' ->
  (length (calls s) <= length (calls s'))%nat /\ executed s `prefix_of` executed s'.
Proof.
  intros Hs. destruct Hs as [fn s Hp|i fn s Hi Hc _|i fn s Hi Hc|i fn s Hi|i fn r s Hi Hr|i fn s Hi|s s' Hw|s Hc];
    try (split; [cbn; rewrite length_alter; lia|reflexivity]); try (split; reflexivity).
  - split; [cbn; rewrite length_app; lia|reflexivity].
  - destruct Hw; (split; [reflexivity|cbn; try reflexivity; apply prefix_app_r; reflexivity]).
Qed.

Lemma write_steps_mono s s' : steps s s' ->
  (length (calls s) <= length (calls s'))%nat /\ executed s `prefix_of` executed s'.
Proof.
  induction 1 as [s|s s1 s2 H1 _ (L & P)]; [split; [lia|reflexivity]|]. apply write_step_mono in H1 as (L1 & P1).
  split; [lia|etransitivity; eauto].
Qed.

End Conc.
End MetaConc.
