(* ===== verification/MetaDb.v ===== *)
(** * The metadata store: tables, organisations, projects and keys
    (internal/metadata/db.go)

    Each table of the schema is a list of rows in insertion order; columns
    the program never reads back (created_at, applied_at, saved_at) are left
    out. Statements check the constraints the schema declares. *)
From S2P Require Import Prelude GoSort GoStrings GoFloat GoUtf8 Sha1 Monad Sql.
Import Sql.
#[local] Open Scope string_scope.
#[local] Open Scope list_scope.
#[local] Open Scope Z_scope.
#[local] Open Scope leser_scope.

Module Meta.

(** ** The schema *)
Record Org := mkOrg { o_ID : Z; o_Slug : string; o_Name : string }.
Record Project := mkProject { p_ID : Z; p_OrgID : Z; p_Slug : string; p_Name : string; p_Platform : string }.
Record ProjectKey := mkKey {
  k_ID : Z; k_ProjectID : Z; k_OrgID : Z; k_PublicKey : string; k_Active : bool }.
Record Issue := mkIssue {
  i_ID : Z; i_OrgID : Z; i_ProjectID : Z; i_Fingerprint : string; i_Basis : string; i_Title : string;
  i_Level : string; i_Status : string; i_FirstSeen : Z; i_LastSeen : Z; i_TimesSeen : Z;
  i_MergedInto : option Z }.
Record User := mkUser {
  u_ID : Z; u_OrgID : Z; u_Email : string; u_PasswordHash : string; u_Role : string }.
Record Session := mkSession { s_ID : string; s_UserID : Z; s_ExpiresAt : Z; s_Revoked : bool }.
Record TokenRow := mkToken {
  t_ID : Z; t_OrgID : Z; t_UserID : Z; t_Name : string; t_Hash : string; t_Permissions : string;
  t_ExpiresAt : Z; t_Revoked : bool }.
Record AuditEntry := mkAudit {
  a_OrgID : Z; a_ActorID : Z; a_Action : string; a_Target : string; a_Detail : string; a_IP : string;
  a_UserAgent : string; a_At : Z }.
Record AlertRow := mkAlert {
  r_ID : Z; r_OrgID : Z; r_ProjectID : Z; r_Name : string; r_Condition : string; r_Threshold : Z;
  r_WebhookURL : string; r_Enabled : bool }.

Record DB := mkDB {
  objects : list string; versions : list Z;
  orgs : list Org; projects : list Project; keys : list ProjectKey; issues : list Issue;
  users : list User; sessions : list Session; tokens : list TokenRow; audit_log : list AuditEntry;
  rates : list (Z * float64); alert_rules : list AlertRow }.

Definition empty : DB := mkDB [] [] [] [] [] [] [] [] [] [] [] [].

Definition set_schema o v d := mkDB o v (orgs d) (projects d) (keys d) (issues d) (users d) (sessions d) (tokens d) (audit_log d) (rates d) (alert_rules d).
Definition set_orgs v d := mkDB (objects d) (versions d) v (projects d) (keys d) (issues d) (users d) (sessions d) (tokens d) (audit_log d) (rates d) (alert_rules d).
Definition set_projects v d := mkDB (objects d) (versions d) (orgs d) v (keys d) (issues d) (users d) (sessions d) (tokens d) (audit_log d) (rates d) (alert_rules d).
Definition set_keys v d := mkDB (objects d) (versions d) (orgs d) (projects d) v (issues d) (users d) (sessions d) (tokens d) (audit_log d) (rates d) (alert_rules d).
Definition set_issues v d := mkDB (objects d) (versions d) (orgs d) (projects d) (keys d) v (users d) (sessions d) (tokens d) (audit_log d) (rates d) (alert_rules d).
Definition set_users v d := mkDB (objects d) (versions d) (orgs d) (projects d) (keys d) (issues d) v (sessions d) (tokens d) (audit_log d) (rates d) (alert_rules d).
Definition set_sessions v d := mkDB (objects d) (versions d) (orgs d) (projects d) (keys d) (issues d) (users d) v (tokens d) (audit_log d) (rates d) (alert_rules d).
Definition set_tokens v d := mkDB (objects d) (versions d) (orgs d) (projects d) (keys d) (issues d) (users d) (sessions d) v (audit_log d) (rates d) (alert_rules d).
Definition set_audit v d := mkDB (objects d) (versions d) (orgs d) (projects d) (keys d) (issues d) (users d) (sessions d) (tokens d) v (rates d) (alert_rules d).
Definition set_rates v d := mkDB (objects d) (versions d) (orgs d) (projects d) (keys d) (issues d) (users d) (sessions d) (tokens d) (audit_log d) v (alert_rules d).
Definition set_rules v d := mkDB (objects d) (versions d) (orgs d) (projects d) (keys d) (issues d) (users d) (sessions d) (tokens d) (audit_log d) (rates d) v.

Notation T := (Tx DB).

(** ** Constraints and rows *)
Definition has {R} (p : R -> bool) (l : list R) : bool := existsb p l.
Definition org_exists (id : Z) (d : DB) : bool := has (fun o => o_ID o =? id) (orgs d).
Definition project_exists (id : Z) (d : DB) : bool := has (fun p => p_ID p =? id) (projects d).
Definition issue_exists (id : Z) (d : DB) : bool := has (fun i => i_ID i =? id) (issues d).
Definition user_exists (id : Z) (d : DB) : bool := has (fun u => u_ID u =? id) (users d).

(** ORDER BY id LIMIT 1. *)
Definition first_by_id {R} (id : R -> Z) (l : list R) : option R := head (sort_slice (key_le id) l).

Definition insert_org (slug name : string) (d : DB) : option (DB * Z) :=
  let id := next_id o_ID (orgs d) in
  if has (fun o => bool_decide (o_Slug o = slug)) (orgs d) then None
  else Some (set_orgs (orgs d ++ [mkOrg id slug name]) d, id).

Definition insert_project (orgID : Z) (slug name platform : string) (d : DB) : option (DB * Z) :=
  let id := next_id p_ID (projects d) in
  if negb (org_exists orgID d)
     || has (fun p => (p_OrgID p =? orgID) && bool_decide (p_Slug p = slug)) (projects d) then None
  else Some (set_projects (projects d ++ [mkProject id orgID slug name platform]) d, id).

Definition insert_key (projectID orgID : Z) (pub : string) (d : DB) : option (DB * Z) :=
  let id := next_id k_ID (keys d) in
  if negb (project_exists projectID d) || negb (org_exists orgID d)
     || has (fun k => bool_decide (k_PublicKey k = pub)) (keys d) then None
  else Some (set_keys (keys d ++ [mkKey id projectID orgID pub true]) d, id).

(** ** Migrations: each statement creates one table or index *)
Definition SchemaVersion : Z := 5.

Definition migrations (v : Z) : option (list string) :=
  if v =? 1 then Some ["organizations"; "projects"; "project_keys"; "idx_project_keys_lookup"]
  else if v =? 2 then Some ["issues"; "idx_issues_stream"]
  else if v =? 3 then Some ["users"; "sessions"; "api_tokens"; "audit_log"; "idx_audit_org_time"]
  else if v =? 4 then Some ["rate_limit_state"]
  else if v =? 5 then Some ["alert_rules"; "idx_alert_rules_project"]
  else None.

Definition create (name : string) (d : DB) : option (DB * unit) :=
  if bool_decide (name ∈ objects d) then None
  else Some (set_schema (objects d ++ [name]) (versions d) d, tt).

Fixpoint create_all (names : list string) : T unit :=
  match names with
  | [] => ret tt
  | n :: names => exec (create n) ;; create_all names
  end.

Definition insert_version (v : Z) (d : DB) : option (DB * unit) :=
  if bool_decide (v ∈ versions d) then None
  else Some (set_schema (objects d) (versions d ++ [v]) d, tt).

Definition apply_migration (v : Z) : T unit :=
  match migrations v with
  | None => throw ErrInvalid
  | Some stmts => execTx (create_all stmts ;; exec (insert_version v))
  end.

Fixpoint migrate_from (n : nat) (v : Z) : T unit :=
  match n with
  | O => ret tt
  | S n => apply_migration v ;; migrate_from n (v + 1)
  end.

(** [COALESCE(MAX(version), 0)]; versions are positive. *)
Definition current_version (d : DB) : Z := foldr Z.max 0 (versions d).

Definition migrate : T unit :=
  stmt (* CREATE TABLE IF NOT EXISTS schema_migrations *) ;;
  (let! current := query current_version in
   migrate_from (Z.to_nat (SchemaVersion - current)) (current + 1)).

(** ** Names and keys *)
Fixpoint slug_chars (s : string) : string :=
  match s with
  | "" => ""
  | String c s =>
      let z := code c in
      if in_range 97 122 z || in_range 48 57 z then String c (slug_chars s)
      else if in_range 65 90 z then String (chr (z + 32)) (slug_chars s)
      else if (z =? 32) || (z =? 45) || (z =? 95) then String "-" (slug_chars s)
      else slug_chars s
  end.
Definition slugify (s : string) : string :=
  let out := slug_chars s in if bool_decide (out = "") then "default" else out.

(** newPublicKey; the argument is the sixteen random bytes. *)
Definition newPublicKey (b : list byte) : string := Sha1.hex_encode b.

(** ** Bootstrap, keys, organisations, projects *)
Definition Bootstrap (orgName projectName : string) (rnd : list byte) : T (Project * ProjectKey) :=
  Write (
    let! r := query (fun d => first_by_id o_ID (orgs d)) in
    let! orgID := match r with
                  | Some o => ret (o_ID o)
                  | None => exec (insert_org (slugify orgName) orgName)
                  end in
    let! r := query (fun d => first_by_id p_ID (List.filter (fun p => p_OrgID p =? orgID) (projects d))) in
    let! proj := match r with
                 | Some p => ret p
                 | None =>
                     let! id := exec (insert_project orgID (slugify projectName) projectName "") in
                     ret (mkProject id orgID (slugify projectName) projectName "")
                 end in
    let! r := query (fun d => first_by_id k_ID
                (List.filter (fun k => (k_ProjectID k =? p_ID proj) && k_Active k) (keys d))) in
    match r with
    | Some k => ret (proj, k)
    | None =>
        let pub := newPublicKey rnd in
        let! id := exec (insert_key (p_ID proj) orgID pub) in
        ret (proj, mkKey id (p_ID proj) orgID pub true)
    end).

Definition LookupKey (publicKey : string) : T ProjectKey :=
  or_not_found (query_row (fun d =>
    List.find (fun k => bool_decide (k_PublicKey k = publicKey) && k_Active k) (keys d))).

Definition CreateOrg (name : string) : T Z := Write (exec (insert_org (slugify name) name)).

Definition CreateProject (orgID : Z) (name platform : string) (rnd : list byte) : T (Project * ProjectKey) :=
  Write (
    let! id := exec (insert_project orgID (slugify name) name platform) in
    let p := mkProject id orgID (slugify name) name platform in
    let pub := newPublicKey rnd in
    let! kid := exec (insert_key (p_ID p) orgID pub) in
    ret (p, mkKey kid (p_ID p) orgID pub true)).

(** A project with its first active key, empty when it has none. *)
Definition ProjectInfo : Type := Project * string.

Definition ListProjects : T (list ProjectInfo) :=
  query (fun d =>
    limit_rows 200 (map (fun p =>
      (p, match first_by_id k_ID (List.filter (fun k => (k_ProjectID k =? p_ID p) && k_Active k) (keys d)) with
          | Some k => k_PublicKey k
          | None => ""
          end)) (sort_slice (key_le p_ID) (projects d)))).

Definition ProjectOrg (projectID : Z) : T Z :=
  or_not_found (query_row (fun d => p_OrgID <$> List.find (fun p => p_ID p =? projectID) (projects d))).

(** ** Rate-limiter checkpoints *)

(** REAL NOT NULL: SQLite stores a NaN as NULL. *)
Definition insert_rate (id : Z) (f : float64) (d : DB) : option (DB * unit) :=
  if has (fun x => fst x =? id) (rates d) || match f with SpecFloat.S754_nan => true | _ => false end then None
  else Some (set_rates (rates d ++ [(id, f)]) d, tt).

Fixpoint insert_rates (state : list (Z * float64)) : T unit :=
  match state with
  | [] => ret tt
  | (id, f) :: state => exec (insert_rate id f) ;; insert_rates state
  end.

(** [state] lists the map in the order of the iteration. *)
Definition RateLimitSave (state : list (Z * float64)) : T unit :=
  Write (exec (fun d => Some (set_rates [] d, tt)) ;; insert_rates state).

Definition RateLimitLoad : T (gmap Z float64) := 
  query (fun d => fold_left (fun m x => <[fst x := snd x]> m) (rates d) ∅).

End Meta.
