(* ===== verification/MetaOpen.v ===== *)
(** * Opening the metadata store (internal/metadata/db.go: Open, migrate)

    Each migration is one transaction, so whatever fails the schema is that of
    some version, and the next Open goes on from there. *)
From S2P Require Import Prelude GoSort GoStrings Monad Sql MetaDb.
Import Sql Meta.
#[local] Open Scope string_scope.
#[local] Open Scope list_scope.
#[local] Open Scope Z_scope.
#[local] Open Scope leser_scope.

Module MetaOpen.

(** The data source name: foreign keys are checked on every connection. *)
Definition dsn (path : string) : string :=
  "file:" +:+ path +:+ "?_pragma=journal_mode(WAL)&_pragma=synchronous(NORMAL)&_pragma=busy_timeout(5000)&_pragma=foreign_keys(ON)".

(** [sql_Open] says whether the driver opens the data source. *)
Definition Open (sql_Open : string -> bool) (path : string) : Tx DB unit :=
  if sql_Open (dsn path) then migrate else throw ErrSql.

(** ** The schema of version [k] *)
Definition version_list (k : nat) : list Z := map Z.of_nat (seq 1 k).
Definition objects_of (k : nat) : list string :=
  List.concat (map (fun v => default [] (migrations v)) (version_list k)).

(** [d] is [d0] with the schema of version [k]. *)
Definition at_version (d0 : DB) (k : nat) (d : DB) : Prop := d = set_schema (objects_of k) (version_list k) d0.

Lemma current_at d0 k : current_version (set_schema (objects_of k) (version_list k) d0) = Z.of_nat k.
Proof.
  unfold current_version. cbn [versions set_schema]. unfold version_list. clear d0.
  assert (H : forall n m, foldr Z.max 0 (map Z.of_nat (seq (S m) n)) = if decide (n = 0)%nat then 0 else Z.of_nat (m + n)).
  { induction n as [|n IH]; intros m; [reflexivity|]. cbn [seq map foldr]. rewrite IH. repeat case_decide; lia. }
  rewrite (H k 0%nat). case_decide; lia.
Qed.

(** The statements of a migration, when they all succeed. *)
Lemma create_all_inv names s s' : create_all names s = (s', inr tt) ->
  db s' = set_schema (objects (db s) ++ names) (versions (db s)) (db s).
Proof.
  revert s. induction names as [|n names IH]; intros s H; cbn [create_all] in H.
  - injection H as <-. rewrite app_nil_r. destruct (db s). reflexivity.
  - apply bind_inr in H as (s1 & [] & E1 & E2). apply exec_ret in E1. apply IH in E2. rewrite E2.
    unfold create in E1. destruct (bool_decide _); [discriminate|]. injection E1 as <-. cbn.
    rewrite <- app_assoc. reflexivity.
Qed.

Lemma objects_S k : objects_of (S k) = objects_of k ++ default [] (migrations (Z.of_nat (S k))).
Proof.
  unfold objects_of, version_list. rewrite seq_S, !map_app, concat_app. cbn. rewrite app_nil_r. reflexivity.
Qed.
Lemma versions_S k : version_list (S k) = version_list k ++ [Z.of_nat (S k)].
Proof. unfold version_list. rewrite seq_S, map_app. reflexivity. Qed.

(** One migration happens as a whole or not at all. *)
Lemma apply_migration_atomic d0 k s s' r : at_version d0 k (db s) -> apply_migration (Z.of_nat (S k)) s = (s', r) ->
  at_version d0 k (db s') /\ (exists e, r = inl e) \/ at_version d0 (S k) (db s') /\ r = inr tt.
Proof.
  intros Hv H. unfold apply_migration in H. destruct (migrations (Z.of_nat (S k))) as [names|] eqn:Em.
  2:{ injection H as <- <-. left. eauto. }
  destruct (execTx_cases _ _ _ _ H) as [[E Hr]|(s1 & s2 & [] & E1 & E2 & E3 & ->)]; [left; rewrite E; auto|].
  right. split; [|reflexivity]. unfold at_version in *. apply bind_inr in E2 as (s3 & [] & Ec & Ei).
  apply create_all_inv in Ec. apply exec_ret in Ei. unfold insert_version in Ei.
  destruct (bool_decide _); [discriminate|]. injection Ei as Ei. rewrite E3, <- Ei, Ec, E1, Hv.
  rewrite objects_S, versions_S, Em. reflexivity.
Qed.

Lemma migrate_from_resumes d0 n : forall k s s' r, at_version d0 k (db s) -> migrate_from n (Z.of_nat (S k)) s = (s', r) ->
  exists k', (k <= k' <= k + n)%nat /\ at_version d0 k' (db s') /\ (r = inr tt -> k' = (k + n)%nat).
Proof.
  induction n as [|n IH]; intros k s s' r Hv H; cbn [migrate_from] in H.
  - injection H as <- <-. exists k. split_and!; auto; lia.
  - unfold bind in H. destruct (apply_migration (Z.of_nat (S k)) s) as [s1 r1] eqn:E.
    destruct (apply_migration_atomic d0 k s s1 r1 Hv E) as [[Hv1 [e ->]]|[Hv1 ->]].
    + injection H as <- <-. exists k. split_and!; auto; try lia; discriminate.
    + replace (Z.of_nat (S k) + 1) with (Z.of_nat (S (S k))) in H by lia.
      destruct (IH (S k) s1 s' r Hv1 H) as (k' & Hk & Hv' & Hr). exists k'. split_and!; auto; try lia.
      intros ->. rewrite Hr by reflexivity. lia.
Qed.

(** On a working disk the statements of every migration succeed. *)
Lemma migrate_from_works d0 c k : (k <= 5)%nat -> exists s,
  migrate_from (5 - k) (Z.of_nat (S k)) (mkSt (set_schema (objects_of k) (version_list k) d0) [] c) = (s, inr tt).
Proof.
  intros Hk. destruct d0. do 6 (destruct k as [|k]; [eexists; vm_compute; reflexivity|]). lia.
Qed.

(** C29: Open leaves the schema of some version at least the one it found and
    no row changed, whatever fails; the schema of the current version if it
    succeeds, which it does on a working disk; so a failed Open can be
    repeated, and one on a current schema changes nothing. *)
Theorem Open_migrates sql_Open path d0 k f c s' r :
  (k <= Z.to_nat SchemaVersion)%nat -> Open sql_Open path (mkSt (set_schema (objects_of k) (version_list k) d0) f c) = (s', r) ->
  exists k', (k <= k' <= Z.to_nat SchemaVersion)%nat /\ db s' = set_schema (objects_of k') (version_list k') d0
    /\ (r = inr tt -> k' = Z.to_nat SchemaVersion) /\ (f = [] -> sql_Open (dsn path) = true -> r = inr tt).
Proof.
  intros Hk H. change (Z.to_nat SchemaVersion) with 5%nat in *. unfold Open in H. destruct (sql_Open (dsn path)).
  2:{ injection H as <- <-. exists k. split_and!; auto; discriminate. }
  unfold migrate, bind at 1 in H. destruct (stmt _) as [s1 [e|u]] eqn:E1.
  { apply stmt_db in E1 as D1 . injection H as <- <-. exists k. split_and!; auto; [discriminate|]. intros -> _. discriminate E1. }
  pose proof (stmt_db _ _ _ E1) as D1. unfold bind at 1 in H. destruct (query current_version s1) as [s2 [e|v]] eqn:E2.
  { pose proof (query_db _ _ _ _ E2) as D2. injection H as <- <-. exists k. rewrite D2, D1. split_and!; auto; [discriminate|].
    intros -> _. injection E1 as <- _. discriminate E2. }
  pose proof (query_db _ _ _ _ E2) as D2. apply query_ret in E2 as Hv. rewrite D1 in Hv, D2. cbn [db] in Hv, D2.
  rewrite current_at in Hv. subst v.
  replace (Z.to_nat (SchemaVersion - Z.of_nat k)) with (5 - k)%nat in H by (unfold SchemaVersion; lia).
  replace (Z.of_nat k + 1) with (Z.of_nat (S k)) in H by lia.
  destruct (migrate_from_resumes d0 _ k s2 s' r D2 H) as (k' & Hk' & Hd & Hr). exists k'. split_and!; auto; try lia.
  { intros Hx. rewrite (Hr Hx). lia. }
  intros -> _. injection E1 as <- _. injection E2 as <- _. destruct (migrate_from_works d0 c k Hk) as [s3 E3].
  cbn [db ctxs] in H. rewrite E3 in H. congruence.
Qed.

(** A disk that fails in the third migration, and the next Open. *)
Definition failed_open : St DB := fst (Open (fun _ => true) "leser.db" (mkSt Meta.empty (repeat true 18 ++ [false]) [])).

Example failed_open_version : versions (db failed_open) = [1; 2] /\ objects (db failed_open) = objects_of 2.
Proof. vm_compute. auto. Qed.

Lemma Open_migrates_witness : exists s',
  Open (fun _ => true) "leser.db" (mkSt (set_schema (objects_of 2) (version_list 2) Meta.empty) [] []) = (s', inr tt)
  /\ db s' = set_schema (objects_of 5) (version_list 5) Meta.empty.
Proof.
  destruct (Open (fun _ => true) "leser.db" (mkSt (set_schema (objects_of 2) (version_list 2) Meta.empty) [] [])) as [s' r] eqn:E.
  destruct (Open_migrates (fun _ => true) "leser.db" Meta.empty 2 [] [] s' r ltac:(vm_compute; lia) E) as (k' & _ & Hd & H5 & Hr).
  rewrite (Hr eq_refl eq_refl) in *. exists s'. split; [reflexivity|]. rewrite Hd, (H5 eq_refl). reflexivity.
Defined.

End MetaOpen.
