(* ===== verification/MetaIssues.v ===== *)
(** * Issues (internal/metadata/issues.go)

    The statements of each operation in its transaction. *)
From S2P Require Import Prelude GoSort GoStrings GoUtf8 Monad Sql MetaDb.
Import Sql Meta.
#[local] Open Scope string_scope.
#[local] Open Scope list_scope.
#[local] Open Scope Z_scope.
#[local] Open Scope leser_scope.

Module Issues.

Notation T := (Tx DB).

Definition IssueUnresolved : string := "unresolved".
Definition IssueResolved : string := "resolved".
Definition IssueIgnored : string := "ignored".
Definition IssueRegressed : string := "regressed".

Record IssueUpsert := mkUpsert {
  iu_OrgID : Z; iu_ProjectID : Z; iu_Fingerprint : string; iu_Basis : string; iu_Title : string;
  iu_Level : string; iu_SeenAt : Z }.
Record IssueOutcome := mkOutcome {
  io_ID : Z; io_IsNew : bool; io_Regressed : bool; io_TimesSeen : Z; io_Status : string }.

(** ** Rows *)
Definition by_id (id : Z) (i : Issue) : bool := i_ID i =? id.
Definition by_key (projectID : Z) (fp : string) (i : Issue) : bool :=
  (i_ProjectID i =? projectID) && bool_decide (i_Fingerprint i = fp).
Definition in_project (projectID id : Z) (i : Issue) : bool := (i_ID i =? id) && (i_ProjectID i =? projectID).

Definition set_status (st : string) (i : Issue) : Issue :=
  mkIssue (i_ID i) (i_OrgID i) (i_ProjectID i) (i_Fingerprint i) (i_Basis i) (i_Title i) (i_Level i) st
    (i_FirstSeen i) (i_LastSeen i) (i_TimesSeen i) (i_MergedInto i).
Definition set_merged (m : option Z) (i : Issue) : Issue :=
  mkIssue (i_ID i) (i_OrgID i) (i_ProjectID i) (i_Fingerprint i) (i_Basis i) (i_Title i) (i_Level i) (i_Status i)
    (i_FirstSeen i) (i_LastSeen i) (i_TimesSeen i) m.
Definition add_times (n : Z) (i : Issue) : Issue :=
  mkIssue (i_ID i) (i_OrgID i) (i_ProjectID i) (i_Fingerprint i) (i_Basis i) (i_Title i) (i_Level i) (i_Status i)
    (i_FirstSeen i) (i_LastSeen i) (i_TimesSeen i + n) (i_MergedInto i).
Definition touch (seenAt : Z) (level status : string) (i : Issue) : Issue :=
  mkIssue (i_ID i) (i_OrgID i) (i_ProjectID i) (i_Fingerprint i) (i_Basis i) (i_Title i) level status
    (i_FirstSeen i) (Z.max (i_LastSeen i) seenAt) (i_TimesSeen i + 1) (i_MergedInto i).

(** UPDATE issues SET ... WHERE ...: the rows affected. *)
Definition update_issues (p : Issue -> bool) (f : Issue -> Issue) (d : DB) : option (DB * Z) :=
  let '(l, n) := update_where p f (issues d) in Some (set_issues l d, n).

(** An update of merged_into refers to an existing issue if it affects a row. *)
Definition update_merged (p : Issue -> bool) (m : option Z) (d : DB) : option (DB * Z) :=
  let ok := match m with None => true | Some t => issue_exists t d end in
  if has p (issues d) && negb ok then None else update_issues p (set_merged m) d.

Definition insert_issue (u : IssueUpsert) (d : DB) : option (DB * Z) :=
  let id := next_id i_ID (issues d) in
  if negb (org_exists (iu_OrgID u) d) || negb (project_exists (iu_ProjectID u) d)
     || has (by_key (iu_ProjectID u) (iu_Fingerprint u)) (issues d) then None
  else Some (set_issues (issues d ++ [mkIssue id (iu_OrgID u) (iu_ProjectID u) (iu_Fingerprint u) (iu_Basis u)
               (iu_Title u) (iu_Level u) IssueUnresolved (iu_SeenAt u) (iu_SeenAt u) 1 None]) d, id).

(** ** UpsertIssue *)
Definition upsert_tx (u : IssueUpsert) : T IssueOutcome :=
  let! r := query (fun d => List.find (by_key (iu_ProjectID u) (iu_Fingerprint u)) (issues d)) in
  match r with
  | None =>
      let! eid := exec (insert_issue u) in
      ret (mkOutcome eid true false 1 IssueUnresolved)
  | Some i =>
      (* a merge decision persists: count into the target *)
      let mergedInto := default 0 (i_MergedInto i) in
      let target := if mergedInto =? 0 then i_ID i else mergedInto in
      let! status := (if mergedInto =? 0 then ret (i_Status i)
                      else query_row (fun d => i_Status <$> List.find (by_id target) (issues d))) in
      let regressed := bool_decide (status = IssueResolved) in
      let newStatus := if regressed then IssueRegressed else status in
      let! _ := exec (update_issues (by_id target) (touch (iu_SeenAt u) (iu_Level u) newStatus)) in
      let! seen := query_row (fun d => i_TimesSeen <$> List.find (by_id target) (issues d)) in
      ret (mkOutcome target false regressed seen newStatus)
  end.

Definition UpsertIssue (u : IssueUpsert) : T IssueOutcome :=
  if (iu_ProjectID u =? 0) || bool_decide (iu_Fingerprint u = "") then throw ErrInvalid
  else Write (upsert_tx u).

(** ** Reads *)
Definition GetIssue (projectID issueID : Z) : T Issue :=
  or_not_found (query_row (fun d => List.find (in_project projectID issueID) (issues d))).

(** [f_Fingerprints]: [None] is nil, no constraint. *)
Record IssueFilter := mkFilter {
  f_Status : string; f_Level : string; f_TitleLike : string; f_Fingerprint : string;
  f_Fingerprints : option (list string) }.

(** LIKE with ESCAPE '\': [%] is any run of characters, [_] one character,
    letters compare without ASCII case. A pattern that ends in the escape
    character matches nothing. *)
Definition same_letter (c d : ascii) : bool := bool_decide (to_lower_ascii c = to_lower_ascii d).

(** One character of UTF-8 text: a byte and the continuation bytes after it. *)
Fixpoint skip_cont (s : string) : string :=
  match s with
  | String c s' => if cont (code c) then skip_cont s' else s
  | "" => ""
  end.

Fixpoint like (p s : string) {struct p} : bool :=
  match p with
  | "" => match s with "" => true | _ => false end
  | String c p =>
      if bool_decide (c = "\"%char) then
        match p, s with
        | String e p, String d s => same_letter e d && like p s
        | _, _ => false
        end
      else if bool_decide (c = "%"%char) then
        (fix any s := like p s || match s with "" => false | String _ s => any s end) s
      else if bool_decide (c = "_"%char) then
        match s with String _ s => like p (skip_cont s) | "" => false end
      else match s with String d s => same_letter c d && like p s | "" => false end
  end.

Definition escapeLike (s : string) : string :=
  let s := replace_char "\" "\\" s in
  let s := replace_char "%" "\%" s in
  replace_char "_" "\_" s.

(** The WHERE clause. *)
Definition filter_row (projectID : Z) (f : IssueFilter) (i : Issue) : bool :=
  (i_ProjectID i =? projectID) && (match i_MergedInto i with None => true | Some _ => false end)
  && (bool_decide (f_Status f = "") || bool_decide (i_Status i = f_Status f))
  && (bool_decide (f_Level f = "") || bool_decide (i_Level i = f_Level f))
  && (bool_decide (f_TitleLike f = "") || like ("%" +:+ escapeLike (f_TitleLike f) +:+ "%") (i_Title i))
  && (bool_decide (f_Fingerprint f = "") || bool_decide (i_Fingerprint i = f_Fingerprint f))
  && match f_Fingerprints f with
     | Some ((_ :: _) as fps) => bool_decide (i_Fingerprint i ∈ take 500 fps)
     | _ => true
     end.

Definition newest_first : Issue -> Z := fun i => - i_LastSeen i.

Definition list_limit (limit : Z) : Z := if (limit <=? 0) || (500 <? limit) then 100 else limit.

Section Order.
Context `{!SliceSort (key_le newest_first)}.

Definition ListIssuesFiltered (projectID : Z) (f : IssueFilter) (limit : Z) : T (list Issue) :=
  match f_Fingerprints f with
  | Some [] => ret []
  | _ => query (fun d => limit_rows (list_limit limit)
           (sort_slice (key_le newest_first) (List.filter (filter_row projectID f) (issues d))))
  end.

Definition ListIssues (projectID : Z) (status : string) (limit : Z) : T (list Issue) :=
  ListIssuesFiltered projectID (mkFilter status "" "" "" None) limit.
End Order.

(** ** Lifecycle *)
Definition affected (n : Z) : T unit := if n =? 0 then throw ErrNotFound else ret tt.

Definition SetIssueStatus (projectID issueID : Z) (status : string) : T unit :=
  if negb (bool_decide (status ∈ [IssueUnresolved; IssueResolved; IssueIgnored])) then throw ErrInvalid
  else Write (let! n := exec (update_issues (in_project projectID issueID) (set_status status)) in affected n).

(** One source of a merge. *)
Definition merge_source (projectID targetID src : Z) : T unit :=
  if src =? targetID then throw ErrInvalid
  else
    let! count := or_not_found (query_row (fun d => i_TimesSeen <$> List.find (in_project projectID src) (issues d))) in
    let! _ := exec (update_merged (in_project projectID src) (Some targetID)) in
    let! _ := exec (update_merged (fun i => bool_decide (i_MergedInto i = Some src) && (i_ProjectID i =? projectID))
                      (Some targetID)) in
    let! _ := exec (update_issues (by_id targetID) (add_times count)) in
    ret tt.

Fixpoint merge_sources (projectID targetID : Z) (sources : list Z) : T unit :=
  match sources with
  | [] => ret tt
  | src :: sources => merge_source projectID targetID src ;; merge_sources projectID targetID sources
  end.

Definition merge_tx (projectID targetID : Z) (sources : list Z) : T unit :=
  let! exists_ := query (fun d => Z.of_nat (length (List.filter
    (fun i => in_project projectID targetID i && match i_MergedInto i with None => true | Some _ => false end)
    (issues d)))) in
  if exists_ =? 0 then throw ErrNotFound else merge_sources projectID targetID sources.

Definition MergeIssues (projectID targetID : Z) (sources : list Z) : T unit :=
  Write (merge_tx projectID targetID sources).

Definition SplitIssue (projectID sourceID : Z) : T unit :=
  Write (
    let! n := exec (update_issues
      (fun i => in_project projectID sourceID i && match i_MergedInto i with None => false | Some _ => true end)
      (fun i => set_status IssueUnresolved (set_merged None i))) in
    affected n).

End Issues.
