(* ===== verification/MetaConcProps.v ===== *)
(** * Concurrent writes: what callers may rely on (internal/metadata/db.go)

    However Write, writeLoop and Close interleave, the tables and the answers
    are those of the calls made one at a time, and the writer leaves no caller
    without an answer. *)
From S2P Require Import Prelude GoSort GoStrings Monad Sql MetaDb MetaIssues MetaConc.
Import Sql Meta MetaConc.
#[local] Open Scope string_scope.
#[local] Open Scope list_scope.
#[local] Open Scope Z_scope.
#[local] Open Scope leser_scope.

Module MetaConcProps.

Section Props.
Context {D A : Type} (d0 : D) (f0 : list bool).
Notation Fn := (Tx D A).
Notation Sys := (@Sys D A).
Notation steps := (rtc (@step D A)).
Notation init := (@init D A).

(** The calls in the order of their transactions, with what their contexts
    did. *)
Definition history (s : Sys) : list (Fn * pc) := map (fun i => (fn_of s i, pc_of s i)) (order s).

Lemma history_plain s : inv d0 f0 s -> Forall (fun x => plain (fst x)) (history s).
Proof.
  intros H. apply Forall_map, Forall_forall. intros i Hi. cbn.
  destruct (iv_sent _ _ _ H i) as (fn & p & E & _); [apply elem_of_app; auto|]. unfold fn_of. rewrite E.
  pose proof (iv_plain _ _ _ H) as Hp. rewrite Forall_forall in Hp. exact (Hp _ (list_elem_of_lookup_2 _ _ _ E)).
Qed.

(** C28: the single writer: in every interleaving of Write calls with the
    writer goroutine and Close, some order of distinct calls made one after the
    other, each with what its context did, gives exactly the tables and the
    answers; a call that returned other than by its context is in that order
    with this answer, one that panicked or did not send is not; and a call made
    after another was answered comes later in the order. *)
Theorem writes_are_serialized s s' :
  steps (init d0 f0) s -> steps s s' ->
  writes_in_turn (map fst (history s')) (mkSt d0 f0 (map (fun x => ctx_of (snd x)) (history s')))
    = (mkSt (tables s') (flt s') [], inr (map (fun x => told (pc_of s' (fst x)) (snd x)) (executed s')))
  /\ NoDup (order s')
  /\ (forall i fn r, calls s' !! i = Some (fn, Returned (Answer r)) -> (i, r) ∈ executed s')
  /\ (forall i fn p, calls s' !! i = Some (fn, p) -> p = AtSend \/ p = Panicked -> i ∉ order s')
  /\ (forall i fn r j k m, calls s !! i = Some (fn, Returned (Answer r)) -> (length (calls s) <= j)%nat ->
        order s' !! k = Some i -> order s' !! m = Some j -> (k < m)%nat).
Proof.
  intros H0 H1. pose proof (inv_steps d0 f0 _ _ (inv_init d0 f0) H0) as I. pose proof (inv_steps d0 f0 _ _ I H1) as I'.
  destruct (write_steps_mono _ _ H1) as (_ & Hpre). pose proof (iv_nodup _ _ _ I') as Hnd.
  apply NoDup_app in Hnd as (_ & _ & Hnd). split_and!.
  - assert (Hr : run_all (map fst (history s')) d0 f0 = (tables s', flt s', map snd (executed s'))).
    { unfold history. rewrite map_map. exact (iv_run _ _ _ I'). }
    rewrite (writes_run_all _ _ _ _ _ _ (history_plain _ I') Hr). do 2 f_equal. unfold history, order.
    rewrite map_map. generalize (executed s'). intros l. induction l as [|x l IH]; [reflexivity|]. cbn. f_equal. exact IH.
  - exact Hnd.
  - intros i fn r Hi. exact (iv_ret _ _ _ I' i fn r Hi).
  - intros i fn p Hi Hp Hin. eapply (unsent d0 f0 i fn p s' I' Hi); [|apply elem_of_app; right; exact Hin].
    destruct Hp as [-> | ->]; intros [?|[? ?]]; discriminate.
  - intros i fn r j k m Hi Hj Hk Hm. pose proof (elem_order _ _ _ (iv_ret _ _ _ I i fn r Hi)) as Hin.
    apply list_elem_of_lookup in Hin as [k' Hk']. destruct Hpre as [l El].
    assert (Eo : order s' = order s ++ map fst l) by (unfold order; rewrite El; apply map_app).
    assert (k = k') as -> by (eapply NoDup_lookup; [exact Hnd|exact Hk|rewrite Eo; apply lookup_app_l_Some, Hk']).
    destruct (decide (m < length (order s))%nat) as [Hlt|Hge]; [|apply lookup_lt_Some in Hk'; lia]. exfalso.
    rewrite Eo, lookup_app_l in Hm by exact Hlt. destruct (iv_sent _ _ _ I j) as (g & p & E & _).
    { apply elem_of_app. right. eauto using list_elem_of_lookup_2. }
    apply lookup_lt_Some in E. lia.
Qed.

(** ** The writer's work *)
Definition work (s : Sys) : nat :=
  3 * length (queue s) + match wr s with WIdle => 1 | WExec _ => 3 | WAnswer _ _ => 2 | WExited => 0 end.

Lemma writer_step_work (s s' : Sys) : wstep s s' -> (work s' < work s)%nat /\ calls s' = calls s /\ closed s' = closed s.
Proof.
  intros [i rest s1 Hw Hq|i fn p s1 Hw _|i r s1 Hw|s1 Hw Hq _]; unfold work; cbn; rewrite Hw, ?Hq; cbn [length];
    (split; [lia|auto]).
Qed.

Lemma writer_steps_work n (s s' : Sys) : nsteps wstep n s s' ->
  (n + work s' <= work s)%nat /\ calls s' = calls s /\ closed s' = closed s /\ steps s s'.
Proof.
  induction 1 as [s|n s s1 s2 H1 _ (L & C & X & S)]; [auto using rtc_refl|].
  pose proof (writer_step_work _ _ H1) as (L1 & C1 & X1). split_and!; [lia|congruence|congruence|].
  eapply rtc_l; [apply step_writer, H1|exact S].
Qed.

(** the writer drains the queue, a closed one too: from any reachable
    state its own steps come to an end, and then nothing is queued, the answer
    of every call that waits is in the call's channel, and if the store is
    being closed the writer has exited, so Close returns. *)
Theorem writer_drains_the_queue s n s' :
  steps (init d0 f0) s -> nsteps wstep n s s' ->
  (n <= work s)%nat
  /\ ((forall s'', ~ wstep s' s'') ->
      queue s' = [] /\ (closed s = true -> wr s' = WExited)
      /\ forall i fn, calls s !! i = Some (fn, AtWait) -> exists r, resp s' !! i = Some r /\ (i, r) ∈ executed s').
Proof.
  intros H0 Hn. destruct (writer_steps_work _ _ _ Hn) as (Hw & Hc & Hx & Hs). split; [lia|]. intros Hstuck.
  pose proof (inv_steps d0 f0 _ _ (inv_steps d0 f0 _ _ (inv_init d0 f0) H0) Hs) as I.
  assert (Hq : queue s' = [] /\ (closed s' = true -> wr s' = WExited) /\ (wr s' = WIdle \/ wr s' = WExited)).
  { destruct (wr s') as [|i|i r|] eqn:E.
    - destruct (queue s') as [|i rest] eqn:Eq; [|exfalso; eapply Hstuck, step_take; eauto].
      split_and!; auto. intros Hcl. exfalso. eapply Hstuck, step_exit; eauto.
    - exfalso. destruct (iv_sent _ _ _ I i) as (fn & p & Hi & _); [unfold pending; rewrite E; set_solver|].
      eapply Hstuck, step_exec; eauto.
    - exfalso. eapply Hstuck, step_answer, E.
    - split_and!; auto. apply (iv_exit _ _ _ I E). }
  destruct Hq as (Hq & Hcl & Hi). split_and!; [exact Hq|rewrite <- Hx; exact Hcl|]. intros i fn Hwait. rewrite <- Hc in Hwait.
  destruct (iv_wait _ _ _ I i fn Hwait) as [Hin|[[r Hr]|[r Hr]]].
  - unfold pending in Hin. rewrite Hq in Hin. destruct Hi as [E|E]; rewrite E in Hin; inversion Hin.
  - destruct Hi; congruence.
  - exists r. split; [exact Hr|]. exact (iv_resp _ _ _ I i r Hr).
Qed.

(** ** What every transaction keeps, the interleaved writes keep *)
Lemma run_all_keeps (P : D -> Prop) fns : Forall (tx_keeps P) fns -> forall d f, P d -> P (fst (fst (@run_all D A fns d f))).
Proof.
  induction 1 as [|fn fns Hk _ IH]; intros d f HP; cbn [run_all]; [exact HP|].
  destruct (execTx fn (mkSt d f [])) as [v r] eqn:E. specialize (IH (db v) (faults v)).
  destruct (run_all fns (db v) (faults v)) as [[d2 f2] rs]. apply IH.
  destruct (execTx_cases _ _ _ _ E) as [[-> _]|(s1 & s2 & a & E1 & E2 & -> & _)]; [exact HP|].
  apply (Hk _ _ _ E2). rewrite E1. exact HP.
Qed.

Lemma interleaved_writes_keep (P : D -> Prop) s :
  steps (init d0 f0) s -> P d0 -> Forall (fun c => tx_keeps P (fst c)) (calls s) -> P (tables s).
Proof.
  intros H0 HP Hk. pose proof (inv_steps d0 f0 _ _ (inv_init d0 f0) H0) as I. pose proof (iv_run _ _ _ I) as Hr.
  assert (Hf : Forall (tx_keeps P) (map (fn_of s) (order s))).
  { apply Forall_map, Forall_forall. intros i Hi. cbn. destruct (iv_sent _ _ _ I i) as (fn & p & E & _); [set_solver|].
    unfold fn_of. rewrite E. rewrite Forall_forall in Hk. exact (Hk _ (list_elem_of_lookup_2 _ _ _ E)). }
  pose proof (run_all_keeps P _ Hf d0 f0 HP) as K. rewrite Hr in K. exact K.
Qed.
End Props.

(** ** The transactions of the store look at no context *)
Section Plain.
Context {D : Type}.

Lemma plain_ret {A} (a : A) : plain (ret a : Tx D A).
Proof. intros d f c. reflexivity. Qed.
Lemma plain_throw {A} e : plain (throw e : Tx D A).
Proof. intros d f c. reflexivity. Qed.
Lemma plain_bind {A B} (m : Tx D A) (k : A -> Tx D B) : plain m -> (forall a, plain (k a)) -> plain (bind m k).
Proof.
  intros Hm Hk d f c. unfold bind. rewrite Hm. destruct (m (mkSt d f [])) as [[d1 f1 c1] [e|a]] eqn:E; cbn [db faults].
  - reflexivity.
  - rewrite (Hk a d1 f1 c), (Hk a d1 f1 c1). destruct (k a (mkSt d1 f1 [])) as [v r]. reflexivity.
Qed.
Lemma plain_try {A} (m : Tx D A) : plain m -> plain (try m).
Proof. intros Hm d f c. unfold try. rewrite Hm. destruct (m (mkSt d f [])). reflexivity. Qed.
Lemma plain_stmt : plain (stmt : Tx D unit).
Proof. intros d [|ok f] c; reflexivity. Qed.
Lemma plain_query {A} (g : D -> A) : plain (query g).
Proof. intros d [|[] f] c; reflexivity. Qed.
Lemma plain_exec {A} (g : D -> option (D * A)) : plain (exec g).
Proof. intros d [|[] f] c; unfold exec, bind, get, stmt; cbn; try reflexivity; destruct (g d) as [[]|]; reflexivity. Qed.
Lemma plain_query_row {A} (g : D -> option A) : plain (query_row g).
Proof. apply plain_bind; [apply plain_query|]. intros [a|]; [apply plain_ret|apply plain_throw]. Qed.
Lemma plain_or_not_found {A} (m : Tx D A) : plain m -> plain (or_not_found m).
Proof. intros Hm. apply plain_bind; [apply plain_try, Hm|]. intros [[]|a]; auto using plain_ret, plain_throw. Qed.
End Plain.

Create HintDb plain.
#[export] Hint Resolve plain_ret plain_throw plain_bind plain_try plain_query plain_exec plain_query_row plain_or_not_found : plain.

Lemma upsert_tx_plain u : plain (Issues.upsert_tx u).
Proof.
  apply plain_bind; [auto with plain|]. intros [i|]; [|auto with plain]. cbv zeta.
  apply plain_bind; [destruct (_ =? 0); auto with plain|auto 6 with plain].
Qed.

Lemma merge_tx_plain p t srcs : plain (Issues.merge_tx p t srcs).
Proof.
  apply plain_bind; [auto with plain|]. intros n. destruct (n =? 0); [auto with plain|].
  induction srcs as [|src srcs IH]; cbn [Issues.merge_sources]; [auto with plain|]. apply plain_bind; [|auto].
  unfold Issues.merge_source. destruct (src =? t); [auto with plain|]. auto 8 with plain.
Qed.

(** Two callers create the same organisation; the second is queued first, and
    the context of the first ends while its transaction fails. *)
Definition ex_fn (name : string) : Tx DB Z := exec (insert_org "acme" name).
Definition ex_queued : @Sys DB Z :=
  mkSys Meta.empty [] false [(ex_fn "A", AtWait); (ex_fn "B", AtWait)] [1%nat; 0%nat] WIdle ∅ [].
Definition ex_db : DB := set_orgs [mkOrg 1 "acme" "B"] Meta.empty.
Definition ex_drained : @Sys DB Z :=
  mkSys ex_db [] false [(ex_fn "A", AtWait); (ex_fn "B", AtWait)] [] WIdle
    (<[0%nat := inl ErrSql]> (<[1%nat := inr 1]> ∅)) [(1%nat, inr 1); (0%nat, inl ErrSql)].
Definition ex_returned : @Sys DB Z :=
  mkSys ex_db [] false [(ex_fn "A", Returned CtxDone); (ex_fn "B", Returned (Answer (inr 1)))] [] WIdle
    (delete 1%nat (<[0%nat := inl ErrSql]> (<[1%nat := inr 1]> ∅))) [(1%nat, inr 1); (0%nat, inl ErrSql)].

Lemma ex_fn_plain name : plain (ex_fn name).
Proof. apply plain_exec. Qed.

Lemma ex_write_sends : rtc step (init Meta.empty []) ex_queued.
Proof.
  eapply rtc_l; [apply (step_call (ex_fn "A")), ex_fn_plain|]. eapply rtc_l; [apply (step_call (ex_fn "B")), ex_fn_plain|].
  eapply rtc_l; [apply (step_send 1 (ex_fn "B")); reflexivity|]. eapply rtc_l; [apply (step_send 0 (ex_fn "A")); reflexivity|].
  apply rtc_refl.
Qed.

Lemma ex_drains : nsteps wstep 6 ex_queued ex_drained.
Proof.
  do 2 (eapply nsteps_l; [eapply step_take; reflexivity|]; eapply nsteps_l; [eapply step_exec; reflexivity|];
    eapply nsteps_l; [eapply step_answer; reflexivity|]). apply nsteps_O.
Qed.

Lemma ex_write_returns : rtc step ex_queued ex_returned.
Proof.
  etransitivity; [apply (writer_steps_work _ _ _ ex_drains)|].
  eapply rtc_l; [apply (step_recv 1 (ex_fn "B") (inr 1)); reflexivity|].
  eapply rtc_l; [apply (step_wait_ctx 0 (ex_fn "A")); reflexivity|]. apply rtc_refl.
Qed.

(** A call of Write that meets Close can panic, whatever it would have
    written and whatever the store holds. *)
Lemma write_during_close_panics {D A} (d : D) f (fn : Tx D A) : plain fn ->
  exists s, rtc step (init d f) s /\ calls s = [(fn, Panicked)].
Proof.
  intros Hp. eexists. split.
  - eapply rtc_l; [apply (step_call fn _ Hp)|]. eapply rtc_l; [apply step_close; reflexivity|].
    eapply rtc_l; [apply (step_send_closed 0 fn); reflexivity|]. apply rtc_refl.
  - reflexivity.
Qed.

Lemma ex_stuck s : ~ wstep ex_drained s.
Proof. intros H. inversion H; discriminate. Qed.

Lemma writes_are_serialized_witness :
  writes_in_turn [ex_fn "B"; ex_fn "A"] (mkSt Meta.empty [] [CtxLive; CtxWhileWaiting])
  = (mkSt ex_db [] [], inr [inr 1; inl ErrCtx]).
Proof. apply (writes_are_serialized Meta.empty [] ex_queued ex_returned ex_write_sends ex_write_returns). Defined.

Lemma writer_drains_the_queue_witness : exists r, resp ex_drained !! 0%nat = Some r.
Proof.
  destruct (writer_drains_the_queue Meta.empty [] ex_queued 6 ex_drained ex_write_sends ex_drains) as [_ H].
  destruct (H ex_stuck) as (_ & _ & Ha). destruct (Ha 0%nat (ex_fn "A") eq_refl) as (r & Hr & _). exists r. exact Hr.
Defined.

End MetaConcProps.
