(* ===== verification/IssuesProps.v ===== *)
(** * Issues stay one hop deep and every event is counted once

    The rows' invariant under every operation, what an upsert and a merge do
    to the counts, and what the listing returns. *)
From S2P Require Import Prelude GoSort GoStrings GoUtf8 Monad Sql MetaDb MetaIssues.
Import Sql Meta Issues.
#[local] Open Scope Z_scope.
#[local] Open Scope leser_scope.

Module IssuesProps.

Notation T := (Tx DB).

(** ** The invariant *)
Definition key (i : Issue) : Z * string := (i_ProjectID i, i_Fingerprint i).

Record wf (l : list Issue) : Prop := {
  wf_ids : NoDup (map i_ID l);
  wf_keys : NoDup (map key l);
  wf_pos : Forall (fun i => 0 < i_ID i) l;
  wf_hop : forall i t, i ∈ l -> i_MergedInto i = Some t ->
    exists j, j ∈ l /\ i_ID j = t /\ i_ProjectID j = i_ProjectID i /\ i_MergedInto j = None }.

Definition issues_ok (d : DB) : Prop := wf (issues d).

(** An update that keeps the identifying columns. *)
Definition keeps_id (f : Issue -> Issue) : Prop :=
  forall i, i_ID (f i) = i_ID i /\ i_ProjectID (f i) = i_ProjectID i /\ i_Fingerprint (f i) = i_Fingerprint i.

Lemma map_keeps {A} (g : Issue -> A) f l : (forall i, g (f i) = g i) -> map g (map f l) = map g l.
Proof. intros H. rewrite map_map. apply map_ext, H. Qed.

Lemma wf_map f l :
  keeps_id f -> wf l ->
  (forall i t, i ∈ l -> i_MergedInto (f i) = Some t ->
     exists j, j ∈ l /\ i_ID j = t /\ i_ProjectID j = i_ProjectID i /\ i_MergedInto (f j) = None) ->
  wf (map f l).
Proof.
  intros Hf [H1 H2 H3 H4] Hhop. constructor.
  - rewrite map_keeps; [exact H1|]. intros i. apply Hf.
  - rewrite map_keeps; [exact H2|]. intros i. unfold key. destruct (Hf i) as (_ & -> & ->). reflexivity.
  - apply Forall_map. eapply Forall_impl; [exact H3|]. intros i. cbn. destruct (Hf i) as (-> & _). auto.
  - intros i' t Hi Ht. apply list_elem_of_fmap in Hi as (i & -> & Hi).
    destruct (Hhop i t Hi Ht) as (j & J1 & J2 & J3 & J4). exists (f j). split_and!; auto.
    + apply list_elem_of_fmap. eauto.
    + rewrite <- J2. apply Hf.
    + destruct (Hf i) as (_ & -> & _). destruct (Hf j) as (_ & -> & _). exact J3.
Qed.

Lemma wf_map_plain f l :
  keeps_id f -> (forall i, i_MergedInto (f i) = i_MergedInto i) -> wf l -> wf (map f l).
Proof.
  intros Hf Hm Hwf. apply wf_map; auto. intros i t Hi Ht. rewrite Hm in Ht.
  destruct (wf_hop _ Hwf _ _ Hi Ht) as (j & J1 & J2 & J3 & J4). exists j. rewrite Hm. auto.
Qed.

(** Conditional updates. *)
Definition upd (p : Issue -> bool) (f : Issue -> Issue) (i : Issue) : Issue := if p i then f i else i.

Lemma upd_keeps_id p f : keeps_id f -> keeps_id (upd p f).
Proof. intros Hf i. unfold upd. destruct (p i); auto. Qed.

Lemma keeps_id_comp f g : keeps_id f -> keeps_id g -> keeps_id (fun i => g (f i)).
Proof.
  intros Hf Hg i. destruct (Hf i) as (F1 & F2 & F3). destruct (Hg (f i)) as (-> & -> & ->). auto.
Qed.

Lemma set_status_keeps st : keeps_id (set_status st).
Proof. repeat split. Qed.
Lemma set_merged_keeps m : keeps_id (set_merged m).
Proof. repeat split. Qed.
Lemma add_times_keeps n : keeps_id (add_times n).
Proof. repeat split. Qed.
Lemma touch_keeps a b c : keeps_id (touch a b c).
Proof. repeat split. Qed.
#[local] Hint Resolve upd_keeps_id keeps_id_comp set_status_keeps set_merged_keeps add_times_keeps touch_keeps : core.

Lemma update_issues_eq p f d d' n :
  update_issues p f d = Some (d', n) ->
  d' = set_issues (map (upd p f) (issues d)) d /\ n = Z.of_nat (length (List.filter p (issues d))).
Proof. unfold update_issues, update_where. intros [= <- <-]. auto. Qed.

Lemma update_merged_eq p m d d' n :
  update_merged p m d = Some (d', n) -> d' = set_issues (map (upd p (set_merged m)) (issues d)) d.
Proof.
  unfold update_merged. destruct (_ && _); [discriminate|]. intros H. apply update_issues_eq in H as [-> _]. reflexivity.
Qed.

Lemma issues_set l d : issues (set_issues l d) = l.
Proof. reflexivity. Qed.
Lemma set_issues_twice l l' d : set_issues l (set_issues l' d) = set_issues l d.
Proof. reflexivity. Qed.

(** ** Finding a row *)
Lemma find_some_in {A} (p : A -> bool) l x : List.find p l = Some x -> x ∈ l /\ p x = true.
Proof. intros H. apply List.find_some in H. rewrite list_elem_of_In. exact H. Qed.

Lemma find_none_all {A} (p : A -> bool) l : List.find p l = None -> forall x, x ∈ l -> p x = false.
Proof. intros H x Hx. apply (List.find_none _ _ H). apply list_elem_of_In, Hx. Qed.

Lemma by_id_unique l i j : NoDup (map i_ID l) -> i ∈ l -> j ∈ l -> i_ID i = i_ID j -> i = j.
Proof.
  induction l as [|x l IH]; intros Hn Hi Hj E; [inversion Hi|]. inversion Hn as [|? ? Hx Hn']; subst.
  apply elem_of_cons in Hi as [->|Hi], Hj as [->|Hj]; auto.
  - exfalso. apply Hx. rewrite E. apply list_elem_of_fmap. eauto.
  - exfalso. apply Hx. rewrite <- E. apply list_elem_of_fmap. eauto.
Qed.

(** ** Statements that leave merges alone *)
Lemma update_keeps p f :
  keeps_id f -> (forall i, i_MergedInto (f i) = i_MergedInto i) -> tx_keeps issues_ok (exec (update_issues p f)).
Proof.
  intros Hf Hm. apply exec_keeps. intros d d' n H Hok. apply update_issues_eq in H as [-> _].
  apply wf_map_plain; auto. intros i. unfold upd. destruct (p i); auto.
Qed.

Lemma insert_issue_keeps u : tx_keeps issues_ok (exec (insert_issue u)).
Proof.
  apply exec_keeps. intros d d' n. unfold insert_issue.
  destruct (negb _ || negb _ || has _ _) eqn:E; [discriminate|]. intros [= <- _] [H1 H2 H3 H4].
  apply orb_false_iff in E as [_ E]. unfold issues_ok. rewrite issues_set. set (x := mkIssue _ _ _ _ _ _ _ _ _ _ _ _).
  constructor.
  - rewrite map_app. apply NoDup_app. split_and!; [exact H1| |apply NoDup_singleton].
    intros y Hy Hy'. apply list_elem_of_singleton in Hy'. subst y. exact (next_id_fresh i_ID (issues d) Hy).
  - rewrite map_app. apply NoDup_app. split_and!; [exact H2| |apply NoDup_singleton].
    intros y Hy Hy'. apply list_elem_of_singleton in Hy'. subst y.
    apply list_elem_of_fmap in Hy as (j & Ej & Hj). unfold has in E. apply not_true_iff_false in E. apply E.
    apply existsb_exists. exists j. split; [apply list_elem_of_In, Hj|]. unfold by_key.
    injection Ej as E1 E2. rewrite <- E1, <- E2, Z.eqb_refl. apply bool_decide_true. reflexivity.
  - apply Forall_app. split; [exact H3|]. repeat constructor. cbn. unfold next_id.
    assert (Hf : forall l, 0 <= foldr (fun r m => Z.max (i_ID r) m) 0 l) by (intros l; induction l; cbn; lia).
    specialize (Hf (issues d)). lia.
  - intros i t Hi Ht. apply elem_of_app in Hi as [Hi|Hi].
    + destruct (H4 i t Hi Ht) as (j & J1 & J). exists j. split; [apply elem_of_app; auto|exact J].
    + apply list_elem_of_singleton in Hi. subst i. discriminate.
Qed.

(** ** Merging *)

(** Where the rows that count into [src] count afterwards. *)
Definition redirect (projectID src t : Z) (i : Issue) : Issue :=
  if in_project projectID src i || bool_decide (i_MergedInto i = Some src) && (i_ProjectID i =? projectID)
  then set_merged (Some t) i else i.

Definition merged_row (projectID src t count : Z) (i : Issue) : Issue :=
  upd (by_id t) (add_times count) (redirect projectID src t i).

Lemma merge_source_inv projectID t src s s' :
  merge_source projectID t src s = (s', inr tt) ->
  src <> t /\ exists x, List.find (in_project projectID src) (issues (db s)) = Some x
    /\ db s' = set_issues (map (merged_row projectID src t (i_TimesSeen x)) (issues (db s))) (db s).
Proof.
  unfold merge_source. destruct (Z.eqb_spec src t) as [->|Hne]; [discriminate|]. intros H.
  apply bind_inr in H as (s1 & count & E1 & H). apply bind_inr in H as (s2 & n2 & E2 & H).
  apply bind_inr in H as (s3 & n3 & E3 & H). apply bind_inr in H as (s4 & n4 & E4 & H).
  injection H as <-. split; [exact Hne|].
  unfold or_not_found in E1. apply bind_inr in E1 as (s0 & r & E0 & E1). unfold try in E0.
  destruct (query_row _ s) as [s0' r'] eqn:EQ. injection E0 as -> ->.
  destruct r as [[]|c]; try discriminate. injection E1 as <- ->.
  pose proof (query_row_db _ _ _ _ EQ) as D0. apply query_row_ret in EQ.
  apply fmap_Some in EQ as (x & Hx & ->). exists x. split; [exact Hx|].
  apply exec_ret, update_merged_eq in E2. apply exec_ret, update_merged_eq in E3.
  apply exec_ret in E4. apply update_issues_eq in E4 as [E4 _].
  rewrite E4, E3, E2, D0, !issues_set, !set_issues_twice, !map_map. f_equal. apply map_ext. intros i.
  unfold merged_row, redirect. f_equal. unfold upd. destruct (in_project projectID src i) eqn:Ei; cbn [orb].
  - cbn. destruct (_ && _); reflexivity.
  - reflexivity.
Qed.

Lemma redirect_keeps p a b : keeps_id (redirect p a b).
Proof. intros i. unfold redirect. destruct (_ || _); repeat split. Qed.
Lemma merged_row_keeps p a b c : keeps_id (merged_row p a b c).
Proof. apply (keeps_id_comp (redirect p a b) (upd (by_id b) (add_times c))); auto using redirect_keeps. Qed.

Lemma merged_row_merged p a b c i : i_MergedInto (merged_row p a b c i) = i_MergedInto (redirect p a b i).
Proof. unfold merged_row, upd. destruct (by_id _ _); reflexivity. Qed.

(** The target of a merge is there and unmerged. *)
Definition target_ok (projectID t : Z) (l : list Issue) : Prop :=
  exists j, j ∈ l /\ i_ID j = t /\ i_ProjectID j = projectID /\ i_MergedInto j = None.

Lemma redirect_target p src t j :
  src <> t -> i_ID j = t -> i_MergedInto j = None -> redirect p src t j = j.
Proof.
  intros Hne <- Hm. unfold redirect, in_project. rewrite Hm.
  rewrite (proj2 (Z.eqb_neq _ _)) by congruence. rewrite bool_decide_false by discriminate. reflexivity.
Qed.

Lemma merge_source_ok projectID t src s s' :
  merge_source projectID t src s = (s', inr tt) ->
  wf (issues (db s)) -> target_ok projectID t (issues (db s)) ->
  wf (issues (db s')) /\ target_ok projectID t (issues (db s')).
Proof.
  intros H Hwf (j & J1 & J2 & J3 & J4). apply merge_source_inv in H as (Hne & x & Hx & ->). rewrite issues_set.
  set (c := i_TimesSeen x).
  assert (Hjt : i_MergedInto (merged_row projectID src t c j) = None)
    by (rewrite merged_row_merged, redirect_target; auto).
  assert (Hj : merged_row projectID src t c j ∈ map (merged_row projectID src t c) (issues (db s)))
    by (apply list_elem_of_fmap; eauto).
  destruct (merged_row_keeps projectID src t c j) as (K1 & K2 & _).
  split; [|exists (merged_row projectID src t c j); split_and!; auto; congruence].
  apply wf_map; auto using merged_row_keeps. intros i t' Hi Ht. rewrite merged_row_merged in Ht.
  unfold redirect in Ht. destruct (in_project projectID src i || _) eqn:E.
  - injection Ht as <-. exists j. split_and!; auto. rewrite J3. symmetry.
    apply orb_true_iff in E as [E|E]; apply andb_true_iff in E as [_ E]; apply Z.eqb_eq, E.
  - destruct (wf_hop _ Hwf _ _ Hi Ht) as (k & Hk1 & Hk2 & Hk3 & Hk4). exists k. split_and!; auto.
    rewrite merged_row_merged. unfold redirect. rewrite Hk4. rewrite (bool_decide_false (None = Some src)) by discriminate.
    cbn [andb]. rewrite orb_false_r. destruct (in_project projectID src k) eqn:Ek; [|exact Hk4]. exfalso.
    apply orb_false_iff in E as [_ E]. apply andb_true_iff in Ek as [Ek1%Z.eqb_eq Ek2%Z.eqb_eq].
    rewrite Ht, bool_decide_true, <- Hk3, Ek2, Z.eqb_refl in E by congruence. discriminate.
Qed.

Lemma merge_sources_ok projectID t srcs : forall s s',
  merge_sources projectID t srcs s = (s', inr tt) ->
  wf (issues (db s)) -> target_ok projectID t (issues (db s)) ->
  wf (issues (db s')) /\ target_ok projectID t (issues (db s')).
Proof.
  induction srcs as [|src srcs IH]; intros s s' H Hwf Ht; cbn [merge_sources] in H.
  - injection H as <-. auto.
  - apply bind_inr in H as (s1 & [] & E1 & E2). destruct (merge_source_ok _ _ _ _ _ E1 Hwf Ht) as [W1 T1]. eauto.
Qed.

(** The check at the head of MergeIssues. *)
Lemma merge_tx_inv projectID t srcs s s' u :
  merge_tx projectID t srcs s = (s', inr u) ->
  target_ok projectID t (issues (db s)) /\ exists s1, db s1 = db s /\ merge_sources projectID t srcs s1 = (s', inr tt).
Proof.
  unfold merge_tx. intros H. apply bind_inr in H as (s1 & n & E1 & H).
  pose proof (query_db _ _ _ _ E1) as D1. apply query_ret in E1. destruct (Z.eqb_spec n 0) as [|Hn]; [discriminate|].
  split; [|exists s1; destruct u; auto].
  destruct (List.filter _ (issues (db s))) as [|j l] eqn:El; [cbn in E1; lia|].
  assert (Hj : In j (j :: l)) by (left; reflexivity). rewrite <- El in Hj.
  apply List.filter_In in Hj as [Hj Hp]. apply andb_true_iff in Hp as [Hp Hm].
  apply andb_true_iff in Hp as [H1%Z.eqb_eq H2%Z.eqb_eq].
  exists j. split_and!; auto; [apply list_elem_of_In, Hj|]. destruct (i_MergedInto j); [discriminate|reflexivity].
Qed.

Lemma merge_tx_keeps projectID t srcs : tx_keeps issues_ok (merge_tx projectID t srcs).
Proof.
  intros s s' [] H Hok. apply merge_tx_inv in H as (Ht & s1 & D1 & H). unfold issues_ok in *.
  rewrite <- D1 in Hok, Ht. eapply merge_sources_ok; eauto.
Qed.

(** ** Splitting *)
Lemma split_keeps p : (forall i, p i = true -> i_MergedInto i <> None) ->
  tx_keeps issues_ok (exec (update_issues p (fun i => set_status IssueUnresolved (set_merged None i)))).
Proof.
  intros Hp. apply exec_keeps. intros d d' n H Hok. apply update_issues_eq in H as [-> _].
  unfold issues_ok. rewrite issues_set. apply wf_map; auto.
  intros i t Hi Ht. unfold upd in Ht. destruct (p i) eqn:Ei; [discriminate|].
  destruct (wf_hop _ Hok _ _ Hi Ht) as (k & Hk1 & Hk2 & Hk3 & Hk4). exists k. split_and!; auto.
  unfold upd. destruct (p k) eqn:Ek; [|exact Hk4]. reflexivity.
Qed.

(** ** Every operation *)
Inductive issue_op :=
  | OpUpsert (u : IssueUpsert) | OpStatus (projectID id : Z) (st : string)
  | OpMerge (projectID t : Z) (srcs : list Z) | OpSplit (projectID id : Z).

Definition run_op (o : issue_op) (s : St DB) : St DB :=
  match o with
  | OpUpsert u => fst (UpsertIssue u s)
  | OpStatus p i st => fst (SetIssueStatus p i st s)
  | OpMerge p t l => fst (MergeIssues p t l s)
  | OpSplit p i => fst (SplitIssue p i s)
  end.

Lemma affected_keeps P n : tx_keeps P (affected n).
Proof. unfold affected. destruct (_ =? _); auto with sql. Qed.
#[local] Hint Resolve affected_keeps insert_issue_keeps : sql.

Lemma upsert_keeps u : tx_keeps issues_ok (upsert_tx u).
Proof.
  unfold upsert_tx. apply keeps_bind; [auto with sql|]. intros [i|]; [|auto 6 with sql].
  apply keeps_bind; [destruct (_ =? _); auto with sql|]. intros st.
  apply keeps_bind; [apply update_keeps; auto; reflexivity|]. auto with sql.
Qed.

Lemma run_op_ok o s : issues_ok (db s) -> issues_ok (db (run_op o s)).
Proof.
  intros Hok. destruct o as [u|p i st|p t l|p i]; cbn [run_op].
  - unfold UpsertIssue. destruct (_ || _); [exact Hok|]. apply Write_keeps; [apply upsert_keeps|exact Hok].
  - unfold SetIssueStatus. destruct (negb _); [exact Hok|]. apply Write_keeps; [|exact Hok].
    apply keeps_bind; [apply update_keeps; auto; reflexivity|auto with sql].
  - unfold MergeIssues. apply Write_keeps; [apply merge_tx_keeps|exact Hok].
  - unfold SplitIssue. apply Write_keeps; [|exact Hok]. apply keeps_bind; [|auto with sql]. apply split_keeps.
    intros x Hx. apply andb_true_iff in Hx as [_ Hx]. destruct (i_MergedInto x); discriminate.
Qed.

(** C8: Whatever operations run, with whatever failures of statements,
    commits and contexts: ids and (project, fingerprint) pairs stay unique,
    and a merged issue refers to an unmerged issue of its own project. *)
Theorem merges_stay_one_hop ops d f c :
  issues_ok d -> issues_ok (db (fold_left (fun s o => run_op o s) ops (mkSt d f c))).
Proof.
  intros Hok. assert (H : forall s, issues_ok (db s) -> issues_ok (db (fold_left (fun s o => run_op o s) ops s))).
  { induction ops as [|o ops IH]; intros s Hs; [exact Hs|]. cbn. apply IH, run_op_ok, Hs. }
  apply H. exact Hok.
Qed.

(** ** The visible counts *)
Definition sum (g : Issue -> Z) (l : list Issue) : Z := foldr (fun i n => g i + n) 0 l.

Lemma sum_app g l l' : sum g (l ++ l') = sum g l + sum g l'.
Proof. unfold sum. induction l as [|i l IH]; cbn; lia. Qed.
Lemma sum_map g f l : sum g (map f l) = sum (fun i => g (f i)) l.
Proof. unfold sum. induction l as [|i l IH]; cbn; lia. Qed.
Lemma sum_ext g h l : (forall i, i ∈ l -> g i = h i) -> sum g l = sum h l.
Proof.
  unfold sum. induction l as [|i l IH]; intros H; [reflexivity|]. cbn.
  rewrite (H i) by left. rewrite IH; [reflexivity|]. intros j Hj. apply H. right. exact Hj.
Qed.

(** A change in one row. *)
Lemma sum_change g h l x :
  NoDup (map i_ID l) -> x ∈ l -> (forall i, i ∈ l -> i_ID i <> i_ID x -> h i = g i) ->
  sum h l = sum g l + (h x - g x).
Proof.
  induction l as [|y l IH]; intros Hn Hx Hg; [inversion Hx|]. inversion Hn as [|? ? Hy Hn']; subst.
  change (h y + sum h l = g y + sum g l + (h x - g x)). apply elem_of_cons in Hx as [->|Hx].
  - rewrite (sum_ext h g l); [lia|]. intros i Hi. apply Hg; [right; exact Hi|]. intros E. apply Hy.
    rewrite <- E. apply list_elem_of_fmap. eauto.
  - rewrite IH; auto.
    + rewrite (Hg y); [lia|left|]. intros E. apply Hy. rewrite E. apply list_elem_of_fmap. eauto.
    + intros i Hi. apply Hg. right. exact Hi.
Qed.

(** The events the issue stream of a project shows. *)
Definition shown (p : Z) (i : Issue) : Z :=
  if (i_ProjectID i =? p) && match i_MergedInto i with None => true | Some _ => false end then i_TimesSeen i else 0.
Definition visible (p : Z) (d : DB) : Z := sum (shown p) (issues d).

(** ** UpsertIssue *)

(** A new issue, or one more event in the issue the fingerprint counts into. *)
Inductive upsert_effect (u : IssueUpsert) (d d' : DB) (out : IssueOutcome) : Prop :=
  | upsert_new id :
      List.find (by_key (iu_ProjectID u) (iu_Fingerprint u)) (issues d) = None ->
      id ∉ map i_ID (issues d) ->
      d' = set_issues (issues d ++ [mkIssue id (iu_OrgID u) (iu_ProjectID u) (iu_Fingerprint u) (iu_Basis u)
             (iu_Title u) (iu_Level u) IssueUnresolved (iu_SeenAt u) (iu_SeenAt u) 1 None]) d ->
      out = mkOutcome id true false 1 IssueUnresolved -> upsert_effect u d d' out
  | upsert_seen i j st :
      i ∈ issues d -> i_ProjectID i = iu_ProjectID u -> i_Fingerprint i = iu_Fingerprint u ->
      j ∈ issues d -> i_MergedInto j = None -> i_ProjectID j = iu_ProjectID u ->
      match i_MergedInto i with None => j = i | Some t => i_ID j = t end ->
      st = (if decide (i_Status j = IssueResolved) then IssueRegressed else i_Status j) ->
      d' = set_issues (map (upd (by_id (i_ID j)) (touch (iu_SeenAt u) (iu_Level u) st)) (issues d)) d ->
      out = mkOutcome (i_ID j) false (bool_decide (i_Status j = IssueResolved)) (i_TimesSeen j + 1) st ->
      upsert_effect u d d' out.

Lemma find_by_id l j : NoDup (map i_ID l) -> j ∈ l -> List.find (by_id (i_ID j)) l = Some j.
Proof.
  intros Hn Hj. destruct (List.find (by_id (i_ID j)) l) as [x|] eqn:E.
  - apply find_some_in in E as [Hx E%Z.eqb_eq]. f_equal. eapply by_id_unique; eauto.
  - pose proof (find_none_all _ _ E j Hj) as H. unfold by_id in H. rewrite Z.eqb_refl in H. discriminate.
Qed.

Lemma find_map_id f l j :
  keeps_id f -> NoDup (map i_ID l) -> j ∈ l -> List.find (by_id (i_ID j)) (map f l) = Some (f j).
Proof.
  intros Hf Hn Hj. destruct (Hf j) as (<- & _). apply find_by_id.
  - rewrite map_keeps; [exact Hn|]. intros i. apply Hf.
  - apply list_elem_of_fmap. eauto.
Qed.

Lemma upsert_tx_ok u s s' out :
  issues_ok (db s) -> upsert_tx u s = (s', inr out) -> upsert_effect u (db s) (db s') out.
Proof.
  intros Hok H. unfold upsert_tx in H. apply bind_inr in H as (s1 & r & E1 & H).
  pose proof (query_db _ _ _ _ E1) as D1. apply query_ret in E1. destruct r as [i|].
  - symmetry in E1. apply find_some_in in E1 as [Hi Hp]. apply andb_true_iff in Hp as [Hp%Z.eqb_eq Hf%bool_decide_eq_true].
    cbv zeta in H. apply bind_inr in H as (s2 & st & E2 & H). apply bind_inr in H as (s3 & n & E3 & H).
    apply bind_inr in H as (s4 & seen & E4 & H). injection H as <- <-.
    assert (Hj : exists j, j ∈ issues (db s) /\ i_MergedInto j = None /\ i_ProjectID j = iu_ProjectID u
      /\ match i_MergedInto i with None => j = i | Some t => i_ID j = t end
      /\ (if default 0 (i_MergedInto i) =? 0 then i_ID i else default 0 (i_MergedInto i)) = i_ID j
      /\ db s2 = db s /\ st = i_Status j).
    { destruct (i_MergedInto i) as [t|] eqn:Em; cbn [default id] in *.
      - destruct (wf_hop _ Hok _ _ Hi Em) as (j & J1 & J2 & J3 & J4). exists j.
        pose proof (wf_pos _ Hok) as Hpos. rewrite Forall_forall in Hpos. specialize (Hpos j J1).
        assert (Ht0 : (t =? 0) = false) by (apply Z.eqb_neq; lia). rewrite Ht0 in *. subst t.
        pose proof (query_row_db _ _ _ _ E2) as D2. apply query_row_ret in E2.
        rewrite D1, find_by_id in E2 by (try apply Hok; exact J1). injection E2 as <-.
        split_and!; auto; congruence.
      - exists i. injection E2 as <- <-. split_and!; auto. }
    destruct Hj as (j & J1 & J2 & J3 & J4 & Ht & D2 & ->). rewrite Ht in *.
    apply exec_ret in E3. apply update_issues_eq in E3 as [E3 _].
    pose proof (query_row_db _ _ _ _ E4) as D4. apply query_row_ret in E4.
    set (st := if bool_decide (i_Status j = IssueResolved) then IssueRegressed else i_Status j) in *.
    assert (Hseen : seen = i_TimesSeen j + 1).
    { rewrite E3, issues_set, D2 in E4.
      rewrite (find_map_id (upd (by_id (i_ID j)) (touch (iu_SeenAt u) (iu_Level u) st)) _ j) in E4; auto; [|apply Hok].
      unfold upd, by_id in E4. rewrite Z.eqb_refl in E4. injection E4 as <-. reflexivity. }
    eapply (upsert_seen u (db s) _ _ i j st); auto.
    + unfold st. case_bool_decide; destruct (decide _); congruence.
    + rewrite D4, E3, D2. reflexivity.
    + rewrite Hseen. reflexivity.
  - apply bind_inr in H as (s2 & eid & E2 & H). injection H as <- <-. apply exec_ret in E2. unfold insert_issue in E2.
    rewrite D1 in E2. destruct (negb _ || negb _ || has _ _); [discriminate|]. injection E2 as E2 <-.
    eapply upsert_new; eauto. apply next_id_fresh.
Qed.

Lemma upsert_visible u d d' out p :
  issues_ok d -> upsert_effect u d d' out -> visible p d' = visible p d + (if p =? iu_ProjectID u then 1 else 0).
Proof.
  intros Hok [id Hf Hid -> ->|i j st Hi Hp Hfp Hj Hm Hjp Hij -> -> ->]; unfold visible; rewrite issues_set.
  - rewrite sum_app. unfold sum at 2. cbn. unfold shown. cbn. rewrite Z.eqb_sym, andb_true_r. destruct (_ =? _); lia.
  - rewrite sum_map, (sum_change (shown p) _ _ j); [|apply Hok|exact Hj|].
    + unfold upd, by_id. rewrite Z.eqb_refl. unfold shown, touch. cbn. rewrite Hm, Hjp, Z.eqb_sym, andb_true_r.
      destruct (_ =? _); lia.
    + intros x Hx Hne. unfold upd, by_id. rewrite (proj2 (Z.eqb_neq _ _) Hne). reflexivity.
Qed.

(** C9: UpsertIssue adds an issue, or one event to the one unmerged issue
    its fingerprint counts into, which it reopens as regressed if it was
    resolved; what the project's stream shows grows by exactly one event. A
    failed call changes nothing, unless its context ended while it waited. *)
Theorem upsert_counts_once u s s' r :
  issues_ok (db s) -> UpsertIssue u s = (s', r) ->
  match r with
  | inr out => upsert_effect u (db s) (db s') out
      /\ forall p, visible p (db s') = visible p (db s) + (if p =? iu_ProjectID u then 1 else 0)
  | inl e => db s' = db s \/ e = ErrCtx /\ exists out, upsert_effect u (db s) (db s') out
  end.
Proof.
  intros Hok H. unfold UpsertIssue in H. destruct (_ || _).
  { injection H as <- <-. left. reflexivity. }
  destruct (Write_cases _ _ _ _ H) as [[E [e ->]]|(s1 & s2 & out & E1 & E2 & E3 & Hr)]; [left; exact E|].
  rewrite <- E1 in Hok. apply upsert_tx_ok in E2; [|exact Hok]. rewrite E1, <- E3 in E2. rewrite E1 in Hok.
  destruct Hr as [->| ->]; [|right; eauto]. split; [exact E2|]. intros p. apply (upsert_visible u _ _ out); auto.
Qed.

(** ** MergeIssues *)
Definition unmerged (id : Z) (l : list Issue) : Prop := forall i, i ∈ l -> i_ID i = id -> i_MergedInto i = None.

Lemma merge_source_visible projectID t src s s' q :
  merge_source projectID t src s = (s', inr tt) ->
  wf (issues (db s)) -> target_ok projectID t (issues (db s)) -> unmerged src (issues (db s)) ->
  visible q (db s') = visible q (db s).
Proof.
  intros H Hwf (j & J1 & J2 & J3 & J4) Hu. apply merge_source_inv in H as (Hne & x & Hx & ->).
  unfold visible. rewrite issues_set, sum_map. apply find_some_in in Hx as [Hx Hp].
  pose proof Hp as Hp'. apply andb_true_iff in Hp as [Hxid%Z.eqb_eq Hxp%Z.eqb_eq].
  set (g := shown q). set (h := fun i => g (merged_row projectID src t (i_TimesSeen x) i)).
  set (mid := fun i => if by_id src i then h i else g i).
  rewrite (sum_change mid h _ j), (sum_change g mid _ x); auto; try apply Hwf.
  - assert (Hjx : by_id src j = false) by (apply Z.eqb_neq; congruence).
    assert (Hxx : by_id src x = true) by (apply Z.eqb_eq, Hxid).
    unfold mid. rewrite Hjx, Hxx.
    assert (E1 : h x = 0).
    { unfold h, g, shown. rewrite merged_row_merged. unfold redirect. rewrite Hp'. cbn [orb set_merged i_MergedInto].
      rewrite andb_false_r. reflexivity. }
    assert (E2 : h j = if i_ProjectID j =? q then i_TimesSeen j + i_TimesSeen x else 0).
    { unfold h, merged_row. rewrite redirect_target by auto. unfold upd, by_id. rewrite J2, Z.eqb_refl.
      unfold g, shown. cbn. rewrite J4, andb_true_r. reflexivity. }
    assert (E3 : g x = if projectID =? q then i_TimesSeen x else 0)
      by (unfold g, shown; rewrite (Hu x Hx Hxid), Hxp, andb_true_r; reflexivity).
    assert (E4 : g j = if projectID =? q then i_TimesSeen j else 0)
      by (unfold g, shown; rewrite J4, J3, andb_true_r; reflexivity).
    rewrite E1, E2, E3, E4, J3. destruct (projectID =? q); lia.
  - intros i Hi Hid. unfold mid, by_id. rewrite (proj2 (Z.eqb_neq _ _)) by congruence. reflexivity.
  - intros i Hi Hid. unfold mid. destruct (by_id src i) eqn:Ei; [reflexivity|]. unfold h, g, merged_row, upd, by_id.
    rewrite (proj2 (Z.eqb_neq (i_ID (redirect projectID src t i)) t))
      by (destruct (redirect_keeps projectID src t i) as (-> & _); congruence).
    unfold redirect, in_project. unfold by_id in Ei. rewrite Ei. cbn [andb orb].
    destruct (bool_decide_reflect (i_MergedInto i = Some src)) as [Em|_]; cbn [andb]; [|reflexivity].
    destruct (_ =? projectID); [|reflexivity]. unfold shown, set_merged. cbn. rewrite Em, !andb_false_r. reflexivity.
Qed.

(** What a merge of [srcs] makes of a row's [merged_into]. *)
Definition redirected (projectID t : Z) (srcs : list Z) (i : Issue) : option Z :=
  if (i_ProjectID i =? projectID)
     && (bool_decide (i_ID i ∈ srcs) || match i_MergedInto i with Some m => bool_decide (m ∈ srcs) | None => false end)
  then Some t else i_MergedInto i.

Lemma in_cons_or (x y : Z) l : bool_decide (x ∈ y :: l) = bool_decide (x ∈ [y]) || bool_decide (x ∈ l).
Proof.
  apply eq_true_iff_eq. rewrite orb_true_iff, !bool_decide_eq_true, elem_of_cons, list_elem_of_singleton. reflexivity.
Qed.

(** What it makes of the row: the target has [n] more events. *)
Definition final_row (projectID t : Z) (srcs : list Z) (n : Z) (i : Issue) : Issue :=
  upd (by_id t) (add_times n) (set_merged (redirected projectID t srcs i) i).

(** The sources of a merge with the counts they had. *)
Definition counts_of (projectID : Z) (l : list Issue) : list Z -> list Z -> Prop :=
  Forall2 (fun src c => exists x, x ∈ l /\ i_ID x = src /\ i_ProjectID x = projectID /\ i_TimesSeen x = c).

Lemma redirect_redirected projectID src t i :
  i_MergedInto (redirect projectID src t i) = redirected projectID t [src] i.
Proof.
  unfold redirect, redirected, in_project.
  replace (bool_decide (i_ID i ∈ [src])) with (i_ID i =? src)
    by (apply eq_true_iff_eq; rewrite Z.eqb_eq, bool_decide_eq_true, list_elem_of_singleton; reflexivity).
  assert (E : match i_MergedInto i with Some m => bool_decide (m ∈ [src]) | None => false end
    = bool_decide (i_MergedInto i = Some src)).
  { destruct (i_MergedInto i) as [m|]; [|rewrite bool_decide_false; [reflexivity|discriminate]].
    apply bool_decide_ext. rewrite list_elem_of_singleton. split; congruence. }
  rewrite E. destruct (i_ID i =? src), (i_ProjectID i =? projectID), (bool_decide _); reflexivity.
Qed.

Lemma redirected_cons projectID src t c srcs i :
  redirected projectID t srcs (merged_row projectID src t c i) = redirected projectID t (src :: srcs) i.
Proof.
  destruct (merged_row_keeps projectID src t c i) as (K1 & K2 & _).
  unfold redirected at 1. rewrite K1, K2, merged_row_merged, redirect_redirected. unfold redirected.
  destruct (i_ProjectID i =? projectID); cbn [andb]; [|reflexivity].
  rewrite !(in_cons_or _ src srcs). destruct (bool_decide (i_ID i ∈ [src])); cbn [orb].
  { destruct (bool_decide (i_ID i ∈ srcs) || _); reflexivity. }
  destruct (i_MergedInto i) as [m|]; [|reflexivity]. rewrite (in_cons_or m src srcs).
  destruct (bool_decide (m ∈ [src])); cbn [orb]; [|reflexivity].
  destruct (bool_decide (i_ID i ∈ srcs)), (bool_decide (t ∈ srcs)); reflexivity.
Qed.

Lemma redirected_nil projectID t i : redirected projectID t [] i = i_MergedInto i.
Proof.
  unfold redirected. destruct (i_MergedInto i); rewrite ?bool_decide_false by (intros E; inversion E);
    cbn; rewrite andb_false_r; reflexivity.
Qed.

Lemma final_row_cons projectID src t c srcs n i :
  final_row projectID t srcs n (merged_row projectID src t c i) = final_row projectID t (src :: srcs) (c + n) i.
Proof.
  unfold final_row. rewrite redirected_cons. unfold upd, by_id. cbn [i_ID set_merged].
  destruct (merged_row_keeps projectID src t c i) as (-> & _). unfold merged_row, upd, by_id.
  destruct (redirect_keeps projectID src t i) as (-> & _). unfold redirect.
  destruct (i_ID i =? t), (_ || _); unfold add_times, set_merged; cbn; f_equal; lia.
Qed.

Lemma final_row_nil projectID t i : final_row projectID t [] 0 i = i.
Proof.
  unfold final_row. rewrite redirected_nil. unfold upd. destruct i; destruct (by_id _ _); cbn; [|reflexivity].
  unfold add_times, set_merged. cbn. rewrite Z.add_0_r. reflexivity.
Qed.

(** A row other than the target keeps its count. *)
Lemma merged_row_times projectID src t c i : i_ID i <> t -> i_TimesSeen (merged_row projectID src t c i) = i_TimesSeen i.
Proof.
  intros H. unfold merged_row, upd, by_id. destruct (redirect_keeps projectID src t i) as (-> & _).
  rewrite (proj2 (Z.eqb_neq _ _) H). unfold redirect. destruct (_ || _); reflexivity.
Qed.

Lemma Forall2_impl_in {A B} (P Q : A -> B -> Prop) l k :
  Forall2 P l k -> (forall x y, x ∈ l -> P x y -> Q x y) -> Forall2 Q l k.
Proof. induction 1 as [|x y l k H _ IH]; intros HQ; constructor; [|apply IH; intros]; apply HQ; auto; set_solver. Qed.

(** The sources may repeat and may be merged already. *)
Lemma merge_sources_effect projectID t srcs : forall s s',
  merge_sources projectID t srcs s = (s', inr tt) ->
  t ∉ srcs /\ exists counts, counts_of projectID (issues (db s)) srcs counts
    /\ db s' = set_issues (map (final_row projectID t srcs (foldr Z.add 0 counts)) (issues (db s))) (db s).
Proof.
  induction srcs as [|src srcs IH]; intros s s' H; cbn [merge_sources] in H.
  - injection H as <-. split; [apply not_elem_of_nil|]. exists []. split; [constructor|]. cbn [foldr].
    rewrite (map_ext _ _ (final_row_nil projectID t)), map_id. destruct (db s); reflexivity.
  - apply bind_inr in H as (s1 & [] & E1 & E2). apply merge_source_inv in E1 as (Hne & x & Hx & D1).
    destruct (IH s1 s' E2) as (Ht & counts & Hc & D2). rewrite D1, issues_set in Hc.
    apply find_some_in in Hx as [Hx Hp]. apply andb_true_iff in Hp as [Hxid%Z.eqb_eq Hxp%Z.eqb_eq].
    split; [rewrite elem_of_cons; intros [->|?]; contradiction|]. exists (i_TimesSeen x :: counts). split.
    + constructor; [eauto|]. apply (Forall2_impl_in _ _ _ _ Hc).
      intros src' c Hs (y' & Hy & Y1 & Y2 & Y3). apply list_elem_of_fmap in Hy as (y & -> & Hy).
      destruct (merged_row_keeps projectID src t (i_TimesSeen x) y) as (K1 & K2 & _). rewrite K1 in Y1.
      exists y. split_and!; [exact Hy|exact Y1|congruence|].
      rewrite <- Y3. symmetry. apply merged_row_times. rewrite Y1. intros ->. contradiction.
    + rewrite D2, D1, issues_set, set_issues_twice, map_map. f_equal. apply map_ext. intros i. apply final_row_cons.
Qed.

Lemma merge_sources_visible projectID t srcs : forall s s',
  merge_sources projectID t srcs s = (s', inr tt) ->
  wf (issues (db s)) -> target_ok projectID t (issues (db s)) ->
  NoDup srcs -> (forall src, src ∈ srcs -> unmerged src (issues (db s))) ->
  forall q, visible q (db s') = visible q (db s).
Proof.
  induction srcs as [|src srcs IH]; intros s s' H Hwf Ht Hn Hu q; cbn [merge_sources] in H.
  { injection H as <-. reflexivity. }
  apply bind_inr in H as (s1 & [] & E1 & E2). inversion Hn as [|? ? Hsrc Hn']; subst.
  destruct (merge_source_ok _ _ _ _ _ E1 Hwf Ht) as [W1 T1].
  rewrite <- (merge_source_visible _ _ _ _ _ q E1 Hwf Ht); [|apply Hu; left].
  apply (IH s1 s' E2 W1 T1 Hn'). apply merge_source_inv in E1 as (Hne & x & Hx & D1).
  intros z Hz i Hi Hid. rewrite D1, issues_set in Hi. apply list_elem_of_fmap in Hi as (y & -> & Hy).
  destruct (merged_row_keeps projectID src t (i_TimesSeen x) y) as (K1 & K2 & _). rewrite K1 in Hid.
  pose proof (Hu z ltac:(right; exact Hz) y Hy Hid) as Hym. rewrite merged_row_merged. unfold redirect, in_project.
  rewrite Hym, (bool_decide_false (None = Some src)) by discriminate.
  assert (Hz' : z <> src) by (intros ->; contradiction). rewrite Hid, (proj2 (Z.eqb_neq _ _) Hz'). exact Hym.
Qed.

(** C10: MergeIssues adds to the target the events counted by each listed
    source, as often as the source is listed and also if it was merged before;
    the sources, and all issues that were merged into one of them, count into
    the target from then on; nothing else in the database changes. If it
    fails, nothing changes at all, unless only the caller's context ended
    after the transaction had been committed. If the sources are distinct and
    unmerged, the streams show as many events as before in every project. *)
Theorem merge_counts_into_target projectID t srcs s s' r :
  issues_ok (db s) -> MergeIssues projectID t srcs s = (s', r) ->
  match r with inl e => db s' = db s \/ e = ErrCtx | inr _ => True end
  /\ (db s' = db s /\ (exists e, r = inl e)
     \/ target_ok projectID t (issues (db s)) /\ t ∉ srcs
        /\ (exists counts, counts_of projectID (issues (db s)) srcs counts
              /\ db s' = set_issues (map (final_row projectID t srcs (foldr Z.add 0 counts)) (issues (db s))) (db s))
        /\ (NoDup srcs -> (forall src, src ∈ srcs -> unmerged src (issues (db s))) ->
             forall q, visible q (db s') = visible q (db s))).
Proof.
  intros Hok H. unfold MergeIssues in H.
  destruct (Write_cases _ _ _ _ H) as [[E [e ->]]|(s1 & s2 & u & E1 & E2 & E3 & Hr)]; [split; eauto|].
  split; [destruct Hr as [->| ->]; auto|right].
  apply merge_tx_inv in E2 as (Ht & s3 & D3 & E2). rewrite E1 in D3, Ht.
  destruct (merge_sources_effect _ _ _ _ _ E2) as (Hin & M). rewrite <- E3, D3 in M. split_and!; auto.
  intros Hn Hu q. rewrite E3, <- D3. apply (merge_sources_visible _ _ _ _ _ E2); rewrite ?D3; assumption.
Qed.

(** ** The search filter *)
Lemma replace_char_app c b s t : replace_char c b (s +:+ t) = replace_char c b s +:+ replace_char c b t.
Proof.
  induction s as [|d s IH]; [reflexivity|].
  change (replace_char c b (String d (s +:+ t)) = replace_char c b (String d s) +:+ replace_char c b t).
  cbn [replace_char]. rewrite IH, app_str_assoc. reflexivity.
Qed.

Definition special (c : ascii) : bool :=
  bool_decide (c = "\"%char) || bool_decide (c = "%"%char) || bool_decide (c = "_"%char).
Definition esc (c : ascii) : string := if special c then String "\" (String c "") else String c "".

Lemma escapeLike_app s t : escapeLike (s +:+ t) = escapeLike s +:+ escapeLike t.
Proof. unfold escapeLike. cbv zeta. rewrite !replace_char_app. reflexivity. Qed.

Lemma escapeLike_char c : escapeLike (String c "") = esc c.
Proof.
  unfold escapeLike, esc, special. cbv zeta. cbn [replace_char].
  destruct (bool_decide_reflect (c = "\"%char)) as [->|H1]; [reflexivity|]. change (String c EmptyString +:+ EmptyString) with (String c EmptyString).
  cbn [replace_char orb]. destruct (bool_decide_reflect (c = "%"%char)) as [->|H2]; [reflexivity|]. change (String c EmptyString +:+ EmptyString) with (String c EmptyString).
  cbn [replace_char orb]. destruct (bool_decide_reflect (c = "_"%char)) as [->|H3]; reflexivity.
Qed.

Lemma escapeLike_cons c s : escapeLike (String c s) = esc c +:+ escapeLike s.
Proof. rewrite <- escapeLike_char, <- escapeLike_app. reflexivity. Qed.

Lemma like_esc c p s :
  like (esc c +:+ p) s = match s with String d s => same_letter c d && like p s | ""%string => false end.
Proof.
  unfold esc. destruct (special c) eqn:E.
  - change ((String "\" (String c "")) +:+ p) with (String "\" (String c p)). destruct s; reflexivity.
  - apply orb_false_iff in E as [E E3]. apply orb_false_iff in E as [E1 E2].
    change (String c "" +:+ p) with (String c p). cbn [like]. rewrite E1, E2, E3. reflexivity.
Qed.

Lemma like_any p s : like (String "%" p) s = true <-> exists a b, s = a +:+ b /\ like p b = true.
Proof.
  cbn [like]. change (bool_decide ("%"%char = "\"%char)) with false. change (bool_decide ("%"%char = "%"%char)) with true.
  cbv iota. split.
  - induction s as [|d s IH]; intros H; apply orb_true_iff in H as [H|H].
    + exists ""%string, ""%string. auto.
    + discriminate.
    + exists ""%string, (String d s). auto.
    + destruct (IH H) as (a & b & -> & Hb). exists (String d a), b. auto.
  - intros (a & b & -> & Hb). induction a as [|d a IH].
    + change (""%string +:+ b) with b. destruct b; apply orb_true_iff; left; exact Hb.
    + apply orb_true_iff. right. exact IH.
Qed.

(** [title] contains [text], letters compared without ASCII case. *)
Definition contains_text (title text : string) : Prop :=
  exists a m b, title = a +:+ m +:+ b /\ map_str to_lower_ascii m = map_str to_lower_ascii text.

Lemma like_prefix t s :
  like (escapeLike t +:+ "%") s = true <->
  exists m b, s = m +:+ b /\ map_str to_lower_ascii m = map_str to_lower_ascii t.
Proof.
  revert s. induction t as [|c t IH]; intros s.
  - change (escapeLike "" +:+ "%") with "%"%string. rewrite like_any. split.
    + intros (a & b & -> & Hb). exists ""%string, (a +:+ b). auto.
    + intros (m & b & -> & Hm). destruct m; [|discriminate]. exists b, ""%string. split; [|reflexivity].
      change (b = b +:+ ""). clear. induction b as [|x b IH]; [reflexivity|].
      change (String x b = String x (b +:+ "")). congruence.
  - rewrite escapeLike_cons, app_str_assoc, like_esc. destruct s as [|d s].
    + split; [discriminate|]. intros (m & b & E & Hm). destruct m; [discriminate Hm|discriminate E].
    + rewrite andb_true_iff, IH. unfold same_letter. rewrite bool_decide_eq_true. split.
      * intros (Hc & m & b & -> & Hm). exists (String d m), b. split; [reflexivity|]. cbn. congruence.
      * intros (m & b & E & Hm). destruct m as [|x m]; [discriminate Hm|]. cbn in Hm. injection Hm as H1 H2.
        injection E as <- ->. split; [congruence|]. eauto.
Qed.

Lemma like_contains title text :
  like ("%" +:+ escapeLike text +:+ "%") title = true <-> contains_text title text.
Proof.
  change ("%" +:+ escapeLike text +:+ "%") with (String "%" (escapeLike text +:+ "%")). rewrite like_any.
  unfold contains_text. split.
  - intros (a & b & -> & Hb). apply like_prefix in Hb as (m & c & -> & Hm). eauto.
  - intros (a & m & c & -> & Hm). exists a, (m +:+ c). split; [reflexivity|]. apply like_prefix. eauto.
Qed.

(** What the filter asks of a row. *)
Definition selects (projectID : Z) (f : IssueFilter) (i : Issue) : Prop :=
  i_ProjectID i = projectID /\ i_MergedInto i = None
  /\ (f_Status f <> ""%string -> i_Status i = f_Status f)
  /\ (f_Level f <> ""%string -> i_Level i = f_Level f)
  /\ (f_TitleLike f <> ""%string -> contains_text (i_Title i) (f_TitleLike f))
  /\ (f_Fingerprint f <> ""%string -> i_Fingerprint i = f_Fingerprint f)
  /\ (forall fps, f_Fingerprints f = Some fps -> i_Fingerprint i ∈ take 500 fps).

Lemma opt_filter (a : string) (P : Prop) b :
  (b = true <-> P) -> (bool_decide (a = ""%string) || b = true <-> (a <> ""%string -> P)).
Proof.
  intros H. rewrite orb_true_iff, H. destruct (bool_decide_reflect (a = ""%string)); split; intros; auto.
  - contradiction.
  - destruct H0; [discriminate|assumption].
Qed.

Lemma filter_row_selects p f i : f_Fingerprints f <> Some [] -> filter_row p f i = true <-> selects p f i.
Proof.
  intros Hf. unfold filter_row, selects. rewrite !andb_true_iff, Z.eqb_eq.
  rewrite !(opt_filter _ _ _ (bool_decide_eq_true _)), (opt_filter _ _ _ (like_contains _ _)).
  assert (Hm : match i_MergedInto i with None => true | Some _ => false end = true <-> i_MergedInto i = None)
    by (destruct (i_MergedInto i); split; congruence).
  assert (Hfp : match f_Fingerprints f with
                | Some ((_ :: _) as fps) => bool_decide (i_Fingerprint i ∈ take 500 fps) | _ => true end = true
    <-> (forall fps, f_Fingerprints f = Some fps -> i_Fingerprint i ∈ take 500 fps)).
  { destruct (f_Fingerprints f) as [[|x l]|]; [congruence| |].
    - rewrite bool_decide_eq_true. split; [intros H fps [= <-]; exact H|auto].
    - split; [discriminate|auto]. }
  rewrite Hm, Hfp. tauto.
Qed.

Lemma sorted_impl {A} (R S : relation A) l : (forall x y, R x y -> S x y) -> StronglySorted R l -> StronglySorted S l.
Proof. intros H. induction 1 as [|x l _ IH Hx]; constructor; auto. eapply Forall_impl; eauto. Qed.

Lemma NoDup_ids_rows l : NoDup (map i_ID l) -> NoDup l.
Proof. apply NoDup_fmap_1. Qed.

(** C30: The issue stream is the newest rows among those of the project that
    are not merged and match the filter, at most 500; the title matches when
    it contains the searched text without regard to ASCII case, percent signs,
    underscores and backslashes of the text being plain characters. *)
Theorem listing_is_newest_matching `{!SliceSort (key_le newest_first)} p f limit s s' r :
  issues_ok (db s) -> ListIssuesFiltered p f limit s = (s', inr r) ->
  db s' = db s /\ exists l,
    (forall i, i ∈ l <-> i ∈ issues (db s) /\ selects p f i) /\ NoDup l
    /\ StronglySorted (fun i j => i_LastSeen j <= i_LastSeen i) l
    /\ r = take (Z.to_nat (list_limit limit)) l /\ 0 < list_limit limit <= 500.
Proof.
  intros Hok H. unfold ListIssuesFiltered in H.
  assert (Hl : 0 < list_limit limit <= 500)
    by (unfold list_limit; destruct (Z.leb_spec limit 0), (Z.ltb_spec 500 limit); cbn; lia).
  destruct (decide (f_Fingerprints f = Some [])) as [E|E].
  - rewrite E in H. injection H as <- <-. split; [reflexivity|]. exists [].
    split_and!; [|apply NoDup_nil_2|constructor|rewrite take_nil; reflexivity|apply Hl..].
    intros i. split; [intros Hi; inversion Hi|]. intros (_ & _ & _ & _ & _ & _ & _ & Hfp).
    specialize (Hfp [] E). inversion Hfp.
  - assert (Hq : query (fun d => limit_rows (list_limit limit)
           (sort_slice (key_le newest_first) (List.filter (filter_row p f) (issues d)))) s = (s', inr r))
      by (destruct (f_Fingerprints f) as [[|]|]; [congruence|exact H..]).
    rewrite (query_ret _ _ _ _ Hq). split; [exact (query_db _ _ _ _ Hq)|].
    exists (sort_slice (key_le newest_first) (List.filter (filter_row p f) (issues (db s)))).
    pose proof (sort_slice_perm (le := key_le newest_first) (List.filter (filter_row p f) (issues (db s)))) as Hp.
    split_and!; [| | |reflexivity|apply Hl..].
    + intros i. rewrite Hp, list_elem_of_In, List.filter_In, <- list_elem_of_In, filter_row_selects by exact E. reflexivity.
    + rewrite Hp. apply NoDup_ListNoDup, List.NoDup_filter, NoDup_ListNoDup, NoDup_ids_rows, Hok.
    + eapply sorted_impl; [|apply sort_slice_sorted]. intros x y. unfold key_le, newest_first. lia.
Qed.

(** ** Concrete tables: the third issue is merged into the second *)
Definition ex_issue (id : Z) (fp title st : string) (seen n : Z) (m : option Z) : Issue :=
  mkIssue id 1 1 fp "stacktrace" title "error" st 100 seen n m.
Definition ex_issues : list Issue :=
  [ex_issue 1 "fa" "disk 50% full" IssueUnresolved 300 4 None; ex_issue 2 "fb" "Disk 500 full" IssueResolved 200 3 None;
   ex_issue 3 "fc" "timeout" IssueUnresolved 250 2 (Some 2)].
Definition ex_db : DB := set_issues ex_issues (set_projects [mkProject 1 1 "p" "P" ""] (set_orgs [mkOrg 1 "o" "O"] empty)).
Definition ex_st : St DB := mkSt ex_db [] [].
Definition ex_hit : IssueUpsert := mkUpsert 1 1 "fc" "stacktrace" "timeout" "fatal" 400.

Lemma ex_ok : issues_ok ex_db.
Proof.
  constructor.
  - repeat constructor; set_solver.
  - repeat constructor; cbn; rewrite ?not_elem_of_cons; split_and?; try discriminate; apply not_elem_of_nil.
  - repeat constructor.
  - intros i t Hi Ht. cbn in Hi. unfold ex_issues in Hi. rewrite !elem_of_cons in Hi.
    destruct Hi as [->|[->|[->|Hi]]]; try discriminate Ht; [|inversion Hi]. injection Ht as <-.
    eexists. split; [right; left|]. split_and!; reflexivity.
Qed.

Lemma merges_stay_one_hop_witness :
  issues_ok (db (fold_left (fun s o => run_op o s)
    [OpMerge 1 1 [2]; OpUpsert ex_hit; OpSplit 1 3; OpStatus 1 3 IssueResolved] ex_st)).
Proof. apply (merges_stay_one_hop _ ex_db [] []). exact ex_ok. Defined.

(** The event of the merged fingerprint counts into issue 2 and reopens it. *)
Lemma upsert_counts_once_witness :
  io_ID (mkOutcome 2 false true 4 IssueRegressed) = 2 /\
  upsert_effect ex_hit (db ex_st) (db (fst (UpsertIssue ex_hit ex_st))) (mkOutcome 2 false true 4 IssueRegressed)
  /\ forall p, visible p (db (fst (UpsertIssue ex_hit ex_st))) = visible p (db ex_st) + (if p =? 1 then 1 else 0).
Proof.
  split; [reflexivity|].
  apply (upsert_counts_once ex_hit ex_st (fst (UpsertIssue ex_hit ex_st)) (inr (mkOutcome 2 false true 4 IssueRegressed)));
    [exact ex_ok|vm_compute; reflexivity].
Defined.

(** The source is listed twice and counts twice; the issue merged into it
    follows it. *)
Lemma merge_counts_into_target_witness :
  let s' := fst (MergeIssues 1 1 [2; 2] ex_st) in
  map i_TimesSeen (issues (db s')) = [10; 3; 2] /\ map i_MergedInto (issues (db s')) = [None; Some 1; Some 1]
  /\ exists counts, counts_of 1 (issues (db ex_st)) [2; 2] counts
       /\ db s' = set_issues (map (final_row 1 1 [2; 2] (foldr Z.add 0 counts)) (issues (db ex_st))) (db ex_st).
Proof.
  split; [vm_compute; reflexivity|]. split; [vm_compute; reflexivity|].
  destruct (merge_counts_into_target 1 1 [2; 2] ex_st (fst (MergeIssues 1 1 [2; 2] ex_st)) (inr tt))
    as [_ [[_ [e He]]|(_ & _ & H & _)]]; [exact ex_ok|vm_compute; reflexivity|discriminate He|exact H].
Defined.

(** Both the percent sign and the letter case of the title matter as they
    should: "DISK 50%" finds the first issue only. *)
Lemma listing_is_newest_matching_witness :
  let f := mkFilter "" "" "DISK 50%" "" None in
  ListIssuesFiltered 1 f 10 ex_st = (ex_st, inr [ex_issue 1 "fa" "disk 50% full" IssueUnresolved 300 4 None]) /\
  db ex_st = db ex_st /\ exists l,
    (forall i, i ∈ l <-> i ∈ issues (db ex_st) /\ selects 1 f i) /\ NoDup l
    /\ StronglySorted (fun i j => i_LastSeen j <= i_LastSeen i) l
    /\ [ex_issue 1 "fa" "disk 50% full" IssueUnresolved 300 4 None] = take (Z.to_nat (list_limit 10)) l
    /\ 0 < list_limit 10 <= 500.
Proof.
  intros f. assert (E : ListIssuesFiltered 1 f 10 ex_st
    = (ex_st, inr [ex_issue 1 "fa" "disk 50% full" IssueUnresolved 300 4 None])) by (vm_compute; reflexivity).
  split; [exact E|]. apply (listing_is_newest_matching 1 f 10 ex_st ex_st); [exact ex_ok|exact E].
Defined.

(** Merging a source again counts its events again. *)
Lemma remerge_counts_twice :
  let s1 := fst (MergeIssues 1 1 [2] ex_st) in
  let '(s2, r) := MergeIssues 1 1 [2] s1 in
  r = inr tt /\ (visible 1 (db ex_st), visible 1 (db s1), visible 1 (db s2)) = (7, 7, 10).
Proof. vm_compute. split; reflexivity. Qed.

End IssuesProps.
