(* ===== verification/MetaAuth.v ===== *)
(** * Users, sessions, API tokens and the audit log
    (internal/metadata/auth.go) *)
From S2P Require Import Prelude GoSort GoStrings GoUtf8 Grouping Monad Sql MetaDb.
Import Sql Meta.
#[local] Open Scope string_scope.
#[local] Open Scope list_scope.
#[local] Open Scope Z_scope.
#[local] Open Scope leser_scope.

Module MetaAuth.

Notation T := (Tx DB).

Section Lower.
Context (lower_rune : Z -> Z).

(** Addresses are compared trimmed and in lower case. *)
Definition normal_email (email : string) : string := Grouping.ToLower lower_rune (TrimSpace email).

Definition insert_user (orgID : Z) (email passwordHash role : string) (d : DB) : option (DB * Z) :=
  let id := next_id u_ID (users d) in
  if negb (org_exists orgID d) || has (fun u => bool_decide (u_Email u = email)) (users d) then None
  else Some (set_users (users d ++ [mkUser id orgID email passwordHash role]) d, id).

Definition CreateUser (orgID : Z) (email passwordHash role : string) : T Z :=
  let email := normal_email email in
  if bool_decide (email = "") || bool_decide (passwordHash = "") then throw ErrInvalid
  else Write (exec (insert_user orgID email passwordHash role)).

Definition UserByEmail (email : string) : T User :=
  or_not_found (query_row (fun d => List.find (fun u => bool_decide (u_Email u = normal_email email)) (users d))).
End Lower.

Definition UserByID (id : Z) : T User :=
  or_not_found (query_row (fun d => List.find (fun u => u_ID u =? id) (users d))).

Definition CountUsers : T Z := query (fun d => Z.of_nat (length (users d))).

(** ** Sessions *)
Definition insert_session (id : string) (userID expires : Z) (d : DB) : option (DB * unit) :=
  if negb (user_exists userID d) || has (fun s => bool_decide (s_ID s = id)) (sessions d) then None
  else Some (set_sessions (sessions d ++ [mkSession id userID expires false]) d, tt).

Definition CreateSession (id : string) (userID ttl now : Z) : T unit :=
  Write (exec (insert_session id userID (i64 (now + ttl)))).

(** The row of a join with users: a foreign key holds, so there is a user. *)
Definition user_of (d : DB) (id : Z) : option User := List.find (fun u => u_ID u =? id) (users d).

Definition live_session (now : Z) (id : string) (s : Session) : bool :=
  bool_decide (s_ID s = id) && negb (s_Revoked s) && (now <? s_ExpiresAt s).

Definition SessionUser (id : string) (now : Z) : T User :=
  or_not_found (query_row (fun d =>
    match List.find (live_session now id) (sessions d) with
    | Some s => user_of d (s_UserID s)
    | None => None
    end)).

Definition revoke_session (s : Session) : Session := mkSession (s_ID s) (s_UserID s) (s_ExpiresAt s) true.
Definition update_sessions (p : Session -> bool) (d : DB) : option (DB * unit) :=
  Some (set_sessions (fst (update_where p revoke_session (sessions d))) d, tt).

Definition RevokeSession (id : string) : T unit :=
  Write (exec (update_sessions (fun s => bool_decide (s_ID s = id)))).
Definition RevokeUserSessions (userID : Z) : T unit :=
  Write (exec (update_sessions (fun s => s_UserID s =? userID))).

(** ** API tokens *)
Record APIToken := mkAPIToken {
  at_ID : Z; at_OrgID : Z; at_UserID : Z; at_Name : string; at_Permissions : list string; at_ExpiresAt : Z }.

Definition insert_token (t : APIToken) (hash : string) (d : DB) : option (DB * Z) :=
  let id := next_id t_ID (tokens d) in
  if negb (org_exists (at_OrgID t) d) || negb (user_exists (at_UserID t) d)
     || has (fun r => bool_decide (t_Hash r = hash)) (tokens d) then None
  else Some (set_tokens (tokens d ++ [mkToken id (at_OrgID t) (at_UserID t) (at_Name t) hash
               (String.concat "," (at_Permissions t)) (at_ExpiresAt t) false]) d, id).

Definition CreateToken (t : APIToken) (tokenHash : string) : T Z := Write (exec (insert_token t tokenHash)).

Definition live_token (now : Z) (hash : string) (r : TokenRow) : bool :=
  bool_decide (t_Hash r = hash) && negb (t_Revoked r) && ((t_ExpiresAt r =? 0) || (now <? t_ExpiresAt r)).

(** The permission list as it is read back: an empty text is nil. *)
Definition parse_permissions (perms : string) : list string :=
  if bool_decide (perms = "") then [] else split_char "," perms.

Definition TokenByHash (hash : string) (now : Z) : T (APIToken * User) :=
  or_not_found (query_row (fun d =>
    match List.find (live_token now hash) (tokens d) with
    | Some r =>
        u ← user_of d (t_UserID r);
        Some (mkAPIToken (t_ID r) (t_OrgID r) (t_UserID r) (t_Name r) (parse_permissions (t_Permissions r))
                (t_ExpiresAt r), u)
    | None => None
    end)).

Definition revoke_token (r : TokenRow) : TokenRow :=
  mkToken (t_ID r) (t_OrgID r) (t_UserID r) (t_Name r) (t_Hash r) (t_Permissions r) (t_ExpiresAt r) true.

Definition RevokeToken (orgID tokenID : Z) : T unit :=
  Write (
    let! n := exec (fun d =>
      let '(l, n) := update_where (fun r => (t_ID r =? tokenID) && (t_OrgID r =? orgID)) revoke_token (tokens d) in
      Some (set_tokens l d, n)) in
    if n =? 0 then throw ErrNotFound else ret tt).

(** ** The audit log *)
Definition Audit (e : AuditEntry) (now : Z) : T unit :=
  let e := if a_At e =? 0
           then mkAudit (a_OrgID e) (a_ActorID e) (a_Action e) (a_Target e) (a_Detail e) (a_IP e) (a_UserAgent e) now
           else e in
  Write (exec (fun d => Some (set_audit (Meta.audit_log d ++ [e]) d, tt))).

Definition newest_entry : AuditEntry -> Z := fun e => - a_At e.

Definition AuditList `{!SliceSort (key_le newest_entry)} (orgID limit : Z) : T (list AuditEntry) :=
  let limit := if (limit <=? 0) || (1000 <? limit) then 200 else limit in
  query (fun d => limit_rows limit
    (sort_slice (key_le newest_entry) (List.filter (fun e => a_OrgID e =? orgID) (Meta.audit_log d)))).

Definition ProjectInOrg (orgID projectID : Z) : Tx DB bool := fun s =>
  let '(s, r) := query (fun d =>
    existsb (fun p => (p_ID p =? projectID) && (p_OrgID p =? orgID)) (projects d)) s in
  (s, inr match r with inr b => b | inl _ => false end).

End MetaAuth.
