(* ===== verification/Alerts.v ===== *)
(** * The alert engine (internal/alerts/alerts.go) and its rules in the
    metadata store (internal/metadata/alerts.go)

    Evaluate enqueues notifications; each worker of Run takes them from the
    queue and delivers them. A worker's position in deliver is a [wstate],
    and its steps between two locks are the atomic steps of the system, so
    workers and evaluations interleave in every way. The logs of [Sys] only
    record what happened. *)
From S2P Require Import Prelude GoSort GoFloat GoStrings RateLimit Monad Sql MetaDb.
Import Meta.
From stdpp Require Import pretty.
#[local] Open Scope string_scope.
#[local] Open Scope list_scope.
#[local] Open Scope Z_scope.
#[local] Open Scope leser_scope.

Module Alerts.

Definition CondNewIssue : string := "new_issue".
Definition CondRegression : string := "regression".
Definition CondFrequency : string := "frequency".

(** The fields of a Rule are the columns of its row. *)
Definition Rule : Type := AlertRow.

Record IssueActivity := mkActivity {
  ac_OrgID : Z; ac_ProjectID : Z; ac_IssueID : Z; ac_Title : string; ac_Level : string; ac_Status : string;
  ac_TimesSeen : Z; ac_IsNew : bool; ac_Regressed : bool }.

Record Options := mkOptions {
  Workers : Z; QueueDepth : Z; Cooldown : Z; MaxAttempts : Z; BreakerFails : Z; BreakerReset : Z;
  HTTPTimeout : Z }.

Definition positive_or (v d : Z) : Z := if v <=? 0 then d else v.
Definition Second : Z := 1000000000.
Definition defaults (o : Options) : Options :=
  {| Workers := positive_or (Workers o) 4; QueueDepth := positive_or (QueueDepth o) 1024;
     Cooldown := positive_or (Cooldown o) (5 * 60 * Second); MaxAttempts := positive_or (MaxAttempts o) 5;
     BreakerFails := positive_or (BreakerFails o) 5; BreakerReset := positive_or (BreakerReset o) (60 * Second);
     HTTPTimeout := positive_or (HTTPTimeout o) (10 * Second) |}.

Record notification := mkNotification { n_rule : Rule; n_act : IssueActivity }.

Inductive delivery_error := BreakerOpen | PostFailed.
Record DeadLetter := mkDead {
  dl_Rule : Rule; dl_Activity : IssueActivity; dl_Error : delivery_error; dl_At : Z }.

(** [openUntil = None] is the zero time. *)
Record breakerState := mkBreaker { fails : Z; openUntil : option Z }.

Record Engine := mkEngine {
  opts : Options; queue : list notification; cooldown : gmap string Z;
  breaker : gmap string breakerState; dead : list DeadLetter; Delivered : Z; Dropped : Z }.

Definition New (o : Options) : Engine := mkEngine (defaults o) [] ∅ ∅ [] 0 0.

Definition set_queue q e := mkEngine (opts e) q (cooldown e) (breaker e) (dead e) (Delivered e) (Dropped e).
Definition set_cooldown c e := mkEngine (opts e) (queue e) c (breaker e) (dead e) (Delivered e) (Dropped e).
Definition set_breaker b e := mkEngine (opts e) (queue e) (cooldown e) b (dead e) (Delivered e) (Dropped e).
Definition set_dead d e := mkEngine (opts e) (queue e) (cooldown e) (breaker e) d (Delivered e) (Dropped e).
Definition add_delivered e := mkEngine (opts e) (queue e) (cooldown e) (breaker e) (dead e) (u64 (Delivered e + 1)) (Dropped e).
Definition add_dropped e := mkEngine (opts e) (queue e) (cooldown e) (breaker e) (dead e) (Delivered e) (u64 (Dropped e + 1)).

(** ** Evaluate *)
Definition matches (r : Rule) (a : IssueActivity) : bool :=
  let c := r_Condition r in
  if bool_decide (c = CondNewIssue) then ac_IsNew a
  else if bool_decide (c = CondRegression) then ac_Regressed a
  else if bool_decide (c = CondFrequency)
  then (0 <? r_Threshold r) && (ac_TimesSeen a =? r_Threshold r)
  else false.

Definition cooldown_key (ruleID issueID : Z) : string := pretty ruleID +:+ ":" +:+ pretty issueID.

Definition cooldownOK (ruleID issueID now : Z) (e : Engine) : Engine * bool :=
  let key := cooldown_key ruleID issueID in
  let blocked := match cooldown e !! key with
                 | Some last => RateLimit.time_sub now last <? Cooldown (opts e)
                 | None => false
                 end in
  if blocked then (e, false)
  else
    let c := if 100000 <? Z.of_nat (size (cooldown e))
             then filter (fun kv => RateLimit.time_sub now (snd kv) <= Cooldown (opts e)) (cooldown e)
             else cooldown e in
    (set_cooldown (<[key := now]> c) e, true).

(** The send on the bounded channel; [false] when it is full. *)
Definition enqueue (n : notification) (e : Engine) : Engine * bool :=
  if Z.of_nat (length (queue e)) <? QueueDepth (opts e)
  then (set_queue (queue e ++ [n]) e, true)
  else (add_dropped e, false).

(** One rule of Evaluate: what becomes of the notification. *)
Inductive verdict := NoMatch | CoolingDown | Enqueued | QueueFull.

Definition evaluate_rule (r : Rule) (a : IssueActivity) (now : Z) (e : Engine) : Engine * verdict :=
  if negb (matches r a) then (e, NoMatch)
  else
    let '(e, ok) := cooldownOK (r_ID r) (ac_IssueID a) now e in
    if negb ok then (e, CoolingDown)
    else
      let '(e, sent) := enqueue (mkNotification r a) e in (e, if sent then Enqueued else QueueFull).

(** ** The breaker *)
Definition breakerAllow (url : string) (now : Z) (e : Engine) : bool :=
  match breaker e !! url with
  | None => true
  | Some b => match openUntil b with None => true | Some t => t <? now end
  end.

Definition breakerRecord (url : string) (ok : bool) (now : Z) (e : Engine) : Engine :=
  let b := default (mkBreaker 0 None) (breaker e !! url) in
  let b :=
    if ok then mkBreaker 0 None
    else
      let f := fails b + 1 in
      if BreakerFails (opts e) <=? f then mkBreaker 0 (Some (now + BreakerReset (opts e)))
      else mkBreaker f (openUntil b) in
  set_breaker (<[url := b]> (breaker e)) e.

(** post: [None] is a request that got no response. *)
Definition post_ok (status : option Z) : bool :=
  match status with Some st => st <? 300 | None => false end.

(** Full jitter: [rand] in [0, 1) times 250ms doubled per attempt. *)
Definition backoff (convert_out_of_range : float64 -> Z) (rand : float64) (attempt : nat) : Z :=
  let max := f_mul (f_of_Z 250000000) (f_of_Z (u64 (Z.shiftl 1 (Z.of_nat attempt)))) in
  let f := f_mul rand max in
  match f_trunc (- 2 ^ 63) (2 ^ 63) f with Some z => z | None => convert_out_of_range f end.

Definition bury (n : notification) (err : delivery_error) (now : Z) (e : Engine) : Engine :=
  let d := dead e ++ [mkDead (n_rule n) (n_act n) err now] in
  set_dead (if 1000 <? Z.of_nat (length d) then drop (length d - 1000) d else d) e.

(** ** A worker *)
Inductive wstate :=
  | Idle
  | Attempt (n : notification) (attempt : nat) (lastErr : option delivery_error)  (* head of the loop *)
  | Posting (n : notification) (attempt : nat) (lastErr : option delivery_error)  (* the request is out *)
  | Sleeping (n : notification) (attempt : nat) (err : delivery_error) (d : Z)
  | Stopped
  | Crashed.                                                   (* lastErr.Error() on nil *)

(** What a step sees of the world. *)
Record input := mkInput { ctx_done : bool; now : Z; status : option Z; rand : float64 }.

(** How a delivery can end. *)
Inductive ending := EDelivered | EDead | ECancelled.

Section Step.
Context (convert_out_of_range : float64 -> Z).

Definition url_of (n : notification) : string := r_WebhookURL (n_rule n).

(** One step of a worker: the new engine and position, and the notification
    it took or finished. *)
Definition worker_step (i : input) (e : Engine) (w : wstate) : Engine * wstate * option (notification * ending) :=
  match w with
  | Idle =>
      if ctx_done i then (e, Stopped, None)
      else match queue e with
           | [] => (e, Idle, None)
           | n :: q => (set_queue q e, Attempt n 0 None, None)
           end
  | Attempt n k err =>
      if Z.of_nat k <? MaxAttempts (opts e) then
        if ctx_done i then (e, Idle, Some (n, ECancelled))
        else if breakerAllow (url_of n) (now i) e then (e, Posting n k err, None)
        else (e, Sleeping n k BreakerOpen (Z.quot (BreakerReset (opts e)) 2), None)
      else match err with
           | Some x => (bury n x (now i) e, Idle, Some (n, EDead))
           | None => (e, Crashed, None)
           end
  | Posting n k err =>
      let ok := post_ok (status i) in
      let e := breakerRecord (url_of n) ok (now i) e in
      if ok then (add_delivered e, Idle, Some (n, EDelivered))
      else (e, Sleeping n k PostFailed (backoff convert_out_of_range (rand i) k), None)
  | Sleeping n k err _ => (e, Attempt n (S k) (Some err), None)
  | Stopped => (e, Stopped, None)
  | Crashed => (e, Crashed, None)
  end.

(** ** The system *)
Record Sys := mkSys {
  eng : Engine; workers : list wstate;
  accepted : list notification;             (* enqueued so far *)
  finished : list (notification * ending);
  fired : list (string * Z) }.              (* cooldown keys let through, with the time *)

Inductive label := LEvaluate (r : Rule) (a : IssueActivity) (t : Z) | LWorker (w : nat) (i : input).

Definition sys_step (l : label) (s : Sys) : Sys :=
  match l with
  | LEvaluate r a t =>
      let '(e, v) := evaluate_rule r a t (eng s) in
      let n := mkNotification r a in
      let f := (cooldown_key (r_ID r) (ac_IssueID a), t) in
      match v with
      | NoMatch | CoolingDown => mkSys e (workers s) (accepted s) (finished s) (fired s)
      | Enqueued => mkSys e (workers s) (accepted s ++ [n]) (finished s) (fired s ++ [f])
      | QueueFull => mkSys e (workers s) (accepted s) (finished s) (fired s ++ [f])
      end
  | LWorker w i =>
      match workers s !! w with
      | None => s
      | Some st =>
          let '(e, st, fin) := worker_step i (eng s) st in
          mkSys e (<[w := st]> (workers s)) (accepted s)
            (finished s ++ match fin with Some f => [f] | None => [] end) (fired s)
      end
  end.

Definition init (o : Options) : Sys :=
  mkSys (New o) (repeat Idle (Z.to_nat (Workers (defaults o)))) [] [] [].

Definition run (o : Options) (ls : list label) : Sys := fold_left (fun s l => sys_step l s) ls (init o).
End Step.

(** Evaluate on the rules the source supplies; [None] is an error of it. The
    clock is read once per rule. *)
Fixpoint Evaluate (rules : list (Rule * Z)) (a : IssueActivity) (e : Engine) : Engine :=
  match rules with
  | [] => e
  | (r, t) :: rules => Evaluate rules a (fst (evaluate_rule r a t e))
  end.

Definition DeadLetters (e : Engine) : list DeadLetter := dead e.

End Alerts.

(** ** Alert rules in the metadata store (internal/metadata/alerts.go) *)
Module MetaAlerts.
Import Sql.

Notation T := (Tx DB).
Notation Rule := Alerts.Rule.

Definition insert_rule (r : Rule) (d : DB) : option (DB * Z) :=
  let id := next_id r_ID (alert_rules d) in
  if negb (org_exists (r_OrgID r) d) || negb (project_exists (r_ProjectID r) d) then None
  else Some (set_rules (alert_rules d ++ [mkAlert id (r_OrgID r) (r_ProjectID r) (r_Name r) (r_Condition r)
               (r_Threshold r) (r_WebhookURL r) (r_Enabled r)]) d, id).

Definition CreateAlertRule (r : Rule) : T Z :=
  if negb (bool_decide (r_Condition r ∈ [Alerts.CondNewIssue; Alerts.CondRegression; Alerts.CondFrequency])) then throw ErrInvalid
  else if bool_decide (r_WebhookURL r = "") || bool_decide (r_Name r = "") then throw ErrInvalid
  else Write (exec (insert_rule r)).

(** LIMIT without ORDER BY: any order of the rows. *)
Definition EnabledRules `{!MapRange Rule} (projectID : Z) : T (list Rule) :=
  query (fun d => limit_rows 100
    (range_keys (List.filter (fun r => (r_ProjectID r =? projectID) && r_Enabled r) (alert_rules d)))).

Definition ListAlertRules (projectID : Z) : T (list Rule) :=
  query (fun d => limit_rows 200
    (sort_slice (key_le r_ID) (List.filter (fun r => r_ProjectID r =? projectID) (alert_rules d)))).

Definition DeleteAlertRule (projectID ruleID : Z) : T unit :=
  Write (
    let! n := exec (fun d =>
      let gone r := (r_ID r =? ruleID) && (r_ProjectID r =? projectID) in
      Some (set_rules (List.filter (fun r => negb (gone r)) (alert_rules d)) d,
            Z.of_nat (length (List.filter gone (alert_rules d))))) in
    if n =? 0 then throw ErrNotFound else ret tt).

End MetaAlerts.
