(* ===== verification/AlertsProps.v ===== *)
(** * No notification is lost, and none is repeated within the cooldown

    Invariants of the alert engine over every interleaving of evaluations and
    worker steps. *)
From S2P Require Import Prelude GoSort GoFloat GoStrings RateLimit MetaDb Alerts.
Import Meta Alerts.
#[local] Open Scope Z_scope.
#[local] Open Scope leser_scope.

Module AlertsProps.

Section Props.
Context (convert_out_of_range : float64 -> Z).
Notation worker_step := (worker_step convert_out_of_range).
Notation sys_step := (sys_step convert_out_of_range).
Notation run := (run convert_out_of_range).

(** ** Accounting *)
Definition holds (w : wstate) : list notification :=
  match w with Attempt n _ _ | Posting n _ _ | Sleeping n _ _ _ => [n] | _ => [] end.
Definition inflight (ws : list wstate) : list notification := concat (map holds ws).

Definition worker_ok (o : Options) (w : wstate) : Prop :=
  match w with
  | Attempt _ k err => Z.of_nat k <= MaxAttempts o /\ (k <> 0%nat -> err <> None)
  | Posting _ k _ | Sleeping _ k _ _ => Z.of_nat k < MaxAttempts o
  | Idle | Stopped => True
  | Crashed => False
  end.

Definition ended (how : ending) (l : list (notification * ending)) : list notification :=
  omap (fun f => match snd f, how with
                 | EDelivered, EDelivered | EDead, EDead | ECancelled, ECancelled => Some (fst f)
                 | _, _ => None
                 end) l.

(** The last [k] entries of a list. *)
Definition last_of {A} (k : nat) (l : list A) : list A := drop (length l - k) l.

Definition buried (d : DeadLetter) : notification := mkNotification (dl_Rule d) (dl_Activity d).

Record account (o : Options) (s : Sys) : Prop := {
  ac_opts : opts (eng s) = o;
  ac_all : accepted s ≡ₚ queue (eng s) ++ inflight (workers s) ++ map fst (finished s);
  ac_queue : Z.of_nat (length (queue (eng s))) <= QueueDepth o;
  ac_workers : Forall (worker_ok o) (workers s);
  ac_delivered : Delivered (eng s) = u64 (Z.of_nat (length (ended EDelivered (finished s))));
  ac_dead : map buried (dead (eng s)) = last_of 1000 (ended EDead (finished s)) }.

Lemma inflight_insert ws i w w' :
  ws !! i = Some w ->
  exists rest, inflight ws ≡ₚ holds w ++ rest /\ inflight (<[i := w']> ws) ≡ₚ holds w' ++ rest.
Proof.
  intros H. exists (inflight (take i ws) ++ inflight (drop (S i) ws)). unfold inflight. split.
  - rewrite <- (take_drop_middle _ _ _ H) at 1. rewrite map_app, concat_app. cbn.
    rewrite (Permutation_app_comm (concat _)), <- app_assoc. apply Permutation_app_head, Permutation_app_comm.
  - rewrite insert_take_drop by (eapply lookup_lt_Some; eauto). rewrite map_app, concat_app. cbn.
    rewrite (Permutation_app_comm (concat _)), <- app_assoc. apply Permutation_app_head, Permutation_app_comm.
Qed.

Lemma ended_app how l l' : ended how (l ++ l') = ended how l ++ ended how l'.
Proof. unfold ended. apply omap_app. Qed.

Lemma last_of_snoc {A} k (l : list A) x : (0 < k)%nat -> last_of k (l ++ [x]) = last_of k (last_of k l ++ [x]).
Proof.
  intros Hk. unfold last_of. rewrite !length_app, !length_drop. cbn [length].
  destruct (Nat.le_gt_cases (length l + 1) k) as [H|H].
  - replace (length l + 1 - k)%nat with 0%nat by lia. replace (length l - k)%nat with 0%nat by lia.
    rewrite !drop_0. replace (length l - 0 + 1 - k)%nat with 0%nat by lia. reflexivity.
  - rewrite !drop_app, !drop_drop, !length_drop.
    replace (length l - k + (length l - (length l - k) + 1 - k))%nat with (length l + 1 - k)%nat by lia.
    f_equal. f_equal. lia.
Qed.

Lemma bury_dead n err t e :
  map buried (dead (bury n err t e)) = last_of 1000 (map buried (dead e) ++ [n]).
Proof.
  unfold bury. cbn [dead set_dead]. set (d := dead e ++ [_]).
  assert (Hd : map buried d = map buried (dead e) ++ [n]) by (unfold d; rewrite map_app; destruct n; reflexivity).
  rewrite <- Hd. unfold last_of. rewrite length_map. destruct (Z.ltb_spec 1000 (Z.of_nat (length d))).
  - apply (fmap_drop buried).
  - replace (length d - 1000)%nat with 0%nat by lia. reflexivity.
Qed.

Lemma init_account o : account (defaults o) (init o).
Proof.
  constructor; cbn; auto.
  - unfold inflight. induction (Z.to_nat (positive_or (Workers o) 4)); cbn; auto.
  - unfold positive_or. destruct (Z.leb_spec (QueueDepth o) 0); lia.
  - apply Forall_forall. intros w Hw. apply list_elem_of_In, repeat_spec in Hw. subst w. exact I.
Qed.

Lemma cooldownOK_frame r i t e e' ok : cooldownOK r i t e = (e', ok) ->
  opts e' = opts e /\ queue e' = queue e /\ dead e' = dead e /\ Delivered e' = Delivered e.
Proof. unfold cooldownOK. destruct (match cooldown e !! _ with Some _ => _ | None => _ end); intros [= <- <-]; auto. Qed.

Lemma evaluate_account o r a t s :
  account o s -> account o (sys_step (LEvaluate r a t) s).
Proof.
  intros [A1 A2 A3 A4 A5 A6]. cbn [Alerts.sys_step]. unfold evaluate_rule.
  destruct (negb (matches r a)); [constructor; auto|].
  destruct (cooldownOK (r_ID r) (ac_IssueID a) t (eng s)) as [e ok] eqn:E.
  destruct (cooldownOK_frame _ _ _ _ _ _ E) as (F1 & F2 & F3 & F4). destruct ok; cbn [negb].
  - unfold enqueue. destruct (Z.ltb_spec (Z.of_nat (length (queue e))) (QueueDepth (opts e))) as [Hl|Hl];
      constructor; cbn; rewrite ?F1, ?F2, ?F3, ?F4; auto; try congruence.
    + rewrite A2, <- !app_assoc. apply Permutation_app_head. rewrite (Permutation_app_comm [_]), <- app_assoc. reflexivity.
    + rewrite length_app. rewrite F1, A1, F2 in Hl. cbn. lia.
  - constructor; cbn; rewrite ?F1, ?F2, ?F3, ?F4; auto.
Qed.

(** A step of one worker, by what it does to the queue and the logs. *)
Definition logged (fin : option (notification * ending)) : list (notification * ending) :=
  match fin with Some f => [f] | None => [] end.

Lemma account_worker o s w st e st' fin :
  account o s -> workers s !! w = Some st -> opts e = opts (eng s) ->
  queue (eng s) ++ holds st ≡ₚ queue e ++ holds st' ++ map fst (logged fin) ->
  (length (queue e) <= length (queue (eng s)))%nat -> worker_ok o st' ->
  Delivered e = match fin with Some (_, EDelivered) => u64 (Delivered (eng s) + 1) | _ => Delivered (eng s) end ->
  map buried (dead e) = match fin with
                        | Some (n, EDead) => last_of 1000 (map buried (dead (eng s)) ++ [n])
                        | _ => map buried (dead (eng s))
                        end ->
  account o (mkSys e (<[w := st']> (workers s)) (accepted s) (finished s ++ logged fin) (fired s)).
Proof.
  intros [A1 A2 A3 A4 A5 A6] Hw E1 E2 E3 E4 E5 E6.
  destruct (inflight_insert (workers s) w st st' Hw) as (rest & R1 & R2).
  constructor; cbn [eng accepted workers finished]; try congruence; try lia.
  - rewrite A2, R2, R1, map_app, !app_assoc, E2, <- !app_assoc. apply Permutation_app_head, Permutation_app_head.
    rewrite (app_assoc rest). rewrite (Permutation_app_comm (map fst (logged fin)) (rest ++ map fst (finished s))) at 1.
    rewrite <- app_assoc. reflexivity.
  - apply Forall_insert; auto.
  - rewrite E5, A5, ended_app, length_app. destruct fin as [[n []]|]; cbn; rewrite ?Nat.add_0_r; try reflexivity.
    unfold u64. rewrite Zplus_mod_idemp_l. f_equal. lia.
  - rewrite E6, A6, ended_app. destruct fin as [[n []]|]; cbn; rewrite ?app_nil_r; try reflexivity.
    symmetry. apply last_of_snoc. lia.
Qed.

Lemma breakerRecord_frame url ok t e :
  opts (breakerRecord url ok t e) = opts e /\ queue (breakerRecord url ok t e) = queue e
  /\ dead (breakerRecord url ok t e) = dead e /\ Delivered (breakerRecord url ok t e) = Delivered e.
Proof. repeat split. Qed.

Lemma worker_step_account o s w i :
  0 < MaxAttempts o -> account o s -> account o (sys_step (LWorker w i) s).
Proof.
  intros Hmax Ha. cbn [Alerts.sys_step]. destruct (workers s !! w) as [st|] eqn:Hw; [|exact Ha].
  destruct (worker_step i (eng s) st) as [[e st'] fin] eqn:E.
  change (match fin with Some f => [f] | None => [] end) with (logged fin).
  pose proof (Forall_lookup_1 _ _ _ _ (ac_workers _ _ Ha) Hw) as Hst. pose proof (ac_opts _ _ Ha) as Ho.
  destruct st as [|n k err|n k err|n k err d| |]; cbn [Alerts.worker_step] in E; cbn [worker_ok] in Hst.
  - destruct (ctx_done i); [|destruct (queue (eng s)) as [|n q] eqn:Eq]; injection E as <- <- <-;
      apply (account_worker o s w _ _ _ _ Ha Hw); cbn; rewrite ?app_nil_r; auto; rewrite ?Eq; cbn; auto.
    + apply Permutation_cons_append.
    + split; [lia|congruence].
  - destruct Hst as [Hk Herr]. destruct (Z.ltb_spec (Z.of_nat k) (MaxAttempts (opts (eng s)))) as [Hlt|Hge];
      [destruct (ctx_done i); [|destruct (breakerAllow (url_of n) (now i) (eng s))]|
       destruct err as [x|]; [|exfalso; apply Herr; [|reflexivity]; intros ->; rewrite Ho in Hge; lia]];
      injection E as <- <- <-; apply (account_worker o s w _ _ _ _ Ha Hw); cbn [holds logged map fst];
        rewrite ?app_nil_r; auto; cbn [worker_ok]; rewrite ?Ho in *; lia || auto using bury_dead.
  - destruct (post_ok (status i)); injection E as <- <- <-;
      apply (account_worker o s w _ _ _ _ Ha Hw); cbn [holds logged map fst]; rewrite ?app_nil_r; auto; exact I.
  - injection E as <- <- <-. apply (account_worker o s w _ _ _ _ Ha Hw); cbn; rewrite ?app_nil_r; auto.
    split; [lia|congruence].
  - injection E as <- <- <-. apply (account_worker o s w _ _ _ _ Ha Hw); cbn; rewrite ?app_nil_r; auto.
  - contradiction.
Qed.

Lemma run_account o ls : account (defaults o) (run o ls).
Proof.
  assert (Hmax : 0 < MaxAttempts (defaults o))
    by (cbn; unfold positive_or; destruct (Z.leb_spec (MaxAttempts o) 0); lia).
  unfold Alerts.run. induction ls as [|l ls IH] using rev_ind; [apply init_account|].
  rewrite fold_left_app. cbn [fold_left].
  destruct l; [apply evaluate_account, IH|apply worker_step_account; auto].
Qed.

(** C32: In every interleaving of evaluations and worker steps, each
    notification that entered the queue is queued, held by one worker,
    delivered, dead-lettered or was given up at shutdown, exactly once. The
    queue stays within its depth, no attempt goes past MaxAttempts, a worker
    never reads a missing error, Delivered counts the deliveries, and the
    dead-letter ring is the last thousand dead letters. *)
Theorem notifications_are_accounted o ls :
  let s := run o ls in
  accepted s ≡ₚ queue (eng s) ++ inflight (workers s) ++ map fst (finished s)
  /\ Z.of_nat (length (queue (eng s))) <= QueueDepth (defaults o)
  /\ Forall (worker_ok (defaults o)) (workers s)
  /\ Delivered (eng s) = u64 (Z.of_nat (length (ended EDelivered (finished s))))
  /\ map buried (DeadLetters (eng s)) = last_of 1000 (ended EDead (finished s)).
Proof.
  intros s. destruct (run_account o ls) as [_ H1 H2 H3 H4 H5]. auto.
Qed.

(** ** The cooldown *)
Definition times_of (k : string) (l : list (string * Z)) : list Z :=
  omap (fun f => if decide (fst f = k) then Some (snd f) else None) l.

(** The clock readings of the evaluations, which do not decrease. *)
Definition eval_times (ls : list label) : list Z :=
  omap (fun l => match l with LEvaluate _ _ t => Some t | LWorker _ _ => None end) ls.

(** What the table knows at a time [T]: the last time a key was let through,
    or that it may be let through again. *)
Record cooled (c T : Z) (s : Sys) : Prop := {
  co_opts : Cooldown (opts (eng s)) = c;
  co_range : forall k v, cooldown (eng s) !! k = Some v -> 0 <= v <= T;
  co_spaced : forall k, StronglySorted (fun t t' => t + c <= t') (times_of k (fired s));
  co_last : forall k t, t ∈ times_of k (fired s) ->
    match cooldown (eng s) !! k with Some v => t <= v | None => t + c <= T end }.

Lemma cooled_later c T T' s : T <= T' -> cooled c T s -> cooled c T' s.
Proof.
  intros HT [C1 C2 C3 C4]. constructor; auto.
  - intros k v Hv. specialize (C2 k v Hv). lia.
  - intros k t Ht. specialize (C4 k t Ht). destruct (cooldown (eng s) !! k); lia.
Qed.

Lemma times_of_app k l l' : times_of k (l ++ l') = times_of k l ++ times_of k l'.
Proof. unfold times_of. apply omap_app. Qed.

Lemma time_sub_small t u : 0 <= t < 2 ^ 63 -> 0 <= u < 2 ^ 63 -> RateLimit.time_sub t u = t - u.
Proof. intros H1 H2. unfold RateLimit.time_sub. lia. Qed.

(** What cooldownOK leaves in the table when it lets a key through. *)
Lemma cooldownOK_table r i t e e' : cooldownOK r i t e = (e', true) ->
  opts e' = opts e /\ cooldown e' !! cooldown_key r i = Some t
  /\ (forall v, cooldown e !! cooldown_key r i = Some v -> Cooldown (opts e) <= RateLimit.time_sub t v)
  /\ forall k, k <> cooldown_key r i ->
       cooldown e' !! k = cooldown e !! k
       \/ cooldown e' !! k = None /\ exists v, cooldown e !! k = Some v /\ Cooldown (opts e) < RateLimit.time_sub t v.
Proof.
  unfold cooldownOK. set (key := cooldown_key r i).
  destruct (match cooldown e !! key with Some _ => _ | None => _ end) eqn:Eb; [discriminate|].
  intros [= <-]. cbn [opts cooldown set_cooldown]. split_and!; auto.
  - apply lookup_insert_eq.
  - intros v Hv. rewrite Hv in Eb. apply Z.ltb_ge in Eb. exact Eb.
  - intros k Hk. rewrite lookup_insert_ne by congruence. destruct (100000 <? _); [|auto].
    rewrite map_lookup_filter. destruct (cooldown e !! k) as [v|] eqn:Ev; [|auto]. cbn.
    destruct (decide (RateLimit.time_sub t v <= Cooldown (opts e))) as [H|H].
    + left. rewrite option_guard_True by exact H. reflexivity.
    + right. rewrite option_guard_False by exact H. split; [reflexivity|]. exists v. split; [reflexivity|lia].
Qed.

Lemma fired_cooled c T s t e r i ws acc fin :
  0 < c -> 0 <= T <= t -> t < 2 ^ 63 -> cooled c T s -> cooldownOK r i t (eng s) = (e, true) ->
  forall e', opts e' = opts e -> cooldown e' = cooldown e ->
  cooled c t (mkSys e' ws acc fin (fired s ++ [(cooldown_key r i, t)])).
Proof.
  intros Hc HT Ht [C1 C2 C3 C4] E e' Eo Ec. destruct (cooldownOK_table _ _ _ _ _ E) as (O & K1 & K2 & K3).
  set (key := cooldown_key r i) in *.
  assert (Hother : forall k, k <> key -> times_of k (fired s ++ [(key, t)]) = times_of k (fired s)).
  { intros k Hk. rewrite times_of_app. cbn. destruct (decide (key = k)); [congruence|]. apply app_nil_r. }
  assert (Hkey : times_of key (fired s ++ [(key, t)]) = times_of key (fired s) ++ [t]).
  { rewrite times_of_app. cbn. rewrite decide_True by reflexivity. reflexivity. }
  assert (Hbefore : forall y, y ∈ times_of key (fired s) -> y + c <= t).
  { intros y Hy. specialize (C4 key y Hy). destruct (cooldown (eng s) !! key) as [v|] eqn:Ev; [|lia].
    specialize (K2 v eq_refl). specialize (C2 key v Ev). rewrite time_sub_small, C1 in K2 by lia. lia. }
  constructor; cbn [eng fired].
  - rewrite Eo, O. exact C1.
  - intros k v Hv. rewrite Ec in Hv. destruct (decide (k = key)) as [->|Hk].
    + rewrite K1 in Hv. injection Hv as <-. lia.
    + destruct (K3 k Hk) as [E1|[E1 _]]; rewrite E1 in Hv; [|discriminate]. specialize (C2 k v Hv). lia.
  - intros k. destruct (decide (k = key)) as [->|Hk]; [|rewrite Hother by exact Hk; apply C3].
    rewrite Hkey. apply StronglySorted_snoc; [apply C3|exact Hbefore].
  - intros k y Hy. rewrite Ec. destruct (decide (k = key)) as [->|Hk].
    + rewrite K1. rewrite Hkey in Hy. apply elem_of_app in Hy as [Hy|Hy%list_elem_of_singleton]; [|lia].
      specialize (Hbefore y Hy). lia.
    + rewrite Hother in Hy by exact Hk. specialize (C4 k y Hy). destruct (K3 k Hk) as [E1|[E1 (v & Ev & Hv)]]; rewrite E1.
      * destruct (cooldown (eng s) !! k); lia.
      * rewrite Ev in C4. specialize (C2 k v Ev). rewrite time_sub_small, C1 in Hv by lia. lia.
Qed.

Lemma evaluate_cooled c T s r a t :
  0 < c -> 0 <= T <= t -> t < 2 ^ 63 -> cooled c T s -> cooled c t (sys_step (LEvaluate r a t) s).
Proof.
  intros Hc HT Ht Hs. cbn [Alerts.sys_step]. unfold evaluate_rule. destruct (negb (matches r a)).
  { apply (cooled_later c T); [lia|]. destruct Hs. constructor; auto. }
  destruct (cooldownOK (r_ID r) (ac_IssueID a) t (eng s)) as [e ok] eqn:E. destruct ok; cbn [negb].
  - unfold enqueue. destruct (_ <? _); eapply fired_cooled; eauto.
  - apply (cooled_later c T); [lia|]. unfold cooldownOK in E.
    destruct (match cooldown (eng s) !! _ with Some _ => _ | None => _ end); injection E as <-; try discriminate.
    destruct Hs. constructor; auto.
Qed.

Lemma worker_cooled c T s w i : cooled c T s -> cooled c T (sys_step (LWorker w i) s).
Proof.
  intros [C1 C2 C3 C4]. cbn [Alerts.sys_step]. destruct (workers s !! w) as [st|]; [|constructor; auto].
  destruct (worker_step i (eng s) st) as [[e st'] fin] eqn:E.
  assert (He : opts e = opts (eng s) /\ cooldown e = cooldown (eng s)).
  { destruct st as [|n k err|n k err|n k err d| |]; cbn [Alerts.worker_step] in E; repeat case_match;
      injection E as <- <- <-; auto. }
  destruct He as [E1 E2]. constructor; cbn [eng fired]; rewrite ?E1, ?E2; auto.
Qed.

(** C33: As long as the clock does not go backwards, two alerts of one
    (rule, issue) pair are at least Cooldown apart, the sweep of the table
    notwithstanding. *)
Theorem cooldown_spaces_alerts o ls k :
  Forall (fun t => 0 <= t < 2 ^ 63) (eval_times ls) -> StronglySorted Z.le (eval_times ls) ->
  StronglySorted (fun t t' => t + Cooldown (defaults o) <= t') (times_of k (fired (run o ls))).
Proof.
  intros Hr Hs. set (c := Cooldown (defaults o)).
  assert (Hc : 0 < c) by (unfold c; cbn; unfold positive_or; destruct (Z.leb_spec (Cooldown o) 0); unfold Second; lia).
  assert (H : exists T, 0 <= T /\ (T = 0 \/ T ∈ eval_times ls) /\ cooled c T (run o ls)); [|destruct H as (T & _ & _ & H); apply H].
  unfold Alerts.run. induction ls as [|l ls IH] using rev_ind.
  { exists 0. split_and!; auto; [lia|]. constructor; cbn; auto; [intros ? ? Hx; rewrite lookup_empty in Hx; discriminate|constructor|].
    intros ? ? Hx. inversion Hx. }
  unfold eval_times in *. rewrite omap_app in *. fold (eval_times ls) in *. apply Forall_app in Hr as [Hr1 Hr2].
  destruct (IH Hr1) as (T & T1 & T2 & T3).
  { clear -Hs. induction (eval_times ls) as [|x l' IHl]; [constructor|]. inversion Hs as [|? ? H1 H2]; subst.
    constructor; [apply IHl, H1|]. apply Forall_app in H2. apply H2. }
  rewrite fold_left_app. cbn [fold_left]. destruct l as [r a t|w i].
  - cbn in Hr2, Hs |- *. exists t. inversion Hr2 as [|? ? Ht _]; subst.
    assert (HTt : T <= t).
    { destruct T2 as [->|T2]; [lia|]. clear -Hs T2. induction T2 as [x l'|x y l' _ IHl]; cbn in Hs; inversion Hs as [|? ? H1 H2]; subst; [|auto].
      rewrite Forall_app in H2. destruct H2 as [_ H2]. inversion H2. assumption. }
    split_and!; [lia|right; apply elem_of_app; right; left|apply (evaluate_cooled c T); auto; lia].
  - exists T. cbn. rewrite app_nil_r. split_and!; auto. apply worker_cooled, T3.
Qed.

End Props.
(** A rule that fires at 5, is silent at 8 and fires again at 20. *)
Definition ex_opts : Options := mkOptions 0 0 10 0 0 0 0.
Definition ex_rule : Rule := mkAlert 7 1 1 "r" CondNewIssue 0 "http://x" true.
Definition ex_act : IssueActivity := mkActivity 1 1 3 "t" "error" "unresolved" 1 true false.
Definition ex_labels : list label :=
  [LEvaluate ex_rule ex_act 5; LWorker 0 (mkInput false 6 None (f_of_Z 0)); LEvaluate ex_rule ex_act 8;
   LEvaluate ex_rule ex_act 20].

Lemma cooldown_spaces_alerts_witness :
  times_of (cooldown_key 7 3) (fired (run (fun _ => 0) ex_opts ex_labels)) = [5; 20] /\
  StronglySorted (fun t t' => t + Cooldown (defaults ex_opts) <= t')
    (times_of (cooldown_key 7 3) (fired (run (fun _ => 0) ex_opts ex_labels))).
Proof.
  split; [vm_compute; reflexivity|]. apply (cooldown_spaces_alerts (fun _ => 0) ex_opts ex_labels (cooldown_key 7 3)).
  - repeat constructor; discriminate.
  - repeat constructor; discriminate.
Defined.

End AlertsProps.
