(* ===== verification/Search.v ===== *)
(** * The issue-stream query language (internal/search/search.go) *)
From S2P Require Import Prelude GoStrings GoUtf8 Grouping.
#[local] Open Scope string_scope.
#[local] Open Scope list_scope.
#[local] Open Scope Z_scope.
#[local] Open Scope leser_scope.

Module Search.

Record Filter := mkFilter {
  Status : string; Level : string; Release : string; Environment : string; UserID : string;
  Fingerprint : string; Text : string }.

Definition zero : Filter := mkFilter "" "" "" "" "" "" "".
Definition set_Status v f := mkFilter v (Level f) (Release f) (Environment f) (UserID f) (Fingerprint f) (Text f).
Definition set_Level v f := mkFilter (Status f) v (Release f) (Environment f) (UserID f) (Fingerprint f) (Text f).
Definition set_Release v f := mkFilter (Status f) (Level f) v (Environment f) (UserID f) (Fingerprint f) (Text f).
Definition set_Environment v f := mkFilter (Status f) (Level f) (Release f) v (UserID f) (Fingerprint f) (Text f).
Definition set_UserID v f := mkFilter (Status f) (Level f) (Release f) (Environment f) v (Fingerprint f) (Text f).
Definition set_Fingerprint v f := mkFilter (Status f) (Level f) (Release f) (Environment f) (UserID f) v (Text f).
Definition set_Text v f := mkFilter (Status f) (Level f) (Release f) (Environment f) (UserID f) (Fingerprint f) v.

Definition NeedsEventLookup (f : Filter) : bool :=
  negb (bool_decide (Release f = "")) || negb (bool_decide (Environment f = ""))
  || negb (bool_decide (UserID f = "")).

Definition validStatus (s : string) : bool :=
  bool_decide (s ∈ ["unresolved"; "resolved"; "ignored"; "regressed"]).

(** The double quote. *)
Definition is_quote (r : Z) : bool := r =? 34.

(** ** tokenize: the runes left, the token begun, whether a quote is open *)
Definition flush_tok (cur : string) (out : list string) : list string :=
  if bool_decide (cur = "") then out else cur :: out.

Fixpoint tokenize_go (rs : list Z) (cur : string) (inQuote : bool) : list string :=
  match rs with
  | [] => flush_tok cur []
  | r :: rs =>
      if is_quote r then tokenize_go rs (cur +:+ encode_rune r) (negb inQuote)
      else if (r =? 32) && negb inQuote then flush_tok cur (tokenize_go rs "" inQuote)
      else tokenize_go rs (cur +:+ encode_rune r) inQuote
  end.
Definition tokenize (q : string) : list string := tokenize_go (map fst (runes q)) "" false.

(** ** Parse *)

(** [strings.Trim(val, dq)] *)
Definition trim_quotes (s : string) : string := trim_runes is_quote s.

Inductive search_error := BadStatus (val : string) | UnknownKey (key : string).

Section Parse.
(** The lower-case table of the language's library. *)
Context (lower_rune : Z -> Z).

Definition apply_kv (key val : string) (f : Filter) : search_error + Filter :=
  let k := Grouping.ToLower lower_rune key in
  if bool_decide (k = "is") then if validStatus val then inr (set_Status val f) else inl (BadStatus val)
  else if bool_decide (k = "level") then inr (set_Level val f)
  else if bool_decide (k = "release") then inr (set_Release val f)
  else if bool_decide (k = "environment") || bool_decide (k = "env") then inr (set_Environment val f)
  else if bool_decide (k = "user") || bool_decide (k = "user.id") then inr (set_UserID val f)
  else if bool_decide (k = "fingerprint") then inr (set_Fingerprint val f)
  else inl (UnknownKey key).

Fixpoint parse_toks (toks : list string) (f : Filter) (text : list string) : search_error + Filter :=
  match toks with
  | [] => inr (set_Text (String.concat " " text) f)
  | tok :: toks =>
      match Cut ":" tok with
      | None => parse_toks toks f (text ++ [tok])
      | Some (key, val) =>
          match apply_kv key (trim_quotes val) f with
          | inl e => inl e
          | inr f => parse_toks toks f text
          end
      end
  end.

Definition Parse (q : string) : search_error + Filter := parse_toks (tokenize q) zero [].
End Parse.

End Search.
