(* ===== verification/SearchProps.v ===== *)
(** * The query language: what a written filter parses to *)
From S2P Require Import Prelude GoStrings GoUtf8 Grouping Search.
#[local] Open Scope string_scope.
#[local] Open Scope list_scope.
#[local] Open Scope Z_scope.
#[local] Open Scope leser_scope.

Module SearchProps.
Import Search.

(** ** Written filters *)
Definition dquote : string := encode_rune 34.
Definition kv (key v : string) : list string :=
  if bool_decide (v = "") then [] else [key +:+ ":" +:+ dquote +:+ v +:+ dquote].
Definition render (f : Filter) (words : list string) : string :=
  String.concat " "
    (kv "is" (Status f) ++ kv "level" (Level f) ++ kv "release" (Release f)
     ++ kv "environment" (Environment f) ++ kv "user" (UserID f) ++ kv "fingerprint" (Fingerprint f) ++ words).

(** Text of runes none of which is in [bad]. *)
Definition free_of (bad : list Z) (s : string) : Prop :=
  exists rs, Forall (fun r => valid_rune r /\ r ∉ bad) rs /\ s = text rs.
Definition value_ok (v : string) : Prop := free_of [34] v.
Definition word_ok (w : string) : Prop := w <> "" /\ free_of [32; 34; 58] w.

(** ** Tokens *)
Definition is_token (t : string) : Prop :=
  t <> "" /\ exists rs, Forall valid_rune rs /\ t = text rs
    /\ forall cur rest, tokenize_go (rs ++ rest) cur false = tokenize_go rest (cur +:+ t) false.

Lemma tokenize_plain q rs : Forall (fun r => is_quote r = false /\ ((r =? 32) && negb q) = false) rs ->
  forall cur rest, tokenize_go (rs ++ rest) cur q = tokenize_go rest (cur +:+ text rs) q.
Proof.
  induction 1 as [|r rs [H1 H2] _ IH]; intros cur rest; cbn [text app]; [rewrite app_str_nil; reflexivity|].
  cbn [tokenize_go]. rewrite H1, H2, IH, app_str_assoc. reflexivity.
Qed.

Lemma valid_of (P : Z -> Prop) rs : Forall (fun r => valid_rune r /\ P r) rs -> Forall valid_rune rs.
Proof. intros H. eapply Forall_impl; [exact H|]. intros r [? _]. assumption. Qed.

Lemma word_token w : word_ok w -> is_token w.
Proof.
  intros [Hne (rs & Hrs & ->)]. split; [exact Hne|]. exists rs. split; [apply (valid_of _ _ Hrs)|].
  split; [reflexivity|]. apply tokenize_plain. eapply Forall_impl; [exact Hrs|]. intros r [_ Hr]. cbn beta in Hr.
  unfold is_quote. assert (r <> 32 /\ r <> 34 /\ r <> 58) by set_solver. split; zcases; reflexivity.
Qed.

(** The keys are ASCII letters. *)
Definition key_ok (key : string) : Prop :=
  exists rs, key = text rs /\ Forall (fun r => 97 <= r <= 122) rs.

Lemma key_valid rs : Forall (fun r => 97 <= r <= 122) rs -> Forall valid_rune rs.
Proof. intros H. eapply Forall_impl; [exact H|]. intros r Hr. cbn beta in Hr. unfold valid_rune. lia. Qed.

Lemma kv_token key v : key_ok key -> value_ok v -> is_token (key +:+ ":" +:+ dquote +:+ v +:+ dquote).
Proof.
  intros (ks & -> & Hks) (rs & Hrs & ->).
  split; [destruct ks; cbn [text]; [|pose proof (encode_rune_ne z); destruct (encode_rune z)]; discriminate || congruence|].
  exists (ks ++ [58; 34] ++ rs ++ [34]). split_and!.
  - rewrite !Forall_app. split_and!; [exact (key_valid _ Hks)| |exact (valid_of _ _ Hrs)|];
      repeat (constructor; [unfold valid_rune; lia|]); constructor.
  - rewrite !text_app. reflexivity.
  - intros cur rest. rewrite <- !app_assoc, (tokenize_plain false).
    2:{ eapply Forall_impl; [exact Hks|]. intros r Hr. cbn beta in Hr. unfold is_quote. split; zcases; reflexivity. }
    cbn [app tokenize_go is_quote Z.eqb Pos.eqb negb andb].
    rewrite (tokenize_plain true).
    2:{ eapply Forall_impl; [exact Hrs|]. intros r [_ Hr]. cbn beta in Hr. unfold is_quote.
        assert (r <> 34) by set_solver. split; [zcases; reflexivity|apply andb_false_r]. }
    cbn [app tokenize_go is_quote Z.eqb Pos.eqb negb andb]. f_equal. rewrite !app_str_assoc. reflexivity.
Qed.

Lemma tokenize_tokens l : Forall is_token l -> tokenize (String.concat " " l) = l.
Proof.
  intros Hl. unfold tokenize.
  assert (Hgo : exists rs, Forall valid_rune rs /\ String.concat " " l = text rs
                 /\ tokenize_go rs "" false = l).
  { induction Hl as [|t l (Hne & rs & Hv & -> & Ht) Hl (rs' & Hv' & E & IH)]; [exists []; repeat split; constructor|].
    destruct l as [|u l].
    - exists rs. split_and!; [exact Hv|reflexivity|]. rewrite <- (app_nil_r rs) at 1. rewrite Ht. cbn [tokenize_go].
      unfold flush_tok. change ("" +:+ text rs) with (text rs). rewrite bool_decide_eq_false_2 by exact Hne. reflexivity.
    - exists (rs ++ 32 :: rs'). split_and!.
      + apply Forall_app. split; [exact Hv|]. constructor; [unfold valid_rune; lia|exact Hv'].
      + rewrite text_app. cbn [text]. rewrite <- E. reflexivity.
      + rewrite Ht. cbn [tokenize_go is_quote Z.eqb Pos.eqb negb andb]. rewrite IH. unfold flush_tok.
        change ("" +:+ text rs) with (text rs). rewrite bool_decide_eq_false_2 by exact Hne. reflexivity. }
  destruct Hgo as (rs & Hv & -> & Ht). rewrite runes_text by exact Hv.
  rewrite map_map. cbn [fst]. rewrite map_id. exact Ht.
Qed.

(** ** Values *)
Lemma Cut_key key rest : key_ok key -> Cut ":" (key +:+ ":" +:+ rest) = Some (key, rest).
Proof.
  intros (ks & -> & Hks). induction Hks as [|r ks Hr _ IH]; [reflexivity|]. cbn [text].
  rewrite (encode_valid r) by (unfold valid_rune; lia). rewrite (proj2 (Z.ltb_lt r 0x80)) by lia.
  change ((String (chr r) "" +:+ text ks) +:+ ":" +:+ rest) with (String (chr r) (text ks +:+ ":" +:+ rest)).
  cbn [Cut]. rewrite IH. rewrite bool_decide_eq_false_2; [reflexivity|].
  intros H. assert (code (chr r) = code ":") as Hc by (rewrite H; reflexivity).
  rewrite code_chr in Hc by lia. change (code ":") with 58 in Hc. lia.
Qed.

Lemma Cut_word w : free_of [32; 34; 58] w -> Cut ":" w = None.
Proof.
  intros (rs & Hrs & ->).
  assert (Hs : forall s, Forall (fun c => c <> ":"%char) (String.list_ascii_of_string s) -> Cut ":" s = None).
  { induction s as [|c s IH]; [reflexivity|]. cbn [String.list_ascii_of_string Cut]. intros [H1 H2]%Forall_cons.
    rewrite bool_decide_eq_false_2, IH by assumption. reflexivity. }
  apply Hs. clear Hs. induction Hrs as [|r rs [Hv Hr] _ IH]; [constructor|]. cbn [text].
  assert (Happ : forall a b, String.list_ascii_of_string (a +:+ b)
                             = String.list_ascii_of_string a ++ String.list_ascii_of_string b).
  { induction a as [|c a IHa]; intros b; [reflexivity|]. rewrite string_app_cons. cbn [String.list_ascii_of_string app]. rewrite IHa. reflexivity. }
  rewrite Happ. apply Forall_app. split; [|exact IH]. rewrite (encode_valid r Hv).
  assert (Hc : forall z, 0 <= z < 256 -> z <> 58 -> chr z <> ":"%char).
  { intros z Hz Hne H. apply Hne. rewrite <- (code_chr z Hz), H. reflexivity. }
  destruct Hv as [Hv1 Hv2]. assert (r <> 58) by set_solver.
  destruct (Z.ltb_spec r 0x80); [|destruct (Z.ltb_spec r 0x800); [|destruct (Z.ltb_spec r 0x10000)]];
    cbn [String.list_ascii_of_string];
    repeat (constructor; [apply Hc; Z.to_euclidean_division_equations; lia|]); constructor.
Qed.

Lemma drop_while_none {A} (f : A -> bool) l : Forall (fun x => f x = false) l -> drop_while f l = l.
Proof. intros H. destruct H as [|x l Hx _]; [reflexivity|]. cbn. rewrite Hx. reflexivity. Qed.

Lemma trim_quoted v : value_ok v -> trim_quotes (dquote +:+ v +:+ dquote) = v.
Proof.
  intros (rs & Hrs & ->). unfold trim_quotes, trim_runes.
  change (dquote +:+ text rs +:+ dquote) with (text [34] +:+ text rs +:+ text [34]). rewrite <- !text_app.
  rewrite runes_text.
  2:{ rewrite !Forall_app. split_and!; [|exact (valid_of _ _ Hrs)|]; repeat constructor; unfold valid_rune; lia. }
  rewrite !map_app. set (l := map _ rs). cbn [map app drop_while fst is_quote Z.eqb Pos.eqb].
  assert (Hl : Forall (fun x : Z * string => is_quote x.1 = false) l).
  { subst l. apply Forall_map. eapply Forall_impl; [exact Hrs|]. intros r [_ Hr]. cbn beta in Hr. cbn. unfold is_quote.
    assert (r <> 34) by set_solver. zcases; reflexivity || lia. }
  assert (Hd : drop_while (fun x : Z * string => is_quote x.1) (rev (drop_while (fun x => is_quote x.1)
            (l ++ [(34, encode_rune 34)]))) = rev l).
  { destruct (decide (l = [])) as [El|Hne]; [rewrite El; reflexivity|].
    replace (drop_while (fun x => is_quote x.1) (l ++ [(34, encode_rune 34)])) with (l ++ [(34, encode_rune 34)]).
    2:{ destruct Hl as [|x l Hx Hl]; [congruence|]. cbn. rewrite Hx. reflexivity. }
    rewrite rev_app_distr. cbn [rev app drop_while fst is_quote Z.eqb Pos.eqb].
    apply drop_while_none. apply Forall_rev. exact Hl. }
  rewrite Hd, rev_involutive. subst l. clear Hd Hl.
  induction Hrs as [|r rs _ _ IH]; [reflexivity|]. unfold unrunes in *. cbn [map snd]. rewrite concat_cons, IH. reflexivity.
Qed.

(** ** Round trip *)
Section RoundTrip.
Context (lower_rune : Z -> Z).

Lemma key_text ks key : key = text ks -> forallb (fun r => (97 <=? r) && (r <=? 122)) ks = true -> key_ok key.
Proof.
  intros E H. exists ks. split; [exact E|]. apply Forall_forall. intros r Hr.
  rewrite forallb_forall in H. specialize (H r (proj1 (list_elem_of_In _ _) Hr)). lia.
Qed.

Ltac key ks := apply (key_text ks); reflexivity.
Lemma is_key : key_ok "is". Proof. key [105; 115]. Qed.
Lemma level_key : key_ok "level". Proof. key [108; 101; 118; 101; 108]. Qed.
Lemma release_key : key_ok "release". Proof. key [114; 101; 108; 101; 97; 115; 101]. Qed.
Lemma environment_key : key_ok "environment". Proof. key [101; 110; 118; 105; 114; 111; 110; 109; 101; 110; 116]. Qed.
Lemma user_key : key_ok "user". Proof. key [117; 115; 101; 114]. Qed.
Lemma fingerprint_key : key_ok "fingerprint".
Proof. key [102; 105; 110; 103; 101; 114; 112; 114; 105; 110; 116]. Qed.

Lemma kv_tokens key v : key_ok key -> value_ok v -> Forall is_token (kv key v).
Proof.
  intros Hk Hv. unfold kv. case_bool_decide; [constructor|]. constructor; [|constructor].
  apply kv_token; assumption.
Qed.

(** One written field, and the words that end the query. *)
Lemma parse_kv key v toks f f' tx :
  key_ok key -> value_ok v ->
  (v <> "" -> apply_kv lower_rune key v f = inr f') -> (v = "" -> f' = f) ->
  parse_toks lower_rune (kv key v ++ toks) f tx = parse_toks lower_rune toks f' tx.
Proof.
  intros Hk Hv H1 H2. unfold kv. case_bool_decide as E; [rewrite (H2 E); reflexivity|].
  cbn [app parse_toks]. rewrite Cut_key, trim_quoted, (H1 E) by assumption. reflexivity.
Qed.

Lemma parse_words ws f tx : Forall word_ok ws ->
  parse_toks lower_rune ws f tx = inr (set_Text (String.concat " " (tx ++ ws)) f).
Proof.
  intros H. revert tx. induction H as [|w ws [_ Hw] _ IH]; intros tx; cbn [parse_toks]; [rewrite app_nil_r; reflexivity|].
  rewrite Cut_word, IH, <- app_assoc by exact Hw. reflexivity.
Qed.

(** round trip of the query language. A filter written with quoted
    values parses back to itself, whatever lower-case table the language has:
    its status is empty or one of the four, its other values are well-formed
    text without double quotes (spaces and colons may occur), and its text is
    words without spaces, quotes or colons. *)
Theorem written_filter_parses f words :
  (Status f = "" \/ validStatus (Status f) = true) ->
  Forall value_ok [Status f; Level f; Release f; Environment f; UserID f; Fingerprint f] ->
  Forall word_ok words -> Text f = String.concat " " words ->
  Parse lower_rune (render f words) = inr f.
Proof.
  intros Hs Hv Hw Ht. rewrite !Forall_cons in Hv. destruct Hv as (V1 & V2 & V3 & V4 & V5 & V6 & _).
  unfold Parse, render. rewrite tokenize_tokens.
  2:{ rewrite !Forall_app. split_and!;
      auto using kv_tokens, is_key, level_key, release_key, environment_key, user_key, fingerprint_key.
      eapply Forall_impl; [exact Hw|]. apply word_token. }
  destruct f as [st lv rl en us fp tx]. cbn [Status Level Release Environment UserID Fingerprint Text] in *.
  rewrite (parse_kv "is" st _ _ (set_Status st zero)); auto using is_key; try (intros ->; reflexivity).
  2:{ intros Hne. destruct Hs as [->|Hs]; [congruence|]. unfold apply_kv.
      change (Grouping.ToLower lower_rune "is") with "is". cbn. rewrite Hs. reflexivity. }
  rewrite (parse_kv "level" lv _ _ (set_Level lv (set_Status st zero))); auto using level_key; try (intros ->; reflexivity).
  rewrite (parse_kv "release" rl _ _ (mkFilter st lv rl "" "" "" "")); auto using release_key; try (intros ->; reflexivity).
  rewrite (parse_kv "environment" en _ _ (mkFilter st lv rl en "" "" "")); auto using environment_key; try (intros ->; reflexivity).
  rewrite (parse_kv "user" us _ _ (mkFilter st lv rl en us "" "")); auto using user_key; try (intros ->; reflexivity).
  rewrite (parse_kv "fingerprint" fp _ _ (mkFilter st lv rl en us fp "")); auto using fingerprint_key; try (intros ->; reflexivity).
  rewrite parse_words by exact Hw. cbn [app]. rewrite Ht. reflexivity.
Qed.
End RoundTrip.

Definition sample : Filter := mkFilter "resolved" "error" "1.2 beta" "" "u:77" "" "boom now".

Lemma sample_ascii bad s : (forall c, c ∈ map code (String.list_ascii_of_string s) -> c < 128 /\ c ∉ bad) -> free_of bad s.
Proof.
  intros H. exists (map code (String.list_ascii_of_string s)). split.
  - apply Forall_forall. intros r Hr. destruct (H r Hr). split; [|assumption].
    apply list_elem_of_In, in_map_iff in Hr as (c & <- & _). unfold valid_rune, code in *. lia.
  - clear -H. induction s as [|c s IH]; [reflexivity|]. cbn [String.list_ascii_of_string map text].
    rewrite <- IH by (intros d Hd; apply H; cbn; right; exact Hd).
    destruct (H (code c)) as [Hc _]; [cbn; left|].
    assert (0 <= code c) by (unfold code; lia).
    rewrite encode_valid by (unfold valid_rune; lia). rewrite (proj2 (Z.ltb_lt _ _)) by lia.
    unfold chr, code. rewrite Nat2Z.id, ascii_nat_embedding. reflexivity.
Qed.

Definition asciib (bad : list Z) (s : string) : bool :=
  forallb (fun c => (c <? 128) && negb (existsb (Z.eqb c) bad)) (map code (String.list_ascii_of_string s)).

Lemma asciib_free bad s : asciib bad s = true -> free_of bad s.
Proof.
  unfold asciib. rewrite forallb_forall. intros H. apply sample_ascii. intros c Hc%list_elem_of_In.
  specialize (H c Hc). apply andb_true_iff in H as [H1%Z.ltb_lt H2%negb_true_iff]. split; [exact H1|].
  intros Hin%list_elem_of_In. apply not_true_iff_false in H2. apply H2, existsb_exists. exists c. split; [exact Hin|apply Z.eqb_refl].
Qed.

Lemma written_filter_parses_witness :
  Parse (fun r => r) (render sample ["boom"; "now"]) = inr sample.
Proof.
  apply (written_filter_parses (fun r => r) sample ["boom"; "now"]);
    [right; reflexivity| | |reflexivity].
  - repeat (constructor; [apply asciib_free; reflexivity|]). constructor.
  - repeat (constructor; [split; [discriminate|apply asciib_free; reflexivity]|]). constructor.
Defined.

(** Quotes protect spaces only: a quoted phrase of bare text keeps its quotes,
    and a colon in it still makes a key. *)
Example quoted_text :
  Parse (fun r => r) (dquote +:+ "a b" +:+ dquote) = inr (set_Text (dquote +:+ "a b" +:+ dquote) zero)
  /\ Parse (fun r => r) (dquote +:+ "a: b" +:+ dquote) = inl (UnknownKey (dquote +:+ "a")).
Proof. split; vm_compute; reflexivity. Qed.

End SearchProps.
