(* ===== verification/Sha256.v ===== *)
(** * SHA-256 (package [crypto/sha256]) *)
From S2P Require Import Prelude GoStrings Sha1.

Module Sha256.

Definition rotr (n x : Z) : Z := Sha1.rotl (32 - n) x.
Definition xor3 (a b c : Z) : Z := Z.lxor a (Z.lxor b c).

(** The round constants. *)
Definition K : list Z :=
  [0x428a2f98; 0x71374491; 0xb5c0fbcf; 0xe9b5dba5; 0x3956c25b; 0x59f111f1; 0x923f82a4; 0xab1c5ed5;
   0xd807aa98; 0x12835b01; 0x243185be; 0x550c7dc3; 0x72be5d74; 0x80deb1fe; 0x9bdc06a7; 0xc19bf174;
   0xe49b69c1; 0xefbe4786; 0x0fc19dc6; 0x240ca1cc; 0x2de92c6f; 0x4a7484aa; 0x5cb0a9dc; 0x76f988da;
   0x983e5152; 0xa831c66d; 0xb00327c8; 0xbf597fc7; 0xc6e00bf3; 0xd5a79147; 0x06ca6351; 0x14292967;
   0x27b70a85; 0x2e1b2138; 0x4d2c6dfc; 0x53380d13; 0x650a7354; 0x766a0abb; 0x81c2c92e; 0x92722c85;
   0xa2bfe8a1; 0xa81a664b; 0xc24b8b70; 0xc76c51a3; 0xd192e819; 0xd6990624; 0xf40e3585; 0x106aa070;
   0x19a4c116; 0x1e376c08; 0x2748774c; 0x34b0bcb5; 0x391c0cb3; 0x4ed8aa4a; 0x5b9cca4f; 0x682e6ff3;
   0x748f82ee; 0x78a5636f; 0x84c87814; 0x8cc70208; 0x90befffa; 0xa4506ceb; 0xbef9a3f7; 0xc67178f2].

(** The message schedule, latest word first. *)
Fixpoint extend (n : nat) (w : list Z) : list Z :=
  match n with
  | O => w
  | S n =>
      let w2 := nth 1 w 0 in let w15 := nth 14 w 0 in
      let s0 := xor3 (rotr 7 w15) (rotr 18 w15) (Z.shiftr w15 3) in
      let s1 := xor3 (rotr 17 w2) (rotr 19 w2) (Z.shiftr w2 10) in
      extend n (u32 (nth 15 w 0 + s0 + nth 6 w 0 + s1) :: w)
  end.

Definition state : Type := Z * Z * Z * Z * (Z * Z * Z * Z).

Definition round (h : state) (kw : Z * Z) : state :=
  let '(a, b, c, d, (e, f, g, h)) := h in
  let s1 := xor3 (rotr 6 e) (rotr 11 e) (rotr 25 e) in
  let ch := Z.lxor (Z.land e f) (Z.land (Sha1.not32 e) g) in
  let t1 := h + s1 + ch + fst kw + snd kw in
  let s0 := xor3 (rotr 2 a) (rotr 13 a) (rotr 22 a) in
  let maj := xor3 (Z.land a b) (Z.land a c) (Z.land b c) in
  (u32 (t1 + s0 + maj), a, b, c, (u32 (d + t1), e, f, g)).

Definition block (h : state) (m : list byte) : state :=
  let w := rev (extend 48 (rev (map (fun b => Sha1.be_Z b 0) (Sha1.blocks 16 4 m)))) in
  let '(a, b, c, d, (e, f, g, i)) := h in
  let '(a', b', c', d', (e', f', g', i')) := fold_left round (combine K w) h in
  (u32 (a + a'), u32 (b + b'), u32 (c + c'), u32 (d + d'), (u32 (e + e'), u32 (f + f'), u32 (g + g'), u32 (i + i'))).

Definition Sum256 (m : list byte) : list byte :=
  let p := Sha1.pad m in
  let '(a, b, c, d, (e, f, g, h)) := fold_left block (Sha1.blocks (length p) 64 p)
    (0x6a09e667, 0xbb67ae85, 0x3c6ef372, 0xa54ff53a, (0x510e527f, 0x9b05688c, 0x1f83d9ab, 0x5be0cd19)) in
  concat (map (Sha1.be_bytes 4) [a; b; c; d; e; f; g; h]).

Lemma length_Sum256 m : length (Sum256 m) = 32%nat.
Proof.
  unfold Sum256. destruct (fold_left _ _ _) as [[[[a b] c] d] [[[e f] g] h]].
  unfold Sha1.be_bytes. cbn [map concat]. rewrite !length_app, !length_rev, !length_le_bytes. reflexivity.
Qed.

(** The vectors of FIPS 180: "", "abc" and the 448-bit message. *)
Example sha256_vectors :
  map (fun s => Sha1.hex_encode (Sum256 (list_byte_of_string s)))
    [""; "abc"; "abcdbcdecdefdefgefghfghighijhijkijkljklmklmnlmnomnopnopq"]%string
  = ["e3b0c44298fc1c149afbf4c8996fb92427ae41e4649b934ca495991b7852b855";
     "ba7816bf8f01cfea414140de5dae2223b00361a396177a9cb410ff61f20015ad";
     "248d6a61d20638b8e5c026930c3e6039a33ce45964ff2167f6ecedd419db06c1"]%string.
Proof. vm_compute. reflexivity. Qed.

End Sha256.
