(* ===== verification/Base64.v ===== *)
(** * Base64 without padding (package [encoding/base64], RawStdEncoding) *)
From S2P Require Import Prelude GoStrings GoUtf8.

Module Base64.

#[local] Ltac Zify.zify_post_hook ::= Z.to_euclidean_division_equations.

(** The alphabet: A-Z, a-z, 0-9, plus and slash. *)
Definition enc_char (v : Z) : ascii :=
  chr (if v <? 26 then 65 + v else if v <? 52 then 71 + v else if v <? 62 then v - 4 else if v =? 62 then 43 else 47).
Definition dec_char (c : ascii) : option Z :=
  let z := code c in
  if in_range 65 90 z then Some (z - 65)
  else if in_range 97 122 z then Some (z - 71)
  else if in_range 48 57 z then Some (z + 4)
  else if z =? 43 then Some 62 else if z =? 47 then Some 63 else None.

Definition str4 (a b c d : Z) (s : string) : string :=
  String (enc_char a) (String (enc_char b) (String (enc_char c) (String (enc_char d) s))).

Fixpoint EncodeToString (l : list byte) : string :=
  match l with
  | [] => ""%string
  | [a] => let v := Z_of_byte a * 16 in String (enc_char (v / 64)) (String (enc_char (v mod 64)) "")
  | [a; b] =>
      let v := (Z_of_byte a * 256 + Z_of_byte b) * 4 in
      String (enc_char (v / 4096)) (String (enc_char (v / 64 mod 64)) (String (enc_char (v mod 64)) ""))
  | a :: b :: c :: l =>
      let v := (Z_of_byte a * 256 + Z_of_byte b) * 256 + Z_of_byte c in
      str4 (v / 262144) (v / 4096 mod 64) (v / 64 mod 64) (v mod 64) (EncodeToString l)
  end.

(** The decoder skips carriage returns and line feeds, takes four characters
    at a time, and drops the unused low bits of a last group of two or three;
    a last group of one is an error. *)
Fixpoint values (s : string) : option (list Z) :=
  match s with
  | ""%string => Some []
  | String c s =>
      if (code c =? 10) || (code c =? 13) then values s
      else v ← dec_char c; l ← values s; Some (v :: l)
  end.

Fixpoint bytes (l : list Z) : option (list byte) :=
  match l with
  | [] => Some []
  | [_] => None
  | [a; b] => Some [byte_of_Z ((a * 64 + b) / 16)]
  | [a; b; c] => let v := (a * 64 + b) * 64 + c in Some [byte_of_Z (v / 1024); byte_of_Z (v / 4)]
  | a :: b :: c :: d :: l =>
      let v := ((a * 64 + b) * 64 + c) * 64 + d in
      r ← bytes l; Some (byte_of_Z (v / 65536) :: byte_of_Z (v / 256) :: byte_of_Z v :: r)
  end.

Definition DecodeString (s : string) : option (list byte) := l ← values s; bytes l.

(** ** Round trip *)
Lemma dec_enc_char v : 0 <= v < 64 ->
  dec_char (enc_char v) = Some v /\ code (enc_char v) <> 10 /\ code (enc_char v) <> 13 /\ code (enc_char v) <> 36.
Proof.
  intros Hv. assert (forallb (fun n => let v := Z.of_nat n in
    bool_decide (dec_char (enc_char v) = Some v) && negb (code (enc_char v) =? 10) && negb (code (enc_char v) =? 13)
    && negb (code (enc_char v) =? 36)) (seq 0 64) = true) as H by (vm_compute; reflexivity).
  rewrite forallb_forall in H. specialize (H (Z.to_nat v)). rewrite Z2Nat.id in H by lia.
  rewrite !andb_true_iff, bool_decide_eq_true, !negb_true_iff, !Z.eqb_neq in H.
  destruct H as [[[H1 H2] H3] H4]; [|tauto]. apply in_seq. lia.
Qed.

Lemma values_cons v s : 0 <= v < 64 -> values (String (enc_char v) s) = (l ← values s; Some (v :: l)).
Proof.
  intros Hv. destruct (dec_enc_char v Hv) as (H1 & H2 & H3 & _). cbn [values].
  rewrite (proj2 (Z.eqb_neq _ _) H2), (proj2 (Z.eqb_neq _ _) H3), H1. reflexivity.
Qed.

Lemma byte_div n b : n = Z_of_byte b -> byte_of_Z n = b.
Proof. intros ->. apply byte_of_Z_of_byte. Qed.

Lemma byte_range b : 0 <= Z_of_byte b < 256.
Proof. rewrite <- (byte_of_Z_of_byte b), Z_of_byte_of_Z. apply Z.mod_pos_bound. lia. Qed.

Lemma byte_low n b : n mod 256 = Z_of_byte b -> byte_of_Z n = b.
Proof.
  intros H. apply Z_of_byte_inj. rewrite Z_of_byte_of_Z. exact H.
Qed.

Lemma Decode_Encode l : DecodeString (EncodeToString l) = Some l.
Proof.
  unfold DecodeString.
  assert (H : exists vs, values (EncodeToString l) = Some vs /\ bytes vs = Some l);
    [|destruct H as (vs & -> & H); exact H].
  revert l. fix IH 1. intros [|a [|b [|c l]]].
  - exists []. auto.
  - pose proof (byte_range a). cbn [EncodeToString]. rewrite !values_cons by lia.
    eexists. split; [reflexivity|]. cbn [bytes]. do 2 f_equal. apply byte_low. lia.
  - pose proof (byte_range a). pose proof (byte_range b). cbn [EncodeToString]. rewrite !values_cons by lia.
    eexists. split; [reflexivity|]. cbn [bytes]. do 2 f_equal; [apply byte_low; lia|]. f_equal. apply byte_low. lia.
  - pose proof (byte_range a). pose proof (byte_range b). pose proof (byte_range c).
    destruct (IH l) as (vs & E1 & E2). cbn [EncodeToString]. unfold str4. rewrite !values_cons by lia. rewrite E1.
    eexists. split; [reflexivity|]. cbn [bytes]. rewrite E2. cbn. do 2 f_equal; [apply byte_low; lia|].
    f_equal; [apply byte_low; lia|]. f_equal. apply byte_low. lia.
Qed.

Definition no_dollar (s : string) : Prop := Forall (fun c => code c <> 36) (String.list_ascii_of_string s).

Lemma Encode_no_dollar l : no_dollar (EncodeToString l).
Proof.
  revert l. fix IH 1. intros [|a [|b [|c l]]]; unfold no_dollar; cbn [EncodeToString String.list_ascii_of_string str4];
    try pose proof (byte_range a); try pose proof (byte_range b); try pose proof (byte_range c);
    repeat (constructor; [apply dec_enc_char; lia|]); try constructor. apply IH.
Qed.

Example vectors :
  map (fun s => EncodeToString (list_byte_of_string s)) [""; "f"; "fo"; "foo"; "foob"; "fooba"; "foobar"]%string
  = [""; "Zg"; "Zm8"; "Zm9v"; "Zm9vYg"; "Zm9vYmE"; "Zm9vYmFy"]%string.
Proof. vm_compute. reflexivity. Qed.

End Base64.
