(* ===== verification/HllText.v ===== *)
(** * The text of a sketch in the footer of a segment
    (internal/eventstore/hll.go: MarshalText, UnmarshalHLL; base64 with
    padding, StdEncoding of package [encoding/base64]) *)
From S2P Require Import Prelude GoStrings GoUtf8 Hash Hll Base64.
#[local] Open Scope Z_scope.
#[local] Open Scope leser_scope.

Module HllText.

#[local] Ltac Zify.zify_post_hook ::= Z.to_euclidean_division_equations.

(** ** StdEncoding: the last group is padded to four characters *)
Definition pad_char : ascii := "="%char.
Definition padding (n : nat) : string :=
  match (n mod 3)%nat with 1%nat => "==" | 2%nat => "=" | _ => "" end.
Definition std_encode (l : list byte) : string := Base64.EncodeToString l +:+ padding (length l).

(** The decoder skips line breaks; padding may only end the text. *)
Definition is_break (c : ascii) : bool := (code c =? 10) || (code c =? 13).
Fixpoint std_groups (l : list ascii) : option (list byte) :=
  match l with
  | [] => Some []
  | a :: b :: c :: d :: l =>
      va ← Base64.dec_char a; vb ← Base64.dec_char b;
      if bool_decide (c = pad_char) then
        if bool_decide (d = pad_char) && bool_decide (l = []) then Base64.bytes [va; vb] else None
      else
        vc ← Base64.dec_char c;
        if bool_decide (d = pad_char) then
          if bool_decide (l = []) then Base64.bytes [va; vb; vc] else None
        else
          vd ← Base64.dec_char d; g ← Base64.bytes [va; vb; vc; vd]; r ← std_groups l; Some (g ++ r)
  | _ => None
  end.
Definition std_decode (s : string) : option (list byte) :=
  std_groups (List.filter (fun c => negb (is_break c)) (list_ascii_of_string s)).

(** ** The sketch: a register is a byte *)
Definition MarshalText (h : Hll.HLL) : string := std_encode (map byte_of_Z h).
Definition UnmarshalHLL (s : string) : option Hll.HLL :=
  b ← std_decode s; if negb (Nat.eqb (length b) Hll.hllM) then None else Some (map Z_of_byte b).

(** ** Round trip *)
Lemma enc_plain v : 0 <= v < 64 ->
  Base64.dec_char (Base64.enc_char v) = Some v /\ is_break (Base64.enc_char v) = false /\ Base64.enc_char v <> pad_char.
Proof.
  intros Hv. destruct (Base64.dec_enc_char v Hv) as (H1 & H2 & H3 & _). split_and!; [exact H1| |].
  - unfold is_break. rewrite (proj2 (Z.eqb_neq _ _) H2), (proj2 (Z.eqb_neq _ _) H3). reflexivity.
  - intros E. rewrite E in H1. discriminate.
Qed.

(** One full group of four characters. *)
Lemma std_group a b c d l : 0 <= a < 64 -> 0 <= b < 64 -> 0 <= c < 64 -> 0 <= d < 64 ->
  std_groups (Base64.enc_char a :: Base64.enc_char b :: Base64.enc_char c :: Base64.enc_char d :: l)
  = (g ← Base64.bytes [a; b; c; d]; r ← std_groups l; Some (g ++ r)).
Proof.
  intros Ha Hb Hc Hd. cbn [std_groups].
  destruct (enc_plain a Ha) as (-> & _ & _), (enc_plain b Hb) as (-> & _ & _),
    (enc_plain c Hc) as (Ec & _ & Nc), (enc_plain d Hd) as (Ed & _ & Nd).
  rewrite Ec, Ed, !bool_decide_false by assumption. reflexivity.
Qed.

(** The padded groups. *)
Lemma std_end1 a b : 0 <= a < 64 -> 0 <= b < 64 ->
  std_groups [Base64.enc_char a; Base64.enc_char b; pad_char; pad_char] = Base64.bytes [a; b].
Proof.
  intros Ha Hb. cbn [std_groups]. destruct (enc_plain a Ha) as (-> & _ & _), (enc_plain b Hb) as (-> & _ & _). reflexivity.
Qed.
Lemma std_end2 a b c : 0 <= a < 64 -> 0 <= b < 64 -> 0 <= c < 64 ->
  std_groups [Base64.enc_char a; Base64.enc_char b; Base64.enc_char c; pad_char] = Base64.bytes [a; b; c].
Proof.
  intros Ha Hb Hc. cbn [std_groups].
  destruct (enc_plain a Ha) as (-> & _ & _), (enc_plain b Hb) as (-> & _ & _), (enc_plain c Hc) as (E & _ & N).
  rewrite E, bool_decide_false by exact N. reflexivity.
Qed.

Lemma append_cons c s t : String c s +:+ t = String c (s +:+ t).
Proof. reflexivity. Qed.
Lemma append_nil t : "" +:+ t = t.
Proof. reflexivity. Qed.

Lemma std_decode_cons v s : 0 <= v < 64 ->
  List.filter (fun c => negb (is_break c)) (list_ascii_of_string (String (Base64.enc_char v) s))
  = Base64.enc_char v :: List.filter (fun c => negb (is_break c)) (list_ascii_of_string s).
Proof. intros Hv. cbn. destruct (enc_plain v Hv) as (_ & -> & _). reflexivity. Qed.

Lemma std_decode_encode l : std_decode (std_encode l) = Some l.
Proof.
  unfold std_decode, std_encode.
  assert (H : forall n l, (length l <= n)%nat ->
    std_groups (List.filter (fun c => negb (is_break c))
      (list_ascii_of_string (Base64.EncodeToString l +:+ padding (length l)))) = Some l); [|apply (H (length l)); lia].
  clear l. induction n as [|n IH]; intros l Hl.
  { destruct l; [reflexivity|simpl in Hl; lia]. }
  destruct l as [|a [|b [|c l]]]; [reflexivity| | |].
  - pose proof (Base64.byte_range a). cbn [Base64.EncodeToString]. set (v := Z_of_byte a * 16).
    assert (0 <= v / 64 < 64) by lia. assert (0 <= v mod 64 < 64) by lia.
    rewrite ?append_cons, ?append_nil. rewrite !std_decode_cons by lia.
    change (List.filter _ (list_ascii_of_string (padding _))) with [pad_char; pad_char].
    rewrite std_end1 by lia. cbn [Base64.bytes]. do 2 f_equal. apply Base64.byte_div. subst v. lia.
  - pose proof (Base64.byte_range a). pose proof (Base64.byte_range b). cbn [Base64.EncodeToString].
    set (v := (Z_of_byte a * 256 + Z_of_byte b) * 4).
    assert (0 <= v / 4096 < 64) by lia. assert (0 <= v / 64 mod 64 < 64) by lia. assert (0 <= v mod 64 < 64) by lia.
    rewrite ?append_cons, ?append_nil. rewrite !std_decode_cons by lia.
    change (List.filter _ (list_ascii_of_string (padding _))) with [pad_char].
    rewrite std_end2 by lia. cbn [Base64.bytes]. f_equal. f_equal; [apply Base64.byte_low|f_equal; apply Base64.byte_low]; subst v; lia.
  - pose proof (Base64.byte_range a). pose proof (Base64.byte_range b). pose proof (Base64.byte_range c).
    cbn [Base64.EncodeToString]. set (v := (Z_of_byte a * 256 + Z_of_byte b) * 256 + Z_of_byte c).
    assert (0 <= v / 262144 < 64) by lia. assert (0 <= v / 4096 mod 64 < 64) by lia.
    assert (0 <= v / 64 mod 64 < 64) by lia. assert (0 <= v mod 64 < 64) by lia.
    unfold Base64.str4. rewrite ?append_cons, ?append_nil. rewrite !std_decode_cons, std_group by lia.
    replace (padding (length (a :: b :: c :: l))) with (padding (length l)).
    + rewrite IH by (simpl in Hl; lia). cbn. do 2 f_equal; [apply Base64.byte_low; subst v; lia|].
      f_equal; [apply Base64.byte_low; subst v; lia|]. f_equal. apply Base64.byte_low. subst v. lia.
    + unfold padding. cbn [length]. replace (S (S (S (length l)))) with (length l + 1 * 3)%nat by lia.
      rewrite Nat.Div0.mod_add. reflexivity.
Qed.

(** A sketch of byte-sized registers survives the footer. *)
Lemma UnmarshalHLL_MarshalText h : length h = Hll.hllM -> Forall (fun r => 0 <= r < 256) h ->
  UnmarshalHLL (MarshalText h) = Some h.
Proof.
  intros Hl Hr. unfold UnmarshalHLL, MarshalText. rewrite std_decode_encode. cbn [mbind option_bind].
  rewrite length_map, Hl, Nat.eqb_refl. cbn [negb]. f_equal. rewrite map_map. clear Hl.
  induction Hr as [|r h H Hr IH]; [reflexivity|]. cbn [map]. rewrite IH. f_equal.
  rewrite Z_of_byte_of_Z. apply Z.mod_small. exact H.
Qed.

End HllText.
