(* ===== verification/Password.v ===== *)
(** * Passwords, tokens and session identifiers (internal/auth/password.go)

    Argon2 is a package of another module and stays a parameter: [None] is
    its panic on a zero number of rounds or threads. Random bytes are
    arguments. *)
From S2P Require Import Prelude GoStrings GoUtf8 Sha1 Sha256 Base64.
From stdpp Require Import pretty.
#[local] Open Scope string_scope.
#[local] Open Scope list_scope.
#[local] Open Scope Z_scope.
#[local] Open Scope leser_scope.

Module Auth.

Definition argonTime : Z := 3.
Definition argonMemory : Z := 64 * 1024.
Definition argonThreads : Z := 2.
Definition argonKeyLen : Z := 32.

(** ** [fmt.Sscanf(s, "m=%d,t=%d,p=%d", ...)] *)
Definition lit (l s : string) : option string :=
  if HasPrefix s l then Some (drop_str (String.length l) s) else None.

(** Spaces before a number are skipped, a newline is an error. *)
Fixpoint skip_space (fuel : nat) (s : string) : option string :=
  match fuel with
  | O => Some s
  | S fuel =>
      match s with
      | "" => Some ""
      | _ =>
          let '(r, n) := DecodeRune s in
          if r =? 10 then None else if is_space r then skip_space fuel (drop_str n s) else Some s
      end
  end.

Fixpoint digits (s : string) : string * string :=
  match s with
  | String c s' =>
      if in_range 48 57 (code c) then let '(a, b) := digits s' in (String c a, b) else ("", s)
  | "" => ("", "")
  end.

Definition scan_uint (bits : Z) (s : string) : option (Z * string) :=
  s ← skip_space (String.length s) s;
  let '(d, rest) := digits s in
  n ← ParseUint d;
  if n <? 2 ^ bits then Some (n, rest) else None.

Definition scan_params (s : string) : option (Z * Z * Z) :=
  s ← lit "m=" s; '(m, s) ← scan_uint 32 s;
  s ← lit ",t=" s; '(t, s) ← scan_uint 32 s;
  s ← lit ",p=" s; '(p, s) ← scan_uint 8 s;
  Some (m, t, p).

Section Passwords.
Context (IDKey : string -> list byte -> Z -> Z -> Z -> Z -> option (list byte)).

Definition phc (salt key : list byte) : string :=
  "$argon2id$v=19$m=" +:+ pretty argonMemory +:+ ",t=" +:+ pretty argonTime +:+ ",p=" +:+ pretty argonThreads
  +:+ "$" +:+ Base64.EncodeToString salt +:+ "$" +:+ Base64.EncodeToString key.

(** HashPassword; [None] is the panic of argon2. *)
Definition HashPassword (password : string) (salt : list byte) : option string :=
  key ← IDKey password salt argonTime argonMemory argonThreads argonKeyLen;
  Some (phc salt key).

(** VerifyPassword; [None] is the panic of argon2. *)
Definition VerifyPassword (password phc : string) : option bool :=
  match split_char "$" phc with
  | [_; alg; _; params; salt; key] =>
      if negb (bool_decide (alg = "argon2id")) then Some false
      else match scan_params params with
      | None => Some false
      | Some (m, t, p) =>
          match Base64.DecodeString salt with
          | None => Some false
          | Some salt =>
              match Base64.DecodeString key with
              | None => Some false
              | Some want =>
                  got ← IDKey password salt t m p (Z.of_nat (length want));
                  Some (bool_decide (got = want))
              end
          end
      end
  | _ => Some false
  end.

(** ** Hashing, then verifying *)
Lemma split_char_app s t :
  Base64.no_dollar s -> split_char "$" (s +:+ String "$" t) = s :: split_char "$" t.
Proof.
  induction s as [|c s IH]; [reflexivity|]. intros [Hc Hs]%Forall_cons.
  rewrite string_app_cons. cbn [split_char]. rewrite IH by exact Hs.
  rewrite bool_decide_eq_false_2; [reflexivity|]. intros ->. apply Hc. reflexivity.
Qed.

Lemma split_char_none s : Base64.no_dollar s -> split_char "$" s = [s].
Proof.
  induction s as [|c s IH]; [reflexivity|]. intros [Hc Hs]%Forall_cons. cbn [split_char].
  rewrite IH by exact Hs. rewrite bool_decide_eq_false_2; [reflexivity|]. intros ->. apply Hc. reflexivity.
Qed.

Lemma Verify_phc password salt key :
  VerifyPassword password (phc salt key)
  = (got ← IDKey password salt argonTime argonMemory argonThreads (Z.of_nat (length key));
     Some (bool_decide (got = key))).
Proof.
  unfold VerifyPassword.
  assert (E : split_char "$" (phc salt key)
    = [""; "argon2id"; "v=19"; "m=65536,t=3,p=2"; Base64.EncodeToString salt; Base64.EncodeToString key]).
  { change (phc salt key) with ("$argon2id$v=19$m=65536,t=3,p=2$" +:+ (Base64.EncodeToString salt +:+ "$" +:+ Base64.EncodeToString key)).
    set (t := Base64.EncodeToString salt +:+ _).
    change (split_char "$" ("$argon2id$v=19$m=65536,t=3,p=2$" +:+ t))
      with (split_char "$" ("" +:+ String "$" ("argon2id" +:+ String "$" ("v=19" +:+ String "$" ("m=65536,t=3,p=2" +:+ String "$" t))))).
    rewrite !split_char_app by (repeat (constructor; [discriminate|]); constructor). subst t.
    change ("$" +:+ Base64.EncodeToString key) with (String "$" (Base64.EncodeToString key)).
    rewrite split_char_app by apply Base64.Encode_no_dollar.
    rewrite split_char_none by apply Base64.Encode_no_dollar. reflexivity. }
  rewrite E. replace (scan_params "m=65536,t=3,p=2") with (Some (65536, 3, 2)) by (vm_compute; reflexivity).
  rewrite !Base64.Decode_Encode. reflexivity.
Qed.

(** Argon2 returns as many bytes as it is asked for. *)
Definition key_length_law : Prop :=
  forall pw salt t m p n k, IDKey pw salt t m p n = Some k -> Z.of_nat (length k) = n.

(** passwords. The stored text of a password verifies exactly the
    passwords with the same Argon2 key under its own salt: the password
    itself always, and another one only on a collision of the key. *)
Theorem verify_accepts_same_key (Hlen : key_length_law) pw salt h :
  HashPassword pw salt = Some h ->
  VerifyPassword pw h = Some true
  /\ forall pw', VerifyPassword pw' h
       = (got ← IDKey pw' salt argonTime argonMemory argonThreads argonKeyLen;
          Some (bool_decide (Some got = IDKey pw salt argonTime argonMemory argonThreads argonKeyLen))).
Proof.
  unfold HashPassword. destruct (IDKey pw salt _ _ _ _) as [key|] eqn:E; cbn; [|discriminate]. intros [= <-].
  assert (Hv : forall pw', VerifyPassword pw' (phc salt key)
    = (got ← IDKey pw' salt argonTime argonMemory argonThreads argonKeyLen; Some (bool_decide (Some got = Some key)))).
  { intros pw'. rewrite Verify_phc, (Hlen _ _ _ _ _ _ _ E).
    destruct (IDKey pw' salt _ _ _ _) as [got|]; [|reflexivity]. cbn. f_equal.
    apply bool_decide_ext. split; congruence. }
  split; [|exact Hv]. rewrite Hv, E. cbn. rewrite bool_decide_eq_true_2 by reflexivity. reflexivity.
Qed.
End Passwords.

(** ** Tokens *)
Definition TokenPrefix : string := "leser_pat_".

(** [hex.EncodeToString(sha256.Sum256(token))] *)
Definition HashToken (token : string) : string := Sha1.hex_encode (Sha256.Sum256 (list_byte_of_string token)).

(** NewToken of its 32 random bytes: the token, and the hash that is kept. *)
Definition NewToken (raw : list byte) : string * string :=
  let tok := TokenPrefix +:+ Sha1.hex_encode raw in (tok, HashToken tok).

Definition ValidateTokenShape (token : string) : bool :=
  HasPrefix token TokenPrefix && (strlen token =? strlen TokenPrefix + 64).

Definition NewSessionID (raw : list byte) : string := Sha1.hex_encode raw.

Lemma NewToken_shape raw : length raw = 32%nat -> ValidateTokenShape (fst (NewToken raw)) = true.
Proof.
  intros H. unfold ValidateTokenShape, NewToken. cbn [fst]. rewrite andb_true_iff. split; [generalize (Sha1.hex_encode raw); intros s; vm_compute; destruct s; reflexivity|].
  unfold strlen. rewrite string_length_app, Sha1.length_hex_encode, H. reflexivity.
Qed.

Example scan_examples :
  map scan_params ["m=65536,t=3,p=2"; "m= 8,t=1,p=1 rest"; "m=1,t=1,p=256"; "m=1,t=1"; "t=1,m=1,p=1"; "m=-1,t=1,p=1"]
  = [Some (65536, 3, 2); Some (8, 1, 1); None; None; None; None].
Proof. vm_compute. reflexivity. Qed.

(** A concrete key derivation: the password bytes cut or filled to length. *)
Definition toy_key (pw : string) (salt : list byte) (t m p n : Z) : option (list byte) :=
  if (t <? 1) || (p <? 1) || (n <? 0) then None
  else let l := list_byte_of_string pw ++ salt in
       Some (take (Z.to_nat n) (l ++ replicate (Z.to_nat n) x00)).

Lemma verify_accepts_same_key_witness :
  match HashPassword toy_key "secret" [x01; x02] with
  | Some h => VerifyPassword toy_key "secret" h = Some true
              /\ VerifyPassword toy_key "secreT" h = Some false
  | None => False
  end.
Proof.
  assert (Hlen : key_length_law toy_key).
  { intros pw salt t m p n k. unfold toy_key. destruct (_ || _) eqn:E; [discriminate|]. intros [= <-].
    rewrite length_take, length_app, length_replicate. apply orb_false_iff in E as [_ E]. lia. }
  destruct (HashPassword toy_key "secret" [x01; x02]) as [h|] eqn:E; [|discriminate E].
  destruct (verify_accepts_same_key toy_key Hlen _ _ _ E) as [H1 H2].
  split; [exact H1|rewrite H2; vm_compute; reflexivity].
Defined.

End Auth.
