(* ===== verification/Config.v ===== *)
(** * Configuration (internal/config/config.go)

    The environment is the function os.LookupEnv, and [ReadFile] is
    os.ReadFile with [None] for an error. *)
From S2P Require Import Prelude GoStrings GoUtf8 GoJson.
Import Json.
#[local] Open Scope string_scope.
#[local] Open Scope list_scope.
#[local] Open Scope Z_scope.
#[local] Open Scope leser_scope.

Module Config.

Record Config := mkConfig {
  ListenAddr : string; DataDir : string; LogLevel : string; PublicURL : string; SecretKey : string }.

Definition Default : Config := mkConfig ":8080" "./data" "info" "http://localhost:8080" "".

Definition set_ListenAddr v c := mkConfig v (DataDir c) (LogLevel c) (PublicURL c) (SecretKey c).
Definition set_DataDir v c := mkConfig (ListenAddr c) v (LogLevel c) (PublicURL c) (SecretKey c).
Definition set_LogLevel v c := mkConfig (ListenAddr c) (DataDir c) v (PublicURL c) (SecretKey c).
Definition set_PublicURL v c := mkConfig (ListenAddr c) (DataDir c) (LogLevel c) v (SecretKey c).
Definition set_SecretKey v c := mkConfig (ListenAddr c) (DataDir c) (LogLevel c) (PublicURL c) v.

Definition dec_config : decoder Config := dec_struct
  [field "listen_addr" ListenAddr set_ListenAddr dec_string; field "data_dir" DataDir set_DataDir dec_string;
   field "log_level" LogLevel set_LogLevel dec_string; field "public_url" PublicURL set_PublicURL dec_string;
   field "secret_key" SecretKey set_SecretKey dec_string].

Inductive config_error := ErrRead | ErrParse.

Section Load.
Context (ReadFile : string -> option string) (LookupEnv : string -> option string).

(** The configuration after the file, and the error. A file whose types do not
    fit has changed the other fields already. *)
Definition applyFile (path : string) (c : Config) : Config * option config_error :=
  match ReadFile path with
  | None => (c, Some ErrRead)
  | Some b => let '(c, ok) := Unmarshal dec_config b c in (c, if ok then None else Some ErrParse)
  end.

Definition set_env (set : string -> Config -> Config) (key : string) (c : Config) : Config :=
  match LookupEnv key with Some v => set v c | None => c end.

Definition applyEnv (c : Config) : Config :=
  let c := set_env set_ListenAddr "LESER_LISTEN" c in
  let c := set_env set_DataDir "LESER_DATA_DIR" c in
  let c := set_env set_LogLevel "LESER_LOG_LEVEL" c in
  let c := set_env set_PublicURL "LESER_PUBLIC_URL" c in
  set_env set_SecretKey "LESER_SECRET_KEY" c.

Definition Load (path : string) : Config * option config_error :=
  let c := Default in
  if bool_decide (path = "") then (applyEnv c, None)
  else match applyFile path c with
       | (c, Some e) => (c, Some e)
       | (c, None) => (applyEnv c, None)
       end.
End Load.

Definition redact (v : string) : string := if bool_decide (v = "") then "" else "***redacted***".

Definition Effective (c : Config) : gmap string string :=
  <["listen_addr" := ListenAddr c]> (<["data_dir" := DataDir c]> (<["log_level" := LogLevel c]>
    (<["public_url" := PublicURL c]> (<["secret_key" := redact (SecretKey c)]> ∅)))).

Inductive invalid := EmptyListen | EmptyDataDir | BadLogLevel (v : string).

Definition Validate (c : Config) : option invalid :=
  if bool_decide (TrimSpace (ListenAddr c) = "") then Some EmptyListen
  else if bool_decide (TrimSpace (DataDir c) = "") then Some EmptyDataDir
  else if bool_decide (LogLevel c ∈ ["debug"; "info"; "warn"; "error"]) then None
  else Some (BadLogLevel (LogLevel c)).

(** ** Precedence *)

(** What one layer says of a field: a present value hides the layer below. *)
Definition layer (upper : option string) (lower : string) : string := default lower upper.

(** The fields, their names in the file and in the environment. *)
Inductive fld := FListen | FData | FLevel | FURL | FSecret.
Definition json_name (f : fld) : string :=
  match f with FListen => "listen_addr" | FData => "data_dir" | FLevel => "log_level" | FURL => "public_url"
  | FSecret => "secret_key" end.
#[export] Instance fld_eq_dec : EqDecision fld.
Proof. solve_decision. Defined.
Definition env_name (f : fld) : string :=
  match f with FListen => "LESER_LISTEN" | FData => "LESER_DATA_DIR" | FLevel => "LESER_LOG_LEVEL"
  | FURL => "LESER_PUBLIC_URL" | FSecret => "LESER_SECRET_KEY" end.
Definition get (f : fld) (c : Config) : string :=
  match f with FListen => ListenAddr c | FData => DataDir c | FLevel => LogLevel c | FURL => PublicURL c
  | FSecret => SecretKey c end.
Definition set (f : fld) (v : string) (c : Config) : Config :=
  match f with FListen => set_ListenAddr v c | FData => set_DataDir v c | FLevel => set_LogLevel v c
  | FURL => set_PublicURL v c | FSecret => set_SecretKey v c end.

(** The last member of a JSON object that is the field and a string (null
    leaves the field alone); names are compared without case. *)
Definition file_value (f : fld) (l : list (string * json)) : option string :=
  fold_left (fun acc kv =>
    if bool_decide (fold_name (fst kv) = fold_name (json_name f))
    then match snd kv with JStr s => Some s | _ => acc end else acc) l None.

Lemma applyEnv_get env f c : get f (applyEnv env c) = layer (env (env_name f)) (get f c).
Proof.
  unfold applyEnv, set_env, layer. destruct f; cbn [env_name];
    destruct (env "LESER_LISTEN"), (env "LESER_DATA_DIR"), (env "LESER_LOG_LEVEL"), (env "LESER_PUBLIC_URL"),
      (env "LESER_SECRET_KEY"); reflexivity.
Qed.

(** The field a member's name selects. *)
Definition field_of (k : string) : option fld :=
  let F := fold_name k in
  if bool_decide (F = "LISTEN_ADDR") then Some FListen
  else if bool_decide (F = "DATA_DIR") then Some FData
  else if bool_decide (F = "LOG_LEVEL") then Some FLevel
  else if bool_decide (F = "PUBLIC_URL") then Some FURL
  else if bool_decide (F = "SECRET_KEY") then Some FSecret
  else None.

Definition dec_field (f : fld) : decoder Config := snd (field (json_name f) (get f) (set f) dec_string).
Definition config_fields : list (string * decoder Config) :=
  map (fun f => (json_name f, dec_field f)) [FListen; FData; FLevel; FURL; FSecret].

Lemma find_exact k : find_field (fun n k => bool_decide (n = k)) k config_fields
  = (if bool_decide ("listen_addr" = k) then Some (dec_field FListen)
     else if bool_decide ("data_dir" = k) then Some (dec_field FData)
     else if bool_decide ("log_level" = k) then Some (dec_field FLevel)
     else if bool_decide ("public_url" = k) then Some (dec_field FURL)
     else if bool_decide ("secret_key" = k) then Some (dec_field FSecret) else None).
Proof. reflexivity. Qed.

Lemma bool_decide_sym (a b : string) : bool_decide (a = b) = bool_decide (b = a).
Proof. apply bool_decide_ext. split; congruence. Qed.

Lemma find_folded k : find_field (fun n k => bool_decide (fold_name n = fold_name k)) k config_fields
  = dec_field <$> field_of k.
Proof.
  unfold config_fields, field_of. cbn [map find_field json_name].
  change (fold_name "listen_addr") with "LISTEN_ADDR". change (fold_name "data_dir") with "DATA_DIR".
  change (fold_name "log_level") with "LOG_LEVEL". change (fold_name "public_url") with "PUBLIC_URL".
  change (fold_name "secret_key") with "SECRET_KEY".
  rewrite !(bool_decide_sym _ (fold_name k)).
  repeat case_bool_decide; congruence || reflexivity.
Qed.

Lemma find_config_field (k : string) :
  match find_field (fun n k => bool_decide (n = k)) k config_fields with
  | Some d => Some d
  | None => find_field (fun n k => bool_decide (fold_name n = fold_name k)) k config_fields
  end = dec_field <$> field_of k.
Proof.
  rewrite find_exact, find_folded.
  repeat (match goal with |- context [bool_decide (?n = k)] =>
    destruct (bool_decide_reflect (n = k)) as [<-|]; [reflexivity|] end). reflexivity.
Qed.

Lemma field_of_spec k f : bool_decide (fold_name k = fold_name (json_name f)) = bool_decide (field_of k = Some f).
Proof.
  apply bool_decide_ext. unfold field_of. destruct f; cbn [json_name].
  - change (fold_name "listen_addr") with "LISTEN_ADDR". repeat case_bool_decide; split; congruence.
  - change (fold_name "data_dir") with "DATA_DIR". repeat case_bool_decide; split; congruence.
  - change (fold_name "log_level") with "LOG_LEVEL". repeat case_bool_decide; split; congruence.
  - change (fold_name "public_url") with "PUBLIC_URL". repeat case_bool_decide; split; congruence.
  - change (fold_name "secret_key") with "SECRET_KEY". repeat case_bool_decide; split; congruence.
Qed.


Lemma get_dec_field f g j c : get f (fst (dec_field g j c))
  = if bool_decide (Some g = Some f) then match j with JStr s => s | _ => get f c end else get f c.
Proof. destruct f, g, j; reflexivity. Qed.

Lemma dec_config_get f l c : get f (fst (dec_config (JObj l) c)) = layer (file_value f l) (get f c).
Proof.
  change dec_config with (dec_struct config_fields). unfold dec_struct, file_value.
  match goal with |- get _ (fst (fold_left ?step _ _)) = _ => set (st := step) end.
  assert (H : forall ok c0 acc, get f c0 = layer acc (get f c) ->
    get f (fst (fold_left st l (c0, ok))) = layer (fold_left (fun acc kv =>
      if bool_decide (fold_name (fst kv) = fold_name (json_name f))
      then match snd kv with JStr s => Some s | _ => acc end else acc) l acc) (get f c)).
  2:{ exact (H true c None eq_refl). }
  induction l as [|[k j] l IH]; intros ok c0 acc Hc; [exact Hc|]. cbn [fold_left].
  assert (Hst : exists ok', st (c0, ok) (k, j)
      = (match field_of k with Some g => fst (dec_field g j c0) | None => c0 end, ok')).
  { subst st. cbn [fst snd]. rewrite find_config_field. destruct (field_of k) as [g|]; cbn [fmap option_fmap option_map];
      [destruct (dec_field g j c0); eauto|eauto]. }
  destruct Hst as [ok' ->]. apply IH. cbn [fst snd]. rewrite field_of_spec.
  destruct (field_of k) as [g|]; [|case_bool_decide; [discriminate|exact Hc]].
  rewrite get_dec_field. case_bool_decide; [|exact Hc]. destruct j; try exact Hc. reflexivity.
Qed.

(** What is printed: the four plain fields and whether there is a secret. *)
Lemma Effective_get c :
  map (fun k => Effective c !! k) ["listen_addr"; "data_dir"; "log_level"; "public_url"; "secret_key"]
  = [Some (ListenAddr c); Some (DataDir c); Some (LogLevel c); Some (PublicURL c); Some (redact (SecretKey c))].
Proof. vm_compute. reflexivity. Qed.

Lemma Effective_eq c c' : Effective c = Effective c' <->
  (forall f, f <> FSecret -> get f c = get f c') /\ redact (SecretKey c) = redact (SecretKey c').
Proof.
  split.
  - intros E. pose proof (Effective_get c) as H. rewrite E, Effective_get in H. injection H as H1 H2 H3 H4 H5.
    split; [|congruence]. intros []; cbn; congruence.
  - intros [H H5]. pose proof (H FListen ltac:(discriminate)) as H1. pose proof (H FData ltac:(discriminate)) as H2.
    pose proof (H FLevel ltac:(discriminate)) as H3. pose proof (H FURL ltac:(discriminate)) as H4.
    unfold Effective. cbn [get] in *. congruence.
Qed.

(** The members of the file at [path]; another JSON value has none. *)
Definition members_of (b : string) : list (string * json) :=
  match parse b with Some (JObj l) => l | _ => [] end.

(** precedence and secrecy. Every field of a loaded configuration is the
    environment's value, else the file's, else the default; a file that
    cannot be read or has a value of another type is an error. What
    `config show` prints determines every field but the secret, and of the
    secret only whether it is empty. *)
Theorem Load_precedence ReadFile LookupEnv path c :
  Load ReadFile LookupEnv path = (c, None) ->
  (forall f, get f c = layer (LookupEnv (env_name f))
      (layer (if bool_decide (path = "") then None else b ← ReadFile path; file_value f (members_of b)) (get f Default)))
  /\ (forall c', Effective c = Effective c' <->
        (forall f, f <> FSecret -> get f c = get f c') /\ (SecretKey c = "" <-> SecretKey c' = "")).
Proof.
  intros H. split.
  - intros f. unfold Load in H. case_bool_decide as Ep.
    { injection H as <-. apply applyEnv_get. }
    unfold applyFile in H. destruct (ReadFile path) as [b|]; [|discriminate]. cbn.
    unfold Unmarshal in H. unfold members_of. destruct (parse b) as [j|] eqn:Ej; [|discriminate].
    destruct (dec_config j Default) as [c1 [|]] eqn:Ed; [|discriminate]. injection H as <-.
    rewrite applyEnv_get. f_equal. destruct j; try (injection Ed as <-; reflexivity); try discriminate.
    pose proof (dec_config_get f l Default) as Hd. rewrite Ed in Hd. exact Hd.
  - intros c'. rewrite Effective_eq. apply and_iff_compat_l. unfold redact. repeat case_bool_decide; intuition congruence.
Qed.

Definition sample_file : string :=
  "{" +:+ quoted "log_level" +:+ ":" +:+ quoted "debug" +:+ "," +:+ quoted "Data_Dir" +:+ ":" +:+ quoted "/f" +:+ "}".
Definition sample_env (k : string) : option string := if bool_decide (k = "LESER_DATA_DIR") then Some "/e" else None.

Lemma Load_precedence_witness :
  let c := fst (Load (fun _ => Some sample_file) sample_env "leser.json") in
  get FLevel c = "debug" /\ get FData c = "/e" /\ get FListen c = ":8080".
Proof.
  assert (E : Load (fun _ => Some sample_file) sample_env "leser.json"
    = (fst (Load (fun _ => Some sample_file) sample_env "leser.json"), None)) by (vm_compute; reflexivity).
  destruct (Load_precedence _ _ _ _ E) as [H _].
  cbv zeta. rewrite !H. vm_compute. auto.
Defined.

End Config.
