(* ===== verification/GoHttp.v ===== *)
(** * Requests, bodies and responses (package [net/http])

    A request is what the server hands to a handler, parsed: path values,
    query pairs, header values, the user of the basic authorization, cookies
    and the body. *)
From S2P Require Import Prelude GoStrings GoUtf8 GoJson.
#[local] Open Scope string_scope.
#[local] Open Scope list_scope.
#[local] Open Scope Z_scope.
#[local] Open Scope leser_scope.

Module Http.

(** A byte stream: its bytes and how it ends. *)
Inductive ending := EOF | TooLarge | Broken.
Record stream := mkStream { data : list byte; fin : ending }.

(** [http.MaxBytesReader]: [n] bytes, then an error if there is another. *)
Definition MaxBytesReader (n : Z) (s : stream) : stream :=
  let k := Z.to_nat n in
  if (k <? length (data s))%nat then mkStream (take k (data s)) TooLarge else s.

(** [io.ReadAll] of [io.LimitReader(s, n)]: the bytes, and the error of the
    stream when its end was reached. *)
Definition read_limited (n : Z) (s : stream) : list byte * ending :=
  let k := Z.to_nat n in
  if (k <=? length (data s))%nat then (take k (data s), EOF) else (data s, fin s).

Record Request := mkRequest {
  path_value : string -> string;
  query : list (string * string);
  header : string -> string;
  basic_user : option string;
  cookie : string -> option string;
  remote_addr : string;
  tls : bool;
  body : stream }.

(** [r.URL.Query().Get]. *)
Definition query_get (k : string) (r : Request) : string :=
  match List.find (fun p => bool_decide (fst p = k)) (query r) with Some (_, v) => v | None => "" end.

(** ** Numbers of a request

    [strconv.ParseInt] and [Atoi] with the error dropped: 0 for bad syntax,
    the nearest bound for a number out of range. *)
Definition parse_or_clamp (s : string) : Z :=
  let signed (neg : bool) (t : string) : Z :=
    match t with
    | "" => 0
    | _ => match parse_digits t 0 with
           | Some v => if neg then Z.max (- 2 ^ 63) (- v) else Z.min (2 ^ 63 - 1) v
           | None => 0
           end
    end in
  match s with
  | String c t =>
      if bool_decide (c = "-"%char) then signed true t
      else if bool_decide (c = "+"%char) then signed false t else signed false s
  | "" => 0
  end.

Lemma parse_or_clamp_ok s n : ParseInt s = Some n -> parse_or_clamp s = n.
Proof.
  unfold ParseInt, parse_or_clamp.
  assert (H : forall (neg : bool) (t : string), match t with "" => None | _ => match parse_digits t 0 with
      | Some v => if (v <? 2 ^ 63) || neg && (v =? 2 ^ 63) then Some (if neg then - v else v) else None
      | None => None end end = Some n ->
    match t with "" => 0 | _ => match parse_digits t 0 with
      | Some v => if neg then Z.max (- 2 ^ 63) (- v) else Z.min (2 ^ 63 - 1) v | None => 0 end end = n).
  { intros neg [|c t]; [discriminate|]. destruct (parse_digits _ 0) as [v|]; [|discriminate].
    destruct (_ || _) eqn:E; [|discriminate]. intros [= <-]. destruct neg; cbn [andb] in E; lia. }
  destruct s as [|c t]; [discriminate|]. cbv zeta. repeat case_bool_decide; [exact (H true t)|exact (H false t)|exact (H false (String c t))].
Qed.

(** ** [json.NewDecoder(body).Decode]: the first value of the stream. A value
    that is not closed by a bracket must be followed by a byte or by the end
    of the stream. *)
Definition closed (j : Json.json) : bool :=
  match j with Json.JObj _ | Json.JArr _ => true | _ => false end.

Definition decode_body {A} (d : Json.decoder A) (zero : A) (s : stream) : option A :=
  let t := string_of_list_byte (data s) in
  match Json.value (S (2 * String.length t)) 0 t with
  | Json.Ok j rest =>
      if closed j || negb (bool_decide (rest = "")) || match fin s with EOF => true | _ => false end
      then match d j zero with (v, true) => Some v | (_, false) => None end
      else None
  | _ => None
  end.

(** An int64 field. *)
Definition dec_int : Json.decoder Z := fun j old =>
  match j with
  | Json.JNull => (old, true)
  | Json.JNum lit => match ParseInt lit with Some n => (n, true) | None => (old, false) end
  | _ => (old, false)
  end.

(** ** Responses *)
Section Response.
Context {B : Type}.
Record Response := mkResponse { status : Z; headers : list (string * string); content : B }.
End Response.
#[global] Arguments Response : clear implicits.

Definition StatusOK : Z := 200.
Definition StatusBadRequest : Z := 400.
Definition StatusUnauthorized : Z := 401.
Definition StatusForbidden : Z := 403.
Definition StatusNotFound : Z := 404.
Definition StatusRequestEntityTooLarge : Z := 413.
Definition StatusTooManyRequests : Z := 429.
Definition StatusInternalServerError : Z := 500.
Definition StatusNotImplemented : Z := 501.
Definition StatusBadGateway : Z := 502.

Example form_decode_examples :
  map (fun x => decode_body dec_int 7 (mkStream (list_byte_of_string (fst x)) (snd x)))
    [("12", EOF); ("12", TooLarge); ("12 x", Broken); ("null", EOF); (" ", EOF); ("12.5", EOF)]
  = [Some 12; None; Some 12; Some 7; None; None].
Proof. vm_compute. reflexivity. Qed.

Example clamp_examples :
  map parse_or_clamp ["42"; "-7"; "+7"; ""; "x"; "99999999999999999999"; "-99999999999999999999"; "1_0"]
  = [42; -7; 7; 0; 0; 9223372036854775807; -9223372036854775808; 0].
Proof. vm_compute. reflexivity. Qed.

End Http.
