(* ===== verification/IngestHttp.v ===== *)
(** * The ingest endpoints (internal/ingest/http.go)

    One request is a step of the handler's state: the counters of the
    pipeline, the key cache and the rate limiter; and of the log's state [L],
    which only Append changes. What the rest of the world does is its [input]:
    the database the key is looked up in, the clock readings, and what Append
    does with the log and answers. The decompressors are parameters, from
    stream to stream; [None] is a bad header. *)
From S2P Require Import Prelude GoStrings GoUtf8 GoFloat GoJson GoHttp Grouping Envelope Lru RateLimit.
From S2P Require Import Pipeline Monad Sql MetaDb.
From stdpp Require Import pretty.
Import Http.
#[local] Open Scope string_scope.
#[local] Open Scope list_scope.
#[local] Open Scope Z_scope.
#[local] Open Scope leser_scope.

Module Ingest.

Definition DropTooLarge : string := "too_large".
Definition DropAuth : string := "auth".

Record Handler := mkHandler {
  h_pipe : Pipeline.Pipeline; h_lim : Envelope.Limits; keyLRU : Lru.LRU Meta.ProjectKey;
  limiter : RateLimit.Limiter }.

Definition keyTTL : Z := 60 * 1000000000.

Definition NewHandler (p : Pipeline.Pipeline) (lim : Envelope.Limits) : Handler :=
  mkHandler p (Envelope.defaults lim) (Lru.New (Z.shiftl 4 20) keyTTL)
    (RateLimit.New RateLimit.DefaultLimit 10000).

Definition set_pipe p h := mkHandler p (h_lim h) (keyLRU h) (limiter h).
Definition set_lru c h := mkHandler (h_pipe h) (h_lim h) c (limiter h).
Definition set_limiter l h := mkHandler (h_pipe h) (h_lim h) (keyLRU h) l.
Definition drop (reason : string) h := set_pipe (Pipeline.drop_ reason (h_pipe h)) h.

Record input {L : Type} := mkInput {
  i_db : @Sql.St Meta.DB; i_get : Z; i_set : Z; i_allow0 : Z; i_allow : Z;
  i_append : byte -> list byte -> L -> L * Pipeline.append_answer }.
Arguments input : clear implicits.

(** ** Authentication *)
Definition lookupKey {L} (pub : string) (i : input L) (h : Handler) : Handler * (Sql.sql_error + Meta.ProjectKey) :=
  let '(c, r) := Lru.Get pub (i_get i) (keyLRU h) in
  let h := set_lru c h in
  match r with
  | Some k => (h, inr k)
  | None =>
      match snd (Meta.LookupKey pub (i_db i)) with
      | inl e => (h, inl e)
      | inr k =>
          (set_lru (Lru.Set_ pub k (strlen pub + strlen (Meta.k_PublicKey k) + 64) (i_set i) (keyLRU h)) h, inr k)
      end
  end.

Definition TrimPrefix (s pre : string) : string :=
  if HasPrefix s pre then drop_str (String.length pre) s else s.

Fixpoint header_key (parts : list string) : option string :=
  match parts with
  | [] => None
  | part :: parts =>
      match Cut "=" (TrimSpace part) with
      | Some (k, v) => if bool_decide (k = "sentry_key") then Some (TrimSpace v) else header_key parts
      | None => header_key parts
      end
  end.

Definition sentryAuthKey (r : Request) : string :=
  let h := header r "X-Sentry-Auth" in
  match (if bool_decide (h = "") then None else header_key (split_char "," (TrimPrefix h "Sentry "))) with
  | Some k => k
  | None =>
      let k := query_get "sentry_key" r in
      if negb (bool_decide (k = "")) then k else default "" (basic_user r)
  end.

(** ** The body *)
Inductive body_error := Malformed (reason : string) | BodyTooLarge.

Definition Reply : Type := Response (list (string * string)).
Definition jsonError (status : Z) (hs : list (string * string)) (msg : string) : Reply :=
  mkResponse status hs [("detail", msg)].

Section Handle.
Context (gunzip inflate : stream -> option stream) (unzstd : Z -> stream -> option stream)
  (lower_rune : Z -> Z) (convert_out_of_range : float64 -> Z).

Definition decompress (enc : string) (max : Z) (raw : stream) : body_error + stream :=
  let opened reason (o : option stream) := match o with Some s => inr s | None => inl (Malformed reason) end in
  if bool_decide (enc = "") || bool_decide (enc = "identity") then inr raw
  else if bool_decide (enc = "gzip") then opened "bad gzip stream" (gunzip raw)
  else if bool_decide (enc = "deflate") then opened "bad deflate stream" (inflate raw)
  else if bool_decide (enc = "zstd") then opened "bad zstd stream" (unzstd max raw)
  else inl (Malformed "unsupported content-encoding").

Definition readBody (r : Request) (h : Handler) : body_error + list byte :=
  let max := Envelope.MaxEnvelopeBytes (h_lim h) in
  let raw := MaxBytesReader max (body r) in
  match decompress (Grouping.ToLower lower_rune (header r "Content-Encoding")) max raw with
  | inl e => inl e
  | inr rd =>
      let '(b, err) := read_limited (i64 (max + 1)) rd in
      match err with
      | TooLarge => inl BodyTooLarge
      | Broken => inl (Malformed "truncated body")
      | EOF => if max <? Z.of_nat (length b) then inl BodyTooLarge else inr b
      end
  end.

(** The event id of a single event, for the answer. *)
Definition probe (b : list byte) : string :=
  fst (Json.Unmarshal (Json.dec_struct [Json.field "event_id" (fun s => s) (fun v _ => v) Json.dec_string])
         (string_of_list_byte b) "").

(** [int(retry.Seconds() + 0.5)] *)
Definition retry_secs (retry : Z) : Z :=
  let f := f_add (RateLimit.Seconds retry) (f_div (f_of_Z 1) (f_of_Z 2)) in
  match f_trunc (- 2 ^ 63) (2 ^ 63) f with Some z => z | None => convert_out_of_range f end.

(** ** The handler of one record kind *)
Definition handle {L} (kind : byte) (r : Request) (i : input L) (log : L) (h : Handler) : L * Handler * Reply :=
  match ParseInt (path_value r "project_id") with
  | None => (log, h, jsonError StatusNotFound [] "unknown project")
  | Some projectID =>
  let pub := sentryAuthKey r in
  if bool_decide (pub = "") then (log, drop DropAuth h, jsonError StatusUnauthorized [] "missing sentry_key")
  else
  let '(h, key) := lookupKey pub i h in
  let wrong := (log, drop DropAuth h, jsonError StatusForbidden [] "invalid sentry_key for project") in
  match key with
  | inl _ => wrong
  | inr key =>
  if negb (Meta.k_ProjectID key =? projectID) then wrong
  else
  let '(l, (ok, retry)) := RateLimit.Allow convert_out_of_range projectID (i_allow0 i) (i_allow i) (limiter h) in
  let h := set_limiter l h in
  if negb ok then
    let secs := pretty (retry_secs retry) in
    (log, drop Pipeline.DropOverloaded h,
     jsonError StatusTooManyRequests [("Retry-After", secs); ("X-Sentry-Rate-Limits", secs +:+ "::project")] "project over quota")
  else
  match readBody r h with
  | inl (Malformed reason) => (log, drop Pipeline.DropMalformed h, jsonError StatusBadRequest [] reason)
  | inl BodyTooLarge => (log, drop DropTooLarge h, jsonError StatusRequestEntityTooLarge [] "payload too large")
  | inr b =>
  let '(log, p, res) := Pipeline.Submit (i_append i) kind projectID b log (h_pipe h) in
  let h := set_pipe p h in
  match res with
  | Pipeline.ErrOverloaded =>
      (log, h, jsonError StatusTooManyRequests [("Retry-After", "30"); ("X-Sentry-Rate-Limits", "30::organization")]
                 "over quota, retry later")
  | Pipeline.SubmitErr => (log, h, jsonError StatusInternalServerError [] "ingest failure")
  | Pipeline.Accepted =>
      let eventID := if Byte.eqb kind Pipeline.recEventJSON then probe b else "" in
      (log, h, mkResponse StatusOK [] [("id", eventID)])
  end
  end
  end
  end.
End Handle.

(** The two routes. *)
Definition routes : list (string * byte) :=
  [("POST /api/{project_id}/envelope/", Pipeline.recEnvelope); ("POST /api/{project_id}/store/", Pipeline.recEventJSON)].

End Ingest.
