(* ===== verification/IngestHttpProps.v ===== *)
(** * The ingest endpoints: what an answer means, and how long a key lives

    The log of an answer is the modelled one: Append is a call in the system
    of [WalConc], with any other calls and the writer at work meanwhile. *)
From S2P Require Import Prelude GoStrings GoUtf8 GoFloat GoJson GoHttp Grouping Envelope Lru RateLimit.
From S2P Require Import Pipeline Monad Sql MetaDb IngestHttp WalSegment Wal WalInv WalRun WalProps WalConc WalConcProps.
Import Http Ingest.
#[local] Open Scope string_scope.
#[local] Open Scope list_scope.
#[local] Open Scope Z_scope.
#[local] Open Scope leser_scope.

Module IngestHttpProps.

Section Props.
Context (gunzip inflate : stream -> option stream) (unzstd : Z -> stream -> option stream)
  (lower_rune : Z -> Z) (convert_out_of_range : float64 -> Z).

Notation handle := (handle gunzip inflate unzstd lower_rune convert_out_of_range).
Context {L : Type}.
Notation readBody := (readBody gunzip inflate unzstd lower_rune).

Definition drops_of (h : Handler) : gmap string Z := Pipeline.drops (h_pipe h).
Definition counted (reason : string) (h h' : Handler) : Prop :=
  drops_of h' = <[reason := u64 (default 0 (drops_of h !! reason) + 1)]> (drops_of h).

(** The drop reason each refusal is counted under; 404 and 500 are not
    counted. *)
Definition reason_of (status : Z) : option string :=
  if (status =? 401) || (status =? 403) then Some DropAuth
  else if status =? 429 then Some Pipeline.DropOverloaded
  else if status =? 413 then Some DropTooLarge
  else if status =? 400 then Some Pipeline.DropMalformed
  else None.

Lemma lookupKey_keeps pub (i : input L) h :
  let h' := fst (lookupKey pub i h) in
  h_pipe h' = h_pipe h /\ h_lim h' = h_lim h /\ limiter h' = limiter h.
Proof.
  unfold lookupKey. destruct (Lru.Get _ _ _) as [c [k|]]; [auto|].
  destruct (snd (Meta.LookupKey _ _)); auto.
Qed.

Lemma readBody_bound r h b : readBody r h = inr b ->
  Z.of_nat (length b) <= Envelope.MaxEnvelopeBytes (h_lim h).
Proof.
  unfold Ingest.readBody. destruct (decompress _ _ _ _ _ _) as [|s]; [discriminate|].
  destruct (read_limited _ s) as [l [| |]]; try discriminate.
  destruct (Z.ltb_spec (Envelope.MaxEnvelopeBytes (h_lim h)) (Z.of_nat (length l))); [discriminate|].
  intros [= <-]. assumption.
Qed.

Lemma readBody_lim r h h' : h_lim h' = h_lim h -> readBody r h' = readBody r h.
Proof. unfold Ingest.readBody. intros ->. reflexivity. Qed.

(** What a 200 answer took: the key belongs to the project, the limiter and
    the lag of the consumer admitted the request, the decompressed body [b] is
    within the limit. *)
Definition admitted (r : Request) (i : input L) (h : Handler) (pid : Z) (b : list byte) : Prop :=
  ParseInt (path_value r "project_id") = Some pid
  /\ sentryAuthKey r <> "" /\ (exists key, snd (lookupKey (sentryAuthKey r) i h) = inr key /\ Meta.k_ProjectID key = pid)
  /\ fst (snd (RateLimit.Allow convert_out_of_range pid (i_allow0 i) (i_allow i) (limiter h))) = true
  /\ readBody r h = inr b /\ Z.of_nat (length b) <= Envelope.MaxEnvelopeBytes (h_lim h)
  /\ Pipeline.consumerLag (h_pipe h) <= Pipeline.MaxLag (Pipeline.popts (h_pipe h)).

(** The drop a refusal is counted as. *)
Definition refused (st : Z) (h h' : Handler) : Prop :=
  match reason_of st with
  | Some reason => counted reason h h'
  | None => (st = 404 \/ st = 500) /\ drops_of h' = drops_of h
  end.

(** Before Append is called, a request is refused and the log untouched; once
    it is called, the answer is Append's, and so is what happened to the log. *)
Definition answered (kind : byte) (r : Request) (i : input L) (log : L) (h : Handler) (x : L * Handler * Reply) : Prop :=
  let '(log', h', rep) := x in
  h_lim h' = h_lim h
  /\ ((log' = log /\ status rep <> 200 /\ refused (status rep) h h')
      \/ exists pid b a, admitted r i h pid b
           /\ i_append i kind (Pipeline.record_of kind pid b) log = (log', a)
           /\ match a with
              | Pipeline.AppendOk _ => status rep = 200 /\ drops_of h' = drops_of h
              | Pipeline.AppendDeadline => status rep = 429 /\ refused 429 h h'
              | Pipeline.AppendErr => status rep = 500 /\ refused 500 h h'
              end).

Lemma answered_refused kind r i log h reason st hs msg h2 :
  reason_of st = Some reason -> st <> 200 -> h_lim h2 = h_lim h -> h_pipe h2 = h_pipe h ->
  answered kind r i log h (log, drop reason h2, jsonError st hs msg).
Proof.
  intros Hr Hs H2 H3. split; [exact H2|left]. cbn. unfold refused. rewrite Hr.
  unfold counted, drops_of. cbn. rewrite H3. auto.
Qed.

Lemma handle_answers kind r (i : input L) log h : answered kind r i log h (handle kind r i log h).
Proof.
  unfold Ingest.handle. destruct (ParseInt _) as [pid|] eqn:Ep;
    [|split; [reflexivity|left; repeat split; [discriminate|left; reflexivity]]].
  case_bool_decide as Epub; [apply answered_refused; auto; discriminate|].
  pose proof (lookupKey_keeps (sentryAuthKey r) i h) as Hk. cbv zeta in Hk.
  destruct (lookupKey (sentryAuthKey r) i h) as [h1 key] eqn:El. cbn [fst snd] in *.
  destruct Hk as (K1 & K2 & K3).
  destruct key as [e|key]; [apply answered_refused; auto; discriminate|].
  destruct (Z.eqb_spec (Meta.k_ProjectID key) pid) as [Hp|]; cbn [negb]; [|apply answered_refused; auto; discriminate].
  rewrite K3. destruct (RateLimit.Allow _ _ _ _ _) as [l [ok retry]] eqn:Ea.
  destruct ok; cbn [negb]; [|apply answered_refused; auto; discriminate].
  rewrite (readBody_lim r h (set_limiter l h1) K2).
  destruct (readBody r h) as [[reason|]|b] eqn:Eb; [apply answered_refused; auto; discriminate..|].
  cbn [set_limiter h_pipe]. unfold Pipeline.Submit. rewrite K1.
  destruct (Z.ltb_spec (Pipeline.MaxLag (Pipeline.popts (Pipeline.add_received (h_pipe h))))
              (Pipeline.consumerLag (Pipeline.add_received (h_pipe h)))) as [|Hlag];
    [split; [exact K2|left; repeat split; discriminate]|].
  assert (Hadm : admitted r i h pid b).
  { unfold admitted. rewrite El, Ea. split_and!; auto; [exists key; auto|]. rewrite <- (readBody_bound r h b Eb). lia. }
  destruct (i_append i kind (Pipeline.record_of kind pid b) log) as [log' a] eqn:Eap.
  destruct a; (split; [exact K2|right]); exists pid, b; eexists; (split; [exact Hadm|split; [exact Eap|]]);
    repeat split. right. reflexivity.
Qed.
End Props.

(** ** The answer and the concurrent log *)

(** What Submit is told of a call's result: an ended context is a deadline or
    a cancellation. *)
Definition told (x : WalConc.result) (a : Pipeline.append_answer) : Prop :=
  match x, a with
  | WalConc.Answer (inr o), Pipeline.AppendOk o' => o' = o
  | WalConc.Answer (inl _), Pipeline.AppendErr => True
  | WalConc.CtxDone, (Pipeline.AppendDeadline | Pipeline.AppendErr) => True
  | _, _ => False
  end.

(** The append of the input is a call of the log's Append from [log] on. *)
Definition is_append (kind : byte) (i : input WalConc.Sys) (log : WalConc.Sys) : Prop :=
  forall p log' a, i_append i kind p log = (log', a) ->
    exists x, WalConcProps.appends (Wal.mkReq kind p) log log' x /\ told x a.

Section Log.
Context (gunzip inflate : stream -> option stream) (unzstd : Z -> stream -> option stream)
  (lower_rune : Z -> Z) (convert_out_of_range : float64 -> Z).

(** C23: the answer to an ingest request, its append a call of the concurrent
    log's Append from any reachable state of a log that was intact, on a
    working disk. 200 means that the key belongs to the project, the limiter
    and the consumer's lag admitted the request, the decompressed body is
    within the limit, and exactly this record is in the log, on disk unless
    the policy is SyncInterval; nothing is counted as dropped. A request that
    is refused before Append is called leaves the log alone, and is counted as
    one drop under the reason of its status, except for a 404. A request
    refused after it has status 429, counted, or 500, not counted, and says
    nothing of the record, which may have been written all the same. *)
Theorem answers_are_accounted w0 kind r i log h :
  WalInv.wal_wf w0 -> Wal.d_io w0 = [] -> - 2 ^ 63 <= Wal.d_now w0 < 2 ^ 63 ->
  rtc WalConc.step (WalConc.init w0) log -> is_append kind i log ->
  let '(log', h', rep) := handle gunzip inflate unzstd lower_rune convert_out_of_range kind r i log h in
  Wal.next (Wal.log w0) + Z.of_nat (length (WalConc.calls log')) < 2 ^ 64 ->
  h_lim h' = h_lim h
  /\ if status rep =? 200
     then exists pid b off rec, admitted gunzip inflate unzstd lower_rune convert_out_of_range r i h pid b
       /\ rtc WalConc.step log log'
       /\ WalInv.log_records (WalConc.w log') !! Z.to_nat (off - Wal.OldestOffset (Wal.log w0)) = Some rec
       /\ Segment.Offset rec = off /\ Segment.Type_ rec = kind /\ Segment.Payload rec = Pipeline.record_of kind pid b
       /\ (Wal.Policy (Wal.opts (Wal.log w0)) <> Wal.SyncInterval -> rec ∈ WalInv.durable_records (WalConc.w log'))
       /\ drops_of h' = drops_of h
     else refused (status rep) h h'
       /\ (log' = log
           \/ exists pid b x, admitted gunzip inflate unzstd lower_rune convert_out_of_range r i h pid b
                /\ WalConcProps.appends (Wal.mkReq kind (Pipeline.record_of kind pid b)) log log' x
                /\ (forall o, x <> WalConc.Answer (inr o)) /\ (status rep = 429 \/ status rep = 500)).
Proof.
  intros Hwf Hio Hnow Hs Happ.
  pose proof (handle_answers gunzip inflate unzstd lower_rune convert_out_of_range kind r i log h) as H.
  destruct (handle _ _ _ _ _ kind r i log h) as [[log' h'] rep]. intros Hb.
  destruct H as (Hl & [(-> & Hst & Hr)|(pid & b & a & Hadm & Ea & H)]); (split; [exact Hl|]).
  { destruct (Z.eqb_spec (status rep) 200); [contradiction|auto]. }
  destruct (Happ _ _ _ Ea) as (x & Hx & Ht).
  destruct a as [off| |]; destruct H as [-> Hd]; cbn [Z.eqb Pos.eqb].
  - destruct x as [[e|o]|]; cbn in Ht; try contradiction. subst off.
    destruct (WalConcProps.appends_record w0 _ log log' o Hwf Hio Hnow Hs Hx Hb) as (rec & R1 & R2 & R3 & R4 & R5).
    exists pid, b, o, rec. split_and!; auto. apply Hx.
  - split; [exact Hd|right]. exists pid, b, x. split_and!; auto. intros o ->. exact Ht.
  - split; [exact Hd|right]. exists pid, b, x. split_and!; auto. intros o ->. exact Ht.
Qed.
End Log.

Section Age.
Context (gunzip inflate : stream -> option stream) (unzstd : Z -> stream -> option stream)
  (lower_rune : Z -> Z) (convert_out_of_range : float64 -> Z) {L : Type}.
Notation handle := (handle gunzip inflate unzstd lower_rune convert_out_of_range).
Notation readBody := (readBody gunzip inflate unzstd lower_rune).

(** ** The age of a key *)
Definition step : Type := byte * Request * input L.
Definition after (steps : list step) (log : L) (h : Handler) : L * Handler :=
  fold_left (fun (x : L * Handler) (s : step) => fst (handle (fst (fst s)) (snd (fst s)) (snd s) (fst x) (snd x))) steps (log, h).

(** The lookups behind the cache. *)
Definition looked_up (j : input L) (pub : string) (k : Meta.ProjectKey) : Prop :=
  k ∈ Meta.keys (Sql.db (i_db j)) /\ Meta.k_PublicKey k = pub /\ Meta.k_Active k = true.

Lemma LookupKey_ok pub s k : snd (Meta.LookupKey pub s) = inr k ->
  k ∈ Meta.keys (Sql.db s) /\ Meta.k_PublicKey k = pub /\ Meta.k_Active k = true.
Proof.
  unfold Meta.LookupKey, Sql.or_not_found, Sql.query_row, Sql.query, bind, try, get, ret, throw.
  destruct (Sql.stmt s) as [s1 [e|u]] eqn:E; cbn; [destruct e; discriminate|].
  rewrite (Sql.stmt_db _ _ _ E).
  destruct (List.find _ _) as [k'|] eqn:Ef; cbn; [|discriminate]. intros [= <-].
  apply List.find_some in Ef as [Hin Hk]. apply andb_true_iff in Hk as [H1%bool_decide_eq_true H2].
  split; [apply list_elem_of_In; exact Hin|auto].
Qed.

Definition cache_ok (js : list (input L)) (c : Lru.LRU Meta.ProjectKey) : Prop :=
  Lru.good c /\ Lru.ttl c = keyTTL
  /\ forall e, e ∈ Lru.entries c -> exists j, j ∈ js /\ looked_up j (Lru.key e) (Lru.val e)
       /\ Lru.expires e = i_set j + keyTTL.

Lemma elem_of_without k es (e : Lru.entry Meta.ProjectKey) : e ∈ Lru.without k es -> e ∈ es.
Proof. unfold Lru.without. rewrite !list_elem_of_In, filter_In. tauto. Qed.

Lemma elem_of_fit es (e : Lru.entry Meta.ProjectKey) : forall room, e ∈ Lru.fit room es -> e ∈ es.
Proof.
  induction es as [|x es IH]; intros room; cbn [Lru.fit]; [auto|]. destruct (_ <=? _); [|intros H; inversion H].
  rewrite !elem_of_cons. intros [->|H]; eauto.
Qed.

Lemma cache_ok_mono js js' c : cache_ok js c -> cache_ok (js ++ js') c.
Proof.
  intros (H1 & H2 & H3). split_and!; auto. intros e He. destruct (H3 e He) as (j & Hj & H). exists j.
  split; [apply elem_of_app; auto|exact H].
Qed.

(** One lookup keeps the cache, and its answer was read from the database now
    or less than a minute before. *)
Lemma lookupKey_ok js pub i h : cache_ok js (keyLRU h) ->
  cache_ok (js ++ [i]) (keyLRU (fst (lookupKey pub i h)))
  /\ forall k, snd (lookupKey pub i h) = inr k ->
       looked_up i pub k \/ exists j, j ∈ js /\ looked_up j pub k /\ i_get i <= i_set j + keyTTL.
Proof.
  intros (Hg & Ht & He). unfold lookupKey. pose proof (Lru.Get_ok pub (i_get i) (keyLRU h) Hg) as Hget.
  destruct (Lru.Get pub (i_get i) (keyLRU h)) as [c r]. destruct Hget as (Hg' & _ & Ht' & Hs).
  rewrite Ht in Hs, Ht'. unfold Lru.spec_get in Hs.
  assert (Hc : cache_ok js c).
  { split_and!; auto. intros e Hin. apply He. clear -Hs Hin.
    destruct (Lru.lookup_key pub (Lru.entries (keyLRU h))) as [en|] eqn:El; [|injection Hs as Hs _; rewrite Hs; exact Hin].
    destruct (_ && _); injection Hs as Hs _; rewrite <- Hs in Hin; [apply (elem_of_without _ _ _ Hin)|].
    apply elem_of_cons in Hin as [->|Hin]; [|apply (elem_of_without _ _ _ Hin)].
    unfold Lru.lookup_key in El. apply List.find_some in El as [El _]. apply list_elem_of_In, El. }
  destruct r as [k|]; cbn [fst snd].
  - split; [apply cache_ok_mono, Hc|]. intros k' [= <-]. right.
    destruct (Lru.lookup_key pub (Lru.entries (keyLRU h))) as [en|] eqn:El; [|discriminate].
    destruct ((0 <? keyTTL) && _) eqn:Ex; [discriminate|]. injection Hs as _ <-.
    unfold Lru.lookup_key in El. apply List.find_some in El as [Hin Hk]. apply bool_decide_eq_true in Hk.
    destruct (He en) as (j & Hj & Hl & Hx); [apply list_elem_of_In, Hin|]. exists j. rewrite Hk in Hl.
    split_and!; auto. rewrite <- Hx. change (0 <? keyTTL) with true in Ex. cbn [andb] in Ex. lia.
  - destruct (snd (Meta.LookupKey pub (i_db i))) as [e|k] eqn:Elk; cbn [fst snd];
      [split; [apply cache_ok_mono, Hc|discriminate]|].
    apply LookupKey_ok in Elk. split; [|intros k' [= <-]; left; exact Elk].
    cbn [set_lru keyLRU]. destruct Hc as (Cg & Ct & Ce).
    destruct (Lru.Set_ok pub k (strlen pub + strlen (Meta.k_PublicKey k) + 64) (i_set i) c Cg) as (S1 & _ & S3 & S4).
    split_and!; [exact S1|congruence|]. intros e Hin. change (e ∈ Lru.entries (Lru.Set_ pub k (strlen pub + strlen (Meta.k_PublicKey k) + 64) (i_set i) c)) in Hin.
    rewrite S4 in Hin. destruct (Lru.maxBytes c <? _).
    + destruct (Ce e Hin) as (j & Hj & H). exists j. split; [apply elem_of_app; auto|exact H].
    + apply elem_of_fit, elem_of_cons in Hin as [->|Hin].
      * exists i. cbn. split_and!; [apply elem_of_app; right; left|exact Elk|rewrite Ct; reflexivity].
      * apply elem_of_without in Hin. destruct (Ce e Hin) as (j & Hj & H). exists j.
        split; [apply elem_of_app; auto|exact H].
Qed.

Lemma handle_cache kind r (i : input L) log h :
  keyLRU (snd (fst (handle kind r i log h))) = keyLRU h
  \/ keyLRU (snd (fst (handle kind r i log h))) = keyLRU (fst (lookupKey (sentryAuthKey r) i h)).
Proof.
  unfold Ingest.handle. destruct (ParseInt _) as [pid|]; [|auto]. case_bool_decide; [auto|]. right.
  destruct (lookupKey _ i h) as [h1 [e|key]]; [reflexivity|]. destruct (negb _); [reflexivity|].
  destruct (RateLimit.Allow _ _ _ _ _) as [l [ok retry]]. destruct (negb ok); [reflexivity|].
  destruct (readBody r _) as [[reason|]|b]; [reflexivity..|].
  destruct (Pipeline.Submit _ _ _ _ _ _) as [[log' p] []]; reflexivity.
Qed.

Lemma after_cache steps : forall js log h, cache_ok js (keyLRU h) ->
  cache_ok (js ++ map snd steps) (keyLRU (snd (after steps log h))).
Proof.
  induction steps as [|[[kind r] i] steps IH]; intros js log h Hc; [rewrite app_nil_r; exact Hc|].
  unfold after. cbn [fold_left map snd fst]. change (i :: map snd steps) with ([i] ++ map snd steps). rewrite app_assoc.
  pose proof (handle_cache kind r i log h) as Hk.
  destruct (handle kind r i log h) as [[log' h'] rep]. cbn [fst snd] in Hk |- *.
  apply (IH (js ++ [i]) log' h'). destruct Hk as [->| ->]; [apply cache_ok_mono, Hc|apply lookupKey_ok, Hc].
Qed.

(** C24: an accepted request presented a key that was active for its project
    in the database when it was handled, or when an earlier request of this
    handler looked the key up, at most a minute before: a revoked key is
    refused after at most a minute. *)
Theorem revoked_keys_stop p lim steps log0 kind r i :
  let x := after steps log0 (NewHandler p lim) in
  status (snd (handle kind r i (fst x) (snd x))) = 200 ->
  exists pid k, ParseInt (path_value r "project_id") = Some pid /\ Meta.k_ProjectID k = pid
    /\ (looked_up i (sentryAuthKey r) k
        \/ exists j, j ∈ map snd steps /\ looked_up j (sentryAuthKey r) k /\ i_get i <= i_set j + keyTTL).
Proof.
  intros x H. assert (Hc : cache_ok (map snd steps) (keyLRU (snd x))).
  { apply (after_cache steps []). split_and!; [apply Lru.New_good; reflexivity|reflexivity|].
    intros e He. inversion He. }
  destruct x as [log h]. cbn [fst snd] in *.
  unfold Ingest.handle in H. destruct (ParseInt _) as [pid|]; [|discriminate H].
  case_bool_decide; [discriminate H|].
  destruct (lookupKey_ok _ (sentryAuthKey r) i h Hc) as [_ Hl].
  destruct (lookupKey _ i h) as [h1 [e|key]]; [discriminate H|].
  destruct (Z.eqb_spec (Meta.k_ProjectID key) pid); cbn [negb] in H; [|discriminate H].
  exists pid, key. split_and!; auto.
Qed.
End Age.

(** ** A run: the key is revoked between two requests; the second is within
    the minute. *)
Definition key7 (active : bool) : Meta.DB :=
  Meta.set_keys [Meta.mkKey 1 7 1 "abc" active] Meta.empty.
Definition req : Request :=
  mkRequest (fun _ => "7") [("sentry_key", "abc")] (fun _ => "") None (fun _ => None) "" false
    (mkStream (list_byte_of_string "{}") EOF).
Definition no_codec : stream -> option stream := fun _ => None.
Definition pipe0 : Pipeline.Pipeline := Pipeline.NewPipeline (Pipeline.mkOptions 0 0 0 0) (Envelope.mkLimits 0 0 0) false.

(** Append as the only call: what [WalConcProps.solo] does, an ended context
    taken for the deadline. *)
Definition solo_append (kind : byte) (p : list byte) (log : WalConc.Sys) : WalConc.Sys * Pipeline.append_answer :=
  let '(log', x) := WalConcProps.solo (Wal.mkReq kind p) log in
  (log', match x with
         | WalConc.Answer (inr o) => Pipeline.AppendOk o
         | WalConc.Answer (inl _) => Pipeline.AppendErr
         | WalConc.CtxDone => Pipeline.AppendDeadline
         end).
Definition at_time (t : Z) (active : bool) : input WalConc.Sys :=
  mkInput _ (Sql.mkSt (key7 active) [] []) t t t t solo_append.
Definition log0 : WalConc.Sys := WalConc.init WalProps.ex_open.

Lemma solo_is_append kind t active log : is_append kind (at_time t active) log.
Proof.
  intros p log' a E. cbn in E. unfold solo_append in E. pose proof (WalConcProps.solo_appends (Wal.mkReq kind p) log) as H.
  destruct (WalConcProps.solo _ log) as [log1 x]. injection E as <- <-. exists x. split; [exact H|].
  destruct x as [[e|o]|]; cbn; auto.
Qed.

Notation ex_handle := (Ingest.handle no_codec no_codec (fun _ => no_codec) (fun r => r) (fun _ => 0)).

Definition ex_answer : WalConc.Sys * Handler * Reply :=
  ex_handle Pipeline.recEventJSON req (at_time 5 true) log0 (NewHandler pipe0 (Envelope.mkLimits 0 0 0)).

Example ex_answered : status (snd ex_answer) = 200 /\ length (WalConc.calls (fst (fst ex_answer))) = 1%nat
  /\ ParseInt (path_value req "project_id") = Some 7
  /\ Ingest.readBody no_codec no_codec (fun _ => no_codec) (fun r => r) req (NewHandler pipe0 (Envelope.mkLimits 0 0 0))
      = inr (list_byte_of_string "{}").
Proof. vm_compute. auto. Qed.

Lemma answers_are_accounted_witness :
  status (snd ex_answer) = 200 /\ drops_of (snd (fst ex_answer)) = ∅
  /\ exists off rec, WalInv.log_records (WalConc.w (fst (fst ex_answer))) !! Z.to_nat (off - Wal.OldestOffset (Wal.log WalProps.ex_open)) = Some rec
       /\ Segment.Offset rec = off
       /\ Segment.Payload rec = Pipeline.record_of Pipeline.recEventJSON 7 (list_byte_of_string "{}")
       /\ rec ∈ WalInv.durable_records (WalConc.w (fst (fst ex_answer))).
Proof.
  pose proof (answers_are_accounted no_codec no_codec (fun _ => no_codec) (fun r => r) (fun _ => 0) WalProps.ex_open
    Pipeline.recEventJSON req (at_time 5 true) log0 (NewHandler pipe0 (Envelope.mkLimits 0 0 0))
    (proj1 WalProps.ex_open_wf) (proj2 WalProps.ex_open_wf) WalConcProps.ex_clock (rtc_refl _ _) (solo_is_append _ _ _ _)) as H.
  destruct ex_answered as (E1 & E2 & E3 & E4). split; [exact E1|].
  fold ex_answer in H. destruct ex_answer as [[log' h'] rep]. cbn [fst snd] in *. rewrite E2, E1 in H.
  destruct (H ltac:(reflexivity)) as (_ & pid & b & off & rec & (A1 & _ & _ & _ & A5 & _) & _ & R1 & R2 & _ & R4 & R5 & D).
  rewrite E3 in A1. injection A1 as <-. rewrite E4 in A5. injection A5 as <-.
  split; [exact D|]. exists off, rec. split_and!; auto.
Defined.

Definition status_at (t : Z) : Z :=
  let '(log, h) := after no_codec no_codec (fun _ => no_codec) (fun r => r) (fun _ => 0)
    [(Pipeline.recEventJSON, req, at_time 0 true)] log0 (NewHandler pipe0 (Envelope.mkLimits 0 0 0)) in
  status (snd (ex_handle Pipeline.recEventJSON req (at_time t false) log h)).

Example revoked_after_a_minute : status_at 60000000000 = 200 /\ status_at 60000000001 = 403.
Proof. vm_compute. auto. Qed.

Lemma revoked_keys_stop_witness :
  exists pid k, ParseInt "7" = Some pid /\ Meta.k_ProjectID k = pid
    /\ (looked_up (at_time 60000000000 false) "abc" k
        \/ exists j, j ∈ [at_time 0 true] /\ looked_up j "abc" k /\ 60000000000 <= i_set j + keyTTL).
Proof.
  apply (revoked_keys_stop no_codec no_codec (fun _ => no_codec) (fun r => r) (fun _ => 0) pipe0
    (Envelope.mkLimits 0 0 0) [(Pipeline.recEventJSON, req, at_time 0 true)] log0 Pipeline.recEventJSON req (at_time 60000000000 false)).
  vm_compute. reflexivity.
Defined.

End IngestHttpProps.
