(* ===== verification/Api.v ===== *)
(** * The REST API (internal/api/api.go)

    A handler is a transaction-monad computation over the metadata store: it
    runs its database calls in order, each with its own fault, and answers.
    The closures that main wires in (status, statistics, events, fingerprints,
    DSN, owner lookup) are fields of [API], as in the source. The clock
    readings and random bytes of a request are its [input]. *)
From S2P Require Import Prelude GoSort GoStrings GoUtf8 GoJson GoHttp Grouping Sha1 Monad Sql.
From S2P Require Import MetaDb MetaIssues MetaAuth Alerts Authz Password Search.
From stdpp Require Import pretty.
Import Http Sql Meta.
#[local] Open Scope string_scope.
#[local] Open Scope list_scope.
#[local] Open Scope Z_scope.
#[local] Open Scope leser_scope.

Module Api.

Notation T := (Tx DB).

Definition SessionCookie : string := "leser_session".
Definition SessionTTL : Z := 7 * 24 * 3600 * 1000000000.

(** ** Answers *)
Inductive payload :=
  | PErr (msg : string) | PErrSql (e : sql_error) | PErrSearch (e : Search.search_error)
  | PFields (kvs : list (string * string)) | PMe (user org : Z) (role : string)
  | PProjects (l : list (ProjectInfo * option string)) | PIssues (l : list Issue) | PIssue (i : Issue)
  | PRules (l : list AlertRow) | PAudit (l : list AuditEntry) | PId (id : Z) | PToken (id : Z) (plain : string)
  | PAny (json : string).

Record Cookie := mkCookie { c_value : string; c_maxAge : Z; c_secure : bool }.

(** What the client sees: an answer of this node, one proxied from the owner
    of the project, or the panic of a handler. *)
Inductive outcome :=
  | Served (node : option string) (status : Z) (p : payload) (c : option Cookie)
  | Proxied (addr : string)
  | Panicked.

Definition reply (status : Z) (p : payload) : outcome := Served None status p None.
Definition writeErr (status : Z) (msg : string) : outcome := reply status (PErr msg).
Definition writeJSON (p : payload) : outcome := reply StatusOK p.

Record input := mkInput { i_now : Z; i_now2 : Z; i_rnd : list byte }.

(** ** The API and its closures; an absent one is nil, a failing one errs *)
Record API := mkAPI {
  StatusFn : string; ConfigFn : string;
  StatsFn : option (Z -> Z -> Z -> Z -> option string);
  EventsFn : option (Z -> string -> Z -> option string);
  DSNFor : option (string -> Z -> string);
  FingerprintsFn : option (Z -> string -> string -> string -> option (list string));
  Locator : option (Z -> option string);
  NodeID : string }.

Section Handlers.
Context (IDKey : string -> list byte -> Z -> Z -> Z -> Z -> option (list byte))
  (lower_rune : Z -> Z) (url_Parse_ok : string -> bool).
Context `{!SliceSort (key_le Issues.newest_first)} `{!SliceSort (key_le MetaAuth.newest_entry)}.

Definition Handler : Type := API -> option Authz.AuthContext -> Request -> input -> T outcome.

(** A handler that reads its authorization context: nil panics. *)
Definition with_ctx (actx : option Authz.AuthContext) (k : Authz.AuthContext -> T outcome) : T outcome :=
  match actx with Some a => k a | None => ret Panicked end.

(** [errors.Is(err, ErrNotFound)] first, then the other errors. *)
Definition answer {A} (r : sql_error + A) (other : sql_error -> outcome) (k : A -> T outcome) : T outcome :=
  match r with
  | inr a => k a
  | inl ErrNotFound => ret (writeErr StatusNotFound "not found")
  | inl e => ret (other e)
  end.
Definition internal (msg : string) (e : sql_error) : outcome := writeErr StatusInternalServerError msg.
Definition bad_request (e : sql_error) : outcome := reply StatusBadRequest (PErrSql e).
Definition bad_body : outcome := writeErr StatusBadRequest "bad request body".

Definition path_int (name : string) (r : Request) : Z := parse_or_clamp (path_value r name).
Definition query_int (name : string) (r : Request) : Z := parse_or_clamp (query_get name r).

(** clientIP: the address up to its last colon. *)
Fixpoint last_colon (s : string) : option nat :=
  match s with
  | "" => None
  | String c s =>
      match last_colon s with
      | Some i => Some (S i)
      | None => if bool_decide (c = ":"%char) then Some 0%nat else None
      end
  end.
Definition clientIP (r : Request) : string :=
  match last_colon (remote_addr r) with
  | Some (S i) => take_str (S i) (remote_addr r)
  | _ => remote_addr r
  end.

(** audit: an error is only logged. *)
Definition audit (r : Request) (i : input) (orgID actorID : Z) (action target detail : string) : T unit :=
  let! _ := try (MetaAuth.Audit (mkAudit orgID actorID action target detail (clientIP r) (header r "User-Agent") 0) (i_now2 i)) in
  ret tt.

(** ** Login, logout, me *)
Record login_req := mkLogin { lr_Email : string; lr_Password : string }.
Definition dec_login : Json.decoder login_req := Json.dec_struct
  [Json.field "email" lr_Email (fun v q => mkLogin v (lr_Password q)) Json.dec_string;
   Json.field "password" lr_Password (fun v q => mkLogin (lr_Email q) v) Json.dec_string].

Definition dummy_hash : string :=
  "$argon2id$v=19$m=65536,t=3,p=2$AAAAAAAAAAAAAAAAAAAAAA$AAAAAAAAAAAAAAAAAAAAAAAAAAAAAAAAAAAAAAAAAAA".

Definition handleLogin : Handler := fun a _ r i =>
  match decode_body dec_login (mkLogin "" "") (MaxBytesReader 4096 (body r)) with
  | None => ret bad_body
  | Some req =>
      let! u := try (MetaAuth.UserByEmail lower_rune (lr_Email req)) in
      let hash := match u with inr u => u_PasswordHash u | inl _ => dummy_hash end in
      match Auth.VerifyPassword IDKey (lr_Password req) hash, u with
      | None, _ => ret Panicked
      | Some true, inr u =>
          let sid := Auth.NewSessionID (i_rnd i) in
          let! c := try (MetaAuth.CreateSession sid (u_ID u) SessionTTL (i_now i)) in
          match c with
          | inl _ => ret (writeErr StatusInternalServerError "session")
          | inr _ =>
              audit r i (u_OrgID u) (u_ID u) "login.success" (u_Email u) "" ;;
              ret (Served None StatusOK (PFields [("email", u_Email u); ("role", u_Role u)])
                     (Some (mkCookie sid (Z.quot SessionTTL 1000000000) (tls r))))
          end
      | Some _, _ =>
          audit r i 0 0 "login.failed" (lr_Email req) "" ;;
          ret (writeErr StatusUnauthorized "invalid credentials")
      end
  end.

Definition session_cookie (r : Request) : option string :=
  match cookie r SessionCookie with
  | Some v => if bool_decide (v = "") then None else Some v
  | None => None
  end.

Definition handleLogout : Handler := fun a _ r i =>
  (match session_cookie r with
   | Some v => let! _ := try (MetaAuth.RevokeSession v) in ret tt
   | None => ret tt
   end) ;;
  ret (Served None StatusOK (PFields [("status", "ok")]) (Some (mkCookie "" (-1) false))).

Definition handleMe : Handler := fun a actx r i =>
  with_ctx actx (fun c => ret (writeJSON (PMe (Authz.UserID c) (Authz.OrgID c) (Authz.Role c)))).

(** ** Projects, statistics *)
Definition handleProjects : Handler := fun a actx r i =>
  let! ps := try ListProjects in
  match ps with
  | inl e => ret (internal "list projects" e)
  | inr ps =>
      with_ctx actx (fun c =>
        ret (writeJSON (PProjects
          (map (fun p => (p, (fun f => f (snd p) (p_ID (fst p))) <$> DSNFor a))
             (List.filter (fun p => p_OrgID (fst p) =? Authz.OrgID c) ps)))))
  end.

Definition day : Z := 24 * 3600 * 1000000000.

Definition handleStats : Handler := fun a actx r i =>
  match StatsFn a with
  | None => ret (writeErr StatusNotImplemented "stats not wired")
  | Some f =>
      let tmin := query_int "since" r in
      let tmin := if tmin =? 0 then i64 (i_now i - day) else tmin in
      ret (match f (path_int "project_id" r) tmin (query_int "until" r) (query_int "bucket" r) with
           | None => writeErr StatusInternalServerError "aggregate"
           | Some st => writeJSON (PAny st)
           end)
  end.

(** ** Issues *)

(** The filter of a query, or the answer that refuses it. *)
Definition issue_filter (a : API) (pid : Z) (r : Request) : outcome + Issues.IssueFilter :=
  let st := query_get "status" r in
  let q := query_get "query" r in
  if bool_decide (q = "") then inr (Issues.mkFilter st "" "" "" None)
  else match Search.Parse lower_rune q with
  | inl e => inl (reply StatusBadRequest (PErrSearch e))
  | inr p =>
      let f fps := Issues.mkFilter (if bool_decide (Search.Status p = "") then st else Search.Status p)
                     (Search.Level p) (Search.Text p) (Search.Fingerprint p) fps in
      if negb (Search.NeedsEventLookup p) then inr (f None)
      else match FingerprintsFn a with
      | None => inl (writeErr StatusNotImplemented "event-backed search not wired")
      | Some fn =>
          match fn pid (Search.Release p) (Search.Environment p) (Search.UserID p) with
          | None => inl (writeErr StatusInternalServerError "event search")
          | Some fps => inr (f (Some fps))
          end
      end
  end.

Definition handleIssueList : Handler := fun a actx r i =>
  let pid := path_int "project_id" r in
  match issue_filter a pid r with
  | inl out => ret out
  | inr f =>
      let! l := try (Issues.ListIssuesFiltered pid f (query_int "limit" r)) in
      ret (match l with inl e => internal "list issues" e | inr l => writeJSON (PIssues l) end)
  end.

Definition handleIssueGet : Handler := fun a actx r i =>
  let! iss := try (Issues.GetIssue (path_int "project_id" r) (path_int "issue_id" r)) in
  answer iss (internal "get issue") (fun iss => ret (writeJSON (PIssue iss))).

Definition handleIssueEvents : Handler := fun a actx r i =>
  match EventsFn a with
  | None => ret (writeErr StatusNotImplemented "events not wired")
  | Some f =>
      let pid := path_int "project_id" r in
      let! iss := try (Issues.GetIssue pid (path_int "issue_id" r)) in
      answer iss (internal "get issue") (fun iss =>
        let limit := query_int "limit" r in
        let limit := if (limit <=? 0) || (50 <? limit) then 5 else limit in
        ret (match f pid (i_Fingerprint iss) limit with
             | None => writeErr StatusInternalServerError "events"
             | Some evs => writeJSON (PAny evs)
             end))
  end.

Definition dec_status : Json.decoder string := Json.dec_struct
  [Json.field "status" (fun s => s) (fun v _ => v) Json.dec_string].

Definition handleIssueStatus : Handler := fun a actx r i =>
  let pid := path_int "project_id" r in
  let iid := path_int "issue_id" r in
  match decode_body dec_status "" (MaxBytesReader 1024 (body r)) with
  | None => ret bad_body
  | Some st =>
      let! res := try (Issues.SetIssueStatus pid iid st) in
      answer res bad_request (fun _ => with_ctx actx (fun c =>
        audit r i (Authz.OrgID c) (Authz.UserID c) "issue.status" (pretty iid) st ;;
        ret (writeJSON (PFields [("status", st)]))))
  end.

Record merge_req := mkMerge { mr_Target : Z; mr_Sources : list Z }.
Definition dec_merge : Json.decoder merge_req := Json.dec_struct
  [Json.field "target_id" mr_Target (fun v q => mkMerge v (mr_Sources q)) dec_int;
   Json.field "source_ids" mr_Sources (fun v q => mkMerge (mr_Target q) v) (Json.dec_list dec_int 0)].

Definition handleIssueMerge : Handler := fun a actx r i =>
  let pid := path_int "project_id" r in
  match decode_body dec_merge (mkMerge 0 []) (MaxBytesReader (Z.shiftl 64 10) (body r)) with
  | None | Some (mkMerge _ []) => ret (writeErr StatusBadRequest "target_id and source_ids required")
  | Some req =>
      if 100 <? Z.of_nat (length (mr_Sources req)) then ret (writeErr StatusBadRequest "too many sources (max 100)")
      else
        let! res := try (Issues.MergeIssues pid (mr_Target req) (mr_Sources req)) in
        answer res bad_request (fun _ => with_ctx actx (fun c =>
          audit r i (Authz.OrgID c) (Authz.UserID c) "issue.merge" (pretty (mr_Target req)) "" ;;
          ret (writeJSON (PFields [("status", "merged")]))))
  end.

Definition handleIssueSplit : Handler := fun a actx r i =>
  let iid := path_int "issue_id" r in
  let! res := try (Issues.SplitIssue (path_int "project_id" r) iid) in
  answer res (internal "split") (fun _ => with_ctx actx (fun c =>
    audit r i (Authz.OrgID c) (Authz.UserID c) "issue.split" (pretty iid) "" ;;
    ret (writeJSON (PFields [("status", "split")])))).

(** ** Alert rules *)
Definition handleAlertList : Handler := fun a actx r i =>
  let! rules := try (MetaAlerts.ListAlertRules (path_int "project_id" r)) in
  ret (match rules with inl e => internal "list alerts" e | inr l => writeJSON (PRules l) end).

Record alert_req := mkAlertReq { ar_Name : string; ar_Condition : string; ar_Threshold : Z; ar_URL : string }.
Definition dec_alert : Json.decoder alert_req := Json.dec_struct
  [Json.field "name" ar_Name (fun v q => mkAlertReq v (ar_Condition q) (ar_Threshold q) (ar_URL q)) Json.dec_string;
   Json.field "condition" ar_Condition (fun v q => mkAlertReq (ar_Name q) v (ar_Threshold q) (ar_URL q)) Json.dec_string;
   Json.field "threshold" ar_Threshold (fun v q => mkAlertReq (ar_Name q) (ar_Condition q) v (ar_URL q)) dec_int;
   Json.field "webhook_url" ar_URL (fun v q => mkAlertReq (ar_Name q) (ar_Condition q) (ar_Threshold q) v) Json.dec_string].

Definition handleAlertCreate : Handler := fun a actx r i =>
  let pid := path_int "project_id" r in
  match decode_body dec_alert (mkAlertReq "" "" 0 "") (MaxBytesReader 8192 (body r)) with
  | None => ret bad_body
  | Some q => with_ctx actx (fun c =>
      let! res := try (MetaAlerts.CreateAlertRule
        (mkAlert 0 (Authz.OrgID c) pid (ar_Name q) (ar_Condition q) (ar_Threshold q) (ar_URL q) true)) in
      match res with
      | inl e => ret (bad_request e)
      | inr id =>
          audit r i (Authz.OrgID c) (Authz.UserID c) "alert.create" (ar_Name q) (ar_Condition q) ;;
          ret (writeJSON (PId id))
      end)
  end.

Definition handleAlertDelete : Handler := fun a actx r i =>
  let rid := path_int "rule_id" r in
  let! res := try (MetaAlerts.DeleteAlertRule (path_int "project_id" r) rid) in
  answer res (internal "delete alert") (fun _ => with_ctx actx (fun c =>
    audit r i (Authz.OrgID c) (Authz.UserID c) "alert.delete" (pretty rid) "" ;;
    ret (writeJSON (PFields [("status", "deleted")])))).

(** ** Operations, audit, tokens *)
Definition handleOpsStatus : Handler := fun a _ _ _ => ret (writeJSON (PAny (StatusFn a))).
Definition handleOpsConfig : Handler := fun a _ _ _ => ret (writeJSON (PAny (ConfigFn a))).

Definition handleAudit : Handler := fun a actx r i => with_ctx actx (fun c =>
  let! l := try (MetaAuth.AuditList (Authz.OrgID c) (query_int "limit" r)) in
  ret (match l with inl e => internal "audit" e | inr l => writeJSON (PAudit l) end)).

Record token_req := mkTokenReq { tr_Name : string; tr_Permissions : list string; tr_Days : Z }.
Definition dec_token : Json.decoder token_req := Json.dec_struct
  [Json.field "name" tr_Name (fun v q => mkTokenReq v (tr_Permissions q) (tr_Days q)) Json.dec_string;
   Json.field "permissions" tr_Permissions (fun v q => mkTokenReq (tr_Name q) v (tr_Days q)) (Json.dec_list Json.dec_string "");
   Json.field "expires_days" tr_Days (fun v q => mkTokenReq (tr_Name q) (tr_Permissions q) v) dec_int].

(** The expiry: [time.Duration] wraps at 64 bits. *)
Definition expiry (days now : Z) : Z := if 0 <? days then i64 (now + i64 (days * day)) else 0.

Definition handleTokenCreate : Handler := fun a actx r i =>
  match decode_body dec_token (mkTokenReq "" [] 0) (MaxBytesReader 4096 (body r)) with
  | None => ret (writeErr StatusBadRequest "name required")
  | Some q =>
      if bool_decide (tr_Name q = "") then ret (writeErr StatusBadRequest "name required")
      else
        let '(plain, hash) := Auth.NewToken (i_rnd i) in
        with_ctx actx (fun c =>
          let! res := try (MetaAuth.CreateToken
            (MetaAuth.mkAPIToken 0 (Authz.OrgID c) (Authz.UserID c) (tr_Name q) (tr_Permissions q)
               (expiry (tr_Days q) (i_now i))) hash) in
          match res with
          | inl e => ret (internal "token" e)
          | inr id =>
              audit r i (Authz.OrgID c) (Authz.UserID c) "token.create" (tr_Name q) "" ;;
              ret (writeJSON (PToken id plain))
          end)
  end.

Definition handleTokenRevoke : Handler := fun a actx r i =>
  let tid := path_int "token_id" r in
  with_ctx actx (fun c =>
    let! res := try (MetaAuth.RevokeToken (Authz.OrgID c) tid) in
    answer res (internal "revoke") (fun _ =>
      audit r i (Authz.OrgID c) (Authz.UserID c) "token.revoke" (pretty tid) "" ;;
      ret (writeJSON (PFields [("status", "revoked")])))).

(** ** The route table *)
Record Route := mkRoute {
  Method : string; Path : string; Perm : Authz.Permission; Public : bool; Project : bool; Handle : Handler }.

Definition Routes : list Route :=
  let public m p h := mkRoute m p "" true false h in
  let org m p perm h := mkRoute m p perm false false h in
  let project m p perm h := mkRoute m ("/api/0/projects/{project_id}" +:+ p) perm false true h in
  [public "POST" "/api/0/login" handleLogin;
   public "POST" "/api/0/logout" handleLogout;
   org "GET" "/api/0/me" Authz.OrgRead handleMe;
   org "GET" "/api/0/projects" Authz.ProjectRead handleProjects;
   project "GET" "/stats" Authz.IssueRead handleStats;
   project "GET" "/issues" Authz.IssueRead handleIssueList;
   project "GET" "/issues/{issue_id}" Authz.IssueRead handleIssueGet;
   project "GET" "/issues/{issue_id}/events" Authz.EventRead handleIssueEvents;
   project "PUT" "/issues/{issue_id}/status" Authz.IssueWrite handleIssueStatus;
   project "POST" "/issues/merge" Authz.IssueWrite handleIssueMerge;
   project "POST" "/issues/{issue_id}/split" Authz.IssueWrite handleIssueSplit;
   project "GET" "/alerts" Authz.AlertsWrite handleAlertList;
   project "POST" "/alerts" Authz.AlertsWrite handleAlertCreate;
   project "DELETE" "/alerts/{rule_id}" Authz.AlertsWrite handleAlertDelete;
   org "GET" "/api/0/ops/status" Authz.OpsRead handleOpsStatus;
   org "GET" "/api/0/ops/config" Authz.OpsRead handleOpsConfig;
   org "GET" "/api/0/audit" Authz.AuditRead handleAudit;
   org "POST" "/api/0/tokens" Authz.TokenAdmin handleTokenCreate;
   org "DELETE" "/api/0/tokens/{token_id}" Authz.TokenAdmin handleTokenRevoke].

(** ** Authentication *)

(** contextFor; [oracle] answers the context's membership question. *)
Definition contextFor (u : User) (oracle : Z -> bool) : Authz.AuthContext :=
  Authz.NewAuthContext (u_ID u) (u_OrgID u) (u_Role u) [] (Some oracle).

(** The user of a request's credential and the permissions its token is
    restricted to. *)
Definition authenticate (r : Request) (i : input) : T (option (User * list string)) :=
  let h := header r "Authorization" in
  if HasPrefix h "Bearer " then
    let tok := drop_str 7 h in
    if negb (Auth.ValidateTokenShape tok) then ret None
    else
      let! res := try (MetaAuth.TokenByHash (Auth.HashToken tok) (i_now i)) in
      ret (match res with inl _ => None | inr (t, u) => Some (u, MetaAuth.at_Permissions t) end)
  else match session_cookie r with
  | None => ret None
  | Some v =>
      let! res := try (MetaAuth.SessionUser v (i_now i)) in
      ret (match res with inl _ => None | inr u => Some (u, []) end)
  end.

Definition context_of (u : User) (perms : list string) (oracle : Z -> bool) : Authz.AuthContext :=
  match perms with
  | [] => contextFor u oracle
  | _ => Authz.Restrict (contextFor u oracle) perms
  end.

(** ** dispatch *)
Definition proxy (addr : string) : outcome :=
  if url_Parse_ok addr then Proxied addr else writeErr StatusBadGateway "invalid owner address".

Definition stamp (a : API) (o : outcome) : outcome :=
  match o with
  | Served _ st p c => Served (if bool_decide (NodeID a = "") then None else Some (NodeID a)) st p c
  | o => o
  end.

Definition handle_local (a : API) (rt : Route) (actx : option Authz.AuthContext) (r : Request) (i : input) : T outcome :=
  let! o := Handle rt a actx r i in ret (stamp a o).

Definition dispatch (a : API) (rt : Route) (r : Request) (i : input) : T outcome :=
  if Public rt then handle_local a rt None r i
  else
    let! cred := authenticate r i in
    match cred with
    | None => ret (writeErr StatusUnauthorized "authentication required")
    | Some (u, perms) =>
        let actx := context_of u perms in
        if negb (Authz.Can (Some (actx (fun _ => false))) (Perm rt)) then ret (writeErr StatusForbidden "permission denied")
        else if negb (Project rt) then handle_local a rt (Some (actx (fun _ => false))) r i
        else
          match ParseInt (path_value r "project_id") with
          | None => ret (writeErr StatusNotFound "not found")
          | Some pid =>
              let! member := MetaAuth.ProjectInOrg (u_OrgID u) pid in
              let actx := actx (fun _ => member) in
              if negb (Authz.CanProject (Some actx) (Perm rt) pid) then ret (writeErr StatusNotFound "not found")
              else match Locator a with
              | None => handle_local a rt (Some actx) r i
              | Some owner =>
                  match owner pid with
                  | Some addr => ret (proxy addr)
                  | None => handle_local a rt (Some actx) r i
                  end
              end
          end
    end.
End Handlers.

End Api.
