(* ===== verification/ApiFrame.v ===== *)
(** * What an API request may change, and what it may show

    [evolves own pid d d'] is the footprint of one request: rows of other
    projects and of other organisations stay, a revocation is final, and the
    audit log only grows. Every handler of the table is inside it. *)
From S2P Require Import Prelude GoSort GoStrings GoUtf8 GoJson GoHttp Grouping Monad Sql MetaDb MetaIssues.
From S2P Require Import IssuesProps MetaAuth Alerts Authz Password Search Api.
Import Http Sql Meta Api.
#[local] Open Scope string_scope.
#[local] Open Scope list_scope.
#[local] Open Scope Z_scope.
#[local] Open Scope leser_scope.

Module ApiFrame.

(** ** Computations inside a relation

    [does R Q m]: from tables in [I], whatever fails, [m] moves the tables
    along [R] and ends in an outcome of [Q]. *)
Section Does.
Context {D : Type} (I : D -> Prop) (R : D -> D -> Prop).
Context (R_refl : forall d, R d d) (R_trans : forall a b c, R a b -> R b c -> R a c)
  (R_stable : forall a b, I a -> R a b -> I b).

Definition does {A} (Q : sql_error + A -> Prop) (m : Tx D A) : Prop :=
  forall s s' r, I (db s) -> m s = (s', r) -> R (db s) (db s') /\ Q r.
Definition any {A} (_ : sql_error + A) : Prop := True.

Lemma does_weaken {A} (Q Q' : sql_error + A -> Prop) m : does Q m -> (forall r, Q r -> Q' r) -> does Q' m.
Proof. intros H HQ s s' r Hi E. destruct (H s s' r Hi E). auto. Qed.

Lemma does_ret {A} (Q : sql_error + A -> Prop) a : Q (inr a) -> does Q (ret a).
Proof. intros H s s' r _ [= <- <-]. auto. Qed.

Lemma does_throw {A} (Q : sql_error + A -> Prop) e : Q (inl e) -> does Q (throw e).
Proof. intros H s s' r _ [= <- <-]. auto. Qed.

Lemma does_bind {A B} (P : sql_error + A -> Prop) (Q : sql_error + B -> Prop) m k :
  does P m -> (forall e, P (inl e) -> Q (inl e)) -> (forall a, P (inr a) -> does Q (k a)) -> does Q (bind m k).
Proof.
  intros Hm He Hk s s' r Hi H. unfold bind in H. destruct (m s) as [s1 [e|a]] eqn:E.
  - injection H as <- <-. destruct (Hm _ _ _ Hi E). auto.
  - destruct (Hm _ _ _ Hi E) as [H1 HP]. destruct (Hk a HP _ _ _ (R_stable _ _ Hi H1) H) as [H2 HQ]. eauto.
Qed.

(** A call whose error is looked at. *)
Lemma does_try {A B} (P : sql_error + A -> Prop) (Q : sql_error + B -> Prop) m k :
  does P m -> (forall r, P r -> does Q (k r)) -> does Q (bind (try m) k).
Proof.
  intros Hm Hk s s' r Hi H. unfold bind, try in H. destruct (m s) as [s1 r1] eqn:E.
  destruct (Hm _ _ _ Hi E) as [H1 HP]. destruct (Hk r1 HP _ _ _ (R_stable _ _ Hi H1) H) as [H2 HQ]. eauto.
Qed.

(** Reads: the rows come from tables in [I]. *)
Lemma does_query {A} (Q : sql_error + A -> Prop) (f : D -> A) :
  (forall e, Q (inl e)) -> (forall d, I d -> Q (inr (f d))) -> does Q (query f).
Proof.
  intros He Ha s s' r Hi H. split; [rewrite (query_db _ _ _ _ H); apply R_refl|].
  destruct r as [e|a]; [apply He|]. rewrite (query_ret _ _ _ _ H). apply Ha, Hi.
Qed.

Lemma does_row {A} (Q : sql_error + A -> Prop) (f : D -> option A) :
  (forall e, Q (inl e)) -> (forall d a, I d -> f d = Some a -> Q (inr a)) -> does Q (or_not_found (query_row f)).
Proof.
  intros He Ha. unfold or_not_found. apply (does_try (fun r => forall a, r = inr a -> Q (inr a))).
  - intros s s' r Hi H. split; [rewrite (query_row_db _ _ _ _ H); apply R_refl|]. intros a ->.
    exact (Ha _ _ Hi (query_row_ret _ _ _ _ H)).
  - intros [e|a] Hr; [destruct e; apply does_throw, He|apply does_ret, Hr; reflexivity].
Qed.

(** Writes: the transaction that commits is inside the relation. *)
Definition commits {A} (fn : Tx D A) : Prop :=
  forall s s' a, I (db s) -> fn s = (s', inr a) -> R (db s) (db s').

Lemma does_Write {A} (Q : sql_error + A -> Prop) fn : commits fn -> (forall r, Q r) -> does Q (Write fn).
Proof.
  intros Hc HQ s s' r Hi H. split; [|apply HQ].
  destruct (Write_cases _ _ _ _ H) as [[-> _]|(s1 & s2 & a & E1 & E2 & -> & _)]; [apply R_refl|].
  rewrite <- E1 in *. exact (Hc _ _ _ Hi E2).
Qed.

Lemma commits_exec {A} (f : D -> option (D * A)) :
  (forall d d' a, I d -> f d = Some (d', a) -> R d d') -> commits (exec f).
Proof. intros Hf s s' a Hi H. apply exec_ret in H. exact (Hf _ _ _ Hi H). Qed.

Lemma commits_bind {A B} (m : Tx D A) (k : A -> Tx D B) : commits m -> (forall a, commits (k a)) -> commits (bind m k).
Proof.
  intros Hm Hk s s' b Hi H. apply bind_inr in H as (s1 & a & E1 & E2). pose proof (Hm _ _ _ Hi E1) as H1.
  eapply R_trans; [exact H1|]. exact (Hk a _ _ _ (R_stable _ _ Hi H1) E2).
Qed.

Lemma commits_does {A} (Q : sql_error + A -> Prop) m : does Q m -> commits m.
Proof. intros H s s' a Hi E. apply (H _ _ _ Hi E). Qed.

Lemma commits_ret {A} (a : A) : commits (ret a).
Proof. intros s s' b _ [= <- _]. apply R_refl. Qed.
Lemma commits_throw {A} e : commits (throw e : Tx D A).
Proof. intros s s' b _ [=]. Qed.
Lemma commits_query {A} (f : D -> A) : commits (query f).
Proof. intros s s' a _ H. rewrite (query_db _ _ _ _ H). apply R_refl. Qed.
End Does.

(** A stronger invariant, and a smaller set of tables. *)
Lemma commits_mono {D A} (I I' : D -> Prop) R (fn : Tx D A) :
  (forall d, I' d -> I d) -> commits I R fn -> commits I' R fn.
Proof. intros HI H s s' a Hi. apply H, HI, Hi. Qed.

(** ** The footprint *)
Definition others {A} (proj : A -> Z) (pid : Z) (l : list A) : list A := List.filter (fun x => negb (proj x =? pid)) l.
Definition issue_id (i : Issue) : Z * Z := (i_ID i, i_ProjectID i).

(** A token may be revoked by its own organisation, a session by anyone who
    names it; nothing else happens to a row. *)
Definition token_evolves (own : Z -> Prop) (t t' : TokenRow) : Prop :=
  t' = t \/ t' = MetaAuth.revoke_token t /\ own (t_OrgID t).
Definition session_evolves (s s' : Session) : Prop := s' = s \/ s' = MetaAuth.revoke_session s.

Record evolves (own : Z -> Prop) (pid : Z) (d d' : DB) : Prop := {
  ev_same : objects d' = objects d /\ versions d' = versions d /\ orgs d' = orgs d /\ projects d' = projects d
            /\ keys d' = keys d /\ users d' = users d /\ rates d' = rates d;
  ev_issues : map issue_id (issues d') = map issue_id (issues d)
            /\ others i_ProjectID pid (issues d') = others i_ProjectID pid (issues d);
  ev_rules : others r_ProjectID pid (alert_rules d') = others r_ProjectID pid (alert_rules d);
  ev_tokens : exists l new, tokens d' = l ++ new /\ Forall2 (token_evolves own) (tokens d) l
            /\ Forall (fun t => own (t_OrgID t)) new
            /\ (NoDup (map t_Hash (tokens d)) -> NoDup (map t_Hash (tokens d')));
  ev_sessions : exists l new, sessions d' = l ++ new /\ Forall2 session_evolves (sessions d) l
            /\ (NoDup (map s_ID (sessions d)) -> NoDup (map s_ID (sessions d')));
  ev_audit : exists new, audit_log d' = audit_log d ++ new /\ Forall (fun e => own (a_OrgID e)) new }.

Lemma token_evolves_refl own l : Forall2 (token_evolves own) l l.
Proof. induction l; constructor; [left; reflexivity|assumption]. Qed.
Lemma session_evolves_refl l : Forall2 session_evolves l l.
Proof. induction l; constructor; [left; reflexivity|assumption]. Qed.

Lemma token_evolves_trans own a b c : token_evolves own a b -> token_evolves own b c -> token_evolves own a c.
Proof. intros [->|[-> H1]] [->|[-> H2]]; unfold token_evolves; auto. Qed.
Lemma session_evolves_trans a b c : session_evolves a b -> session_evolves b c -> session_evolves a c.
Proof. intros [->| ->] [->| ->]; unfold session_evolves; auto. Qed.

Lemma evolves_refl own pid d : evolves own pid d d.
Proof.
  constructor; auto 10.
  - exists (tokens d), []. rewrite app_nil_r. split_and!; auto using token_evolves_refl.
  - exists (sessions d), []. rewrite app_nil_r. split_and!; auto using session_evolves_refl.
  - exists []. rewrite app_nil_r. auto.
Qed.

Lemma Forall2_trans {A} (R : A -> A -> Prop) : (forall x y z, R x y -> R y z -> R x z) ->
  forall a b c, Forall2 R a b -> Forall2 R b c -> Forall2 R a c.
Proof.
  intros Ht a b c H. revert c. induction H as [|x y a b Hxy _ IH]; intros c Hc; inversion Hc; subst; constructor; eauto.
Qed.

Lemma evolves_trans own pid a b c : evolves own pid a b -> evolves own pid b c -> evolves own pid a c.
Proof.
  intros [A1 A2 A3 (la & na & Ta & Fa & Na & Ua) (ma & oa & Sa & Ga & Va) (ea & Ea & Oa)]
         [B1 B2 B3 (lb & nb & Tb & Fb & Nb & Ub) (mb & ob & Sb & Gb & Vb) (eb & Eb & Ob)].
  constructor.
  - intuition congruence.
  - intuition congruence.
  - congruence.
  - rewrite Ta in Fb. apply Forall2_app_inv_l in Fb as (lb1 & lb2 & F1 & F2 & ->).
    exists lb1, (lb2 ++ nb). split_and!; auto.
    + rewrite Tb, app_assoc. reflexivity.
    + eapply Forall2_trans; [apply token_evolves_trans|exact Fa|exact F1].
    + apply Forall_app. split; [|exact Nb]. clear -F2 Na. induction F2 as [|x y l l' Hxy _ IH]; [constructor|].
      apply Forall_cons in Na as [Hx Na]. constructor; [|apply IH, Na]. destruct Hxy as [->|[-> _]]; exact Hx.
  - rewrite Sa in Gb. apply Forall2_app_inv_l in Gb as (lb1 & lb2 & F1 & F2 & ->).
    exists lb1, (lb2 ++ ob). split_and!; auto.
    + rewrite Sb, app_assoc. reflexivity.
    + eapply Forall2_trans; [apply session_evolves_trans|exact Ga|exact F1].
  - exists (ea ++ eb). rewrite Eb, Ea, app_assoc. split; [reflexivity|]. apply Forall_app. auto.
Qed.

(** Issue ids are unique; the footprint keeps that. *)
Definition ids_unique (d : DB) : Prop := NoDup (map i_ID (issues d)).

Lemma ids_of l l' : map issue_id l' = map issue_id l -> map i_ID l' = map i_ID l.
Proof.
  intros H. assert (E : forall l, map i_ID l = map fst (map issue_id l)) by (intros x; rewrite map_map; reflexivity).
  rewrite !E, H. reflexivity.
Qed.

Lemma ids_stable own pid a b : ids_unique a -> evolves own pid a b -> ids_unique b.
Proof. unfold ids_unique. intros H E. rewrite (ids_of _ _ (proj1 (ev_issues _ _ _ _ E))). exact H. Qed.

(** *** Single-table changes *)
Lemma others_map pid p f l :
  (forall i, issue_id (f i) = issue_id i) -> (forall i, i ∈ l -> p i = true -> i_ProjectID i = pid) ->
  others i_ProjectID pid (map (fun i => if p i then f i else i) l) = others i_ProjectID pid l.
Proof.
  intros Hf Hp. induction l as [|i l IH]; [reflexivity|]. unfold others in *. cbn [map List.filter].
  rewrite IH by (intros j Hj; apply Hp; right; exact Hj).
  destruct (p i) eqn:Ep; [|reflexivity].
  assert (E : i_ProjectID i = pid) by (apply Hp; [left|exact Ep]).
  pose proof (f_equal snd (Hf i)) as Hs. cbn in Hs. rewrite Hs, E, Z.eqb_refl. reflexivity.
Qed.

Lemma evolves_issues own pid p f d :
  (forall i, issue_id (f i) = issue_id i) -> (forall i, i ∈ issues d -> p i = true -> i_ProjectID i = pid) ->
  evolves own pid d (set_issues (fst (update_where p f (issues d))) d).
Proof.
  intros Hf Hp. pose proof (evolves_refl own pid d) as [H1 _ H3 H4 H5 H6]. constructor; auto.
  cbn [issues set_issues update_where fst]. split; [|apply others_map; assumption].
  rewrite map_map. apply map_ext. intros i. destruct (p i); auto.
Qed.

Lemma evolves_rules own pid l d :
  others r_ProjectID pid l = others r_ProjectID pid (alert_rules d) -> evolves own pid d (set_rules l d).
Proof. intros H. pose proof (evolves_refl own pid d) as [H1 H2 _ H4 H5 H6]. constructor; auto. Qed.

Lemma evolves_audit (own : Z -> Prop) pid e d : own (a_OrgID e) -> evolves own pid d (set_audit (audit_log d ++ [e]) d).
Proof. intros H. pose proof (evolves_refl own pid d) as [H1 H2 H3 H4 H5 _]. constructor; auto. exists [e]. auto. Qed.

Lemma NoDup_snoc {A} (l : list A) x : NoDup l -> x ∉ l -> NoDup (l ++ [x]).
Proof.
  intros H Hx. apply NoDup_app. split_and!; [exact H| |apply NoDup_singleton].
  intros y Hy Hy'. apply list_elem_of_singleton in Hy'. congruence.
Qed.

Lemma has_false {A} (f : A -> string) l h : has (fun r => bool_decide (f r = h)) l = false -> h ∉ map f l.
Proof.
  intros H Hin. apply list_elem_of_fmap in Hin as (x & -> & Hx). apply not_true_iff_false in H. apply H.
  apply existsb_exists. exists x. split; [apply list_elem_of_In, Hx|]. apply bool_decide_true. reflexivity.
Qed.

Lemma evolves_new_token (own : Z -> Prop) pid t d :
  own (t_OrgID t) -> t_Hash t ∉ map t_Hash (tokens d) -> evolves own pid d (set_tokens (tokens d ++ [t]) d).
Proof.
  intros Ho Hh. pose proof (evolves_refl own pid d) as [H1 H2 H3 _ H5 H6]. constructor; auto.
  exists (tokens d), [t]. split_and!; auto using token_evolves_refl.
  intros Hn. cbn [tokens set_tokens]. rewrite map_app. apply NoDup_snoc; assumption.
Qed.

Lemma map_update_same {A B} (g : A -> B) p f (l : list A) :
  (forall x, g (f x) = g x) -> map g (fst (update_where p f l)) = map g l.
Proof. intros H. cbn. rewrite map_map. apply map_ext. intros x. destruct (p x); auto. Qed.

Lemma evolves_revoke_token (own : Z -> Prop) pid p d :
  (forall t, p t = true -> own (t_OrgID t)) ->
  evolves own pid d (set_tokens (fst (update_where p MetaAuth.revoke_token (tokens d))) d).
Proof.
  intros Hp. pose proof (evolves_refl own pid d) as [H1 H2 H3 _ H5 H6]. constructor; auto.
  exists (fst (update_where p MetaAuth.revoke_token (tokens d))), []. cbn [tokens set_tokens].
  rewrite app_nil_r, map_update_same by reflexivity. split_and!; auto.
  cbn. induction (tokens d) as [|t l IH]; constructor; [|exact IH]. unfold token_evolves.
  destruct (p t) eqn:E; auto.
Qed.

Lemma evolves_revoke_session own pid p d :
  evolves own pid d (set_sessions (fst (update_where p MetaAuth.revoke_session (sessions d))) d).
Proof.
  pose proof (evolves_refl own pid d) as [H1 H2 H3 H4 _ H6]. constructor; auto.
  exists (fst (update_where p MetaAuth.revoke_session (sessions d))), []. cbn [sessions set_sessions].
  rewrite app_nil_r, map_update_same by reflexivity. split_and!; auto.
  cbn. induction (sessions d) as [|t l IH]; constructor; [|exact IH]. unfold session_evolves.
  destruct (p t) eqn:E; auto.
Qed.

Lemma evolves_new_session own pid x d :
  s_ID x ∉ map s_ID (sessions d) -> evolves own pid d (set_sessions (sessions d ++ [x]) d).
Proof.
  intros Hh. pose proof (evolves_refl own pid d) as [H1 H2 H3 H4 _ H6]. constructor; auto.
  exists (sessions d), [x]. split_and!; auto using session_evolves_refl.
  intros Hn. cbn [sessions set_sessions]. rewrite map_app. apply NoDup_snoc; assumption.
Qed.

End ApiFrame.
