(* ===== verification/ApiProps.v ===== *)
(** * The API: tenants stay apart, revocations last *)
From S2P Require Import Prelude GoSort GoStrings GoUtf8 GoJson GoHttp Grouping Monad Sql MetaDb MetaIssues.
From S2P Require Import IssuesProps MetaAuth Alerts Authz Password Search Api ApiFrame.
Import Http Sql Meta Api ApiFrame.
#[local] Open Scope string_scope.
#[local] Open Scope list_scope.
#[local] Open Scope Z_scope.
#[local] Open Scope leser_scope.

Module ApiProps.

(** What an answer shows of the tables. *)
Definition visible (own : Z -> Prop) (pid : Z) (o : outcome) : Prop :=
  match o with
  | Served _ _ (PIssues l) _ => Forall (fun i => i_ProjectID i = pid) l
  | Served _ _ (PIssue i) _ => i_ProjectID i = pid
  | Served _ _ (PRules l) _ => Forall (fun r => r_ProjectID r = pid) l
  | Served _ _ (PProjects l) _ => Forall (fun p => own (p_OrgID (fst (fst p)))) l
  | Served _ _ (PAudit l) _ => Forall (fun e => own (a_OrgID e)) l
  | _ => True
  end.

Section Frame.
Context (own : Z -> Prop) (pid : Z).
Notation Does := (does ids_unique (evolves own pid)).
Notation Commits := (commits ids_unique (evolves own pid)).

Definition shown (r : sql_error + outcome) : Prop :=
  match r with inl _ => False | inr o => visible own pid o end.

Lemma d_ret {A} (Q : sql_error + A -> Prop) a : Q (inr a) -> Does Q (ret a).
Proof. apply does_ret, evolves_refl. Qed.
Lemma d_throw {A} (Q : sql_error + A -> Prop) e : Q (inl e) -> Does Q (throw e).
Proof. apply does_throw, evolves_refl. Qed.
Lemma d_try {A B} (P : sql_error + A -> Prop) (Q : sql_error + B -> Prop) m k :
  Does P m -> (forall r, P r -> Does Q (k r)) -> Does Q (bind (try m) k).
Proof. apply does_try; [apply evolves_trans|apply ids_stable]. Qed.
Lemma d_bind {A B} (P : sql_error + A -> Prop) (Q : sql_error + B -> Prop) m k :
  Does P m -> (forall e, P (inl e) -> Q (inl e)) -> (forall a, P (inr a) -> Does Q (k a)) -> Does Q (bind m k).
Proof. apply does_bind; [apply evolves_trans|apply ids_stable]. Qed.
Lemma d_query {A} (Q : sql_error + A -> Prop) (f : DB -> A) :
  (forall e, Q (inl e)) -> (forall d, ids_unique d -> Q (inr (f d))) -> Does Q (query f).
Proof. apply does_query, evolves_refl. Qed.
Lemma d_row {A} (Q : sql_error + A -> Prop) (f : DB -> option A) :
  (forall e, Q (inl e)) -> (forall d a, ids_unique d -> f d = Some a -> Q (inr a)) -> Does Q (or_not_found (query_row f)).
Proof. apply does_row; [apply evolves_refl|apply evolves_trans|apply ids_stable]. Qed.
Lemma d_Write {A} (fn : Tx DB A) : Commits fn -> Does any (Write fn).
Proof. intros H. apply does_Write; [apply evolves_refl|exact H|exact (fun _ => Logic.I)]. Qed.
Lemma c_bind {A B} (m : Tx DB A) (k : A -> Tx DB B) : Commits m -> (forall a, Commits (k a)) -> Commits (bind m k).
Proof. apply commits_bind; [apply evolves_trans|apply ids_stable]. Qed.
Lemma c_exec {A} (f : DB -> option (DB * A)) :
  (forall d d' a, ids_unique d -> f d = Some (d', a) -> evolves own pid d d') -> Commits (exec f).
Proof. apply commits_exec. Qed.
Lemma c_ret {A} (a : A) : Commits (ret a).
Proof. apply commits_ret, evolves_refl. Qed.
Lemma c_throw {A} e : Commits (throw e : Tx DB A).
Proof. apply commits_throw. Qed.
Lemma c_affected n : Commits (Issues.affected n).
Proof. unfold Issues.affected. destruct (_ =? 0); [apply c_throw|apply c_ret]. Qed.

(** *** The operations *)
Lemma c_update_issues p f :
  (forall i, issue_id (f i) = issue_id i) -> (forall d i, ids_unique d -> i ∈ issues d -> p i = true -> i_ProjectID i = pid) ->
  Commits (exec (Issues.update_issues p f)).
Proof.
  intros Hf Hp. apply c_exec. intros d d' n Hi H. unfold Issues.update_issues in H.
  destruct (update_where p f (issues d)) as [l k] eqn:E. injection H as <- _.
  change l with (fst (l, k)). rewrite <- E. apply evolves_issues; eauto.
Qed.

Lemma in_project_pid id i : Issues.in_project pid id i = true -> i_ProjectID i = pid.
Proof. unfold Issues.in_project. intros [_ H]%andb_true_iff. lia. Qed.

Lemma SetIssueStatus_does id st : Does any (Issues.SetIssueStatus pid id st).
Proof.
  unfold Issues.SetIssueStatus. destruct (negb _); [apply d_throw; exact Logic.I|]. apply d_Write, c_bind.
  - apply c_update_issues; [reflexivity|]. intros d i _ _. apply in_project_pid.
  - apply c_affected.
Qed.

Lemma SplitIssue_does id : Does any (Issues.SplitIssue pid id).
Proof.
  unfold Issues.SplitIssue. apply d_Write, c_bind; [|apply c_affected].
  apply c_update_issues; [reflexivity|]. intros d i _ _ [H _]%andb_true_iff. apply (in_project_pid _ _ H).
Qed.

(** The merge adds to the target by its id alone; the target was found in the
    project, and ids are unique. *)
Definition target_ok (t : Z) (d : DB) : Prop :=
  ids_unique d /\ forall i, i ∈ issues d -> i_ID i = t -> i_ProjectID i = pid.

Lemma target_stable t a b : target_ok t a -> evolves own pid a b -> target_ok t b.
Proof.
  intros [H1 H2] E. split; [apply (ids_stable _ _ _ _ H1 E)|]. intros i Hi Ht.
  destruct (ev_issues _ _ _ _ E) as [E1 _].
  assert (Hin : issue_id i ∈ map issue_id (issues a)) by (rewrite <- E1; apply list_elem_of_fmap; eauto).
  apply list_elem_of_fmap in Hin as (j & Ej & Hj). unfold issue_id in Ej. injection Ej as E2 E3.
  rewrite E3. apply H2; congruence.
Qed.

Lemma update_merged_evolves p m d d' n :
  (forall i, p i = true -> i_ProjectID i = pid) -> Issues.update_merged p m d = Some (d', n) -> evolves own pid d d'.
Proof.
  intros Hp H. unfold Issues.update_merged in H. destruct (_ && _); [discriminate|].
  unfold Issues.update_issues in H. destruct (update_where p _ (issues d)) as [l k] eqn:E. injection H as <- _.
  change l with (fst (l, k)). rewrite <- E. apply evolves_issues; [reflexivity|]. intros i _. apply Hp.
Qed.

Lemma merge_source_commits t src : commits (target_ok t) (evolves own pid) (Issues.merge_source pid t src).
Proof.
  unfold Issues.merge_source. destruct (_ =? t); [apply commits_throw|].
  pose proof (target_stable t) as Hst. pose proof (evolves_trans own pid) as Htr.
  apply commits_bind; auto.
  { apply (commits_does _ _ any), does_row; auto using evolves_refl; intros; exact Logic.I. }
  intros count. apply commits_bind; auto.
  { apply commits_exec. intros d d' n _ H. eapply update_merged_evolves; [|exact H]. apply in_project_pid. }
  intros _. apply commits_bind; auto.
  { apply commits_exec. intros d d' n _ H. eapply update_merged_evolves; [|exact H].
    intros i [_ H1]%andb_true_iff. lia. }
  intros _. apply commits_bind; auto; [|intros; apply commits_ret, evolves_refl].
  apply commits_exec. intros d d' n [_ Ht] H. unfold Issues.update_issues in H.
  destruct (update_where _ _ (issues d)) as [l k] eqn:E. injection H as <- _.
  change l with (fst (l, k)). rewrite <- E. apply evolves_issues; [reflexivity|].
  intros i Hi Hp. apply Ht; [exact Hi|]. unfold Issues.by_id in Hp. lia.
Qed.

Lemma merge_sources_commits t srcs : commits (target_ok t) (evolves own pid) (Issues.merge_sources pid t srcs).
Proof.
  induction srcs as [|src srcs IH]; cbn [Issues.merge_sources]; [apply commits_ret, evolves_refl|].
  apply commits_bind; [apply evolves_trans|apply target_stable|apply merge_source_commits|intros _; exact IH].
Qed.

Lemma MergeIssues_does t srcs : Does any (Issues.MergeIssues pid t srcs).
Proof.
  unfold Issues.MergeIssues. apply d_Write. intros s s' u Hi H. unfold Issues.merge_tx in H.
  apply bind_inr in H as (s1 & n & E1 & E2). pose proof (query_ret _ _ _ _ E1) as Hn.
  pose proof (query_db _ _ _ _ E1) as Hd. destruct (Z.eqb_spec n 0) as [|Hne]; [discriminate E2|].
  rewrite <- Hd in *. apply (merge_sources_commits _ _ _ _ _) in E2; [exact E2|]. split; [exact Hi|].
  destruct (List.filter _ (issues (db s1))) as [|j l] eqn:Ef; [cbn in Hn; lia|].
  assert (Hj : List.In j (j :: l)) by (left; reflexivity). rewrite <- Ef in Hj. apply filter_In in Hj as [Hj Hp].
  apply andb_true_iff in Hp as [Hp _]. unfold Issues.in_project in Hp.
  intros i Hin Ht. rewrite (IssuesProps.by_id_unique (issues (db s1)) i j Hi); [lia|exact Hin| |lia].
  apply list_elem_of_In, Hj.
Qed.

Lemma filter_forall {A} (P : A -> Prop) (p : A -> bool) l : (forall x, p x = true -> P x) -> Forall P (List.filter p l).
Proof. intros H. apply Forall_forall. intros x Hx%list_elem_of_In. apply filter_In in Hx as [_ Hx]. auto. Qed.

Lemma limit_forall {A} (P : A -> Prop) n l : Forall P l -> Forall P (limit_rows n l).
Proof. apply Forall_take. Qed.

Lemma sorted_forall {A} (le : relation A) `{!SliceSort le} (P : A -> Prop) l : Forall P l -> Forall P (sort_slice le l).
Proof. intros H. rewrite sort_slice_perm. exact H. Qed.

Lemma GetIssue_does id : Does (fun r => forall i, r = inr i -> i_ProjectID i = pid) (Issues.GetIssue pid id).
Proof.
  unfold Issues.GetIssue. apply d_row; [discriminate|]. intros d i _ Hf i' [= <-].
  apply List.find_some in Hf as [_ Hf]. apply (in_project_pid _ _ Hf).
Qed.

Lemma ListIssues_does `{!SliceSort (key_le Issues.newest_first)} f limit :
  Does (fun r => forall l, r = inr l -> Forall (fun i => i_ProjectID i = pid) l) (Issues.ListIssuesFiltered pid f limit).
Proof.
  assert (H : Does (fun r => forall l, r = inr l -> Forall (fun i => i_ProjectID i = pid) l)
    (query (fun d => limit_rows (Issues.list_limit limit)
      (sort_slice (key_le Issues.newest_first) (List.filter (Issues.filter_row pid f) (issues d)))))).
  { apply d_query; [discriminate|]. intros d _ l [= <-]. apply limit_forall, sorted_forall, filter_forall.
    intros i Hi. unfold Issues.filter_row in Hi. rewrite !andb_true_iff in Hi. lia. }
  unfold Issues.ListIssuesFiltered. destruct (Issues.f_Fingerprints f) as [[|fp fps]|]; [|exact H..].
  apply d_ret. intros l [= <-]. constructor.
Qed.

Lemma ListAlertRules_does :
  Does (fun r => forall l, r = inr l -> Forall (fun i => r_ProjectID i = pid) l) (MetaAlerts.ListAlertRules pid).
Proof.
  unfold MetaAlerts.ListAlertRules. apply d_query; [discriminate|]. intros d _ l [= <-].
  apply limit_forall. rewrite merge_sort_Permutation. apply filter_forall. intros i Hi. lia.
Qed.

Lemma others_app {A} (f : A -> Z) l x : f x = pid -> others f pid (l ++ [x]) = others f pid l.
Proof.
  intros H. unfold others. rewrite List.filter_app. cbn. rewrite H, Z.eqb_refl. cbn. apply app_nil_r.
Qed.

Lemma CreateAlertRule_does q : r_ProjectID q = pid -> Does any (MetaAlerts.CreateAlertRule q).
Proof.
  intros Hq. unfold MetaAlerts.CreateAlertRule. destruct (negb _); [apply d_throw; exact Logic.I|].
  destruct (_ || _); [apply d_throw; exact Logic.I|]. apply d_Write, c_exec. intros d d' id _ H.
  unfold MetaAlerts.insert_rule in H. destruct (_ || _); [discriminate|]. injection H as <- _.
  apply evolves_rules, others_app. exact Hq.
Qed.

Lemma DeleteAlertRule_does id : Does any (MetaAlerts.DeleteAlertRule pid id).
Proof.
  unfold MetaAlerts.DeleteAlertRule. apply d_Write, c_bind.
  2:{ intros n. destruct (_ =? 0); [apply c_throw|apply c_ret]. }
  apply c_exec. intros d d' n _ [= <- _]. apply evolves_rules. unfold others.
  induction (alert_rules d) as [|x l IH]; [reflexivity|]. cbn [List.filter].
  destruct (Z.eqb_spec (r_ProjectID x) pid) as [E|E]; cbn [negb].
  - destruct (negb _); [|exact IH]. cbn [List.filter]. rewrite (proj2 (Z.eqb_eq _ _) E). exact IH.
  - rewrite andb_false_r. cbn [negb List.filter]. rewrite (proj2 (Z.eqb_neq _ _) E). cbn [negb]. f_equal. exact IH.
Qed.

Lemma audit_does r i org actor action target detail : own org ->
  Does (fun x => x = inr tt) (audit r i org actor action target detail).
Proof.
  intros Ho. unfold audit. eapply d_try; [|intros; apply d_ret; reflexivity].
  unfold MetaAuth.Audit. apply d_Write, c_exec. intros d d' u _ [= <- _]. apply evolves_audit. exact Ho.
Qed.

Lemma AuditList_does `{!SliceSort (key_le MetaAuth.newest_entry)} org limit : own org ->
  Does (fun r => forall l, r = inr l -> Forall (fun e => own (a_OrgID e)) l) (MetaAuth.AuditList org limit).
Proof.
  intros Ho. unfold MetaAuth.AuditList. apply d_query; [discriminate|]. intros d _ l [= <-].
  apply limit_forall, sorted_forall, filter_forall. intros e He. replace (a_OrgID e) with org by lia. exact Ho.
Qed.

Lemma CreateToken_does t hash : own (MetaAuth.at_OrgID t) -> Does any (MetaAuth.CreateToken t hash).
Proof.
  intros Ho. unfold MetaAuth.CreateToken. apply d_Write, c_exec. intros d d' id _ H.
  unfold MetaAuth.insert_token in H. destruct (negb _ || negb _ || _) eqn:E; [discriminate|]. injection H as <- _.
  apply orb_false_iff in E as [_ E]. apply evolves_new_token; [exact Ho|]. apply (has_false t_Hash _ _ E).
Qed.

Lemma RevokeToken_does org id : own org -> Does any (MetaAuth.RevokeToken org id).
Proof.
  intros Ho. unfold MetaAuth.RevokeToken. apply d_Write, c_bind.
  2:{ intros n. destruct (_ =? 0); [apply c_throw|apply c_ret]. }
  apply c_exec. intros d d' n _ H. destruct (update_where _ _ (tokens d)) as [l k] eqn:E. injection H as <- _.
  change l with (fst (l, k)). rewrite <- E. apply evolves_revoke_token.
  intros t [_ H]%andb_true_iff. replace (t_OrgID t) with org by lia. exact Ho.
Qed.

Lemma RevokeSession_does id : Does any (MetaAuth.RevokeSession id).
Proof. apply d_Write, c_exec. intros d d' n _ [= <- _]. apply evolves_revoke_session. Qed.

Lemma CreateSession_does id user ttl now : Does any (MetaAuth.CreateSession id user ttl now).
Proof.
  apply d_Write, c_exec. intros d d' n _ H. unfold MetaAuth.insert_session in H.
  destruct (negb _ || _) eqn:E; [discriminate|]. injection H as <- _. apply orb_false_iff in E as [_ E].
  apply evolves_new_session. apply (has_false s_ID _ _ E).
Qed.

Lemma UserByEmail_does lower_rune email : Does any (MetaAuth.UserByEmail lower_rune email).
Proof. apply d_row; intros; exact Logic.I. Qed.

Lemma ListProjects_does : Does any ListProjects.
Proof. apply d_query; intros; exact Logic.I. Qed.

(** *** The handlers *)
Section Handlers.
Context (IDKey : string -> list byte -> Z -> Z -> Z -> Z -> option (list byte)) (lower_rune : Z -> Z).
Context `{!SliceSort (key_le Issues.newest_first)} `{!SliceSort (key_le MetaAuth.newest_entry)}.
Context (a : API) (actx : option Authz.AuthContext) (r : Request) (i : input).
Context (Hpid : path_int "project_id" r = pid) (Hown : forall c, actx = Some c -> own (Authz.OrgID c)).

(** An answer, a database call whose error is looked at, an audit entry, a
    nil context, a body: in this order. *)
Ltac handler :=
  repeat (rewrite ?Hpid; match goal with
  | |- does _ _ _ (ret _) => apply d_ret; try exact Logic.I
  | |- does _ _ _ (bind (try _) _) => eapply d_try; [solve [eauto using SetIssueStatus_does, SplitIssue_does, MergeIssues_does,
        GetIssue_does, ListIssues_does, ListAlertRules_does, CreateAlertRule_does, DeleteAlertRule_does, AuditList_does,
        CreateToken_does, RevokeToken_does, RevokeSession_does, CreateSession_does, UserByEmail_does, ListProjects_does]|intros [?|?] ?]
  | |- does _ _ _ (bind (audit _ _ _ _ _ _ _) _) => eapply d_bind; [apply audit_does; auto|discriminate|intros ? _]
  | |- does _ _ _ (with_ctx ?x _) => let E := fresh "E" in destruct x eqn:E; cbn [with_ctx]
  | |- does _ _ _ (answer ?x _ _) => destruct x as [[]|]; cbn [answer]
  | |- does _ _ _ (match ?x with _ => _ end) => destruct x
  end).

Lemma handleMe_does : Does shown (handleMe a actx r i).
Proof. unfold handleMe. handler. Qed.

Lemma handleLogin_does : (forall o, own o) -> Does shown (handleLogin IDKey lower_rune a actx r i).
Proof. intros Ho. unfold handleLogin. handler. Qed.

Lemma handleLogout_does : Does shown (handleLogout a actx r i).
Proof.
  unfold handleLogout. eapply (d_bind (fun x => x = inr tt)); [handler; reflexivity|discriminate|]. intros _ _. handler.
Qed.

Lemma handleProjects_does : Does shown (handleProjects a actx r i).
Proof.
  unfold handleProjects. handler. cbn. apply Forall_map, filter_forall. intros p Hp. cbn.
  match goal with E : actx = Some ?c |- _ => replace (p_OrgID (fst p)) with (Authz.OrgID c) by lia; apply Hown; reflexivity end.
Qed.

Lemma handleStats_does : Does shown (handleStats a actx r i).
Proof. unfold handleStats. handler. cbn. case_match; exact Logic.I. Qed.

Lemma handleIssueList_does : Does shown (handleIssueList lower_rune a actx r i).
Proof.
  assert (H : forall f o, issue_filter lower_rune a f r = inl o -> visible own pid o).
  { intros f o. unfold issue_filter. repeat (case_match; try discriminate); intros [= <-]; exact Logic.I. }
  unfold handleIssueList. rewrite Hpid. destruct (issue_filter lower_rune a pid r) as [o|f] eqn:E;
    [apply d_ret; exact (H _ _ E)|]. handler. all: cbn; auto.
Qed.

Lemma handleIssueGet_does : Does shown (handleIssueGet a actx r i).
Proof. unfold handleIssueGet. handler. all: cbn; auto. Qed.

Lemma handleIssueEvents_does : Does shown (handleIssueEvents a actx r i).
Proof. unfold handleIssueEvents. handler. all: cbn; case_match; exact Logic.I. Qed.

Lemma handleIssueStatus_does : Does shown (handleIssueStatus a actx r i).
Proof. unfold handleIssueStatus. handler. Qed.

Lemma handleIssueMerge_does : Does shown (handleIssueMerge a actx r i).
Proof. unfold handleIssueMerge. handler. Qed.

Lemma handleIssueSplit_does : Does shown (handleIssueSplit a actx r i).
Proof. unfold handleIssueSplit. handler. Qed.

Lemma handleAlertList_does : Does shown (handleAlertList a actx r i).
Proof. unfold handleAlertList. handler. all: cbn; auto. Qed.

Lemma handleAlertCreate_does : Does shown (handleAlertCreate a actx r i).
Proof. unfold handleAlertCreate. handler. Qed.

Lemma handleAlertDelete_does : Does shown (handleAlertDelete a actx r i).
Proof. unfold handleAlertDelete. handler. Qed.

Lemma handleAudit_does : Does shown (handleAudit a actx r i).
Proof. unfold handleAudit. handler. all: cbn; auto. Qed.

Lemma handleTokenCreate_does : Does shown (handleTokenCreate a actx r i).
Proof. unfold handleTokenCreate. handler. Qed.

Lemma handleTokenRevoke_does : Does shown (handleTokenRevoke a actx r i).
Proof. unfold handleTokenRevoke. handler. Qed.

(** Every handler of the table; the public ones write audit entries of any
    organisation. *)
Lemma Handle_does rt : rt ∈ Routes IDKey lower_rune -> (Public rt = true -> forall o, own o) ->
  Does shown (Handle rt a actx r i).
Proof.
  intros Hin Hpub. unfold Routes in Hin. rewrite !elem_of_cons in Hin.
  repeat (destruct Hin as [-> |Hin]; [cbn [Handle Public] in *|]); [..|inversion Hin];
    auto using handleMe_does, handleLogin_does, handleLogout_does, handleProjects_does, handleStats_does, handleIssueList_does,
      handleIssueGet_does, handleIssueEvents_does, handleIssueStatus_does, handleIssueMerge_does, handleIssueSplit_does,
      handleAlertList_does, handleAlertCreate_does, handleAlertDelete_does, handleAudit_does, handleTokenCreate_does,
      handleTokenRevoke_does; apply d_ret; exact Logic.I.
Qed.
End Handlers.
End Frame.

(** ** Who may make a request *)

(** The request carries a live token or a live session of [u]; [perms] are
    the token's permissions, none for no restriction. *)
Definition credential (r : Request) (now : Z) (d : DB) (u : User) (perms : list string) : Prop :=
  u ∈ users d
  /\ ((exists t, HasPrefix (header r "Authorization") "Bearer " = true
          /\ t ∈ tokens d /\ t_Hash t = Auth.HashToken (drop_str 7 (header r "Authorization"))
          /\ t_Revoked t = false /\ (t_ExpiresAt t = 0 \/ now < t_ExpiresAt t) /\ t_UserID t = u_ID u
          /\ perms = MetaAuth.parse_permissions (t_Permissions t))
      \/ (exists x, x ∈ sessions d /\ cookie r SessionCookie = Some (s_ID x) /\ s_Revoked x = false
          /\ now < s_ExpiresAt x /\ s_UserID x = u_ID u /\ perms = [])).

Definition authorized (perm : Authz.Permission) (project : bool) (r : Request) (now : Z) (d : DB) (u : User)
    (perms : list string) : Prop :=
  credential r now d u perms
  /\ perm ∈ Authz.RolePermissions (u_Role u) /\ (perms = [] \/ perm ∈ perms)
  /\ (project = true -> exists p, p ∈ projects d /\ ParseInt (path_value r "project_id") = Some (p_ID p)
        /\ p_OrgID p = u_OrgID u).

Lemma row_cases {A} (f : DB -> option A) s s' r :
  or_not_found (query_row f) s = (s', r) -> db s' = db s /\ forall a, r = inr a -> f (db s) = Some a.
Proof.
  unfold or_not_found, bind, try. destruct (query_row f s) as [s1 [e|x]] eqn:E;
    pose proof (query_row_db _ _ _ _ E) as Hd; intros H.
  - destruct e; injection H as <- <-; (split; [exact Hd|discriminate]).
  - injection H as <- <-. split; [exact Hd|]. intros a [= <-]. exact (query_row_ret _ _ _ _ E).
Qed.

Lemma TokenByHash_ok hash now s s' res :
  MetaAuth.TokenByHash hash now s = (s', res) ->
  db s' = db s /\ forall t u, res = inr (t, u) -> u ∈ users (db s) /\ exists row, row ∈ tokens (db s)
    /\ MetaAuth.live_token now hash row = true /\ t_UserID row = u_ID u
    /\ MetaAuth.at_Permissions t = MetaAuth.parse_permissions (t_Permissions row).
Proof.
  intros H. apply row_cases in H as [Hd H]. split; [exact Hd|]. intros t u ->. specialize (H _ eq_refl).
  destruct (List.find _ _) as [row|] eqn:Ef; [|discriminate].
  destruct (MetaAuth.user_of (db s) (t_UserID row)) as [u1|] eqn:Eu; [|discriminate]. cbn in H. injection H as <- <-.
  unfold MetaAuth.user_of in Eu. apply IssuesProps.find_some_in in Eu as [Hu Hid].
  apply IssuesProps.find_some_in in Ef as [Hin Hl]. split; [exact Hu|]. exists row. split_and!; auto. lia.
Qed.

Lemma SessionUser_ok v now s s' res :
  MetaAuth.SessionUser v now s = (s', res) ->
  db s' = db s /\ forall u, res = inr u -> u ∈ users (db s) /\ exists x, x ∈ sessions (db s)
    /\ MetaAuth.live_session now v x = true /\ s_UserID x = u_ID u.
Proof.
  intros H. apply row_cases in H as [Hd H]. split; [exact Hd|]. intros u ->. specialize (H _ eq_refl).
  destruct (List.find _ _) as [x|] eqn:Ef; [|discriminate]. unfold MetaAuth.user_of in H.
  apply IssuesProps.find_some_in in H as [Hu Hid]. apply IssuesProps.find_some_in in Ef as [Hin Hl].
  split; [exact Hu|]. exists x. split_and!; auto. lia.
Qed.

Lemma authenticate_ok r i s s' res :
  authenticate r i s = (s', res) ->
  db s' = db s /\ exists x, res = inr x
    /\ forall u perms, x = Some (u, perms) -> credential r (i_now i) (db s) u perms.
Proof.
  unfold authenticate. destruct (HasPrefix _ _) eqn:Eh.
  - destruct (negb _); [intros [= <- <-]; split; [reflexivity|]; exists None; split; [reflexivity|discriminate]|].
    unfold bind, try. destruct (MetaAuth.TokenByHash _ _ s) as [s1 x] eqn:E. apply TokenByHash_ok in E as [Hd Ht].
    intros [= <- <-]. split; [exact Hd|]. eexists. split; [reflexivity|]. intros u perms H.
    destruct x as [e|[t u']]; [discriminate|]. injection H as -> <-.
    destruct (Ht t u eq_refl) as (Hu & row & Hin & Hl & Hid & ->). unfold MetaAuth.live_token in Hl.
    rewrite !andb_true_iff, bool_decide_eq_true, negb_true_iff, orb_true_iff in Hl. destruct Hl as [[L1 L2] L3].
    split; [exact Hu|]. left. exists row. split_and!; auto. destruct L3; [left|right]; lia.
  - destruct (session_cookie r) as [v|] eqn:Ec.
    2:{ intros [= <- <-]. split; [reflexivity|]. exists None. split; [reflexivity|discriminate]. }
    unfold bind, try. destruct (MetaAuth.SessionUser _ _ s) as [s1 x] eqn:E. apply SessionUser_ok in E as [Hd Hs].
    intros [= <- <-]. split; [exact Hd|]. eexists. split; [reflexivity|]. intros u perms H.
    destruct x as [e|u']; [discriminate|]. injection H as -> <-.
    destruct (Hs u eq_refl) as (Hu & row & Hin & Hl & Hid). unfold MetaAuth.live_session in Hl.
    rewrite !andb_true_iff, bool_decide_eq_true, negb_true_iff in Hl. destruct Hl as [[L1 L2] L3].
    unfold session_cookie in Ec. destruct (cookie r SessionCookie) as [c|] eqn:Eck; [|discriminate].
    case_bool_decide; [discriminate|]. injection Ec as ->.
    split; [exact Hu|]. right. exists row. split_and!; auto; [congruence|lia].
Qed.

Lemma OrgID_context_of u perms f : Authz.OrgID (context_of u perms f) = u_OrgID u.
Proof. destruct perms; reflexivity. Qed.

Lemma Can_context_of u perms f p : Authz.Can (Some (context_of u perms f)) p = true ->
  p ∈ Authz.RolePermissions (u_Role u) /\ (perms = [] \/ p ∈ perms).
Proof.
  intros H. assert (Hc : Authz.Can (Some (contextFor u f)) p = true -> p ∈ Authz.RolePermissions (u_Role u)).
  { unfold contextFor. rewrite Authz.Can_NewAuthContext. intros [?|Hn]; [assumption|inversion Hn]. }
  destruct perms as [|q perms]; [auto|]. unfold context_of in H. apply Authz.Can_Restrict in H as [H1 H2]. auto.
Qed.

Lemma CanProject_context_of u perms b p pid :
  Authz.CanProject (Some (context_of u perms (fun _ => b))) p pid = true -> b = true.
Proof. unfold Authz.CanProject. destruct (negb _); [discriminate|]. destruct perms; intros H; exact H. Qed.
End ApiProps.
