(* ===== verification/ApiTenancy.v ===== *)
(** * The API as a whole: dispatch, tenants and revocation *)
From S2P Require Import Prelude GoSort GoStrings GoUtf8 GoJson GoHttp Grouping Monad Sql MetaDb MetaIssues.
From S2P Require Import IssuesProps MetaAuth Alerts Authz Password Search Api ApiFrame ApiProps.
Import Http Sql Meta Api ApiFrame ApiProps.
#[local] Open Scope string_scope.
#[local] Open Scope list_scope.
#[local] Open Scope Z_scope.
#[local] Open Scope leser_scope.

Module ApiTenancy.

Section Dispatch.
Context (IDKey : string -> list byte -> Z -> Z -> Z -> Z -> option (list byte)) (lower_rune : Z -> Z)
  (url_Parse_ok : string -> bool).
Context `{!SliceSort (key_le Issues.newest_first)} `{!SliceSort (key_le MetaAuth.newest_entry)}.

Notation dispatch := (dispatch url_Parse_ok).
Notation Routes := (Routes IDKey lower_rune).

(** A refusal: an error and nothing of the tables. *)
Definition refused (o : outcome) : Prop :=
  exists st msg, o = writeErr st msg /\ st ∈ [StatusUnauthorized; StatusForbidden; StatusNotFound].

Lemma handle_local_ok own pid a rt actx r i s s' res :
  ids_unique (db s) -> rt ∈ Routes -> (Public rt = true -> forall o, own o) ->
  path_int "project_id" r = pid -> (forall c, actx = Some c -> own (Authz.OrgID c)) ->
  handle_local a rt actx r i s = (s', res) ->
  evolves own pid (db s) (db s') /\ shown own pid res.
Proof.
  intros Hi Hin Hpub Hp Hown. unfold handle_local, bind.
  destruct (Handle rt a actx r i s) as [s1 x] eqn:E.
  destruct (Handle_does own pid IDKey lower_rune a actx r i Hp Hown rt Hin Hpub _ _ _ Hi E) as [H1 H2].
  destruct x as [e|o]; [destruct H2|]. intros [= <- <-]. split; [exact H1|].
  destruct o as [node st p c| |]; exact H2.
Qed.

Lemma ProjectInOrg_ok org pid s s' res : MetaAuth.ProjectInOrg org pid s = (s', res) ->
  db s' = db s /\ exists b, res = inr b
    /\ (b = true -> exists p, p ∈ projects (db s) /\ p_ID p = pid /\ p_OrgID p = org).
Proof.
  unfold MetaAuth.ProjectInOrg. destruct (query _ s) as [s1 x] eqn:E. pose proof (query_db _ _ _ _ E) as Hd.
  intros [= <- <-]. split; [exact Hd|]. eexists. split; [reflexivity|]. intros Hb.
  destruct x as [e|b]; [discriminate|]. subst b. pose proof (query_ret _ _ _ _ E) as Hq. symmetry in Hq.
  apply existsb_exists in Hq as (p & Hin & Hp). exists p. split; [apply list_elem_of_In, Hin|].
  apply andb_true_iff in Hp as [P1 P2]. lia.
Qed.

(** The request is refused, reading and changing nothing; or it is one of a
    user whose organisation owns the project of the path, and stays inside. *)
Definition kept_apart (rt : Route) (r : Request) (i : input) (d d' : DB) (o : outcome) : Prop :=
  d' = d /\ refused o
  \/ exists u perms, authorized (Perm rt) (Project rt) r (i_now i) d u perms
       /\ evolves (eq (u_OrgID u)) (path_int "project_id" r) d d'
       /\ visible (eq (u_OrgID u)) (path_int "project_id" r) o.

Lemma refuse_ok rt r i d d' st msg :
  d' = d -> st ∈ [StatusUnauthorized; StatusForbidden; StatusNotFound] -> kept_apart rt r i d d' (writeErr st msg).
Proof. intros -> Hst. left. split; [reflexivity|]. exists st, msg. auto. Qed.

Lemma local_ok a rt r i s sx s' res u perms b :
  rt ∈ Routes -> Public rt = false -> ids_unique (db s) -> db sx = db s ->
  authorized (Perm rt) (Project rt) r (i_now i) (db s) u perms ->
  handle_local a rt (Some (context_of u perms (fun _ => b))) r i sx = (s', res) ->
  exists o, res = inr o /\ kept_apart rt r i (db s) (db s') o.
Proof.
  intros Hin Hpub Hids Hdx Hau Hl.
  destruct (handle_local_ok (eq (u_OrgID u)) (path_int "project_id" r) a rt
    (Some (context_of u perms (fun _ => b))) r i sx s' res) as [H1 H2];
    [rewrite Hdx; exact Hids|exact Hin|congruence|reflexivity| |exact Hl|].
  { intros c [= <-]. symmetry. apply OrgID_context_of. }
  rewrite Hdx in H1. destruct res as [e|o]; [destruct H2|]. exists o. split; [reflexivity|]. right. eauto.
Qed.

(** C4: tenants stay apart and access is denied by default. Whatever the
    database does, a non-public route either refuses with 401, 403 or 404,
    reading and changing nothing, or the request carries a live credential of
    a user whose role, and token if it lists permissions, grant the route's
    permission, and whose organisation owns the project of the path; then the
    request changes no issue and no alert rule of another project, adds and
    revokes tokens and writes audit entries in the user's organisation only,
    and shows rows of this project and organisation only. *)
Theorem tenants_stay_apart a rt r i s s' res :
  rt ∈ Routes -> Public rt = false -> ids_unique (db s) -> dispatch a rt r i s = (s', res) ->
  exists o, res = inr o /\ kept_apart rt r i (db s) (db s') o.
Proof.
  intros Hin Hpub Hids. unfold dispatch. rewrite Hpub. intros H. unfold bind at 1 in H.
  destruct (authenticate r i s) as [s1 x] eqn:Ea. apply authenticate_ok in Ea as (Hd1 & cred & -> & Hcred).
  destruct cred as [[u perms]|].
  2:{ injection H as <- <-. eexists. split; [reflexivity|]. apply refuse_ok; [exact Hd1|set_solver]. }
  specialize (Hcred u perms eq_refl). cbv zeta in H.
  destruct (Authz.Can (Some (context_of u perms (fun _ => false))) (Perm rt)) eqn:Ec; cbn [negb] in H.
  2:{ injection H as <- <-. eexists. split; [reflexivity|]. apply refuse_ok; [exact Hd1|set_solver]. }
  apply Can_context_of in Ec as [Hrole Hperm]. destruct (Project rt) eqn:Ep; cbn [negb] in H.
  2:{ apply (local_ok a rt r i s s1 s' res u perms false); auto. rewrite Ep. unfold authorized. split_and!; auto. discriminate. }
  destruct (ParseInt (path_value r "project_id")) as [pid|] eqn:Epi.
  2:{ injection H as <- <-. eexists. split; [reflexivity|]. apply refuse_ok; [exact Hd1|set_solver]. }
  unfold bind at 1 in H. destruct (MetaAuth.ProjectInOrg (u_OrgID u) pid s1) as [s2 y] eqn:Ep2.
  apply ProjectInOrg_ok in Ep2 as (Hd2 & b & -> & Hb). cbv zeta in H. rewrite Hd1 in Hd2, Hb.
  destruct (Authz.CanProject _ (Perm rt) pid) eqn:Ecp; cbn [negb] in H.
  2:{ injection H as <- <-. eexists. split; [reflexivity|]. apply refuse_ok; [exact Hd2|set_solver]. }
  apply CanProject_context_of in Ecp. destruct (Hb Ecp) as (p & P1 & P2 & P3).
  assert (Hau : authorized (Perm rt) (Project rt) r (i_now i) (db s) u perms).
  { unfold authorized. rewrite Epi. split_and!; auto. intros _. exists p. rewrite P2. auto. }
  destruct (Locator a) as [owner|]; [|apply (local_ok a rt r i s s2 s' res u perms b); auto].
  destruct (owner pid) as [addr|]; [|apply (local_ok a rt r i s s2 s' res u perms b); auto].
  injection H as <- <-. exists (proxy url_Parse_ok addr). split; [reflexivity|]. right. exists u, perms.
  rewrite Hd2. split_and!; auto using evolves_refl. unfold proxy. destruct (url_Parse_ok addr); exact Logic.I.
Qed.

(** ** Revocation *)

(** Any route, public ones included, stays inside the widest footprint. *)
Lemma dispatch_evolves a rt r i s : rt ∈ Routes -> ids_unique (db s) ->
  evolves (fun _ => True) (path_int "project_id" r) (db s) (db (fst (dispatch a rt r i s))).
Proof.
  intros Hin Hids. unfold dispatch.
  assert (Hl : forall actx sx, db sx = db s ->
    evolves (fun _ => True) (path_int "project_id" r) (db s) (db (fst (handle_local a rt actx r i sx)))).
  { intros actx sx Hd. destruct (handle_local a rt actx r i sx) as [s' res] eqn:E. rewrite <- Hd in *.
    apply (handle_local_ok (fun _ => True) (path_int "project_id" r)) in E; auto. apply E. }
  destruct (Public rt); [apply Hl; reflexivity|]. unfold bind at 1.
  destruct (authenticate r i s) as [s1 x] eqn:Ea. apply authenticate_ok in Ea as (Hd1 & cred & -> & _).
  destruct cred as [[u perms]|]; [|cbn; rewrite Hd1; apply evolves_refl].
  cbv zeta. destruct (negb _); [cbn; rewrite Hd1; apply evolves_refl|].
  destruct (negb _); [apply Hl, Hd1|].
  destruct (ParseInt _) as [pid|]; [|cbn; rewrite Hd1; apply evolves_refl].
  unfold bind at 1. destruct (MetaAuth.ProjectInOrg _ pid s1) as [s2 y] eqn:Ep2.
  apply ProjectInOrg_ok in Ep2 as (Hd2 & b & -> & _). rewrite Hd1 in Hd2.
  destruct (negb _); [cbn; rewrite Hd2; apply evolves_refl|].
  destruct (Locator a) as [owner|]; [|apply Hl, Hd2]. destruct (owner pid); [|apply Hl, Hd2].
  cbn. rewrite Hd2. apply evolves_refl.
Qed.

Definition after (a : API) (reqs : list (Route * Request * input)) (s : St DB) : St DB :=
  fold_left (fun s q => fst (dispatch a (fst (fst q)) (snd (fst q)) (snd q) s)) reqs s.

Definition dead_token (h : string) (d : DB) : Prop :=
  NoDup (map t_Hash (tokens d)) /\ exists t, t ∈ tokens d /\ t_Hash t = h /\ t_Revoked t = true.
Definition dead_session (id : string) (d : DB) : Prop :=
  NoDup (map s_ID (sessions d)) /\ exists x, x ∈ sessions d /\ s_ID x = id /\ s_Revoked x = true.

Lemma dead_token_evolves own pid h d d' : evolves own pid d d' -> dead_token h d -> dead_token h d'.
Proof.
  unfold dead_token. intros E [Hn (t & Hin & Hh & Hr)]. destruct (ev_tokens _ _ _ _ E) as (l & new & -> & Hf & _ & Hn').
  split; [exact (Hn' Hn)|]. apply list_elem_of_lookup_1 in Hin as [k Hk].
  destruct (Forall2_lookup_l _ _ _ _ _ Hf Hk) as (t' & Hk' & Ht').
  exists t'. split; [apply elem_of_app; left; apply (list_elem_of_lookup_2 _ _ _ Hk')|].
  destruct Ht' as [->|[-> _]]; auto.
Qed.

Lemma dead_session_evolves own pid h d d' : evolves own pid d d' -> dead_session h d -> dead_session h d'.
Proof.
  unfold dead_session. intros E [Hn (t & Hin & Hh & Hr)]. destruct (ev_sessions _ _ _ _ E) as (l & new & -> & Hf & Hn').
  split; [exact (Hn' Hn)|]. apply list_elem_of_lookup_1 in Hin as [k Hk].
  destruct (Forall2_lookup_l _ _ _ _ _ Hf Hk) as (t' & Hk' & Ht').
  exists t'. split; [apply elem_of_app; left; apply (list_elem_of_lookup_2 _ _ _ Hk')|].
  destruct Ht' as [->| ->]; auto.
Qed.

Lemma after_inv (P : DB -> Prop) a reqs s :
  (forall own pid d d', evolves own pid d d' -> P d -> P d') ->
  Forall (fun q => fst (fst q) ∈ Routes) reqs -> ids_unique (db s) -> P (db s) -> P (db (after a reqs s)).
Proof.
  intros HP Hr. revert s. induction Hr as [|q reqs Hq _ IH]; intros s Hi Hs; [exact Hs|].
  pose proof (dispatch_evolves a (fst (fst q)) (snd (fst q)) (snd q) s Hq Hi) as E.
  apply IH; [apply (ids_stable _ _ _ _ Hi E)|apply (HP _ _ _ _ E Hs)].
Qed.

Lemma unique_by {A B} (f : A -> B) l x y : NoDup (map f l) -> x ∈ l -> y ∈ l -> f x = f y -> x = y.
Proof.
  induction l as [|z l IH]; intros Hn Hx Hy E; [inversion Hx|]. inversion Hn as [|? ? Hz Hn']; subst.
  apply elem_of_cons in Hx as [->|Hx], Hy as [->|Hy]; auto; exfalso; apply Hz.
  - rewrite E. apply list_elem_of_fmap. eauto.
  - rewrite <- E. apply list_elem_of_fmap. eauto.
Qed.

(** C22: revocations last. Once a token, or a session, is revoked, no sequence
    of API requests brings it back: every later request that presents it to a
    non-public route is answered 401. *)
Theorem revocation_is_final a reqs s rt r i :
  Forall (fun q => fst (fst q) ∈ Routes) reqs -> ids_unique (db s) -> Public rt = false ->
  (HasPrefix (header r "Authorization") "Bearer " = true
     /\ dead_token (Auth.HashToken (drop_str 7 (header r "Authorization"))) (db s)
   \/ HasPrefix (header r "Authorization") "Bearer " = false
     /\ exists id, cookie r SessionCookie = Some id /\ dead_session id (db s)) ->
  snd (dispatch a rt r i (after a reqs s)) = inr (writeErr StatusUnauthorized "authentication required").
Proof.
  intros Hreqs Hids Hpub Hdead. unfold dispatch. rewrite Hpub. unfold bind at 1.
  assert (H : snd (authenticate r i (after a reqs s)) = inr None).
  2:{ destruct (authenticate r i (after a reqs s)) as [s1 x]. cbn in H. subst x. reflexivity. }
  unfold authenticate. destruct Hdead as [[-> Hd]|[-> (id & Ec & Hd)]].
  - apply (after_inv _ a reqs s (fun own pid d d' => dead_token_evolves own pid _ d d') Hreqs Hids) in Hd.
    destruct (negb _); [reflexivity|]. unfold bind, try.
    destruct (MetaAuth.TokenByHash _ _ _) as [s1 x] eqn:E. apply TokenByHash_ok in E as [_ Ht].
    destruct x as [e|[t u]]; [reflexivity|]. exfalso. destruct (Ht t u eq_refl) as (_ & row & Hin & Hl & _).
    destruct Hd as [Hn (t' & Hin' & Hh & Hr)]. unfold MetaAuth.live_token in Hl.
    rewrite !andb_true_iff, bool_decide_eq_true, negb_true_iff in Hl. destruct Hl as [[L1 L2] _].
    assert (row = t') as -> by (apply (unique_by t_Hash _ _ _ Hn Hin Hin'); congruence). congruence.
  - apply (after_inv _ a reqs s (fun own pid d d' => dead_session_evolves own pid _ d d') Hreqs Hids) in Hd.
    unfold session_cookie. rewrite Ec. case_bool_decide; [reflexivity|]. unfold bind, try.
    destruct (MetaAuth.SessionUser _ _ _) as [s1 x] eqn:E. apply SessionUser_ok in E as [_ Ht].
    destruct x as [e|u]; [reflexivity|]. exfalso. destruct (Ht u eq_refl) as (_ & row & Hin & Hl & _).
    destruct Hd as [Hn (t' & Hin' & Hh & Hr)]. unfold MetaAuth.live_session in Hl.
    rewrite !andb_true_iff, bool_decide_eq_true, negb_true_iff in Hl. destruct Hl as [[L1 L2] _].
    assert (row = t') as -> by (apply (unique_by s_ID _ _ _ Hn Hin Hin'); congruence). congruence.
Qed.
End Dispatch.

(** ** Two organisations, a session of the first, a revoked token *)
Definition no_key : string -> list byte -> Z -> Z -> Z -> Z -> option (list byte) := fun _ _ _ _ _ _ => None.
Definition issue (id p : Z) : Issue := mkIssue id p p "fp" "message" "boom" "error" "unresolved" 1 1 1 None.
Definition tok : string := fst (Auth.NewToken (repeat x07 32)).
Definition two_orgs : DB :=
  set_tokens [mkToken 1 1 1 "ci" (Auth.HashToken tok) "" 0 true]
   (set_sessions [mkSession "sess" 1 100 false]
    (set_users [mkUser 1 1 "a@x" "" "member"]
     (set_issues [issue 1 1; issue 2 2]
      (set_projects [mkProject 1 1 "p" "p" ""; mkProject 2 2 "p" "p" ""]
       (set_orgs [mkOrg 1 "one" "one"; mkOrg 2 "two" "two"] Meta.empty))))).
Definition api : API := mkAPI "" "" None None None None None "".
Definition get_issue : Route := mkRoute "GET" "/api/0/projects/{project_id}/issues/{issue_id}" Authz.IssueRead false true handleIssueGet.
Definition request (pid auth sid : string) : Request :=
  mkRequest (fun _ => pid) [] (fun k => if bool_decide (k = "Authorization") then auth else "")
    None (fun _ => Some sid) "10.0.0.1:5" false (mkStream [] EOF).
Definition in1 : input := mkInput 50 50 [].
Definition run1 (r : Request) : St DB * (sql_error + outcome) :=
  dispatch (fun _ => true) api get_issue r in1 (mkSt two_orgs [] []).

Lemma get_issue_in : get_issue ∈ Routes no_key (fun c => c).
Proof. unfold Routes. repeat (apply elem_of_cons; (left; reflexivity) || right). Qed.

Lemma two_orgs_ids : ids_unique two_orgs.
Proof. repeat constructor; set_solver. Qed.

(** The own issue is shown, the other organisation's project is not found, and
    the revoked token is not accepted. *)
Example run1_answers :
  snd (run1 (request "1" "" "sess")) = inr (Served None 200 (PIssue (issue 1 1)) None)
  /\ snd (run1 (request "2" "" "sess")) = inr (writeErr 404 "not found")
  /\ snd (run1 (request "1" ("Bearer " +:+ tok) "sess")) = inr (writeErr 401 "authentication required").
Proof. vm_compute. auto. Qed.

Lemma tenants_stay_apart_witness :
  exists o, snd (run1 (request "1" "" "sess")) = inr o
    /\ kept_apart get_issue (request "1" "" "sess") in1 two_orgs (db (fst (run1 (request "1" "" "sess")))) o.
Proof.
  apply (tenants_stay_apart no_key (fun c => c) (fun _ => true) api get_issue (request "1" "" "sess") in1 (mkSt two_orgs [] []));
    [exact get_issue_in|reflexivity|exact two_orgs_ids|apply surjective_pairing].
Defined.

Lemma revocation_is_final_witness :
  snd (dispatch (fun _ => true) api get_issue (request "1" ("Bearer " +:+ tok) "") in1
         (after (fun _ => true) api [(get_issue, request "1" "" "sess", in1)] (mkSt two_orgs [] [])))
  = inr (writeErr StatusUnauthorized "authentication required").
Proof.
  apply (revocation_is_final no_key (fun c => c) (fun _ => true) api [(get_issue, request "1" "" "sess", in1)]).
  - constructor; [exact get_issue_in|constructor].
  - exact two_orgs_ids.
  - reflexivity.
  - left. split; [vm_compute; reflexivity|]. split; [vm_compute; repeat constructor; set_solver|].
    eexists. split; [left|split; [vm_compute; reflexivity|reflexivity]].
Defined.

End ApiTenancy.
