(* ===== verification/GoFlag.v ===== *)
(** * Command-line flags (package [flag]), integers of any base
    ([strconv.ParseInt] with base 0) and durations ([time.ParseDuration]) *)
From S2P Require Import Prelude GoStrings GoFloat GoUtf8.
#[local] Open Scope string_scope.
#[local] Open Scope list_scope.
#[local] Open Scope Z_scope.
#[local] Open Scope leser_scope.

Module Flag.

(** ** Integers: a base prefix, digits, underscores between digits *)
Definition digit_of (c : ascii) : option Z :=
  let z := code c in
  if in_range 48 57 z then Some (z - 48)
  else if in_range 97 122 z then Some (z - 87)
  else if in_range 65 90 z then Some (z - 55) else None.

Definition base_prefix (c : ascii) : option Z :=
  let l := to_lower_ascii c in
  if bool_decide (l = "b"%char) then Some 2
  else if bool_decide (l = "o"%char) then Some 8
  else if bool_decide (l = "x"%char) then Some 16 else None.

Fixpoint digits_value (base : Z) (s : string) (acc : Z) : option Z :=
  match s with
  | "" => Some acc
  | String c s =>
      if bool_decide (c = "_"%char) then digits_value base s acc
      else match digit_of c with
           | Some d => if d <? base then digits_value base s (acc * base + d) else None
           | None => None
           end
  end.

(** [saw]: the last character was a digit, an underscore, or neither. *)
Inductive seen := SawDigit | SawUnderscore | SawOther.
Fixpoint underscores (hex : bool) (s : string) (saw : seen) : bool :=
  match s with
  | "" => match saw with SawUnderscore => false | _ => true end
  | String c s =>
      let z := code (to_lower_ascii c) in
      if in_range 48 57 z || hex && in_range 97 102 z then underscores hex s SawDigit
      else if bool_decide (c = "_"%char)
      then match saw with SawDigit => underscores hex s SawUnderscore | _ => false end
      else match saw with SawUnderscore => false | _ => underscores hex s SawOther end
  end.

Definition underscoreOK (s : string) : bool :=
  match s with
  | String z (String p t) =>
      match base_prefix p with
      | Some b => if bool_decide (z = "0"%char) then underscores (b =? 16) t SawDigit else underscores false s SawOther
      | None => underscores false s SawOther
      end
  | _ => underscores false s SawOther
  end.

(** The unsigned part. *)
Definition magnitude (s : string) : option Z :=
  let v := match s with
    | "" => None
    | String z t =>
        if bool_decide (z = "0"%char) then
          match t with
          | String p (String _ _ as u) =>
              match base_prefix p with Some b => digits_value b u 0 | None => digits_value 8 t 0 end
          | _ => digits_value 8 t 0
          end
        else digits_value 10 s 0
    end in
  if existsb_str (fun c => bool_decide (c = "_"%char)) s && negb (underscoreOK s) then None else v.

Definition ParseInt0 (s : string) : option Z :=
  let signed (neg : bool) (t : string) :=
    match magnitude t with
    | Some v => if (v <? 2 ^ 63) || neg && (v =? 2 ^ 63) then Some (if neg then - v else v) else None
    | None => None
    end in
  match s with
  | String c t =>
      if bool_decide (c = "-"%char) then signed true t
      else if bool_decide (c = "+"%char) then signed false t else signed false s
  | "" => None
  end.

(** ** Durations: a sign, then numbers with a unit, fractions allowed *)
Definition is_dot (c : ascii) : bool := bool_decide (c = "."%char).

(** leadingInt; [None] is an overflow. *)
Fixpoint leadingInt (s : string) (x : Z) : option (Z * string) :=
  match s with
  | String c t =>
      match digit_val c with
      | None => Some (x, s)
      | Some d =>
          if 2 ^ 63 / 10 <? x then None
          else if 2 ^ 63 <? 10 * x + d then None else leadingInt t (10 * x + d)
      end
  | "" => Some (x, "")
  end.

(** leadingFraction: digits past the precision are skipped. *)
Fixpoint leadingFraction (s : string) (x : Z) (scale : float64) (overflow : bool) : Z * float64 * string :=
  match s with
  | String c t =>
      match digit_val c with
      | None => (x, scale, s)
      | Some d =>
          if overflow || ((2 ^ 63 - 1) / 10 <? x) || (2 ^ 63 <? 10 * x + d) then leadingFraction t x scale true
          else leadingFraction t (10 * x + d) (f_mul scale (f_of_Z 10)) false
      end
  | "" => (x, scale, "")
  end.

Fixpoint take_unit (s : string) : string * string :=
  match s with
  | String c t =>
      if is_dot c || bool_decide (digit_val c <> None) then ("", s)
      else let '(u, r) := take_unit t in (String c u, r)
  | "" => ("", "")
  end.

(** unitMap; the micro sign has two encodings. *)
Definition unit_of (u : string) : option Z :=
  if bool_decide (u = "ns") then Some 1
  else if bool_decide (u ∈ ["us"; "µs"; "μs"]) then Some 1000
  else if bool_decide (u = "ms") then Some 1000000
  else if bool_decide (u = "s") then Some 1000000000
  else if bool_decide (u = "m") then Some 60000000000
  else if bool_decide (u = "h") then Some 3600000000000 else None.

(** One number with its unit: the nanoseconds and what follows. *)
Definition duration_part (s : string) : option (Z * string) :=
  match leadingInt s 0 with
  | None => None
  | Some (v, s1) =>
      let pre := negb (strlen s1 =? strlen s) in
      let '(f, scale, s2, post) :=
        match s1 with
        | String c t =>
            if is_dot c then
              let '(f, scale, s2) := leadingFraction t 0 (f_of_Z 1) false in (f, scale, s2, negb (strlen s2 =? strlen t))
            else (0, f_of_Z 1, s1, false)
        | "" => (0, f_of_Z 1, s1, false)
        end in
      if negb pre && negb post then None
      else
        let '(u, rest) := take_unit s2 in
        if bool_decide (u = "") then None
        else match unit_of u with
        | None => None
        | Some unit =>
            if 2 ^ 63 / unit <? v then None
            else
              let v := v * unit in
              if 0 <? f then
                match f_trunc 0 (2 ^ 64) (f_mul (f_of_Z f) (f_div (f_of_Z unit) scale)) with
                | Some w => if 2 ^ 63 <? u64 (v + w) then None else Some (u64 (v + w), rest)
                | None => None
                end
              else Some (v, rest)
        end
  end.

(** Every part takes a byte, so the length of the string is fuel enough. *)
Fixpoint duration_parts (fuel : nat) (s : string) (d : Z) : option Z :=
  match fuel, s with
  | _, "" => Some d
  | O, _ => None
  | S fuel, _ =>
      match duration_part s with
      | Some (v, rest) => if 2 ^ 63 <? u64 (d + v) then None else duration_parts fuel rest (u64 (d + v))
      | None => None
      end
  end.

Definition ParseDuration (s : string) : option Z :=
  let unsigned (neg : bool) (t : string) :=
    if bool_decide (t = "0") then Some 0
    else if bool_decide (t = "") then None
    else match duration_parts (String.length t) t 0 with
    | Some d => if neg then Some (- d) else if 2 ^ 63 - 1 <? d then None else Some d
    | None => None
    end in
  match s with
  | String c t =>
      if bool_decide (c = "-"%char) then unsigned true t
      else if bool_decide (c = "+"%char) then unsigned false t else unsigned false s
  | "" => None
  end.

(** ** Flags *)
Inductive kind := KString | KInt | KBool | KDuration.
Inductive value := VString (s : string) | VInt (z : Z) | VBool (b : bool).

Definition ParseBool (s : string) : option bool :=
  if bool_decide (s ∈ ["1"; "t"; "T"; "TRUE"; "true"; "True"]) then Some true
  else if bool_decide (s ∈ ["0"; "f"; "F"; "FALSE"; "false"; "False"]) then Some false else None.

Definition parse_value (k : kind) (s : string) : option value :=
  match k with
  | KString => Some (VString s)
  | KInt => VInt <$> ParseInt0 s
  | KBool => VBool <$> ParseBool s
  | KDuration => VInt <$> ParseDuration s
  end.

(** The name and value of an argument that is a flag; [None] ends the flags. *)
Inductive arg := Positional | Terminator | BadSyntax | AFlag (name : string) (v : option string).
Definition is_dash (c : ascii) : bool := bool_decide (c = "-"%char).
Definition flag_name (name : string) : arg :=
  match name with
  | "" => BadSyntax
  | String c rest =>
      if is_dash c || bool_decide (c = "="%char) then BadSyntax
      else match Cut "=" rest with
           | Some (a, v) => AFlag (String c a) (Some v)
           | None => AFlag name None
           end
  end.
Definition classify (s : string) : arg :=
  match s with
  | String c (String d t as r) =>
      if negb (is_dash c) then Positional
      else if negb (is_dash d) then flag_name r
      else match t with "" => Terminator | _ => flag_name t end
  | _ => Positional
  end.

(** FlagSet.Parse: the flags set, in order, and the arguments left; [None] is
    an error, help included. *)
Fixpoint Parse (formal : list (string * kind)) (args : list string) : option (list (string * value) * list string) :=
  match args with
  | [] => Some ([], [])
  | s :: rest =>
      match classify s with
      | Positional => Some ([], args)
      | Terminator => Some ([], rest)
      | BadSyntax => None
      | AFlag name v =>
          match List.find (fun f => bool_decide (fst f = name)) formal with
          | None => None
          | Some (_, k) =>
              let set (w : string) (rest : option (list (string * value) * list string)) :=
                match parse_value k w, rest with
                | Some x, Some (l, r) => Some ((name, x) :: l, r)
                | _, _ => None
                end in
              match v, k with
              | Some w, _ => set w (Parse formal rest)
              | None, KBool => set "true" (Parse formal rest)
              | None, _ =>
                  match rest with
                  | [] => None
                  | w :: rest => set w (Parse formal rest)
                  end
              end
          end
      end
  end.

(** The last value set, or the default. *)
Definition lookup_flag (name : string) (l : list (string * value)) : option value :=
  snd <$> last (List.filter (fun x => bool_decide (fst x = name)) l).
Definition str_flag (name d : string) (l : list (string * value)) : string :=
  match lookup_flag name l with Some (VString s) => s | _ => d end.
Definition int_flag (name : string) (d : Z) (l : list (string * value)) : Z :=
  match lookup_flag name l with Some (VInt z) => z | _ => d end.
Definition bool_flag (name : string) (l : list (string * value)) : bool :=
  match lookup_flag name l with Some (VBool b) => b | _ => false end.

Example int_examples :
  map ParseInt0 ["0"; "42"; "-7"; "0x1F"; "0b101"; "017"; "1_000"; "0x_f"; "_1"; "1__0"; "0_7"; "09"; ""; "9223372036854775808"]
  = [Some 0; Some 42; Some (-7); Some 31; Some 5; Some 15; Some 1000; Some 15; None; None; Some 7; None; None; None].
Proof. vm_compute. reflexivity. Qed.

Example duration_examples :
  map ParseDuration ["20s"; "250ms"; "1.5h"; "2h45m"; "-1.5s"; "0"; "+5us"; ".5s"; "1.s"; "3"; "s"; ""; "1x"; "9223372036854775808ns";
    "-9223372036854775808ns"; "9223372036854775807ns"; "1h.s"; "0.1s"]
  = [Some 20000000000; Some 250000000; Some 5400000000000; Some 9900000000000; Some (-1500000000); Some 0; Some 5000;
     Some 500000000; Some 1000000000; None; None; None; None; None; Some (-9223372036854775808); Some 9223372036854775807; None; Some 100000000].
Proof. vm_compute. reflexivity. Qed.

Example flag_parse_examples :
  map (Parse [("n", KInt); ("json", KBool); ("email", KString)])
    [["-n"; "3"; "--json"; "x"; "-n"]; ["--email=a=b"; "--"; "-n"]; ["-json=maybe"]; ["-email"]; ["--help"]; ["-"; "-n"]]
  = [Some ([("n", VInt 3); ("json", VBool true)], ["x"; "-n"]); Some ([("email", VString "a=b")], ["-n"]);
     None; None; None; Some ([], ["-"; "-n"])].
Proof. vm_compute. reflexivity. Qed.

End Flag.
