(* ===== verification/Router.v ===== *)
(** * The command router (cmd/leser/router.go)

    A command's body is of any type [R]; the router either runs one with the
    arguments after its name, or prints and returns an exit code. *)
From S2P Require Import Prelude GoSort GoStrings GoUtf8.
#[local] Open Scope string_scope.
#[local] Open Scope list_scope.
#[local] Open Scope Z_scope.
#[local] Open Scope leser_scope.

Module Router.

Section Router.
Context {R : Type}.

Record Command := mkCommand { Name : string; Summary : string; Run : list string -> R }.
Record Router := mkRouter { name : string; cmds : gmap string Command; order : list string }.

Definition NewRouter (n : string) : Router := mkRouter n ∅ [].

(** Register; [None] is the panic on a duplicate. *)
Definition Register (c : Command) (r : Router) : option Router :=
  match cmds r !! Name c with
  | Some _ => None
  | None => Some (mkRouter (name r) (<[Name c := c]> (cmds r)) (order r ++ [Name c]))
  end.

Fixpoint register_all (cs : list Command) (r : Router) : option Router :=
  match cs with [] => Some r | c :: cs => r ← Register c r; register_all cs r end.

Inductive dispatched := Ran (r : R) | Printed (text : string) (code : Z).

(** ** Usage *)
Definition nl : string := String (chr 10) "".
Definition spaces (n : nat) : string := String.concat "" (repeat " " n).
(** [%-*s]: padded to the width in runes. *)
Definition pad (width : nat) (s : string) : string := s +:+ spaces (width - length (runes s)).

Context `{!SliceSort String.le}.
Definition dash : string := String (chr 0xE2) (String (chr 0x80) (String (chr 0x94) "")).

Definition Usage (r : Router) : string :=
  let names := sort_slice String.le (map fst (map_to_list (cmds r))) in
  let width := foldr Nat.max 0%nat (map String.length names) in
  name r +:+ " " +:+ dash +:+ " open-source error tracking & observability" +:+ nl +:+ nl
  +:+ "Usage: " +:+ name r +:+ " <command> [flags]" +:+ nl +:+ nl +:+ "Commands:" +:+ nl
  +:+ String.concat "" (map (fun n =>
        "  " +:+ pad width n +:+ "  " +:+ match cmds r !! n with Some c => Summary c | None => "" end +:+ nl) names)
  +:+ "  " +:+ pad width "help" +:+ "  Show this help" +:+ nl.

(** ** Dispatch; [quote] is the verb [%q]. *)
Definition Dispatch (quote : string -> string) (args : list string) (r : Router) : dispatched :=
  match args with
  | [] => Printed (Usage r) 2
  | n :: rest =>
      if bool_decide (n ∈ ["-h"; "--help"; "help"]) then Printed (Usage r) 0
      else match cmds r !! n with
           | None => Printed (name r +:+ ": unknown command " +:+ quote n +:+ nl +:+ nl +:+ Usage r) 2
           | Some c => Ran (Run c rest)
           end
  end.

(** A table of distinct names registers, and dispatches each name to its own
    command with the arguments after it. *)
Lemma register_all_lookup cs r r' :
  register_all cs r = Some r' ->
  (forall n, cmds r' !! n = match List.find (fun c => bool_decide (Name c = n)) cs with Some c => Some c | None => cmds r !! n end)
  /\ NoDup (map Name cs) /\ name r' = name r /\ forall c, c ∈ cs -> cmds r !! Name c = None.
Proof.
  revert r. induction cs as [|c cs IH]; intros r; cbn [register_all].
  { intros [= ->]. split_and!; auto; [constructor|]. intros c Hc. inversion Hc. }
  unfold Register. destruct (cmds r !! Name c) eqn:E; [discriminate|]. cbn. intros H.
  apply IH in H as (H1 & H2 & H3 & H4). cbn in *. split_and!; auto.
  - intros n. rewrite H1. destruct (bool_decide_reflect (Name c = n)) as [<-|Hne].
    + destruct (List.find _ cs) as [c'|] eqn:Ef.
      * apply List.find_some in Ef as [Hin Hb]. apply bool_decide_eq_true in Hb. apply list_elem_of_In in Hin.
        specialize (H4 c' Hin). rewrite Hb, lookup_insert_eq in H4. discriminate.
      * apply lookup_insert_eq.
    + rewrite lookup_insert_ne by exact Hne. reflexivity.
  - constructor; [|exact H2]. intros Hin. apply list_elem_of_fmap in Hin as (c' & Hn & Hin).
    specialize (H4 c' Hin). rewrite <- Hn, lookup_insert_eq in H4. discriminate.
  - intros c' [->|Hin]%elem_of_cons; [exact E|]. specialize (H4 c' Hin).
    apply lookup_insert_None in H4. tauto.
Qed.
End Router.
#[global] Arguments Command : clear implicits.
#[global] Arguments Router : clear implicits.

End Router.
