(* ===== verification/Server.v ===== *)
(** * The HTTP server (internal/server/server.go, internal/logging/logging.go,
    internal/buildinfo/buildinfo.go)

    A handler is a function of the request's trace id in its context and
    ends in a response or a panic. *)
From S2P Require Import Prelude GoStrings GoUtf8 Grouping Sha1.
#[local] Open Scope string_scope.
#[local] Open Scope list_scope.
#[local] Open Scope Z_scope.
#[local] Open Scope leser_scope.

Module Server.

(** ** Logging *)
Inductive Level := LevelDebug | LevelInfo | LevelWarn | LevelError.

Definition ParseLevel (lower_rune : Z -> Z) (s : string) : Level :=
  let l := Grouping.ToLower lower_rune (TrimSpace s) in
  if bool_decide (l = "debug") then LevelDebug
  else if bool_decide (l = "warn") || bool_decide (l = "warning") then LevelWarn
  else if bool_decide (l = "error") then LevelError
  else LevelInfo.

(** New: a JSON handler on standard error at this level. *)
Record Logger := mkLogger { log_level : Level }.
Definition new_logger (lower_rune : Z -> Z) (level : string) : Logger := mkLogger (ParseLevel lower_rune level).

(** The context of a request: the trace id, if one was stored. *)
Definition context : Type := option string.
Definition WithTrace (ctx : context) (id : string) : context := Some id.
Definition TraceID (ctx : context) : string := default "" ctx.

(** ** Build information: the values stamped by the linker, and what
    debug.ReadBuildInfo says, the Go version and the settings. *)
Record Info := mkInfo { Version : string; Commit : string; Date : string; GoVersion : string }.
Definition Get (version commit date : string) (build_info : option (string * list (string * string))) : Info :=
  match build_info with
  | None => mkInfo version commit date ""
  | Some (go, settings) =>
      mkInfo version
        (if bool_decide (commit = "unknown")
         then fold_left (fun c s => if bool_decide (fst s = "vcs.revision") then snd s else c) settings commit
         else commit) date go
  end.
Definition info_fields (i : Info) : list (string * string) :=
  [("version", Version i); ("commit", Commit i)]
  ++ (if bool_decide (Date i = "") then [] else [("date", Date i)]) ++ [("go_version", GoVersion i)].

(** ** Handlers; a panic keeps the headers set before it (no handler of this
    package has begun its body then). *)
Inductive content := JSON (fields : list (string * string)) | HTML (text : string).
Record Response := mkResponse { status : Z; hdrs : list (string * string); body : content }.
Inductive result := Done (r : Response) | Panic (hdrs : list (string * string)).
Definition Handler : Type := string -> context -> result.   (* method and path *)

Definition writeJSON (status : Z) (fields : list (string * string)) : Response :=
  mkResponse status [("Content-Type", "application/json")] (JSON fields).

Definition handleHealthz : Handler := fun _ _ => Done (writeJSON 200 [("status", "ok")]).
Definition handleReadyz (ready : bool) : Handler := fun _ _ =>
  Done (if negb ready then writeJSON 503 [("status", "not_ready")] else writeJSON 200 [("status", "ready")]).
Definition handleVersion (info : Info) : Handler := fun _ _ => Done (writeJSON 200 (info_fields info)).

(** trace: a new id in the header and in the context. *)
Definition newTraceID (rnd : list byte) : string := Sha1.hex_encode rnd.
Definition set_header (h : string * string) (r : result) : result :=
  match r with
  | Done r => Done (mkResponse (status r) (h :: hdrs r) (body r))
  | Panic hs => Panic (h :: hs)
  end.
Definition trace (rnd : list byte) (next : Handler) : Handler := fun p ctx =>
  let id := newTraceID rnd in
  set_header ("X-Trace-Id", id) (next p (WithTrace ctx id)).

(** recover: a panic becomes a 500 with the trace id of its own request. *)
Definition recover (next : Handler) : Handler := fun p ctx =>
  match next p ctx with
  | Done r => Done r
  | Panic hs =>
      let r := writeJSON 500 [("error", "internal"); ("trace_id", TraceID ctx)] in
      Done (mkResponse (status r) (hs ++ hdrs r) (body r))
  end.

(** The embedded files of the user interface, served by [FileServerFS] of
    net/http, or a placeholder. *)
Section Files.
Context {FS : Type} (FileServerFS : FS -> Handler).

Definition handleUI (u : option FS) : Handler :=
  match u with
  | None => fun _ _ => Done (mkResponse 200 [("Content-Type", "text/html; charset=utf-8")]
              (HTML "<!doctype html><title>leser</title><h1>leser</h1><p>UI not built yet.</p>"))
  | Some fs => FileServerFS fs
  end.

(** New: the fixed routes, the user interface if there is one, the mounts. *)
Record Server := mkServer { addr : string; ui : option FS; ready : bool; mounts : list (string * Handler) }.
Definition New (a : string) (u : option FS) (ms : list (string * Handler)) : Server := mkServer a u false ms.
Definition SetReady (v : bool) (s : Server) : Server := mkServer (addr s) (ui s) v (mounts s).

Definition patterns (info : Info) (s : Server) : list (string * Handler) :=
  [("GET /healthz", handleHealthz); ("GET /readyz", handleReadyz (ready s)); ("GET /version", handleVersion info)]
  ++ match ui s with Some _ => [("GET /", handleUI (ui s))] | None => [] end ++ mounts s.

(** ListenAndServe: the listener fails, or the context ends and the shutdown
    within five seconds gives an error or none. *)
Inductive ended := ListenFailed (err : string) | ContextDone (shutdown : option string).
Definition ListenAndServe (s : Server) (e : ended) : option string :=
  match e with ListenFailed err => Some err | ContextDone err => err end.

Section Mux.
(** The mux of net/http over its patterns, its 404 and 405 included. *)
Context (ServeMux : list (string * Handler) -> Handler).

(** The handler of the server; net/http gives it a context without a trace. *)
Definition handler (rnd : list byte) (info : Info) (s : Server) (p : string) : result :=
  recover (trace rnd (ServeMux (patterns info s))) p None.

(** ** The process survives a panic, but its answer names no trace. *)
Lemma handler_never_panics rnd info s p : exists r, handler rnd info s p = Done r.
Proof. unfold handler, recover. destruct (trace _ _ _ _); eauto. Qed.

Lemma panic_answer_has_no_trace rnd info s p hs :
  ServeMux (patterns info s) p (Some (newTraceID rnd)) = Panic hs ->
  exists r, handler rnd info s p = Done r /\ status r = 500 /\ body r = JSON [("error", "internal"); ("trace_id", "")]
    /\ ("X-Trace-Id", newTraceID rnd) ∈ hdrs r.
Proof.
  intros H. unfold handler, recover, trace, WithTrace. rewrite H. cbn. eexists. split_and!; try reflexivity. left.
Qed.

(** Without a user interface nothing answers at its pattern: the placeholder
    of handleUI is never mounted. *)
Lemma placeholder_unreachable info s : "GET /" ∉ map fst (mounts s) -> ui s = None -> "GET /" ∉ map fst (patterns info s).
Proof. intros Hm Hu. unfold patterns. rewrite Hu. cbn. rewrite !elem_of_cons. intros [?|[?|[?|?]]]; try discriminate. auto. Qed.
End Mux.
End Files.

End Server.
