(* ===== verification/Cmd.v ===== *)
(** * The commands (cmd/leser/main.go)

    A command over the local database is a transaction-monad computation from
    its arguments, with its random bytes and clock reading, to an exit code
    and what it printed. *)
From S2P Require Import Prelude GoSort GoStrings GoUtf8 Sha1 GoJson GoFlag Grouping Monad Sql MetaDb MetaAuth Authz.
From S2P Require Import Password Config Router Envelope.
From stdpp Require Import pretty.
Import Sql Meta.
#[local] Open Scope string_scope.
#[local] Open Scope list_scope.
#[local] Open Scope Z_scope.
#[local] Open Scope leser_scope.

Module Cmd.

Notation T := (Tx DB).

(** ** What a command ends with *)
Inductive printed :=
  | Silent | UsageText | ErrText
  | UserCreated (json : bool) (id : Z) (email role password : string)
  | TokenCreated (json : bool) (id : Z) (name plain : string)
  | ConfigShown (json : bool) (eff : list (string * string))
  | VersionShown (json : bool)
  | EventSent (json : bool) (eventID endpoint : string).
Inductive result := Exit (code : Z) (p : printed) | Crash.

Record input := mkInput {
  i_key : list byte; i_pw : list byte; i_salt : list byte; i_token : list byte; i_now : Z }.

(** randomPassword: each random byte picks a character, modulo their number. *)
Definition chars : string := "abcdefghijkmnpqrstuvwxyzABCDEFGHJKLMNPQRSTUVWXYZ23456789".
Definition randomPassword (b : list byte) : string :=
  String.concat "" (map (fun x =>
    match String.get (Z.to_nat (Z_of_byte x mod strlen chars)) chars with Some c => String c "" | None => "" end) b).

Definition Arg (k : string) : list (string * Flag.value) -> string := Flag.str_flag k "".

Section Commands.
Context (IDKey : string -> list byte -> Z -> Z -> Z -> Z -> option (list byte)) (lower_rune : Z -> Z).

(** A database call whose error ends the command with code 1. *)
Definition or_exit {A} (m : T A) (k : A -> T result) : T result :=
  let! r := try m in
  match r with inl _ => ret (Exit 1 ErrText) | inr a => k a end.

(** ** user create *)
Definition user_flags : list (string * Flag.kind) :=
  [("email", Flag.KString); ("password", Flag.KString); ("role", Flag.KString); ("data-dir", Flag.KString); ("json", Flag.KBool)].

Definition create_user (fl : list (string * Flag.value)) (i : input) : T result :=
  let email := Arg "email" fl in
  let role := Flag.str_flag "role" Authz.RoleMember fl in
  let pw := if bool_decide (Arg "password" fl = "") then randomPassword (i_pw i) else Arg "password" fl in
  or_exit migrate (fun _ =>
  or_exit (Bootstrap "Default" "my-app" (i_key i)) (fun pk =>
  match Auth.HashPassword IDKey pw (i_salt i) with
  | None => ret Crash
  | Some hash =>
      or_exit (MetaAuth.CreateUser lower_rune (p_OrgID (fst pk)) email hash role) (fun id =>
        let! _ := try (MetaAuth.Audit (mkAudit (p_OrgID (fst pk)) 0 "user.create" email role "" "" 0) (i_now i)) in
        ret (Exit 0 (UserCreated (Flag.bool_flag "json" fl) id email role pw)))
  end)).

Definition cmdUser (args : list string) (i : input) : T result :=
  match args with
  | sub :: rest =>
      if negb (bool_decide (sub = "create")) then ret (Exit 2 UsageText)
      else match Flag.Parse user_flags rest with
      | None => ret (Exit 2 UsageText)
      | Some (fl, _) =>
          if bool_decide (Arg "email" fl = "") then ret (Exit 2 ErrText)
          else if bool_decide (Authz.RolePermissions (Flag.str_flag "role" Authz.RoleMember fl) = []) then ret (Exit 2 ErrText)
          else create_user fl i
      end
  | [] => ret (Exit 2 UsageText)
  end.

(** ** token create *)
Definition token_flags : list (string * Flag.kind) :=
  [("email", Flag.KString); ("name", Flag.KString); ("perms", Flag.KString); ("expires-days", Flag.KInt);
   ("data-dir", Flag.KString); ("json", Flag.KBool)].

Definition token_expiry (days now : Z) : Z :=
  if 0 <? days then i64 (now + i64 (days * (24 * 3600 * 1000000000))) else 0.

Definition create_token (fl : list (string * Flag.value)) (i : input) : T result :=
  let name := Arg "name" fl in
  let perms := Arg "perms" fl in
  or_exit migrate (fun _ =>
  or_exit (MetaAuth.UserByEmail lower_rune (Arg "email" fl)) (fun u =>
    let '(plain, hash) := Auth.NewToken (i_token i) in
    let permList := if bool_decide (perms = "") then [] else split_char "," perms in
    or_exit (MetaAuth.CreateToken (MetaAuth.mkAPIToken 0 (u_OrgID u) (u_ID u) name permList
               (token_expiry (Flag.int_flag "expires-days" 90 fl) (i_now i))) hash) (fun id =>
      let! _ := try (MetaAuth.Audit (mkAudit (u_OrgID u) (u_ID u) "token.create" name "cli" "" "" 0) (i_now i)) in
      ret (Exit 0 (TokenCreated (Flag.bool_flag "json" fl) id name plain))))).

Definition cmdToken (args : list string) (i : input) : T result :=
  match args with
  | sub :: rest =>
      if negb (bool_decide (sub = "create")) then ret (Exit 2 UsageText)
      else match Flag.Parse token_flags rest with
      | None => ret (Exit 2 UsageText)
      | Some (fl, _) =>
          if bool_decide (Arg "email" fl = "") || bool_decide (Arg "name" fl = "") then ret (Exit 2 ErrText)
          else create_token fl i
      end
  | [] => ret (Exit 2 UsageText)
  end.
End Commands.

(** ** config show, version *)
Section Environment.
Context (ReadFile : string -> option string) (LookupEnv : string -> option string).

Definition config_keys : list string := ["listen_addr"; "data_dir"; "log_level"; "public_url"; "secret_key"].

Definition cmdConfig (args : list string) : result :=
  match args with
  | sub :: rest =>
      if negb (bool_decide (sub = "show")) then Exit 2 UsageText
      else match Flag.Parse [("config", Flag.KString); ("effective", Flag.KBool); ("json", Flag.KBool)] rest with
      | None => Exit 2 UsageText
      | Some (fl, _) =>
          match Config.Load ReadFile LookupEnv (Arg "config" fl) with
          | (_, Some _) => Exit 1 ErrText
          | (c, None) =>
              let eff := Config.Effective c in
              Exit 0 (ConfigShown (Flag.bool_flag "json" fl) (map (fun k => (k, default "" (eff !! k))) config_keys))
          end
      end
  | [] => Exit 2 UsageText
  end.

Definition cmdVersion (args : list string) : result :=
  match Flag.Parse [("json", Flag.KBool)] args with
  | None => Exit 2 UsageText
  | Some (fl, _) => Exit 0 (VersionShown (Flag.bool_flag "json" fl))
  end.

(** ** serve: the decisions before anything is opened *)
Record cluster := mkCluster { cl_NodeID : string; cl_APIAddr : string; cl_Bind : string; cl_Port : Z; cl_Join : list string }.
Record plan := mkPlan {
  cfg : Config.Config; doIngest : bool; doWorker : bool; doQuery : bool; clustered : option cluster }.

Definition serve_flags : list (string * Flag.kind) :=
  [("config", Flag.KString); ("listen", Flag.KString); ("data-dir", Flag.KString); ("log-level", Flag.KString);
   ("role", Flag.KString); ("cluster-node-id", Flag.KString); ("cluster-api-addr", Flag.KString);
   ("cluster-bind", Flag.KString); ("cluster-port", Flag.KInt); ("cluster-join", Flag.KString)].

Definition role_flags (role : string) : option (bool * bool * bool) :=
  if bool_decide (role = "all") then Some (true, true, true)
  else if bool_decide (role = "ingest") then Some (true, false, false)
  else if bool_decide (role = "worker") then Some (false, true, false)
  else if bool_decide (role = "query") then Some (false, false, true)
  else None.

Definition override (name : string) (set : string -> Config.Config -> Config.Config) (fl : list (string * Flag.value))
    (c : Config.Config) : Config.Config :=
  match Flag.lookup_flag name fl with Some (Flag.VString v) => set v c | _ => c end.

Definition serve_plan (args : list string) : Z + plan :=
  match Flag.Parse serve_flags args with
  | None => inl 2
  | Some (fl, _) =>
      let node := Arg "cluster-node-id" fl in
      let is_clustered := negb (bool_decide (node = "")) in
      if is_clustered && bool_decide (Arg "cluster-api-addr" fl = "") then inl 2
      else match role_flags (Flag.str_flag "role" "all" fl) with
      | None => inl 2
      | Some (ingest, worker, query) =>
          match Config.Load ReadFile LookupEnv (Arg "config" fl) with
          | (_, Some _) => inl 1
          | (c, None) =>
              let c := override "listen" Config.set_ListenAddr fl c in
              let c := override "data-dir" Config.set_DataDir fl c in
              let c := override "log-level" Config.set_LogLevel fl c in
              match Config.Validate c with
              | Some _ => inl 1
              | None =>
                  let join := Arg "cluster-join" fl in
                  inr (mkPlan c ingest worker query
                    (if is_clustered
                     then Some (mkCluster node (Arg "cluster-api-addr" fl) (Flag.str_flag "cluster-bind" "0.0.0.0" fl)
                            (Flag.int_flag "cluster-port" 7946 fl) (if bool_decide (join = "") then [] else split_char "," join))
                     else None))
              end
          end
      end
  end.
End Environment.

(** What a plan opens, mounts and starts. *)
Definition wal_read_only (p : plan) : bool := negb (doIngest p).
Definition opens_store (p : plan) : bool := doWorker p || doQuery p.
Definition has_engine (p : plan) : bool := doWorker p.
Inductive task := RunPipeline | RunEngine | RateCheckpoint | RefreshLag | RefreshStore.
Definition tasks (p : plan) : list task :=
  (if doWorker p then [RunPipeline; RunEngine] else [])
  ++ (if doIngest p then [RateCheckpoint] else [])
  ++ (if doIngest p && negb (doWorker p) then [RefreshLag] else [])
  ++ (if doQuery p && negb (doWorker p) then [RefreshStore] else []).

(** The database part of the boot: migrations, the default project, and the
    first administrator if there is no user. *)
Section Boot.
Context (IDKey : string -> list byte -> Z -> Z -> Z -> Z -> option (list byte)) (lower_rune : Z -> Z).

Inductive booted := BootFailed | Booted (p : Meta.Project) (k : ProjectKey) (admin : option string) | BootCrash.

Definition boot_admin (orgID : Z) (i : input) : T (option (option string)) :=
  let! n := try (MetaAuth.CountUsers) in
  match n with
  | inl _ => ret (Some None)
  | inr n =>
      if negb (n =? 0) then ret (Some None)
      else
        let pw := randomPassword (i_pw i) in
        match Auth.HashPassword IDKey pw (i_salt i) with
        | None => ret None
        | Some hash =>
            let! u := try (MetaAuth.CreateUser lower_rune orgID "admin@leser.local" hash Authz.RoleOwner) in
            ret (Some (match u with inl _ => None | inr _ => Some pw end))
        end
  end.

Definition boot (p : plan) (i : input) : T booted :=
  let! r := try migrate in
  match r with
  | inl _ => ret BootFailed
  | inr _ =>
      let! r := try (Bootstrap "Default" "my-app" (i_key i)) in
      match r with
      | inl _ => ret BootFailed
      | inr (proj, key) =>
          if doQuery p then
            let! admin := boot_admin (p_OrgID proj) i in
            ret (match admin with Some a => Booted proj key a | None => BootCrash end)
          else ret (Booted proj key None)
      end
  end.
End Boot.

(** ** DSN and test event; [url_Parse] is the library's: scheme, user name,
    host and path, or an error. *)
Record url := mkURL { u_Scheme : string; u_User : option string; u_Host : string; u_Path : string }.
Section URL.
Context (url_Parse : string -> option url).

Definition dsnFor (publicURL publicKey : string) (projectID : Z) : string :=
  match url_Parse publicURL with
  | Some u =>
      if bool_decide (u_Host u = "") then "http://" +:+ publicKey +:+ "@localhost:8080/" +:+ pretty projectID
      else u_Scheme u +:+ "://" +:+ publicKey +:+ "@" +:+ u_Host u +:+ "/" +:+ pretty projectID
  | None => "http://" +:+ publicKey +:+ "@localhost:8080/" +:+ pretty projectID
  end.

(** [%032x] of a number of nanoseconds. *)
Definition hex32 (z : Z) : string := Sha1.hex_encode (Sha1.be_bytes 16 z).
Definition q (s : string) : string := Json.quoted s.
Definition nl : string := String (chr 10) "".
Definition test_event (eventID : string) : string :=
  "{" +:+ q "event_id" +:+ ":" +:+ q eventID +:+ "," +:+ q "level" +:+ ":" +:+ q "error" +:+ "," +:+ q "message" +:+ ":"
  +:+ q "leser test event" +:+ "," +:+ q "exception" +:+ ":{" +:+ q "values" +:+ ":[{" +:+ q "type" +:+ ":" +:+ q "TestError"
  +:+ "," +:+ q "value" +:+ ":" +:+ q "pipeline verification" +:+ "}]}}".
Definition test_body (eventID : string) : string :=
  let event := test_event eventID in
  "{" +:+ q "event_id" +:+ ":" +:+ q eventID +:+ "}" +:+ nl
  +:+ "{" +:+ q "type" +:+ ":" +:+ q "event" +:+ "," +:+ q "length" +:+ ":" +:+ pretty (strlen event) +:+ "}" +:+ nl
  +:+ event +:+ nl.

(** The request sent, or the exit before it. *)
Record post := mkPost { endpoint : string; auth_header : string; post_body : string; post_event : string }.
Definition send_request (dsn : string) (now : Z) : option post :=
  match url_Parse dsn with
  | Some (mkURL scheme (Some key) host (String _ (String _ _ as projectID))) =>
      let eventID := hex32 now in
      Some (mkPost (scheme +:+ "://" +:+ host +:+ "/api/" +:+ projectID +:+ "/envelope/")
              ("Sentry sentry_key=" +:+ key +:+ ", sentry_version=7") (test_body eventID) eventID)
  | _ => None
  end.

(** [answer]: the status of the response, [None] for no response. *)
Definition cmdSendTestEvent (args : list string) (now : Z) (answer : post -> option Z) : result :=
  match Flag.Parse [("dsn", Flag.KString); ("json", Flag.KBool)] args with
  | None => Exit 2 UsageText
  | Some (fl, _) =>
      if bool_decide (Arg "dsn" fl = "") then Exit 2 ErrText
      else match send_request (Arg "dsn" fl) now with
      | None => Exit 2 ErrText
      | Some p =>
          match answer p with
          | Some 200 => Exit 0 (EventSent (Flag.bool_flag "json" fl) (post_event p) (endpoint p))
          | _ => Exit 1 ErrText
          end
      end
  end.
End URL.

(** ** The command table *)
Definition commands {R} (serve config version send user token : list string -> R) : list (Router.Command R) :=
  [Router.mkCommand "serve" "Boot the server (self-migrate, serve API + UI)" serve;
   Router.mkCommand "config" "Inspect configuration (config show --effective)" config;
   Router.mkCommand "version" "Print build metadata" version;
   Router.mkCommand "send-test-event" "Send a test event through a DSN to verify the pipeline" send;
   Router.mkCommand "user" "Manage users (user create --email --password --role)" user;
   Router.mkCommand "token" "Manage API tokens (token create --email --name)" token].
Definition newRouter {R} (serve config version send user token : list string -> R) : option (Router.Router R) :=
  Router.register_all (commands serve config version send user token) (Router.NewRouter "leser").

(** The table registers without a panic. *)
Example newRouter_ok : exists r : Router.Router nat,
  newRouter (fun _ => 0%nat) (fun _ => 1%nat) (fun _ => 2%nat) (fun _ => 3%nat) (fun _ => 4%nat) (fun _ => 5%nat) = Some r.
Proof. eexists. vm_compute. reflexivity. Qed.

(** The test event is an envelope of one event item. *)
Example test_event_parses :
  match Envelope.Parse (list_byte_of_string (test_body (hex32 1700000000000000000))) (Envelope.defaults (Envelope.mkLimits 0 0 0)) with
  | inr e => map (fun i => (Envelope.ih_Type (Envelope.it_Header i), string_of_list_byte (Envelope.it_Payload i))) (Envelope.e_Items e)
             = [("event", test_event (hex32 1700000000000000000))]
  | inl _ => False
  end.
Proof. vm_compute. reflexivity. Qed.

End Cmd.
