(* ===== verification/Sink.v ===== *)
(** * What main wires between the components (cmd/leser/main.go: issueSink,
    FingerprintsFn, StatsFn, EventsFn)

    The issue sink carries a hit of the pipeline to the metadata store and the
    outcome to the alert engine; the three functions give the API its view of
    the event store. *)
From S2P Require Import Prelude GoSort GoStrings GoFloat Monad Grouping EventStore Pipeline.
From S2P Require Import Sql MetaDb MetaIssues Alerts.
Import Sql Meta.
#[local] Open Scope Z_scope.
#[local] Open Scope leser_scope.

Module Sink.

Notation T := (Tx DB).

(** ** The queries of the API against the event store *)
Section Queries.
Context `{!EventStore.Parquet}.
Import EventStore.

(** The callback of FingerprintsFn: [seen] and [fps]. *)
Definition collect_fp (e : Event) : M (gset string * list string) es_error unit := fun s =>
  let '(seen, fps) := s in
  if bool_decide (e_Fingerprint e ∈ seen) then (s, inr tt)
  else (({[e_Fingerprint e]} ∪ seen, fps ++ [e_Fingerprint e]), inr tt).

Definition fp_query (projectID : Z) (release environment userID : string) : Query :=
  mkQuery projectID 0 0 "" "" release environment userID 5000.

Definition FingerprintsFn (projectID : Z) (release environment userID : string) (fs : gmap path SegFile) (st : Store)
    : list string * (es_error + unit) * Store :=
  let '((_, fps), r, st) := Scan collect_fp (fp_query projectID release environment userID) fs st (∅, []) in
  (fps, r, st).

Definition stats_query (projectID tmin tmax : Z) : Query := mkQuery projectID tmin tmax "" "" "" "" "" 0.
Definition StatsFn (math_Log : float64 -> float64) (projectID tmin tmax bucket : Z) (fs : gmap path SegFile) (st : Store)
    : option Stats :=
  Aggregate math_Log (stats_query projectID tmin tmax) bucket 10 fs st.

Record apiEvent := mkApiEvent {
  ae_EventID : string; ae_Timestamp : Z; ae_Level : string; ae_Release : string; ae_Environment : string;
  ae_UserID : string; ae_Message : string; ae_Payload : list byte }.
Definition api_event (e : Event) : apiEvent :=
  mkApiEvent (EventID e) (Timestamp e) (e_Level e) (e_Release e) (e_Environment e) (e_UserID e) (Message e) (Payload e).
Definition collect_event (e : Event) : M (list apiEvent) es_error unit := fun out => (out ++ [api_event e], inr tt).

Definition events_query (projectID : Z) (fingerprint : string) (limit : Z) : Query :=
  mkQuery projectID 0 0 "" fingerprint "" "" "" limit.
Definition EventsFn (projectID : Z) (fingerprint : string) (limit : Z) (fs : gmap path SegFile) (st : Store)
    : list apiEvent * (es_error + unit) * Store :=
  Scan collect_event (events_query projectID fingerprint limit) fs st [].
End Queries.

(** ** The issue sink *)

(** [k_m] is the cache of the projects' organisations, [k_engine] the alert
    engine, which may be nil. *)
Record issueSink := mkSink { k_m : gmap Z Z; k_engine : option Alerts.Engine }.

Definition SinkM := M (St DB * issueSink) sql_error.

Definition lift {A} (m : T A) : SinkM A := fun s => let '(d, r) := m (fst s) in ((d, snd s), r).
Definition set_m (f : gmap Z Z -> gmap Z Z) : SinkM unit :=
  modify (fun s => (fst s, mkSink (f (k_m (snd s))) (k_engine (snd s)))).
Definition set_engine (e : Alerts.Engine) : SinkM unit :=
  modify (fun s => (fst s, mkSink (k_m (snd s)) (Some e))).

Definition org_of (projectID : Z) : SinkM Z :=
  let! s := get in
  match k_m (snd s) !! projectID with
  | Some o => ret o
  | None => let! o := lift (ProjectOrg projectID) in set_m (<[projectID := o]>) ;; ret o
  end.

Section Evaluate.
Context `{!MapRange Alerts.Rule}.

(** Evaluate of the engine with the rules of the metadata store; [clock]
    gives the time at which each rule is looked at. *)
Definition Evaluate (clock : nat -> Z) (act : Alerts.IssueActivity) (e : Alerts.Engine) : SinkM Alerts.Engine :=
  let! rules := try (lift (MetaAlerts.EnabledRules (Alerts.ac_ProjectID act))) in
  ret (match rules with
       | inl _ => e
       | inr rs => Alerts.Evaluate (imap (fun i r => (r, clock i)) rs) act e
       end).

Definition upsert_of (orgID : Z) (u : Pipeline.IssueHit) : Issues.IssueUpsert :=
  Issues.mkUpsert orgID (Pipeline.ih_ProjectID u) (Pipeline.ih_Fingerprint u)
    (Grouping.basis_string (Pipeline.ih_Basis u)) (Pipeline.ih_Title u) (Pipeline.ih_Level u) (Pipeline.ih_SeenAt u).

Definition activity (orgID : Z) (u : Pipeline.IssueHit) (out : Issues.IssueOutcome) : Alerts.IssueActivity :=
  Alerts.mkActivity orgID (Pipeline.ih_ProjectID u) (Issues.io_ID out) (Pipeline.ih_Title u) (Pipeline.ih_Level u)
    (Issues.io_Status out) (Issues.io_TimesSeen out) (Issues.io_IsNew out) (Issues.io_Regressed out).

Definition UpsertIssue (clock : nat -> Z) (u : Pipeline.IssueHit) : SinkM Z :=
  let! orgID := org_of (Pipeline.ih_ProjectID u) in
  let! out := lift (Issues.UpsertIssue (upsert_of orgID u)) in
  let! s := get in
  match k_engine (snd s) with
  | None => ret (Issues.io_ID out)
  | Some e =>
      let! e := Evaluate clock (activity orgID u out) e in
      set_engine e ;; ret (Issues.io_ID out)
  end.

(** The calls the pipeline makes, one after the other, and what each
    returns; it logs an error and goes on. *)
Fixpoint feed (l : list (Pipeline.IssueHit * (nat -> Z))) : SinkM (list (sql_error + Z)) :=
  match l with
  | [] => ret []
  | (u, clock) :: l => let! r := try (UpsertIssue clock u) in let! rs := feed l in ret (r :: rs)
  end.
End Evaluate.

End Sink.
