(* ===== verification/SinkProps.v ===== *)
(** * Stored events reach their issue, and a search sees the store

    The sink counts every hit once, in the organisation its project belongs
    to; the fingerprints of an event search are those of the rows it selects. *)
From S2P Require Import Prelude GoSort GoStrings GoFloat Monad Grouping EventStore EventStoreProps Pipeline.
From S2P Require Import Sql MetaDb MetaIssues IssuesProps Alerts Sink.
Import Sql Meta Issues IssuesProps Sink.
#[local] Open Scope Z_scope.
#[local] Open Scope leser_scope.

Module SinkProps.

Notation T := (Tx DB).
Notation IssueHit := Pipeline.IssueHit.
Notation ih_ProjectID := Pipeline.ih_ProjectID.

(** ** The sink *)

(** The organisation of a project, and what the sink relies on: its cache
    agrees with the table, and issues are in their project's organisation. *)
Definition org_row (d : DB) (p : Z) : option Z := p_OrgID <$> List.find (fun x => p_ID x =? p) (projects d).
Definition cache_ok (d : DB) (m : gmap Z Z) : Prop := forall p o, m !! p = Some o -> org_row d p = Some o.
Definition orgs_ok (d : DB) : Prop := Forall (fun i => org_row d (i_ProjectID i) = Some (i_OrgID i)) (issues d).

Record sink_ok (s : St DB * issueSink) : Prop := {
  so_issues : issues_ok (db (fst s));
  so_orgs : orgs_ok (db (fst s));
  so_cache : cache_ok (db (fst s)) (k_m (snd s)) }.

(** The bounds a result puts on the times the hit was counted: a call whose
    context ended while it waited may have been carried out. *)
Definition at_least (r : sql_error + Z) : Z := match r with inr _ => 1 | inl _ => 0 end.
Definition at_most (r : sql_error + Z) : Z := match r with inr _ | inl ErrCtx => 1 | inl _ => 0 end.
Fixpoint total {C} (f : sql_error + Z -> Z) (p : Z) (l : list (IssueHit * C)) (rs : list (sql_error + Z)) : Z :=
  match l, rs with
  | (u, _) :: l, r :: rs => (if p =? ih_ProjectID u then f r else 0) + total f p l rs
  | _, _ => 0
  end.

Lemma or_not_found_inv {A} (m : T A) s s' r : or_not_found m s = (s', r) ->
  exists r', m s = (s', r') /\ forall a, r = inr a -> r' = inr a.
Proof.
  unfold or_not_found, bind, try. destruct (m s) as [s1 [e|a]].
  - destruct e; intros [= <- <-]; eexists; (split; [reflexivity|discriminate]).
  - intros [= <- <-]. eexists. split; [reflexivity|auto].
Qed.

Lemma ProjectOrg_inv p s s' r : ProjectOrg p s = (s', r) ->
  db s' = db s /\ forall o, r = inr o -> org_row (db s) p = Some o.
Proof.
  unfold ProjectOrg. intros H. apply or_not_found_inv in H as (r' & H & Hr). split; [eapply query_row_db, H|].
  intros o Ho. rewrite (Hr o Ho) in H. exact (query_row_ret _ _ _ _ H).
Qed.

Lemma org_of_inv p s s' r : org_of p s = (s', r) -> sink_ok s ->
  sink_ok s' /\ db (fst s') = db (fst s) /\ k_engine (snd s') = k_engine (snd s)
  /\ forall o, r = inr o -> org_row (db (fst s)) p = Some o.
Proof.
  intros H [H1 H2 H3]. unfold org_of, bind at 1, get in H. destruct (k_m (snd s) !! p) as [o|] eqn:E.
  { injection H as <- <-. split_and!; [constructor; assumption|reflexivity..|]. intros o' [= <-]. apply H3, E. }
  unfold bind at 1, lift in H. destruct (ProjectOrg p (fst s)) as [d [e|o]] eqn:EP;
    apply ProjectOrg_inv in EP as [D Ho].
  - injection H as <- <-. split_and!; [constructor; cbn; rewrite D; assumption|exact D|reflexivity|discriminate].
  - unfold bind, set_m, modify in H. injection H as <- <-. specialize (Ho o eq_refl). cbn.
    split_and!; [|exact D|reflexivity|intros o' [= <-]; exact Ho].
    constructor; cbn; rewrite D; try assumption. intros p' o' Hl. apply lookup_insert_Some in Hl as [[<- <-]|[_ Hl]];
      [exact Ho|apply H3, Hl].
Qed.

(** An upsert leaves the other tables alone, and the issue it adds is in the
    organisation it was given. *)
Lemma upsert_effect_orgs u d d' out : upsert_effect u d d' out -> org_row d (iu_ProjectID u) = Some (iu_OrgID u) ->
  projects d' = projects d /\ (orgs_ok d -> orgs_ok d').
Proof.
  intros [id _ _ -> _|i j st _ _ _ _ _ _ _ _ -> _] Ho; (split; [reflexivity|]); unfold orgs_ok; rewrite issues_set; intros H.
  - apply Forall_app. split; [exact H|]. repeat constructor. exact Ho.
  - apply Forall_map. eapply Forall_impl; [exact H|]. intros x Hx. cbn. unfold upd. destruct (by_id _ x); exact Hx.
Qed.

Lemma upsert_effect_ok u s s' r : Issues.UpsertIssue u s = (s', r) -> issues_ok (db s) -> issues_ok (db s').
Proof. intros H Hok. pose proof (run_op_ok (OpUpsert u) s Hok) as K. cbn in K. rewrite H in K. exact K. Qed.

(** What one call of the metadata store does to what the sink relies on. *)
Lemma upsert_step o u s k s' r :
  sink_ok (s, k) -> org_row (db s) (iu_ProjectID u) = Some (iu_OrgID u) -> Issues.UpsertIssue u s = (s', r) ->
  o = match r with inl e => inl e | inr out => inr (io_ID out) end ->
  sink_ok (s', k) /\ exists c, at_least o <= c <= at_most o
    /\ forall p, visible p (db s') = visible p (db s) + (if p =? iu_ProjectID u then c else 0).
Proof.
  intros [H1 H2 H3] Ho H ->. cbn [fst snd] in *. pose proof (upsert_effect_ok _ _ _ _ H H1) as Hok.
  assert (Hc : db s' = db s /\ (exists e, r = inl e)
    \/ exists out, upsert_effect u (db s) (db s') out /\ (r = inr out \/ r = inl ErrCtx)).
  { unfold Issues.UpsertIssue in H. destruct (_ || _); [injection H as <- <-; left; eauto|].
    destruct (Write_cases _ _ _ _ H) as [?|(s1 & s2 & out & E1 & E2 & E3 & Hr)]; [left; assumption|].
    right. exists out. split; [|exact Hr]. rewrite <- E1, E3. apply upsert_tx_ok; [rewrite E1; exact H1|exact E2]. }
  destruct Hc as [[D [e ->]]|(out & He & Hr)].
  - split; [constructor; cbn; rewrite D; assumption|]. exists 0. split.
    + destruct e; cbn; lia.
    + intros p. rewrite D. destruct (_ =? _); lia.
  - destruct (upsert_effect_orgs _ _ _ _ He Ho) as [Hp Hor]. split.
    + constructor; cbn; auto. intros p o Hl. unfold org_row. rewrite Hp. apply H3, Hl.
    + exists 1. split; [destruct Hr as [->| ->]; cbn; lia|]. intros p. apply (upsert_visible u _ _ out); assumption.
Qed.

Section Feed.
Context `{!MapRange Alerts.Rule}.

Lemma Evaluate_inv clock act e s s' r : Evaluate clock act e s = (s', r) ->
  db (fst s') = db (fst s) /\ k_m (snd s') = k_m (snd s) /\ exists e', r = inr e'.
Proof.
  unfold Evaluate, bind, try, lift. destruct (MetaAlerts.EnabledRules _ (fst s)) as [d r1] eqn:E.
  apply query_db in E. destruct r1; intros [= <- <-]; cbn; eauto.
Qed.

Lemma sink_step clock u s s' r : sink_ok s -> Sink.UpsertIssue clock u s = (s', r) ->
  sink_ok s' /\ exists c, at_least r <= c <= at_most r
    /\ forall p, visible p (db (fst s')) = visible p (db (fst s)) + (if p =? ih_ProjectID u then c else 0).
Proof.
  intros Hok H. unfold Sink.UpsertIssue, bind at 1 in H.
  destruct (org_of (ih_ProjectID u) s) as [s1 [e|o]] eqn:E1; destruct (org_of_inv _ _ _ _ E1 Hok) as (Hok1 & D1 & _ & Ho).
  { injection H as <- <-. split; [exact Hok1|]. exists 0. rewrite D1. split; [destruct e; cbn; lia|].
    intros p. destruct (_ =? _); lia. }
  specialize (Ho o eq_refl). destruct s1 as [d1 k1]. cbn [fst snd] in *. rewrite <- D1 in Ho |- *. clear D1.
  unfold bind at 1, lift in H. cbn [fst snd] in H.
  destruct (Issues.UpsertIssue (upsert_of o u) d1) as [d2 r2] eqn:E2.
  destruct (upsert_step _ (upsert_of o u) d1 k1 d2 r2 Hok1 Ho E2 eq_refl) as (Hok2 & Hc).
  destruct r2 as [e|out]; [injection H as <- <-; auto|]. unfold bind at 1, get in H. cbn [snd] in H.
  destruct (k_engine k1) as [e|]; [|injection H as <- <-; auto]. unfold bind at 1 in H.
  destruct (Evaluate clock (activity o u out) e (d2, k1)) as [[d3 k3] r3] eqn:E3.
  destruct (Evaluate_inv _ _ _ _ _ _ E3) as (D3 & M3 & e' & ->). cbn [fst snd] in D3, M3.
  unfold bind, set_engine, modify in H. injection H as <- <-. cbn [fst snd]. rewrite D3. split; [|exact Hc].
  destruct Hok2. constructor; cbn [fst snd k_m] in *; rewrite ?D3, ?M3; assumption.
Qed.

(** Whatever fails in between, the sink answers every hit, and what the
    issue streams show grows by exactly one event of the hit's project for
    each answer without an error (a hit whose context ended while it waited
    may count too); every issue is in the organisation its project belongs to,
    which the cache of organisations agrees with. *)
Lemma sink_counts_hits l : forall s, sink_ok s -> exists s' rs, feed l s = (s', inr rs) /\ sink_ok s' /\ length rs = length l
  /\ forall p, visible p (db (fst s)) + total at_least p l rs <= visible p (db (fst s'))
            <= visible p (db (fst s)) + total at_most p l rs.
Proof.
  induction l as [|[u clock] l IH]; intros s Hok; cbn [feed].
  { exists s, []. split_and!; auto. intros p. cbn. lia. }
  unfold bind at 1, try. destruct (Sink.UpsertIssue clock u s) as [s1 r] eqn:E.
  destruct (sink_step _ _ _ _ _ Hok E) as (Hok1 & c & Hc & Hv).
  destruct (IH s1 Hok1) as (s2 & rs & E2 & Hok2 & Hl & Hrs). exists s2, (r :: rs). rewrite (bind_ok _ _ _ _ _ E2).
  split_and!; auto; [cbn; lia|]. intros p. specialize (Hrs p). rewrite Hv in Hrs. cbn [total].
  destruct (p =? ih_ProjectID u); lia.
Qed.

End Feed.

(** ** The event search *)
Section Search.
Context `{!EventStore.Parquet} `{!SliceSort EventStore.event_le} `{!SliceSort EventStore.seg_le}.
Import EventStore EventStoreProps.

(** The callback over rows: the fingerprints seen, each once. *)
Lemma collect_fp_visit l : forall seen fps, NoDup fps -> (forall f, f ∈ seen <-> f ∈ fps) ->
  exists seen' fps', visit collect_fp l (seen, fps) = ((seen', fps'), inr tt) /\ NoDup fps'
    /\ forall f, f ∈ fps' <-> f ∈ fps \/ exists e, e ∈ l /\ e_Fingerprint e = f.
Proof.
  induction l as [|e l IH]; intros seen fps Hn Hs; cbn [visit].
  - exists seen, fps. split_and!; auto. intros f. split; [auto|]. intros [?|(e & He & _)]; [assumption|inversion He].
  - unfold bind, collect_fp at 1. destruct (bool_decide_reflect (e_Fingerprint e ∈ seen)) as [Hi|Hi].
    + destruct (IH _ _ Hn Hs) as (s' & f' & -> & Hn' & Hf). exists s', f'. split_and!; auto. intros f. rewrite Hf.
      split; [intros [?|(x & ? & ?)]; [auto|right; exists x; split; [right|]; auto]|].
      intros [?|(x & [->|?]%elem_of_cons & Hx)]; [auto|left; subst f; apply Hs, Hi|eauto].
    + destruct (IH ({[e_Fingerprint e]} ∪ seen) (fps ++ [e_Fingerprint e])) as (s' & f' & -> & Hn' & Hf).
      * apply NoDup_app. split_and!; [exact Hn| |apply NoDup_singleton]. intros x Hx ->%list_elem_of_singleton.
        apply Hi, Hs, Hx.
      * intros f. rewrite elem_of_union, elem_of_singleton, elem_of_app, list_elem_of_singleton, Hs. tauto.
      * exists s', f'. split_and!; auto. intros f. rewrite Hf, elem_of_app, list_elem_of_singleton. split.
        -- intros [[?| ->]|(x & ? & ?)]; [auto|right; exists e; split; [left|]; auto|right; exists x; split; [right|]; auto].
        -- intros [?|(x & [->|?]%elem_of_cons & Hx)]; [auto|auto|eauto].
Qed.

Lemma collect_event_visit l : forall out, visit collect_event l out = (out ++ map api_event l, inr tt).
Proof.
  induction l as [|e l IH]; intros out; cbn [visit map]; [rewrite app_nil_r; reflexivity|].
  unfold bind, collect_event at 1. rewrite IH, <- app_assoc. reflexivity.
Qed.
(** C31: Over buffer and segments, the event search of the API finds exactly
    the fingerprints of the first 5000 rows that match the release,
    environment and user, each once; the events it shows of an issue are
    exactly the first [limit] rows with its fingerprint. *)
Theorem search_sees_the_store projectID fs st :
  segs_ok fs (segs st) -> projectID <> 0 ->
  (forall rel env user, exists fps st', FingerprintsFn projectID rel env user fs st = (fps, inr tt, st') /\ NoDup fps
     /\ forall f, f ∈ fps <-> exists e, e ∈ take 5000 (selected (fp_query projectID rel env user) (all_rows fs st))
                                   /\ e_Fingerprint e = f)
  /\ forall fp limit, 0 < limit -> exists st', EventsFn projectID fp limit fs st
       = (map api_event (take (Z.to_nat limit) (selected (events_query projectID fp limit) (all_rows fs st))), inr tt, st').
Proof.
  intros Hok Hp. split.
  - intros rel env user. unfold FingerprintsFn. set (q := fp_query projectID rel env user).
    assert (Hl : 0 < scan_limit q st) by reflexivity.
    pose proof (Scan_visits collect_fp q fs st (∅, []) Hok Hp Hl) as HV.
    destruct (Scan collect_fp q fs st (∅, [])) as [[[seen fps] r] st']. destruct HV as [HW _].
    change (Z.to_nat (scan_limit q st)) with 5000%nat in HW.
    destruct (collect_fp_visit (take 5000 (selected q (all_rows fs st))) ∅ []) as (s' & f' & E & Hn & Hf);
      [apply NoDup_nil_2|set_solver|].
    rewrite E in HW. injection HW as <- <- <-. exists f', st'. split_and!; auto. intros f. rewrite Hf.
    split; [intros [[]%not_elem_of_nil|?]; assumption|auto].
  - intros fp limit Hl. unfold EventsFn. set (q := events_query projectID fp limit).
    assert (El : scan_limit q st = limit) by (unfold scan_limit; cbn; destruct (Z.leb_spec limit 0); [lia|reflexivity]).
    pose proof (Scan_visits collect_event q fs st [] Hok Hp ltac:(lia)) as HV.
    destruct (Scan collect_event q fs st []) as [[out r] st']. destruct HV as [HW _].
    rewrite El, collect_event_visit in HW. injection HW as <- <-. eauto.
Qed.
End Search.

(** ** Concrete runs *)
#[local] Existing Instance EventStoreProps.simple_parquet.
Definition ex_sink : St DB * issueSink := (ex_st, mkSink ∅ (Some (Alerts.New (Alerts.mkOptions 0 0 0 0 0 0 0)))).
Definition ex_hit (p : Z) (fp : string) : IssueHit * (nat -> Z) :=
  (Pipeline.mkHit p fp Grouping.BasisStacktrace "timeout" "error" 500, fun _ => 1).

Lemma ex_sink_ok : sink_ok ex_sink.
Proof.
  constructor; [exact ex_ok| |].
  - unfold orgs_ok. vm_compute. repeat constructor.
  - intros p o H. cbn in H. rewrite lookup_empty in H. discriminate.
Qed.

(** An event of a merged issue, one of an unknown project, one of a new
    issue. *)
Lemma sink_counts_hits_witness :
  let l := [ex_hit 1 "fc"; ex_hit 9 "fc"; ex_hit 1 "fd"] in
  exists s' rs, feed l ex_sink = (s', inr rs) /\ sink_ok s' /\ length rs = length l
  /\ forall p, visible p (db (fst ex_sink)) + total at_least p l rs <= visible p (db (fst s'))
            <= visible p (db (fst ex_sink)) + total at_most p l rs.
Proof. intros l. apply sink_counts_hits. exact ex_sink_ok. Defined.

Lemma search_sees_the_store_witness :
  (forall rel env user, exists fps st', FingerprintsFn 1 rel env user EventStoreProps.ex_files EventStoreProps.ex_store
       = (fps, inr tt, st') /\ NoDup fps
     /\ forall f, f ∈ fps <-> exists e, e ∈ take 5000 (EventStoreProps.selected (fp_query 1 rel env user)
          (EventStoreProps.all_rows EventStoreProps.ex_files EventStoreProps.ex_store)) /\ EventStore.e_Fingerprint e = f)
  /\ forall fp limit, 0 < limit -> exists st', EventsFn 1 fp limit EventStoreProps.ex_files EventStoreProps.ex_store
       = (map api_event (take (Z.to_nat limit) (EventStoreProps.selected (events_query 1 fp limit)
            (EventStoreProps.all_rows EventStoreProps.ex_files EventStoreProps.ex_store))), inr tt, st').
Proof. apply search_sees_the_store; [exact EventStoreProps.ex_segs_ok|discriminate]. Defined.

End SinkProps.
