(* ===== verification/EndToEnd.v ===== *)
(** * From the log to the issue stream

    The pipeline, the event store, the issue sink, the metadata store and the
    alert engine composed as main composes them: what Run reports goes to the
    sink, in order. Run does not look at the sink's answers, so the calls can
    be made after it. *)
From S2P Require Import Prelude GoSort GoStrings GoFloat GoUtf8 Monad WalSegment Wal WalInv WalReader Grouping Envelope IngestEvent.
From S2P Require Import EventStore EventStoreProps EventStoreRun Pipeline PipelineProps PipelineRun PipelineDrain PipelineLive.
From S2P Require Import Sql MetaDb MetaIssues IssuesProps Alerts Sink SinkProps.
#[local] Open Scope Z_scope.
#[local] Open Scope leser_scope.

Module EndToEnd.
Import Pipeline PipelineProps PipelineRun PipelineDrain PipelineLive SinkProps.

(** The calls with the engine's clock readings of each. *)
Definition calls (clock : nat -> nat -> Z) (hs : list IssueHit) : list (IssueHit * (nat -> Z)) :=
  imap (fun i h => (h, clock i)) hs.

Definition of_project (p : Z) (es : list EventStore.Event) : Z :=
  Z.of_nat (length (List.filter (fun e => EventStore.e_ProjectID e =? p) es)).
Definition answered (r : Sql.sql_error + Z) : Prop := match r with inr _ => True | inl _ => False end.

(** If all calls are answered, each project got as many as it has events. *)
Lemma total_answered f p es hs : (forall i, f (inr i) = 1) -> Forall2 reports es hs -> forall clock rs,
  length rs = length hs -> Forall answered rs -> total f p (calls clock hs) rs = of_project p es.
Proof.
  intros Hf Hr. unfold calls, of_project. induction Hr as [|e h es hs (Hp & _) Hr IH]; intros clock rs Hl Ha; [reflexivity|].
  destruct rs as [|[?|i] rs]; [discriminate|inversion Ha; contradiction|]. inversion Ha as [|? ? _ Ha']; subst.
  rewrite imap_cons. cbn [total List.filter]. injection Hl as Hl. specialize (IH (clock ∘ S) rs Hl Ha').
  cbn in IH |- *. rewrite Hf. rewrite Hp, Z.eqb_sym.
  change (imap (λ i0 h0, (h0, clock (S i0))) hs) with (imap ((λ i0 h0, (h0, clock i0)) ∘ S) hs) in *.
  rewrite IH. destruct (_ =? _); cbn [length]; lia.
Qed.

Section EndToEnd.
Context (time_Parse : string -> option Z) (ParseFloat : string -> option float64)
  (convert_out_of_range : float64 -> Z) (lower_rune : Z -> Z).
Context `{!SliceSort EventStore.event_le} `{!SliceSort EventStore.seg_le} `{!MapRange (Z * Z)} `{!MapRange Alerts.Rule}.
Notation live := (live time_Parse ParseFloat convert_out_of_range lower_rune).
Notation live_run := (live_run time_Parse ParseFloat convert_out_of_range lower_rune).
Notation Run := (Run time_Parse ParseFloat convert_out_of_range lower_rune).
Notation consumed := (consumed time_Parse ParseFloat convert_out_of_range lower_rune).

(** What a run that has stored the events [es] and reported [hs] makes of the
    issue streams. *)
Lemma feed_reported clock k es hs : Forall2 reports es hs -> sink_ok k ->
  exists k' rs, Sink.feed (calls clock hs) k = (k', inr rs) /\ sink_ok k' /\ length rs = length es
    /\ (Forall answered rs -> forall p,
          IssuesProps.visible p (Sql.db (fst k')) = IssuesProps.visible p (Sql.db (fst k)) + of_project p es).
Proof.
  intros C4 Hk. destruct (sink_counts_hits (calls clock hs) k Hk) as (k' & rs & F1 & F2 & F3 & F4).
  assert (Hl : length (calls clock hs) = length hs) by (unfold calls; apply length_imap).
  pose proof (Forall2_length _ _ _ C4) as Hle.
  exists k', rs. split_and!; auto; [congruence|]. intros Ha p. specialize (F4 p).
  rewrite !(total_answered _ p es hs) in F4; auto; try congruence; try reflexivity. lia.
Qed.

(** On a working disk with enough turns, the events [es] of the unread
    records that are no duplicates all end up in segments, the offset on disk
    at the head of the log; and if the metadata store answers the calls made
    for them, the issue streams grow by exactly these events, each in its
    project, every issue in its project's organisation. *)
Theorem events_reach_their_issues s k clock :
  WalInv.wal_wf (Reader.r_st (p_rd s)) -> start_ok ConsumerName (p_rd s) -> EventStoreRun.es_ok (p_es s) ->
  budget s 3 -> works s -> has_issues (p_pl s) = true -> p_hits s = [] -> sink_ok k ->
  let w := Reader.r_st (p_rd s) in
  let p0 := start_offset ConsumerName (p_rd s) in
  (turns (plim (p_pl s)) (unread p0 w) <= length (p_sched s))%nat ->
  exists s' es k' rs, Run s = (s', Some (inr tt))
    /\ consumed (plim (p_pl s)) (dd (p_pl s)) (unread p0 w) (dd (p_pl s')) es
    /\ EventStoreRun.rows_of (p_es s') ≡ₚ EventStoreRun.rows_of (p_es s) ++ es
    /\ EventStoreRun.rows_of (p_es s') = EventStoreRun.disk_rows (p_es s')
    /\ stored_offset ConsumerName (p_rd s') = Some (Wal.LatestOffset (Wal.log w))
    /\ Sink.feed (calls clock (p_hits s')) k = (k', inr rs) /\ sink_ok k' /\ length rs = length es
    /\ (Forall answered rs -> forall p,
          IssuesProps.visible p (Sql.db (fst k')) = IssuesProps.visible p (Sql.db (fst k)) + of_project p es).
Proof.
  intros Hwf Hst Hes Hb Hw Hi Hh Hk w p0 Ht.
  destruct (Run_drains time_Parse ParseFloat convert_out_of_range lower_rune s Hwf Hst Hes Hb Hw Ht)
    as (s' & E & _ & (es & hs & C1 & C2 & C3 & C4) & Hd & Ho).
  rewrite firstn_all in C1. rewrite Hh in C3. cbn [app] in C3. rewrite Hi in C4. cbn [reported] in C4.
  destruct (feed_reported clock k es hs C4 Hk) as (k' & rs & F). exists s', es, k', rs. rewrite C3. auto 10.
Qed.

(** C3: Once the writer rests, whatever it has added before, on a working disk
    with enough turns left: the events [es] of the records that were unread at
    the start or written since, and are no duplicates, all end up in segments,
    the offset on disk at the head of the log; and if the metadata store
    answers the calls made for them, the issue streams grow by exactly these
    events, each in its project, every issue in its project's organisation. *)
Theorem written_events_reach_their_issues s rd s2 k clock :
  WalInv.wal_wf (log_of s) -> Wal.d_io (log_of s) = [] -> start_ok ConsumerName (p_rd s) -> EventStoreRun.es_ok (p_es s) ->
  budget s 3 -> has_issues (p_pl s) = true -> p_hits s = [] -> sink_ok k ->
  Reader.NewReader ConsumerName (p_rd s) = (rd, inr tt) -> rtc live (set_uncommitted 0 (set_rd rd s)) s2 ->
  drains (plim (p_pl s)) (log_of s2) s2 ->
  let w := log_of s2 in
  let p0 := start_offset ConsumerName (p_rd s) in
  exists s' es k' rs, live_run s s' (inr tt)
    /\ consumed (plim (p_pl s)) (dd (p_pl s)) (unread p0 w) (dd (p_pl s')) es
    /\ EventStoreRun.rows_of (p_es s') ≡ₚ EventStoreRun.rows_of (p_es s) ++ es
    /\ EventStoreRun.rows_of (p_es s') = EventStoreRun.disk_rows (p_es s')
    /\ stored_offset ConsumerName (p_rd s') = Some (Wal.LatestOffset (Wal.log w))
    /\ Sink.feed (calls clock (p_hits s')) k = (k', inr rs) /\ sink_ok k' /\ length rs = length es
    /\ (Forall answered rs -> forall p,
          IssuesProps.visible p (Sql.db (fst k')) = IssuesProps.visible p (Sql.db (fst k)) + of_project p es).
Proof.
  intros Hwf Hio Hst Hes Hb Hi Hh Hk EN L Hd w p0.
  destruct (live_drains time_Parse ParseFloat convert_out_of_range lower_rune s rd s2 Hwf Hio Hst Hes Hb EN L Hd)
    as (s' & E & _ & _ & (es & hs & C1 & C2 & C3 & C4) & Hr & Ho).
  rewrite firstn_all in C1. rewrite Hh in C3. cbn [app] in C3. rewrite Hi in C4. cbn [reported] in C4.
  destruct (feed_reported clock k es hs C4 Hk) as (k' & rs & F). exists s', es, k', rs. rewrite C3. auto 10.
Qed.
End EndToEnd.

(** ** The example log, told to the example tables *)
Lemma events_reach_their_issues_witness :
  exists s' es k' rs, ex_Run ex_drain = (s', Some (inr tt))
    /\ PipelineProps.consumed (fun _ => None) (fun _ => None) (fun _ => 0) (fun r => r) (plim (p_pl ex_drain))
         (dd (p_pl ex_drain)) (unread (start_offset ConsumerName (p_rd ex_drain)) (Reader.r_st (p_rd ex_drain))) (dd (p_pl s')) es
    /\ EventStoreRun.rows_of (p_es s') ≡ₚ EventStoreRun.rows_of (p_es ex_drain) ++ es
    /\ EventStoreRun.rows_of (p_es s') = EventStoreRun.disk_rows (p_es s')
    /\ stored_offset ConsumerName (p_rd s') = Some (Wal.LatestOffset (Wal.log (Reader.r_st (p_rd ex_drain))))
    /\ Sink.feed (calls (fun _ _ => 1) (p_hits s')) ex_sink = (k', inr rs) /\ sink_ok k' /\ length rs = length es
    /\ (Forall answered rs -> forall p,
          IssuesProps.visible p (Sql.db (fst k')) = IssuesProps.visible p (Sql.db (fst ex_sink)) + of_project p es).
Proof.
  destruct ex_wal_wf as [Hwf Hio]. destruct ex_drain_ready as (H1 & H2 & H3).
  apply (events_reach_their_issues (fun _ => None) (fun _ => None) (fun _ => 0) (fun r => r) ex_drain ex_sink); auto.
  - exact I.
  - exact ex_sink_ok.
  - vm_compute. lia.
Defined.

Lemma written_events_reach_their_issues_witness :
  length (unread (start_offset ConsumerName (p_rd ex_d0)) (log_of ex_d2)) = 4%nat /\
  exists s' es k' rs, ex_live_run ex_d0 s' (inr tt)
    /\ PipelineProps.consumed (fun _ => None) (fun _ => None) (fun _ => 0) (fun r => r) (plim (p_pl ex_d0))
         (dd (p_pl ex_d0)) (unread (start_offset ConsumerName (p_rd ex_d0)) (log_of ex_d2)) (dd (p_pl s')) es
    /\ EventStoreRun.rows_of (p_es s') ≡ₚ EventStoreRun.rows_of (p_es ex_d0) ++ es
    /\ EventStoreRun.rows_of (p_es s') = EventStoreRun.disk_rows (p_es s')
    /\ stored_offset ConsumerName (p_rd s') = Some (Wal.LatestOffset (Wal.log (log_of ex_d2)))
    /\ Sink.feed (calls (fun _ _ => 1) (p_hits s')) ex_sink = (k', inr rs) /\ sink_ok k' /\ length rs = length es
    /\ (Forall answered rs -> forall p,
          IssuesProps.visible p (Sql.db (fst k')) = IssuesProps.visible p (Sql.db (fst ex_sink)) + of_project p es).
Proof.
  split; [vm_compute; reflexivity|]. destruct ex_wal_wf as [Hwf Hio]. destruct ex_d2_ready as (H1 & H2 & H3 & H4).
  apply (written_events_reach_their_issues (fun _ => None) (fun _ => None) (fun _ => 0) (fun r => r) ex_d0
    (fst (Reader.NewReader ConsumerName (p_rd ex_d0))) ex_d2 ex_sink);
    [exact Hwf|exact Hio|exact I|exact H1|exact H2|reflexivity|reflexivity|exact ex_sink_ok|vm_compute; reflexivity|exact H3|exact H4].
Defined.

End EndToEnd.
