(* ===== verification/Checkpoint.v ===== *)
(** * Checkpoints of the rate limiter (cmd/leser/main.go: restore at the boot,
    save every thirty seconds)

    The limiter's tokens go through a table of the metadata store; a map is
    ranged over in any order. *)
From S2P Require Import Prelude GoSort GoFloat Monad RateLimit Sql MetaDb.
Import Sql Meta RateLimit.
#[local] Open Scope Z_scope.
#[local] Open Scope leser_scope.

Module Checkpoint.

Notation T := (Tx DB).

Section Range.
Context `{!MapRange (Z * float64)}.

Definition range_map (m : gmap Z float64) : list (Z * float64) := range_keys (map_to_list m).

(** The ticker's call, and the boot's. *)
Definition checkpoint (l : Limiter) : T unit := RateLimitSave (range_map (Snapshot l)).

Definition restore (now : Z) (l : Limiter) : T Limiter :=
  let! r := try RateLimitLoad in
  ret (match r with
       | inl _ => l
       | inr m => if bool_decide (0 < Z.of_nat (size m)) then Restore (range_map m) now l else l
       end).

(** What the table holds, as RateLimitLoad reads it. *)
Definition saved (d : DB) : gmap Z float64 := fold_left (fun m x => <[fst x := snd x]> m) (rates d) ∅.

Lemma range_map_perm m : range_map m ≡ₚ map_to_list m.
Proof. apply range_perm. Qed.

Lemma range_map_keys m : NoDup (map fst (range_map m)).
Proof. rewrite range_map_perm. apply NoDup_fst_map_to_list. Qed.

Lemma fold_insert (l : list (Z * float64)) : forall m : gmap Z float64, NoDup (map fst l) ->
  (forall x, x ∈ l -> m !! fst x = None) ->
  fold_left (fun (m : gmap Z float64) x => <[fst x := snd x]> m) l m = list_to_map l ∪ m.
Proof.
  induction l as [|[id f] l IH]; intros m Hn Hm; cbn [fold_left].
  - cbn. rewrite (left_id_L _ _). reflexivity.
  - inversion Hn as [|? ? Hid Hn']; subst. cbn [fst snd]. rewrite IH; [|exact Hn'|].
    + cbn [list_to_map foldr uncurry fst snd]. rewrite <- insert_union_r, insert_union_l; [reflexivity|].
      apply not_elem_of_list_to_map_1. exact Hid.
    + intros [id' f'] Hx. cbn. rewrite lookup_insert_ne; [apply (Hm (id', f')); right; exact Hx|].
      intros ->. apply Hid. apply list_elem_of_fmap. exists (id', f'). auto.
Qed.

Lemma saved_range d m : rates d = range_map m -> saved d = m.
Proof.
  intros E. unfold saved. rewrite E, fold_insert; [|apply range_map_keys|intros; apply lookup_empty].
  rewrite (right_id_L _ _). rewrite (list_to_map_proper _ (map_to_list m)); [apply list_to_map_to_list| |].
  - apply range_map_keys.
  - apply range_map_perm.
Qed.

Lemma insert_rates_inv l : forall s s' u, insert_rates l s = (s', inr u) -> rates (db s') = rates (db s) ++ l.
Proof.
  induction l as [|[id f] l IH]; intros s s' u H; cbn [insert_rates] in H.
  - injection H as <- _. rewrite app_nil_r. reflexivity.
  - apply bind_inr in H as (s1 & v & E & H). apply IH in H. rewrite H. apply exec_ret in E. unfold insert_rate in E.
    destruct (_ || _); [discriminate|]. injection E as <- _. cbn. rewrite <- app_assoc. reflexivity.
Qed.

Lemma save_inv l s s' r : RateLimitSave l s = (s', r) ->
  (db s' = db s /\ exists e, r = inl e) \/ (rates (db s') = l /\ (r = inr tt \/ r = inl ErrCtx)).
Proof.
  intros H. destruct (Write_cases _ _ _ _ H) as [?|(s1 & s2 & [] & _ & E & -> & Hr)]; [auto|right].
  split; [|exact Hr]. apply bind_inr in E as (s3 & u & E1 & E2). apply insert_rates_inv in E2. rewrite E2.
  apply exec_ret in E1. injection E1 as <- _. reflexivity.
Qed.

(** Restoring fills an empty limiter with the saved tokens. *)
Lemma Restore_fills now l : forall lim, NoDup (map fst l) -> (forall x, x ∈ l -> b lim !! fst x = None) ->
  Z.of_nat (size (b lim)) + Z.of_nat (length l) <= max lim ->
  Snapshot (Restore l now lim) = list_to_map l ∪ Snapshot lim.
Proof.
  induction l as [|[id f] l IH]; intros lim Hn Hb Hs; cbn [Restore].
  - cbn. rewrite (left_id_L _ _). reflexivity.
  - inversion Hn as [|? ? Hid Hn']; subst. cbn [length] in Hs. destruct (Z.leb_spec (max lim) (Z.of_nat (size (b lim)))); [lia|].
    assert (Hnone : b lim !! id = None) by (apply (Hb (id, f)); left).
    rewrite IH; [|exact Hn'| |].
    + unfold Snapshot. cbn [set_bucket b]. rewrite fmap_insert. cbn [list_to_map foldr uncurry fst snd tokens].
      rewrite <- insert_union_r, insert_union_l; [reflexivity|]. apply not_elem_of_list_to_map_1. exact Hid.
    + intros [id' f'] Hx. cbn. rewrite lookup_insert_ne; [apply (Hb (id', f')); right; exact Hx|].
      intros ->. apply Hid. apply list_elem_of_fmap. exists (id', f'). auto.
    + cbn [set_bucket b max]. rewrite map_size_insert_None by exact Hnone. lia.
Qed.

(** C37: A checkpoint replaces the saved tokens as a whole or not at all,
    whatever statement, commit or context fails; a process that boots on a
    saved checkpoint starts with exactly the tokens the limiter had. *)
Theorem checkpoint_restores_tokens l d0 now s s' r :
  Z.of_nat (size (b l)) <= max (New d0 (max l)) ->
  checkpoint l s = (s', r) ->
  (db s' = db s /\ (exists e, r = inl e))
  \/ (saved (db s') = Snapshot l /\ (r = inr tt \/ r = inl ErrCtx)
      /\ exists s'' l', restore now (New d0 (max l)) s' = (s'', inr l')
         /\ (faults s' = [] -> Snapshot l' = Snapshot l)).
Proof.
  intros Hs H. destruct (save_inv _ _ _ _ H) as [?|[E Hr]]; [auto|right]. pose proof (saved_range _ _ E) as Hsv.
  split_and!; [exact Hsv|exact Hr|]. unfold restore, bind, try, RateLimitLoad.
  destruct (query _ s') as [s2 q] eqn:EQ. eexists _, _. split; [reflexivity|]. intros Hf.
  unfold query, bind, stmt, get, ret in EQ. rewrite Hf in EQ. injection EQ as _ <-. fold (saved (db s')). rewrite Hsv.
  assert (Hlen : length (range_map (Snapshot l)) = size (b l))
    by (rewrite range_map_perm, length_map_to_list; apply map_size_fmap).
  case_bool_decide as Hz.
  - rewrite Restore_fills; [|apply range_map_keys|intros; apply lookup_empty|].
    + unfold Snapshot at 2. cbn [New b]. rewrite fmap_empty, (right_id_L _ _).
      rewrite (list_to_map_proper _ (map_to_list (Snapshot l)));
        [apply list_to_map_to_list|apply range_map_keys|apply range_map_perm].
    + cbn [New b]. rewrite map_size_empty, Hlen. exact Hs.
  - assert (H0 : size (Snapshot l) = 0%nat) by lia. apply map_size_empty_inv in H0. rewrite H0. cbn. apply fmap_empty.
Qed.
End Range.

(** ** A limiter with two projects *)
Definition ex_limiter : Limiter :=
  set_bucket 1 (mkBucket (f_of_Z 7) 100) (set_bucket 2 (mkBucket (f_of_Z 3) 200) (New DefaultLimit 10)).

Lemma checkpoint_restores_tokens_witness :
  let s := mkSt Meta.empty [] [] in
  let '(s', r) := checkpoint ex_limiter s in
  r = inr tt /\
  ((db s' = db s /\ (exists e, r = inl e))
   \/ (saved (db s') = Snapshot ex_limiter /\ (r = inr tt \/ r = inl ErrCtx)
       /\ exists s'' l', restore 5 (New DefaultLimit (max ex_limiter)) s' = (s'', inr l')
          /\ (faults s' = [] -> Snapshot l' = Snapshot ex_limiter))).
Proof.
  intros s. destruct (checkpoint ex_limiter s) as [s' r] eqn:E. split.
  - vm_compute in E. injection E as _ <-. reflexivity.
  - apply (checkpoint_restores_tokens ex_limiter DefaultLimit 5 s s' r); [|exact E]. vm_compute. discriminate.
Defined.

End Checkpoint.
