(* ===== verification/Tables.v ===== *)
(** * The tables stay well typed (internal/metadata as a whole)

    SQLite enforces keys and references row by row; that every row naming a
    project is also filed under that project's own organisation is the code's
    work. [typed] is both, and every operation that writes, with whatever
    failures, keeps it. *)
From S2P Require Import Prelude GoSort GoStrings GoUtf8 Monad Sql MetaDb MetaIssues IssuesProps MetaAuth Alerts ApiFrame ApiProps.
Import Sql Meta Issues IssuesProps ApiFrame ApiProps.
#[local] Open Scope Z_scope.
#[local] Open Scope leser_scope.

Module Tables.

Notation T := (Tx DB).

(** ** Well-typed tables *)
Definition org_in (d : DB) (o : Z) : Prop := o ∈ map o_ID (orgs d).
Definition project_org (d : DB) (p o : Z) : Prop := (p, o) ∈ map (fun x => (p_ID x, p_OrgID x)) (projects d).
Definition user_org (d : DB) (u o : Z) : Prop := (u, o) ∈ map (fun x => (u_ID x, u_OrgID x)) (users d).
Definition user_in (d : DB) (u : Z) : Prop := u ∈ map u_ID (users d).

Record filed (d : DB) : Prop := {
  ty_orgs : NoDup (map o_ID (orgs d)) /\ NoDup (map o_Slug (orgs d));
  ty_projects : NoDup (map p_ID (projects d)) /\ NoDup (map (fun p => (p_OrgID p, p_Slug p)) (projects d));
  ty_projects_org : Forall (fun p => org_in d (p_OrgID p)) (projects d);
  ty_keys : NoDup (map k_ID (keys d)) /\ NoDup (map k_PublicKey (keys d));
  ty_keys_org : Forall (fun k => project_org d (k_ProjectID k) (k_OrgID k)) (keys d);
  ty_issues_org : Forall (fun i => project_org d (i_ProjectID i) (i_OrgID i)) (issues d);
  ty_users : NoDup (map u_ID (users d)) /\ NoDup (map u_Email (users d));
  ty_users_org : Forall (fun u => org_in d (u_OrgID u)) (users d);
  ty_sessions : NoDup (map s_ID (sessions d));
  ty_sessions_user : Forall (fun s => user_in d (s_UserID s)) (sessions d);
  ty_tokens : NoDup (map t_ID (tokens d)) /\ NoDup (map t_Hash (tokens d));
  ty_tokens_user : Forall (fun t => user_org d (t_UserID t) (t_OrgID t)) (tokens d);
  ty_rules : NoDup (map r_ID (alert_rules d));
  ty_rules_org : Forall (fun r => project_org d (r_ProjectID r) (r_OrgID r)) (alert_rules d);
  ty_rates : NoDup (map fst (rates d)) }.

Definition typed (d : DB) : Prop := filed d /\ issues_ok d.

Lemma typed_empty : typed Meta.empty.
Proof.
  split; constructor; try (split; constructor); try constructor; try constructor.
  intros i t Hi. inversion Hi.
Qed.

(** ** One row more *)
Lemma NoDup_snoc_map {A B} (f : A -> B) l x : NoDup (map f l) -> f x ∉ map f l -> NoDup (map f (l ++ [x])).
Proof.
  intros H Hx. rewrite map_app. apply NoDup_app. split_and!; [exact H| |apply NoDup_singleton].
  intros y Hy Hy'. apply list_elem_of_singleton in Hy'. congruence.
Qed.

Lemma Forall_snoc {A} (P : A -> Prop) l x : Forall P l -> P x -> Forall P (l ++ [x]).
Proof. intros H Hx. apply Forall_app. auto. Qed.

(** A row that no row matches has a new key. *)
Lemma has_not_in {A B} (p : A -> bool) (f : A -> B) l y :
  has p l = false -> (forall x, f x = y -> p x = true) -> y ∉ map f l.
Proof.
  intros H Hp Hin. apply list_elem_of_fmap in Hin as (x & E & Hx). apply not_true_iff_false in H. apply H.
  apply existsb_exists. exists x. split; [apply list_elem_of_In, Hx|]. apply Hp. congruence.
Qed.

Lemma has_in {A B} (p : A -> bool) (f : A -> B) l y : has p l = true -> (forall x, p x = true -> f x = y) -> y ∈ map f l.
Proof.
  intros H Hp. apply existsb_exists in H as (x & Hx & E). rewrite <- (Hp x E).
  apply list_elem_of_fmap. exists x. split; [reflexivity|apply list_elem_of_In, Hx].
Qed.

(** More organisations, projects or users: what was there stays there. *)
Lemma in_map_snoc {A B} (f : A -> B) l x y : y ∈ map f l -> y ∈ map f (l ++ [x]).
Proof. rewrite map_app. intros H. apply elem_of_app. auto. Qed.
#[local] Hint Resolve NoDup_snoc_map Forall_snoc in_map_snoc next_id_fresh : core.

Lemma org_exists_in id d : org_exists id d = true -> org_in d id.
Proof. intros H. apply (has_in _ _ _ _ H). intros x E. lia. Qed.
Lemma user_exists_in id d : user_exists id d = true -> user_in d id.
Proof. intros H. apply (has_in _ _ _ _ H). intros x E. lia. Qed.

(** The guard of an insert, which is a disjunction of refusals. *)
Ltac refusal H :=
  let E := fresh "E" in
  match type of H with (if ?b then _ else _) = _ => destruct b eqn:E; [discriminate H|] end;
  repeat rewrite ?orb_false_iff, ?negb_false_iff in E.

Lemma insert_org_filed slug name d d' id : insert_org slug name d = Some (d', id) -> filed d -> filed d' /\ org_in d' id.
Proof.
  unfold insert_org. intros H [ [O1 O2] ]. refusal H. injection H as <- <-. split.
  - constructor; cbn; auto.
    + split; [apply NoDup_snoc_map; [exact O1|apply next_id_fresh]|]. apply NoDup_snoc_map; [exact O2|].
      apply (has_not_in _ _ _ _ E). intros x ->. apply bool_decide_true. reflexivity.
    + eapply Forall_impl; [eassumption|]. intros p. unfold org_in. cbn. auto.
    + eapply Forall_impl; [eassumption|]. intros p. unfold org_in. cbn. auto.
  - unfold org_in. cbn. rewrite map_app. apply elem_of_app. right. left.
Qed.

Lemma insert_project_filed org slug name pf d d' id : insert_project org slug name pf d = Some (d', id) -> filed d ->
  filed d' /\ project_org d' id org.
Proof.
  unfold insert_project. intros H [? [P1 P2]]. refusal H. injection H as <- <-. destruct E as [E1 E2]. split.
  - constructor; cbn; auto.
    + split; [apply NoDup_snoc_map; [exact P1|apply next_id_fresh]|]. apply NoDup_snoc_map; [exact P2|].
      apply (has_not_in _ _ _ _ E2). cbn. intros x [= -> ->]. rewrite Z.eqb_refl. apply bool_decide_true. reflexivity.
    + apply Forall_snoc; [assumption|]. apply org_exists_in, E1.
    + eapply Forall_impl; [eassumption|]. intros p. unfold project_org. cbn. auto.
    + eapply Forall_impl; [eassumption|]. intros p. unfold project_org. cbn. auto.
    + eapply Forall_impl; [eassumption|]. intros p. unfold project_org. cbn. auto.
  - unfold project_org. cbn. rewrite map_app. apply elem_of_app. right. left.
Qed.

Lemma insert_key_filed pid org pub d d' id : insert_key pid org pub d = Some (d', id) -> filed d -> project_org d pid org ->
  filed d'.
Proof.
  unfold insert_key. intros H [? ? ? [K1 K2]] Hp. refusal H. injection H as <- <-. destruct E as [_ E].
  constructor; cbn; auto.
  split; [apply NoDup_snoc_map; [exact K1|apply next_id_fresh]|]. apply NoDup_snoc_map; [exact K2|].
  apply (has_not_in _ _ _ _ E). intros x ->. apply bool_decide_true. reflexivity.
Qed.

Lemma insert_user_filed org email hash role d d' id : MetaAuth.insert_user org email hash role d = Some (d', id) ->
  filed d -> filed d'.
Proof.
  unfold MetaAuth.insert_user. intros H [? ? ? ? ? ? [U1 U2]]. refusal H. injection H as <- <-. destruct E as [E1 E2].
  constructor; cbn; auto.
  - split; [apply NoDup_snoc_map; [exact U1|apply next_id_fresh]|]. apply NoDup_snoc_map; [exact U2|].
    apply (has_not_in _ _ _ _ E2). intros x ->. apply bool_decide_true. reflexivity.
  - apply Forall_snoc; [assumption|]. apply org_exists_in, E1.
  - eapply Forall_impl; [eassumption|]. intros p. unfold user_in. cbn. auto.
  - eapply Forall_impl; [eassumption|]. intros p. unfold user_org. cbn. auto.
Qed.

Lemma insert_session_filed id user exp d d' u : MetaAuth.insert_session id user exp d = Some (d', u) -> filed d -> filed d'.
Proof.
  unfold MetaAuth.insert_session. intros H []. refusal H. injection H as <- _. destruct E as [E1 E2].
  constructor; cbn; auto.
  - apply NoDup_snoc_map; [assumption|]. apply (has_not_in _ _ _ _ E2). intros x ->. apply bool_decide_true. reflexivity.
  - apply Forall_snoc; [assumption|]. apply user_exists_in, E1.
Qed.

Lemma insert_token_filed t hash d d' id : MetaAuth.insert_token t hash d = Some (d', id) -> filed d ->
  user_org d (MetaAuth.at_UserID t) (MetaAuth.at_OrgID t) -> filed d'.
Proof.
  unfold MetaAuth.insert_token. intros H [? ? ? ? ? ? ? ? ? ? [T1 T2]] Hu. refusal H. injection H as <- _. destruct E as [_ E].
  constructor; cbn; auto.
  split; [apply NoDup_snoc_map; [exact T1|apply next_id_fresh]|]. apply NoDup_snoc_map; [exact T2|].
  apply (has_not_in _ _ _ _ E). intros x ->. apply bool_decide_true. reflexivity.
Qed.

Lemma insert_rule_filed r d d' id : MetaAlerts.insert_rule r d = Some (d', id) -> filed d ->
  project_org d (r_ProjectID r) (r_OrgID r) -> filed d'.
Proof.
  unfold MetaAlerts.insert_rule. intros H [] Hp. refusal H. injection H as <- _. constructor; cbn; auto.
  apply NoDup_snoc_map; [assumption|apply next_id_fresh].
Qed.

Lemma insert_rate_filed id f d d' u : insert_rate id f d = Some (d', u) -> filed d -> filed d'.
Proof.
  unfold insert_rate. intros H []. refusal H. injection H as <- _. destruct E as [E _]. constructor; cbn; auto.
  apply NoDup_snoc_map; [assumption|]. apply (has_not_in _ _ _ _ E). cbn. intros x ->. apply Z.eqb_refl.
Qed.

(** ** Growth: what an operation keeps *)

(** The tables stay typed, and no project or user moves to another
    organisation or disappears. *)
Record grows (d d' : DB) : Prop := {
  gr_typed : typed d -> typed d';
  gr_projects : forall p o, project_org d p o -> project_org d' p o;
  gr_users : forall u o, user_org d u o -> user_org d' u o }.

Lemma grows_refl d : grows d d.
Proof. constructor; auto. Qed.
Lemma grows_trans a b c : grows a b -> grows b c -> grows a c.
Proof. intros [] []. constructor; auto. Qed.

Lemma grows_rows d d' : projects d' = projects d -> users d' = users d -> (typed d -> typed d') -> grows d d'.
Proof. intros E1 E2 H. constructor; [exact H|intros p o|intros u o]; unfold project_org, user_org; rewrite ?E1, ?E2; auto. Qed.

(** What a computation may rely on: the tables are typed and some projects
    and users are known to be in their organisations. *)
Definition known (ps us : list (Z * Z)) (d : DB) : Prop :=
  typed d /\ Forall (fun x => project_org d (fst x) (snd x)) ps /\ Forall (fun x => user_org d (fst x) (snd x)) us.

Lemma known_stable ps us a b : known ps us a -> grows a b -> known ps us b.
Proof.
  intros (H1 & H2 & H3) [G1 G2 G3]. split_and!; [auto|eapply Forall_impl; [exact H2|]|eapply Forall_impl; [exact H3|]];
    cbn; auto.
Qed.
#[local] Hint Resolve grows_refl grows_trans known_stable : core.

Notation Does ps us := (does (known ps us) grows any).
Notation Commits ps us := (commits (known ps us) grows).

Section Known.
Context (ps us : list (Z * Z)).

Lemma k_ret {A} (a : A) : Does ps us (ret a).
Proof. apply does_ret; [exact grows_refl|exact Logic.I]. Qed.
Lemma k_throw {A} e : Does ps us (throw e : Tx DB A).
Proof. apply does_throw; [exact grows_refl|exact Logic.I]. Qed.
Lemma k_bind {A B} (m : Tx DB A) (k : A -> Tx DB B) : Does ps us m -> (forall a, Does ps us (k a)) -> Does ps us (bind m k).
Proof. intros Hm Hk. apply (does_bind _ _ grows_trans (known_stable ps us) any any); auto. Qed.
Lemma k_try {A B} (m : Tx DB A) (k : sql_error + A -> Tx DB B) :
  Does ps us m -> (forall r, Does ps us (k r)) -> Does ps us (bind (try m) k).
Proof. intros Hm Hk. apply (does_try _ _ grows_trans (known_stable ps us) any any); auto. Qed.
Lemma k_query {A} (f : DB -> A) : Does ps us (query f).
Proof. apply does_query; [exact grows_refl|intros; exact Logic.I..]. Qed.
Lemma k_row {A} (f : DB -> option A) : Does ps us (or_not_found (query_row f)).
Proof. apply does_row; [exact grows_refl|exact grows_trans|apply known_stable|intros; exact Logic.I..]. Qed.
Lemma k_Write {A} (fn : Tx DB A) : Commits ps us fn -> Does ps us (Write fn).
Proof. intros H. apply does_Write; [exact grows_refl|exact H|intros; exact Logic.I]. Qed.
Lemma k_exec {A} (f : DB -> option (DB * A)) :
  (forall d d' a, known ps us d -> f d = Some (d', a) -> grows d d') -> Commits ps us (exec f).
Proof. apply commits_exec. Qed.
Lemma k_then {A B} (m : Tx DB A) (k : A -> Tx DB B) : Commits ps us m -> (forall a, Commits ps us (k a)) -> Commits ps us (bind m k).
Proof. apply commits_bind; [exact grows_trans|apply known_stable]. Qed.
Lemma k_done {A} (a : A) : Commits ps us (ret a).
Proof. apply commits_ret, grows_refl. Qed.
Lemma k_fail {A} e : Commits ps us (throw e : Tx DB A).
Proof. apply commits_throw. Qed.
End Known.

#[local] Hint Resolve k_ret k_throw k_query k_row k_done k_fail : core.

(** ** The statements *)
Lemma project_org_in p d : p ∈ projects d -> project_org d (p_ID p) (p_OrgID p).
Proof. intros H. apply list_elem_of_fmap. eauto. Qed.
Lemma user_org_in u d : u ∈ users d -> user_org d (u_ID u) (u_OrgID u).
Proof. intros H. apply list_elem_of_fmap. eauto. Qed.

Lemma insert_org_grows slug name d d' id : insert_org slug name d = Some (d', id) -> grows d d'.
Proof.
  intros H. assert (E : projects d' = projects d /\ users d' = users d /\ issues d' = issues d).
  { unfold insert_org in H. refusal H. injection H as <- _. auto. }
  destruct E as (E1 & E2 & E3). apply grows_rows; [assumption..|]. intros [F I]. split; [|unfold issues_ok; rewrite E3; exact I].
  apply (insert_org_filed _ _ _ _ _ H F).
Qed.

Lemma insert_project_grows org slug name pf d d' id : insert_project org slug name pf d = Some (d', id) ->
  grows d d' /\ (typed d -> project_org d' id org).
Proof.
  intros H. assert (E : users d' = users d /\ issues d' = issues d
    /\ forall p o, project_org d p o -> project_org d' p o).
  { unfold insert_project in H. refusal H. injection H as <- _. split_and!; auto. intros p o. apply in_map_snoc. }
  destruct E as (E1 & E2 & E3). split; [|intros [F _]; apply (insert_project_filed _ _ _ _ _ _ _ H F)].
  constructor; [|exact E3|intros u o; unfold user_org; rewrite E1; auto].
  intros [F I]. split; [apply (insert_project_filed _ _ _ _ _ _ _ H F)|unfold issues_ok; rewrite E2; exact I].
Qed.

Lemma insert_user_grows org email hash role d d' id :
  MetaAuth.insert_user org email hash role d = Some (d', id) -> grows d d'.
Proof.
  intros H. assert (E : projects d' = projects d /\ issues d' = issues d
    /\ forall p o, user_org d p o -> user_org d' p o).
  { unfold MetaAuth.insert_user in H. refusal H. injection H as <- _. split_and!; auto. intros p o. apply in_map_snoc. }
  destruct E as (E1 & E2 & E3). constructor; [|intros p o; unfold project_org; rewrite E1; auto|exact E3].
  intros [F I]. split; [apply (insert_user_filed _ _ _ _ _ _ _ H F)|unfold issues_ok; rewrite E2; exact I].
Qed.

(** A statement on one of the other tables. *)
Lemma grows_filed d d' : projects d' = projects d -> users d' = users d -> issues d' = issues d -> (filed d -> filed d') ->
  grows d d'.
Proof. intros E1 E2 E3 H. apply grows_rows; auto. intros [F I]. split; [auto|]. unfold issues_ok. rewrite E3. exact I. Qed.

Ltac other_table H :=
  apply grows_filed; [try (refusal H); injection H as <- _; reflexivity..|].

Lemma insert_key_grows pid org pub d d' id : insert_key pid org pub d = Some (d', id) -> project_org d pid org -> grows d d'.
Proof.
  intros H Hp. pose proof H as H'. unfold insert_key in H. other_table H. intros F. apply (insert_key_filed _ _ _ _ _ _ H' F Hp).
Qed.

Lemma insert_session_grows id user exp d d' u : MetaAuth.insert_session id user exp d = Some (d', u) -> grows d d'.
Proof.
  intros H. pose proof H as H'. unfold MetaAuth.insert_session in H. other_table H. apply (insert_session_filed _ _ _ _ _ _ H').
Qed.

Lemma insert_token_grows t hash d d' id : MetaAuth.insert_token t hash d = Some (d', id) ->
  user_org d (MetaAuth.at_UserID t) (MetaAuth.at_OrgID t) -> grows d d'.
Proof.
  intros H Hu. pose proof H as H'. unfold MetaAuth.insert_token in H. other_table H. intros F.
  apply (insert_token_filed _ _ _ _ _ H' F Hu).
Qed.

Lemma insert_rule_grows r d d' id : MetaAlerts.insert_rule r d = Some (d', id) ->
  project_org d (r_ProjectID r) (r_OrgID r) -> grows d d'.
Proof.
  intros H Hp. pose proof H as H'. unfold MetaAlerts.insert_rule in H. other_table H. intros F.
  apply (insert_rule_filed _ _ _ _ H' F Hp).
Qed.

Lemma insert_rate_grows id f d d' u : insert_rate id f d = Some (d', u) -> grows d d'.
Proof. intros H. pose proof H as H'. unfold insert_rate in H. other_table H. apply (insert_rate_filed _ _ _ _ _ H'). Qed.

(** Statements that need no check. *)
Lemma schema_grows o v d : grows d (set_schema o v d).
Proof. apply grows_filed; auto. intros []. constructor; auto. Qed.
Lemma audit_grows l d : grows d (set_audit l d).
Proof. apply grows_filed; auto. intros []. constructor; auto. Qed.
Lemma no_rates_grows d : grows d (set_rates [] d).
Proof. apply grows_filed; auto. intros []. constructor; cbn; auto. constructor. Qed.

Lemma Forall_update {A} (P : A -> Prop) p f l : (forall x, P x -> P (f x)) -> Forall P l -> Forall P (fst (update_where p f l)).
Proof. intros H Hl. cbn. apply Forall_map. eapply Forall_impl; [exact Hl|]. intros x Hx. cbn. destruct (p x); auto. Qed.

Lemma sessions_grow p d : grows d (set_sessions (fst (update_where p MetaAuth.revoke_session (sessions d))) d).
Proof.
  apply grows_filed; auto. intros []. constructor; cbn [sessions set_sessions]; auto.
  - rewrite map_update_same by reflexivity. assumption.
  - apply Forall_update; auto.
Qed.

Lemma tokens_grow p d : grows d (set_tokens (fst (update_where p MetaAuth.revoke_token (tokens d))) d).
Proof.
  apply grows_filed; auto. intros []. constructor; cbn [tokens set_tokens]; auto.
  - rewrite !map_update_same by reflexivity. assumption.
  - apply Forall_update; auto.
Qed.

Lemma NoDup_map_filter {A B} (f : A -> B) q l : NoDup (map f l) -> NoDup (map f (List.filter q l)).
Proof.
  induction l as [|x l IH]; [auto|]. cbn. intros H. inversion H as [|? ? Hx Hl]; subst. destruct (q x); [|auto].
  cbn. constructor; [|auto]. intros Hin. apply Hx. apply list_elem_of_fmap in Hin as (y & E & Hy).
  apply list_elem_of_In, filter_In in Hy as [Hy _]. apply list_elem_of_fmap. exists y. rewrite list_elem_of_In. auto.
Qed.

Lemma rules_grow q d : grows d (set_rules (List.filter q (alert_rules d)) d).
Proof.
  apply grows_filed; auto. intros []. constructor; cbn [alert_rules set_rules]; auto.
  - apply NoDup_map_filter. assumption.
  - apply Forall_forall. intros x Hx%list_elem_of_In. apply filter_In in Hx as [Hx _].
    rewrite Forall_forall in ty_rules_org0. apply ty_rules_org0, list_elem_of_In, Hx.
Qed.

(** *** Issues: the rows stay with their project *)
Definition issue_org (i : Issue) : Z * Z := (i_ProjectID i, i_OrgID i).

Lemma filed_issues l d : Forall (fun i => project_org d (i_ProjectID i) (i_OrgID i)) l -> filed d -> filed (set_issues l d).
Proof. intros H []. constructor; auto. Qed.

(** Filed as before, in the projects of [b]. *)
Definition filed_in (b d : DB) : Prop := filed d /\ projects d = projects b /\ users d = users b.

Lemma update_filed p f d : (forall i, issue_org (f i) = issue_org i) -> filed d ->
  filed (set_issues (map (upd p f) (issues d)) d).
Proof.
  intros Hf F. apply filed_issues; [|exact F].
  apply Forall_map. eapply Forall_impl; [apply (ty_issues_org _ F)|]. intros i Hi. cbn. unfold upd.
  destruct (p i); [|exact Hi]. specialize (Hf i). unfold issue_org in Hf. injection Hf as -> ->. exact Hi.
Qed.

Section Filed.
Context (b : DB).

Lemma update_issues_filed p f : (forall i, issue_org (f i) = issue_org i) -> tx_keeps (filed_in b) (exec (update_issues p f)).
Proof.
  intros Hf. apply exec_keeps. intros d d' n H [F E]. apply update_issues_eq in H as [-> _].
  split; [apply update_filed; assumption|exact E].
Qed.

Lemma update_merged_filed p m : tx_keeps (filed_in b) (exec (update_merged p m)).
Proof.
  apply exec_keeps. intros d d' n H [F E]. apply update_merged_eq in H as ->.
  split; [apply update_filed; [reflexivity|exact F]|exact E].
Qed.

Lemma affected_filed n : tx_keeps (filed_in b) (affected n).
Proof. apply affected_keeps. Qed.
#[local] Hint Resolve update_merged_filed affected_filed : sql.
#[local] Hint Extern 1 (tx_keeps _ (exec (update_issues _ _))) => (apply update_issues_filed; reflexivity) : sql.

Lemma merge_sources_filed pid t srcs : tx_keeps (filed_in b) (merge_sources pid t srcs).
Proof.
  induction srcs as [|src srcs IH]; cbn [merge_sources]; [apply ret_keeps|]. apply keeps_bind; [|intros _; exact IH].
  unfold merge_source. destruct (src =? t); [apply throw_keeps|]. apply keeps_bind; [|auto 8 with sql].
  apply keeps_same. intros s s' r H. apply row_cases in H as [H _]. exact H.
Qed.

Lemma upsert_filed u : project_org b (iu_ProjectID u) (iu_OrgID u) -> tx_keeps (filed_in b) (upsert_tx u).
Proof.
  intros Hp. unfold upsert_tx. apply keeps_bind; [auto with sql|]. intros [i|].
  - apply keeps_bind; [destruct (_ =? _); auto with sql|]. auto 6 with sql.
  - apply keeps_bind; [|auto with sql]. apply exec_keeps. intros d d' id H [F E]. unfold insert_issue in H. refusal H.
    injection H as <- _. split; [|exact E]. apply filed_issues; [|exact F]. apply Forall_snoc; [apply (ty_issues_org _ F)|].
    cbn. unfold project_org. rewrite (proj1 E). exact Hp.
Qed.
End Filed.

(** An operation on issues, the upsert for a project of its organisation. *)
Definition op_org (o : issue_op) (d : DB) : Prop :=
  match o with OpUpsert u => project_org d (iu_ProjectID u) (iu_OrgID u) | _ => True end.

Lemma run_op_filed o s b : op_org o b -> filed_in b (db s) -> filed_in b (db (run_op o s)).
Proof.
  intros Ho F. destruct o as [u|p i st|p t l|p i]; cbn [run_op op_org] in *.
  - unfold UpsertIssue. destruct (_ || _); [exact F|]. apply Write_keeps; [apply upsert_filed, Ho|exact F].
  - unfold SetIssueStatus. destruct (negb _); [exact F|]. apply Write_keeps; [|exact F].
    apply keeps_bind; [apply update_issues_filed; reflexivity|apply affected_filed].
  - unfold MergeIssues. apply Write_keeps; [|exact F]. unfold merge_tx. apply keeps_bind; [auto with sql|]. intros n.
    destruct (n =? 0); [apply throw_keeps|apply merge_sources_filed].
  - unfold SplitIssue. apply Write_keeps; [|exact F].
    apply keeps_bind; [apply update_issues_filed; reflexivity|apply affected_filed].
Qed.

Lemma run_op_grows o s : typed (db s) -> op_org o (db s) -> grows (db s) (db (run_op o s)).
Proof.
  intros [F I] Ho. destruct (run_op_filed o s (db s) Ho) as (F' & E1 & E2); [split; auto|].
  apply grows_rows; auto. intros _. split; [exact F'|apply run_op_ok, I].
Qed.

End Tables.
