(* ===== verification/TablesRun.v ===== *)
(** * The tables stay well typed: the operations of the whole node

    Every exported operation of internal/metadata, every API handler, the
    commands, the boot and the issue sink keep the tables [Tables.typed], and
    so does any sequence of them. *)
From S2P Require Import Prelude GoSort GoStrings GoFloat GoUtf8 GoJson GoHttp Grouping Monad Sql MetaDb MetaIssues.
From S2P Require Import IssuesProps MetaAuth Alerts Authz Password Search Api ApiFrame ApiProps.
From S2P Require Import ApiTenancy Config GoFlag Pipeline Cmd Sink SinkProps Tables.
Import Http Sql Meta Issues IssuesProps Api ApiFrame ApiProps Tables.
#[local] Open Scope string_scope.
#[local] Open Scope list_scope.
#[local] Open Scope Z_scope.
#[local] Open Scope leser_scope.

Module TablesRun.

Notation Does ps us := (does (known ps us) grows any).
Notation Commits ps us := (commits (known ps us) grows).
#[local] Hint Resolve grows_refl grows_trans known_stable k_ret k_throw k_query k_row k_done k_fail : core.

(** ** The operations of the store *)
Section Operations.
Context (ps us : list (Z * Z)).

Lemma issue_op_does {A} (m : Tx DB A) o : (forall s, db (run_op o s) = db (fst (m s))) ->
  (forall d, known ps us d -> op_org o d) -> Does ps us m.
Proof.
  intros Hm Ho s s' r K H. split; [|exact Logic.I]. pose proof (run_op_grows o s (proj1 K) (Ho _ K)) as G.
  rewrite Hm, H in G. exact G.
Qed.

Lemma SetIssueStatus_keeps p i st : Does ps us (Issues.SetIssueStatus p i st).
Proof. apply (issue_op_does _ (OpStatus p i st)); [reflexivity|intros; exact Logic.I]. Qed.
Lemma SplitIssue_keeps p i : Does ps us (Issues.SplitIssue p i).
Proof. apply (issue_op_does _ (OpSplit p i)); [reflexivity|intros; exact Logic.I]. Qed.
Lemma MergeIssues_keeps p t l : Does ps us (Issues.MergeIssues p t l).
Proof. apply (issue_op_does _ (OpMerge p t l)); [reflexivity|intros; exact Logic.I]. Qed.
Lemma UpsertIssue_keeps u : (iu_ProjectID u, iu_OrgID u) ∈ ps -> Does ps us (Issues.UpsertIssue u).
Proof.
  intros Hin. apply (issue_op_does _ (OpUpsert u)); [reflexivity|]. intros d (_ & K & _).
  rewrite Forall_forall in K. exact (K _ Hin).
Qed.

Lemma Write_exec_keeps {A} (f : DB -> option (DB * A)) :
  (forall d d' a, known ps us d -> f d = Some (d', a) -> grows d d') -> Does ps us (Write (exec f)).
Proof. intros H. apply k_Write, k_exec, H. Qed.

Lemma CreateUser_keeps lr org email hash role : Does ps us (MetaAuth.CreateUser lr org email hash role).
Proof.
  unfold MetaAuth.CreateUser. destruct (_ || _); [auto|]. apply Write_exec_keeps. intros d d' id _ H.
  eapply insert_user_grows, H.
Qed.
Lemma CreateSession_keeps id user ttl now : Does ps us (MetaAuth.CreateSession id user ttl now).
Proof. apply Write_exec_keeps. intros d d' u _ H. eapply insert_session_grows, H. Qed.
Lemma RevokeSession_keeps id : Does ps us (MetaAuth.RevokeSession id).
Proof. apply Write_exec_keeps. intros d d' u _ [= <- _]. apply sessions_grow. Qed.
Lemma RevokeUserSessions_keeps id : Does ps us (MetaAuth.RevokeUserSessions id).
Proof. apply Write_exec_keeps. intros d d' u _ [= <- _]. apply sessions_grow. Qed.
Lemma Audit_keeps e now : Does ps us (MetaAuth.Audit e now).
Proof. apply Write_exec_keeps. intros d d' u _ [= <- _]. apply audit_grows. Qed.

Lemma CreateToken_keeps t hash : (MetaAuth.at_UserID t, MetaAuth.at_OrgID t) ∈ us -> Does ps us (MetaAuth.CreateToken t hash).
Proof.
  intros Hin. apply Write_exec_keeps. intros d d' id (_ & _ & K) H. rewrite Forall_forall in K.
  eapply insert_token_grows; [exact H|exact (K _ Hin)].
Qed.

Lemma CreateAlertRule_keeps q : (r_ProjectID q, r_OrgID q) ∈ ps -> Does ps us (MetaAlerts.CreateAlertRule q).
Proof.
  intros Hin. unfold MetaAlerts.CreateAlertRule. destruct (negb _); [auto|]. destruct (_ || _); [auto|].
  apply Write_exec_keeps. intros d d' id (_ & K & _) H. rewrite Forall_forall in K.
  eapply insert_rule_grows; [exact H|exact (K _ Hin)].
Qed.

Lemma counted_keeps (n : Z) (e : sql_error) : Commits ps us (if n =? 0 then throw e else ret tt).
Proof. destruct (n =? 0); auto. Qed.

Lemma RevokeToken_keeps org id : Does ps us (MetaAuth.RevokeToken org id).
Proof.
  apply k_Write, k_then; [|intros n; apply counted_keeps]. apply k_exec. intros d d' n _ H.
  destruct (update_where _ _ (tokens d)) as [l k] eqn:E. injection H as <- _.
  change l with (fst (l, k)). rewrite <- E. apply tokens_grow.
Qed.
Lemma DeleteAlertRule_keeps p id : Does ps us (MetaAlerts.DeleteAlertRule p id).
Proof.
  apply k_Write, k_then; [|intros n; apply counted_keeps]. apply k_exec. intros d d' n _ [= <- _]. apply rules_grow.
Qed.

Lemma insert_rates_keeps state : Commits ps us (insert_rates state).
Proof.
  induction state as [|[id f] state IH]; cbn [insert_rates]; [auto|]. apply k_then; [|intros _; exact IH].
  apply k_exec. intros d d' u _ H. eapply insert_rate_grows, H.
Qed.
Lemma RateLimitSave_keeps state : Does ps us (RateLimitSave state).
Proof.
  apply k_Write, k_then; [|intros _; apply insert_rates_keeps]. apply k_exec. intros d d' u _ [= <- _]. apply no_rates_grows.
Qed.

(** Migrations touch the schema only. *)
Lemma execTx_keeps {A} (fn : Tx DB A) : Commits ps us fn -> Does ps us (execTx fn).
Proof.
  intros Hc s s' r K H. split; [|exact Logic.I].
  destruct (execTx_cases _ _ _ _ H) as [[-> _]|(s1 & s2 & a & E1 & E2 & -> & _)]; [auto|].
  rewrite <- E1 in *. exact (Hc _ _ _ K E2).
Qed.

Lemma apply_migration_keeps v : Does ps us (apply_migration v).
Proof.
  unfold apply_migration. destruct (migrations v) as [l|]; [|auto]. apply execTx_keeps, k_then.
  - induction l as [|n l IH]; cbn [create_all]; [auto|]. apply k_then; [|intros _; exact IH].
    apply k_exec. intros d d' u _ H. unfold create in H. refusal H. injection H as <- _. apply schema_grows.
  - intros _. apply k_exec. intros d d' u _ H. unfold insert_version in H. refusal H. injection H as <- _. apply schema_grows.
Qed.

Lemma migrate_keeps : Does ps us migrate.
Proof.
  unfold migrate. apply k_bind.
  { intros s s' r _ H. rewrite (stmt_db _ _ _ H). split; [auto|exact Logic.I]. }
  intros _. apply k_bind; [auto|]. intros c. generalize (c + 1), (Z.to_nat (SchemaVersion - c)). intros v n. revert v.
  induction n as [|n IH]; intros v; cbn [migrate_from]; [auto|]. apply k_bind; [apply apply_migration_keeps|auto].
Qed.

Lemma CreateOrg_keeps name : Does ps us (CreateOrg name).
Proof. apply Write_exec_keeps. intros d d' id _ H. eapply insert_org_grows, H. Qed.

(** A project added in a transaction, and its key. *)
Lemma new_project_commits org slug name pf s s' id : known ps us (db s) ->
  exec (insert_project org slug name pf) s = (s', inr id) -> grows (db s) (db s') /\ project_org (db s') id org.
Proof.
  intros (K & _) H. apply exec_ret, insert_project_grows in H as [G Hp]. auto.
Qed.

Lemma new_key_commits pid org pub s s' id : project_org (db s) pid org ->
  exec (insert_key pid org pub) s = (s', inr id) -> grows (db s) (db s').
Proof. intros Hp H. apply exec_ret in H. eapply insert_key_grows; eauto. Qed.

Lemma first_by_id_in {R} (id : R -> Z) l x : first_by_id id l = Some x -> x ∈ l.
Proof.
  unfold first_by_id. intros H. assert (Hx : x ∈ sort_slice (key_le id) l) by (destruct (sort_slice _ l); [discriminate|]; injection H as ->; left).
  rewrite sort_slice_perm in Hx. exact Hx.
Qed.

Lemma CreateProject_keeps org name pf rnd : Does ps us (CreateProject org name pf rnd).
Proof.
  apply k_Write. intros s s' a K H. apply bind_inr in H as (s1 & id & E1 & H).
  destruct (new_project_commits _ _ _ _ _ _ _ K E1) as [G1 Hp]. apply bind_inr in H as (s2 & kid & E2 & [= <- _]).
  exact (grows_trans _ _ _ G1 (new_key_commits _ _ _ _ _ _ Hp E2)).
Qed.

Lemma Bootstrap_keeps o n rnd : Does ps us (Bootstrap o n rnd).
Proof.
  apply k_Write. intros s s' a K H. apply bind_inr in H as (s1 & r1 & E1 & H). apply query_db in E1. rewrite <- E1 in *.
  apply bind_inr in H as (s2 & org & E2 & H). assert (G2 : grows (db s1) (db s2)).
  { destruct r1; [injection E2 as <- _; auto|]. apply exec_ret in E2. eapply insert_org_grows, E2. }
  pose proof (known_stable _ _ _ _ K G2) as K2. apply bind_inr in H as (s3 & r2 & E3 & H).
  pose proof (query_ret _ _ _ _ E3) as Q. apply query_db in E3. rewrite <- E3 in *.
  apply bind_inr in H as (s4 & proj & E4 & H). assert (G4 : grows (db s3) (db s4) /\ project_org (db s4) (p_ID proj) org).
  { destruct r2 as [p|].
    - injection E4 as <- <-. split; [auto|]. symmetry in Q. apply first_by_id_in, list_elem_of_In, filter_In in Q as [Q1 Q2].
      apply list_elem_of_In, project_org_in in Q1. apply Z.eqb_eq in Q2. rewrite <- Q2. exact Q1.
    - apply bind_inr in E4 as (s5 & id & E5 & [= <- <-]). eapply new_project_commits; eauto. }
  destruct G4 as [G4 Hp]. apply bind_inr in H as (s5 & r3 & E5 & H). apply query_db in E5. rewrite <- E5 in *.
  apply (grows_trans _ _ _ G2), (grows_trans _ _ _ G4). destruct r3; [injection H as <- _; auto|].
  apply bind_inr in H as (s6 & kid & E6 & [= <- _]). apply (new_key_commits _ _ _ _ _ _ Hp E6).
Qed.
End Operations.

(** ** The commands *)
Section Commands.
Context (IDKey : string -> list byte -> Z -> Z -> Z -> Z -> option (list byte)) (lower_rune : Z -> Z) (ps us : list (Z * Z)).

Lemma or_exit_keeps {A} (m : Tx DB A) k : Does ps us m -> (forall a, Does ps us (k a)) -> Does ps us (Cmd.or_exit m k).
Proof. intros Hm Hk. apply k_try; [exact Hm|]. intros [e|a]; [apply k_ret|auto]. Qed.

(** The outer branches of a command. *)
Ltac branches := repeat match goal with
  | |- does _ _ _ (ret _) => apply k_ret
  | |- does _ _ _ (match ?x with _ => _ end) => destruct x
  end.

Lemma cmdUser_keeps args i : Does ps us (Cmd.cmdUser IDKey lower_rune args i).
Proof.
  unfold Cmd.cmdUser, Cmd.create_user. branches.
  apply or_exit_keeps; [apply migrate_keeps|intros _]. apply or_exit_keeps; [apply Bootstrap_keeps|intros pk].
  branches. apply or_exit_keeps; [apply CreateUser_keeps|intros id].
  apply k_try; [apply Audit_keeps|intros; apply k_ret].
Qed.

(** A user read by its address is known from there on. *)
Lemma UserByEmail_knows {A} email (k : sql_error + User -> Tx DB A) :
  (forall e, Does ps us (k (inl e))) -> (forall u, Does ps ((u_ID u, u_OrgID u) :: us) (k (inr u))) ->
  Does ps us (bind (try (MetaAuth.UserByEmail lower_rune email)) k).
Proof.
  intros He Hk s s' r K H. unfold bind, try in H. destruct (MetaAuth.UserByEmail lower_rune email s) as [s1 x] eqn:E.
  apply row_cases in E as [Hd Hx]. rewrite <- Hd in *. destruct x as [e|u]; [exact (He e _ _ _ K H)|].
  refine (Hk u _ _ _ _ H). destruct K as (K1 & K2 & K3). split_and!; auto. constructor; [|exact K3].
  specialize (Hx u eq_refl). apply find_some_in in Hx as [Hx _]. apply user_org_in, Hx.
Qed.

Lemma cmdToken_keeps args i : Does ps us (Cmd.cmdToken lower_rune args i).
Proof.
  unfold Cmd.cmdToken, Cmd.create_token. branches.
  apply or_exit_keeps; [apply migrate_keeps|intros _]. apply UserByEmail_knows; [intros; apply k_ret|intros u].
  apply k_try; [apply CreateToken_keeps; left|intros [e|id]; [apply k_ret|]]. apply k_try; [apply Audit_keeps|intros; apply k_ret].
Qed.

Lemma boot_keeps p i : Does ps us (Cmd.boot IDKey lower_rune p i).
Proof.
  unfold Cmd.boot. apply k_try; [apply migrate_keeps|intros [e|_]; [apply k_ret|]].
  apply k_try; [apply Bootstrap_keeps|intros [e|[proj key]]; [apply k_ret|]]. destruct (Cmd.doQuery p); [|apply k_ret].
  apply k_bind; [|intros; apply k_ret]. unfold Cmd.boot_admin. apply k_try; [apply k_query|].
  intros [e|n]; [apply k_ret|]. branches.
  apply k_try; [apply CreateUser_keeps|intros; apply k_ret].
Qed.
End Commands.

(** ** The API *)
Section Api.
Context (IDKey : string -> list byte -> Z -> Z -> Z -> Z -> option (list byte)) (lower_rune : Z -> Z)
  (url_Parse_ok : string -> bool).
Context `{!SliceSort (key_le Issues.newest_first)} `{!SliceSort (key_le MetaAuth.newest_entry)}.
Notation Routes := (Routes IDKey lower_rune).

Section Handlers.
Context (ps us : list (Z * Z)) (a : API) (actx : option Authz.AuthContext) (r : Request) (i : input).
Context (Hus : forall c, actx = Some c -> (Authz.UserID c, Authz.OrgID c) ∈ us).

Lemma audit_keeps org actor action target detail : Does ps us (audit r i org actor action target detail).
Proof. apply k_try; [apply Audit_keeps|intros; apply k_ret]. Qed.

Lemma ListIssues_keeps pid f limit : Does ps us (Issues.ListIssuesFiltered pid f limit).
Proof. unfold Issues.ListIssuesFiltered. destruct (f_Fingerprints f) as [[]|]; auto. Qed.

#[local] Hint Resolve SetIssueStatus_keeps SplitIssue_keeps MergeIssues_keeps ListIssues_keeps DeleteAlertRule_keeps
  CreateAlertRule_keeps CreateToken_keeps RevokeToken_keeps RevokeSession_keeps CreateSession_keeps audit_keeps : core.
#[local] Hint Extern 2 (does _ _ _ _) => first [apply k_row | apply k_query] : core.

Ltac handler := cbn zeta;
  repeat match goal with
  | |- does _ _ _ (ret _) => apply k_ret
  | |- does _ _ _ (bind (try _) _) => apply k_try; [solve [eauto 3]|intros ?]
  | |- does _ _ _ (bind _ _) => apply k_bind; [|intros ?]
  | |- does _ _ _ (audit _ _ _ _ _ _ _) => apply audit_keeps
  | |- does _ _ _ (with_ctx ?x _) => let E := fresh "E" in destruct x eqn:E; cbn [with_ctx]
  | |- does _ _ _ (answer ?x _ _) => destruct x as [[]|]; cbn [answer]
  | |- does _ _ _ (match ?x with _ => _ end) => destruct x
  end.

(** Every handler; that of a project route may rely on its project. *)
Lemma Handle_keeps rt : rt ∈ Routes ->
  (Project rt = true -> forall c, actx = Some c -> (path_int "project_id" r, Authz.OrgID c) ∈ ps) ->
  Does ps us (Handle rt a actx r i).
Proof.
  intros Hin Hps. unfold Routes in Hin. rewrite !elem_of_cons in Hin.
  repeat (destruct Hin as [-> |Hin]; [cbn [Handle Project] in *|]); [..|inversion Hin]; try specialize (Hps eq_refl).
  all: unfold handleLogin, handleLogout, handleMe, handleProjects, handleStats, handleIssueList, handleIssueGet,
    handleIssueEvents, handleIssueStatus, handleIssueMerge, handleIssueSplit, handleAlertList, handleAlertCreate,
    handleAlertDelete, handleOpsStatus, handleOpsConfig, handleAudit, handleTokenCreate, handleTokenRevoke; handler.
Qed.
End Handlers.

Lemma local_keeps ps us a actx r i rt : rt ∈ Routes ->
  (forall c, actx = Some c -> (Authz.UserID c, Authz.OrgID c) ∈ us) ->
  (Project rt = true -> forall c, actx = Some c -> (path_int "project_id" r, Authz.OrgID c) ∈ ps) ->
  Does ps us (handle_local a rt actx r i).
Proof. intros. apply k_bind; [apply Handle_keeps; assumption|intros; apply k_ret]. Qed.

(** A request: what [dispatch] checked is what the handlers rely on. *)
Lemma dispatch_keeps a rt r i : rt ∈ Routes -> Does [] [] (dispatch url_Parse_ok a rt r i).
Proof.
  intros Hin. unfold dispatch. destruct (Public rt).
  { apply local_keeps; [exact Hin|discriminate|intros _; discriminate]. }
  intros s s' res K H. unfold bind at 1 in H. destruct (authenticate r i s) as [s1 x] eqn:Ea.
  apply authenticate_ok in Ea as (Hd & cred & -> & Hc). rewrite <- Hd in *.
  destruct cred as [[u perms]|]; [|injection H as <- _; split; [auto|exact Logic.I]].
  destruct (Hc u perms eq_refl) as [Hu _]. apply user_org_in in Hu. cbv zeta in H.
  assert (Ku : forall ps, Forall (fun x => project_org (db s1) (fst x) (snd x)) ps -> known ps [(u_ID u, u_OrgID u)] (db s1)).
  { intros ps Hps. split_and!; [apply K|exact Hps|repeat constructor; exact Hu]. }
  assert (Hus : forall b c, Some (context_of u perms b) = Some c -> (Authz.UserID c, Authz.OrgID c) ∈ [(u_ID u, u_OrgID u)]).
  { intros b c [= <-]. rewrite OrgID_context_of. destruct perms; left. }
  destruct (negb _); [injection H as <- _; split; [auto|exact Logic.I]|]. destruct (Project rt) eqn:Ep; cbn [negb] in H.
  2:{ refine (local_keeps [] _ _ _ _ _ _ Hin (Hus _) _ _ _ _ (Ku [] _) H); [congruence|constructor]. }
  destruct (ParseInt _) as [pid|] eqn:Ei; [|injection H as <- _; split; [auto|exact Logic.I]].
  unfold bind at 1 in H. destruct (MetaAuth.ProjectInOrg _ pid s1) as [s2 y] eqn:E2.
  apply ApiTenancy.ProjectInOrg_ok in E2 as (Hd2 & b & -> & Hb). rewrite <- Hd2 in *.
  destruct (Authz.CanProject _ _ _) eqn:Ec; cbn [negb] in H; [|injection H as <- _; split; [auto|exact Logic.I]].
  apply CanProject_context_of in Ec. destruct (Hb Ec) as (q & Q1 & <- & Q3). apply project_org_in in Q1. rewrite Q3 in Q1.
  assert (Hl : handle_local a rt (Some (context_of u perms (fun _ => b))) r i s2 = (s', res) ->
    grows (db s2) (db s') /\ any res).
  { refine (local_keeps [(p_ID q, u_OrgID u)] _ _ _ _ _ _ Hin (Hus _) _ _ _ _ (Ku _ _)); [|repeat constructor; exact Q1].
    intros _ c [= <-]. rewrite OrgID_context_of. unfold path_int. rewrite (parse_or_clamp_ok _ _ Ei). left. }
  destruct (Locator a) as [owner|]; [|auto]. destruct (owner _); [|auto].
  injection H as <- _. split; [auto|exact Logic.I].
Qed.
End Api.

(** ** The issue sink: its cache agrees with the tables *)
Section Sink.
Context `{!MapRange Alerts.Rule}.

Record sink_typed (s : St DB * Sink.issueSink) : Prop := {
  st_tables : typed (db (fst s));
  st_cache : forall p o, Sink.k_m (snd s) !! p = Some o -> project_org (db (fst s)) p o }.

Lemma org_row_in d p o : SinkProps.org_row d p = Some o -> project_org d p o.
Proof.
  unfold SinkProps.org_row. destruct (List.find _ _) as [x|] eqn:E; [|discriminate]. intros [= <-].
  apply find_some_in in E as [Hin Hp]. replace p with (p_ID x) by lia. apply project_org_in, Hin.
Qed.

Lemma org_of_keeps p s s' r : Sink.org_of p s = (s', r) -> sink_typed s ->
  sink_typed s' /\ forall o, r = inr o -> project_org (db (fst s')) p o.
Proof.
  intros H [H1 H2]. unfold Sink.org_of, bind at 1, get in H. destruct (Sink.k_m (snd s) !! p) as [o|] eqn:E.
  { injection H as <- <-. split; [constructor; assumption|]. intros o' [= <-]. auto. }
  unfold bind at 1, Sink.lift in H. destruct (ProjectOrg p (fst s)) as [d [e|o]] eqn:EP;
    apply SinkProps.ProjectOrg_inv in EP as [D Ho].
  - injection H as <- <-. split; [constructor; cbn; rewrite D; assumption|discriminate].
  - unfold bind, Sink.set_m, modify in H. injection H as <- <-. specialize (Ho o eq_refl). apply org_row_in in Ho. cbn.
    rewrite D. split; [|intros o' [= <-]; exact Ho]. constructor; cbn; rewrite D; [assumption|]. intros p' o' Hl.
    apply lookup_insert_Some in Hl as [[<- <-]|[_ Hl]]; auto.
Qed.

Lemma hit_keeps clock u s : sink_typed s -> sink_typed (fst (Sink.UpsertIssue clock u s)).
Proof.
  intros Hs. destruct (Sink.UpsertIssue clock u s) as [s' r] eqn:H. cbn [fst]. unfold Sink.UpsertIssue, bind at 1 in H.
  destruct (Sink.org_of _ s) as [s1 [e|o]] eqn:E1; destruct (org_of_keeps _ _ _ _ E1 Hs) as [H1 Ho].
  { injection H as <- _. exact H1. }
  specialize (Ho o eq_refl). destruct s1 as [d1 k1]. destruct H1 as [T1 C1]. cbn [fst snd] in *.
  unfold bind at 1, Sink.lift in H. cbn [fst snd] in H. destruct (Issues.UpsertIssue (Sink.upsert_of o u) d1) as [d2 r2] eqn:E2.
  pose proof (UpsertIssue_keeps [(Pipeline.ih_ProjectID u, o)] [] (Sink.upsert_of o u) ltac:(left) _ _ _
    ltac:(split_and!; [exact T1|repeat constructor; exact Ho|constructor]) E2) as [G _].
  assert (H2 : forall e, sink_typed (d2, Sink.mkSink (Sink.k_m k1) e)).
  { intros e. constructor; cbn; [apply (gr_typed _ _ G T1)|]. intros p o' Hl. apply (gr_projects _ _ G), C1, Hl. }
  destruct k1 as [m1 e1]. cbn [Sink.k_m Sink.k_engine] in *.
  destruct r2 as [e|out]; [injection H as <- _; apply H2|]. unfold bind at 1, get in H. cbn [snd Sink.k_engine] in H.
  destruct e1 as [e|]; [|injection H as <- _; apply H2]. unfold bind at 1 in H.
  destruct (Sink.Evaluate clock (Sink.activity o u out) e (d2, _)) as [[d3 k3] r3] eqn:E3.
  destruct (SinkProps.Evaluate_inv _ _ _ _ _ _ E3) as (D3 & M3 & e' & ->). cbn [fst snd] in D3, M3.
  unfold bind, Sink.set_engine, modify in H. injection H as <- _. cbn [fst snd].
  destruct (H2 None) as [T2 C2]. constructor; cbn in *; rewrite ?D3, ?M3; auto.
Qed.
End Sink.

(** ** Any history of the node *)

(** What may happen to the tables: a server starts (its sink has an empty
    cache), a command runs, a request for the [n]-th route arrives, the
    pipeline delivers a hit, the limiter state is saved, or one of the
    operations main does not call is used. *)
Inductive event :=
  | Boot (p : Cmd.plan) (i : Cmd.input) (engine : option Alerts.Engine)
  | UserCommand (args : list string) (i : Cmd.input)
  | TokenCommand (args : list string) (i : Cmd.input)
  | ApiRequest (a : API) (n : nat) (r : Request) (i : input)
  | Hit (clock : nat -> Z) (u : Pipeline.IssueHit)
  | SaveRates (state : list (Z * float64))
  | NewOrg (name : string)
  | NewProject (org : Z) (name platform : string) (rnd : list byte)
  | LogoutUser (user : Z).

Section Run.
Context (IDKey : string -> list byte -> Z -> Z -> Z -> Z -> option (list byte)) (lower_rune : Z -> Z)
  (url_Parse_ok : string -> bool).
Context `{!SliceSort (key_le Issues.newest_first)} `{!SliceSort (key_le MetaAuth.newest_entry)} `{!MapRange Alerts.Rule}.

Definition node : Type := St DB * Sink.issueSink.
Definition on_tables {A} (m : Tx DB A) (s : node) : node := (fst (m (fst s)), snd s).

Definition step (s : node) (e : event) : node :=
  match e with
  | Boot p i engine => (fst (Cmd.boot IDKey lower_rune p i (fst s)), Sink.mkSink ∅ engine)
  | UserCommand args i => on_tables (Cmd.cmdUser IDKey lower_rune args i) s
  | TokenCommand args i => on_tables (Cmd.cmdToken lower_rune args i) s
  | ApiRequest a n r i =>
      match Routes IDKey lower_rune !! n with
      | Some rt => on_tables (dispatch url_Parse_ok a rt r i) s
      | None => s
      end
  | Hit clock u => fst (Sink.UpsertIssue clock u s)
  | SaveRates state => on_tables (RateLimitSave state) s
  | NewOrg name => on_tables (CreateOrg name) s
  | NewProject org name pf rnd => on_tables (CreateProject org name pf rnd) s
  | LogoutUser user => on_tables (MetaAuth.RevokeUserSessions user) s
  end.

Lemma on_tables_keeps {A} (m : Tx DB A) s : Does [] [] m -> sink_typed s -> sink_typed (on_tables m s).
Proof.
  intros Hm [T C]. destruct (m (fst s)) as [d r] eqn:E.
  destruct (Hm (fst s) d r ltac:(split_and!; [exact T|constructor..]) E) as [G _]. unfold on_tables. rewrite E.
  constructor; [apply (gr_typed _ _ G T)|]. intros p o Hl. apply (gr_projects _ _ G), C, Hl.
Qed.

Lemma step_keeps s e : sink_typed s -> sink_typed (step s e).
Proof.
  intros H. destruct e; cbn [step];
    auto using on_tables_keeps, cmdUser_keeps, cmdToken_keeps, hit_keeps, RateLimitSave_keeps, CreateOrg_keeps,
      CreateProject_keeps, RevokeUserSessions_keeps.
  - destruct (on_tables_keeps _ s (boot_keeps IDKey lower_rune [] [] p i) H) as [T _].
    constructor; [exact T|]. intros q o Hl. cbn in Hl. rewrite lookup_empty in Hl. discriminate.
  - destruct (_ !! n) as [rt|] eqn:E; [|exact H]. apply on_tables_keeps; [|exact H]. eapply dispatch_keeps.
    exact (list_elem_of_lookup_2 _ _ _ E).
Qed.

(** C5: Whatever commands, server starts, API requests, event hits and limiter
    checkpoints happen, in whatever order, with whatever failures of
    statements and commits and whatever contexts that end early, the tables
    stay well typed: ids, slugs, addresses, keys, hashes and (project,
    fingerprint) pairs are unique; every row refers to rows that exist; keys,
    issues and alert rules carry the organisation of their project and API
    tokens that of their user; merges go one hop. The cache of the issue sink
    agrees with the projects. *)
Theorem tables_stay_typed faults ctxs events :
  let s := fold_left step events (mkSt Meta.empty faults ctxs, Sink.mkSink ∅ None) in
  typed (db (fst s)) /\ forall p o, Sink.k_m (snd s) !! p = Some o -> project_org (db (fst s)) p o.
Proof.
  intros s. enough (H : sink_typed s) by (destruct H; auto). subst s.
  assert (Hr : forall s, sink_typed s -> sink_typed (fold_left step events s)).
  { induction events as [|e l IH]; intros s Hs; [exact Hs|]. apply IH, step_keeps, Hs. }
  apply Hr. constructor; [exact typed_empty|]. intros p o H. cbn in H. rewrite lookup_empty in H. discriminate.
Qed.
End Run.

(** What the theorems on the sink start from is what any history leaves. *)
Lemma sink_typed_ok s : sink_typed s -> SinkProps.sink_ok s.
Proof.
  intros [[F I] C]. assert (H : forall p o, project_org (db (fst s)) p o -> SinkProps.org_row (db (fst s)) p = Some o).
  { intros p o Hp. apply list_elem_of_fmap in Hp as (x & [= -> ->] & Hx). unfold SinkProps.org_row.
    destruct (List.find _ _) as [y|] eqn:E.
    - apply find_some_in in E as [Hy Ey]. cbn. f_equal. f_equal.
      apply (ApiTenancy.unique_by p_ID (projects (db (fst s)))); [apply (ty_projects _ F)|exact Hy|exact Hx|lia].
    - apply (find_none_all _ _ E) in Hx. lia. }
  constructor; [exact I| |intros p o Hl; apply H, C, Hl]. unfold SinkProps.orgs_ok. eapply Forall_impl; [apply (ty_issues_org _ F)|].
  intros i Hi. apply H, Hi.
Qed.

(** ** A first day *)
Definition zero_key : string -> list byte -> Z -> Z -> Z -> Z -> option (list byte) := fun _ _ _ _ _ _ => Some (repeat x00 32).
Definition plan1 : Cmd.plan := Cmd.mkPlan Config.Default true true true None.
Definition input1 : Cmd.input := Cmd.mkInput (repeat x01 16) (repeat x02 16) (repeat x03 16) (repeat x04 32) 5.
Definition hit1 : Pipeline.IssueHit := Pipeline.mkHit 1 "fp" Grouping.BasisStacktrace "timeout" "error" 500.
Definition alert_body : string :=
  "{" +:+ Json.quoted "name" +:+ ":" +:+ Json.quoted "n" +:+ "," +:+ Json.quoted "condition" +:+ ":" +:+ Json.quoted "new_issue"
  +:+ "," +:+ Json.quoted "webhook_url" +:+ ":" +:+ Json.quoted "http://h" +:+ "}".
Definition alert_request : Request :=
  mkRequest (fun _ => "1") [] (fun k => if bool_decide (k = "Authorization") then "Bearer " +:+ fst (Auth.NewToken (repeat x04 32)) else "")
    None (fun _ => None) "10.0.0.1:5" false (mkStream (list_byte_of_string alert_body) EOF).
Definition day1 : list event :=
  [Boot plan1 input1 None; TokenCommand ["create"; "--email"; "admin@leser.local"; "--name"; "ci"] input1;
   ApiRequest ApiTenancy.api 12 alert_request (Api.mkInput 5 6 []); Hit (fun _ => 1) hit1; Hit (fun _ => 1) hit1;
   SaveRates [(1, SpecFloat.S754_zero false)]].
Definition after1 : DB := db (fst (fold_left (step zero_key (fun c => c) (fun _ => true)) day1 (mkSt Meta.empty [] [], Sink.mkSink ∅ None))).

Example day1_rows :
  map (fun u => (u_ID u, u_Email u)) (users after1) = [(1, "admin@leser.local")]
  /\ map (fun t => (t_UserID t, t_OrgID t)) (tokens after1) = [(1, 1)]
  /\ map (fun r => (r_ProjectID r, r_OrgID r, r_Condition r)) (alert_rules after1) = [(1, 1, "new_issue")]
  /\ map (fun i => (i_ProjectID i, i_OrgID i, i_TimesSeen i)) (issues after1) = [(1, 1, 2)].
Proof. vm_compute. auto. Qed.

End TablesRun.
