(* ===== verification/Serve.v ===== *)
(** * The serve command (cmd/leser/main.go: cmdServe)

    The boot opens the data directory, the metadata store, the log and the
    event store in this order, wires the parts of the role and joins the
    cluster; then the tasks start and the server runs until it ends; whatever
    was deferred happens in reverse order, also after an early return. The
    components are those of their own files, over one [World]; [trace] records
    what the process did. *)
From S2P Require Import Prelude GoSort GoStrings GoFloat GoUtf8 Monad Sql MetaDb MetaOpen MetaAuth Wal EventStore Envelope.
From S2P Require Import Lru RateLimit Pipeline IngestHttp Alerts Ring Membership Config GoFlag Server Cmd Sink Checkpoint.
From S2P Require Import WalSegment ApiFrame Tables TablesRun.
Import Sql Meta.
#[local] Open Scope string_scope.
#[local] Open Scope list_scope.
#[local] Open Scope Z_scope.
#[local] Open Scope leser_scope.

Module Serve.
#[local] Existing Instance EventStore.path_eq_dec.
#[local] Existing Instance EventStore.path_countable.

(** ** What the process does *)
Inductive act :=
  | OpenedMeta | OpenedWal (ro : bool) | OpenedStore | Joined | Ready | Started (t : Cmd.task) | Listening
  | StoppedContext | LeftCluster | ClosedWal | ClosedMeta.

(** Deferred calls. *)
Inductive deferred := DStop | DLeave | DCloseWal | DCloseMeta.

(** What is wired: the sink with the alert engine, the pipeline, the handler
    of an ingester, the membership, the routes mounted, whether the user
    interface is served, and the first password to print. *)
Inductive mount := MountIngest | MountAPI.
Record Parts := mkParts {
  project : Meta.Project; sink : option Sink.issueSink; pipe : Pipeline.Pipeline; ih : option Ingest.Handler;
  membership : option Membership.Membership; mounts : list mount; has_ui : bool; adminNote : option string }.

Record World := mkWorld {
  meta : Sql.St DB; wal : Wal.St; events : EventStore.St; parts : option Parts; trace : list act; defers : list deferred }.

Inductive exit := Ret (code : Z) | Panic.
Definition B := M World exit.

Definition set_meta v w := mkWorld v (wal w) (events w) (parts w) (trace w) (defers w).
Definition set_wal v w := mkWorld (meta w) v (events w) (parts w) (trace w) (defers w).
Definition set_events v w := mkWorld (meta w) (wal w) v (parts w) (trace w) (defers w).
Definition set_parts v w := mkWorld (meta w) (wal w) (events w) v (trace w) (defers w).
Definition did (a : act) : B unit := modify (fun w => mkWorld (meta w) (wal w) (events w) (parts w) (trace w ++ [a]) (defers w)).
Definition defer (d : deferred) : B unit := modify (fun w => mkWorld (meta w) (wal w) (events w) (parts w) (trace w) (d :: defers w)).
Definition acquired (a : act) (d : deferred) : B unit := did a ;; defer d.

Definition on_meta {A} (m : Tx DB A) : B (sql_error + A) := fun w => let '(s, r) := m (meta w) in (set_meta s w, inr r).
Definition on_wal {A} (m : Wal.W A) : B (Wal.wal_error + A) := fun w => let '(s, r) := m (wal w) in (set_wal s w, inr r).
Definition on_events {A} (m : EventStore.E A) : B (EventStore.es_error + A) :=
  fun w => let '(s, r) := m (events w) in (set_events s w, inr r).

(** An error that is logged and ends the command with code 1. *)
Definition must {E A} (m : B (E + A)) : B A := let! r := m in match r with inl _ => throw (Ret 1) | inr a => ret a end.

(** ** The environment *)
Section Serve.
Context (IDKey : string -> list byte -> Z -> Z -> Z -> Z -> option (list byte)) (lower_rune : Z -> Z).
Context (MkdirAll : string -> bool) (sql_Open : string -> bool) (WalkDir : gmap EventStore.path EventStore.SegFile -> list EventStore.path).
Context (Create : string -> string -> Z -> string -> bool) (ml_Join : list string -> option string) (members : list string)
  (ml_Leave ml_Shutdown : option string).
Context `{!SliceSort Ring.hash_le} `{!MapRange (Z * float64)}.

(** What the role does to the stores while it serves, and how serving ends. *)
Context (work : Sql.St DB * Wal.St * EventStore.St -> Sql.St DB * Wal.St * EventStore.St) (ended : Server.ended).

(** The zero options of each package. *)
Definition wal_options (readOnly : bool) : Wal.Options := Wal.mkOptions 0 0 0 0 Wal.SyncBatched 0 readOnly 0.
Definition store_options : EventStore.Options := EventStore.mkOptions 0 0 0 0.
Definition zero_limits : Envelope.Limits := Envelope.mkLimits 0 0 0.

(** ** Opening *)
Definition open_meta (p : Cmd.plan) (i : Cmd.input) : B (Meta.Project * ProjectKey) :=
  must (on_meta (MetaOpen.Open sql_Open (Config.DataDir (Cmd.cfg p) +:+ "/metadata.db"))) ;;
  (acquired OpenedMeta DCloseMeta ;;
   must (on_meta (Bootstrap "Default" "my-app" (Cmd.i_key i)))).

Definition open_wal (p : Cmd.plan) : B unit :=
  must (on_wal (Wal.Open (wal_options (Cmd.wal_read_only p)))) ;;
  acquired (OpenedWal (Cmd.wal_read_only p)) DCloseWal.

Definition open_store (p : Cmd.plan) : B unit :=
  if Cmd.opens_store p then
    (let! w := get in must (on_events (EventStore.Open store_options (WalkDir (EventStore.files (events w)))))) ;; did OpenedStore
  else ret tt.

(** The first administrator, whose password is printed once. *)
Definition admin (p : Cmd.plan) (i : Cmd.input) (proj : Meta.Project) : B (option string) :=
  if Cmd.doQuery p then
    let! r := on_meta (Cmd.boot_admin IDKey lower_rune (p_OrgID proj) i) in
    match r with inr (Some note) => ret note | inr None => throw Panic | inl _ => ret None end
  else ret None.

(** ** Wiring *)
Definition join (p : Cmd.plan) : B (option Membership.Membership) :=
  match Cmd.clustered p with
  | None => ret None
  | Some c =>
      match Membership.Join Create ml_Join (Membership.mkConfig (Membership.mkNodeInfo (Cmd.cl_NodeID c) (Cmd.cl_APIAddr c))
              (Cmd.cl_Bind c) (Cmd.cl_Port c) (Cmd.cl_Join c) 0) members with
      | None => throw (Ret 1)
      | Some m => acquired Joined DLeave ;; ret (Some m)
      end
  end.

Definition new_sink (p : Cmd.plan) : option Sink.issueSink :=
  if Cmd.doWorker p then Some (Sink.mkSink ∅ (Some (Alerts.New (Alerts.mkOptions 0 0 0 0 0 0 0)))) else None.
Definition new_pipe (p : Cmd.plan) : Pipeline.Pipeline :=
  Pipeline.NewPipeline (Pipeline.mkOptions 0 0 0 0) zero_limits (Cmd.doWorker p).
Definition new_handler (p : Cmd.plan) : option Ingest.Handler :=
  if Cmd.doIngest p then Some (Ingest.NewHandler (new_pipe p) zero_limits) else None.
Definition role_mounts (p : Cmd.plan) : list mount :=
  (if Cmd.doIngest p then [MountIngest] else []) ++ (if Cmd.doQuery p then [MountAPI] else []).

(** The rate limiter goes on from its last checkpoint. *)
Definition set_ih (h : Ingest.Handler) (q : Parts) : Parts :=
  mkParts (project q) (sink q) (pipe q) (Some h) (membership q) (mounts q) (has_ui q) (adminNote q).
Definition restore_limiter (now : Z) : B unit :=
  let! w := get in
  match parts w ≫= ih with
  | None => ret tt
  | Some h =>
      let! l := on_meta (Checkpoint.restore now (Ingest.limiter h)) in
      match l with
      | inl _ => ret tt
      | inr l => modify (fun w => set_parts (set_ih (Ingest.set_limiter l h) <$> parts w) w)
      end
  end.

(** The goroutines: the consumer first, the tickers after the restore. *)
Definition consumers (p : Cmd.plan) : list Cmd.task := if Cmd.doWorker p then [Cmd.RunPipeline; Cmd.RunEngine] else [].
Definition tickers (p : Cmd.plan) : list Cmd.task :=
  (if Cmd.doIngest p then [Cmd.RateCheckpoint] else [])
  ++ (if Cmd.doIngest p && negb (Cmd.doWorker p) then [Cmd.RefreshLag] else [])
  ++ (if Cmd.doQuery p && negb (Cmd.doWorker p) then [Cmd.RefreshStore] else []).
Fixpoint start (ts : list Cmd.task) : B unit :=
  match ts with [] => ret tt | t :: ts => did (Started t) ;; start ts end.

(** ** Building and running *)
Definition build (p : Cmd.plan) (proj : Meta.Project) (m : option Membership.Membership) (note : option string) : B unit :=
  modify (set_parts (Some (mkParts proj (new_sink p) (new_pipe p) (new_handler p) m (role_mounts p) (Cmd.doQuery p) note))) ;;
  acquired Ready DStop.

Definition listen (p : Cmd.plan) : B Z :=
  did Listening ;;
  (modify (fun w => let '(d, l, e) := work (meta w, wal w, events w) in mkWorld d l e (parts w) (trace w) (defers w)) ;;
   match Server.ListenAndServe (Server.SetReady true (Server.New (FS := unit) (Config.ListenAddr (Cmd.cfg p)) None [])) ended with
   | Some _ => throw (Ret 1)
   | None => ret 0
   end).

Definition prepare (p : Cmd.plan) (i : Cmd.input) : B unit :=
  (if MkdirAll (Config.DataDir (Cmd.cfg p)) then ret tt else throw (Ret 1)) ;;
  (let! pk := open_meta p i in
   open_wal p ;; (open_store p ;;
   (let! note := admin p i (fst pk) in
    let! m := join p in
    build p (fst pk) m note ;; (start (consumers p) ;; (restore_limiter (Cmd.i_now i) ;; start (tickers p)))))).
Definition body (p : Cmd.plan) (i : Cmd.input) : B Z := prepare p i ;; listen p.

(** ** Deferred calls, the last first *)
Definition leave_cluster (q : Parts) : Parts :=
  mkParts (project q) (sink q) (pipe q) (ih q) (m ← membership q; fst <$> Membership.Leave ml_Leave ml_Shutdown m)
    (mounts q) (has_ui q) (adminNote q).
Definition undefer (d : deferred) : B unit :=
  match d with
  | DStop => did StoppedContext
  | DLeave => modify (fun w => set_parts (leave_cluster <$> parts w) w) ;; did LeftCluster
  | DCloseWal => let! _ := on_wal Wal.Close in did ClosedWal
  | DCloseMeta => did ClosedMeta
  end.
Fixpoint undefer_all (ds : list deferred) : B unit :=
  match ds with [] => ret tt | d :: ds => undefer d ;; undefer_all ds end.

(** A process over what is on its disk. *)
Definition stores : Type := Sql.St DB * Wal.St * EventStore.St.
Definition started (s : stores) : World := mkWorld (fst (fst s)) (snd (fst s)) (snd s) None [] [].
Definition serve (p : Cmd.plan) (i : Cmd.input) (s : stores) : World * exit :=
  let '(w, r) := body p i (started s) in
  (fst (undefer_all (defers w) w), match r with inl e => e | inr code => Ret code end).

(** The command: usage and configuration errors come before anything is
    opened. *)
Definition cmdServe (ReadFile LookupEnv : string -> option string) (args : list string) (i : Cmd.input) (s : stores)
    : World * exit :=
  match Cmd.serve_plan ReadFile LookupEnv args with
  | inl code => (started s, Ret code)
  | inr p => serve p i s
  end.

Lemma tasks_started p : Cmd.tasks p = consumers p ++ tickers p.
Proof. reflexivity. Qed.

(** ** The phases of the boot and what closes them *)
Definition preparations (p : Cmd.plan) : list act :=
  [OpenedMeta] ++ [OpenedWal (Cmd.wal_read_only p)] ++ (if Cmd.opens_store p then [OpenedStore] else [])
  ++ (match Cmd.clustered p with Some _ => [Joined] | None => [] end) ++ [Ready] ++ map Started (Cmd.tasks p).
Definition phases (p : Cmd.plan) : list act := preparations p ++ [Listening].
Definition deferral (a : act) : list deferred :=
  match a with
  | OpenedMeta => [DCloseMeta] | OpenedWal _ => [DCloseWal] | Joined => [DLeave] | Ready => [DStop] | _ => []
  end.
Definition closing (d : deferred) : act :=
  match d with DStop => StoppedContext | DLeave => LeftCluster | DCloseWal => ClosedWal | DCloseMeta => ClosedMeta end.
Definition deferrals (l : list act) : list deferred := flat_map deferral (rev l).
Definition closers (l : list act) : list act := map closing (deferrals l).

Lemma deferrals_app l1 l2 : deferrals (l1 ++ l2) = deferrals l2 ++ deferrals l1.
Proof. unfold deferrals. rewrite rev_app_distr, flat_map_app. reflexivity. Qed.

(** [m] does the acts [l]; when it ends the command it has done the first of
    them, and its code is not 0. *)
Definition phased {A} (m : B A) (l : list act) : Prop := forall w w' r, m w = (w', r) ->
  exists l1 l2, l = l1 ++ l2 /\ trace w' = trace w ++ l1 /\ defers w' = deferrals l1 ++ defers w
    /\ match r with inr _ => l2 = [] | inl e => e <> Ret 0 end.

Lemma phased_bind {A C} (m : B A) (k : A -> B C) l1 l2 :
  phased m l1 -> (forall a, phased (k a) l2) -> phased (bind m k) (l1 ++ l2).
Proof.
  intros Hm Hk w w' r H. unfold bind in H. destruct (m w) as [w1 r1] eqn:E.
  destruct (Hm _ _ _ E) as (a1 & a2 & -> & Ht & Hd & Hr). destruct r1 as [e|a].
  - injection H as <- <-. exists a1, (a2 ++ l2). split_and!; auto. symmetry. apply app_assoc.
  - subst a2. rewrite app_nil_r. destruct (Hk _ _ _ _ H) as (b1 & b2 & -> & Ht' & Hd' & Hr').
    exists (a1 ++ b1), b2. rewrite deferrals_app, <- !app_assoc, Ht', Hd', Ht, Hd, <- !app_assoc. auto.
Qed.
Lemma phased_seq {A C} (m : B A) (k : A -> B C) l : phased m [] -> (forall a, phased (k a) l) -> phased (bind m k) l.
Proof. intros Hm. apply (phased_bind m k [] l Hm). Qed.

(** A step that neither acts nor defers. *)
Definition silent {A} (m : B A) : Prop := forall w, trace (fst (m w)) = trace w /\ defers (fst (m w)) = defers w
  /\ snd (m w) <> inl (Ret 0).
Lemma silent_phased {A} (m : B A) : silent m -> phased m [].
Proof.
  intros Hm w w' r H. destruct (Hm w) as (Ht & Hd & Hr). rewrite H in Ht, Hd, Hr. cbn in Ht, Hd, Hr. exists [], [].
  split_and!; [reflexivity|rewrite app_nil_r; exact Ht|exact Hd|]. destruct r; [congruence|reflexivity].
Qed.
Lemma silent_ret {A} (a : A) : silent (ret a). Proof. intros w. split_and!; [reflexivity..|discriminate]. Qed.
Lemma silent_throw {A} e : e <> Ret 0 -> silent (@throw World exit A e).
Proof. intros He w. split_and!; [reflexivity..|]. cbn. congruence. Qed.
Lemma silent_modify f : (forall w, trace (f w) = trace w /\ defers (f w) = defers w) -> silent (modify f).
Proof. intros Hf w. destruct (Hf w). split_and!; auto. Qed.
Lemma silent_get : silent get. Proof. intros w. split_and!; [reflexivity..|discriminate]. Qed.
Lemma silent_bind {A C} (m : B A) (k : A -> B C) : silent m -> (forall a, silent (k a)) -> silent (bind m k).
Proof.
  intros Hm Hk w. unfold bind. specialize (Hm w). destruct (m w) as [w1 [e|a]]; cbn in *; [destruct Hm as (? & ? & ?); split_and!; congruence|].
  destruct (Hk a w1) as (? & ? & ?), Hm as (? & ? & ?). split_and!; congruence.
Qed.
Lemma silent_on_meta {A} (m : Tx DB A) : silent (on_meta m).
Proof. intros w. unfold on_meta. destruct (m (meta w)). split_and!; [reflexivity..|discriminate]. Qed.
Lemma silent_on_wal {A} (m : Wal.W A) : silent (on_wal m).
Proof. intros w. unfold on_wal. destruct (m (wal w)). split_and!; [reflexivity..|discriminate]. Qed.
Lemma silent_on_events {A} (m : EventStore.E A) : silent (on_events m).
Proof. intros w. unfold on_events. destruct (m (events w)). split_and!; [reflexivity..|discriminate]. Qed.
Lemma silent_must {E A} (m : B (E + A)) : silent m -> silent (must m).
Proof. intros Hm. apply silent_bind; [exact Hm|]. intros [e|a]; [apply silent_throw; discriminate|apply silent_ret]. Qed.
#[local] Hint Resolve silent_ret silent_get silent_bind silent_on_meta silent_on_wal silent_on_events silent_must silent_phased : core.
#[local] Hint Extern 1 (silent (throw _)) => apply silent_throw; discriminate : core.
#[local] Hint Extern 1 (silent (modify _)) => apply silent_modify; intros; auto : core.

Lemma phased_did a : deferral a = [] -> phased (did a) [a].
Proof. intros Ha w w' r [= <- <-]. exists [a], []. unfold deferrals. cbn. rewrite Ha. auto. Qed.
Lemma phased_acquired a d : deferral a = [d] -> phased (acquired a d) [a].
Proof. intros Ha w w' r [= <- <-]. exists [a], []. unfold deferrals. cbn. rewrite Ha. auto. Qed.
Lemma phased_start ts : phased (start ts) (map Started ts).
Proof.
  induction ts as [|t ts IH]; [apply silent_phased, silent_ret|].
  apply (phased_bind _ _ [_]); [apply phased_did; reflexivity|]. intros _. exact IH.
Qed.

Lemma phased_open_meta p i : phased (open_meta p i) [OpenedMeta].
Proof.
  apply phased_seq; [auto|]. intros _. apply (phased_bind _ _ [_] []); [apply phased_acquired; reflexivity|]. auto.
Qed.
Lemma phased_open_wal p : phased (open_wal p) [OpenedWal (Cmd.wal_read_only p)].
Proof. apply phased_seq; [auto|]. intros _. apply phased_acquired. reflexivity. Qed.
Lemma phased_open_store p : phased (open_store p) (if Cmd.opens_store p then [OpenedStore] else []).
Proof.
  unfold open_store. destruct (Cmd.opens_store p); [|auto]. apply phased_seq; [auto|]. intros _. apply phased_did. reflexivity.
Qed.
Lemma phased_admin p i proj : phased (admin p i proj) [].
Proof.
  apply silent_phased. unfold admin. destruct (Cmd.doQuery p); [|auto]. apply silent_bind; [auto|].
  intros [e|[note|]]; auto.
Qed.
Lemma phased_join p : phased (join p) (match Cmd.clustered p with Some _ => [Joined] | None => [] end).
Proof.
  unfold join. destruct (Cmd.clustered p) as [c|]; [|auto]. destruct (Membership.Join _ _ _ _) as [m|].
  - apply (phased_bind _ _ [_] []); [apply phased_acquired; reflexivity|auto].
  - intros w w' r [= <- <-]. exists [], [Joined]. cbn. rewrite app_nil_r. split_and!; auto.
Qed.
Lemma phased_restore now : phased (restore_limiter now) [].
Proof.
  apply silent_phased. unfold restore_limiter. apply silent_bind; [auto|]. intros w. destruct (_ ≫= _); [|auto].
  apply silent_bind; [auto|]. intros [e|l]; auto.
Qed.

Lemma phased_prepare p i : phased (prepare p i) (preparations p).
Proof.
  unfold prepare, preparations. rewrite tasks_started, map_app.
  apply phased_seq; [destruct (MkdirAll _); auto|]. intros _.
  apply (phased_bind _ _ [_]); [apply phased_open_meta|]. intros pk. apply (phased_bind _ _ [_]); [apply phased_open_wal|]. intros _.
  apply phased_bind; [apply phased_open_store|]. intros _. apply phased_seq; [apply phased_admin|]. intros note.
  apply phased_bind; [apply phased_join|]. intros m. apply (phased_bind _ _ [_]).
  { apply phased_seq; [auto|]. intros _. apply phased_acquired. reflexivity. }
  intros _. apply phased_bind; [apply phased_start|]. intros _. apply phased_seq; [apply phased_restore|]. intros _.
  apply phased_start.
Qed.

(** The listening server ends the command one way or the other. *)
Lemma listen_ends p w : exists w', trace w' = trace w ++ [Listening] /\ defers w' = defers w
  /\ listen p w = (w', if bool_decide (Server.ListenAndServe (Server.New (FS := unit) "" None []) ended = None) then inr 0 else inl (Ret 1)).
Proof.
  unfold listen, bind, did, modify. cbn. destruct (work _) as [[d l] e]. destruct ended as [err|[err|]]; cbn; eexists; (split_and!; [| |reflexivity]; reflexivity).
Qed.

Lemma undefer_did d w : trace (fst (undefer d w)) = trace w ++ [closing d] /\ exists w', undefer d w = (w', inr tt).
Proof.
  destruct d; cbn; try (split; eauto; fail). unfold bind, on_wal. destruct (Wal.Close (wal w)) as [l r]. cbn. eauto.
Qed.
Lemma undefer_all_did ds : forall w, trace (fst (undefer_all ds w)) = trace w ++ map closing ds.
Proof.
  induction ds as [|d ds IH]; intros w; [cbn; rewrite app_nil_r; reflexivity|].
  cbn [undefer_all map]. unfold bind. destruct (undefer_did d w) as [Ht [w' E]]. rewrite E in Ht |- *. cbn in Ht.
  rewrite IH, Ht, <- app_assoc. reflexivity.
Qed.

(** C27: the boot opens in the order of [phases] and, wherever it stops, closes
    what it has opened in the opposite order; the command succeeds exactly
    when it has served and the server has ended without an error. *)
Theorem serve_opens_then_closes p i s w r : serve p i s = (w, r) ->
  exists l1 l2, phases p = l1 ++ l2 /\ trace w = l1 ++ closers l1
    /\ (r = Ret 0 <-> l2 = [] /\ ended = Server.ContextDone None).
Proof.
  intros H. unfold serve, body, bind in H. destruct (prepare p i (started s)) as [w1 r1] eqn:E.
  destruct (phased_prepare p i _ _ _ E) as (l1 & l2 & Hl & Ht & Hd & Hr). cbn in Ht, Hd. rewrite app_nil_r in Hd.
  unfold phases. rewrite Hl. destruct r1 as [e|[]].
  - injection H as <- <-. exists l1, (l2 ++ [Listening]). rewrite undefer_all_did, Hd, Ht, <- app_assoc.
    split_and!; [reflexivity..|]. split; [intros ->; congruence|]. intros [Hn _]. destruct l2; discriminate.
  - destruct (listen_ends p w1) as (w2 & Ht2 & Hd2 & El). rewrite El in H. subst l2. rewrite app_nil_r.
    exists (l1 ++ [Listening]), []. rewrite app_nil_r. injection H as <- <-.
    assert (Hc : closers (l1 ++ [Listening]) = closers l1) by (unfold closers; rewrite deferrals_app; reflexivity).
    rewrite undefer_all_did, Hd2, Hd, Ht2, Ht, Hc. split_and!; [reflexivity..|].
    destruct ended as [err|[err|]]; cbn; (split; [|intros [_ ?]]; try congruence; auto).
Qed.

End Serve.

(** ** A worker that starts on an empty directory, and one whose log cannot
    be read. *)
Definition ex_plan : Cmd.plan := Cmd.mkPlan Config.Default false true false None.
Definition ex_stores (io : list Wal.ioRes) : stores :=
  (mkSt Meta.empty [] [], Wal.mkSt ∅ io 0 (Wal.mkLog (wal_options false) [] None 0 true 0),
   EventStore.mkSt ∅ [] (EventStore.mkStore store_options [] 0 [] ∅ 0 0 0)).
Definition ex_serve (io : list Wal.ioRes) : World * exit :=
  serve (fun _ _ _ _ _ _ => None) (fun c => c) (fun _ => true) (fun _ => true) (fun _ => []) (fun _ _ _ _ => true) (fun _ => None)
    [] None None (fun s => s) (Server.ContextDone None) ex_plan (Cmd.mkInput [] [] [] [] 0) (ex_stores io).

Example ex_serve_runs :
  trace (fst (ex_serve [])) = [OpenedMeta; OpenedWal true; OpenedStore; Ready; Started Cmd.RunPipeline; Started Cmd.RunEngine;
    Listening; StoppedContext; ClosedWal; ClosedMeta]
  /\ trace (fst (ex_serve [Wal.IoFail 0])) = [OpenedMeta; ClosedMeta] /\ snd (ex_serve [Wal.IoFail 0]) = Ret 1.
Proof. split_and!; vm_compute; reflexivity. Qed.

Lemma serve_opens_then_closes_witness : exists w r, ex_serve [] = (w, r) /\
  exists l1 l2, phases ex_plan = l1 ++ l2 /\ trace w = l1 ++ closers l1
    /\ (r = Ret 0 <-> l2 = [] /\ Server.ContextDone None = Server.ContextDone None).
Proof.
  eexists _, _. split; [apply surjective_pairing|]. eapply serve_opens_then_closes. unfold ex_serve. apply surjective_pairing.
Defined.

End Serve.

(** ** What a role does to the stores: whatever of [typed] tables and of the
    files of the log a role keeps while it serves, the whole command keeps,
    its boot, early ends and deferred calls included. *)
Module ServeProps.
Import ApiFrame Tables TablesRun Serve.
#[local] Existing Instance EventStore.path_eq_dec.
#[local] Existing Instance EventStore.path_countable.

(** ** Computations that keep a predicate *)
Definition keeps {S E A} (P : S -> Prop) (m : M S E A) : Prop := forall s, P s -> P (fst (m s)).

Section Keeps.
Context {S E : Type} (P : S -> Prop).
Lemma keep_ret {A} (a : A) : keeps P (@ret S E A a). Proof. intros s H. exact H. Qed.
Lemma keep_throw {A} (e : E) : keeps P (@throw S E A e). Proof. intros s H. exact H. Qed.
Lemma keep_get : keeps P (@get S E). Proof. intros s H. exact H. Qed.
Lemma keep_modify f : (forall s, P s -> P (f s)) -> keeps P (@modify S E f). Proof. intros Hf s H. exact (Hf s H). Qed.
Lemma keep_bind {A B} (m : M S E A) (k : A -> M S E B) : keeps P m -> (forall a, keeps P (k a)) -> keeps P (bind m k).
Proof. intros Hm Hk s H. unfold bind. specialize (Hm s H). destruct (m s) as [s' [e|a]]; [exact Hm|exact (Hk a s' Hm)]. Qed.
Lemma keep_try {A} (m : M S E A) : keeps P m -> keeps P (try m).
Proof. intros Hm s H. unfold try. specialize (Hm s H). destruct (m s). exact Hm. Qed.
End Keeps.
#[export] Hint Resolve keep_ret keep_throw keep_get keep_bind keep_try : keeps.
#[export] Hint Extern 1 (keeps _ (match ?x with _ => _ end)) => destruct x : keeps.

(** ** A log opened ReadOnly changes no file *)
Section ReadOnly.
Context (Q : gmap string Wal.File -> Prop).

Definition watching (s : Wal.St) : Prop := Q (Wal.d_files s) /\ Wal.ReadOnly (Wal.opts (Wal.log s)) = true.

Lemma syscall_watches : keeps watching Wal.syscall.
Proof.
  apply keep_bind; [|auto with keeps]. intros s H. unfold Wal.next_io. destruct (Wal.d_io s); exact H.
Qed.
#[local] Hint Resolve syscall_watches : keeps.
#[local] Hint Extern 1 (keeps watching (Wal.set_log _)) => intros ? [? ?]; split; assumption : keeps.
Lemma os_open_watches n : keeps watching (Wal.os_open n).
Proof. unfold Wal.os_open, Wal.get_file. auto 8 with keeps. Qed.
#[local] Hint Resolve os_open_watches : keeps.
Lemma listSegments_watches : keeps watching Wal.listSegments.
Proof. unfold Wal.listSegments, Wal.os_readdir. auto 8 with keeps. Qed.
#[local] Hint Resolve listSegments_watches : keeps.
Lemma probe_watches b : keeps watching (Wal.readSegmentProbe b).
Proof. unfold Wal.readSegmentProbe. auto 20 with keeps. Qed.
#[local] Hint Resolve probe_watches : keeps.
Lemma refresh_first_watches bases : keeps watching (Wal.refresh_first bases).
Proof. induction bases; cbn [Wal.refresh_first]; auto 10 with keeps. Qed.
Lemma refresh_more_watches bases : forall e, keeps watching (Wal.refresh_more e bases).
Proof. induction bases; intros e; cbn [Wal.refresh_more]; auto 12 with keeps. Qed.
#[local] Hint Resolve refresh_first_watches refresh_more_watches : keeps.
Lemma Refresh_watches : keeps watching Wal.Refresh.
Proof. unfold Wal.Refresh, Wal.refresh_next. auto 20 with keeps. Qed.
#[local] Hint Resolve Refresh_watches : keeps.

Lemma Open_watches s s' r : Q (Wal.d_files s) -> Wal.Open (wal_options true) s = (s', r) ->
  Q (Wal.d_files s') /\ (r = inr tt \/ watching s -> watching s').
Proof.
  intros Hq H. unfold Wal.Open, bind at 1 in H. destruct (Wal.syscall s) as [s1 r1] eqn:E.
  assert (Hf : Wal.d_files s1 = Wal.d_files s /\ Wal.log s1 = Wal.log s).
  { revert E. unfold Wal.syscall, bind, Wal.next_io. destruct (Wal.d_io s) as [|[]]; intros [= <- _]; split; reflexivity. }
  destruct Hf as [Hf Hl]. destruct r1 as [e|[]].
  { injection H as <- <-. unfold watching. rewrite Hf, Hl. split; [exact Hq|]. intros [?|W]; [discriminate|exact W]. }
  unfold bind at 1, Wal.set_log, modify in H. unfold Wal.load, bind at 1, get in H. cbn [Wal.log Wal.opts Wal.ReadOnly Wal.defaults wal_options] in H.
  match type of H with Wal.Refresh ?v = _ => assert (W : watching v) by (split; [cbn; rewrite Hf; exact Hq|reflexivity]);
    pose proof (Refresh_watches v W) as [W1 W2]; rewrite H in W1, W2 end.
  split; [exact W1|intros _; split; assumption].
Qed.

Lemma Close_watches : keeps watching Wal.Close.
Proof.
  intros s [H1 H2]. unfold Wal.Close, bind at 1, get. destruct (Wal.closed (Wal.log s)); [split; assumption|].
  unfold bind, Wal.set_log, modify. cbn. rewrite H2. split; assumption.
Qed.
End ReadOnly.

(** ** The command *)
Section Command.
Context (IDKey : string -> list byte -> Z -> Z -> Z -> Z -> option (list byte)) (lower_rune : Z -> Z).
Context (MkdirAll : string -> bool) (sql_Open : string -> bool)
  (WalkDir : gmap EventStore.path EventStore.SegFile -> list EventStore.path).
Context (Create : string -> string -> Z -> string -> bool) (ml_Join : list string -> option string) (members : list string)
  (ml_Leave ml_Shutdown : option string).
Context `{!SliceSort Ring.hash_le} `{!MapRange (Z * float64)}.
Context (work : stores -> stores) (ended : Server.ended) (p : Cmd.plan) (Q : gmap string Wal.File -> Prop).

(** The tables and, for a role that does not ingest, the files of the log. *)
Definition held (s : stores) : Prop :=
  typed (db (fst (fst s))) /\ (Cmd.doIngest p = false -> watching Q (snd (fst s))).
Hypothesis work_holds : forall s, held s -> held (work s).

Definition kept (w : World) : Prop :=
  typed (db (meta w))
  /\ (Cmd.doIngest p = false -> Q (Wal.d_files (wal w)) /\ (DCloseWal ∈ defers w -> watching Q (wal w))).

Lemma on_meta_kept {A} (m : Tx DB A) : does (known [] []) grows any m -> keeps kept (on_meta m).
Proof.
  intros Hm w [T K]. unfold on_meta. destruct (m (meta w)) as [s r] eqn:E. split; [|exact K].
  destruct (Hm _ _ _ ltac:(split_and!; [exact T|constructor..]) E) as [G _]. apply (gr_typed _ _ G T).
Qed.
Lemma on_events_kept {A} (m : EventStore.E A) : keeps kept (on_events m).
Proof. intros w K. unfold on_events. destruct (m (events w)). exact K. Qed.
Lemma did_kept a : keeps kept (did a). Proof. intros w K. exact K. Qed.
Lemma set_parts_kept f : keeps kept (@modify World exit (fun w => set_parts (f w) w)). Proof. intros w K. exact K. Qed.
Lemma acquired_kept a d : d <> DCloseWal -> keeps kept (acquired a d).
Proof.
  intros Hd w [T K]. split; [exact T|]. intros Hi. destruct (K Hi) as [K1 K2]. split; [exact K1|]. cbn.
  intros [?|H]%elem_of_cons; [congruence|exact (K2 H)].
Qed.
Lemma must_kept {E A} (m : B (E + A)) : keeps kept m -> keeps kept (must m).
Proof. intros Hm. unfold must. auto with keeps. Qed.
#[local] Hint Resolve on_events_kept did_kept set_parts_kept must_kept : keeps.
#[local] Hint Extern 1 (keeps kept (acquired _ _)) => apply acquired_kept; discriminate : keeps.

(** ** The steps of the boot *)
#[local] Notation Opens m := (does (known [] []) grows any m).
#[local] Hint Resolve grows_refl grows_trans known_stable k_ret k_throw k_query : core.

Lemma Open_meta_kept path : keeps kept (on_meta (MetaOpen.Open sql_Open path)).
Proof. apply on_meta_kept. unfold MetaOpen.Open. destruct (sql_Open _); auto using migrate_keeps. Qed.
Lemma boot_admin_kept org i : keeps kept (on_meta (Cmd.boot_admin IDKey lower_rune org i)).
Proof.
  apply on_meta_kept. unfold Cmd.boot_admin. apply k_try; [apply k_query|]. intros [e|n]; [auto|]. destruct (negb _); [auto|].
  cbv zeta. destruct (Password.Auth.HashPassword _ _ _); [|auto]. apply k_try; [apply CreateUser_keeps|auto].
Qed.
Lemma restore_kept now l : keeps kept (on_meta (Checkpoint.restore now l)).
Proof. apply on_meta_kept. unfold Checkpoint.restore. apply k_try; [apply k_query|auto]. Qed.
#[local] Hint Resolve Open_meta_kept boot_admin_kept restore_kept : keeps.

Lemma open_meta_kept i : keeps kept (open_meta sql_Open p i).
Proof.
  unfold open_meta. apply keep_bind; [auto with keeps|]. intros _. apply keep_bind; [auto with keeps|]. intros _.
  apply must_kept, on_meta_kept, Bootstrap_keeps.
Qed.

Lemma open_wal_kept : keeps kept (open_wal p).
Proof.
  intros w [T K]. unfold open_wal, must, bind at 1 2, on_wal. destruct (Wal.Open _ (wal w)) as [s r] eqn:E.
  destruct (Cmd.doIngest p) eqn:Hi.
  { destruct r; (split; [exact T|congruence]). }
  destruct (K eq_refl) as [K1 K2]. unfold Cmd.wal_read_only in E. rewrite Hi in E.
  destruct (Open_watches Q _ _ _ K1 E) as [W1 W2]. destruct r as [e|[]]; (split; [exact T|]; intros _).
  - split; [exact W1|]. intros H. apply W2. right. exact (K2 H).
  - split; [exact W1|]. intros _. apply W2. left. reflexivity.
Qed.

Lemma open_store_kept : keeps kept (open_store WalkDir p).
Proof. unfold open_store. auto 10 with keeps. Qed.
Lemma admin_kept i proj : keeps kept (admin IDKey lower_rune p i proj).
Proof. unfold admin. auto 10 with keeps. Qed.
Lemma join_kept : keeps kept (join Create ml_Join members p).
Proof. unfold join. auto 10 with keeps. Qed.
Lemma build_kept proj m note : keeps kept (build p proj m note).
Proof. apply keep_bind; [apply (set_parts_kept (fun _ => _))|auto with keeps]. Qed.
Lemma start_kept ts : keeps kept (start ts).
Proof. induction ts; cbn [start]; auto with keeps. Qed.
Lemma restore_limiter_kept now : keeps kept (restore_limiter now).
Proof. unfold restore_limiter. auto 10 with keeps. Qed.
#[local] Hint Resolve open_meta_kept open_wal_kept open_store_kept admin_kept join_kept build_kept start_kept
  restore_limiter_kept : keeps.

Lemma prepare_kept i : keeps kept (prepare IDKey lower_rune MkdirAll sql_Open WalkDir Create ml_Join members p i).
Proof. unfold prepare. auto 20 with keeps. Qed.

(** After the preparation the log is open, so the role's work holds. *)
Lemma work_kept w : kept w -> DCloseWal ∈ defers w ->
  kept (let '(d, l, e) := work (meta w, wal w, events w) in mkWorld d l e (parts w) (trace w) (defers w)).
Proof.
  intros [T K] Hd. assert (H : held (meta w, wal w, events w)) by (split; [exact T|intros Hi; apply (K Hi), Hd]).
  apply work_holds in H as [T' K']. destruct (work _) as [[d l] e]. split; [exact T'|]. intros Hi. specialize (K' Hi).
  split; [apply K'|intros _; exact K'].
Qed.

Lemma listen_kept w : kept w -> DCloseWal ∈ defers w -> kept (fst (listen work ended p w)).
Proof.
  intros K Hd. pose proof (work_kept w K Hd) as W. unfold listen, bind, did, modify in *. cbn in *.
  destruct (work _) as [[d l] e]. destruct ended as [err|[err|]]; exact W.
Qed.

(** Deferred calls: a log that was opened is closed while it still watches. *)
Lemma undefer_kept ds : forall w, kept w -> (Cmd.doIngest p = false -> DCloseWal ∈ ds -> watching Q (wal w)) ->
  let w' := fst (undefer_all ml_Leave ml_Shutdown ds w) in
  typed (db (meta w')) /\ (Cmd.doIngest p = false -> Q (Wal.d_files (wal w'))).
Proof.
  induction ds as [|d ds IH]; intros w K Hw.
  { destruct K as [T K]. split; [exact T|]. intros Hi. exact (proj1 (K Hi)). }
  cbn [undefer_all]. unfold bind. destruct (undefer_did ml_Leave ml_Shutdown d w) as [_ [w1 E]]. rewrite E.
  enough (kept w1 /\ (Cmd.doIngest p = false -> DCloseWal ∈ ds -> watching Q (wal w1))) as [K1 W1] by exact (IH w1 K1 W1).
  assert (Hd : Cmd.doIngest p = false -> DCloseWal ∈ ds -> watching Q (wal w)) by (intros Hi Hin; apply Hw; [exact Hi|right; exact Hin]).
  destruct d; cbn in E; try (injection E as <-; split; [exact K|exact Hd]).
  unfold bind, on_wal in E. destruct (Wal.Close (wal w)) as [l r] eqn:EC. injection E as <-.
  assert (Hl : Cmd.doIngest p = false -> watching Q l).
  { intros Hi. pose proof (Close_watches Q (wal w) (Hw Hi ltac:(left))) as W. rewrite EC in W. exact W. }
  destruct K as [T K]. split; [|intros Hi _; exact (Hl Hi)]. split; [exact T|]. intros Hi. specialize (Hl Hi).
  split; [apply Hl|intros _; exact Hl].
Qed.

Theorem serve_keeps_stores i s w r :
  serve IDKey lower_rune MkdirAll sql_Open WalkDir Create ml_Join members ml_Leave ml_Shutdown work ended p i s = (w, r) ->
  typed (db (fst (fst s))) -> (Cmd.doIngest p = false -> Q (Wal.d_files (snd (fst s)))) ->
  typed (db (meta w)) /\ (Cmd.doIngest p = false -> Q (Wal.d_files (wal w))).
Proof.
  intros H T Hq. assert (K0 : kept (started s)).
  { split; [exact T|]. intros Hi. split; [exact (Hq Hi)|]. intros Hin. inversion Hin. }
  unfold serve, body, bind in H. destruct (prepare _ _ _ _ _ _ _ _ p i (started s)) as [w1 r1] eqn:E.
  assert (K1 : kept w1) by (pose proof (prepare_kept i _ K0) as K; rewrite E in K; exact K).
  assert (Hu : forall w2, kept w2 -> let w' := fst (undefer_all ml_Leave ml_Shutdown (defers w2) w2) in
    typed (db (meta w')) /\ (Cmd.doIngest p = false -> Q (Wal.d_files (wal w')))).
  { intros w2 K2. apply undefer_kept; [exact K2|]. intros Hi Hin. apply (proj2 K2 Hi), Hin. }
  destruct r1 as [e|[]]; [injection H as <- _; exact (Hu w1 K1)|].
  destruct (phased_prepare _ _ _ _ _ _ _ _ _ _ _ _ _ E) as (l1 & l2 & Hl & _ & Hd & ->). rewrite app_nil_r in Hl.
  assert (Hin : DCloseWal ∈ defers w1).
  { rewrite Hd, <- Hl. unfold preparations, deferrals. apply elem_of_app. left. apply list_elem_of_In, in_flat_map.
    exists (OpenedWal (Cmd.wal_read_only p)). split; [|left; reflexivity]. rewrite <- in_rev. right. left. reflexivity. }
  pose proof (listen_kept w1 K1 Hin) as K2. destruct (listen work ended p w1) as [w2 r2]. injection H as <- _. exact (Hu w2 K2).
Qed.

End Command.
End ServeProps.
