(* ===== verification/WalBench.v ===== *)
(** * The append benchmark of the log (bench/walbench/main.go)

    [runMode] writes records through a [bufio.Writer] to one file and syncs as
    a mode says. Every system call takes an outcome from a schedule, and every
    reading of the clock comes from a list, so the theorems hold for any disk
    and any timing. The last part compares [frame] with the records of the
    log itself. *)
From S2P Require Import Prelude GoFloat Hash Monad WalSegment Wal RateLimit.
Import Crc Segment.
#[local] Open Scope string_scope.
#[local] Open Scope list_scope.
#[local] Open Scope Z_scope.
#[local] Open Scope leser_scope.

Module WalBench.

(** ** Records *)
Definition frame (ts : Z) (typ : byte) (payload : list byte) : list byte :=
  let body := le_bytes 8 (u64 ts) ++ [typ] ++ payload in
  le_bytes 4 (u32 (4 + Z.of_nat (length body))) ++ le_bytes 4 (crc32c body) ++ body.

(** fsyncEvery: 0 never, 1 every record, N every N records. *)
Record mode := mkMode { name : string; fsyncEvery : Z; batchWindow : Z; m_fullFsync : bool }.

(** ** The file, the buffered writer, the clock *)
Record Writer := mkWriter { w_buf : list byte; w_err : bool }.
Record St := mkSt { file : Wal.File; io : list Wal.ioRes; clock : list Z; bw : Writer }.
Inductive error := ErrIO.
Notation B := (M St error).

Definition set_file (f : Wal.File) : B unit := modify (fun s => mkSt f (io s) (clock s) (bw s)).
Definition set_bw (w : Writer) : B unit := modify (fun s => mkSt (file s) (io s) (clock s) w).

Definition next_io : B Wal.ioRes := fun s =>
  match io s with
  | [] => (s, inr Wal.IoOk)
  | o :: l => (mkSt (file s) l (clock s) (bw s), inr o)
  end.

(** [time.Now]. *)
Definition time_Now : B Z := fun s =>
  match clock s with
  | [] => (s, inr 0)
  | t :: l => (mkSt (file s) (io s) l (bw s), inr t)
  end.
Definition time_Since (u : Z) : B Z := let! t := time_Now in ret (RateLimit.time_sub t u).

(** [f.Write] at the end of the file: how much was stored, and whether all. *)
Definition f_Write (bs : list byte) : B (nat * bool) :=
  let! o := next_io in
  let! s := get in
  let stored := match o with Wal.IoOk => bs | Wal.IoFail k => take k bs end in
  set_file (Wal.mkFile (Wal.f_data (file s) ++ stored) (Wal.f_synced (file s))) ;;
  ret (length stored, match o with Wal.IoOk => true | Wal.IoFail _ => false end).

Definition f_Sync : B unit :=
  let! o := next_io in
  match o with
  | Wal.IoOk => let! s := get in set_file (Wal.mkFile (Wal.f_data (file s)) (length (Wal.f_data (file s))))
  | Wal.IoFail _ => throw ErrIO
  end.

(** fullFsync, where there is no F_FULLFSYNC. *)
Definition fullFsync : B unit := f_Sync.

(** *** [bufio.Writer] of 1 MiB *)
Definition bufSize : Z := Z.shiftl 1 20.
Definition available (w : Writer) : Z := bufSize - Z.of_nat (length (w_buf w)).

Definition bw_Flush : B unit :=
  let! s := get in
  let w := bw s in
  if w_err w then throw ErrIO
  else match w_buf w with
  | [] => ret tt
  | b =>
      let! r := f_Write b in
      let '(n, ok) := r in
      if ok then set_bw (mkWriter [] false)
      else set_bw (mkWriter (drop n b) true) ;; throw ErrIO
  end.

(** The loop of Write while what is left does not fit; three turns are
    enough ([bw_Write_done]): fill and flush, write directly, copy the rest. *)
Fixpoint write_loop (fuel : nat) (p : list byte) (nn : nat) : B nat :=
  match fuel with
  | O => ret nn
  | S fuel =>
      let! s := get in
      let w := bw s in
      if (available w <? Z.of_nat (length p)) && negb (w_err w) then
        match w_buf w with
        | [] =>
            let! r := f_Write p in
            let '(n, ok) := r in
            set_bw (mkWriter [] (negb ok)) ;;
            write_loop fuel (drop n p) (nn + n)
        | b =>
            let n := Z.to_nat (available w) in
            set_bw (mkWriter (b ++ take n p) false) ;;
            (let! _ := try bw_Flush in write_loop fuel (drop n p) (nn + n))
        end
      else if w_err w then throw ErrIO
      else set_bw (mkWriter (w_buf w ++ p) false) ;; ret (nn + length p)%nat
  end.
Definition bw_Write (p : list byte) : B nat := write_loop 3 p 0.

(** ** One run *)
Section Run.
Context (m : mode).

Definition doSync : B unit := bw_Flush ;; (if m_fullFsync m then fullFsync else f_Sync).

(** What the switch does after record [i]; the value is lastBatch. *)
Definition sync_policy (i : Z) (lastBatch : Z) : B Z :=
  if 0 <? batchWindow m then
    let! d := time_Since lastBatch in
    if batchWindow m <=? d then doSync ;; time_Now else ret lastBatch
  else if fsyncEvery m =? 1 then doSync ;; ret lastBatch
  else if (1 <? fsyncEvery m) && ((i + 1) mod fsyncEvery m =? 0) then doSync ;; ret lastBatch
  else ret lastBatch.

Definition append_one (payload : list byte) (i totalBytes lastBatch : Z) : B (Z * Z) :=
  let! ts := time_Now in
  let! nn := bw_Write (frame ts x01 payload) in
  let! last := sync_policy i lastBatch in
  ret (i64 (totalBytes + Z.of_nat nn), last).

Fixpoint append_loop (k : nat) (payload : list byte) (i totalBytes lastBatch : Z) : B (Z * Z) :=
  match k with
  | O => ret (totalBytes, lastBatch)
  | S k =>
      let! r := append_one payload i totalBytes lastBatch in
      append_loop k payload (i + 1) (fst r) (snd r)
  end.

Definition bench_payload (size : nat) : list byte := map (fun i => byte_of_Z (Z.of_nat i)) (seq 0 size).

Definition bench_body (n payloadSize : nat) : B (float64 * float64) :=
  let payload := bench_payload payloadSize in
  let! start := time_Now in
  let! r := append_loop n payload 0 0 start in
  doSync ;;
  (let! d := time_Since start in
   let elapsed := RateLimit.Seconds d in
   ret (f_div (f_of_Z (Z.of_nat n)) elapsed,
        f_div (f_div (f_of_Z (fst r)) (f_of_Z (Z.shiftl 1 20))) elapsed)).

(** The deferred Close, whose error is dropped. *)
Definition closing {A} (b : B A) : B A := fun s =>
  let '(s, r) := b s in (fst (next_io s), r).

Definition runMode (n payloadSize : nat) : B (float64 * float64) :=
  let! o := next_io in
  match o with
  | Wal.IoFail _ => throw ErrIO
  | Wal.IoOk =>
      set_file (Wal.mkFile [] 0) ;; set_bw (mkWriter [] false) ;;
      closing (bench_body n payloadSize)
  end.
End Run.

(** ** main *)
Definition modes : list mode :=
  [mkMode "no-fsync (OS cache)" 0 0 false;
   mkMode "fsync_batched (2ms)" 0 (2 * Wal.millisecond) false;
   mkMode "fsync_batched (every 1k)" 1000 0 false;
   mkMode "fsync_always (fsync)" 1 0 false;
   mkMode "fsync_always (F_FULLFSYNC)" 1 0 true;
   mkMode "batched 2ms + F_FULLFSYNC" 0 (2 * Wal.millisecond) true].

Definition sample (n : nat) (m : mode) : nat := if fsyncEvery m =? 1 then Z.to_nat 3000 else n.

(** One line of the table per mode: its rates, or its error. *)
Fixpoint run_modes (n payloadSize : nat) (l : list mode) : B (list (string * (error + float64 * float64))) :=
  match l with
  | [] => ret []
  | m :: l =>
      let! r := try (runMode m (sample n m) payloadSize) in
      let! rest := run_modes n payloadSize l in
      ret ((name m, r) :: rest)
  end.

(** [None]: no temporary directory, which panics. *)
Definition main_ (mkdir : bool) : B (option (list (string * (error + float64 * float64)))) :=
  if mkdir then let! l := run_modes (Z.to_nat 200000) (Z.to_nat 512) modes in ret (Some l) else ret None.

(** ** What a run leaves: steps that end well, or with [bad] *)
Section Rules.
Variable bad : Prop.

Definition wp {A} (b : B A) (s : St) (Q : A -> St -> Prop) : Prop :=
  match b s with (s', inr a) => Q a s' | (_, inl _) => bad end.

Lemma wp_ret {A} (a : A) s (Q : A -> St -> Prop) : Q a s -> wp (ret a) s Q.
Proof. exact id. Qed.
Lemma wp_throw {A} e s (Q : A -> St -> Prop) : bad -> wp (throw e) s Q.
Proof. exact id. Qed.
Lemma wp_get s Q : Q s s -> wp get s Q.
Proof. exact id. Qed.
Lemma wp_mono {A} (b : B A) s (P Q : A -> St -> Prop) : wp b s P -> (forall a s, P a s -> Q a s) -> wp b s Q.
Proof. unfold wp. destruct (b s) as [s' [e|a]]; auto. Qed.
Lemma wp_bind {A C} (b : B A) (k : A -> B C) s Q : wp b s (fun a s => wp (k a) s Q) -> wp (bind b k) s Q.
Proof. unfold wp, bind. destruct (b s) as [s' [e|a]]; auto. Qed.
Lemma wp_try {A} (b : B A) s (Q : error + A -> St -> Prop) :
  wp b s (fun a s => Q (inr a) s) -> (bad -> forall s' e, b s = (s', inl e) -> Q (inl e) s') -> wp (try b) s Q.
Proof. unfold wp, try. destruct (b s) as [s' [e|a]]; auto. Qed.
Lemma wp_set_file f s (Q : unit -> St -> Prop) : Q tt (mkSt f (io s) (clock s) (bw s)) -> wp (set_file f) s Q.
Proof. exact id. Qed.
Lemma wp_set_bw w s (Q : unit -> St -> Prop) : Q tt (mkSt (file s) (io s) (clock s) w) -> wp (set_bw w) s Q.
Proof. exact id. Qed.

(** The bytes written so far are [acc], in the file or in the buffer; [n] of
    them are synced; whatever is left of the schedule fails only if [bad]. *)
Record at_ (acc : list byte) (n : nat) (s : St) : Prop := {
  at_sound : forall k, Wal.IoFail k ∈ io s -> bad;
  at_err : w_err (bw s) = false;
  at_data : Wal.f_data (file s) ++ w_buf (bw s) = acc;
  at_synced : Wal.f_synced (file s) = n }.

Lemma wp_time_Now acc n s : at_ acc n s -> wp time_Now s (fun _ s' => at_ acc n s' /\ bw s' = bw s).
Proof. intros []. unfold wp, time_Now. destruct (clock s); split; try split; auto. Qed.

Lemma wp_f_Write acc n s bs (Q : nat * bool -> St -> Prop) : at_ acc n s ->
  (forall s', (forall k, Wal.IoFail k ∈ io s' -> bad) -> bw s' = bw s -> Wal.f_data (file s') = Wal.f_data (file s) ++ bs ->
    Wal.f_synced (file s') = n -> Q (length bs, true) s') ->
  (bad -> forall k s', Q (k, false) s') -> wp (f_Write bs) s Q.
Proof.
  intros [] H1 H2. unfold wp, f_Write, next_io, bind. destruct (io s) as [|[|k] l] eqn:E; cbn.
  - apply H1; cbn; auto. rewrite E. auto.
  - apply H1; cbn; auto. intros k Hk. apply (at_sound0 k). right. exact Hk.
  - apply H2. apply (at_sound0 k). left.
Qed.

Lemma wp_f_Sync acc n s : at_ acc n s -> w_buf (bw s) = [] ->
  wp f_Sync s (fun _ s' => at_ acc (length acc) s' /\ w_buf (bw s') = []).
Proof.
  intros [Hs He Hd Hn] Hb. rewrite Hb, app_nil_r in Hd. unfold wp, f_Sync, next_io, bind.
  destruct (io s) as [|[|k] l] eqn:E; cbn; [split; [split|]|split; [split|]|]; cbn; rewrite ?E, ?Hd, ?Hb, ?app_nil_r; auto.
  - intros k Hk. apply (Hs k). right. exact Hk.
  - apply (Hs k). left.
Qed.

Lemma wp_bw_Flush acc n s : at_ acc n s -> wp bw_Flush s (fun _ s' => at_ acc n s' /\ w_buf (bw s') = []).
Proof.
  intros H. pose proof H as [Hs He Hd Hn]. unfold bw_Flush. apply wp_bind, wp_get. rewrite He.
  destruct (w_buf (bw s)) as [|b l] eqn:Eb; [apply wp_ret; auto|].
  apply wp_bind. eapply wp_f_Write; [exact H| |].
  - intros s' H1 H2 H3 H4. apply wp_set_bw. split; [|reflexivity].
    split; cbn; auto. rewrite app_nil_r, H3. exact Hd.
  - intros Hb k s'. apply wp_bind, wp_set_bw, wp_throw, Hb.
Qed.

Lemma wp_doSync_empty m acc n s : at_ acc n s ->
  wp (doSync m) s (fun _ s' => at_ acc (length acc) s' /\ w_buf (bw s') = []).
Proof.
  intros H. unfold doSync. apply wp_bind. eapply wp_mono; [apply wp_bw_Flush, H|]. intros _ s1 [H1 H2].
  replace (if m_fullFsync m then fullFsync else f_Sync) with f_Sync by (destruct (m_fullFsync m); reflexivity).
  eapply wp_f_Sync; eassumption.
Qed.

Lemma wp_doSync m acc n s : at_ acc n s -> wp (doSync m) s (fun _ s' => at_ acc (length acc) s').
Proof. intros H. eapply wp_mono; [apply (wp_doSync_empty m acc n s H)|]. intros ? ? [H1 _]. exact H1. Qed.

(** A buffered writer that failed stays failed. *)
Lemma bw_Flush_err s s' e : bw_Flush s = (s', inl e) -> w_err (bw s') = true.
Proof.
  unfold bw_Flush, bind, get. destruct (w_err (bw s)) eqn:E; [intros H; injection H; intros; subst; exact E|].
  destruct (w_buf (bw s)) as [|b l]; [discriminate|]. unfold f_Write, next_io, bind, get.
  destruct (io s) as [|[|k] io']; cbn; [discriminate|discriminate|]. intros H. injection H; intros; subst. reflexivity.
Qed.

(** Write from an empty buffer, then from any: the loop's fuel is enough. *)
Lemma write_loop_fits acc n s fuel p nn : at_ acc n s -> (available (bw s) <? Z.of_nat (length p)) = false ->
  wp (write_loop (S fuel) p nn) s (fun r s' => r = (nn + length p)%nat /\ at_ (acc ++ p) n s').
Proof.
  intros [Hs He Hd Hn] Hf. cbn [write_loop]. apply wp_bind, wp_get. rewrite Hf, He. cbn [andb].
  apply wp_bind, wp_set_bw, wp_ret. split; [reflexivity|]. split; cbn; auto. rewrite app_assoc, Hd. reflexivity.
Qed.

Lemma write_loop_err s fuel p nn (Q : nat -> St -> Prop) : w_err (bw s) = true -> bad -> wp (write_loop (S fuel) p nn) s Q.
Proof.
  intros He Hb. cbn [write_loop]. apply wp_bind, wp_get. rewrite He, andb_false_r. apply wp_throw, Hb.
Qed.

Lemma write_loop_direct acc n s fuel p nn : at_ acc n s -> w_buf (bw s) = [] ->
  wp (write_loop (S (S fuel)) p nn) s (fun r s' => r = (nn + length p)%nat /\ at_ (acc ++ p) n s').
Proof.
  intros H Hb. destruct (available (bw s) <? Z.of_nat (length p)) eqn:Hf; [|apply write_loop_fits; assumption].
  pose proof H as [Hs He Hd Hn]. rewrite Hb, app_nil_r in Hd.
  remember (S fuel) as f1 eqn:Ef. cbn [write_loop]. apply wp_bind, wp_get. rewrite Hf, He, Hb. cbn [andb negb].
  apply wp_bind. eapply wp_f_Write; [exact H| |].
  - intros s' H1 H2 H3 H4. apply wp_bind, wp_set_bw. rewrite drop_all, Ef. cbn [negb].
    eapply wp_mono; [apply (write_loop_fits (acc ++ p) n)|].
    { split; cbn [io bw file w_err w_buf]; auto. rewrite app_nil_r, H3, Hd. reflexivity. }
    { reflexivity. }
    cbn. intros r s2 [-> H5]. rewrite app_nil_r in H5. split; [lia|exact H5].
  - intros Hbad k s'. apply wp_bind, wp_set_bw. subst f1. apply write_loop_err; auto.
Qed.

Lemma bw_Write_done acc n s p : at_ acc n s ->
  wp (bw_Write p) s (fun r s' => r = length p /\ at_ (acc ++ p) n s').
Proof.
  intros H. unfold bw_Write. destruct (available (bw s) <? Z.of_nat (length p)) eqn:Hf; [|apply (write_loop_fits acc n s 2 p 0 H Hf)].
  destruct (w_buf (bw s)) as [|b l] eqn:Hb; [apply (write_loop_direct acc n s 1 p 0 H Hb)|].
  pose proof H as [Hs He Hd Hn]. remember 2%nat as f2 eqn:Ef. cbn [write_loop]. apply wp_bind, wp_get.
  rewrite Hb, Hf, He. cbn [andb negb]. rewrite Hb in Hd.
  set (k := Z.to_nat (available (bw s))). apply wp_bind, wp_set_bw, wp_bind, wp_try.
  - eapply wp_mono; [apply (wp_bw_Flush (acc ++ take k p) n); split; cbn [io bw file w_err w_buf]; auto; rewrite app_assoc, Hd; reflexivity|].
    intros _ s1 [H1 H2]. subst f2. eapply wp_mono; [apply (write_loop_direct _ _ _ 0 _ _ H1 H2)|].
    intros r s2 [-> H3]. split.
    + rewrite length_drop. apply Z.ltb_lt in Hf. unfold k. cbn [Nat.add]. lia.
    + rewrite <- app_assoc, take_drop in H3. exact H3.
  - intros Hbad s1 e E. subst f2. apply write_loop_err; [exact (bw_Flush_err _ _ _ E)|exact Hbad].
Qed.

(** ** Runs *)
Definition frames (payload : list byte) (ts : list Z) : list byte := concat (map (fun t => frame t x01 payload) ts).

Lemma frames_snoc payload ts t : frames payload (ts ++ [t]) = frames payload ts ++ frame t x01 payload.
Proof. unfold frames. rewrite map_app, concat_app. cbn. rewrite app_nil_r. reflexivity. Qed.

Lemma length_frame ts typ p : length (frame ts typ p) = (17 + length p)%nat.
Proof. unfold frame. rewrite !length_app, !length_le_bytes. cbn. lia. Qed.

Context (m : mode) (payload : list byte).

(** The switch syncs after record [i] whatever the clock says. *)
Definition syncs_after (i : Z) : bool :=
  (batchWindow m <=? 0) && ((fsyncEvery m =? 1) || (1 <? fsyncEvery m) && ((i + 1) mod fsyncEvery m =? 0)).

Lemma wp_sync_policy acc n s i last : at_ acc n s ->
  wp (sync_policy m i last) s (fun _ s' => exists n', at_ acc n' s'
    /\ (n' = length acc \/ n' = n /\ syncs_after i = false)).
Proof.
  intros H. unfold sync_policy, syncs_after. pose proof (wp_doSync m acc n s H) as Hsync.
  assert (Hone : forall l, wp (doSync m ;; ret (l : Z)) s (fun _ s' => exists n', at_ acc n' s' /\ n' = length acc)).
  { intros l. apply wp_bind. eapply wp_mono; [exact Hsync|]. cbn. intros ? s1 H1. exists (length acc). auto. }
  destruct (Z.ltb_spec 0 (batchWindow m)) as [Hb|Hb].
  - rewrite (proj2 (Z.leb_gt _ _)) by lia. cbn [andb]. unfold time_Since. apply wp_bind, wp_bind.
    eapply wp_mono; [apply (wp_time_Now acc n), H|]. intros d s1 [H1 _]. apply wp_ret.
    destruct (batchWindow m <=? _); [|apply wp_ret; eauto].
    apply wp_bind. eapply wp_mono; [eapply wp_doSync, H1|]. intros ? s2 H2.
    eapply wp_mono; [eapply wp_time_Now, H2|]. intros l s3 [H3 _]. eauto.
  - rewrite (proj2 (Z.leb_le _ _)) by lia. cbn [andb].
    destruct (fsyncEvery m =? 1); cbn [orb].
    + eapply wp_mono; [apply Hone|]. cbn. intros ? ? (n' & ? & ?). eauto.
    + destruct ((1 <? fsyncEvery m) && _); [|apply wp_ret; eauto].
      eapply wp_mono; [apply Hone|]. cbn. intros ? ? (n' & ? & ?). eauto.
Qed.

(** The records a run may count on after [i] of them, without the clock. *)
Definition durable (i : Z) : Z :=
  if 0 <? batchWindow m then 0
  else if fsyncEvery m =? 1 then i
  else if 1 <? fsyncEvery m then i - i mod fsyncEvery m else 0.

Lemma durable_le i : 0 <= i -> 0 <= durable i <= i.
Proof.
  intros Hi. unfold durable. destruct (0 <? _); [lia|]. destruct (_ =? 1); [lia|].
  destruct (Z.ltb_spec 1 (fsyncEvery m)) as [Hf|]; [|lia].
  pose proof (Z.mod_pos_bound i (fsyncEvery m)). pose proof (Z.mod_le i (fsyncEvery m)). lia.
Qed.

Lemma durable_next i : 0 <= i -> syncs_after i = false -> durable (i + 1) = durable i.
Proof.
  intros Hi. unfold syncs_after, durable. destruct (Z.ltb_spec 0 (batchWindow m)) as [|Hb]; [reflexivity|].
  rewrite (proj2 (Z.leb_le _ _)) by lia. destruct (fsyncEvery m =? 1); [discriminate|].
  destruct (Z.ltb_spec 1 (fsyncEvery m)) as [Hf|]; [|reflexivity]. cbn. intros E%Z.eqb_neq.
  set (f := fsyncEvery m) in *. pose proof (Z.mod_pos_bound i f). pose proof (Z.div_mod i f).
  enough ((i + 1) mod f = i mod f + 1) by lia.
  destruct (Z.eq_dec (i mod f + 1) f) as [E1|E1].
  - exfalso. apply E. replace (i + 1) with ((i / f + 1) * f) by nia. apply Z.mod_mul. lia.
  - symmetry. apply (Z.mod_unique _ _ (i / f)); lia.
Qed.

(** After the records of [ts]: they are in the file or the buffer, [n] bytes
    are synced, and these hold the durable records. *)
Definition covers (ts : list Z) (n : nat) : Prop :=
  (length (frames payload (take (Z.to_nat (durable (Z.of_nat (length ts)))) ts)) <= n <= length (frames payload ts))%nat.

Lemma frames_take_le k ts : (length (frames payload (take k ts)) <= length (frames payload ts))%nat.
Proof.
  unfold frames. rewrite <- (take_drop k ts) at 2. rewrite map_app, concat_app, length_app. lia.
Qed.

Lemma covers_nil : covers [] 0.
Proof. unfold covers. rewrite take_nil. cbn. lia. Qed.

Lemma append_one_spec ts n s tot last : at_ (frames payload ts) n s -> covers ts n ->
  wp (append_one m payload (Z.of_nat (length ts)) tot last) s (fun r s' =>
    fst r = i64 (tot + 17 + Z.of_nat (length payload))
    /\ exists t n', at_ (frames payload (ts ++ [t])) n' s' /\ covers (ts ++ [t]) n').
Proof.
  intros H Hc. unfold append_one. apply wp_bind. eapply wp_mono; [apply (wp_time_Now _ _ _ H)|]. intros t s1 [H1 _].
  apply wp_bind. eapply wp_mono; [apply (bw_Write_done _ _ _ _ H1)|]. intros nn s2 [-> H2].
  rewrite <- frames_snoc in H2. apply wp_bind. eapply wp_mono; [apply (wp_sync_policy _ _ _ _ _ H2)|].
  intros l s3 (n' & H3 & Hn'). apply wp_ret. rewrite length_frame. split; [cbn; f_equal; lia|].
  exists t, n'. split; [exact H3|]. unfold covers in *. rewrite length_app. cbn [length].
  destruct Hn' as [->|[-> Hs]]; [split; [apply frames_take_le|lia]|].
  replace (Z.of_nat (length ts + 1)) with (Z.of_nat (length ts) + 1) by lia. rewrite durable_next by (auto; lia).
  pose proof (durable_le (Z.of_nat (length ts))). rewrite take_app_le by lia.
  rewrite frames_snoc, length_app. lia.
Qed.

Lemma i64_add a b : i64 (i64 a + b) = i64 (a + b).
Proof.
  unfold i64. f_equal. replace (_ - 2 ^ 63 + b + 2 ^ 63) with ((a + 2 ^ 63) mod 2 ^ 64 + b) by lia.
  rewrite Z.add_mod_idemp_l by lia. f_equal. lia.
Qed.

Lemma append_loop_spec k : forall ts n s tot last, at_ (frames payload ts) n s -> covers ts n ->
  wp (append_loop m k payload (Z.of_nat (length ts)) (i64 tot) last) s (fun r s' =>
    exists ts' n', length ts' = (length ts + k)%nat /\ at_ (frames payload ts') n' s' /\ covers ts' n'
      /\ fst r = i64 (tot + Z.of_nat k * (17 + Z.of_nat (length payload)))).
Proof.
  induction k as [|k IH]; intros ts n s tot last H Hc; cbn [append_loop].
  - apply wp_ret. exists ts, n. split_and!; auto; cbn; f_equal; lia.
  - apply wp_bind. eapply wp_mono; [apply (append_one_spec _ _ _ _ _ H Hc)|].
    intros r s1 (Hr & t & n1 & H1 & Hc1). rewrite Hr.
    replace (i64 (i64 tot + 17 + _)) with (i64 (tot + 17 + Z.of_nat (length payload)))
      by (rewrite <- !Z.add_assoc, i64_add; reflexivity).
    replace (Z.of_nat (length ts) + 1) with (Z.of_nat (length (ts ++ [t]))) by (rewrite length_app; cbn; lia).
    eapply wp_mono; [apply (IH _ _ _ _ _ H1 Hc1)|]. intros r' s2 (ts' & n2 & Hl & H2 & Hc2 & E).
    exists ts', n2. rewrite length_app in Hl. cbn [length] in Hl. split_and!; auto; [lia|]. rewrite E. f_equal. lia.
Qed.
End Rules.

Definition io_fails (s : St) : Prop := exists k, Wal.IoFail k ∈ io s.
Definition fresh (s : St) : St := mkSt (Wal.mkFile [] 0) (io s) (clock s) (mkWriter [] false).

Lemma at_fresh s : at_ (io_fails s) [] 0 (fresh s).
Proof. split; cbn; auto. intros k Hk. exists k. exact Hk. Qed.

(** After any [k] records of a run that syncs every [N]: everything written
    is in the file or the buffer, in order, and what a crash keeps holds all
    but the last [k mod N]; only a failing call of the system ends the run. *)
Theorem crash_window m payload k start s :
  match append_loop m k payload 0 0 start (fresh s) with
  | (s', inr _) => exists ts, length ts = k
      /\ Wal.f_data (file s') ++ w_buf (bw s') = frames payload ts
      /\ (length (frames payload (take (Z.to_nat (durable m (Z.of_nat k))) ts)) <= Wal.f_synced (file s'))%nat
  | (_, inl _) => io_fails s
  end.
Proof.
  pose proof (append_loop_spec (io_fails s) m payload k [] 0 (fresh s) 0 start (at_fresh s)) as H.
  unfold wp in H. change (i64 0) with 0 in H. cbn [length Z.of_nat] in H.
  destruct (append_loop _ _ _ _ _ _ _) as [s' [e|r]]; [apply H|].
  - apply covers_nil.
  - destruct H as (ts & n & Hl & [_ _ Hd <-] & Hc & _); [apply covers_nil|].
    exists ts. cbn in Hl. rewrite <- Hl. split_and!; auto. apply Hc.
Qed.

(** What a complete run leaves. *)
Definition complete (n size : nat) (r : float64 * float64) (s : St) : Prop :=
  (exists ts, length ts = n /\
     file s = Wal.mkFile (frames (bench_payload size) ts) (length (frames (bench_payload size) ts)))
  /\ exists d, r = (f_div (f_of_Z (Z.of_nat n)) (RateLimit.Seconds d),
       f_div (f_div (f_of_Z (Z.of_nat n * (17 + Z.of_nat size))) (f_of_Z (2 ^ 20))) (RateLimit.Seconds d)).

Lemma length_bench_payload size : length (bench_payload size) = size.
Proof. unfold bench_payload. rewrite length_map, length_seq. reflexivity. Qed.

Lemma bench_body_complete m n size s : Z.of_nat n * (17 + Z.of_nat size) < 2 ^ 63 ->
  wp (io_fails s) (bench_body m n size) (fresh s) (complete n size).
Proof.
  intros Hsz. unfold bench_body. apply wp_bind. eapply wp_mono; [apply (wp_time_Now _ _ _ _ (at_fresh s))|].
  intros start s1 [H1 _]. apply wp_bind. eapply wp_mono.
  { apply (append_loop_spec _ m (bench_payload size) n [] 0 s1 0 start H1 (covers_nil _ _)). }
  intros r s2 (ts & n2 & Hl & H2 & _ & Hr). cbn [length Nat.add] in Hl. apply wp_bind.
  eapply wp_mono; [apply (wp_doSync_empty _ m _ _ _ H2)|]. intros ? s3 [H3 Hb].
  apply wp_bind. unfold time_Since. apply wp_bind. eapply wp_mono; [apply (wp_time_Now _ _ _ _ H3)|].
  intros t s4 [[_ _ Hd Hn] Hb4]. apply wp_ret, wp_ret. rewrite Hb4, Hb, app_nil_r in Hd. split.
  - exists ts. split; [exact Hl|]. destruct (file s4) as [dat syn]. cbn in *. congruence.
  - exists (RateLimit.time_sub t start). rewrite Hr, length_bench_payload, Z.add_0_l, i64_small by lia. reflexivity.
Qed.

(** A run that ends without an error has its records, one for each reading of
    the clock it made, in the file and synced; its rates are the number of
    records and of bytes over the time that passed. Only a failing call of the
    system gives an error. *)
Theorem runMode_complete m n size s : Z.of_nat n * (17 + Z.of_nat size) < 2 ^ 63 ->
  match runMode m n size s with
  | (s', inr r) => complete n size r s'
  | (_, inl _) => io_fails s
  end.
Proof.
  intros Hsz. unfold runMode, closing, next_io, bind, set_file, set_bw, modify.
  assert (Hclose : forall r s', complete n size r s' -> complete n size r (fst (next_io s'))).
  { intros r s' [H1 H2]. split; [|exact H2]. unfold next_io. destruct (io s'); exact H1. }
  destruct (io s) as [|[|k] l] eqn:E; [| |exists k; rewrite E; left].
  - pose proof (bench_body_complete m n size s Hsz) as H. unfold wp, fresh in H. cbn. rewrite E in *.
    destruct (bench_body _ _ _ _) as [s' [e|r]]; [exact H|]. apply (Hclose r s'), H.
  - pose proof (bench_body_complete m n size (mkSt (file s) l (clock s) (bw s)) Hsz) as H. unfold wp, fresh in H. cbn in H |- *.
    destruct (bench_body _ _ _ _) as [s' [e|r]]; [|apply (Hclose r s'), H].
    destruct H as [k Hk]. exists k. rewrite E. right. exact Hk.
Qed.

(** Every mode has its line, whatever happened to the others. *)
Lemma run_modes_names n size l s : exists s' r, run_modes n size l s = (s', inr r) /\ map fst r = map name l.
Proof.
  revert s. induction l as [|m l IH]; intros s; cbn [run_modes]; [exists s, []; auto|].
  unfold bind, try. destruct (runMode _ _ _ s) as [s1 r1]. destruct (IH s1) as (s2 & r2 & E & Hn).
  rewrite E. exists s2, ((name m, r1) :: r2). cbn. rewrite Hn. auto.
Qed.

(** ** [frame] and the log's own records *)

(** The benchmark's length counts the checksum, the log's does not, so the
    log reads nothing past the last record of such a file. *)
Theorem frame_is_not_a_record pre ts typ p maxRecord off : Z.of_nat (length p) + 13 < 2 ^ 32 ->
  scanRecord (pre ++ frame ts typ p) (Z.of_nat (length pre)) (Z.of_nat (length (pre ++ frame ts typ p))) maxRecord off = None.
Proof.
  intros Hp. unfold scanRecord. set (f := frame ts typ p).
  assert (Hlen : Z.of_nat (length f) = 17 + Z.of_nat (length p)) by (unfold f; rewrite length_frame; lia).
  rewrite (proj2 (Z.ltb_ge _ _)) by (unfold recHeaderLen; rewrite length_app; lia).
  unfold f, frame. set (body := le_bytes 8 (u64 ts) ++ [typ] ++ p).
  assert (Hb : Z.of_nat (length body) = 9 + Z.of_nat (length p))
    by (unfold body; rewrite !length_app, length_le_bytes; cbn; lia).
  set (hdr := le_bytes 4 (u32 (4 + Z.of_nat (length body))) ++ le_bytes 4 (crc32c body)).
  rewrite (app_assoc (le_bytes 4 _)). fold hdr.
  assert (Hh : length hdr = 8%nat) by (unfold hdr; rewrite length_app, !length_le_bytes; reflexivity).
  rewrite ReadAt_mid by (auto; rewrite Hh; reflexivity).
  assert (El : le_Z (take 4 hdr) = 13 + Z.of_nat (length p))
    by (unfold hdr; rewrite take_exact, le_Z_32, !u32_small; rewrite ?length_le_bytes, ?u32_small; auto; lia).
  rewrite El. destruct (_ || _); [reflexivity|].
  rewrite (proj2 (Z.ltb_lt _ _)); [reflexivity|]. unfold recHeaderLen. rewrite !length_app. lia.
Qed.

(** A segment whose records are frames holds no record for recovery. *)
Corollary frames_are_torn base ts typ p maxRecord : Z.of_nat (length p) + 13 < 2 ^ 32 ->
  scanSegment (segment_header base ++ frame ts typ p) maxRecord = (0, segHeaderLen).
Proof.
  intros Hp. unfold scanSegment. cbn [scan_loop].
  pose proof (frame_is_not_a_record (segment_header base) ts typ p maxRecord 0 Hp) as H.
  rewrite length_segment_header in H. change (Z.of_nat 20) with segHeaderLen in H. rewrite H. reflexivity.
Qed.

(** Three records of four bytes, synced every two: after the third, two are
    safe; at the end all are. *)
Example bench_run :
  let m := mkMode "every 2" 2 0 false in
  let s := mkSt (Wal.mkFile [] 0) [] [10; 11; 12; 13; 14] (mkWriter [] false) in
  (let '(s, _) := append_loop m 3 (bench_payload 4) 0 0 10 (fresh s) in
   (Wal.f_synced (file s), length (w_buf (bw s))) = (42%nat, 21%nat))
  /\ (let '(s, _) := runMode m 3 4 s in Wal.f_synced (file s) = 63%nat /\ length (Wal.f_data (file s)) = 63%nat).
Proof. vm_compute. auto. Qed.

End WalBench.
