(* ===== verification/LoadGen.v ===== *)
(** * The load generator (bench/loadgen/main.go)

    The senders are goroutines over shared counters, a shared list of
    latencies and a shared map of failures: [step] is one atomic action of one
    of them, so a run is any interleaving of their actions with any clock and
    any answers. [report] is what main prints of the totals and its exit
    code. *)
From S2P Require Import Prelude GoSort GoStrings GoFloat GoUtf8 GoJson GoFlag Envelope RateLimit.
From stdpp Require Import pretty.
#[local] Open Scope string_scope.
#[local] Open Scope list_scope.
#[local] Open Scope Z_scope.
#[local] Open Scope leser_scope.

Module LoadGen.

(** ** Options *)
Record options := mkOptions {
  base : string; key : string; project : string; conc : Z; dur : Z; pid : Z; maxP99 : Z; maxRSSGrowth : Z }.

Definition second : Z := 1000000000.
Definition millisecond : Z := 1000000.
Definition flags : list (string * Flag.kind) :=
  [("url", Flag.KString); ("key", Flag.KString); ("project", Flag.KString); ("conc", Flag.KInt); ("duration", Flag.KDuration);
   ("pid", Flag.KInt); ("max-p99", Flag.KDuration); ("max-rss-growth-kb", Flag.KInt)].

(** [flag.Parse]; [None] ends the program. *)
Definition parse_flags (args : list string) : option options :=
  match Flag.Parse flags args with
  | None => None
  | Some (fl, _) => Some (mkOptions
      (Flag.str_flag "url" "http://127.0.0.1:8080" fl) (Flag.str_flag "key" "" fl) (Flag.str_flag "project" "1" fl)
      (Flag.int_flag "conc" 64 fl) (Flag.int_flag "duration" (20 * second) fl) (Flag.int_flag "pid" 0 fl)
      (Flag.int_flag "max-p99" (250 * millisecond) fl) (Flag.int_flag "max-rss-growth-kb" (150 * 1024) fl))
  end.

Definition endpoint (o : options) : string := base o +:+ "/api/" +:+ project o +:+ "/envelope/?sentry_key=" +:+ key o.

(** ** rssKB *)

(** [strconv.ParseInt(s, 10, 64)] with its error dropped: 0 for a syntax
    error, the nearest value for one out of range, which is noticed before
    what follows is looked at. *)
Inductive uint := UOk (v : Z) | USyntax | URange.
Fixpoint uint_digits (s : string) (n : Z) : uint :=
  match s with
  | "" => UOk n
  | String c s =>
      match digit_val c with
      | None => USyntax
      | Some d => if 2 ^ 64 <=? 10 * n + d then URange else uint_digits s (10 * n + d)
      end
  end.
Definition ParseInt_value (s : string) : Z :=
  let signed (neg : bool) (t : string) :=
    match t with
    | "" => 0
    | _ =>
        match uint_digits t 0 with
        | USyntax => 0
        | URange => if neg then - 2 ^ 63 else 2 ^ 63 - 1
        | UOk v => if neg then Z.max (- 2 ^ 63) (- v) else Z.min (2 ^ 63 - 1) v
        end
    end in
  match s with
  | String c t =>
      if bool_decide (c = "-"%char) then signed true t
      else if bool_decide (c = "+"%char) then signed false t else signed false s
  | "" => 0
  end.

(** The output of ps, or [None] if it fails. *)
Definition rssKB (out : option string) : Z :=
  match out with None => -1 | Some s => ParseInt_value (TrimSpace s) end.

(** ** The request *)
Definition q (s : string) : string := Json.quoted s.
Definition nl : string := String (chr 10) "".

(** ["l%031d"]: the sign counts for the width. *)
Definition event_id (n : Z) : string := "l" +:+ (if n <? 0 then "-" +:+ fixed_dec 30 (- n) else fixed_dec 31 n).
Definition event (n r : Z) : string :=
  "{" +:+ q "event_id" +:+ ":" +:+ q (event_id n) +:+ "," +:+ q "message" +:+ ":" +:+ q "load" +:+ "," +:+ q "exception" +:+ ":{"
  +:+ q "values" +:+ ":[{" +:+ q "type" +:+ ":" +:+ q "LoadErr" +:+ "," +:+ q "value" +:+ ":" +:+ q ("v" +:+ pretty r) +:+ "}]}}".
Definition body (n r : Z) : string :=
  "{" +:+ q "event_id" +:+ ":" +:+ q (event_id n) +:+ "}" +:+ nl
  +:+ "{" +:+ q "type" +:+ ":" +:+ q "event" +:+ "," +:+ q "length" +:+ ":" +:+ pretty (strlen (event n r)) +:+ "}" +:+ nl
  +:+ event n r +:+ nl.

Inductive answer := Transport (err : string) | Status (code : Z).

(** ["%.80s"]: at most 80 runes. *)
Definition first_runes (k : nat) (s : string) : string := unrunes (take k (runes s)).

(** ** The senders *)

(** Where a sender stands: before the deadline's check, before it takes a
    number, while it posts request [n], and on the way to each counter. *)
Inductive sender :=
  | Looping | Numbering | Posting (n t0 : Z)
  | Accepting (lat : Z) | Timing (lat : Z) | Shedding
  | Failing (kind : string) (transport : bool) | Noting (kind : string) (transport : bool)
  | Done.

Record Sys := mkSys {
  accepted : Z; shed : Z; failed : Z; lats : list Z; failKinds : gmap string Z; seq : Z;
  senders : list sender;
  posted : list string (* every body posted, in order *) }.

Inductive action :=
  | AClock (now : Z)             (* the deadline's check *)
  | APost (r t0 : Z)             (* a number, a body with [rand.Intn(50)] = r, the clock *)
  | AAnswer (a : answer) (t1 : Z)
  | AGo.                         (* the next counter *)

Section Run.
Context (deadline : Z).

(** What a sender does next and what it changes. *)
Definition on_answer (a : answer) (t0 t1 : Z) : sender :=
  let lat := RateLimit.time_sub t1 t0 in
  match a with
  | Transport err => Failing ("transport: " +:+ first_runes 80 err) true
  | Status code =>
      if code =? 200 then Accepting lat
      else if code =? 429 then Shedding
      else Failing ("http " +:+ pretty code) false
  end.

(** [failKinds[k]++]. *)
Definition bump (k : string) (m : gmap string Z) : gmap string Z := <[k := i64 (default 0 (m !! k) + 1)]> m.

Definition set_sender (w : nat) (p : sender) (s : Sys) : Sys :=
  mkSys (accepted s) (shed s) (failed s) (lats s) (failKinds s) (seq s) (<[w := p]> (senders s)) (posted s).

Definition act (p : sender) (a : action) (s : Sys) : option (Sys * sender) :=
  match p, a with
  | Looping, AClock now => Some (s, if now <? deadline then Numbering else Done)
  | Numbering, APost r t0 =>
      if (0 <=? r) && (r <? 50) then
        let n := i64 (seq s + 1) in
        Some (mkSys (accepted s) (shed s) (failed s) (lats s) (failKinds s) n (senders s) (posted s ++ [body n r]), Posting n t0)
      else None
  | Posting n t0, AAnswer ans t1 => Some (s, on_answer ans t0 t1)
  | Accepting lat, AGo =>
      Some (mkSys (i64 (accepted s + 1)) (shed s) (failed s) (lats s) (failKinds s) (seq s) (senders s) (posted s), Timing lat)
  | Timing lat, AGo =>
      Some (mkSys (accepted s) (shed s) (failed s) (lats s ++ [lat]) (failKinds s) (seq s) (senders s) (posted s), Looping)
  | Shedding, AGo =>
      Some (mkSys (accepted s) (i64 (shed s + 1)) (failed s) (lats s) (failKinds s) (seq s) (senders s) (posted s), Looping)
  | Failing k t, AGo =>
      Some (mkSys (accepted s) (shed s) (i64 (failed s + 1)) (lats s) (failKinds s) (seq s) (senders s) (posted s), Noting k t)
  | Noting k t, AGo =>
      let m := if t && negb (Z.of_nat (size (failKinds s)) <? 5) then failKinds s else bump k (failKinds s) in
      Some (mkSys (accepted s) (shed s) (failed s) (lats s) m (seq s) (senders s) (posted s), Looping)
  | _, _ => None
  end.

Definition step (w : nat) (a : action) (s : Sys) : option Sys :=
  match senders s !! w with
  | None => None
  | Some p => match act p a s with Some (s', p') => Some (set_sender w p' s') | None => None end
  end.

Fixpoint steps (l : list (nat * action)) (s : Sys) : option Sys :=
  match l with
  | [] => Some s
  | (w, a) :: l => match step w a s with Some s' => steps l s' | None => None end
  end.
End Run.

Definition start (o : options) : Sys := mkSys 0 0 0 [] ∅ 0 (replicate (Z.to_nat (conc o)) Looping) [].

(** wg.Wait returns. *)
Definition all_done (s : Sys) : Prop := Forall (eq Done) (senders s).

(** ** The report *)
Section Report.
Context `{!SliceSort (Z.le)}.

Definition f_p (p : Z) : float64 := f_div (f_of_Z p) (f_of_Z 100).
Definition pct_index (len p : Z) : option Z := f_trunc (- 2 ^ 63) (2 ^ 63) (f_mul (f_of_Z (len - 1)) (f_p p)).

(** [pct(p/100)]; [None] is an index out of range. *)
Definition pct (sorted : list Z) (p : Z) : option Z :=
  match sorted with
  | [] => Some 0
  | _ =>
      match pct_index (Z.of_nat (length sorted)) p with
      | Some i => if i <? 0 then None else sorted !! Z.to_nat i
      | None => None
      end
  end.

Inductive line :=
  | Totals (accepted shed failed : Z) | FailKind (k : string) (v : Z) | Latencies (p50 p95 p99 : Z)
  | ServerRSS (start end_ growth : Z)
  | GateFailures | GateP99 (p99 max : Z) | GateRSS (growth max : Z) | GateNothing | Pass.

(** The gates that fail; [%]: more than one failure for a hundred accepted. *)
Definition gates (o : options) (startRSS endRSS p99 : Z) (s : Sys) : list line :=
  let growth := i64 (endRSS - startRSS) in
  (if Z.quot (accepted s) 100 <? failed s then [GateFailures] else [])
  ++ (if maxP99 o <? p99 then [GateP99 p99 (maxP99 o)] else [])
  ++ (if (0 <? startRSS) && (maxRSSGrowth o <? growth) then [GateRSS growth (maxRSSGrowth o)] else [])
  ++ (if accepted s =? 0 then [GateNothing] else []).

Context `{!MapRange (string * Z)}.

(** The lines printed and the exit code; [None] is a panic. *)
Definition report (o : options) (startRSS endRSS : Z) (s : Sys) : option (list line * Z) :=
  let sorted := sort_slice Z.le (lats s) in
  match pct sorted 50, pct sorted 95, pct sorted 99 with
  | Some p50, Some p95, Some p99 =>
      let growth := i64 (endRSS - startRSS) in
      let head :=
        Totals (accepted s) (shed s) (failed s)
        :: map (fun x => FailKind (fst x) (snd x)) (range_keys (map_to_list (failKinds s)))
        ++ [Latencies p50 p95 p99]
        ++ (if (0 <? startRSS) && (0 <? endRSS) then [ServerRSS startRSS endRSS growth] else []) in
      Some (match gates o startRSS endRSS p99 s with [] => (head ++ [Pass], 0) | bad => (head ++ bad, 1) end)
  | _, _, _ => None
  end.
End Report.

(** ** Examples *)

(** A request is an envelope of one event item, whose event carries the id. *)
Example body_parses :
  match Envelope.Parse (list_byte_of_string (body 7 31)) (Envelope.defaults (Envelope.mkLimits 0 0 0)) with
  | inr e => Envelope.h_EventID (Envelope.e_Header e) = event_id 7
      /\ map (fun i => (Envelope.ih_Type (Envelope.it_Header i), string_of_list_byte (Envelope.it_Payload i))) (Envelope.e_Items e)
         = [("event", event 7 31)]
  | inl _ => False
  end.
Proof. vm_compute. auto. Qed.

(** ** Every request is counted once *)
Fixpoint weight (f : sender -> Z) (l : list sender) : Z :=
  match l with [] => 0 | p :: l => f p + weight f l end.
Definition in_flight (p : sender) : Z :=
  match p with Posting _ _ | Accepting _ | Shedding | Failing _ _ => 1 | _ => 0 end.
Definition timing (p : sender) : Z := match p with Timing _ => 1 | _ => 0 end.
Definition noting (p : sender) : Z := match p with Noting _ _ => 1 | _ => 0 end.
Definition total (m : gmap string Z) : Z := foldr (fun x n => snd x + n) 0 (map_to_list m).

Lemma weight_insert f l w p p' : l !! w = Some p -> weight f (<[w := p']> l) = weight f l - f p + f p'.
Proof.
  revert w. induction l as [|x l IH]; intros [|w] E; try discriminate.
  - injection E as ->. change (f p' + weight f l = f p + weight f l - f p + f p'). lia.
  - change (f x + weight f (<[w := p']> l) = f x + weight f l - f p + f p'). rewrite (IH w E). lia.
Qed.

Lemma weight_nonneg f l : (forall p, 0 <= f p) -> 0 <= weight f l.
Proof. intros H. induction l as [|x l IH]; cbn; [lia|]. specialize (H x). lia. Qed.

Lemma weight_lookup f l w p : (forall p, 0 <= f p) -> l !! w = Some p -> f p <= weight f l.
Proof.
  intros Hf. revert w. induction l as [|x l IH]; intros [|w] E; try discriminate; change (weight f (x :: l)) with (f x + weight f l).
  - injection E as ->. pose proof (weight_nonneg f l Hf). lia.
  - pose proof (IH w E). specialize (Hf x). lia.
Qed.

Lemma weight_done f l : f Done = 0 -> Forall (eq Done) l -> weight f l = 0.
Proof. intros H. induction 1 as [|x l <- _ IH]; cbn; lia. Qed.

Lemma total_perm (l l' : list (string * Z)) : l ≡ₚ l' ->
  foldr (fun x n => snd x + n) 0 l = foldr (fun x n => snd x + n) 0 l'.
Proof. induction 1; cbn; lia. Qed.

Lemma total_insert m k v : m !! k = None -> total (<[k := v]> m) = v + total m.
Proof. intros E. unfold total. rewrite (total_perm _ _ (map_to_list_insert m k v E)). reflexivity. Qed.

Lemma total_lookup m k v : m !! k = Some v -> total m = v + total (delete k m).
Proof. intros E. rewrite <- (insert_delete_id m k v E) at 1. apply total_insert, lookup_delete_eq. Qed.

Lemma total_kinds_nonneg m : map_Forall (fun _ v => 0 <= v) m -> 0 <= total m.
Proof.
  intros H. unfold total. assert (Hl : Forall (fun x => 0 <= snd x) (map_to_list m)).
  { apply Forall_forall. intros [k v] Hx%elem_of_map_to_list. exact (H k v Hx). }
  induction Hl; cbn; lia.
Qed.

Lemma total_bump m k : map_Forall (fun _ v => 0 <= v) m -> total m < 2 ^ 63 - 1 ->
  total (bump k m) = total m + 1 /\ map_Forall (fun _ v => 0 <= v) (bump k m).
Proof.
  intros H Hb. unfold bump. assert (Hv : 0 <= default 0 (m !! k) <= total m).
  { destruct (m !! k) as [v|] eqn:E; cbn; [|pose proof (total_kinds_nonneg m H); lia].
    rewrite (total_lookup m k v E). pose proof (H k v E : 0 <= v).
    pose proof (total_kinds_nonneg (delete k m) (map_Forall_delete _ _ _ H)). lia. }
  rewrite i64_small by lia. split.
  - rewrite <- insert_delete_eq, total_insert by apply lookup_delete_eq.
    destruct (m !! k) as [v|] eqn:E; cbn; [rewrite (total_lookup m k v E); lia|].
    rewrite delete_id by exact E. lia.
  - apply map_Forall_insert_2; [lia|exact H].
Qed.

Record counted (s : Sys) : Prop := {
  c_seq : seq s = Z.of_nat (length (posted s));
  c_sum : seq s = accepted s + shed s + failed s + weight in_flight (senders s);
  c_lats : accepted s = Z.of_nat (length (lats s)) + weight timing (senders s);
  c_pos : 0 <= accepted s /\ 0 <= shed s /\ 0 <= failed s;
  c_kinds : map_Forall (fun _ v => 0 <= v) (failKinds s) /\ total (failKinds s) + weight noting (senders s) <= failed s;
  c_bodies : forall i b, posted s !! i = Some b -> exists r, 0 <= r < 50 /\ b = body (Z.of_nat i + 1) r }.

Lemma counted_start o : counted (start o).
Proof.
  assert (H : forall f, f Looping = 0 -> weight f (replicate (Z.to_nat (conc o)) Looping) = 0)
    by (intros f Hf; induction (Z.to_nat (conc o)); cbn; lia).
  split; cbn; rewrite ?H by reflexivity; auto; try lia.
  - split; [apply map_Forall_empty|]. unfold total. rewrite map_to_list_empty. cbn. lia.
  - intros i b. rewrite lookup_nil. discriminate.
Qed.

Lemma step_posted deadline w a s s' : step deadline w a s = Some s' -> (length (posted s) <= length (posted s'))%nat.
Proof.
  unfold step. destruct (senders s !! w) as [p|]; [|discriminate].
  destruct p, a; cbn; try discriminate; try (intros [= <-]; cbn; lia).
  destruct (_ && _); [|discriminate]. intros [= <-]. cbn. rewrite length_app. lia.
Qed.

(** Where a step leaves one sender. *)
Lemma weights w p p' s : senders s !! w = Some p ->
  (forall f, weight f (<[w := p']> (senders s)) = weight f (senders s) - f p + f p').
Proof. intros E f. apply weight_insert, E. Qed.

(** The counters after a step that changes them by given amounts: one lemma
    for all the actions. *)
Lemma counted_move w p p' s s1 : counted s -> senders s !! w = Some p -> senders s1 = senders s ->
  seq s1 = Z.of_nat (length (posted s1)) ->
  seq s1 - (accepted s1 + shed s1 + failed s1) - in_flight p' = seq s - (accepted s + shed s + failed s) - in_flight p ->
  accepted s1 - Z.of_nat (length (lats s1)) - timing p' = accepted s - Z.of_nat (length (lats s)) - timing p ->
  0 <= accepted s1 /\ 0 <= shed s1 /\ 0 <= failed s1 ->
  map_Forall (fun _ v => 0 <= v) (failKinds s1) ->
  total (failKinds s1) + noting p' - failed s1 <= total (failKinds s) + noting p - failed s ->
  (forall i b, posted s1 !! i = Some b -> exists r, 0 <= r < 50 /\ b = body (Z.of_nat i + 1) r) ->
  counted (set_sender w p' s1).
Proof.
  intros [H1 H2 H3 H4 [H5 H6] H7] Ew Es G1 G2 G3 G4 G5 G6 G7.
  pose proof (fun f => weight_insert f _ _ _ p' Ew) as Hw.
  split; cbn [set_sender accepted shed failed lats failKinds seq senders posted]; rewrite ?Es, ?Hw; auto; try lia.
  split; [exact G5|lia].
Qed.

(** What bounds the counters. *)
Lemma counted_bounds w p s : counted s -> senders s !! w = Some p ->
  0 <= accepted s /\ 0 <= shed s /\ 0 <= failed s
  /\ accepted s + shed s + failed s + in_flight p <= Z.of_nat (length (posted s))
  /\ total (failKinds s) + noting p <= failed s.
Proof.
  intros [H1 H2 H3 H4 [H5 H6] H7] Ew.
  assert (in_flight p <= weight in_flight (senders s)) by (eapply weight_lookup; [intros []; cbn; lia|exact Ew]).
  assert (noting p <= weight noting (senders s)) by (eapply weight_lookup; [intros []; cbn; lia|exact Ew]).
  lia.
Qed.

Lemma on_answer_weights a t0 t1 : in_flight (on_answer a t0 t1) = 1
  /\ timing (on_answer a t0 t1) = 0 /\ noting (on_answer a t0 t1) = 0.
Proof. unfold on_answer. destruct a as [e|c]; [|destruct (c =? 200); [|destruct (c =? 429)]]; auto. Qed.

Lemma step_counted deadline w a s s' : counted s -> step deadline w a s = Some s' ->
  Z.of_nat (length (posted s')) < 2 ^ 63 -> counted s'.
Proof.
  intros C E Hb. pose proof (step_posted _ _ _ _ _ E) as Hm. unfold step in E.
  destruct (senders s !! w) as [p|] eqn:Ew; [|discriminate].
  pose proof (counted_bounds w p s C Ew) as Hp. pose proof C as [H1 H2 H3 H4 [H5 H6] H7].
  destruct p, a; cbn [act] in E; try discriminate E.
  - injection E as <-. destruct (now <? deadline); eapply counted_move; eauto; cbn; lia.
  - destruct ((0 <=? r) && (r <? 50)) eqn:Er; [|discriminate E]. injection E as <-.
    apply andb_true_iff in Er as [Er1%Z.leb_le Er2%Z.ltb_lt]. cbn in Hb, Hm. rewrite length_app in Hb. cbn in Hb.
    eapply counted_move; eauto; cbn; rewrite ?i64_small, ?length_app by lia; cbn; try lia.
    intros i b Hi. apply lookup_app_Some in Hi as [Hi|[Hi Hx]]; [eauto|].
    apply list_lookup_singleton_Some in Hx as [Hx <-]. exists r. split; [lia|]. f_equal. lia.
  - injection E as <-. destruct (on_answer_weights a t0 t1) as (W1 & W2 & W3).
    eapply counted_move; eauto; cbn; lia.
  - injection E as <-. cbn in Hb, Hp. eapply counted_move; eauto; cbn; rewrite ?i64_small by lia; lia.
  - injection E as <-. eapply counted_move; eauto; cbn; rewrite ?length_app; cbn; lia.
  - injection E as <-. cbn in Hb, Hp. eapply counted_move; eauto; cbn; rewrite ?i64_small by lia; lia.
  - injection E as <-. cbn in Hb, Hp. eapply counted_move; eauto; cbn; rewrite ?i64_small by lia; lia.
  - injection E as <-. cbn in Hb, Hp. destruct (_ && _); [eapply counted_move; eauto; cbn; lia|].
    destruct (total_bump (failKinds s) kind H5) as [T1 T2]; [lia|].
    eapply counted_move; eauto; cbn; lia.
Qed.

Lemma steps_counted deadline l : forall s s', counted s -> steps deadline l s = Some s' ->
  Z.of_nat (length (posted s')) < 2 ^ 63 -> counted s'.
Proof.
  assert (Hmono : forall l s s', steps deadline l s = Some s' -> (length (posted s) <= length (posted s'))%nat).
  { clear. induction l as [|[w a] l IH]; cbn; intros s s' E; [injection E as <-; lia|].
    destruct (step deadline w a s) as [s1|] eqn:E1; [|discriminate]. apply step_posted in E1. apply IH in E. lia. }
  induction l as [|[w a] l IH]; cbn; intros s s' C E Hb; [injection E as <-; exact C|].
  destruct (step deadline w a s) as [s1|] eqn:E1; [|discriminate].
  apply (IH s1 s'); auto. eapply step_counted; eauto. apply Hmono in E. lia.
Qed.

Lemma event_id_inj n n' : 0 <= n < 2 ^ 63 -> 0 <= n' < 2 ^ 63 -> event_id n = event_id n' -> n = n'.
Proof.
  intros H H'. unfold event_id. rewrite (proj2 (Z.ltb_ge n 0)), (proj2 (Z.ltb_ge n' 0)) by lia.
  pose proof (parse_fixed_dec 31 n 0) as P. pose proof (parse_fixed_dec 31 n' 0) as P'.
  rewrite Z.mod_small in P, P' by lia. revert P P'. generalize (fixed_dec 31 n) (fixed_dec 31 n'). intros x x' P P' E.
  assert (Ex : x = x') by exact (f_equal (fun s => match s with String _ t => t | "" => "" end) E). subst x'.
  rewrite P in P'. injection P' as P'. lia.
Qed.

(** Whatever the interleaving, the clock and the answers: once every sender is
    done, each request posted was counted in exactly one of the three
    counters, there is a latency for each accepted one, the failures by kind
    are no more than the failures, and the requests carried the numbers from
    1 up, so no two had the same event id. *)
Theorem requests_counted_once o deadline l s : steps deadline l (start o) = Some s -> all_done s ->
  Z.of_nat (length (posted s)) < 2 ^ 63 ->
  Z.of_nat (length (posted s)) = accepted s + shed s + failed s
  /\ accepted s = Z.of_nat (length (lats s))
  /\ total (failKinds s) <= failed s
  /\ (forall i b, posted s !! i = Some b -> exists r, 0 <= r < 50 /\ b = body (Z.of_nat i + 1) r)
  /\ NoDup (map event_id (seqZ 1 (Z.of_nat (length (posted s))))).
Proof.
  intros E Hd Hb. destruct (steps_counted _ _ _ _ (counted_start o) E Hb) as [H1 H2 H3 H4 [H5 H6] H7].
  rewrite !weight_done in * by (auto; reflexivity). split_and!; [lia|lia|lia|exact H7|].
  apply NoDup_fmap_2_strong; [|apply NoDup_seqZ]. intros i j Hi%elem_of_seqZ Hj%elem_of_seqZ Ee.
  apply event_id_inj in Ee; lia.
Qed.

(** Two senders whose steps interleave, one accepted and one shed. *)
Lemma requests_counted_once_witness :
  let o := mkOptions "u" "k" "1" 2 10 0 250 1000 in
  let l := [(0%nat, AClock 1); (1%nat, AClock 2); (1%nat, APost 3 2); (0%nat, APost 4 3); (0%nat, AAnswer (Status 200) 7);
            (1%nat, AAnswer (Status 429) 8); (0%nat, AGo); (1%nat, AGo); (1%nat, AClock 11); (0%nat, AGo); (0%nat, AClock 12)] in
  exists s, steps 10 l (start o) = Some s /\ lats s = [4]
    /\ Z.of_nat (length (posted s)) = accepted s + shed s + failed s.
Proof.
  intros o l. destruct (steps 10 l (start o)) as [s|] eqn:E; [|vm_compute in E; discriminate E].
  exists s. assert (Hd : all_done s) by (vm_compute in E; injection E as <-; repeat constructor).
  assert (Hb : Z.of_nat (length (posted s)) < 2 ^ 63) by (vm_compute in E; injection E as <-; reflexivity).
  split; [reflexivity|]. split; [vm_compute in E; injection E as <-; reflexivity|].
  exact (proj1 (requests_counted_once o 10 l s E Hd Hb)).
Defined.

(** ** The gates *)
Section Gates.
Context `{!SliceSort Z.le, !MapRange (string * Z)}.

Definition within (o : options) (startRSS endRSS p99 : Z) (s : Sys) : Prop :=
  100 * failed s <= accepted s /\ p99 <= maxP99 o
  /\ (0 < startRSS -> i64 (endRSS - startRSS) <= maxRSSGrowth o) /\ accepted s <> 0.

Lemma gates_nil o startRSS endRSS p99 s : 0 <= accepted s ->
  gates o startRSS endRSS p99 s = [] <-> within o startRSS endRSS p99 s.
Proof.
  intros Ha. unfold gates, within. rewrite !app_nil, Z.quot_div_nonneg by lia.
  pose proof (Z.div_mod (accepted s) 100) as Hq. pose proof (Z.mod_pos_bound (accepted s) 100) as Hr.
  destruct (Z.ltb_spec (accepted s / 100) (failed s)), (Z.ltb_spec (maxP99 o) p99), (Z.ltb_spec 0 startRSS),
    (Z.ltb_spec (maxRSSGrowth o) (i64 (endRSS - startRSS))), (Z.eqb_spec (accepted s) 0); cbn [andb];
    split; intros (G1 & G2 & G3 & G4); try discriminate; split_and!; try reflexivity; try lia.
Qed.

Lemma gates_no_pass o startRSS endRSS p99 s : Pass ∉ gates o startRSS endRSS p99 s.
Proof. unfold gates. repeat case_match; set_solver. Qed.

(** The program exits with 0, and prints that it passed, exactly when: at most
    one failure for a hundred accepted requests, the 99th percentile of the
    accepted ones within its bound, the growth of the server's memory within
    its bound if it was sampled at the start, and something accepted. *)
Theorem passes_iff_gates o startRSS endRSS s ls code p99 :
  report o startRSS endRSS s = Some (ls, code) -> pct (sort_slice Z.le (lats s)) 99 = Some p99 -> 0 <= accepted s ->
  (code = 0 <-> within o startRSS endRSS p99 s) /\ (Pass ∈ ls <-> within o startRSS endRSS p99 s) /\ (code = 0 \/ code = 1).
Proof.
  intros E Ep Ha. unfold report in E. rewrite Ep in E.
  destruct (pct _ 50) as [p50|]; [|discriminate]. destruct (pct _ 95) as [p95|]; [|discriminate].
  set (head := Totals _ _ _ :: _) in E.
  assert (Hh : Pass ∉ head).
  { unfold head. rewrite not_elem_of_cons, !not_elem_of_app. split_and!; [discriminate| |set_solver|].
    - intros ([? ?] & ? & _)%list_elem_of_fmap. discriminate.
    - destruct (_ && _); set_solver. }
  clearbody head. pose proof (gates_no_pass o startRSS endRSS p99 s) as Hp. rewrite <- (gates_nil o startRSS endRSS p99 s Ha).
  destruct (gates o startRSS endRSS p99 s) as [|g gs]; injection E as <- <-; rewrite elem_of_app.
  - split_and!; [tauto|set_solver|auto].
  - split_and!; [split; discriminate|split; [tauto|discriminate]|auto].
Qed.

(** A server whose memory was not sampled, the default, passes the memory
    gate whatever it does. *)
Corollary unsampled_memory_passes o endRSS endRSS' p99 s :
  gates o (rssKB None) endRSS p99 s = gates o (rssKB None) endRSS' p99 s.
Proof. reflexivity. Qed.
End Gates.

(** ** The percentiles *)

(** The indices are those of exact arithmetic, and in range. *)
Definition index_ok (p len : Z) : bool :=
  match pct_index len p with Some i => (i =? p * (len - 1) / 100) && (0 <=? i) && (i <? len) | None => false end.
Lemma pct_indices : forallb (fun p => forallb (index_ok p) (seqZ 1 3000)) [50; 95; 99] = true.
Proof. vm_compute. reflexivity. Qed.

Lemma pct_index_exact p len : p ∈ [50; 95; 99] -> 1 <= len <= 3000 ->
  pct_index len p = Some (p * (len - 1) / 100) /\ 0 <= p * (len - 1) / 100 < len.
Proof.
  intros Hp Hl. pose proof pct_indices as H. rewrite forallb_forall in H. apply list_elem_of_In, H in Hp.
  rewrite forallb_forall in Hp. assert (Hin : In len (seqZ 1 3000)) by (apply list_elem_of_In, elem_of_seqZ; lia).
  apply Hp in Hin. unfold index_ok in Hin. destruct (pct_index len p) as [i|]; [|discriminate].
  rewrite !andb_true_iff, Z.eqb_eq, Z.leb_le, Z.ltb_lt in Hin. destruct Hin as [[-> H1] H2]. auto.
Qed.

(** In a sorted list, whatever stands at [i] has [i + 1] values up to it. *)
Lemma sorted_count (l : list Z) i x y : StronglySorted Z.le l -> l !! i = Some x -> x <= y ->
  (S i <= length (List.filter (fun z => (z <=? y)%Z) l))%nat.
Proof.
  intros Hs. revert i. induction Hs as [|z l Hs IH Hz]; intros [|i] E Hy; cbn in E; try discriminate.
  - injection E as ->. cbn. rewrite (proj2 (Z.leb_le _ _)) by lia. cbn. lia.
  - rewrite Forall_forall in Hz. pose proof (Hz x (list_elem_of_lookup_2 _ _ _ E)).
    specialize (IH i E Hy). cbn. rewrite (proj2 (Z.leb_le _ _)) by lia. cbn. lia.
Qed.

Lemma filter_length_perm (f : Z -> bool) l l' : l ≡ₚ l' -> length (List.filter f l) = length (List.filter f l').
Proof. induction 1; cbn; repeat case_match; cbn; lia. Qed.

(** What the percentile gate means: a run that passes has its report, and of
    its accepted requests all but one in a hundred were within the bound. *)
Theorem p99_gate_bounds_latencies `{!SliceSort Z.le} o startRSS endRSS s p99 :
  let n := Z.of_nat (length (lats s)) in
  1 <= n <= 3000 -> pct (sort_slice Z.le (lats s)) 99 = Some p99 -> within o startRSS endRSS p99 s ->
  99 * (n - 1) / 100 + 1 <= Z.of_nat (length (List.filter (fun z => z <=? maxP99 o) (lats s))).
Proof.
  intros n Hn Ep (_ & Hm & _). pose proof (sort_slice_perm (le := Z.le) (lats s)) as P.
  rewrite <- (filter_length_perm _ _ _ P). pose proof (sort_slice_sorted (le := Z.le) (lats s)) as S.
  apply Permutation_length in P. set (l := sort_slice Z.le (lats s)) in *.
  destruct (pct_index_exact 99 n) as [Ei Hi]; [set_solver|exact Hn|].
  unfold pct in Ep. destruct l as [|x l'] eqn:El; [cbn in P; unfold n in Hn; lia|]. rewrite <- El in *.
  rewrite P in Ep. fold n in Ep. rewrite Ei, (proj2 (Z.ltb_ge _ _)) in Ep by lia.
  pose proof (sorted_count _ _ _ _ S Ep Hm). lia.
Qed.

(** Up to three thousand latencies no percentile is out of range, so the
    report is printed. *)
Lemma report_total `{!SliceSort Z.le, !MapRange (string * Z)} o startRSS endRSS s : (length (lats s) <= 3000)%nat ->
  exists r, report o startRSS endRSS s = Some r.
Proof.
  intros Hn. pose proof (Permutation_length (sort_slice_perm (le := Z.le) (lats s))) as P.
  assert (H : forall p, p ∈ [50; 95; 99] -> exists x, pct (sort_slice Z.le (lats s)) p = Some x).
  { intros p Hp. unfold pct. destruct (sort_slice Z.le (lats s)) as [|x l] eqn:E; [eauto|]. rewrite <- E in *.
    destruct (pct_index_exact p (Z.of_nat (length (sort_slice Z.le (lats s))))) as [-> Hi]; [exact Hp|rewrite P, E in *; cbn in *; lia|].
    rewrite (proj2 (Z.ltb_ge _ _)) by lia. apply lookup_lt_is_Some_2. lia. }
  unfold report. destruct (H 50) as [x ->]; [set_solver|]. destruct (H 95) as [y ->]; [set_solver|].
  destruct (H 99) as [z ->]; [set_solver|]. eauto.
Qed.

(** The report of a run with a hundred latencies: the index is 98. *)
Example report_example : let o := mkOptions "u" "k" "1" 1 10 0 98 1000 in
  report o (rssKB (Some " 2048")) 2100 (mkSys 100 3 1 (rev (seqZ 0 100)) (<["http 500" := 1]> ∅) 104 [] [])
  = Some ([Totals 100 3 1; FailKind "http 500" 1; Latencies 49 94 98; ServerRSS 2048 2100 52; Pass], 0).
Proof. vm_compute. reflexivity. Qed.

Example rss_examples : map rssKB [Some "  1234"; Some ""; Some "x"; Some "99999999999999999999"; Some "-99999999999999999999z"; None]
  = [1234; 0; 0; 9223372036854775807; -9223372036854775808; -1].
Proof. vm_compute. reflexivity. Qed.

End LoadGen.

(** ** The conformance sender (conformance/gosender/main.go); the Sentry SDK is
    a parameter: a client, what capturing does to it, and its flush. *)
Module GoSender.
Section Sender.
Context {Client : Type} (sentry_Init : string -> string -> string -> option Client)
  (CaptureException : string -> Client -> Client) (Flush : Z -> Client -> Client * bool).

Definition fetchInvoice : option string := Some "invoice 4471 not found in ledger".

(** The exit code, with the client at the end; [None] is the panic of a
    missing argument. *)
Definition main_ (args : list string) : option (Z * option Client) :=
  match args with
  | _ :: dsn :: _ =>
      match sentry_Init dsn "conformance-go-1.0" "conformance" with
      | None => Some (1, None)
      | Some c =>
          let c := match fetchInvoice with Some err => CaptureException err c | None => c end in
          let '(c, ok) := Flush (10 * LoadGen.second) c in
          Some (if ok then 0 else 1, Some c)
      end
  | _ => None
  end.

(** It exits with 0 exactly when a client was made and, after the one error
    was captured, its flush ended in time. *)
Lemma exits_zero args c : main_ args = Some (0, c) <->
  exists p dsn rest c0 c1, args = p :: dsn :: rest /\ sentry_Init dsn "conformance-go-1.0" "conformance" = Some c0
    /\ Flush 10000000000 (CaptureException "invoice 4471 not found in ledger" c0) = (c1, true) /\ c = Some c1.
Proof.
  unfold main_. split.
  - destruct args as [|p [|dsn rest]]; try discriminate. destruct (sentry_Init _ _ _) as [c0|] eqn:E; [|discriminate].
    change (10 * LoadGen.second) with 10000000000. cbn [fetchInvoice].
    destruct (Flush _ _) as [c1 [|]] eqn:F; [|discriminate]. intros [= <-]. exists p, dsn, rest, c0, c1. auto.
  - intros (p & dsn & rest & c0 & c1 & -> & E & F & ->). rewrite E. cbn [fetchInvoice].
    change (10 * LoadGen.second) with 10000000000. rewrite F. reflexivity.
Qed.
End Sender.
End GoSender.
